(* ===== verification/_CoqProject ===== *)
-Q . S2P
Prelude.v
GoTime.v
GoStrings.v
GoFloat.v
FloatFacts.v
GoDuration.v
GoFlag.v
GoJson.v
GoRFC3339.v
GoMux.v
CronField.v
CronSpec.v
CronNext.v
CronParser.v
Job.v
JobJson.v
Dag.v
Store.v
MemoryStore.v
Backoff.v
FaultyStore.v
PostgresStore.v
PostgresClaims.v
Effects.v
Metrics.v
Worker.v
Dispatcher.v
Scheduler.v
Pool.v
Concurrency.v
Pass.v
Config.v
JobsFile.v
Api.v
ApiRoutes.v
Conformance.v
Main.v
