(* ===== verification/Prelude.v ===== *)
(** * Cronflux: a verification library

    Cronflux is a job scheduler.  Its packages under [src/] and their models:

    - [cron/] parses cron specifications and computes activation times.
      [CronField.v] models [bounds.go], [names.go] and [field.go]: a field is
      parsed into a 64-bit mask.  [CronSpec.v] models [spec.go]: the calendar walk
      of [Next], one control point of the source (its labels and loop heads) per
      visit.  [CronParser.v] models [parser.go], [constant.go] and the [Schedule]
      interface.  [CronNext.v] holds the proofs about the walk.
    - [internal/job/] defines jobs, runs, run states and the dependency graph.
      [Job.v] models [job.go], [run.go], [state.go]; [JobJson.v] models the JSON names of
      the fields of a job; [Dag.v] models [dag.go], with the order in which Go
      visits a map as a parameter.
    - [internal/store/] persists jobs and runs.  [Store.v] models [store.go]: the
      interface is a type of calls, its comments are a specification of each call
      on an abstract database, and the class [Store] packs a backend with the
      proof that it meets the specification.  [MemoryStore.v] models
      [memory/memory.go] and is an instance; [FaultyStore.v] is an instance whose
      calls fail on a schedule, for the error paths.  [PostgresStore.v] models
      [postgres/postgres.go] and the tables of [schema.sql]: a statement is a
      function on the tables, executed in a round trip that may fail, over a
      server that is a class.  [PostgresClaims.v] runs its claims concurrently, as
      transactions that lock rows one by one.  [Conformance.v] models
      [storetest/suite.go] as programs on any method table.
    - [backoff/] computes retry delays: [Backoff.v], on the binary64 arithmetic of
      [GoFloat.v], whose rounding [FloatFacts.v] analyses.
    - [internal/scheduler/] drives everything: [Worker.v] models [worker.go] and
      [executors.go], [Dispatcher.v] models [dispatcher.go], [Scheduler.v] models
      [scheduler.go] and the clocks of [internal/clock/clock.go].  Their code calls
      the store, a clock, an identifier source, an executor, metrics and a mutex:
      in [Effects.v] such a function is a tree of calls ([prog]), which [run]
      executes alone and [Pool.v] interleaves with others, call by call.
      [Concurrency.v] is the process with its goroutines, triggers and claims;
      [Pass.v] is the worker pool of [drain], with its channel and wait group.
      [Effects.v] also models the updates of [internal/metrics/metrics.go], whose
      collectors [Metrics.v] lists.
    - [internal/config/] resolves the configuration: [Config.v] models [config.go]
      and [load.go], [JobsFile.v] models [jobs.go].
    - [internal/api/] serves HTTP: [Api.v] models the handlers, their routes and
      the logging wrapper of [server.go], [jobs.go], [runs.go], [health.go] and
      [dashboard.go], as programs like those of the scheduler; [ApiRoutes.v]
      compares the routing with a table of the endpoints.
    - [cmd/cronflux/main.go] puts the parts together: [Main.v] models start-up as
      a function and serving ([ListenAndServe] of [server.go] included) as a step
      relation of the process; it also models [internal/buildinfo/].
    - [GoTime.v], [GoStrings.v], [GoDuration.v], [GoFloat.v], [GoFlag.v],
      [GoJson.v], [GoRFC3339.v] and [GoMux.v] model the parts of Go's standard
      library that the code uses: instants and the calendar, strings and decimal
      integers, [time.ParseDuration], [float64] and [math.Pow], the [flag]
      package, the decoder of [encoding/json], the layout [time.RFC3339], the
      patterns of [http.ServeMux].

    This file has what they share: error values and their notation, bounded
    iteration, machine integers, bit masks, tactics, list lemmas and [sort.Slice].

    ** State and data

    An integer is a [Z] with its wrap-around written out ([i64], [u64]); an
    instant is a number of nanoseconds since Go's zero time; a map is a [gmap]; a
    pointer that may be nil is an option; an error is a value of [result].  The
    environment ([Effects.env]) gives, for each moment of an execution, the
    identifier drawn, the clock reading, the outcome of an execution, whether the
    context is cancelled and the random number; theorems quantify over it.

    ** What the theorems show

    - Cron: the walk of [Next] ends, and returns the first instant after its
      argument at which the schedule fires within the search horizon, in every
      zone of constant offset in whole minutes; there it agrees with a search
      second by second; fields parse to the values they denote; descriptors mean
      what they say.  Three statements exhibit defects: a step that wraps around,
      a zone whose clocks skip midnight, a fold that never applies.
    - Graph: [TopoSort] returns a linear extension or finds a cycle, and does not
      depend on map order; [BuildGraph] accepts exactly the well-formed job sets.
    - Store: the in-memory store refines the contract after any sequence of
      calls; claims are first come first served, exclusive for the lease and
      repeated after it; listings paginate.  The PostgreSQL store refines the
      contract for every call whose arguments its columns can hold, and for any
      other call after rounding; when an answer is lost the caller sees an error
      although the call may have been executed.  Concurrent claims hold disjoint
      runs and respect leases.  Any store that meets the contract and claims promptly passes the
      conformance suite.
    - Backoff: without jitter and for durations below 2^53 ns, delays double
      exactly up to the cap; for every factor that is not NaN and every attempt
      they stay between zero and the largest duration with no out-of-range
      conversion.  With jitter an overflowing delay becomes a NaN.
    - Worker, dispatcher, scheduler: the effect of each operation on any store
      that meets the contract, on every branch; with schedules that do not give
      up, ticks terminate and fill exactly the elapsed slots, each once;
      dependents start exactly when their dependencies have
      succeeded.  Error paths are stated for stores that fail.  Two theorems show
      that a schedule that gives up makes the dispatcher loop for ever.
    - Concurrency: in every interleaving of goroutines, dispatches, claims and
      triggers, a job has at most one first attempt per batch and attempts stay
      within the retries.  The worker pool of a pass never has more goroutines at
      work than workers, never deadlocks and always returns with all of them over;
      running them one after the other, as [Scheduler.drain] does, is one of its
      executions.  The last theorem of [Concurrency.v] shows that two processes on
      one store lose the first property.
    - Configuration: [Load] and [LoadJobs] succeed on exactly the inputs they
      should and return what the specification says.
    - HTTP: every request with a clean path reaches the handler of its method and
      path, or is redirected or refused as the multiplexer does; the
      handlers of jobs and runs on every branch; reads and refused requests leave
      the store alone.
    - Process: what start-up leaves in the store or reports; shutdown closes the
      store after the scheduler has returned, and finishes as soon as no tick is in
      progress, unless a second signal kills the process before.

    ** Bounds

    [next_fuel] (2^31 visits) exceeds the length of any walk of [Next], which
    [Next_correct] proves by showing that it always returns.  The loops of [Dag.v]
    run on the number of nodes, those of strings on the length of the text.  The
    catch-up loop of the dispatcher can run for ever, so [fire_loop] takes fuel
    and [dispatch_correct] states how much is enough: one iteration per elapsed
    second.

    ** Not modelled

    Log output; the text of SQL statements, connection pools and the isolation of
    statements other than claims; the JSON text of a response, which is a value, and
    the texts of some errors, which are parameters; the Prometheus registry behind
    the metrics; time zones other than through the
    offset function of a location; the programs of [examples/].  Next steps:
    delays bounded with jitter, the JSON text of responses and its round trip with
    the decoder, the scheduler on a store that rounds instants, and completeness of dependent
    enqueueing under interleaving. *)

From Stdlib Require Import ZArith Lia.
From stdpp Require Import base list strings gmap sorting.

#[global] Open Scope Z_scope.

(** ** Errors as values

    A Go function that returns [(T, error)] is a function into
    [result E T]. *)

Inductive result (E A : Type) : Type :=
| Ok (a : A)
| Err (e : E).
Arguments Ok {E A} a.
Arguments Err {E A} e.

Definition is_ok {E A} (r : result E A) : bool :=
  match r with Ok _ => true | Err _ => false end.

Declare Scope go_scope.
Delimit Scope go_scope with go.

(** [let? x := e in k]: the idiom [x, err := e; if err != nil { return err }]. *)
Notation "'let?' x ':=' e 'in' k" :=
  (match e with Ok x => k | Err err => Err err end)
  (at level 10, x pattern, e at level 100, k at level 200) : go_scope.

#[global] Open Scope go_scope.

(** ** Bounded iteration

    [iter_until p step x] runs [step] at most [p] times and stops at the first
    [inr].  The bound is a binary number, so a bound of two thousand million
    costs nothing when the loop stops early.  [inl] means that the bound ran
    out. *)

Section IterUntil.
Context {S R : Type} (step : S -> S + R).

Fixpoint iter_until (p : positive) (x : S) : S + R :=
  match p with
  | xH => step x
  | xO q =>
      match iter_until q x with
      | inl y => iter_until q y
      | inr r => inr r
      end
  | xI q =>
      match step x with
      | inl y =>
          match iter_until q y with
          | inl z => iter_until q z
          | inr r => inr r
          end
      | inr r => inr r
      end
  end.

(** The plain unary iteration, as a reference for [iter_until]. *)
Fixpoint iter_nat (n : nat) (x : S) : S + R :=
  match n with
  | O => inl x
  | Datatypes.S m => match step x with inl y => iter_nat m y | inr r => inr r end
  end.

Lemma iter_nat_add n m x :
  iter_nat (n + m) x =
    match iter_nat n x with inl y => iter_nat m y | inr r => inr r end.
Proof.
  revert x; induction n as [|n IH]; intros x; simpl; [done|].
  destruct (step x); auto.
Qed.

Lemma iter_until_nat p x : iter_until p x = iter_nat (Pos.to_nat p) x.
Proof.
  revert x; induction p as [q IH|q IH|]; intros x.
  - rewrite Pos2Nat.inj_xI. simpl. destruct (step x) as [y|r]; [|done].
    rewrite Nat.add_0_r, iter_nat_add, IH.
    destruct (iter_nat _ y); auto.
  - rewrite Pos2Nat.inj_xO. simpl. rewrite Nat.add_0_r, iter_nat_add, IH.
    destruct (iter_nat _ x); auto.
  - rewrite Pos2Nat.inj_1. simpl. destruct (step x); done.
Qed.

(** Invariant rule: a property kept by every step that does not stop, and
    that gives the postcondition at a step that stops. *)
Lemma iter_until_inv (I : S -> Prop) (Q : R -> Prop) :
  (forall x, I x -> match step x with inl y => I y | inr r => Q r end) ->
  forall p x, I x -> match iter_until p x with inl y => I y | inr r => Q r end.
Proof.
  intros Hs p x Hx. rewrite iter_until_nat.
  generalize (Pos.to_nat p); intros n; revert x Hx.
  induction n as [|n IH]; intros x Hx; simpl; [done|].
  specialize (Hs x Hx). destruct (step x) as [y|r]; [by apply IH|done].
Qed.

Lemma iter_until_post (I : S -> Prop) (Q : R -> Prop) p x r :
  I x ->
  (forall y, I y -> match step y with inl z => I z | inr r => Q r end) ->
  iter_until p x = inr r -> Q r.
Proof.
  intros Hx Hs Hr. pose proof (iter_until_inv I Q Hs p x Hx) as H. by rewrite Hr in H.
Qed.

(** Termination rule: a measure that every step that does not stop
    decreases. *)
Lemma iter_until_terminates (I : S -> Prop) (mu : S -> Z) :
  (forall x, I x -> match step x with
                    | inl y => I y /\ 0 <= mu y < mu x
                    | inr _ => True end) ->
  forall p x, I x -> mu x < Zpos p -> exists r, iter_until p x = inr r.
Proof.
  intros Hs p x Hx Hm. rewrite iter_until_nat.
  assert (mu x < Z.of_nat (Pos.to_nat p)) as Hlt by lia.
  assert (0 < Pos.to_nat p)%nat as Hpos by lia.
  revert Hlt Hpos. generalize (Pos.to_nat p); intros n; clear Hm; revert x Hx.
  induction n as [|n IH]; intros x Hx Hlt Hpos; [lia|].
  simpl. specialize (Hs x Hx). destruct (step x) as [y|r]; [|eauto].
  destruct Hs as [Hy [Hl Hr]]. apply IH; auto; lia.
Qed.

(** Divergence rule: a set of states in which no step stops. *)
Lemma iter_until_diverges (I : S -> Prop) :
  (forall x, I x -> exists y, step x = inl y /\ I y) ->
  forall p x, I x -> exists y, iter_until p x = inl y /\ I y.
Proof.
  intros Hs p x Hx. rewrite iter_until_nat.
  generalize (Pos.to_nat p); intros n; revert x Hx.
  induction n as [|n IH]; intros x Hx; simpl; [eauto|].
  destruct (Hs x Hx) as (y & -> & Hy). auto.
Qed.

(** More fuel does not change a result. *)
Lemma iter_until_mono p q x r :
  (p <= q)%positive -> iter_until p x = inr r -> iter_until q x = inr r.
Proof.
  rewrite !iter_until_nat. intros Hle Hp.
  replace (Pos.to_nat q) with (Pos.to_nat p + (Pos.to_nat q - Pos.to_nat p))%nat
    by lia.
  rewrite iter_nat_add, Hp. done.
Qed.
End IterUntil.

(** ** Machine integers *)

Definition two64 : Z := 18446744073709551616.
Definition two63 : Z := 9223372036854775808.
Definition max_int64 : Z := two63 - 1.
Definition min_int64 : Z := - two63.

(** Unsigned 64-bit wrap-around: [uint], [uint64] on a 64-bit platform. *)
Definition u64 (x : Z) : Z := x mod two64.

(** Signed 64-bit wrap-around: [int], [int64], [time.Duration]. *)
Definition i64 (x : Z) : Z := (x + two63) mod two64 - two63.

Lemma u64_small x : 0 <= x < two64 -> u64 x = x.
Proof. intros H. unfold u64. by rewrite Z.mod_small. Qed.

Lemma i64_small x : min_int64 <= x <= max_int64 -> i64 x = x.
Proof.
  unfold i64, min_int64, max_int64, two63, two64. intros H.
  rewrite Z.mod_small; lia.
Qed.

Lemma i64_range x : min_int64 <= i64 x <= max_int64.
Proof.
  unfold i64, min_int64, max_int64, two63, two64.
  pose proof (Z.mod_pos_bound (x + 9223372036854775808) 18446744073709551616).
  lia.
Qed.

(** ** Bit masks *)

Create Rewrite HintDb bits.
#[export] Hint Rewrite Z.lor_spec Z.land_spec Z.ldiff_spec Z.bits_0 : bits.

Lemma testbit_bit i j : 0 <= i -> Z.testbit (Z.shiftl 1 i) j = bool_decide (i = j).
Proof.
  intros Hi. rewrite Z.shiftl_1_l, Z.pow2_bits_eqb by lia.
  case_bool_decide; subst; [apply Z.eqb_refl|by apply Z.eqb_neq].
Qed.

(** The test [1<<i & m == 0] of the source, negated, is [Z.testbit m i]. *)
Lemma land_bit_testbit m i :
  0 <= i -> (Z.land (Z.shiftl 1 i) m =? 0) = negb (Z.testbit m i).
Proof.
  intros Hi. destruct (Z.testbit m i) eqn:E; simpl.
  - apply Z.eqb_neq. intros H.
    assert (Z.testbit (Z.land (Z.shiftl 1 i) m) i = false) as H'
      by (rewrite H; apply Z.bits_0).
    rewrite Z.land_spec, testbit_bit, bool_decide_eq_true_2, E in H' by done.
    done.
  - apply Z.eqb_eq. apply Z.bits_inj'. intros j Hj.
    rewrite Z.land_spec, testbit_bit, Z.bits_0 by done.
    case_bool_decide; subst; rewrite ?E; done.
Qed.

(** ** Tactics *)

(** Split every boolean connective and comparison of the hypotheses and the
    goal, then leave the arithmetic to [lia]. *)
Ltac bool_lia :=
  repeat match goal with
    | H : andb _ _ = true |- _ => apply andb_true_iff in H; destruct H
    | H : orb _ _ = false |- _ => apply orb_false_iff in H; destruct H
    | H : negb _ = true |- _ => apply negb_true_iff in H
    | H : negb _ = false |- _ => apply negb_false_iff in H
    end; lia.

(** Case analysis on the scrutinee of a match or an if, in the goal or in a
    hypothesis, remembering the equation. *)
Ltac case_on :=
  match goal with
  | |- context [match ?x with _ => _ end] => destruct x eqn:?
  | H : context [match ?x with _ => _ end] |- _ => destruct x eqn:?
  end.

(** Linear arithmetic with division and remainder by constants. *)
Ltac div_lia := Z.to_euclidean_division_equations; lia.

(** ** Lists *)

Section Lists.
Context {A : Type}.
Implicit Types l : list A.

Lemma list_filter_ext (P Q : A -> Prop) 
    {HP : forall x, Decision (P x)} {HQ : forall x, Decision (Q x)} l :
  (forall x, x ∈ l -> P x <-> Q x) -> filter P l = filter Q l.
Proof.
  intros Heq. induction l as [|x l IH]; [done|]. rewrite !filter_cons.
  rewrite IH by (intros; apply Heq; by right).
  pose proof (Heq x ltac:(by left)). repeat case_decide; tauto.
Qed.

(** Two sorted permutations of each other are equal. *)
Lemma sorted_perm_unique (R : relation A) `{!Transitive R, !AntiSymm (=) R} l1 l2 :
  Sorted R l1 -> Sorted R l2 -> l1 ≡ₚ l2 -> l1 = l2.
Proof. intros. by apply (Sorted_unique R). Qed.

Lemma merge_sort_perm_eq (R : relation A)
    `{!RelDecision R, !Transitive R, !AntiSymm (=) R, !Total R} l1 l2 :
  l1 ≡ₚ l2 -> merge_sort R l1 = merge_sort R l2.
Proof.
  intros Hp. apply (sorted_perm_unique R); try apply (Sorted_merge_sort R).
  by rewrite !merge_sort_Permutation.
Qed.

Lemma StronglySorted_weaken (R S : relation A) l :
  (forall x y, R x y -> S x y) -> StronglySorted R l -> StronglySorted S l.
Proof. intros Hsub. induction 1; constructor; [done|]. eapply Forall_impl; eauto. Qed.

Lemma Forall2_impl_in {B} (P Q : A -> B -> Prop) l (k : list B) :
  Forall2 P l k -> (forall x y, x ∈ l -> P x y -> Q x y) -> Forall2 Q l k.
Proof.
  induction 1 as [|x y l k Hxy _ IH]; intros HPQ; constructor.
  - apply HPQ; [by left|done].
  - apply IH. intros x' y' Hx'. apply HPQ. by right.
Qed.

(** Consecutive windows of width [n] put back together. *)
Lemma take_drop_chunks_aux n (k i : nat) l :
  (0 < n)%nat -> (length l <= (i + k) * n)%nat ->
  mjoin (map (fun i => take n (drop (i * n) l)) (seq i k)) = drop (i * n) l.
Proof.
  intros Hn. revert i. induction k as [|k IH]; intros i Hl; simpl.
  { rewrite drop_ge by lia. done. }
  rewrite IH by lia. simpl. rewrite <-(take_drop n (drop (i * n) l)) at 2.
  rewrite drop_drop. by rewrite (Nat.add_comm (i * n)).
Qed.

Lemma take_drop_chunks n k l :
  (0 < n)%nat -> (length l <= k * n)%nat ->
  mjoin (map (fun i => take n (drop (i * n) l)) (seq 0 k)) = l.
Proof. intros Hn Hl. by rewrite take_drop_chunks_aux. Qed.

Lemma NoDup_length_le `{Countable A} l (X : gset A) :
  NoDup l -> (forall x, x ∈ l -> x ∈ X) -> (length l <= size X)%nat.
Proof.
  intros Hnd Hsub. rewrite <-(size_list_to_set (C:=gset A) l Hnd).
  apply subseteq_size. intros x. rewrite elem_of_list_to_set. auto.
Qed.
End Lists.

(** ** [sort.Slice]

    Sorting by a [less] function.  Go's sort is not stable; every use in the
    program orders by a key that is unique in the slice, and then the result
    does not depend on the algorithm or on the order of the input
    ([sort_slice_unique]). *)

Section SortSlice.
Context {A : Type} (less : A -> A -> bool).

Definition not_less (a b : A) : Prop := less b a = false.
#[local] Instance not_less_dec : RelDecision not_less.
Proof. intros a b. unfold not_less. apply _. Defined.

Definition sort_slice (l : list A) : list A := merge_sort not_less l.

Lemma sort_slice_perm l : sort_slice l ≡ₚ l.
Proof. apply merge_sort_Permutation. Qed.

Lemma elem_of_sort_slice l x : x ∈ sort_slice l <-> x ∈ l.
Proof. by rewrite sort_slice_perm. Qed.

Context (Htotal : forall a b, less a b = true -> less b a = false)
  (Htrans : forall a b c, less b a = false -> less c b = false -> less c a = false).

#[local] Instance not_less_trans : Transitive not_less.
Proof. intros a b c. apply Htrans. Qed.
#[local] Instance not_less_total : Total not_less.
Proof.
  intros a b. unfold not_less. destruct (less b a) eqn:E; [right; auto|by left].
Qed.

Lemma sort_slice_sorted l : StronglySorted not_less (sort_slice l).
Proof. apply (StronglySorted_merge_sort _). Qed.

Lemma sort_slice_unique l l' :
  (forall x y, x ∈ l -> y ∈ l -> less x y = false -> less y x = false -> x = y) ->
  l ≡ₚ l' -> sort_slice l = sort_slice l'.
Proof.
  intros Hanti Hp. apply (StronglySorted_unique_strong not_less).
  - intros x y. rewrite !elem_of_sort_slice. rewrite <-Hp. intros Hx Hy H1 H2. by apply Hanti.
  - apply sort_slice_sorted.
  - apply sort_slice_sorted.
  - by rewrite !sort_slice_perm.
Qed.
End SortSlice.

(** Go compares strings byte by byte; [ltb] is the strict comparison. *)
Lemma string_ltb_le a b : String.ltb a b = false <-> String.le b a.
Proof.
  unfold String.ltb, String.le, String.leb. rewrite (String.compare_antisym a b).
  by destruct (String.compare b a).
Qed.

Lemma string_ltb_asym a b : String.ltb a b = true -> String.ltb b a = false.
Proof.
  unfold String.ltb. rewrite (String.compare_antisym b a). by destruct (String.compare a b).
Qed.
