(* ===== verification/GoTime.v ===== *)
(** * The part of Go's [time] package that cronflux uses

    Instants, durations, locations, the proleptic Gregorian calendar,
    [time.Date], [Time.AddDate], [Time.Truncate] and the field accessors.

    An instant ([time.Time]) is the number of nanoseconds since Go's zero time,
    January 1 of year 1, 00:00:00 UTC; [time.Time{}] is [0].  A duration
    ([time.Duration]) is a signed 64-bit number of nanoseconds.  The location a
    [time.Time] carries only selects how its calendar fields are read, so it is
    an argument of the accessors. *)

From Stdlib Require Import ZArith Lia.
From stdpp Require Import base list.
From S2P Require Import Prelude.

Definition time := Z.
Definition duration := Z.

Definition zero_time : time := 0.
Definition IsZero (t : time) : bool := t =? 0.

Definition Nanosecond : duration := 1.
Definition Millisecond : duration := 1000000.
Definition Second : duration := 1000000000.
Definition Minute : duration := 60 * Second.
Definition Hour : duration := 60 * Minute.

Definition After (t u : time) : bool := u <? t.
Definition Before (t u : time) : bool := t <? u.
Definition Equal (t u : time) : bool := t =? u.
Definition Add (t : time) (d : duration) : time := t + d.

(** [t.Sub(u)] saturates at the ends of [time.Duration]. *)
Definition Sub (t u : time) : duration :=
  Z.max min_int64 (Z.min max_int64 (t - u)).

(** [t.Truncate(d)]: down to a multiple of [d] since the zero time. *)
Definition Truncate (t : time) (d : duration) : time :=
  if d <=? 0 then t else t - t mod d.

(** ** Calendar *)

Definition isLeap (y : Z) : bool :=
  (y mod 4 =? 0) && (negb (y mod 100 =? 0) || (y mod 400 =? 0)).

(** Days from January 1 of year 1 to January 1 of year [y]. *)
Definition days_before_year (y : Z) : Z :=
  365 * (y - 1) + (y - 1) / 4 - (y - 1) / 100 + (y - 1) / 400.

Definition year_len (y : Z) : Z := if isLeap y then 366 else 365.

(** Days before month [m] in a common year. *)
Definition daysBefore (m : Z) : Z :=
  nth (Z.to_nat (m - 1)) [0; 31; 59; 90; 120; 151; 181; 212; 243; 273; 304; 334; 365] 365.

Definition month_offset (leap : bool) (m : Z) : Z :=
  daysBefore m + (if leap && (3 <=? m) then 1 else 0).

Definition days_before_month (y m : Z) : Z := month_offset (isLeap y) m.

Definition days_in_month (y m : Z) : Z :=
  days_before_month y (m + 1) - days_before_month y m.

(** Year and zero-based day of the year of a day number, by 400, 100, 4 and
    1 year cycles. *)
Definition year_yday (d : Z) : Z * Z :=
  let n400 := d / 146097 in
  let d1 := d - 146097 * n400 in
  let n100 := d1 / 36524 in
  let n100 := n100 - n100 / 4 in
  let d2 := d1 - 36524 * n100 in
  let n4 := d2 / 1461 in
  let d3 := d2 - 1461 * n4 in
  let n1 := d3 / 365 in
  let n1 := n1 - n1 / 4 in
  (400 * n400 + 100 * n100 + 4 * n4 + n1 + 1, d3 - 365 * n1).

(** Month and day of the month of a zero-based day of the year. *)
Definition month_day (leap : bool) (yday : Z) : Z * Z :=
  if leap && (yday =? 59) then (2, 29)
  else
    let day := if leap && (59 <? yday) then yday - 1 else yday in
    let m := day / 31 + 1 in
    if daysBefore (m + 1) <=? day
    then (m + 1, day - daysBefore (m + 1) + 1)
    else (m, day - daysBefore m + 1).

Definition civil_of_days (d : Z) : Z * Z * Z :=
  let '(y, yd) := year_yday d in
  let '(m, dd) := month_day (isLeap y) yd in
  (y, m, dd).

(** ** Locations *)

Record zone := Zone { z_offset : Z; z_start : Z; z_end : Z }.

(** A location looks up the zone in force at a second since the zero time. *)
Definition Location := Z -> zone.

Definition FixedZone (off : Z) : Location := fun _ => Zone off min_int64 max_int64.
Definition UTC : Location := FixedZone 0.

(** Seconds shown by a wall clock in [loc] at instant [t]. *)
Definition wall (loc : Location) (t : time) : Z :=
  t / Second + z_offset (loc (t / Second)).

Definition w_civil (w : Z) : Z * Z * Z := civil_of_days (w / 86400).
Definition w_year (w : Z) : Z := (w_civil w).1.1.
Definition w_month (w : Z) : Z := (w_civil w).1.2.
Definition w_day (w : Z) : Z := (w_civil w).2.
Definition w_weekday (w : Z) : Z := (w / 86400 + 1) mod 7.
Definition w_hour (w : Z) : Z := w mod 86400 / 3600.
Definition w_minute (w : Z) : Z := w mod 3600 / 60.
Definition w_second (w : Z) : Z := w mod 60.

Definition Year (loc : Location) (t : time) : Z := w_year (wall loc t).
Definition Month (loc : Location) (t : time) : Z := w_month (wall loc t).
Definition Day (loc : Location) (t : time) : Z := w_day (wall loc t).
Definition Weekday (loc : Location) (t : time) : Z := w_weekday (wall loc t).
Definition THour (loc : Location) (t : time) : Z := w_hour (wall loc t).
Definition TMinute (loc : Location) (t : time) : Z := w_minute (wall loc t).
Definition TSecond (loc : Location) (t : time) : Z := w_second (wall loc t).
Definition TNanosecond (t : time) : Z := t mod Second.

(** Wall-clock seconds of a date whose fields may be out of range. *)
Definition wall_of (year month day hour min sec : Z) : Z :=
  let y := year + (month - 1) / 12 in
  let m := (month - 1) mod 12 + 1 in
  (days_before_year y + days_before_month y m + (day - 1)) * 86400
  + hour * 3600 + min * 60 + sec.

(** The instant at which a wall clock in [loc] shows [w]: the offset found at
    [w] itself is kept when it is in force at the resulting instant. *)
Definition resolve (loc : Location) (w : Z) : Z :=
  let z := loc w in
  if z_offset z =? 0 then w
  else
    let utc := w - z_offset z in
    if (utc <? z_start z) || (z_end z <=? utc)
    then w - z_offset (loc utc)
    else utc.

(** [time.Date]. *)
Definition Date (year month day hour min sec nsec : Z) (loc : Location) : time :=
  resolve loc (wall_of year month day hour min (sec + nsec / Second)) * Second
  + nsec mod Second.

(** [t.AddDate(years, months, days)] for a [t] in [loc]. *)
Definition AddDate (loc : Location) (t : time) (years months days : Z) : time :=
  Date (Year loc t + years) (Month loc t + months) (Day loc t + days)
       (THour loc t) (TMinute loc t) (TSecond loc t) (TNanosecond t) loc.

Example civil_2026 : civil_of_days (wall_of 2026 5 1 10 0 0 / 86400) = (2026, 5, 1).
Proof. vm_compute. done. Qed.
Example weekday_2026 : w_weekday (wall_of 2026 5 1 10 0 0) = 5.
Proof. vm_compute. done. Qed.
Example unix_epoch : wall_of 1970 1 1 0 0 0 = 62135596800.
Proof. vm_compute. done. Qed.
Example add_month_overflow : AddDate UTC (Date 2025 10 31 1 2 3 4 UTC) 0 1 0
  = Date 2025 12 1 1 2 3 4 UTC.
Proof. vm_compute. done. Qed.

(** ** Facts of the calendar *)

Lemma isLeap_year_len y : year_len y = days_before_year (y + 1) - days_before_year y.
Proof.
  unfold year_len, isLeap, days_before_year.
  destruct (Z.eqb_spec (y mod 4) 0), (Z.eqb_spec (y mod 100) 0),
    (Z.eqb_spec (y mod 400) 0); simpl; div_lia.
Qed.

Lemma year_len_pos y : 365 <= year_len y <= 366.
Proof. unfold year_len. destruct (isLeap y); lia. Qed.

Lemma days_before_year_lt y y' : y < y' -> days_before_year y < days_before_year y'.
Proof. unfold days_before_year. intros. div_lia. Qed.

(** A year written in its four cycles. *)
Lemma days_before_year_cycles a b c e :
  0 <= b <= 3 -> 0 <= c <= 24 -> 0 <= e <= 3 ->
  days_before_year (400 * a + 100 * b + 4 * c + e + 1)
  = 146097 * a + 36524 * b + 1461 * c + 365 * e.
Proof. intros. unfold days_before_year. div_lia. Qed.

Lemma year_len_cycles a b c e :
  0 <= b <= 3 -> 0 <= c <= 24 -> 0 <= e <= 3 ->
  year_len (400 * a + 100 * b + 4 * c + e + 1)
  = if (e =? 3) && (negb (c =? 24) || (b =? 3)) then 366 else 365.
Proof.
  intros. rewrite isLeap_year_len, days_before_year_cycles by lia.
  unfold days_before_year.
  destruct (Z.eqb_spec e 3), (Z.eqb_spec c 24), (Z.eqb_spec b 3); simpl; div_lia.
Qed.

Lemma year_yday_spec d :
  days_before_year (year_yday d).1 + (year_yday d).2 = d
  /\ 0 <= (year_yday d).2 < year_len (year_yday d).1.
Proof.
  unfold year_yday. cbv zeta.
  set (a := d / 146097). set (d1 := d - 146097 * a).
  assert (0 <= d1 < 146097) as H1 by (subst d1 a; div_lia).
  set (b := d1 / 36524 - d1 / 36524 / 4). set (d2 := d1 - 36524 * b).
  assert (0 <= b <= 3 /\ 0 <= d2 <= 36524 /\ (d2 = 36524 -> b = 3)) as (Hb & H2 & H2')
    by (subst d2 b; div_lia).
  set (c := d2 / 1461). set (d3 := d2 - 1461 * c).
  assert (0 <= c <= 24 /\ 0 <= d3 < 1461 /\ (c = 24 -> d3 <= 1460)) as (Hc & H3 & H3')
    by (subst d3 c; div_lia).
  assert (c = 24 -> d3 = 1460 -> d2 = 36524) as H3'' by lia.
  set (e := d3 / 365 - d3 / 365 / 4).
  assert (0 <= e <= 3 /\ 0 <= d3 - 365 * e <= 365 /\ (d3 - 365 * e = 365 -> e = 3))
    as (He & H4 & H4') by (subst e; div_lia).
  simpl. rewrite days_before_year_cycles, year_len_cycles by lia.
  split; [lia|].
  destruct (Z.eqb_spec e 3), (Z.eqb_spec c 24), (Z.eqb_spec b 3); simpl; lia.
Qed.

Lemma year_yday_unique y yd :
  0 <= yd < year_len y -> year_yday (days_before_year y + yd) = (y, yd).
Proof.
  intros Hyd. pose proof (year_yday_spec (days_before_year y + yd)) as [He Hr].
  destruct (year_yday _) as [y' yd']; simpl in *.
  assert (y' = y) as ->; [|f_equal; lia].
  rewrite isLeap_year_len in *.
  destruct (Z.lt_trichotomy y y') as [H|[H|H]]; [|done|].
  - assert (y + 1 <= y') as [?%days_before_year_lt| <-]%Z.le_lteq by lia; lia.
  - assert (y' + 1 <= y) as [?%days_before_year_lt| <-]%Z.le_lteq by lia; lia.
Qed.

(** The two month facts hold for each of the finitely many days of a year and
    are checked by evaluation. *)
Definition month_day_ok (leap : bool) (yd : Z) : bool :=
  let '(m, dd) := month_day leap yd in
  (1 <=? m) && (m <=? 12) && (1 <=? dd)
  && (month_offset leap m + (dd - 1) =? yd)
  && (yd <? month_offset leap (m + 1)).

Lemma month_day_spec (leap : bool) yd :
  0 <= yd < (if leap then 366 else 365) ->
  1 <= (month_day leap yd).1 <= 12 /\
  1 <= (month_day leap yd).2 /\
  month_offset leap (month_day leap yd).1 + ((month_day leap yd).2 - 1) = yd /\
  yd < month_offset leap ((month_day leap yd).1 + 1).
Proof.
  intros H.
  assert (month_day_ok leap yd = true) as Hok.
  { assert (forallb (month_day_ok leap) (seqZ 0 (if leap then 366 else 365)) = true)
      as Hall by (destruct leap; vm_compute; done).
    rewrite forallb_forall in Hall. apply Hall, list_elem_of_In, elem_of_seqZ. lia. }
  unfold month_day_ok in Hok. destruct (month_day leap yd); simpl in *. bool_lia.
Qed.

Lemma month_offset_mono (leap : bool) m m' :
  1 <= m -> m < m' -> m' <= 13 -> month_offset leap m < month_offset leap m'.
Proof.
  intros H1 H2 H3.
  assert (forallb (fun a => forallb (fun b =>
            implb (a <? b) (month_offset leap a <? month_offset leap b))
            (seqZ 1 13)) (seqZ 1 13) = true) as Hall
    by (destruct leap; vm_compute; done).
  rewrite forallb_forall in Hall.
  specialize (Hall m). rewrite forallb_forall in Hall.
  assert (implb (m <? m') (month_offset leap m <? month_offset leap m') = true) as Hi.
  { apply Hall; apply list_elem_of_In, elem_of_seqZ; lia. }
  destruct (Z.ltb_spec m m'); simpl in Hi; lia.
Qed.

Lemma month_day_unique (leap : bool) m dd :
  1 <= m <= 12 -> 1 <= dd -> month_offset leap m + (dd - 1) < month_offset leap (m + 1) ->
  month_day leap (month_offset leap m + (dd - 1)) = (m, dd).
Proof.
  intros Hm Hdd Hlt.
  assert (month_offset leap 1 = 0) as H0 by (destruct leap; done).
  assert (month_offset leap 13 = if leap then 366 else 365) as H13 by (destruct leap; done).
  assert (0 <= month_offset leap m) as Hp.
  { destruct (Z.eq_dec m 1) as [->|]; [lia|].
    pose proof (month_offset_mono leap 1 m); lia. }
  assert (month_offset leap (m + 1) <= month_offset leap 13) as Hq.
  { destruct (Z.eq_dec m 12) as [->|]; [done|].
    pose proof (month_offset_mono leap (m + 1) 13); lia. }
  pose proof (month_day_spec leap (month_offset leap m + (dd - 1))) as Hs.
  destruct Hs as (Hm' & Hd' & He & Hu); [lia|].
  destruct (month_day _ _) as [m' d']; simpl in *.
  assert (m' = m) as ->; [|f_equal; lia].
  destruct (Z.lt_trichotomy m m') as [H|[H|H]]; [|done|].
  - destruct (Z.eq_dec (m + 1) m') as [<-|]; [lia|].
    pose proof (month_offset_mono leap (m + 1) m'); lia.
  - destruct (Z.eq_dec (m' + 1) m) as [<-|]; [lia|].
    pose proof (month_offset_mono leap (m' + 1) m); lia.
Qed.

(** First day of a month, as a day number. *)
Definition month_start (y m : Z) : Z := days_before_year y + days_before_month y m.

Lemma month_offset_ends y :
  month_offset (isLeap y) 1 = 0 /\ month_offset (isLeap y) 13 = year_len y.
Proof. unfold year_len. destruct (isLeap y); done. Qed.

(** Every day number lies in exactly one month, and [civil_of_days] finds it. *)
Lemma civil_of_days_spec d :
  let '(y, m, dd) := civil_of_days d in
  1 <= m <= 12 /\ 1 <= dd <= days_in_month y m /\ month_start y m + (dd - 1) = d.
Proof.
  unfold civil_of_days, month_start, days_in_month, days_before_month.
  pose proof (year_yday_spec d) as [He Hr]. destruct (year_yday d) as [y yd]; simpl in *.
  pose proof (month_day_spec (isLeap y) yd) as Hs.
  destruct (month_day (isLeap y) yd) as [m dd]; simpl in *.
  unfold year_len in Hr. specialize (Hs Hr). lia.
Qed.

Lemma civil_of_days_unique y m dd :
  1 <= m <= 12 -> 1 <= dd <= days_in_month y m ->
  civil_of_days (month_start y m + (dd - 1)) = (y, m, dd).
Proof.
  unfold civil_of_days, month_start, days_in_month, days_before_month. intros Hm Hd.
  destruct (month_offset_ends y) as [H0 H13].
  assert (0 <= month_offset (isLeap y) m) as Hp.
  { destruct (Z.eq_dec m 1) as [->|]; [lia|].
    pose proof (month_offset_mono (isLeap y) 1 m); lia. }
  assert (month_offset (isLeap y) (m + 1) <= month_offset (isLeap y) 13) as Hq.
  { destruct (Z.eq_dec m 12) as [->|]; [done|].
    pose proof (month_offset_mono (isLeap y) (m + 1) 13); lia. }
  rewrite <-Z.add_assoc, year_yday_unique by lia.
  rewrite month_day_unique by lia. done.
Qed.

(** ** Units of the wall clock

    [month_begin w] and [month_end w] delimit the month that contains the
    wall-clock second [w]; within it year and month are constant. *)

Definition month_begin (w : Z) : Z := month_start (w_year w) (w_month w) * 86400.
Definition month_end (w : Z) : Z :=
  (month_start (w_year w) (w_month w) + days_in_month (w_year w) (w_month w)) * 86400.

Lemma w_fields_range w :
  1 <= w_month w <= 12 /\ 1 <= w_day w <= days_in_month (w_year w) (w_month w)
  /\ month_start (w_year w) (w_month w) + (w_day w - 1) = w / 86400.
Proof.
  unfold w_year, w_month, w_day, w_civil.
  pose proof (civil_of_days_spec (w / 86400)) as H.
  destruct (civil_of_days _) as [[y m] d]; simpl. done.
Qed.

Lemma days_in_month_pos y m : 1 <= m <= 12 -> 1 <= days_in_month y m <= 31.
Proof.
  intros Hm. unfold days_in_month, days_before_month.
  assert (m ∈ seqZ 1 12) as Hin by (apply elem_of_seqZ; lia).
  revert Hin. generalize (isLeap y). clear Hm. intros leap Hin.
  assert (forallb (fun m => (1 <=? month_offset leap (m + 1) - month_offset leap m)
     && (month_offset leap (m + 1) - month_offset leap m <=? 31)) (seqZ 1 12) = true)
    as Hall by (destruct leap; vm_compute; done).
  rewrite forallb_forall in Hall. specialize (Hall m).
  rewrite <-list_elem_of_In in Hall. specialize (Hall Hin). bool_lia.
Qed.

Lemma w_day_range w : 1 <= w_day w <= 31.
Proof.
  destruct (w_fields_range w) as (Hm & Hd & _).
  pose proof (days_in_month_pos (w_year w) (w_month w) Hm). lia.
Qed.

Lemma month_bounds w : month_begin w <= w < month_end w.
Proof.
  unfold month_begin, month_end. destruct (w_fields_range w) as (_ & Hd & He). div_lia.
Qed.

Lemma same_month w v :
  month_begin w <= v < month_end w -> w_year v = w_year w /\ w_month v = w_month w.
Proof.
  unfold month_begin, month_end. intros Hv.
  destruct (w_fields_range w) as (Hm & _ & _).
  generalize dependent (w_month w). generalize (w_year w). intros y m Hv Hm.
  pose proof (civil_of_days_unique y m (v / 86400 - month_start y m + 1) Hm) as Hu.
  unfold w_year, w_month, w_civil.
  replace (v / 86400) with (month_start y m + (v / 86400 - month_start y m + 1 - 1)) by lia.
  rewrite Hu by div_lia. done.
Qed.

Lemma same_month_bounds w v :
  month_begin w <= v < month_end w ->
  month_begin v = month_begin w /\ month_end v = month_end w.
Proof.
  intros [Hy Hm]%same_month. unfold month_begin, month_end. rewrite Hy, Hm. done.
Qed.

(** The month after [y, m]. *)
Lemma month_start_next y m :
  1 <= m <= 12 ->
  month_start y m + days_in_month y m
  = month_start (y + m / 12) (m mod 12 + 1).
Proof.
  intros Hm. unfold month_start, days_in_month, days_before_month.
  destruct (Z.eq_dec m 12) as [->|Hne].
  - change (12 / 12) with 1. change (12 mod 12 + 1) with 1. change (12 + 1) with 13.
    destruct (month_offset_ends y) as [_ H13], (month_offset_ends (y + 1)) as [H1 _].
    rewrite H1, H13, isLeap_year_len. lia.
  - rewrite Z.div_small, Z.mod_small, Z.add_0_r by lia. lia.
Qed.

Lemma wall_of_in_range y m d h mi s :
  1 <= m <= 12 ->
  wall_of y m d h mi s = (month_start y m + (d - 1)) * 86400 + h * 3600 + mi * 60 + s.
Proof.
  intros Hm. unfold wall_of, month_start.
  rewrite Z.div_small, Z.mod_small, Z.add_0_r, Z.sub_add by lia. done.
Qed.

Lemma wall_of_month w : wall_of (w_year w) (w_month w) 1 0 0 0 = month_begin w.
Proof.
  destruct (w_fields_range w) as (Hm & _ & _). unfold month_begin.
  rewrite wall_of_in_range by done. lia.
Qed.

Lemma wall_of_next_month w : wall_of (w_year w) (w_month w + 1) 1 0 0 0 = month_end w.
Proof.
  destruct (w_fields_range w) as (Hm & _ & _). unfold wall_of, month_end.
  rewrite month_start_next by done. unfold month_start.
  replace (w_month w + 1 - 1) with (w_month w) by lia. lia.
Qed.

(** The first second of a month. *)
Lemma w_fields_month_start y m :
  1 <= m <= 12 ->
  w_year (month_start y m * 86400) = y /\ w_month (month_start y m * 86400) = m
  /\ w_day (month_start y m * 86400) = 1.
Proof.
  intros Hm. unfold w_year, w_month, w_day, w_civil.
  rewrite Z.div_mul by done.
  replace (month_start y m) with (month_start y m + (1 - 1)) by lia.
  pose proof (days_in_month_pos y m Hm).
  rewrite civil_of_days_unique by lia. done.
Qed.

Lemma w_fields_month_end w :
  w_year (month_end w) = w_year w + w_month w / 12
  /\ w_month (month_end w) = w_month w mod 12 + 1 /\ w_day (month_end w) = 1
  /\ month_begin (month_end w) = month_end w.
Proof.
  destruct (w_fields_range w) as (Hm & _ & _).
  pose proof (w_fields_month_start (w_year w + w_month w / 12) (w_month w mod 12 + 1))
    as (Hy & Hmo & Hd); [div_lia|].
  unfold month_end. rewrite month_start_next by done.
  unfold month_begin. rewrite Hy, Hmo. done.
Qed.

(** Days within a month. *)
Lemma wall_of_day w dd :
  wall_of (w_year w) (w_month w) (w_day w + dd) 0 0 0 = (w / 86400 + dd) * 86400.
Proof.
  destruct (w_fields_range w) as (Hm & _ & He).
  rewrite wall_of_in_range, <-He by done. lia.
Qed.

Lemma same_day w v :
  w / 86400 = v / 86400 ->
  w_year v = w_year w /\ w_month v = w_month w /\ w_day v = w_day w
  /\ w_weekday v = w_weekday w.
Proof.
  intros H. unfold w_year, w_month, w_day, w_weekday, w_civil. rewrite H. done.
Qed.

(** A second that is the first of its day: either the first of a month, or in
    the same month as the second before it. *)
Lemma month_cases w : w = month_begin w \/ (w_month (w - 1) = w_month w).
Proof.
  destruct (Z.eq_dec w (month_begin w)) as [|Hne]; [by left|right].
  pose proof (month_bounds w). apply same_month. lia.
Qed.

Lemma w_day_1 w : w mod 86400 = 0 -> w_day w = 1 -> w = month_begin w.
Proof.
  intros H0 H1. destruct (w_fields_range w) as (_ & _ & He). unfold month_begin. div_lia.
Qed.

Lemma w_year_lt_end w y : w_year w < y -> w < days_before_year y * 86400.
Proof.
  intros H.
  assert (w / 86400 < days_before_year y) as Hd; [|div_lia].
  pose proof (year_yday_spec (w / 86400)) as [He Hr].
  rewrite isLeap_year_len in Hr.
  assert (w_year w = (year_yday (w / 86400)).1) as Hy.
  { unfold w_year, w_civil, civil_of_days. destruct (year_yday _). simpl.
    destruct (month_day _ _). done. }
  rewrite Hy in H.
  assert ((year_yday (w / 86400)).1 + 1 <= y) as [?%days_before_year_lt| <-]%Z.le_lteq
    by lia; lia.
Qed.

Lemma w_year_ge_start w y : y <= w_year w -> days_before_year y * 86400 <= w.
Proof.
  intros H. pose proof (year_yday_spec (w / 86400)) as [He Hr].
  assert (w_year w = (year_yday (w / 86400)).1) as Hy.
  { unfold w_year, w_civil, civil_of_days. destruct (year_yday _). simpl.
    destruct (month_day _ _). done. }
  rewrite Hy in H.
  assert (days_before_year y <= w / 86400); [|div_lia].
  apply Z.le_lteq in H as [?%days_before_year_lt| ->]; lia.
Qed.

Lemma w_year_mono w v : w <= v -> w_year w <= w_year v.
Proof.
  intros H. destruct (Z.le_gt_cases (w_year w) (w_year v)); [done|].
  assert (w_year v < w_year w) as ?%w_year_lt_end by lia.
  pose proof (w_year_ge_start w (w_year w) ltac:(lia)). lia.
Qed.

Lemma month_bounds_mod w : month_begin w mod 86400 = 0 /\ month_end w mod 86400 = 0.
Proof. unfold month_begin, month_end. rewrite !Z.mod_mul by done. done. Qed.

Lemma month_begin_eq w : month_begin w = month_start (w_year w) (w_month w) * 86400.
Proof. reflexivity. Qed.

Lemma month_begin_day w : month_begin w = w -> w_day w = 1.
Proof.
  rewrite month_begin_eq. generalize (w_fields_range w).
  generalize (w_year w), (w_month w). intros y m (Hm & _) <-.
  apply w_fields_month_start, Hm.
Qed.

(** First second of a year. *)
Lemma year_begin y : w_year (days_before_year y * 86400) = y.
Proof.
  pose proof (w_fields_month_start y 1 ltac:(lia)) as (Hy & _ & _).
  unfold month_start, days_before_month in Hy.
  destruct (month_offset_ends y) as [H1 _]. rewrite H1, Z.add_0_r in Hy. done.
Qed.

Lemma days_before_year_6 y : days_before_year (y + 6) - days_before_year y <= 6 * 366.
Proof. unfold days_before_year. div_lia. Qed.

(** From here on the calendar is used through the lemmas above; evaluation by
    [vm_compute] is not affected. *)
#[global] Opaque civil_of_days days_before_year month_start days_in_month
  month_begin month_end w_year w_month w_day wall_of.
