(* ===== verification/GoStrings.v ===== *)
(** * The parts of Go's [strings] and [strconv] packages that cronflux uses

    A Go string is a sequence of bytes: [String.string], eight bits to a
    character.  Functions that Go defines on runes are written on the UTF-8
    bytes of the runes they distinguish. *)

From Stdlib Require Import ZArith Lia Ascii String.
From stdpp Require Import base list strings.
From S2P Require Import Prelude.

#[local] Open Scope string_scope.
#[local] Open Scope Z_scope.

Definition byte_of (a : ascii) : Z := Z.of_N (N_of_ascii a).

(** ** Cutting and splitting *)

(** [i := strings.IndexByte(s, c)] with the slices [s[:i]] and [s[i+1:]]; [None]
    when [i < 0]. *)
Fixpoint cut_byte (c : ascii) (s : string) : option (string * string) :=
  match s with
  | EmptyString => None
  | String a s' =>
      if Ascii.eqb a c then Some (EmptyString, s')
      else match cut_byte c s' with
           | Some (l, r) => Some (String a l, r)
           | None => None
           end
  end.

(** [strings.Split(s, sep)] for a one-byte separator: never empty. *)
Fixpoint Split (c : ascii) (s : string) : list string :=
  match s with
  | EmptyString => [EmptyString]
  | String a s' =>
      if Ascii.eqb a c then EmptyString :: Split c s'
      else match Split c s' with
           | [] => [String a EmptyString]
           | x :: xs => String a x :: xs
           end
  end.

Fixpoint HasPrefix (s pre : string) : bool :=
  match pre, s with
  | EmptyString, _ => true
  | String a pre', String b s' => Ascii.eqb a b && HasPrefix s' pre'
  | String _ _, EmptyString => false
  end.

Fixpoint drop_bytes (n : nat) (s : string) : string :=
  match n, s with
  | O, _ => s
  | S n', String _ s' => drop_bytes n' s'
  | S _, EmptyString => EmptyString
  end.

Definition TrimPrefix (s pre : string) : string :=
  if HasPrefix s pre then drop_bytes (String.length pre) s else s.

(** ** White space

    [unicode.IsSpace]: the six ASCII spaces, U+0085, U+00A0, U+1680, U+2000 to
    U+200A, U+2028, U+2029, U+202F, U+205F and U+3000.  A lead byte always
    starts a rune, so the encodings can be recognised byte by byte. *)

Definition space1 (a : ascii) : bool :=
  let a := byte_of a in ((9 <=? a) && (a <=? 13)) || (a =? 32).

Definition space2 (a b : ascii) : bool :=
  (byte_of a =? 194) && ((byte_of b =? 133) || (byte_of b =? 160)).

Definition space3 (a b c : ascii) : bool :=
  let a := byte_of a in let b := byte_of b in let c := byte_of c in
  ((a =? 225) && (b =? 154) && (c =? 128))
  || ((a =? 226) && (b =? 128)
      && (((128 <=? c) && (c <=? 138)) || (c =? 168) || (c =? 169) || (c =? 175)))
  || ((a =? 226) && (b =? 129) && (c =? 159))
  || ((a =? 227) && (b =? 128) && (c =? 128)).

Fixpoint TrimLeftSpace (s : string) : string :=
  match s with
  | EmptyString => EmptyString
  | String a s1 =>
      if space1 a then TrimLeftSpace s1
      else match s1 with
           | EmptyString => s
           | String b s2 =>
               if space2 a b then TrimLeftSpace s2
               else match s2 with
                    | EmptyString => s
                    | String c s3 => if space3 a b c then TrimLeftSpace s3 else s
                    end
           end
  end.

Fixpoint TrimRightSpace (s : string) : string :=
  if String.eqb (TrimLeftSpace s) EmptyString then EmptyString
  else match s with
       | EmptyString => EmptyString
       | String a s' => String a (TrimRightSpace s')
       end.

Definition TrimSpace (s : string) : string := TrimRightSpace (TrimLeftSpace s).

(** [strings.Fields]: the maximal runs of bytes that are not white space.
    [cur] holds the run being read, reversed. *)
Fixpoint rev_onto (s acc : string) : string :=
  match s with EmptyString => acc | String a s' => rev_onto s' (String a acc) end.

Definition flush (cur : string) (rest : list string) : list string :=
  match cur with EmptyString => rest | _ => rev_onto cur EmptyString :: rest end.

Fixpoint fields_go (cur s : string) : list string :=
  match s with
  | EmptyString => flush cur []
  | String a s1 =>
      if space1 a then flush cur (fields_go EmptyString s1)
      else match s1 with
           | EmptyString => flush (String a cur) []
           | String b s2 =>
               if space2 a b then flush cur (fields_go EmptyString s2)
               else match s2 with
                    | EmptyString => fields_go (String a cur) s1
                    | String c s3 =>
                        if space3 a b c then flush cur (fields_go EmptyString s3)
                        else fields_go (String a cur) s1
                    end
           end
  end.

Definition Fields (s : string) : list string := fields_go EmptyString s.

(** ** Case

    [strings.ToLower].  ASCII letters, and the two runes outside ASCII whose
    lower case is an ASCII letter: U+0130 (to i) and U+212A (to k).  The other
    runes map to runes outside ASCII and are left alone: the source compares
    the result only with ASCII names. *)

Definition lower1 (a : ascii) : ascii :=
  if (65 <=? byte_of a) && (byte_of a <=? 90)
  then ascii_of_N (Z.to_N (byte_of a + 32)) else a.

Fixpoint ToLower (s : string) : string :=
  match s with
  | EmptyString => EmptyString
  | String a s1 =>
      match s1 with
      | String b s2 =>
          if (byte_of a =? 196) && (byte_of b =? 176) then String "i" (ToLower s2)
          else match s2 with
               | String c s3 =>
                   if (byte_of a =? 226) && (byte_of b =? 132) && (byte_of c =? 170)
                   then String "k" (ToLower s3)
                   else String (lower1 a) (ToLower s1)
               | EmptyString => String (lower1 a) (ToLower s1)
               end
      | EmptyString => String (lower1 a) (ToLower s1)
      end
  end.

(** ** Numbers *)

Definition is_digit (a : ascii) : bool := (48 <=? byte_of a) && (byte_of a <=? 57).
Definition digit_of (a : ascii) : Z := byte_of a - 48.

Inductive num_error := ErrSyntax | ErrRange.

(** The loop of [strconv.ParseUint(s, 10, 64)]: [n] is the number read so far. *)
Fixpoint parse_digits (n : Z) (s : string) : result num_error Z :=
  match s with
  | EmptyString => Ok n
  | String a s' =>
      if is_digit a then
        if two64 <=? n * 10 + digit_of a then Err ErrRange
        else parse_digits (n * 10 + digit_of a) s'
      else Err ErrSyntax
  end.

Definition ParseUint (s : string) : result num_error Z :=
  match s with EmptyString => Err ErrSyntax | _ => parse_digits 0 s end.

(** [strconv.Atoi]: an optional sign, then decimal digits, within [int64]. *)
Definition Atoi (s : string) : result num_error Z :=
  let '(neg, digits) :=
    match s with
    | String "-" s' => (true, s')
    | String "+" s' => (false, s')
    | _ => (false, s)
    end in
  let? n := ParseUint digits in
  if neg then (if two63 <? n then Err ErrRange else Ok (- n))
  else (if two63 <=? n then Err ErrRange else Ok n).

(** ** Decimal printing, the inverse of the parsers *)

Definition digit_char (d : Z) : ascii := ascii_of_N (Z.to_N (48 + d)).

Fixpoint print_go (fuel : nat) (n : Z) (acc : string) : string :=
  match fuel with
  | O => acc
  | S fuel =>
      let acc := String (digit_char (n mod 10)) acc in
      if n <? 10 then acc else print_go fuel (n / 10) acc
  end.

(** Twenty digits are enough for a 64-bit number. *)
Definition print_uint (n : Z) : string := print_go 20 n EmptyString.

Example fields_ex : Fields " 0  9 * * 1-5 " = ["0"; "9"; "*"; "*"; "1-5"].
Proof. vm_compute. done. Qed.
Example trim_ex : TrimSpace "  a b " = "a b".
Proof. vm_compute. done. Qed.
Example split_ex : Split "," "1,,2" = ["1"; ""; "2"].
Proof. vm_compute. done. Qed.
Example lower_ex : ToLower "JaN" = "jan".
Proof. vm_compute. done. Qed.
Example atoi_ex : Atoi "-12" = Ok (-12) /\ Atoi "+" = Err ErrSyntax.
Proof. vm_compute. done. Qed.
Example print_ex : print_uint 18446744073709551615 = "18446744073709551615".
Proof. vm_compute. done. Qed.

(** ** Facts *)

Fixpoint all_bytes (P : ascii -> bool) (s : string) : bool :=
  match s with EmptyString => true | String a s' => P a && all_bytes P s' end.

Lemma all_bytes_app P s1 s2 :
  all_bytes P (s1 +:+ s2) = all_bytes P s1 && all_bytes P s2.
Proof. induction s1 as [|a s1 IH]; simpl; [done|]. by rewrite IH, andb_assoc. Qed.

Lemma all_bytes_impl (P Q : ascii -> bool) s :
  (forall a, P a = true -> Q a = true) -> all_bytes P s = true -> all_bytes Q s = true.
Proof.
  intros HPQ. induction s as [|a s IH]; simpl; [done|].
  rewrite !andb_true_iff. intros [Ha Hs]. auto.
Qed.

(** Every byte but [c]. *)
Definition not_byte (c a : ascii) : bool := negb (Ascii.eqb a c).

Lemma cut_byte_none c s : all_bytes (not_byte c) s = true -> cut_byte c s = None.
Proof.
  induction s as [|a s IH]; simpl; [done|]. unfold not_byte at 1.
  destruct (Ascii.eqb a c); simpl; [done|]. intros ->%IH. done.
Qed.

Lemma cut_byte_app c s1 s2 :
  all_bytes (not_byte c) s1 = true -> cut_byte c (s1 +:+ String c s2) = Some (s1, s2).
Proof.
  induction s1 as [|a s1 IH]; simpl; [by rewrite Ascii.eqb_refl|].
  unfold not_byte at 1. destruct (Ascii.eqb a c); simpl; [done|]. intros ->%IH. done.
Qed.

Lemma Split_none c s : all_bytes (not_byte c) s = true -> Split c s = [s].
Proof.
  induction s as [|a s IH]; simpl; [done|]. unfold not_byte at 1.
  destruct (Ascii.eqb a c); simpl; [done|]. intros ->%IH. done.
Qed.

Lemma Split_app c s1 s2 :
  all_bytes (not_byte c) s1 = true -> Split c (s1 +:+ String c s2) = s1 :: Split c s2.
Proof.
  induction s1 as [|a s1 IH]; simpl; [by rewrite Ascii.eqb_refl|].
  unfold not_byte at 1. destruct (Ascii.eqb a c); simpl; [done|]. intros ->%IH. done.
Qed.

Lemma Split_nonempty c s : Split c s <> [].
Proof.
  destruct s as [|a s]; simpl; [done|].
  destruct (Ascii.eqb a c); [done|]. destruct (Split c s); done.
Qed.

Lemma byte_of_digit d : 0 <= d <= 9 -> byte_of (digit_char d) = 48 + d.
Proof.
  intros Hd. assert (d ∈ seqZ 0 10) as Hin by (apply elem_of_seqZ; lia).
  rewrite list_elem_of_In in Hin. simpl in Hin.
  repeat destruct Hin as [<-|Hin]; try reflexivity. done.
Qed.

Lemma digit_char_spec d :
  0 <= d <= 9 -> is_digit (digit_char d) = true /\ digit_of (digit_char d) = d.
Proof.
  intros Hd. unfold is_digit, digit_of. rewrite byte_of_digit by done.
  split; [apply andb_true_iff; split; lia|lia].
Qed.

Lemma print_go_digits fuel n acc :
  0 <= n -> all_bytes is_digit acc = true ->
  all_bytes is_digit (print_go fuel n acc) = true.
Proof.
  revert n acc; induction fuel as [|fuel IH]; intros n acc Hn Ha; simpl; [done|].
  assert (all_bytes is_digit (String (digit_char (n mod 10)) acc) = true) as Ha'.
  { simpl. destruct (digit_char_spec (n mod 10)) as [-> _]; [div_lia|]. done. }
  destruct (n <? 10); [done|]. apply IH; [div_lia|done].
Qed.

Lemma print_uint_digits n : 0 <= n -> all_bytes is_digit (print_uint n) = true.
Proof. intros. by apply print_go_digits. Qed.

Lemma print_go_nonempty fuel n acc :
  acc <> EmptyString \/ fuel <> O -> print_go fuel n acc <> EmptyString.
Proof.
  revert n acc; induction fuel as [|fuel IH]; intros n acc; simpl; [by intros [|]|].
  intros _. destruct (n <? 10); [done|]. apply IH. by left.
Qed.

Lemma print_uint_nonempty n : print_uint n <> EmptyString.
Proof. apply print_go_nonempty. by right. Qed.

(** Reading printed digits back: the parser that has read [m] continues as if
    the digits of [n] were appended to [m]. *)
Lemma parse_print_go fuel n acc m :
  0 <= n < 10 ^ Z.of_nat fuel -> 0 <= m -> (1 <= fuel)%nat ->
  exists w, 1 <= w /\ n < 10 ^ w /\
    (m * 10 ^ w + n < two64 ->
     parse_digits m (print_go fuel n acc) = parse_digits (m * 10 ^ w + n) acc).
Proof.
  revert n acc m; induction fuel as [|fuel IH]; intros n acc m Hn Hm Hf; [lia|].
  cbn [print_go]. destruct (digit_char_spec (n mod 10)) as [Hd1 Hd2]; [div_lia|].
  destruct (Z.ltb_spec n 10) as [Hlt|Hge].
  - exists 1. split; [lia|]. split; [lia|]. intros Hs. cbn [parse_digits].
    rewrite Hd1, Hd2. rewrite Z.mod_small by lia. rewrite Z.pow_1_r in *.
    destruct (Z.leb_spec two64 (m * 10 + n)); [lia|done].
  - assert (0 <= n / 10 < 10 ^ Z.of_nat fuel) as Hn'.
    { rewrite Nat2Z.inj_succ, Z.pow_succ_r in Hn by lia.
      split; [div_lia|]. apply Z.div_lt_upper_bound; lia. }
    assert (1 <= fuel)%nat as Hf'.
    { destruct fuel; [|lia]. simpl in Hn'. lia. }
    destruct (IH (n / 10) (String (digit_char (n mod 10)) acc) m Hn' Hm Hf')
      as (w & Hw & Hlt & Hp).
    assert (m * 10 ^ Z.succ w + n = (m * 10 ^ w + n / 10) * 10 + n mod 10) as He.
    { rewrite Z.pow_succ_r by lia. div_lia. }
    exists (Z.succ w). split; [lia|]. split.
    { rewrite Z.pow_succ_r by lia. div_lia. }
    intros Hs. rewrite He in *.
    assert (0 <= 10 ^ w) by (apply Z.pow_nonneg; lia).
    rewrite Hp; [|pose proof (Z.mod_pos_bound n 10); nia].
    cbn [parse_digits]. rewrite Hd1, Hd2.
    destruct (Z.leb_spec two64 ((m * 10 ^ w + n / 10) * 10 + n mod 10)); [lia|done].
Qed.

Lemma ParseUint_print n : 0 <= n < two64 -> ParseUint (print_uint n) = Ok n.
Proof.
  intros Hn. destruct (parse_print_go 20 n EmptyString 0) as (w & _ & _ & Hp).
  { unfold two64 in Hn. change (10 ^ Z.of_nat 20) with 100000000000000000000. lia. }
  { lia. } { lia. }
  assert (parse_digits 0 (print_uint n) = Ok n) as H.
  { unfold print_uint. rewrite Hp by lia. rewrite Z.mul_0_l. done. }
  unfold ParseUint. pose proof (print_uint_nonempty n).
  destruct (print_uint n); done.
Qed.

Definition is_letter (a : ascii) : bool :=
  ((65 <=? byte_of a) && (byte_of a <=? 90)) || ((97 <=? byte_of a) && (byte_of a <=? 122)).
Definition is_alnum (a : ascii) : bool := is_digit a || is_letter a.

Lemma ToLower_digits s : all_bytes is_digit s = true -> ToLower s = s.
Proof.
  unfold is_digit.
  induction s as [|a s IH]; [done|]. intros H. simpl in H.
  apply andb_true_iff in H as [Ha Hs]. specialize (IH Hs). simpl.
  assert (lower1 a = a) as Hl.
  { unfold lower1. destruct (Z.leb_spec 65 (byte_of a)); [bool_lia|done]. }
  assert ((byte_of a =? 196) = false) as H1 by (apply Z.eqb_neq; bool_lia).
  assert ((byte_of a =? 226) = false) as H2 by (apply Z.eqb_neq; bool_lia).
  destruct s as [|b [|c s]]; rewrite ?H1, ?H2, Hl; cbn [andb]; by rewrite IH.
Qed.

Lemma alnum_not_byte c a : is_alnum c = false -> is_alnum a = true -> not_byte c a = true.
Proof.
  intros Hc Ha. unfold not_byte. destruct (Ascii.eqb_spec a c) as [->|]; [congruence|done].
Qed.

Lemma alnum_not_bytes c s :
  is_alnum c = false -> all_bytes is_alnum s = true -> all_bytes (not_byte c) s = true.
Proof. intros Hc. apply all_bytes_impl. intros a. by apply alnum_not_byte. Qed.

Fixpoint join (sep : string) (l : list string) : string :=
  match l with
  | [] => EmptyString
  | [x] => x
  | x :: xs => x +:+ sep +:+ join sep xs
  end.

Lemma Split_join c l :
  l <> [] -> Forall (fun x => all_bytes (not_byte c) x = true) l ->
  Split c (join (String c EmptyString) l) = l.
Proof.
  intros Hne Hall. induction Hall as [|x l Hx Hl IH]; [done|].
  destruct l as [|y l]; [by apply Split_none|].
  change (join (String c EmptyString) (x :: y :: l))
    with (x +:+ String c (join (String c EmptyString) (y :: l))).
  rewrite Split_app by done. f_equal. by apply IH.
Qed.
