(* ===== verification/GoFloat.v ===== *)
(** * Go's [float64]

    IEEE 754 binary64 as the Standard Library's executable specification
    ([SpecFloat], precision 53, exponent bound 1024, round to nearest even), the
    conversions from and to integers, and [math.Pow] as the Go library computes
    it for non-negative integral exponents. *)

From Stdlib Require Import ZArith Lia SpecFloat.
From stdpp Require Import base list.
From S2P Require Import Prelude.

Definition float64 := spec_float.

Definition fmul : float64 -> float64 -> float64 := SFmul 53 1024.
Definition fadd : float64 -> float64 -> float64 := SFadd 53 1024.
Definition fsub : float64 -> float64 -> float64 := SFsub 53 1024.
Definition fdiv : float64 -> float64 -> float64 := SFdiv 53 1024.
Definition fltb : float64 -> float64 -> bool := SFltb.
Definition fleb : float64 -> float64 -> bool := SFleb.

(** [float64(n)] for an integer. *)
Definition f_of_Z (n : Z) : float64 := binary_normalize 53 1024 n 0 false.

(** The literal [m * 2^e]. *)
Definition f_lit (m e : Z) : float64 := binary_normalize 53 1024 m e false.

Definition f_zero : float64 := S754_zero false.
Definition f_one : float64 := f_of_Z 1.
Definition f_two : float64 := f_of_Z 2.
Definition f_inf : float64 := S754_infinity false.

(** The integer part of a finite number, toward zero; [None] for infinities and
    NaN. *)
Definition f_trunc (f : float64) : option Z :=
  match f with
  | S754_zero _ => Some 0
  | S754_finite s m e =>
      let a := if 0 <=? e then Z.shiftl (Zpos m) e else Zpos m / 2 ^ (- e) in
      Some (if s then - a else a)
  | _ => None
  end.

(** [int64(f)].  When the value does not fit the result is implementation
    specific: [ub]. *)
Definition int64_of_float (ub : float64 -> Z) (f : float64) : Z :=
  match f_trunc f with
  | Some z => if (min_int64 <=? z) && (z <=? max_int64) then z else ub f
  | None => ub f
  end.

Definition frexp (f : float64) : float64 * Z := SFfrexp 53 1024 f.
Definition ldexp (f : float64) (e : Z) : float64 := SFldexp 53 1024 f e.

(** The loop of [math.Pow] for [i] >= 0: [a1 * 2^ae] accumulates the result,
    [x1 * 2^xe] the current square. *)
Definition f_half : float64 := f_lit 1 (-1).

Fixpoint pow_loop (fuel : nat) (i : Z) (x1 : float64) (xe : Z) (a1 : float64) (ae : Z)
  : float64 * Z :=
  match fuel with
  | O => (a1, ae)
  | S fuel =>
      if i =? 0 then (a1, ae)
      else if (xe <? -4096) || (4096 <? xe) then (a1, ae + xe)
      else
        let '(a1, ae) := if Z.odd i then (fmul a1 x1, ae + xe) else (a1, ae) in
        let x1 := fmul x1 x1 in
        let xe := 2 * xe in
        let '(x1, xe) := if fltb x1 f_half then (fadd x1 x1, xe - 1) else (x1, xe) in
        pow_loop fuel (i / 2) x1 xe a1 ae
  end.

(** [math.Pow(x, y)] for [x] > 1 (infinite and NaN included) and an integral
    [y = n] >= 0: the special cases that apply there, then the loop, whose 64
    rounds cover every 63-bit exponent. *)
Definition pow_nat (x : float64) (n : Z) : float64 :=
  if n =? 0 then f_one
  else if n =? 1 then x
  else match x with
       | S754_nan => S754_nan
       | S754_infinity _ => f_inf
       | _ =>
           if two63 <=? n then f_inf else
           let '(x1, xe) := frexp x in
           let '(a1, ae) := pow_loop 64 n x1 xe f_one 0 in
           ldexp a1 ae
       end.

Example pow_ex : pow_nat f_two 10 = f_of_Z 1024.
Proof. vm_compute. done. Qed.
Example pow_3_5 : pow_nat (f_of_Z 3) 5 = f_of_Z 243.
Proof. vm_compute. done. Qed.
Example pow_big : pow_nat (f_of_Z 10) 1000 = f_inf.
Proof. vm_compute. done. Qed.
Example pow_frac : pow_nat (f_lit 3 (-1)) 3 = f_lit 27 (-3).
Proof. vm_compute. done. Qed.
