(* ===== verification/FloatFacts.v ===== *)
(** * Facts about binary64 arithmetic

    Rounding of non-negative numbers: the result is not a NaN, is not negative
    and has at most 53 significant bits; a number at most 1 stays at most 1; an
    integer of at most 53 bits is exact.  [math.Pow] of a factor above 1 is
    neither negative nor a NaN. *)

From Stdlib Require Import ZArith Lia SpecFloat.
From stdpp Require Import base list.
From S2P Require Import Prelude GoFloat.

#[local] Open Scope Z_scope.

(** ** Digits and shifts *)

Lemma digits2_bounds m :
  2 ^ (Zpos (digits2_pos m) - 1) <= Zpos m < 2 ^ Zpos (digits2_pos m).
Proof.
  induction m as [p IH|p IH|]; cbn [digits2_pos]; [| |done];
    rewrite Pos2Z.inj_succ, Z.sub_1_r, Z.pred_succ;
    rewrite Z.sub_1_r in IH;
    rewrite (Z.pow_succ_r 2 (Zpos (digits2_pos p))) by lia;
    (replace (2 ^ Zpos (digits2_pos p)) with (2 * 2 ^ Z.pred (Zpos (digits2_pos p))) in *
       by (rewrite <-Z.pow_succ_r, Z.succ_pred by lia; done)); lia.
Qed.

Lemma Zdigits2_bounds m :
  0 <= m -> 0 <= Zdigits2 m /\ m < 2 ^ Zdigits2 m /\ (0 < m -> 2 ^ (Zdigits2 m - 1) <= m).
Proof.
  destruct m as [|p|p]; cbn [Zdigits2]; [cbn; lia| |lia].
  intros _. pose proof (digits2_bounds p). lia.
Qed.

(** Digits are bounded by any power of two above the number. *)
Lemma Zdigits2_le m k : 0 < m -> 0 <= k -> m <= 2 ^ k -> Zdigits2 m <= k + 1.
Proof.
  intros Hm Hk Hle. destruct (Zdigits2_bounds m ltac:(lia)) as (_ & _ & Hlo).
  specialize (Hlo Hm). destruct (Z.le_gt_cases (Zdigits2 m) (k + 1)) as [|Hgt]; [done|].
  assert (2 ^ (k + 1) <= 2 ^ (Zdigits2 m - 1)) by (apply Z.pow_le_mono_r; lia).
  rewrite Z.pow_add_r in * by lia. lia.
Qed.

(** What shifting right by [n] leaves: the quotient, and whether bits were lost. *)
Definition shifted (m n : Z) (s : shr_record) : Prop :=
  shr_m s = m / 2 ^ n /\ (loc_of_shr_record s = loc_Exact <-> m mod 2 ^ n = 0).

Definition exact_flags (r t : bool) : bool := negb (r || t).

Ltac half_case r t :=
  destruct r, t; cbn [loc_of_shr_record exact_flags orb negb];
  (split; [done|]); (split; [|lia]);
  (split; [by first [intros [=]|split]|intros [? ?]; first [done|lia]]).

Lemma shr_1_half q r t :
  0 <= q ->
  shr_m (shr_1 (Build_shr_record q r t)) = q / 2
  /\ (loc_of_shr_record (shr_1 (Build_shr_record q r t)) = loc_Exact
      <-> q mod 2 = 0 /\ exact_flags r t = true)
  /\ 0 <= q mod 2 < 2.
Proof.
  intros Hq. destruct q as [|[p|p|]|p]; [| | | |lia]; cbn [shr_1 shr_m].
  - change (0 / 2) with 0. change (0 mod 2) with 0. half_case r t.
  - assert (Zpos p~1 / 2 = Zpos p /\ Zpos p~1 mod 2 = 1) as [-> ->]
      by (rewrite Pos2Z.inj_xI; div_lia). half_case r t.
  - assert (Zpos p~0 / 2 = Zpos p /\ Zpos p~0 mod 2 = 0) as [-> ->]
      by (rewrite Pos2Z.inj_xO; div_lia). half_case r t.
  - change (1 / 2) with 0. change (1 mod 2) with 1. half_case r t.
Qed.

Lemma shr_1_shifted m n s : 0 <= m -> 0 <= n -> shifted m n s -> shifted m (n + 1) (shr_1 s).
Proof.
  intros Hm Hn [Hq Hr]. assert (0 < 2 ^ n) as HP by (apply Z.pow_pos_nonneg; lia).
  assert (0 <= m / 2 ^ n) as Hpos by (apply Z.div_pos; lia).
  assert (2 ^ (n + 1) = 2 ^ n * 2) as Hp by (rewrite Z.pow_add_r by lia; lia).
  assert (m / 2 ^ (n + 1) = m / 2 ^ n / 2) as Hdiv by (rewrite Hp, Z.div_div by lia; done).
  assert (m mod 2 ^ (n + 1) = 2 ^ n * ((m / 2 ^ n) mod 2) + m mod 2 ^ n) as Hmod.
  { rewrite Hp, Z.rem_mul_r by lia. lia. }
  pose proof (Z.mod_pos_bound m (2 ^ n) ltac:(lia)) as Hb.
  pose proof (Z.mod_pos_bound (m / 2 ^ n) 2 ltac:(lia)) as Hb2.
  unfold shifted. rewrite Hdiv, Hmod, <-Hq. rewrite <-Hq in Hpos.
  destruct s as [q r t]. cbn [shr_m] in *. clear Hq Hdiv Hmod Hp Hb2.
  assert (forall x, exact_flags r t = true <-> loc_of_shr_record (Build_shr_record x r t) = loc_Exact)
    as Hflags by (intros; by destruct r, t).
  rewrite <-Hflags in Hr. destruct (shr_1_half q r t Hpos) as (H1 & H2 & Hb2).
  split; [done|]. rewrite H2, Hr. split; [intros [-> ->]; lia|].
  intros Hsum. assert (q mod 2 = 0) as Hz by nia. rewrite Hz in *. lia.
Qed.

Lemma iter_shr_shifted p : forall m n s,
  0 <= m -> 0 <= n -> shifted m n s -> shifted m (n + Zpos p) (SpecFloat.iter_pos shr_1 p s).
Proof.
  induction p as [p IH|p IH|]; intros m n s Hm Hn Hs; cbn [SpecFloat.iter_pos].
  - replace (n + Zpos p~1) with (n + 1 + Zpos p + Zpos p) by lia.
    apply IH; [lia..|]. apply IH; [lia..|]. by apply shr_1_shifted.
  - replace (n + Zpos p~0) with (n + Zpos p + Zpos p) by lia.
    apply IH; [lia..|]. by apply IH.
  - by apply shr_1_shifted.
Qed.

(** The exponent of a binary64 number with [d] digits and exponent [e]. *)
Definition target (d e : Z) : Z := Z.max (d + e - 53) (-1074).

Lemma shr_fexp_spec m e :
  0 <= m ->
  exists s, shr_fexp 53 1024 m e loc_Exact = (s, Z.max e (target (Zdigits2 m) e))
    /\ shifted m (Z.max e (target (Zdigits2 m) e) - e) s.
Proof.
  intros Hm. unfold shr_fexp, shr. cbn [shr_record_of_loc].
  replace (fexp 53 1024 (Zdigits2 m + e) - e) with (target (Zdigits2 m) e - e)
    by (unfold fexp, emin, target; lia).
  assert (shifted m 0 (Build_shr_record m false false)) as H0.
  { split; cbn [shr_m]; [by rewrite Z.div_1_r|]. by rewrite Z.mod_1_r. }
  destruct (target (Zdigits2 m) e - e) as [|p|p] eqn:Ep.
  - rewrite Z.max_l by lia. rewrite Z.sub_diag. eauto.
  - rewrite Z.max_r by lia. rewrite Ep. eexists. split; [f_equal; lia|].
    by apply (iter_shr_shifted p m 0).
  - rewrite Z.max_l by lia. rewrite Z.sub_diag. eauto.
Qed.

Lemma round_even_cases q l :
  (round_nearest_even q l = q \/ round_nearest_even q l = q + 1)
  /\ (l = loc_Exact -> round_nearest_even q l = q).
Proof. destruct l as [|[]]; cbn; try destruct (Z.even q); (split; [auto|done]). Qed.

(** ** Rounding

    A non-negative number in the binary64 format: no NaN, no negative sign, and
    at most 53 significant bits. *)
Definition good (f : float64) : Prop :=
  match f with
  | S754_zero s | S754_infinity s => s = false
  | S754_nan => False
  | S754_finite s m e => s = false /\ Zpos m < 2 ^ 53
  end.

(** [m * 2^e <= 1]. *)
Definition le1 (m e : Z) : Prop := e <= 0 /\ m <= 2 ^ (- e).

(** A number at most 1: zero or finite. *)
Definition unit_float (f : float64) : Prop :=
  match f with
  | S754_zero s => s = false
  | S754_finite s m e => s = false /\ Zpos m < 2 ^ 53 /\ le1 (Zpos m) e
  | _ => False
  end.

Lemma shift_digits m e :
  0 <= m -> m / 2 ^ (Z.max e (target (Zdigits2 m) e) - e) < 2 ^ 53.
Proof.
  intros Hm. destruct (Zdigits2_bounds m Hm) as (Hd & Hlt & _).
  set (n := Z.max e (target (Zdigits2 m) e) - e).
  assert (0 <= n /\ Zdigits2 m - 53 <= n) as [Hn Hdn] by (unfold n, target; lia).
  apply Z.div_lt_upper_bound; [apply Z.pow_pos_nonneg; lia|].
  rewrite <-Z.pow_add_r by lia. eapply Z.lt_le_trans; [exact Hlt|].
  apply Z.pow_le_mono_r; lia.
Qed.

(** The common part of the two rounding lemmas: the rounded mantissa [q], its
    exponent and the final shift. *)
Lemma round_aux_spec m e :
  0 <= m ->
  let e1 := Z.max e (target (Zdigits2 m) e) in
  exists q, (q = m / 2 ^ (e1 - e) \/ q = m / 2 ^ (e1 - e) + 1 /\ m mod 2 ^ (e1 - e) <> 0)
    /\ 0 <= q /\
    let e2 := Z.max e1 (target (Zdigits2 q) e1) in
    let m2 := q / 2 ^ (e2 - e1) in
    0 <= m2 < 2 ^ 53 /\
    binary_round_aux 53 1024 false m e loc_Exact =
      match m2 with
      | Z0 => S754_zero false
      | Zpos p => if e2 <=? 971 then S754_finite false p e2 else S754_infinity false
      | Zneg _ => S754_nan
      end.
Proof.
  intros Hm e1. destruct (shr_fexp_spec m e Hm) as (s1 & Hs1 & Hq1 & Hx1). fold e1 in Hs1, Hq1, Hx1.
  assert (0 <= e1 - e) as Hn by (unfold e1; lia).
  assert (0 <= m / 2 ^ (e1 - e)) as Hdiv
    by (apply Z.div_pos; [lia|apply Z.pow_pos_nonneg; lia]).
  set (q := round_nearest_even (shr_m s1) (loc_of_shr_record s1)).
  destruct (round_even_cases (shr_m s1) (loc_of_shr_record s1)) as [Hc He]. fold q in Hc, He.
  assert (q = m / 2 ^ (e1 - e) \/ q = m / 2 ^ (e1 - e) + 1 /\ m mod 2 ^ (e1 - e) <> 0) as Hq.
  { destruct (Z.eq_dec (m mod 2 ^ (e1 - e)) 0) as [Hz|Hnz].
    - left. rewrite (He (proj2 Hx1 Hz)). done.
    - rewrite Hq1 in Hc. destruct Hc; [by left|by right]. }
  exists q. split; [done|]. assert (0 <= q) as Hq0 by lia. split; [done|]. cbv zeta.
  destruct (shr_fexp_spec q e1 Hq0) as (s2 & Hs2 & Hq2 & _).
  split.
  - split; [|by apply shift_digits].
    apply Z.div_pos; [lia|apply Z.pow_pos_nonneg; lia].
  - unfold binary_round_aux. rewrite Hs1. fold q. rewrite Hs2, Hq2. done.
Qed.

Lemma round_aux_good m e : 0 <= m -> good (binary_round_aux 53 1024 false m e loc_Exact).
Proof.
  intros Hm. destruct (round_aux_spec m e Hm) as (q & _ & _ & [Hlo Hhi] & ->).
  destruct (_ / _) as [|p|p]; [done| |lia]. destruct (_ <=? 971); done.
Qed.

Lemma le1_div m e n : 0 <= m -> 0 <= n -> e + n <= 0 -> le1 m e -> le1 (m / 2 ^ n) (e + n).
Proof.
  intros Hm Hn He [_ Hle]. split; [done|].
  apply Z.div_le_upper_bound; [apply Z.pow_pos_nonneg; lia|].
  rewrite <-Z.pow_add_r by lia. by replace (n + - (e + n)) with (- e) by lia.
Qed.

Lemma le1_target m e : 0 <= m -> le1 m e -> e <= 0 /\ target (Zdigits2 m) e <= 0.
Proof.
  intros Hm [He Hle]. split; [done|]. unfold target.
  destruct (Z.eq_dec m 0) as [->|Hnz]; [cbn [Zdigits2]; lia|].
  pose proof (Zdigits2_le m (- e) ltac:(lia) ltac:(lia) Hle). lia.
Qed.

Lemma round_aux_unit m e :
  0 <= m -> le1 m e -> unit_float (binary_round_aux 53 1024 false m e loc_Exact).
Proof.
  intros Hm Hle. destruct (round_aux_spec m e Hm) as (q & Hq & Hq0 & [Hlo Hhi] & ->).
  destruct (le1_target m e Hm Hle) as [He Ht].
  set (e1 := Z.max e (target (Zdigits2 m) e)) in *.
  assert (0 <= e1 - e /\ e1 <= 0) as [Hn He1] by (unfold e1; lia).
  assert (0 < 2 ^ (e1 - e)) as HP by (apply Z.pow_pos_nonneg; lia).
  assert (le1 q e1) as Hq1.
  { pose proof (le1_div m e (e1 - e) Hm Hn ltac:(lia) Hle) as [_ Hd].
    replace (e + (e1 - e)) with e1 in Hd by lia.
    split; [done|]. destruct Hq as [->|[-> Hnz]]; [done|].
    destruct (Z.eq_dec (m / 2 ^ (e1 - e)) (2 ^ (- e1))) as [Heq|]; [|lia]. exfalso.
    destruct Hle as [_ Hle]. apply Hnz.
    assert (2 ^ (- e) = 2 ^ (- e1) * 2 ^ (e1 - e)) as Hpow
      by (rewrite <-Z.pow_add_r by lia; f_equal; lia).
    pose proof (Z.div_mod m (2 ^ (e1 - e)) ltac:(lia)) as Hdm. rewrite Heq in Hdm.
    pose proof (Z.mod_pos_bound m (2 ^ (e1 - e)) HP). lia. }
  destruct (le1_target q e1 Hq0 Hq1) as [_ Ht1].
  set (e2 := Z.max e1 (target (Zdigits2 q) e1)) in *.
  assert (0 <= e2 - e1 /\ e2 <= 0) as [Hn2 He2] by (unfold e2; lia).
  pose proof (le1_div q e1 (e2 - e1) Hq0 Hn2 ltac:(lia) Hq1) as Hfin.
  replace (e1 + (e2 - e1)) with e2 in Hfin by lia.
  destruct (q / 2 ^ (e2 - e1)) as [|p|p]; [done| |lia].
  rewrite (proj2 (Z.leb_le e2 971)) by lia. done.
Qed.

(** A number in the normal range stays finite and positive. *)
Lemma round_aux_finite m e :
  0 < m -> -1074 <= Zdigits2 m + e - 53 -> Z.max e (Zdigits2 m + e - 53) < 971 ->
  exists p e2, binary_round_aux 53 1024 false m e loc_Exact = S754_finite false p e2
    /\ Zpos p < 2 ^ 53.
Proof.
  intros Hm Hnorm Hmax. destruct (round_aux_spec m e ltac:(lia)) as (q & Hq & Hq0 & [Hlo Hhi] & ->).
  destruct (Zdigits2_bounds m ltac:(lia)) as (Hd & Hlt & Hge). specialize (Hge Hm).
  pose proof (shift_digits m e ltac:(lia)) as Hs.
  set (e1 := Z.max e (target (Zdigits2 m) e)) in *.
  assert (e1 = Z.max e (Zdigits2 m + e - 53)) as He1 by (unfold e1, target; lia).
  assert (0 < m / 2 ^ (e1 - e)) as Hpos.
  { apply Z.div_str_pos. split; [apply Z.pow_pos_nonneg; lia|].
    destruct (Z.le_gt_cases (Zdigits2 m) 53) as [Hs53|Hl53].
    - replace (e1 - e) with 0 by lia. rewrite Z.pow_0_r. lia.
    - eapply Z.le_trans; [|exact Hge]. apply Z.pow_le_mono_r; lia. }
  assert (0 < q <= 2 ^ 53) as [Hqp Hq53] by lia.
  pose proof (Zdigits2_le q 53 Hqp ltac:(lia) Hq53) as Hdq.
  set (e2 := Z.max e1 (target (Zdigits2 q) e1)) in *.
  assert (e2 - e1 <= 1) as Hn2 by (unfold e2, target; lia).
  assert (0 < q / 2 ^ (e2 - e1)) as Hp2.
  { destruct (Z.eq_dec (e2 - e1) 0) as [Hz|Hnz].
    - rewrite Hz, Z.pow_0_r, Z.div_1_r. done.
    - assert (-1074 <= e1) as Hlow by lia.
      assert (q <> 1) as Hne.
      { intros E. assert (Zdigits2 q = 1) as Ed by (by rewrite E). unfold e2, target in Hnz.
        rewrite Ed in Hnz. lia. }
      replace (e2 - e1) with 1 by (unfold e2 in *; lia).
      change (2 ^ 1) with 2. div_lia. }
  destruct (q / 2 ^ (e2 - e1)) as [|p|p]; [lia| |lia].
  rewrite (proj2 (Z.leb_le e2 971)) by lia. by exists p, e2.
Qed.

Lemma iter_xO m d : Zpos (Pos.iter xO m d) = Zpos m * 2 ^ Zpos d
  /\ Zpos (digits2_pos (Pos.iter xO m d)) = Zpos (digits2_pos m) + Zpos d.
Proof.
  induction d as [|d [IH1 IH2]] using Pos.peano_ind.
  - cbn [Pos.iter digits2_pos]. rewrite Pos2Z.inj_xO, Pos2Z.inj_succ. lia.
  - rewrite Pos.iter_succ. cbn [digits2_pos].
    rewrite Pos2Z.inj_xO, !Pos2Z.inj_succ, IH1, IH2, Z.pow_succ_r by lia. lia.
Qed.

Lemma shl_align_spec m e e' :
  exists mz, shl_align m e e' = (mz, Z.min e e')
    /\ Zpos mz = Zpos m * 2 ^ (e - Z.min e e')
    /\ Zpos (digits2_pos mz) = Zpos (digits2_pos m) + (e - Z.min e e').
Proof.
  unfold shl_align. destruct (e' - e) as [|d|d] eqn:Ed.
  - rewrite Z.min_l by lia. exists m. rewrite Z.sub_diag, Z.pow_0_r. split_and!; [done|lia..].
  - rewrite Z.min_l by lia. exists m. rewrite Z.sub_diag, Z.pow_0_r. split_and!; [done|lia..].
  - rewrite Z.min_r by lia. eexists. split; [done|]. replace (e - e') with (Zpos d) by lia.
    apply iter_xO.
Qed.

Lemma round_good m e : good (binary_round 53 1024 false m e).
Proof.
  unfold binary_round. destruct (shl_align_spec m e (fexp 53 1024 (Zpos (digits2_pos m) + e)))
    as (mz & -> & _). apply round_aux_good. lia.
Qed.

Lemma round_unit m e : le1 (Zpos m) e -> unit_float (binary_round 53 1024 false m e).
Proof.
  intros [He Hle]. unfold binary_round.
  destruct (shl_align_spec m e (fexp 53 1024 (Zpos (digits2_pos m) + e))) as (mz & -> & Hmz & _).
  apply round_aux_unit; [lia|]. set (ez := Z.min e _) in *. split; [lia|]. rewrite Hmz.
  replace (- ez) with (- e + (e - ez)) by lia. rewrite Z.pow_add_r by lia.
  apply Z.mul_le_mono_nonneg_r; [apply Z.pow_nonneg; lia|done].
Qed.

Lemma unit_good f : unit_float f -> good f.
Proof. destruct f; cbn; tauto. Qed.

(** ** Arithmetic *)

Lemma fmul_unit x y : unit_float x -> unit_float y -> unit_float (fmul x y).
Proof.
  destruct x as [sx| | |sx mx ex], y as [sy| | |sy my ey]; try done;
    cbn [unit_float fmul SFmul].
  - by intros -> ->.
  - by intros -> (-> & _).
  - by intros (-> & _) ->.
  - intros (-> & _ & Hex & Hx) (-> & _ & Hey & Hy). apply round_aux_unit; [lia|].
    split; [lia|]. rewrite Pos2Z.inj_mul.
    replace (- (ex + ey)) with (- ex + - ey) by lia. rewrite Z.pow_add_r by lia.
    apply Z.mul_le_mono_nonneg; lia.
Qed.

Lemma f_half_eq : f_half = S754_finite false (2 ^ 52) (-53).
Proof. vm_compute. reflexivity. Qed.

(** The comparisons of positive finite numbers are on the exponent first. *)
Lemma compare_finite m e m' e' :
  SFcompare (S754_finite false m e) (S754_finite false m' e')
  = Some (match Z.compare e e' with Eq => Pos.compare m m' | c => c end).
Proof. cbn [SFcompare]. destruct (Z.compare e e'); reflexivity. Qed.

Lemma fltb_finite m e m' e' :
  fltb (S754_finite false m e) (S754_finite false m' e') = true
  <-> e < e' \/ e = e' /\ Zpos m < Zpos m'.
Proof.
  unfold fltb, SFltb. rewrite compare_finite.
  destruct (Z.compare_spec e e'), (Pos.compare_spec m m'); (split; [by auto with lia|lia || done]).
Qed.

Lemma fleb_finite m e m' e' :
  fleb (S754_finite false m e) (S754_finite false m' e') = true
  <-> e < e' \/ e = e' /\ Zpos m <= Zpos m'.
Proof.
  unfold fleb, SFleb. rewrite compare_finite.
  destruct (Z.compare_spec e e'), (Pos.compare_spec m m'); (split; [by auto with lia|lia || done]).
Qed.

Lemma fadd_same m e :
  fadd (S754_finite false m e) (S754_finite false m e) = binary_round 53 1024 false (m + m) e.
Proof.
  unfold fadd, SFadd. rewrite Z.min_id. unfold shl_align. rewrite Z.sub_diag. reflexivity.
Qed.

(** Doubling a number below one half. *)
Lemma fadd_unit x : unit_float x -> fltb x f_half = true -> unit_float (fadd x x).
Proof.
  rewrite f_half_eq.
  destruct x as [sx| | |sx mx ex]; [by intros -> _|done|done|].
  intros (-> & Hm & He & Hle) Hlt. rewrite fadd_same. apply round_unit.
  apply fltb_finite in Hlt. change (Zpos (2 ^ 52)) with (2 ^ 52) in Hlt.
  split; [done|]. rewrite Pos2Z.inj_add.
  destruct Hlt as [Hc|[-> Hc]]; [|change (2 ^ (- -53)) with (2 ^ 53); lia].
  assert (2 ^ 54 <= 2 ^ (- ex)) by (apply Z.pow_le_mono_r; lia). lia.
Qed.

Lemma fmul_good m e y : good y -> good (fmul (S754_finite false m e) y).
Proof.
  destruct y as [sy|sy| |sy my ey]; [done..|].
  intros [-> _]. unfold fmul, SFmul. cbn [xorb]. apply round_aux_good. lia.
Qed.

(** ** [math.Pow] *)

Lemma frexp_unit m e : Zpos m < 2 ^ 53 -> unit_float (frexp (S754_finite false m e)).1.
Proof.
  intros Hm. unfold frexp, SFfrexp.
  destruct (Z.leb_spec 53 (Zpos (digits2_pos m))); cbn [fst unit_float];
    (split; [done|]); [split; [done|]; split; cbn; lia|].
  set (d := 53 - Zpos (digits2_pos m)) in *.
  destruct (iter_xO m (Z.to_pos d)) as [Hv Hd]. rewrite Z2Pos.id in Hd by lia.
  pose proof (digits2_bounds (Pos.iter xO m (Z.to_pos d))) as [_ Hlt].
  rewrite Hd in Hlt. replace (Zpos (digits2_pos m) + d) with 53 in Hlt by lia.
  split; [done|]. split; [lia|]. change (- - 53) with 53. lia.
Qed.

Lemma pow_loop_unit fuel : forall i x1 xe a1 ae,
  unit_float x1 -> unit_float a1 -> unit_float (pow_loop fuel i x1 xe a1 ae).1.
Proof.
  induction fuel as [|fuel IH]; intros i x1 xe a1 ae Hx Ha; cbn [pow_loop]; [done|].
  destruct (i =? 0); [done|]. destruct (_ || _); [done|].
  assert (unit_float (fmul x1 x1)) as Hxx by (by apply fmul_unit).
  destruct (Z.odd i), (fltb (fmul x1 x1) f_half) eqn:El; apply IH;
    first [done|by apply fmul_unit|by apply fadd_unit].
Qed.

Lemma ldexp_good x n : unit_float x -> good (ldexp x n).
Proof. destruct x; try done. intros (-> & _ & _). apply round_good. Qed.

(** A power of a factor that is neither negative nor a NaN is neither. *)
Lemma pow_nat_good x n : good x -> good (pow_nat x n).
Proof.
  intros Hx. unfold pow_nat. destruct (n =? 0); [done|]. destruct (n =? 1); [done|].
  assert (forall y, unit_float (frexp y).1 -> good (
    if two63 <=? n then f_inf else
      let '(x1, xe) := frexp y in
      let '(a1, ae) := pow_loop 64 n x1 xe f_one 0 in ldexp a1 ae)) as Hgen.
  { intros y Hy. destruct (two63 <=? n); [done|]. destruct (frexp y) as [x1 xe].
    pose proof (pow_loop_unit 64 n x1 xe f_one 0 Hy ltac:(vm_compute; split_and!; discriminate || done)) as Hp.
    destruct (pow_loop _ _ _ _ _ _). by apply ldexp_good. }
  destruct x as [s|s| |s m e]; [|done..|].
  - by apply Hgen.
  - destruct Hx as [-> Hm]. by apply Hgen, frexp_unit.
Qed.

(** ** Conversions *)

(** A 53-bit mantissa followed by zeros is not rounded. *)
Lemma round_aux_exact m k e :
  2 ^ 52 <= Zpos m < 2 ^ 53 -> 0 <= k -> -1074 <= e + k <= 971 ->
  binary_round_aux 53 1024 false (Zpos m * 2 ^ k) e loc_Exact = S754_finite false m (e + k).
Proof.
  intros Hm Hk He. assert (0 < 2 ^ k) as HP by (apply Z.pow_pos_nonneg; lia).
  assert (forall j, 0 <= j -> Zdigits2 (Zpos m * 2 ^ j) = 53 + j) as Hd.
  { intros j Hj. assert (0 < 2 ^ j) by (apply Z.pow_pos_nonneg; lia).
    destruct (Zdigits2_bounds (Zpos m * 2 ^ j) ltac:(lia)) as (Hd0 & Hlt & Hge).
    specialize (Hge ltac:(lia)).
    assert (52 + j < Zdigits2 (Zpos m * 2 ^ j))
      by (apply (Z.pow_lt_mono_r_iff 2); [lia..|]; rewrite Z.pow_add_r by lia; nia).
    assert (Zdigits2 (Zpos m * 2 ^ j) - 1 < 53 + j)
      by (apply (Z.pow_lt_mono_r_iff 2); [lia..|]; rewrite Z.pow_add_r by lia; nia). lia. }
  destruct (round_aux_spec (Zpos m * 2 ^ k) e ltac:(lia)) as (q & Hq & _ & _ & ->).
  assert (Z.max e (target (Zdigits2 (Zpos m * 2 ^ k)) e) = e + k) as Hmax
    by (rewrite Hd by lia; unfold target; lia).
  rewrite Hmax in *. replace (e + k - e) with k in Hq by lia.
  rewrite Z.div_mul, Z.mod_mul in Hq by lia. destruct Hq as [->|[_ ?]]; [|done].
  pose proof (Hd 0 ltac:(lia)) as Hd0. rewrite Z.pow_0_r, Z.mul_1_r, Z.add_0_r in Hd0. rewrite Hd0.
  replace (Z.max (e + k) (target 53 (e + k))) with (e + k) by (unfold target; lia).
  rewrite Z.sub_diag, Z.pow_0_r, Z.div_1_r.
  by rewrite (proj2 (Z.leb_le (e + k) 971)) by lia.
Qed.

(** Integers below 2^53 are exact. *)
Lemma f_of_Z_exact n :
  0 < n < 2 ^ 53 ->
  exists m e, f_of_Z n = S754_finite false m e /\ 2 ^ 52 <= Zpos m < 2 ^ 53
    /\ -52 <= e <= 0 /\ Zpos m = n * 2 ^ (- e).
Proof.
  intros Hn. destruct n as [|p|p]; [lia| |lia].
  pose proof (digits2_bounds p) as [Hlo Hhi].
  assert (Zpos (digits2_pos p) - 1 < 53) by (apply (Z.pow_lt_mono_r_iff 2); lia).
  unfold f_of_Z, binary_normalize, binary_round.
  assert (fexp 53 1024 (Zpos (digits2_pos p) + 0) = Zpos (digits2_pos p) - 53) as ->
    by (unfold fexp, emin; lia).
  destruct (shl_align_spec p 0 (Zpos (digits2_pos p) - 53)) as (mz & -> & Hmz & Hdz).
  rewrite Z.min_r in * by lia.
  set (e := Zpos (digits2_pos p) - 53) in *.
  pose proof (digits2_bounds mz) as Hb. rewrite Hdz in Hb.
  replace (Zpos (digits2_pos p) + (0 - e)) with 53 in Hb by lia.
  change (53 - 1) with 52 in Hb. rewrite Z.sub_0_l in Hmz.
  exists mz, e. rewrite <-(Z.mul_1_r (Zpos mz)), <-(Z.pow_0_r 2), round_aux_exact, Z.add_0_r by lia.
  rewrite Z.pow_0_r, Z.mul_1_r. split_and!; (done || lia).
Qed.

Lemma f_of_Z_good n : 0 <= n -> good (f_of_Z n).
Proof.
  destruct n as [|p|p]; [done|intros _|lia]. apply round_good.
Qed.

(** A positive [int64] is a positive finite number. *)
Lemma f_of_Z_finite n :
  0 < n < 2 ^ 63 -> exists m e, f_of_Z n = S754_finite false m e /\ Zpos m < 2 ^ 53.
Proof.
  intros Hn. destruct n as [|p|p]; [lia| |lia].
  pose proof (digits2_bounds p) as [Hlo Hhi].
  assert (Zpos (digits2_pos p) - 1 < 63) by (apply (Z.pow_lt_mono_r_iff 2); lia).
  unfold f_of_Z, binary_normalize, binary_round.
  destruct (shl_align_spec p 0 (fexp 53 1024 (Zpos (digits2_pos p) + 0))) as (mz & -> & Hmz & Hdz).
  unfold fexp, emin in *. apply round_aux_finite; [lia|cbn [Zdigits2]; lia..].
Qed.

Lemma max_int64_float : f_of_Z max_int64 = S754_finite false (2 ^ 52) 11.
Proof. vm_compute. reflexivity. Qed.

Lemma trunc_finite_bound m e z k :
  f_trunc (S754_finite false m e) = Some z -> 0 <= k -> e <= k ->
  Zpos m * 2 ^ k <= max_int64 -> 0 <= z <= max_int64.
Proof.
  cbn [f_trunc]. intros [= <-] Hk He Hm. destruct (Z.leb_spec 0 e).
  - rewrite Z.shiftl_mul_pow2 by lia.
    assert (2 ^ e <= 2 ^ k) by (apply Z.pow_le_mono_r; lia). nia.
  - assert (0 < 2 ^ (- e)) by (apply Z.pow_pos_nonneg; lia).
    assert (0 < 2 ^ k) by (apply Z.pow_pos_nonneg; lia).
    split; [apply Z.div_pos; lia|]. apply Z.div_le_upper_bound; nia.
Qed.

(** Below [float64(math.MaxInt64)] the conversion to [int64] is in range. *)
Lemma trunc_in_range d :
  good d -> fleb (f_of_Z max_int64) d = false ->
  exists z, f_trunc d = Some z /\ 0 <= z <= max_int64.
Proof.
  rewrite max_int64_float. destruct d as [s|s| |s m e]; cbn [good]; try done.
  - intros _ _. by exists 0.
  - by intros ->.
  - intros [-> Hm] Hle. eexists. split; [reflexivity|].
    assert (e <= 10 \/ e = 11 /\ Zpos m < 2 ^ 52) as Hc.
    { assert (~ (11 < e \/ 11 = e /\ Zpos (2 ^ 52) <= Zpos m)) as Hn
        by (rewrite <-fleb_finite, Hle; done).
      change (Zpos (2 ^ 52)) with (2 ^ 52) in Hn. lia. }
    destruct Hc as [Hc|[-> Hc]].
    + apply (trunc_finite_bound m e _ 10 eq_refl); unfold max_int64, two63; lia.
    + apply (trunc_finite_bound m 11 _ 11 eq_refl); unfold max_int64, two63; lia.
Qed.

(** ** Normalized numbers

    [m * 2^e] with a full mantissa, whose value [n * 2^k] is written with a
    positive integer. *)
Definition value_is (f : float64) (v : Z) : Prop :=
  exists m e, f = S754_finite false m e /\ 2 ^ 52 <= Zpos m < 2 ^ 53
    /\ -60 <= e <= 971 /\ Zpos m * 2 ^ (e + 60) = v * 2 ^ 60.

Lemma f_of_Z_value n : 0 < n < 2 ^ 53 -> value_is (f_of_Z n) n.
Proof.
  intros Hn. destruct (f_of_Z_exact n Hn) as (m & e & -> & Hm & He & Hv).
  exists m, e. split_and!; [done|lia..|]. rewrite Hv, <-Z.mul_assoc, <-Z.pow_add_r by lia.
  do 2 f_equal. lia.
Qed.

Lemma max_int64_value : value_is (f_of_Z max_int64) two63.
Proof. exists (2 ^ 52)%positive, 11. split_and!; vm_compute; (reflexivity || discriminate). Qed.

(** Multiplying by a power of two is exact. *)
Lemma fmul_pow2 f v n :
  value_is f v -> 0 <= n <= 900 -> (forall m e, f = S754_finite false m e -> e <= 0) ->
  value_is (fmul f (S754_finite false (2 ^ 52) (n - 52))) (v * 2 ^ n).
Proof.
  intros (m & e & -> & Hm & He & Hv) Hn He0. specialize (He0 m e eq_refl).
  unfold fmul, SFmul. cbn [xorb]. rewrite Pos2Z.inj_mul. change (Zpos (2 ^ 52)) with (2 ^ 52).
  rewrite round_aux_exact by lia. exists m, (e + n).
  split_and!; [f_equal; lia|lia..|]. replace (e + n + 60) with (e + 60 + n) by lia.
  rewrite Z.pow_add_r by lia. lia.
Qed.

Lemma value_lt m e m' e' :
  2 ^ 52 <= m < 2 ^ 53 -> 2 ^ 52 <= m' < 2 ^ 53 -> -60 <= e -> -60 <= e' ->
  (e < e' \/ e = e' /\ m < m') <-> m * 2 ^ (e + 60) < m' * 2 ^ (e' + 60).
Proof.
  intros Hm Hm' He He'.
  assert (forall k k', 0 <= k -> k < k' -> 2 * 2 ^ k <= 2 ^ k') as Hmono.
  { intros k k' Hk Hlt. rewrite <-Z.pow_succ_r by done. apply Z.pow_le_mono_r; lia. }
  assert (0 < 2 ^ (e + 60) /\ 0 < 2 ^ (e' + 60)) as [Hp Hp'] by (split; apply Z.pow_pos_nonneg; lia).
  destruct (Z.lt_trichotomy e e') as [Hlt|[->|Hgt]].
  - specialize (Hmono (e + 60) (e' + 60) ltac:(lia) ltac:(lia)). split; [nia|lia].
  - split; [nia|]. intros Hlt. right. split; [done|]. nia.
  - specialize (Hmono (e' + 60) (e + 60) ltac:(lia) ltac:(lia)). split; [lia|nia].
Qed.

Lemma fltb_value f g v w : value_is f v -> value_is g w -> fltb f g = (v <? w).
Proof.
  intros (m & e & -> & Hm & He & Hv) (m' & e' & -> & Hm' & He' & Hw).
  apply eq_true_iff_eq. rewrite fltb_finite, Z.ltb_lt, value_lt by lia. rewrite Hv, Hw. lia.
Qed.

Lemma fleb_value f g v w : value_is f v -> value_is g w -> fleb f g = (v <=? w).
Proof.
  intros Hf Hg. rewrite Z.leb_antisym, <-(fltb_value g f w v Hg Hf).
  destruct Hf as (m & e & -> & _), Hg as (m' & e' & -> & _).
  unfold fleb, SFleb, fltb, SFltb. rewrite !compare_finite, (Z.compare_antisym e e').
  destruct (Z.compare e e'); [|done..]. cbn [CompOpp]. rewrite (Pos.compare_antisym m m').
  by destruct (Pos.compare m m').
Qed.

Lemma trunc_value f v : value_is f v -> f_trunc f = Some v.
Proof.
  intros (m & e & -> & Hm & He & Hv). cbn [f_trunc]. f_equal.
  destruct (Z.leb_spec 0 e).
  - rewrite Z.shiftl_mul_pow2 by lia. rewrite Z.pow_add_r in Hv by lia. lia.
  - replace 60 with (e + 60 + - e) in Hv at 2 by lia. rewrite (Z.pow_add_r 2 (e + 60)) in Hv by lia.
    assert (0 < 2 ^ (e + 60)) by (apply Z.pow_pos_nonneg; lia).
    assert (0 < 2 ^ (- e)) by (apply Z.pow_pos_nonneg; lia).
    assert (Zpos m = v * 2 ^ (- e)) as -> by nia. by rewrite Z.div_mul by lia.
Qed.

(** A number that is not above the exact integer [v] truncates to at most [v],
    and is below [float64(math.MaxInt64)]. *)
Lemma trunc_le_exact d v :
  good d -> 0 < v < 2 ^ 53 -> fltb (f_of_Z v) d = false ->
  fleb (f_of_Z max_int64) d = false /\ exists z, f_trunc d = Some z /\ 0 <= z <= v.
Proof.
  intros Hd Hv. destruct (f_of_Z_exact v Hv) as (m' & e' & -> & Hm' & He' & Hval).
  rewrite max_int64_float. destruct d as [s|s| |s m e]; cbn [good] in Hd; try done.
  - intros _. split; [done|]. exists 0. split; [done|lia].
  - by rewrite Hd.
  - destruct Hd as [-> Hm]. intros Hlt.
    assert (~ (e' < e \/ e' = e /\ Zpos m' < Zpos m)) as Hn by (rewrite <-fltb_finite, Hlt; done).
    split.
    { apply not_true_iff_false. rewrite fleb_finite. lia. }
    assert (Zpos m <= 2 ^ (- e) * v) as Hle.
    { destruct (Z.eq_dec e e') as [->|Hne]; [lia|].
      assert (2 * 2 ^ (- e') <= 2 ^ (- e))
        by (rewrite <-Z.pow_succ_r by lia; apply Z.pow_le_mono_r; lia). nia. }
    assert (0 < 2 ^ (- e)) by (apply Z.pow_pos_nonneg; lia).
    cbn [f_trunc]. eexists. split; [reflexivity|]. destruct (Z.leb_spec 0 e).
    + assert (e = 0) as -> by lia. rewrite Z.shiftl_0_r. change (2 ^ (- 0)) with 1 in Hle. lia.
    + split; [apply Z.div_pos; lia|apply Z.div_le_upper_bound; lia].
Qed.
