(* ===== verification/GoDuration.v ===== *)
(** * [time.ParseDuration] *)

From Stdlib Require Import ZArith Lia Ascii String SpecFloat.
From stdpp Require Import base list strings gmap.
From S2P Require Import Prelude GoTime GoStrings GoFloat.

#[local] Open Scope string_scope.
#[local] Open Scope Z_scope.

Inductive duration_error := InvalidDuration | MissingUnit | UnknownUnit (u : string).

(** The unit table; the two spellings of the micro sign are U+00B5 and U+03BC. *)
Definition byte_char (n : N) : ascii := ascii_of_N n.
Definition unitMap : gmap string Z := list_to_map
  [("ns", 1); ("us", 1000);
   (String (byte_char 194) (String (byte_char 181) "s"), 1000);
   (String (byte_char 206) (String (byte_char 188) "s"), 1000);
   ("ms", 1000000); ("s", 1000000000); ("m", 60000000000); ("h", 3600000000000)].

(** [leadingInt]: the number in front of [s] and the rest, or overflow. *)
Fixpoint leadingInt (x : Z) (s : string) : result duration_error (Z * string) :=
  match s with
  | String a s' =>
      if is_digit a then
        if two63 / 10 <? x then Err InvalidDuration
        else if two63 <? x * 10 + digit_of a then Err InvalidDuration
        else leadingInt (x * 10 + digit_of a) s'
      else Ok (x, s)
  | EmptyString => Ok (x, s)
  end.

(** [leadingFraction]: digits beyond the capacity of the mantissa are dropped. *)
Fixpoint leadingFraction (x : Z) (scale : float64) (overflow : bool) (s : string)
  : Z * float64 * string :=
  match s with
  | String a s' =>
      if is_digit a then
        if overflow then leadingFraction x scale true s'
        else if max_int64 / 10 <? x then leadingFraction x scale true s'
        else if two63 <? x * 10 + digit_of a then leadingFraction x scale true s'
        else leadingFraction (x * 10 + digit_of a) (fmul scale (f_of_Z 10)) false s'
      else (x, scale, s)
  | EmptyString => (x, scale, s)
  end.

(** The unit: bytes up to the next digit or dot. *)
Fixpoint take_unit (s : string) : string * string :=
  match s with
  | String a s' =>
      if (byte_of a =? 46) || is_digit a then (EmptyString, s)
      else let '(u, r) := take_unit s' in (String a u, r)
  | EmptyString => (EmptyString, EmptyString)
  end.

(** One round of the loop: a number with an optional fraction and a unit.
    Returns its nanoseconds and the remaining text. *)
Definition duration_item (s : string) : result duration_error (Z * string) :=
  match s with
  | EmptyString => Err InvalidDuration
  | String a _ =>
      if negb ((byte_of a =? 46) || is_digit a) then Err InvalidDuration
      else
        let? (v, s1) := leadingInt 0 s in
        let pre := negb (Nat.eqb (String.length s1) (String.length s)) in
        let '(f, scale, s2, post) :=
          match s1 with
          | String "." s1' =>
              let '(f, scale, s2) := leadingFraction 0 f_one false s1' in
              (f, scale, s2, negb (Nat.eqb (String.length s2) (String.length s1')))
          | _ => (0, f_one, s1, false)
          end in
        if negb pre && negb post then Err InvalidDuration
        else
          let '(u, s3) := take_unit s2 in
          match u with
          | EmptyString => Err MissingUnit
          | _ =>
              match unitMap !! u with
              | None => Err (UnknownUnit u)
              | Some unit =>
                  if two63 / unit <? v then Err InvalidDuration
                  else
                    let v := v * unit in
                    let v :=
                      if 0 <? f
                      then v + default 0 (f_trunc (fmul (f_of_Z f)
                                                     (fdiv (f_of_Z unit) scale)))
                      else v in
                    if two63 <? v then Err InvalidDuration else Ok (v, s3)
              end
          end
  end.

(** The loop; every round consumes at least one byte. *)
Fixpoint duration_items (fuel : nat) (d : Z) (s : string) : result duration_error Z :=
  match s with
  | EmptyString => Ok d
  | _ =>
      match fuel with
      | O => Err InvalidDuration
      | S fuel =>
          let? (v, s') := duration_item s in
          if two63 <? d + v then Err InvalidDuration
          else duration_items fuel (d + v) s'
      end
  end.

Definition ParseDuration (s : string) : result duration_error duration :=
  let '(neg, s1) :=
    match s with
    | String "-" s' => (true, s')
    | String "+" s' => (false, s')
    | _ => (false, s)
    end in
  if String.eqb s1 "0" then Ok 0
  else if String.eqb s1 "" then Err InvalidDuration
  else
    let? d := duration_items (String.length s1) 0 s1 in
    if neg then Ok (- d)
    else if max_int64 <? d then Err InvalidDuration
    else Ok d.

Example dur_90m : ParseDuration "90m" = Ok (90 * Minute).
Proof. vm_compute. done. Qed.
Example dur_mixed : ParseDuration "1h30m1.5s" = Ok (Hour + 30 * Minute + Second + 500 * Millisecond).
Proof. vm_compute. done. Qed.
Example dur_frac : ParseDuration "-.25h" = Ok (- (15 * Minute)).
Proof. vm_compute. done. Qed.
Example dur_bad : ParseDuration "notaduration" = Err InvalidDuration
  /\ ParseDuration "3" = Err MissingUnit /\ ParseDuration "3d" = Err (UnknownUnit "d").
Proof. vm_compute. done. Qed.
