(* ===== verification/GoFlag.v ===== *)
(** * Go's [flag] package and [strconv.ParseInt] with base 0

    The parser of a [flag.FlagSet] whose flags are strings, integers and
    durations, with the policy [ContinueOnError], and the integer syntax such
    flags accept: an optional base prefix, underscores between digits, a leading
    zero for octal. *)

From Stdlib Require Import ZArith Lia Ascii String.
From stdpp Require Import base list strings gmap.
From S2P Require Import Prelude GoTime GoStrings GoDuration.

#[local] Open Scope string_scope.
#[local] Open Scope list_scope.
#[local] Open Scope Z_scope.

(** ** [strconv.ParseInt(s, 0, 64)] *)

(** [lower(c)]: [c | ('x' - 'X')]. *)
Definition lower_byte (a : ascii) : Z := Z.lor (byte_of a) 32.

(** The value of a digit in the widest base, 36. *)
Definition digit36 (a : ascii) : option Z :=
  if is_digit a then Some (digit_of a)
  else if (97 <=? lower_byte a) && (lower_byte a <=? 122) then Some (lower_byte a - 97 + 10)
  else None.

(** The prefix of a number in base 0: its base and the rest. *)
Definition base_prefix (s : string) : Z * string :=
  match s with
  | String "0" rest =>
      match rest with
      | String c (String _ _ as digits) =>
          if lower_byte c =? 98 then (2, digits)
          else if lower_byte c =? 111 then (8, digits)
          else if lower_byte c =? 120 then (16, digits)
          else (8, rest)
      | _ => (8, rest)
      end
  | _ => (10, s)
  end.

(** The loop over the digits; underscores are skipped here and checked after. *)
Fixpoint parse_base (base n : Z) (s : string) : result num_error Z :=
  match s with
  | EmptyString => Ok n
  | String a s' =>
      if byte_of a =? 95 then parse_base base n s'
      else match digit36 a with
           | None => Err ErrSyntax
           | Some d =>
               if base <=? d then Err ErrSyntax
               else if two64 <=? n * base + d then Err ErrRange
               else parse_base base (n * base + d) s'
           end
  end.

Definition has_underscore (s : string) : bool :=
  match cut_byte "_" s with Some _ => true | None => false end.

(** [underscoreOK]: what the previous character was. *)
Inductive seen_char := AtStart | Digit | Underscore | Other.

Fixpoint underscores_ok (hex : bool) (prev : seen_char) (s : string) : bool :=
  match s with
  | EmptyString => match prev with Underscore => false | _ => true end
  | String a s' =>
      if is_digit a || (hex && ((97 <=? lower_byte a) && (lower_byte a <=? 102)))
      then underscores_ok hex Digit s'
      else if byte_of a =? 95 then
        match prev with Digit => underscores_ok hex Underscore s' | _ => false end
      else match prev with Underscore => false | _ => underscores_ok hex Other s' end
  end.

Definition underscoreOK (s : string) : bool :=
  match s with
  | String "0" (String c rest) =>
      if (lower_byte c =? 98) || (lower_byte c =? 111) || (lower_byte c =? 120)
      then underscores_ok (lower_byte c =? 120) Digit rest
      else underscores_ok false AtStart s
  | _ => underscores_ok false AtStart s
  end.

Definition ParseUint0 (s : string) : result num_error Z :=
  match s with
  | EmptyString => Err ErrSyntax
  | _ =>
      let '(base, digits) := base_prefix s in
      let? n := parse_base base 0 digits in
      if has_underscore s && negb (underscoreOK s) then Err ErrSyntax else Ok n
  end.

Definition ParseInt0 (s : string) : result num_error Z :=
  let '(neg, digits) :=
    match s with
    | String "-" s' => (true, s')
    | String "+" s' => (false, s')
    | _ => (false, s)
    end in
  let? n := ParseUint0 digits in
  if neg then (if two63 <? n then Err ErrRange else Ok (- n))
  else (if two63 <=? n then Err ErrRange else Ok n).

Example int_bases : map ParseInt0 ["10"; "010"; "0x1F"; "-0b11"; "1_000"; "0"; "0o17"]
  = [Ok 10; Ok 8; Ok 31; Ok (-3); Ok 1000; Ok 0; Ok 15].
Proof. vm_compute. done. Qed.
Example int_bad : map ParseInt0 [""; "_1"; "1__0"; "08"; "0x"; "1_"; "ten"; "9223372036854775808"]
  = [Err ErrSyntax; Err ErrSyntax; Err ErrSyntax; Err ErrSyntax; Err ErrSyntax; Err ErrSyntax;
     Err ErrSyntax; Err ErrRange].
Proof. vm_compute. done. Qed.

(** ** Flag sets *)

(** The value behind a flag. *)
Inductive flag_value :=
| StringValue (s : string)
| IntValue (n : Z)
| DurationValue (d : duration).

Abbreviation FlagSet := (gmap string flag_value).

Inductive flag_error :=
| BadSyntax (arg : string)
| NotDefined (name : string)
| ErrHelp
| NeedsArgument (name : string)
| InvalidValue (value name : string).

(** [Value.Set]: the kind of the flag decides how its text is read. *)
Definition Set_value (v : flag_value) (text : string) : option flag_value :=
  match v with
  | StringValue _ => Some (StringValue text)
  | IntValue _ =>
      match ParseInt0 text with Ok n => Some (IntValue n) | Err _ => None end
  | DurationValue _ =>
      match ParseDuration text with Ok d => Some (DurationValue d) | Err _ => None end
  end.

(** What an argument is: the end of the flags, a malformed flag, or a flag with
    its name and what follows an equals sign. *)
Inductive arg_shape :=
| NotAFlag
| Terminator
| Malformed
| Flag (name : string) (value : option string).

(** The equals sign cannot be the first character of the name. *)
Definition split_value (name : string) : string * option string :=
  match name with
  | EmptyString => (name, None)
  | String a rest =>
      match cut_byte "=" rest with
      | Some (l, r) => (String a l, Some r)
      | None => (name, None)
      end
  end.

Definition flag_name (name : string) : arg_shape :=
  match name with
  | EmptyString => Malformed
  | String c _ =>
      if Ascii.eqb c "-" || Ascii.eqb c "=" then Malformed
      else let '(n, v) := split_value name in Flag n v
  end.

Definition shape (s : string) : arg_shape :=
  match s with
  | String "-" (String "-" EmptyString) => Terminator
  | String "-" (String "-" name) => flag_name name
  | String "-" (String _ _ as name) => flag_name name
  | _ => NotAFlag
  end.

(** [Parse]: the loop of [parseOne].  An argument that is a flag without a value
    takes the next argument. *)
Fixpoint Parse (fs : FlagSet) (args : list string) : result flag_error FlagSet :=
  match args with
  | [] => Ok fs
  | arg :: args =>
      match shape arg with
      | NotAFlag => Ok fs
      | Terminator => Ok fs
      | Malformed => Err (BadSyntax arg)
      | Flag name value =>
          match fs !! name with
          | None =>
              if String.eqb name "help" || String.eqb name "h" then Err ErrHelp
              else Err (NotDefined name)
          | Some v =>
              match value with
              | Some text =>
                  match Set_value v text with
                  | None => Err (InvalidValue text name)
                  | Some v => Parse (<[name := v]> fs) args
                  end
              | None =>
                  match args with
                  | [] => Err (NeedsArgument name)
                  | text :: args =>
                      match Set_value v text with
                      | None => Err (InvalidValue text name)
                      | Some v => Parse (<[name := v]> fs) args
                      end
                  end
              end
          end
      end
  end.

(** Reading a flag through the pointer that [fs.String], [fs.Int] or
    [fs.Duration] returned. *)
Definition string_flag (fs : FlagSet) (name : string) : string :=
  match fs !! name with Some (StringValue s) => s | _ => "" end.
Definition int_flag (fs : FlagSet) (name : string) : Z :=
  match fs !! name with Some (IntValue n) => n | _ => 0 end.
Definition duration_flag (fs : FlagSet) (name : string) : duration :=
  match fs !! name with Some (DurationValue d) => d | _ => 0 end.

Example parse_flags :
  let fs := list_to_map [("addr", StringValue ":1"); ("n", IntValue 3); ("t", DurationValue 5)] in
  match Parse fs ["-addr"; ":2"; "--n=0x10"; "-t=2s"; "rest"; "-n"; "9"] with
  | Ok fs => (string_flag fs "addr", int_flag fs "n", duration_flag fs "t")
             = (":2", 16, 2 * Second)
  | Err _ => False
  end.
Proof. vm_compute. done. Qed.

(** ** What a command line says

    The assignments that a command line makes, in order: names and texts.  The
    flags end at the first argument that is not one. *)
Inductive cmdline : list string -> list (string * string) -> Prop :=
| cmd_end : cmdline [] []
| cmd_rest arg args : shape arg = NotAFlag -> cmdline (arg :: args) []
| cmd_stop arg args : shape arg = Terminator -> cmdline (arg :: args) []
| cmd_equals arg name text args sets :
    shape arg = Flag name (Some text) -> cmdline args sets ->
    cmdline (arg :: args) ((name, text) :: sets)
| cmd_next arg name text args sets :
    shape arg = Flag name None -> cmdline args sets ->
    cmdline (arg :: text :: args) ((name, text) :: sets).

(** The text last given to a flag. *)
Fixpoint last_text (name : string) (sets : list (string * string)) : option string :=
  match sets with
  | [] => None
  | (n, text) :: sets =>
      match last_text name sets with
      | Some t => Some t
      | None => if String.eqb n name then Some text else None
      end
  end.

(** Making the assignments one after the other. *)
Fixpoint assign (fs : FlagSet) (sets : list (string * string)) : option FlagSet :=
  match sets with
  | [] => Some fs
  | (name, text) :: sets =>
      v ← fs !! name; v ← Set_value v text; assign (<[name := v]> fs) sets
  end.

(** An assignment that the flag set accepts. *)
Definition accepted (fs : FlagSet) (s : string * string) : Prop :=
  exists v v', fs !! s.1 = Some v /\ Set_value v s.2 = Some v'.

Lemma cmdline_flag arg name value args sets :
  shape arg = Flag name value -> cmdline (arg :: args) sets ->
  exists text rest sets', sets = (name, text) :: sets' /\ cmdline rest sets'
    /\ ((value = Some text /\ rest = args) \/ (value = None /\ args = text :: rest)).
Proof. intros Hs Hc. inversion Hc; subst; rewrite Hs in *; simplify_eq; eauto 8. Qed.

Lemma cmdline_stop arg args sets :
  shape arg = NotAFlag \/ shape arg = Terminator -> cmdline (arg :: args) sets -> sets = [].
Proof. intros [Hs|Hs] Hc; inversion Hc; congruence. Qed.

Lemma Parse_assign_aux n : forall fs args fs', (length args <= n)%nat ->
  Parse fs args = Ok fs' <-> exists sets, cmdline args sets /\ assign fs sets = Some fs'.
Proof.
  induction n as [|n IH]; intros fs [|arg args] fs' Hn; cbn [length] in Hn; try lia.
  1,2: split; [intros [= <-]; exists []; split; [constructor|done]|];
    intros (sets & Hc & Ha); inversion Hc; subst; cbn in *; congruence.
  cbn [Parse]. destruct (shape arg) as [| | |name value] eqn:Hs.
  1,2: split; [intros [= <-]; exists []; split; [by constructor|done]|];
    intros (sets & Hc & Ha); apply cmdline_stop in Hc; [subst sets; cbn in Ha; congruence|auto].
  - split; [done|]. intros (sets & Hc & Ha). inversion Hc; congruence.
  - transitivity (exists text rest, ((value = Some text /\ rest = args)
        \/ (value = None /\ args = text :: rest)) /\ exists v v' sets, fs !! name = Some v
        /\ Set_value v text = Some v' /\ cmdline rest sets
        /\ assign (<[name := v']> fs) sets = Some fs').
    2: { split.
      - intros (text & rest & Hr & v & v' & sets & Hv & Hset & Hc & Ha).
        exists ((name, text) :: sets). split.
        + destruct Hr as [[-> ->]|[-> ->]]; by econstructor.
        + cbn. rewrite Hv. cbn. by rewrite Hset.
      - intros (sets & Hc & Ha). destruct (cmdline_flag _ _ _ _ _ Hs Hc)
          as (text & rest & sets' & -> & Hc' & Hr). cbn in Ha.
        destruct (fs !! name) as [v|] eqn:Hv; cbn in Ha; [|done].
        destruct (Set_value v text) as [v'|] eqn:Hset; cbn in Ha; [|done]. eauto 12. }
    assert (forall text rest, (length rest <= n)%nat -> forall v, fs !! name = Some v ->
      (match Set_value v text with None => Err (InvalidValue text name)
       | Some v => Parse (<[name := v]> fs) rest end = Ok fs'
       <-> exists v v' sets, fs !! name = Some v /\ Set_value v text = Some v'
           /\ cmdline rest sets /\ assign (<[name := v']> fs) sets = Some fs')) as Hone.
    { intros text rest Hlen v Hv. destruct (Set_value v text) as [v'|] eqn:Hset.
      - rewrite IH by done. split.
        + intros (sets & Hc & Ha). eauto 10.
        + intros (v1 & v2 & sets & Hv1 & Hs1 & Hc & Ha). simplify_eq. eauto.
      - split; [done|]. intros (v1 & v2 & sets & Hv1 & Hs1 & Hc & Ha). simplify_eq. }
    destruct (fs !! name) as [v|] eqn:Hv.
    + destruct value as [text|]; [|destruct args as [|text args]].
      * rewrite (Hone text args) by (done || lia). split; [intros H; exists text, args; auto|].
        intros (t & rest & [[[= ->] ->]|[[=] _]] & Hgo). exact Hgo.
      * split; [done|]. by intros (t & rest & [[[=] _]|[_ [=]]] & _).
      * cbn [length] in Hn. rewrite (Hone text args) by (done || lia).
        split; [intros H; exists text, args; auto|].
        intros (t & rest & [[[=] _]|[_ [= -> ->]]] & Hgo). exact Hgo.
    + split; [by case_on|]. intros (t & rest & _ & v & v' & sets & Hv1 & _). congruence.
Qed.

(** A command line parses to the flag set in which its assignments were made. *)
Lemma Parse_assign fs args fs' :
  Parse fs args = Ok fs' <-> exists sets, cmdline args sets /\ assign fs sets = Some fs'.
Proof. by apply (Parse_assign_aux (length args)). Qed.

Lemma Set_value_kind v text v1 text' : Set_value v text = Some v1 -> Set_value v1 text' = Set_value v text'.
Proof. destruct v; cbn; [by intros [= <-]|destruct (ParseInt0 text)|destruct (ParseDuration text)];
  by intros [= <-]. Qed.

(** The value of a flag after the assignments: read from the last text. *)
Lemma assign_lookup sets : forall fs fs' name v,
  assign fs sets = Some fs' -> fs !! name = Some v ->
  match last_text name sets with
  | None => fs' !! name = Some v
  | Some text => exists v', Set_value v text = Some v' /\ fs' !! name = Some v'
  end.
Proof.
  induction sets as [|[n t] sets IH]; intros fs fs' name v Ha Hv; cbn in *; [by simplify_eq|].
  destruct (fs !! n) as [x|] eqn:Hx; cbn in Ha; [|done].
  destruct (Set_value x t) as [x'|] eqn:Hset; cbn in Ha; [|done].
  destruct (String.eqb_spec n name) as [->|Hne].
  - simplify_eq. specialize (IH _ _ name x' Ha (lookup_insert_eq _ _ _)).
    destruct (last_text name sets) as [text|]; [|by eauto].
    by rewrite (Set_value_kind _ _ _ _ Hset) in IH.
  - specialize (IH _ _ name v Ha). rewrite lookup_insert_ne in IH by done. specialize (IH Hv).
    by destruct (last_text name sets).
Qed.

(** The assignments go through exactly when each is accepted. *)
Lemma assign_defined sets : forall fs,
  is_Some (assign fs sets) <-> Forall (accepted fs) sets.
Proof.
  induction sets as [|[n t] sets IH]; intros fs; cbn.
  { split; [constructor|eauto]. }
  rewrite Forall_cons. unfold accepted at 1. cbn [fst snd].
  destruct (fs !! n) as [x|] eqn:Hx; cbn.
  2: { split; [by intros [? ?]|]. by intros [(v & v' & [=] & _) _]. }
  destruct (Set_value x t) as [x'|] eqn:Hset; cbn.
  2: { split; [by intros [? ?]|]. intros [(v & v' & [= <-] & ?) _]. congruence. }
  rewrite IH. transitivity (Forall (accepted fs) sets); [|by split; [eauto 10|tauto]].
  apply Forall_iff. intros [n' t']. unfold accepted. cbn [fst snd].
  destruct (decide (n = n')) as [<-|Hne]; [|by rewrite lookup_insert_ne].
  rewrite lookup_insert_eq, Hx. split.
  - intros (v & v' & [= <-] & H). rewrite (Set_value_kind _ _ _ _ Hset) in H. eauto.
  - intros (v & v' & [= <-] & H). exists x', v'. by rewrite (Set_value_kind _ _ _ _ Hset).
Qed.
