(* ===== verification/GoJson.v ===== *)
(** * Go's [encoding/json]: reading

    JSON texts as [json.Unmarshal] accepts them, into a tree of values, and the
    rules by which a value is stored into a Go variable.  Strings are unquoted to
    UTF-8, with U+FFFD for what is not valid, and kept as written too; a number
    keeps its literal. *)

From Stdlib Require Import ZArith Lia Ascii String SpecFloat.
From stdpp Require Import base list strings.
From S2P Require Import Prelude GoStrings GoFloat.

#[local] Open Scope string_scope.
#[local] Open Scope Z_scope.

#[local] Set Warnings "-register-all".

Inductive json :=
| JNull
| JBool (b : bool)
| JNumber (lit : string)
| JString (raw s : string)
| JArray (l : list json)
| JObject (l : list (string * json)).

(** [Fuel] is not an error of the package: see [parse_fuel]. *)
Inductive json_error := SyntaxError | Fuel.

Definition is_byte (n : Z) (a : ascii) : bool := byte_of a =? n.
Definition byte_at (n : Z) : ascii := ascii_of_N (Z.to_N n).

(** ** White space and literals *)

Fixpoint skip_space (s : string) : string :=
  match s with
  | String a s' =>
      if is_byte 32 a || is_byte 9 a || is_byte 10 a || is_byte 13 a then skip_space s' else s
  | EmptyString => s
  end.

Fixpoint take_digits (s : string) : string * string :=
  match s with
  | String a s' =>
      if is_digit a then let '(d, r) := take_digits s' in (String a d, r) else (EmptyString, s)
  | EmptyString => (EmptyString, s)
  end.

(** The integer part: zero, or digits that do not start with zero. *)
Definition int_part (s : string) : option (string * string) :=
  match s with
  | String a s' =>
      if is_byte 48 a then Some (String a EmptyString, s')
      else match take_digits s with
           | (EmptyString, _) => None
           | dr => Some dr
           end
  | EmptyString => None
  end.

Definition frac_part (s : string) : option (string * string) :=
  match s with
  | String a s' =>
      if is_byte 46 a then
        match take_digits s' with
        | (EmptyString, _) => None
        | (d, r) => Some (String a d, r)
        end
      else Some (EmptyString, s)
  | EmptyString => Some (EmptyString, s)
  end.

Definition exp_part (s : string) : option (string * string) :=
  match s with
  | String a s' =>
      if is_byte 101 a || is_byte 69 a then
        let '(sign, s'') :=
          match s' with
          | String b r => if is_byte 43 b || is_byte 45 b then (String b EmptyString, r)
                          else (EmptyString, s')
          | EmptyString => (EmptyString, s')
          end in
        match take_digits s'' with
        | (EmptyString, _) => None
        | (d, r) => Some (String a (sign ++ d), r)
        end
      else Some (EmptyString, s)
  | EmptyString => Some (EmptyString, s)
  end.

Definition number (s : string) : option (string * string) :=
  let '(sign, s) :=
    match s with
    | String a s' => if is_byte 45 a then (String a EmptyString, s') else (EmptyString, s)
    | EmptyString => (EmptyString, s)
    end in
  '(i, s) ← int_part s; '(f, s) ← frac_part s; '(e, s) ← exp_part s;
  Some (sign ++ i ++ f ++ e, s).

(** ** Strings *)

Definition hex_digit (a : ascii) : option Z :=
  let c := byte_of a in
  if (48 <=? c) && (c <=? 57) then Some (c - 48)
  else if (97 <=? c) && (c <=? 102) then Some (c - 87)
  else if (65 <=? c) && (c <=? 70) then Some (c - 55)
  else None.

Definition hex4 (a b c d : ascii) : option Z :=
  a ← hex_digit a; b ← hex_digit b; c ← hex_digit c; d ← hex_digit d;
  Some (((a * 16 + b) * 16 + c) * 16 + d).

(** The UTF-8 encoding of a code point. *)
Definition utf8_encode (r : Z) : string :=
  if r <? 128 then String (byte_at r) EmptyString
  else if r <? 2048 then
    String (byte_at (192 + r / 64)) (String (byte_at (128 + r mod 64)) EmptyString)
  else if r <? 65536 then
    String (byte_at (224 + r / 4096))
      (String (byte_at (128 + r / 64 mod 64)) (String (byte_at (128 + r mod 64)) EmptyString))
  else
    String (byte_at (240 + r / 262144)) (String (byte_at (128 + r / 4096 mod 64))
      (String (byte_at (128 + r / 64 mod 64)) (String (byte_at (128 + r mod 64)) EmptyString))).

Definition replacement : string := utf8_encode 65533.

Definition is_high (r : Z) : bool := (55296 <=? r) && (r <? 56320).
Definition is_low (r : Z) : bool := (56320 <=? r) && (r <? 57344).

(** A continuation byte within bounds. *)
Definition cont (lo hi : Z) (a : ascii) : bool := (lo <=? byte_of a) && (byte_of a <=? hi).

(** The bounds of the second byte of an encoding, by its first byte, and how many
    more bytes follow. *)
Definition utf8_lead (a : ascii) : option (Z * Z * nat) :=
  let c := byte_of a in
  if (194 <=? c) && (c <=? 223) then Some (128, 191, 0%nat)
  else if c =? 224 then Some (160, 191, 1%nat)
  else if c =? 237 then Some (128, 159, 1%nat)
  else if (225 <=? c) && (c <=? 239) then Some (128, 191, 1%nat)
  else if c =? 240 then Some (144, 191, 2%nat)
  else if (241 <=? c) && (c <=? 243) then Some (128, 191, 2%nat)
  else if c =? 244 then Some (128, 143, 2%nat)
  else None.

(** The rest of a string literal, after its opening quote: what it denotes and
    the text behind the closing quote. *)
Fixpoint string_lit (s : string) : option (string * string) :=
  match s with
  | EmptyString => None
  | String a s1 =>
      if is_byte 34 a then Some (EmptyString, s1)
      else if byte_of a <? 32 then None
      else if is_byte 92 a then
        match s1 with
        | EmptyString => None
        | String e s2 =>
            let plain n := '(x, r) ← string_lit s2; Some (String (byte_at n) x, r) in
            if is_byte 34 e || is_byte 92 e || is_byte 47 e then plain (byte_of e)
            else if is_byte 98 e then plain 8
            else if is_byte 102 e then plain 12
            else if is_byte 110 e then plain 10
            else if is_byte 114 e then plain 13
            else if is_byte 116 e then plain 9
            else if is_byte 117 e then
              match s2 with
              | String h1 (String h2 (String h3 (String h4 s3))) =>
                  match hex4 h1 h2 h3 h4 with
                  | None => None
                  | Some r =>
                      let one (t : string) := '(x, rest) ← string_lit s3; Some (t ++ x, rest) in
                      if is_high r then
                        match s3 with
                        | String b (String u (String l1 (String l2 (String l3 (String l4 s4))))) =>
                            match hex4 l1 l2 l3 l4 with
                            | Some r2 =>
                                if is_byte 92 b && is_byte 117 u && is_low r2 then
                                  '(x, rest) ← string_lit s4;
                                  Some (utf8_encode (65536 + (r - 55296) * 1024 + (r2 - 56320)) ++ x,
                                        rest)
                                else one replacement
                            | None => one replacement
                            end
                        | _ => one replacement
                        end
                      else one (if is_low r then replacement else utf8_encode r)
                  end
              | _ => None
              end
            else None
        end
      else
        let invalid := '(x, r) ← string_lit s1; Some (replacement ++ x, r) in
        if byte_of a <? 128 then '(x, r) ← string_lit s1; Some (String a x, r)
        else match utf8_lead a, s1 with
             | Some (lo, hi, 0%nat), String b s2 =>
                 if cont lo hi b then
                   '(x, r) ← string_lit s2; Some (String a (String b x), r)
                 else invalid
             | Some (lo, hi, 1%nat), String b (String c s3) =>
                 if cont lo hi b && cont 128 191 c then
                   '(x, r) ← string_lit s3; Some (String a (String b (String c x)), r)
                 else invalid
             | Some (lo, hi, _), String b (String c (String d s4)) =>
                 if cont lo hi b && cont 128 191 c && cont 128 191 d then
                   '(x, r) ← string_lit s4; Some (String a (String b (String c (String d x))), r)
                 else invalid
             | _, _ => invalid
             end
  end.

(** What stands between the quotes, from the text behind the opening quote and the
    text behind the closing one. *)
Definition raw_literal (s r : string) : string :=
  String.substring 0 (String.length s - String.length r - 1) s.

(** ** Values *)

(** [maxNestingDepth]. *)
Definition max_depth : Z := 10000.

(** [json_value] reads a value, [json_elements] the elements of an array behind its bracket
    or a comma, [json_members] the members of an object behind its brace or a comma. *)
Fixpoint json_value (fuel : nat) (depth : Z) (s : string) : result json_error (json * string) :=
  match fuel with
  | O => Err Fuel
  | S fuel =>
      match skip_space s with
      | EmptyString => Err SyntaxError
      | String a s' =>
          if is_byte 123 a then
            if max_depth <=? depth then Err SyntaxError
            else match skip_space s' with
                 | String b r => if is_byte 125 b then Ok (JObject [], r)
                                 else let? (l, r) := json_members fuel (depth + 1) s' in
                                      Ok (JObject l, r)
                 | EmptyString => Err SyntaxError
                 end
          else if is_byte 91 a then
            if max_depth <=? depth then Err SyntaxError
            else match skip_space s' with
                 | String b r => if is_byte 93 b then Ok (JArray [], r)
                                 else let? (l, r) := json_elements fuel (depth + 1) s' in
                                      Ok (JArray l, r)
                 | EmptyString => Err SyntaxError
                 end
          else if is_byte 34 a then
            match string_lit s' with
            | Some (x, r) => Ok (JString (raw_literal s' r) x, r)
            | None => Err SyntaxError
            end
          else if HasPrefix (String a s') "true" then Ok (JBool true, drop_bytes 4 (String a s'))
          else if HasPrefix (String a s') "false" then Ok (JBool false, drop_bytes 5 (String a s'))
          else if HasPrefix (String a s') "null" then Ok (JNull, drop_bytes 4 (String a s'))
          else match number (String a s') with
               | Some (lit, r) => Ok (JNumber lit, r)
               | None => Err SyntaxError
               end
      end
  end
with json_elements (fuel : nat) (depth : Z) (s : string) : result json_error (list json * string) :=
  match fuel with
  | O => Err Fuel
  | S fuel =>
      let? (v, r) := json_value fuel depth s in
      match skip_space r with
      | String a r =>
          if is_byte 44 a then let? (l, r) := json_elements fuel depth r in Ok (v :: l, r)
          else if is_byte 93 a then Ok ([v], r)
          else Err SyntaxError
      | EmptyString => Err SyntaxError
      end
  end
with json_members (fuel : nat) (depth : Z) (s : string)
  : result json_error (list (string * json) * string) :=
  match fuel with
  | O => Err Fuel
  | S fuel =>
      match skip_space s with
      | String a s' =>
          if is_byte 34 a then
            match string_lit s' with
            | None => Err SyntaxError
            | Some (k, r) =>
                match skip_space r with
                | String c r =>
                    if is_byte 58 c then
                      let? (v, r) := json_value fuel depth r in
                      match skip_space r with
                      | String b r =>
                          if is_byte 44 b then let? (l, r) := json_members fuel depth r in
                                               Ok ((k, v) :: l, r)
                          else if is_byte 125 b then Ok ([(k, v)], r)
                          else Err SyntaxError
                      | EmptyString => Err SyntaxError
                      end
                    else Err SyntaxError
                | EmptyString => Err SyntaxError
                end
            end
          else Err SyntaxError
      | EmptyString => Err SyntaxError
      end
  end.

(** Each nested call is behind at least one byte of the text, or is the value of
    an element list: two rounds for a byte are enough ([parse_fuel]). *)
Definition parse_json (s : string) : result json_error json :=
  let? (v, r) := json_value (2 * String.length s + 2) 0 s in
  match skip_space r with EmptyString => Ok v | _ => Err SyntaxError end.

(** [NewDecoder(r).Decode]: the first value of the stream, whatever follows it. *)
Definition first_json (s : string) : result json_error json :=
  let? (v, _) := json_value (2 * String.length s + 2) 0 s in Ok v.

(** ** Storing a value into a variable

    [None] is an [UnmarshalTypeError].  A decoder takes the present content of
    the variable: [null] leaves it alone, or clears a slice or a pointer. *)
Definition decoder (A : Type) := A -> json -> option A.

Definition into_string : decoder string := fun old v =>
  match v with JString _ s => Some s | JNull => Some old | _ => None end.

Definition into_int : decoder Z := fun old v =>
  match v with
  | JNumber lit => match Atoi lit with Ok n => Some n | Err _ => None end
  | JNull => Some old
  | _ => None
  end.

Definition into_bool : decoder bool := fun old v =>
  match v with JBool b => Some b | JNull => Some old | _ => None end.

(** A pointer to a bool. *)
Definition into_bool_ptr : decoder (option bool) := fun _ v =>
  match v with JBool b => Some (Some b) | JNull => Some None | _ => None end.

(** The elements that the slice held before are decoded into again. *)
Definition into_elements {A} (zero : A) (dec : decoder A) :=
  fix go (old : list A) (l : list json) : option (list A) :=
    match l with
    | [] => Some []
    | v :: l => x ← dec (hd zero old) v; xs ← go (tail old) l; Some (x :: xs)
    end.

Definition into_slice {A} (zero : A) (dec : decoder A) : decoder (list A) := fun old v =>
  match v with
  | JArray l => into_elements zero dec old l
  | JNull => Some []
  | _ => None
  end.

(** A key matches a field name when they fold to the same letters; two letters
    outside ASCII fold to k and s. *)
Fixpoint fold_name (s : string) : string :=
  match s with
  | EmptyString => EmptyString
  | String a s1 =>
      match s1 with
      | String b s2 =>
          if is_byte 197 a && is_byte 191 b then String "s" (fold_name s2)
          else match s2 with
               | String c s3 =>
                   if is_byte 226 a && is_byte 132 b && is_byte 170 c
                   then String "k" (fold_name s3)
                   else String (lower1 a) (fold_name s1)
               | EmptyString => String (lower1 a) (fold_name s1)
               end
      | EmptyString => String (lower1 a) (fold_name s1)
      end
  end.

(** A structure: [field] stores a value under a folded key; unknown keys are
    skipped. *)
Definition into_struct {A} (field : string -> option (decoder A)) : decoder A := fun old v =>
  match v with
  | JObject l =>
      foldl (fun acc '(k, v) =>
        acc ← acc;
        match field (fold_name k) with Some dec => dec acc v | None => Some acc end) (Some old) l
  | JNull => Some old
  | _ => None
  end.

(** ** [strconv.ParseFloat] on the number literals of JSON *)

Definition digits_value (s : string) : Z :=
  (fix go (n : Z) (s : string) : Z :=
    match s with String a s' => go (n * 10 + digit_of a) s' | EmptyString => n end) 0 s.

(** The nearest number to [m * 10^e]; [None] when it is beyond the largest.  The
    two guards cut off exponents whose result is certain. *)
Definition decimal (neg : bool) (m e : Z) : option float64 :=
  let f :=
    match m with
    | Zpos p =>
        if 400 <? e then S754_infinity neg
        else if 0 <=? e then
          match m * 10 ^ e with
          | Zpos q => binary_round 53 1024 neg q 0
          | _ => S754_zero neg
          end
        else if Z.log2 m + 1 + 3 * e <? -1080 then S754_zero neg
        else
          let '(q, e', l) := SFdiv_core_binary 53 1024 m 0 (10 ^ (- e)) 0 in
          binary_round_aux 53 1024 neg q e' l
    | _ => S754_zero neg
    end in
  match f with S754_infinity _ => None | _ => Some f end.

Definition ParseFloat (lit : string) : option float64 :=
  let '(neg, s) :=
    match lit with
    | String a s => if is_byte 45 a then (true, s) else (false, lit)
    | EmptyString => (false, lit)
    end in
  let '(i, s) := take_digits s in
  let '(f, s) := match s with
                 | String a s' => if is_byte 46 a then take_digits s' else (EmptyString, s)
                 | EmptyString => (EmptyString, s)
                 end in
  let e := match s with
           | String _ (String b s'') =>
               if is_byte 45 b then - digits_value s''
               else if is_byte 43 b then digits_value s''
               else digits_value (String b s'')
           | _ => 0
           end in
  decimal neg (digits_value (i ++ f)) (e - Z.of_nat (String.length f)).

Definition into_float : decoder float64 := fun old v =>
  match v with JNumber lit => ParseFloat lit | JNull => Some old | _ => None end.

Inductive decode_error := BadJSON (e : json_error) | BadType.

Definition decoded {A} (dec : decoder A) (zero : A) (r : result json_error json)
  : result decode_error A :=
  match r with
  | Err e => Err (BadJSON e)
  | Ok v => match dec zero v with Some x => Ok x | None => Err BadType end
  end.

(** Decode into one field of a structure. *)
Definition via {A B} (get : A -> B) (set : A -> B -> A) (dec : decoder B) : decoder A :=
  fun old v => x ← dec (get old) v; Some (set old x).

(** The quotes of a JSON text written with single quotes. *)
Fixpoint quoted (s : string) : string :=
  match s with
  | EmptyString => EmptyString
  | String a s' => String (if is_byte 39 a then byte_at 34 else a) (quoted s')
  end.

Example json_object :
  parse_json (quoted " {'a': [1, -2.5e3, true], 'b\u0041\n': null } ")
  = Ok (JObject [("a", JArray [JNumber "1"; JNumber "-2.5e3"; JBool true]);
                 (String "b" (String "A" (String (byte_at 10) "")), JNull)]).
Proof. vm_compute. done. Qed.
Example json_bad :
  map (fun s => is_ok (parse_json (quoted s)))
    ["{'a':1,}"; "[1 2]"; "01"; "'x"; "{} {}"; "nul"; "'\q'"; ""; "[1,2]"; "'\ud83d\ude00'"]
  = [false; false; false; false; false; false; false; false; true; true].
Proof. vm_compute. done. Qed.
Example float_literals :
  map ParseFloat ["2"; "1.5"; "0.1"; "-0"; "1e400"; "25e-1"; "1e-999999"]
  = [Some f_two; Some (f_lit 3 (-1)); Some (fdiv f_one (f_of_Z 10)); Some (S754_zero true); None;
     Some (f_lit 5 (-1)); Some f_zero].
Proof. vm_compute. done. Qed.

(** ** The fuel is enough *)

Lemma skip_space_length s : (String.length (skip_space s) <= String.length s)%nat.
Proof. induction s as [|a s IH]; cbn; [lia|]. case_on; cbn; lia. Qed.

Lemma take_digits_length s d r :
  take_digits s = (d, r) -> (String.length s = String.length d + String.length r)%nat.
Proof.
  revert d r. induction s as [|a s IH]; intros d r; cbn; [by intros [= <- <-]|].
  case_on; [|by intros [= <- <-]]. destruct (take_digits s) as [d' r'].
  intros [= <- <-]. cbn. by rewrite (IH d' r' eq_refl).
Qed.

Lemma drop_bytes_length n s :
  (String.length (drop_bytes n s) = String.length s - n)%nat.
Proof. revert s. induction n as [|n IH]; intros [|a s]; cbn; [done..|]. apply IH. Qed.

Lemma HasPrefix_length s pre : HasPrefix s pre = true -> (String.length pre <= String.length s)%nat.
Proof.
  revert s. induction pre as [|a pre IH]; intros [|b s]; cbn; try done; try lia.
  intros [_ H]%andb_true_iff. specialize (IH s H). lia.
Qed.

Lemma string_lit_length n : forall s x r, (String.length s <= n)%nat ->
  string_lit s = Some (x, r) -> (String.length r < String.length s)%nat.
Proof.
  induction n as [|n IH]; intros [|a s1] x r Hn; cbn [String.length] in Hn; try lia; try done.
  assert (forall t y r', (String.length t <= String.length s1)%nat ->
    string_lit t = Some (y, r') -> (String.length r' <= String.length s1)%nat) as Hrec.
  { intros t y r' Ht Hs. apply IH in Hs; lia. }
  clear IH. cbn [string_lit String.length]. cbv zeta.
  repeat first
    [ progress intros [= <- <-]
    | lia
    | match goal with
      | |- None = Some _ -> _ => done
      | |- context [string_lit ?t] =>
          destruct (string_lit t) as [[? ?]|] eqn:?; cbn [mbind option_bind]
      | |- (match ?x with _ => _ end) = Some _ -> _ => destruct x; cbn [mbind option_bind]
      end ].
  all: match goal with H : string_lit _ = Some _ |- _ => apply Hrec in H; cbn [String.length] in *; clear -H Hn; lia end.
Qed.

Lemma number_length s lit r : number s = Some (lit, r) -> (String.length r < String.length s)%nat.
Proof.
  assert (forall t d u, int_part t = Some (d, u) -> (String.length u < String.length t)%nat) as Hint.
  { intros [|a t] d u; cbn; [done|]. destruct (is_byte 48 a); [intros [= <- <-]; lia|].
    destruct (if is_digit a then _ else _) as [[|b d'] u'] eqn:E; [done|]. intros [= <- <-].
    destruct (is_digit a); [|done]. destruct (take_digits t) as [d1 r1] eqn:Et.
    injection E as <- <- <-. apply take_digits_length in Et. lia. }
  assert (forall t d u, frac_part t = Some (d, u) -> (String.length u <= String.length t)%nat) as Hfrac.
  { intros [|a t] d u; cbn; [by intros [= <- <-]|]. destruct (is_byte 46 a); [|by intros [= <- <-]].
    destruct (take_digits t) as [[|b d'] u'] eqn:Et; [done|]. intros [= <- <-].
    apply take_digits_length in Et. lia. }
  assert (forall t d u, exp_part t = Some (d, u) -> (String.length u <= String.length t)%nat) as Hexp.
  { intros [|a t] d u; cbn; [by intros [= <- <-]|].
    destruct (is_byte 101 a || is_byte 69 a); [|by intros [= <- <-]].
    destruct t as [|b t]; [done|]. destruct (is_byte 43 b || is_byte 45 b).
    - destruct (take_digits t) as [[|c d'] u'] eqn:Et; [done|]. intros [= <- <-].
      apply take_digits_length in Et. cbn. lia.
    - destruct (take_digits (String b t)) as [[|c d'] u'] eqn:Et; [done|]. intros [= <- <-].
      apply take_digits_length in Et. cbn in *. lia. }
  unfold number. intros H.
  assert (exists sign t, (String.length t <= String.length s)%nat /\
    ('(i, s) ← int_part t; '(f, s) ← frac_part s; '(e, s) ← exp_part s;
     Some ((sign ++ i ++ f ++ e)%string, s)) = Some (lit, r)) as (sign & t & Ht & Hb).
  { destruct s as [|a s]; [by exists EmptyString, EmptyString|].
    destruct (is_byte 45 a); [exists (String a EmptyString), s|exists EmptyString, (String a s)];
      (split; [cbn; lia|exact H]). }
  destruct (int_part t) as [[i t1]|] eqn:E1; cbn in Hb; [|done].
  destruct (frac_part t1) as [[f t2]|] eqn:E2; cbn in Hb; [|done].
  destruct (exp_part t2) as [[e t3]|] eqn:E3; cbn in Hb; [|done]. injection Hb as _ <-.
  apply Hint in E1. apply Hfrac in E2. apply Hexp in E3. lia.
Qed.

(** A reader that consumes input and does not run out of fuel. *)
Definition reads {A} (s : string) (r : result json_error (A * string)) : Prop :=
  match r with
  | Ok (_, rest) => (String.length rest < String.length s)%nat
  | Err e => e <> Fuel
  end.

Lemma reads_weaken {A} s s' (r : result json_error (A * string)) :
  (String.length s <= String.length s')%nat -> reads s r -> reads s' r.
Proof. unfold reads. destruct r as [[? ?]|]; [lia|done]. Qed.

(** The text behind skipped white space. *)
Lemma skip_space_cons s a r : skip_space s = String a r -> (String.length r < String.length s)%nat.
Proof. intros E. pose proof (skip_space_length s) as H. rewrite E in H. exact H. Qed.

Lemma drop_prefix_reads {A} (v : A) s pre :
  HasPrefix s pre = true -> (0 < String.length pre)%nat ->
  reads s (Ok (v, drop_bytes (String.length pre) s)).
Proof.
  intros H%HasPrefix_length Hp. cbn [reads]. rewrite drop_bytes_length. lia.
Qed.

Ltac use_reader H e :=
  let Hr := fresh "Hr" in
  pose proof H as Hr; unfold reads in Hr at 1;
  destruct e as [[? ?]|?]; [|exact Hr].

Lemma readers_total fuel : forall depth s,
  ((2 * String.length s + 1 <= fuel)%nat -> reads s (json_value fuel depth s))
  /\ ((2 * String.length s + 2 <= fuel)%nat -> reads s (json_elements fuel depth s))
  /\ ((2 * String.length s + 2 <= fuel)%nat -> reads s (json_members fuel depth s)).
Proof.
  induction fuel as [|fuel IH]; intros depth s; [split_and!; lia|].
  split_and!; intros Hf; cbn [json_value json_elements json_members].
  - destruct (skip_space s) as [|a s'] eqn:Es; [done|]. pose proof (skip_space_cons _ _ _ Es) as Hs.
    pose proof (skip_space_length s) as Hsl. rewrite Es in Hsl.
    destruct (is_byte 123 a); [|destruct (is_byte 91 a)].
    1,2: destruct (max_depth <=? depth); [done|];
      destruct (skip_space s') as [|b r] eqn:Er; [done|]; pose proof (skip_space_cons _ _ _ Er) as Hr0;
      case_on; [cbn; lia|].
    + use_reader (proj2 (proj2 (IH (depth + 1) s')) ltac:(lia)) (json_members fuel (depth + 1) s').
      cbn. lia.
    + use_reader (proj1 (proj2 (IH (depth + 1) s')) ltac:(lia)) (json_elements fuel (depth + 1) s').
      cbn. lia.
    + destruct (is_byte 34 a).
      { destruct (string_lit s') as [[x r]|] eqn:Ex; [|done].
        apply (string_lit_length (String.length s')) in Ex; [|done]. cbn. lia. }
      destruct (HasPrefix _ "true") eqn:E1.
      { eapply reads_weaken; [|by apply (drop_prefix_reads _ _ "true" E1); cbn; lia]. done. }
      destruct (HasPrefix _ "false") eqn:E2.
      { eapply reads_weaken; [|by apply (drop_prefix_reads _ _ "false" E2); cbn; lia]. done. }
      destruct (HasPrefix _ "null") eqn:E3.
      { eapply reads_weaken; [|by apply (drop_prefix_reads _ _ "null" E3); cbn; lia]. done. }
      destruct (number (String a s')) as [[lit r]|] eqn:En; [|done].
      apply number_length in En. cbn [reads]. lia.
  - use_reader (proj1 (IH depth s) ltac:(lia)) (json_value fuel depth s).
    destruct (skip_space s0) as [|a r] eqn:Es; [done|]. apply skip_space_cons in Es.
    case_on; [|case_on; [cbn; lia|done]].
    use_reader (proj1 (proj2 (IH depth r)) ltac:(lia)) (json_elements fuel depth r). cbn. lia.
  - destruct (skip_space s) as [|a s'] eqn:Es; [done|]. apply skip_space_cons in Es.
    case_on; [|done]. destruct (string_lit s') as [[k r]|] eqn:Ex; [|done].
    apply (string_lit_length (String.length s')) in Ex; [|done].
    destruct (skip_space r) as [|c r1] eqn:Er; [done|]. apply skip_space_cons in Er.
    case_on; [|done].
    use_reader (proj1 (IH depth r1) ltac:(lia)) (json_value fuel depth r1).
    destruct (skip_space s0) as [|b r2] eqn:Eb; [done|]. apply skip_space_cons in Eb.
    case_on; [|case_on; [cbn; lia|done]].
    use_reader (proj2 (proj2 (IH depth r2)) ltac:(lia)) (json_members fuel depth r2). cbn. lia.
Qed.

(** Reading a text never runs out of fuel. *)
Lemma parse_fuel s : parse_json s <> Err Fuel.
Proof.
  unfold parse_json.
  pose proof (proj1 (readers_total (2 * String.length s + 2) 0 s) ltac:(lia)) as Hr.
  destruct (json_value _ 0 s) as [[v r]|e]; [by case_on|]. by intros [= ->].
Qed.

Lemma first_fuel s : first_json s <> Err Fuel.
Proof.
  unfold first_json.
  pose proof (proj1 (readers_total (2 * String.length s + 2) 0 s) ltac:(lia)) as Hr.
  destruct (json_value _ 0 s) as [[v r]|e]; [done|]. by intros [= ->].
Qed.
