(* ===== verification/GoRFC3339.v ===== *)
(** * Go's [time] package: RFC 3339

    [time.Parse] with the layout [time.RFC3339] ("2006-01-02T15:04:05Z07:00"), and
    the decoding of a JSON value into a [time.Time].  [UnmarshalJSON] tries a
    stricter parser first, which gives the same instants where it succeeds. *)

From Stdlib Require Import ZArith Lia Ascii String.
From stdpp Require Import base list strings.
From S2P Require Import Prelude GoTime GoStrings GoJson.

#[local] Open Scope string_scope.
#[local] Open Scope Z_scope.

(** [getnum]: two digits, or one where [fixed] does not hold. *)
Definition getnum (fixed : bool) (s : string) : option (Z * string) :=
  match s with
  | String a s1 =>
      if is_digit a then
        match s1 with
        | String b s2 =>
            if is_digit b then Some (digit_of a * 10 + digit_of b, s2)
            else if fixed then None else Some (digit_of a, s1)
        | EmptyString => if fixed then None else Some (digit_of a, s1)
        end
      else None
  | EmptyString => None
  end.

(** A number in a range; errors are not told apart. *)
Definition num_in (fixed : bool) (lo hi : Z) (s : string) : option (Z * string) :=
  '(n, r) ← getnum fixed s; if (lo <=? n) && (n <=? hi) then Some (n, r) else None.

(** The four digits of the year. *)
Definition get_year (s : string) : option (Z * string) :=
  '(a, s1) ← getnum true s; '(b, s2) ← getnum true s1; Some (a * 100 + b, s2).

(** [skip]: a literal byte of the layout. *)
Definition skip (n : Z) (s : string) : option string :=
  match s with String a s' => if is_byte n a then Some s' else None | EmptyString => None end.

(** [parseNanoseconds] on at most nine digits; later digits are dropped. *)
Fixpoint nanoseconds (k : nat) (s : string) : Z :=
  match k with
  | O => 0
  | S k' =>
      match s with
      | String a s' => digit_of a * 10 ^ Z.of_nat k' + nanoseconds k' s'
      | EmptyString => 0
      end
  end.

(** A fraction behind the seconds: a period or a comma, then digits. *)
Definition get_fraction (s : string) : Z * string :=
  match s with
  | String a s' =>
      if is_byte 46 a || is_byte 44 a then
        match take_digits s' with
        | (EmptyString, _) => (0, s)
        | (d, r) => (nanoseconds 9 d, r)
        end
      else (0, s)
  | EmptyString => (0, s)
  end.

(** "Z", or an offset in hours and minutes, in seconds east of UTC. *)
Definition get_zone (s : string) : option (Z * string) :=
  match s with
  | String a s' =>
      if is_byte 90 a then Some (0, s')
      else
        '(hh, s1) ← num_in true 0 24 s'; s2 ← skip 58 s1; '(mm, s3) ← num_in true 0 60 s2;
        let off := (hh * 60 + mm) * 60 in
        if is_byte 43 a then Some (off, s3) else if is_byte 45 a then Some (- off, s3) else None
  | EmptyString => None
  end.

Definition ParseRFC3339 (s : string) : option time :=
  '(year, s) ← get_year s; s ← skip 45 s;
  '(month, s) ← num_in true 1 12 s; s ← skip 45 s;
  '(day, s) ← getnum true s; s ← skip 84 s;
  '(hour, s) ← num_in false 0 23 s; s ← skip 58 s;
  '(min, s) ← num_in true 0 59 s; s ← skip 58 s;
  '(sec, s) ← num_in true 0 59 s;
  let '(nsec, s) := get_fraction s in
  '(off, s) ← get_zone s;
  match s with
  | EmptyString =>
      if (1 <=? day) && (day <=? days_in_month year month)
      then Some (Date year month day hour min sec nsec UTC - off * Second)
      else None
  | _ => None
  end.

(** [UnmarshalJSON] reads the string as it is written, escapes included. *)
Definition into_time : decoder time := fun old v =>
  match v with JString raw _ => ParseRFC3339 raw | JNull => Some old | _ => None end.

Example rfc3339 :
  map ParseRFC3339 ["2026-05-01T10:00:00Z"; "2026-05-01T12:00:00.5+02:00"; "2026-05-01T9:59:60Z";
    "2026-02-29T00:00:00Z"; "2024-02-29T0:00:00,25-00:30"; "2026-05-01 10:00:00Z"; "0001-01-01T00:00:00Z";
    "2026-05-01T10:00:00"; "2026-05-01T10:00:00Zx"]
  = [Some (Date 2026 5 1 10 0 0 0 UTC); Some (Date 2026 5 1 10 0 0 500000000 UTC); None; None;
     Some (Date 2024 2 29 0 30 0 250000000 UTC); None; Some zero_time; None; None].
Proof. vm_compute. reflexivity. Qed.
