(* ===== verification/GoMux.v ===== *)
(** * Go's [http.ServeMux]

    The request multiplexer of Go 1.22 and later: patterns with a method,
    wildcards, a trailing slash and [{$}]; the search for the most specific
    pattern, segment by segment; path cleaning, redirects and the answers 404 and
    405.  The host is not used by any pattern here, and a [CONNECT] request, whose
    path is not cleaned, is left out. *)

From Stdlib Require Import ZArith Lia Ascii String.
From stdpp Require Import base list strings.
From S2P Require Import Prelude GoStrings GoJson.

#[local] Open Scope string_scope.
#[local] Open Scope Z_scope.

(** ** Patterns *)

Inductive segment :=
| Lit (s : string)
| Wild (name : string)
| Multi (** the anonymous wildcard of a trailing slash *).

Record pattern := mkPattern { p_method : string; p_segments : list segment }.

(** The index of a byte, with the texts before it and from it on. *)
Fixpoint break_byte (c : ascii) (s : string) : string * string :=
  match s with
  | EmptyString => (EmptyString, EmptyString)
  | String a s' =>
      if Ascii.eqb a c then (EmptyString, s)
      else let '(l, r) := break_byte c s' in (String a l, r)
  end.

(** A segment of a pattern: the special [{$}] is the literal slash. *)
Definition pattern_segment (seg : string) : segment :=
  match seg with
  | String "{" name =>
      let '(name, _) := break_byte "}" name in
      if String.eqb name "$" then Lit "/" else Wild name
  | _ => Lit seg
  end.

(** The segments of the texts between the slashes of a path; an empty text at
    the end is a trailing slash. *)
Fixpoint pattern_segments (parts : list string) : list segment :=
  match parts with
  | [] => []
  | [EmptyString] => [Multi]
  | part :: parts => pattern_segment part :: pattern_segments parts
  end.

(** [parsePattern] on ["METHOD /path"]. *)
Definition parsePattern (s : string) : pattern :=
  let '(method, path) := break_byte " " s in
  mkPattern method (pattern_segments (Split "/" (drop_bytes 2 path))).

Example patterns :
  map parsePattern ["GET /api/jobs/{id}"; "POST /api/jobs/{id}/trigger"; "GET /ui/"; "GET /{$}"; "GET /"]
  = [mkPattern "GET" [Lit "api"; Lit "jobs"; Wild "id"];
     mkPattern "POST" [Lit "api"; Lit "jobs"; Wild "id"; Lit "trigger"];
     mkPattern "GET" [Lit "ui"; Multi]; mkPattern "GET" [Lit "/"]; mkPattern "GET" [Multi]].
Proof. vm_compute. done. Qed.

(** ** Paths *)

(** [pathUnescape]: percent-decoding; a text with a bad escape is left alone. *)
Fixpoint unescape (s : string) : option string :=
  match s with
  | EmptyString => Some EmptyString
  | String a s1 =>
      if is_byte 37 a then
        match s1 with
        | String h (String l s2) =>
            h ← hex_digit h; l ← hex_digit l; r ← unescape s2;
            Some (String (byte_at (h * 16 + l)) r)
        | _ => None
        end
      else r ← unescape s1; Some (String a r)
  end.
Definition pathUnescape (s : string) : string := default s (unescape s).

(** The texts between the slashes of a cleaned path, a trailing slash as a
    segment of its own: what [firstSegment] takes one by one. *)
Fixpoint path_parts (parts : list string) : list string :=
  match parts with
  | [] => []
  | [EmptyString] => ["/"]
  | part :: parts => pathUnescape part :: path_parts parts
  end.
Definition path_segments (path : string) : list string := path_parts (Split "/" (drop_bytes 1 path)).

Fixpoint join_parts (parts : list string) : string :=
  match parts with [] => "" | p :: ps => String "/" (p ++ join_parts ps) end.

(** [path.Clean] of a rooted path: the kept elements, last first. *)
Fixpoint clean_parts (kept : list string) (parts : list string) : list string :=
  match parts with
  | [] => kept
  | p :: parts =>
      if String.eqb p "" || String.eqb p "." then clean_parts kept parts
      else if String.eqb p ".." then clean_parts (tail kept) parts
      else clean_parts (p :: kept) parts
  end.

Fixpoint ends_with_slash (s : string) : bool :=
  match s with
  | EmptyString => false
  | String a EmptyString => Ascii.eqb a "/"
  | String _ s' => ends_with_slash s'
  end.

Definition cleanPath (p : string) : string :=
  match p with
  | EmptyString => "/"
  | String a _ =>
      let p := if Ascii.eqb a "/" then p else String "/" p in
      match rev (clean_parts [] (Split "/" (drop_bytes 1 p))) with
      | [] => "/"
      | parts => if ends_with_slash p then (join_parts parts ++ "/")%string else join_parts parts
      end
  end.

Example clean_ex : map cleanPath ["/api//jobs/"; "/api/../x/./y"; "/.."; ""; "/a/b"]
  = ["/api/jobs/"; "/x/y"; "/"; "/"; "/a/b"].
Proof. vm_compute. done. Qed.
Example segments_ex : map path_segments ["/api/jobs"; "/"; "/ui/"; "/api/runs/a%2Fb"]
  = [["api"; "jobs"]; ["/"]; ["ui"; "/"]; ["api"; "runs"; "a/b"]].
Proof. vm_compute. done. Qed.

(** ** The multiplexer *)

Section Mux.
Context {H : Type}.

(** A registered route, and the part of its pattern that is still to match. *)
Record route := mkRoute { r_pattern : pattern; r_handler : H }.
Definition ServeMux := list route.

Definition node := list (list segment * route).

(** The children of a node: the patterns that continue with a literal, with a
    wildcard or with the rest of the path. *)
Definition lit_child (seg : string) (n : node) : node :=
  omap (fun '(segs, r) => match segs with
    | Lit s :: segs => if String.eqb s seg then Some (segs, r) else None | _ => None end) n.
Definition wild_child (n : node) : node :=
  omap (fun '(segs, r) => match segs with Wild _ :: segs => Some (segs, r) | _ => None end) n.
Definition multi_child (n : node) : option route :=
  head (omap (fun '(segs, r) => match segs with Multi :: _ => Some r | _ => None end) n).
Definition leaf (n : node) : option route :=
  head (omap (fun '(segs, r) => match segs with [] => Some r | _ => None end) n).

(** [matchPath]: the route and the values of its wildcards. *)
Fixpoint matchPath (n : node) (segs : list string) (matches : list string)
  : option (route * list string) :=
  match segs with
  | [] => r ← leaf n; Some (r, matches)
  | seg :: segs =>
      match matchPath (lit_child seg n) segs matches with
      | Some m => Some m
      | None =>
          match (if String.eqb seg "/" then None
                 else matchPath (wild_child n) segs (matches ++ [seg])%list) with
          | Some m => Some m
          | None => r ← multi_child n; Some (r, matches)
          end
      end
  end.

Definition method_node (method : string) (mux : ServeMux) : node :=
  omap (fun r => if String.eqb (p_method (r_pattern r)) method
                 then Some (p_segments (r_pattern r), r) else None) mux.

(** [matchMethodAndPath]: a [HEAD] request falls back on [GET]. *)
Definition match_route (mux : ServeMux) (method path : string) : option (route * list string) :=
  match matchPath (method_node method mux) (path_segments path) [] with
  | Some m => Some m
  | None =>
      if String.eqb method "HEAD" then matchPath (method_node "GET" mux) (path_segments path) []
      else None
  end.

Definition is_multi (r : route) : bool :=
  match last (p_segments (r_pattern r)) with Some Multi => true | _ => false end.

Fixpoint count_byte (c : ascii) (s : string) : nat :=
  match s with
  | EmptyString => 0
  | String a s' => if Ascii.eqb a c then S (count_byte c s') else count_byte c s'
  end.

Definition exactMatch (m : option (route * list string)) (path : string) : bool :=
  match m with
  | None => false
  | Some (r, _) =>
      if is_multi r then
        ends_with_slash path && Nat.eqb (length (p_segments (r_pattern r))) (count_byte "/" path)
      else true
  end.

(** The methods that would have matched, sorted; [GET] also allows [HEAD]. *)
Definition all_methods : list string :=
  ["CONNECT"; "DELETE"; "GET"; "HEAD"; "OPTIONS"; "PATCH"; "POST"; "PUT"; "TRACE"].
Definition has_path (mux : ServeMux) (method path : string) : bool :=
  match matchPath (method_node method mux) (path_segments path) [] with Some _ => true | None => false end.
Definition matchingMethods (mux : ServeMux) (path : string) : list string :=
  let found m := has_path mux m path
    || (negb (ends_with_slash path) && has_path mux m (path ++ "/")%string) in
  List.filter (fun m => found m || (String.eqb m "HEAD" && found "GET")) all_methods.

Inductive outcome :=
| Serve (h : H) (values : list (string * string))
| Redirect (path : string)
| MethodNotAllowed (allow : list string)
| NotFound.

Definition wild_names (p : pattern) : list string :=
  omap (fun s => match s with Wild n => Some n | _ => None end) (p_segments p).

(** [findHandler]. *)
Definition findHandler (mux : ServeMux) (method escaped : string) : outcome :=
  let path := cleanPath escaped in
  let m := match_route mux method path in
  let slashed := (path ++ "/")%string in
  if negb (exactMatch m path) && negb (ends_with_slash path)
     && exactMatch (match_route mux method slashed) slashed
  then Redirect slashed
  else if negb (String.eqb path escaped) then Redirect path
  else match m with
       | Some (r, values) => Serve (r_handler r) (zip (wild_names (r_pattern r)) values)
       | None =>
           match matchingMethods mux path with
           | [] => NotFound
           | allow => MethodNotAllowed allow
           end
       end.
End Mux.
Arguments route : clear implicits.
Arguments ServeMux : clear implicits.
Arguments outcome : clear implicits.

(** ** Segments and slashes *)

Lemma count_snoc c s : count_byte c (s ++ String c "") = S (count_byte c s).
Proof.
  induction s as [|a s IH]; simpl; [by rewrite Ascii.eqb_refl|].
  destruct (Ascii.eqb a c); by rewrite IH.
Qed.

Lemma Split_length c s : length (Split c s) = S (count_byte c s).
Proof.
  induction s as [|a s IH]; cbn -[Ascii.eqb]; [done|].
  destruct (Ascii.eqb a c); cbn -[Ascii.eqb]; [by rewrite IH|].
  destruct (Split c s) as [|x xs]; [done|]. exact IH.
Qed.

Lemma Split_snoc c s : Split c (s ++ String c "") = (Split c s ++ [""])%list.
Proof.
  induction s as [|a s IH]; simpl; [by rewrite Ascii.eqb_refl|].
  destruct (Ascii.eqb a c); [by rewrite IH|]. rewrite IH.
  pose proof (Split_length c s) as Hl. by destruct (Split c s) as [|x xs].
Qed.

Lemma path_parts_cons p q l : path_parts (p :: q :: l) = pathUnescape p :: path_parts (q :: l).
Proof. by destruct p. Qed.

Lemma path_parts_length l : length (path_parts l) = length l.
Proof.
  induction l as [|p [|q l] IH]; [done|by destruct p|].
  rewrite path_parts_cons. cbn [length] in *. by rewrite IH.
Qed.

Lemma path_parts_snoc l :
  last l <> Some "" -> path_parts (l ++ [""])%list = (path_parts l ++ ["/"])%list.
Proof.
  induction l as [|p [|q l] IH]; intros Hl; [done|..].
  - cbn [app]. rewrite path_parts_cons. by destruct p.
  - cbn [app] in *. rewrite !path_parts_cons. cbn [app]. f_equal. apply IH. exact Hl.
Qed.

Lemma Split_cons c a s :
  Split c (String a s) = if Ascii.eqb a c then "" :: Split c s
    else match Split c s with [] => [String a ""] | x :: xs => String a x :: xs end.
Proof. done. Qed.

(** Only a path with a trailing slash has an empty last part. *)
Lemma last_part s : last (Split "/" s) = Some "" -> s = "" \/ ends_with_slash s = true.
Proof.
  induction s as [|a s IH]; [by left|]. rewrite Split_cons. intros Hl. right.
  pose proof (Split_length "/" s) as Hlen. destruct (Split "/" s) as [|x xs]; [done|].
  destruct s as [|b s].
  - destruct (Ascii.eqb a "/") eqn:E; [cbn -[Ascii.eqb]; exact E|]. destruct xs; [done|].
    by injection Hlen.
  - change (ends_with_slash (String a (String b s))) with (ends_with_slash (String b s)).
    assert (last (x :: xs) = Some "") as Hx by (by destruct (Ascii.eqb a "/"), xs).
    by destruct (IH Hx).
Qed.

(** A rooted path has as many segments as slashes, and adding a slash adds one. *)
Lemma segments_count s : length (path_segments (String "/" s)) = count_byte "/" (String "/" s).
Proof.
  unfold path_segments. cbn [drop_bytes]. rewrite path_parts_length, Split_length. reflexivity.
Qed.

Lemma segments_slash s :
  ends_with_slash (String "/" s) = false ->
  path_segments (String "/" s ++ "/") = (path_segments (String "/" s) ++ ["/"])%list.
Proof.
  intros Hs. unfold path_segments.
  change (drop_bytes 1 (String "/" s ++ "/")) with (s ++ String "/" "")%string.
  change (drop_bytes 1 (String "/" s)) with s. rewrite Split_snoc.
  apply path_parts_snoc. intros [->|He]%last_part; [done|].
  destruct s as [|b s]; [done|]. change (ends_with_slash (String b s) = false) in Hs. congruence.
Qed.

(** A path that cleaning leaves alone is rooted. *)
Lemma clean_rooted p : cleanPath p = p -> exists s, p = String "/" s.
Proof.
  destruct p as [|a p]; [done|]. unfold cleanPath. intros Hc.
  destruct (rev _) as [|q qs]; [rewrite <-Hc; by eexists|].
  rewrite <-Hc. case_on; cbn [join_parts append]; by eexists.
Qed.

(** ** What is found was registered *)

Section Found.
Context {H : Type}.
Implicit Types n : @node H.

Lemma omap_route (f : list segment * route H -> option (list segment * route H)) n segs r :
  (forall segs r segs' r', f (segs, r) = Some (segs', r') -> r' = r) ->
  (segs, r) ∈ omap f n -> exists segs', (segs', r) ∈ n.
Proof.
  intros Hf ([s' r'] & Hin & Heq)%list_elem_of_omap. apply Hf in Heq as ->. by exists s'.
Qed.

Lemma head_route (f : list segment * route H -> option (route H)) n r :
  (forall segs r r', f (segs, r) = Some r' -> r' = r) ->
  head (omap f n) = Some r -> exists segs', (segs', r) ∈ n.
Proof.
  intros Hf Hh. assert (r ∈ omap f n) as ([s' r'] & Hin & Heq)%list_elem_of_omap
    by (destruct (omap f n); [done|injection Hh as ->; by left]).
  apply Hf in Heq as ->. by exists s'.
Qed.

Lemma matchPath_found segs : forall n m r v,
  matchPath n segs m = Some (r, v) -> exists segs', (segs', r) ∈ n.
Proof.
  induction segs as [|seg segs IH]; intros n m r v; cbn [matchPath].
  - destruct (leaf n) as [r'|] eqn:Hl; cbn; [|done]. intros [= <- _].
    eapply head_route; [|exact Hl]. intros [|? ?] ? ? [=]. done.
  - destruct (matchPath (lit_child seg n) segs m) as [[r1 v1]|] eqn:E1.
    { intros [= <- _]. destruct (IH _ _ _ _ E1) as [s' Hs']. eapply omap_route; [|exact Hs'].
      intros [|[] ?] ? ? ?; try done. case_on; [|done]. by intros [= _ <-]. }
    destruct (if String.eqb seg "/" then None else _) as [[r1 v1]|] eqn:E2.
    { intros [= <- _]. destruct (String.eqb seg "/"); [done|].
      destruct (IH _ _ _ _ E2) as [s' Hs']. eapply omap_route; [|exact Hs'].
      intros [|[] ?] ? ? ?; try done. by intros [= _ <-]. }
    destruct (multi_child n) as [r'|] eqn:Hl; cbn; [|done]. intros [= <- _].
    eapply head_route; [|exact Hl]. intros [|[] ?] ? ? [=]. done.
Qed.

(** A route that serves a request was registered for its method; a [HEAD] request
    may be served by a route for [GET]. *)
Lemma match_route_found (mux : ServeMux H) method path r v :
  match_route mux method path = Some (r, v) ->
  r ∈ mux /\ (p_method (r_pattern r) = method
             \/ (method = "HEAD" /\ p_method (r_pattern r) = "GET")).
Proof.
  assert (forall m segs, (segs, r) ∈ method_node m mux -> r ∈ mux /\ p_method (r_pattern r) = m) as Hin.
  { intros m segs (r' & Hr' & Heq)%list_elem_of_omap.
    destruct (String.eqb_spec (p_method (r_pattern r')) m); [|done]. injection Heq as _ <-. done. }
  unfold match_route. destruct (matchPath (method_node method mux) _ []) as [[r1 v1]|] eqn:E1.
  - intros [= <- _]. destruct (matchPath_found _ _ _ _ _ E1) as [segs Hs]. apply Hin in Hs. tauto.
  - destruct (String.eqb_spec method "HEAD") as [->|]; [|done]. intros E2.
    destruct (matchPath_found _ _ _ _ _ E2) as [segs Hs]. apply Hin in Hs. tauto.
Qed.
End Found.
