(* ===== verification/CronField.v ===== *)
(** * Cron fields

    Models [src/cron/bounds.go], [src/cron/names.go] and [src/cron/field.go]:
    the bounds of the six fields, the name tables and the parser that turns the
    text of one field into a 64-bit mask.

    The second part states what a field means: an abstract syntax of terms, its
    concrete text, the set of values it denotes; the parser computes exactly
    that set. *)

From Stdlib Require Import ZArith Lia Ascii String.
From stdpp Require Import base list strings gmap.
From S2P Require Import Prelude GoStrings.

#[local] Open Scope string_scope.
#[local] Open Scope Z_scope.

(** ** Bounds *)

Record bounds := mkBounds {
  b_min : Z;
  b_max : Z;
  b_names : option (gmap string Z)
}.

Definition monthNames : gmap string Z := list_to_map
  [("jan", 1); ("feb", 2); ("mar", 3); ("apr", 4); ("may", 5); ("jun", 6);
   ("jul", 7); ("aug", 8); ("sep", 9); ("oct", 10); ("nov", 11); ("dec", 12)].

Definition dowNames : gmap string Z := list_to_map
  [("sun", 0); ("mon", 1); ("tue", 2); ("wed", 3); ("thu", 4); ("fri", 5); ("sat", 6)].

Definition secondsBound := mkBounds 0 59 None.
Definition minutesBound := mkBounds 0 59 None.
Definition hoursBound := mkBounds 0 23 None.
Definition domBound := mkBounds 1 31 None.
(** The name tables are installed by [init] in [names.go]. *)
Definition monthBound := mkBounds 1 12 (Some monthNames).
Definition dowBound := mkBounds 0 6 (Some dowNames).

(** Bit 63 of a mask. *)
Definition starBit : Z := Z.shiftl 1 63.

(** ** The parser *)

Inductive field_error :=
| InvalidValue (s : string) (e : num_error)
| InvalidStep (term : string)
| InvalidRangeStart (term : string) (e : field_error)
| InvalidRangeEnd (term : string) (e : field_error)
| OutOfRange (min max : Z) (term : string)
| InvertedRange (term : string)
| LoopBound (** the mask loop exceeded its bound; never returned *).

Definition parseValue (s : string) (b : bounds) : result field_error Z :=
  match b_names b with
  | Some names =>
      match names !! ToLower s with
      | Some v => Ok v
      | None => match ParseUint s with Ok n => Ok n | Err e => Err (InvalidValue s e) end
      end
  | None => match ParseUint s with Ok n => Ok n | Err e => Err (InvalidValue s e) end
  end.

(** [for i := lo; i <= hi; i += step { mask |= 1 << i }] on [uint]. *)
Definition mask_step (hi step : Z) (st : Z * Z) : (Z * Z) + Z :=
  let '(i, mask) := st in
  if i <=? hi then inl (u64 (i + step), Z.lor mask (u64 (Z.shiftl 1 i)))
  else inr mask.

#[global] Arguments mask_step : simpl never.

Definition mask_loop (lo hi step : Z) : result field_error Z :=
  match iter_until (mask_step hi step) (Z.to_pos (hi + 2)) (lo, 0) with
  | inr mask => Ok mask
  | inl _ => Err LoopBound
  end.

(** The step part of a term: the text before the slash, the step, and whether
    there was one. *)
Definition parseStep (term : string) : result field_error (string * Z * bool) :=
  match cut_byte "/" term with
  | None => Ok (term, 1, false)
  | Some (rangePart, rest) =>
      match ParseUint rest with
      | Err _ => Err (InvalidStep term)
      | Ok s => if s =? 0 then Err (InvalidStep term) else Ok (rangePart, s, true)
      end
  end.

(** The [switch] of [parseTerm]: bounds of the range and whether it is a
    wildcard. *)
Definition parseRange (term rangePart : string) (hasStep : bool) (b : bounds)
  : result field_error (Z * Z * bool) :=
  if String.eqb rangePart "*" || String.eqb rangePart "?" then
    Ok (b_min b, b_max b, true)
  else
    match cut_byte "-" rangePart with
    | Some (p0, p1) =>
        match parseValue p0 b with
        | Err e => Err (InvalidRangeStart term e)
        | Ok lo =>
            match parseValue p1 b with
            | Err e => Err (InvalidRangeEnd term e)
            | Ok hi => Ok (lo, hi, false)
            end
        end
    | None =>
        let? n := parseValue rangePart b in
        Ok (n, if hasStep then b_max b else n, false)
    end.

Definition parseTerm (term : string) (b : bounds) : result field_error Z :=
  let? (rangePart, step, hasStep) := parseStep term in
  let? (lo, hi, star) := parseRange term rangePart hasStep b in
  if (lo <? b_min b) || (b_max b <? hi) then Err (OutOfRange (b_min b) (b_max b) term)
  else if hi <? lo then Err (InvertedRange term)
  else
    let? mask := mask_loop lo hi step in
    Ok (if star && negb hasStep then Z.lor mask starBit else mask).

Fixpoint parseTerms (terms : list string) (mask : Z) (b : bounds)
  : result field_error Z :=
  match terms with
  | [] => Ok mask
  | term :: rest =>
      let? m := parseTerm term b in
      parseTerms rest (Z.lor mask m) b
  end.

Definition parseField (field : string) (b : bounds) : result field_error Z :=
  parseTerms (Split "," field) 0 b.

Example field_single : parseField "59" minutesBound = Ok (Z.shiftl 1 59).
Proof. vm_compute. done. Qed.
Example field_names : parseField "MON-Fri,sun" dowBound = Ok 63.
Proof. vm_compute. done. Qed.
Example field_bad :
  map (fun p => is_ok (parseField p.1 p.2))
    [("60", minutesBound); ("24", hoursBound); ("0", domBound); ("13", monthBound);
     ("1-70", minutesBound); ("5-1", hoursBound); ("abc", minutesBound); ("*/0", hoursBound)]
  = repeat false 8.
Proof. vm_compute. done. Qed.
Example field_step : parseField "*/15" minutesBound
  = Ok (Z.lor 1 (Z.lor (2 ^ 15) (Z.lor (2 ^ 30) (2 ^ 45)))).
Proof. vm_compute. done. Qed.

(** ** The mask loop *)

(** The step does not wrap around before the loop stops. *)
Definition no_wrap (hi step : Z) : Prop := hi + step < two64.

Section MaskLoop.
Context (lo hi step : Z).
Context (Hlo : 0 <= lo <= hi) (Hhi : hi < two63) (Hstep : 0 < step < two64).

(** Successive values of [i] rise, or, when the step wraps, fall. *)
Lemma mask_step_moves i m :
  0 <= i <= hi ->
  (no_wrap hi step -> mask_step hi step (i, m) = inl (i + step, Z.lor m (u64 (Z.shiftl 1 i))))
  /\ (~ no_wrap hi step ->
      exists i', mask_step hi step (i, m) = inl (i', Z.lor m (u64 (Z.shiftl 1 i)))
                 /\ (i' = i - (two64 - step) /\ 0 <= i' \/ hi < i' < two64)).
Proof.
  intros Hi. unfold mask_step, no_wrap, two63 in *. destruct (Z.leb_spec i hi); [|lia].
  split; intros Hw.
  - rewrite u64_small by lia. done.
  - eexists. split; [done|].
    destruct (Z.lt_ge_cases (i + step) two64) as [Hs|Hs].
    + right. rewrite u64_small by lia. unfold two64 in *. lia.
    + left. unfold u64. rewrite <-(Z_mod_plus_full _ (-1)).
      rewrite Z.mod_small; unfold two64 in *; lia.
Qed.

Lemma mask_loop_total : exists m, mask_loop lo hi step = Ok m.
Proof.
  unfold mask_loop.
  destruct (Z.lt_ge_cases (hi + step) two64) as [Hw|Hw].
  - destruct (iter_until_terminates (mask_step hi step) (fun st => 0 <= st.1)
      (fun st => Z.max 0 (hi + 1 - st.1))) with (p := Z.to_pos (hi + 2)) (x := (lo, 0))
      as [m ->]; simpl; [|lia..|eauto].
    intros [i m] Hi. simpl in *. destruct (Z.le_gt_cases i hi) as [Hle|Hgt].
    + destruct (mask_step_moves i m) as [Hm _]; [lia|].
      rewrite Hm by (unfold no_wrap; lia). simpl. lia.
    + unfold mask_step. destruct (Z.leb_spec i hi); [lia|done].
  - destruct (iter_until_terminates (mask_step hi step) (fun st => 0 <= st.1)
      (fun st => if st.1 <=? hi then st.1 + 1 else 0))
      with (p := Z.to_pos (hi + 2)) (x := (lo, 0)) as [m ->]; simpl; [|lia| |eauto].
    + intros [i m] Hi. simpl in *. destruct (Z.le_gt_cases i hi) as [Hle|Hgt].
      * destruct (mask_step_moves i m) as [_ Hm]; [lia|].
        destruct Hm as (i' & -> & Hi'); [unfold no_wrap; lia|]. simpl.
        destruct (Z.leb_spec i hi), (Z.leb_spec i' hi); lia.
      * unfold mask_step. destruct (Z.leb_spec i hi); [lia|done].
    + destruct (Z.leb_spec lo hi); lia.
Qed.

(** The values the loop visits, when the step does not wrap. *)
Definition on_step (j : Z) : bool := (lo <=? j) && (j <=? hi) && ((j - lo) mod step =? 0).

Lemma testbit_lor_bit m i j :
  0 <= i < 64 -> 0 <= j ->
  Z.testbit (Z.lor m (u64 (Z.shiftl 1 i))) j = Z.testbit m j || (i =? j).
Proof.
  intros Hi Hj. rewrite Z.lor_spec, u64_small.
  - rewrite testbit_bit by lia. f_equal.
    case_bool_decide; symmetry; [by apply Z.eqb_eq|by apply Z.eqb_neq].
  - rewrite Z.shiftl_1_l. split; [apply Z.pow_nonneg; lia|].
    change two64 with (2 ^ 64). apply Z.pow_lt_mono_r; lia.
Qed.

Context (Hhi64 : hi < 64).

Lemma mask_loop_spec m :
  no_wrap hi step -> mask_loop lo hi step = Ok m ->
  forall j, 0 <= j -> Z.testbit m j = on_step j.
Proof.
  intros Hw Hm.
  set (I := fun st : Z * Z => lo <= st.1 /\ (st.1 - lo) mod step = 0
    /\ forall j, 0 <= j -> Z.testbit st.2 j = on_step j && (j <? st.1)).
  unfold mask_loop in Hm.
  destruct (iter_until _ _ _) as [|m'] eqn:E; [done|]. injection Hm as ->.
  refine (iter_until_post (mask_step hi step) I
    (fun m => forall j, 0 <= j -> Z.testbit m j = on_step j) _ _ _ _ _ E).
  { unfold I, on_step. simpl. split; [lia|]. split; [by rewrite Z.sub_diag, Zmod_0_l|].
    intros j Hj. rewrite Z.bits_0. symmetry.
    destruct (Z.ltb_spec j lo); [|by rewrite andb_false_r].
    destruct (Z.leb_spec lo j); [lia|done]. }
  intros [i mm] (Hi & Hmod & Hb). simpl in *.
  destruct (Z.le_gt_cases i hi) as [Hle|Hgt].
  - destruct (mask_step_moves i mm) as [Hmv _]; [lia|]. rewrite (Hmv Hw).
    unfold I. simpl. split; [lia|]. split.
    { replace (i + step - lo) with (i - lo + 1 * step) by lia.
      by rewrite Z_mod_plus_full. }
    intros j Hj. rewrite testbit_lor_bit, Hb by lia. unfold on_step.
    destruct (Z.eqb_spec i j) as [<-|Hne].
    + rewrite Hmod, orb_true_r. symmetry. rewrite !andb_true_iff. lia.
    + rewrite orb_false_r. destruct (Z.ltb_spec j i), (Z.ltb_spec j (i + step));
        rewrite ?andb_true_r, ?andb_false_r; try lia; try done.
      symmetry. rewrite !andb_false_iff. right. apply Z.eqb_neq.
      replace (j - lo) with ((j - i) + (i - lo)) by lia.
      rewrite Z.add_mod, Hmod, Z.add_0_r, Z.mod_mod, Z.mod_small by lia. lia.
  - unfold mask_step. destruct (Z.leb_spec i hi); [lia|].
    intros j Hj. rewrite Hb by done. unfold on_step.
    destruct (Z.ltb_spec j i); [by rewrite andb_true_r|].
    destruct (Z.leb_spec j hi); [lia|]. rewrite !andb_false_r. done.
Qed.

(** Whatever the step, only values up to [hi] are visited, and [lo] is. *)
Lemma mask_loop_bound m :
  mask_loop lo hi step = Ok m ->
  Z.testbit m lo = true /\ forall j, 0 <= j -> Z.testbit m j = true -> j <= hi.
Proof.
  intros Hm. unfold mask_loop in Hm.
  destruct (iter_until _ _ _) as [|m'] eqn:E; [done|]. injection Hm as ->.
  set (I := fun st : Z * Z => 0 <= st.1 /\ (st.1 = lo \/ Z.testbit st.2 lo = true)
    /\ forall j, 0 <= j -> Z.testbit st.2 j = true -> j <= hi).
  refine (iter_until_post (mask_step hi step) I (fun m =>
    Z.testbit m lo = true /\ forall j, 0 <= j -> Z.testbit m j = true -> j <= hi)
    _ _ _ _ _ E).
  { unfold I. simpl. split; [lia|]. split; [by left|].
    intros j _. by rewrite Z.bits_0. }
  intros [i mm] (Hi & Hl & Hb). unfold mask_step. simpl in *.
  destruct (Z.leb_spec i hi) as [Hle|Hgt].
  - unfold I. simpl. split; [unfold u64, two64; div_lia|]. split.
    + right. rewrite testbit_lor_bit by lia. destruct Hl as [->| ->]; [|done].
      by rewrite Z.eqb_refl, orb_true_r.
    + intros j Hj. rewrite testbit_lor_bit, orb_true_iff by lia.
      intros [?|?]; [auto|lia].
  - split; [|done]. destruct Hl as [->|]; [lia|done].
Qed.
End MaskLoop.

(** ** The meaning of a field *)

Inductive value := Num (n : Z) | Name (s : string).
Inductive range := Star | Single (v : value) | Span (v1 v2 : value).
Record term := mkTerm { t_range : range; t_step : option Z }.

Definition value_text (v : value) : string :=
  match v with Num n => print_uint n | Name s => s end.

Definition range_text (r : range) : string :=
  match r with
  | Star => "*"
  | Single v => value_text v
  | Span v1 v2 => value_text v1 +:+ String "-" (value_text v2)
  end.

Definition term_text (t : term) : string :=
  match t_step t with
  | None => range_text (t_range t)
  | Some n => range_text (t_range t) +:+ String "/" (print_uint n)
  end.

Definition field_text (ts : list term) : string := join "," (map term_text ts).

(** The number a value stands for: a 64-bit number, or a name of the table in
    any mixture of cases. *)
Definition value_num (b : bounds) (v : value) : option Z :=
  match v with
  | Num n => if (0 <=? n) && (n <? two64) then Some n else None
  | Name s =>
      if all_bytes is_letter s
      then match b_names b with Some names => names !! ToLower s | None => None end
      else None
  end.

(** First and last value of a term; a single value with a step runs to the end
    of the field. *)
Definition term_span (b : bounds) (t : term) : option (Z * Z) :=
  match t_range t with
  | Star => Some (b_min b, b_max b)
  | Single v =>
      match value_num b v with
      | Some n => Some (n, match t_step t with Some _ => b_max b | None => n end)
      | None => None
      end
  | Span v1 v2 =>
      match value_num b v1, value_num b v2 with
      | Some n1, Some n2 => Some (n1, n2)
      | _, _ => None
      end
  end.

Definition term_step (t : term) : Z := default 1 (t_step t).

Definition is_star (t : term) : bool :=
  match t_range t, t_step t with Star, None => true | _, _ => false end.

(** A term the field accepts, with a step that fits the machine word. *)
Definition term_ok (b : bounds) (t : term) : bool :=
  match term_span b t with
  | Some (lo, hi) =>
      (b_min b <=? lo) && (lo <=? hi) && (hi <=? b_max b)
      && (0 <? term_step t) && (hi + term_step t <? two64)
  | None => false
  end.

(** Bit [j] of the mask of a term. *)
Definition term_bit (b : bounds) (t : term) (j : Z) : bool :=
  match term_span b t with
  | Some (lo, hi) => on_step lo hi (term_step t) j
  | None => false
  end || (is_star t && (j =? 63)).

(** What the field parser relies on in the bounds; [all_bounds_wf] below shows
    it of the six bounds of the program. *)
Definition wf_bounds (b : bounds) : Prop :=
  0 <= b_min b <= b_max b /\ b_max b < 63 /\
  match b_names b with
  | Some names => map_Forall (fun k v => all_bytes is_digit k = false
                                         /\ b_min b <= v <= b_max b) names
  | None => True
  end.

Lemma names_wf :
  map_Forall (fun k v => all_bytes is_digit k = false /\ 1 <= v <= 12) monthNames
  /\ map_Forall (fun k v => all_bytes is_digit k = false /\ 0 <= v <= 6) dowNames.
Proof. apply (bool_decide_unpack _). vm_compute. exact I. Qed.

Lemma all_bounds_wf :
  Forall wf_bounds [secondsBound; minutesBound; hoursBound; domBound; monthBound; dowBound].
Proof.
  destruct names_wf. repeat apply Forall_cons_2; try apply Forall_nil_2.
  all: unfold wf_bounds; simpl; split_and!; (done || lia).
Qed.

(** *** Texts *)

Lemma is_digit_alnum s : all_bytes is_digit s = true -> all_bytes is_alnum s = true.
Proof. apply all_bytes_impl. intros a Ha. unfold is_alnum. by rewrite Ha. Qed.

Lemma is_letter_alnum s : all_bytes is_letter s = true -> all_bytes is_alnum s = true.
Proof.
  apply all_bytes_impl. intros a Ha. unfold is_alnum. by rewrite Ha, orb_true_r.
Qed.

Lemma value_text_alnum b v n : value_num b v = Some n -> all_bytes is_alnum (value_text v) = true.
Proof.
  destruct v as [m|s]; simpl.
  - destruct (Z.leb_spec 0 m); [|done]. intros _. by apply is_digit_alnum, print_uint_digits.
  - destruct (all_bytes is_letter s) eqn:E; [|done]. intros _. by apply is_letter_alnum.
Qed.

Lemma parseValue_text b v n :
  wf_bounds b -> value_num b v = Some n -> parseValue (value_text v) b = Ok n.
Proof.
  intros (_ & _ & Hn) Hv. unfold parseValue. destruct v as [m|s]; simpl in *.
  - destruct ((0 <=? m) && (m <? two64)) eqn:E; [|done]. injection Hv as ->.
    assert (ParseUint (print_uint n) = Ok n) as Hp by (apply ParseUint_print; bool_lia).
    rewrite Hp. destruct (b_names b) as [names|]; [|done].
    pose proof (print_uint_digits n ltac:(bool_lia)) as Hd.
    rewrite ToLower_digits by done.
    destruct (names !! print_uint n) as [v|] eqn:El; [|done].
    destruct (Hn _ _ El) as [Hf _]. congruence.
  - destruct (all_bytes is_letter s); [|done].
    destruct (b_names b) as [names|]; [|done]. by rewrite Hv.
Qed.

Lemma alnum_text_not_wild s :
  all_bytes is_alnum s = true -> String.eqb s "*" || String.eqb s "?" = false.
Proof.
  intros Ha. apply orb_false_iff.
  split; apply String.eqb_neq; intros ->; vm_compute in Ha; done.
Qed.

Lemma cut_alnum c s :
  is_alnum c = false -> all_bytes is_alnum s = true -> cut_byte c s = None.
Proof. intros. by apply cut_byte_none, alnum_not_bytes. Qed.

(** The text of a range contains no slash and no comma. *)
Lemma range_text_plain b t sp c :
  term_span b t = Some sp -> c = "/"%char \/ c = ","%char ->
  all_bytes (not_byte c) (range_text (t_range t)) = true.
Proof.
  intros Hs Hc. unfold term_span in Hs.
  assert (is_alnum c = false) as Hac by (destruct Hc as [-> | ->]; done).
  assert (not_byte c "-" = true) as Hm by (destruct Hc as [-> | ->]; done).
  destruct (t_range t) as [|v|v1 v2]; simpl.
  - destruct Hc as [-> | ->]; done.
  - destruct (value_num b v) eqn:E; [|done].
    apply alnum_not_bytes; [done|]. by eapply value_text_alnum.
  - destruct (value_num b v1) eqn:E1, (value_num b v2) eqn:E2; try done.
    rewrite all_bytes_app. simpl. rewrite Hm.
    rewrite !alnum_not_bytes by (done || by eapply value_text_alnum). done.
Qed.

Lemma parseStep_text b t sp :
  term_span b t = Some sp -> 0 < term_step t < two64 ->
  parseStep (term_text t)
  = Ok (range_text (t_range t), term_step t, bool_decide (is_Some (t_step t))).
Proof.
  intros Hs Hst. pose proof (range_text_plain b t sp "/" Hs (or_introl eq_refl)) as Hp.
  unfold parseStep, term_text, term_step in *. destruct (t_step t) as [n|]; simpl in *.
  - rewrite cut_byte_app, ParseUint_print by (done || lia).
    destruct (Z.eqb_spec n 0); [lia|done].
  - by rewrite cut_byte_none.
Qed.

Lemma parseRange_text b t lo hi txt :
  wf_bounds b -> term_span b t = Some (lo, hi) ->
  parseRange txt (range_text (t_range t)) (bool_decide (is_Some (t_step t))) b
  = Ok (lo, hi, match t_range t with Star => true | _ => false end).
Proof.
  intros Hb Hs. unfold parseRange, term_span in *.
  destruct (t_range t) as [|v|v1 v2]; simpl.
  - injection Hs as -> ->. done.
  - destruct (value_num b v) as [n|] eqn:E; [|done]. injection Hs as -> <-.
    pose proof (value_text_alnum b v lo E) as Ha.
    rewrite alnum_text_not_wild, cut_alnum, (parseValue_text b v lo) by done.
    destruct (t_step t); done.
  - destruct (value_num b v1) as [n1|] eqn:E1, (value_num b v2) as [n2|] eqn:E2; try done.
    injection Hs as -> ->.
    pose proof (value_text_alnum b v1 lo E1) as H1.
    assert (String.eqb (value_text v1 +:+ String "-" (value_text v2)) "*"
            || String.eqb (value_text v1 +:+ String "-" (value_text v2)) "?" = false) as ->.
    { apply orb_false_iff.
      split; apply String.eqb_neq; destruct (value_text v1) as [|a s1]; simpl; try done;
        intros [= -> He]; vm_compute in H1; done. }
    rewrite cut_byte_app by by apply alnum_not_bytes.
    rewrite (parseValue_text b v1 lo), (parseValue_text b v2 hi) by done. done.
Qed.

(** *** Soundness and completeness *)

Lemma wf_bounds_two63 b : wf_bounds b -> b_max b < two63.
Proof. intros (_ & H & _). unfold two63. lia. Qed.

Lemma testbit_starBit j : 0 <= j -> Z.testbit starBit j = (j =? 63).
Proof.
  intros Hj. unfold starBit. rewrite testbit_bit by lia.
  case_bool_decide; symmetry; [apply Z.eqb_eq|apply Z.eqb_neq]; lia.
Qed.

Lemma parseTerm_text b t :
  wf_bounds b -> term_ok b t = true ->
  exists m, parseTerm (term_text t) b = Ok m
    /\ forall j, 0 <= j -> Z.testbit m j = term_bit b t j.
Proof.
  intros Hb Hok. unfold term_ok, term_bit in *.
  destruct (term_span b t) as [[lo hi]|] eqn:Hs; [|done].
  assert (b_min b <= lo <= hi /\ hi <= b_max b /\ 0 < term_step t
          /\ hi + term_step t < two64) as (Hlo & Hhi & Hst & Hw) by bool_lia.
  pose proof (wf_bounds_two63 b Hb). destruct Hb as (Hmin & H63 & Hn).
  unfold parseTerm.
  rewrite (parseStep_text b t (lo, hi)), (parseRange_text b t lo hi) by (done || lia).
  destruct (Z.ltb_spec lo (b_min b)), (Z.ltb_spec (b_max b) hi), (Z.ltb_spec hi lo);
    try lia. cbn [orb].
  destruct (mask_loop_total lo hi (term_step t)) as [m Hm]; [lia..|]. rewrite Hm.
  eexists. split; [done|]. intros j Hj.
  assert (Z.testbit m j = on_step lo hi (term_step t) j) as Hbit.
  { refine (mask_loop_spec lo hi (term_step t) _ _ _ _ m _ Hm j Hj);
      unfold no_wrap; lia. }
  unfold is_star. destruct (t_range t), (t_step t); simpl;
    rewrite ?Z.lor_spec, ?testbit_starBit, Hbit, ?orb_false_r by done; done.
Qed.

Lemma parseTerms_text b ts acc :
  wf_bounds b -> Forall (fun t => term_ok b t = true) ts ->
  exists m, parseTerms (map term_text ts) acc b = Ok m
    /\ forall j, 0 <= j ->
         Z.testbit m j = Z.testbit acc j || existsb (fun t => term_bit b t j) ts.
Proof.
  intros Hb Hall. revert acc. induction Hall as [|t ts Ht Hts IH]; intros acc; simpl.
  - exists acc. split; [done|]. intros. by rewrite orb_false_r.
  - destruct (parseTerm_text b t Hb Ht) as (m & -> & Hm).
    destruct (IH (Z.lor acc m)) as (m' & -> & Hm'). exists m'. split; [done|].
    intros j Hj. by rewrite Hm', Z.lor_spec, Hm, orb_assoc.
Qed.

Lemma term_text_no_comma b t :
  term_ok b t = true -> all_bytes (not_byte ",") (term_text t) = true.
Proof.
  unfold term_ok, term_text. destruct (term_span b t) as [[lo hi]|] eqn:Hs; [|done].
  intros Hok. pose proof (range_text_plain b t _ "," Hs (or_intror eq_refl)) as Hp.
  unfold term_step in Hok. destruct (t_step t) as [n|]; [|done]. simpl in Hok.
  rewrite all_bytes_app, Hp. cbn [andb all_bytes].
  change (not_byte "," "/") with true. cbn [andb].
  apply alnum_not_bytes, is_digit_alnum, print_uint_digits; [done|bool_lia].
Qed.

(** What every accepted term guarantees, whatever its text. *)
Lemma parseTerm_sound b s m :
  wf_bounds b -> parseTerm s b = Ok m ->
  (exists j, b_min b <= j <= b_max b /\ Z.testbit m j = true)
  /\ forall j, 0 <= j -> Z.testbit m j = true -> j <= b_max b \/ j = 63.
Proof.
  intros Hb. pose proof (wf_bounds_two63 b Hb). destruct Hb as (Hmin & H63 & _).
  unfold parseTerm.
  destruct (parseStep s) as [[[rp step] hs]|] eqn:Hst; [|done].
  destruct (parseRange s rp hs b) as [[[lo hi] star]|]; [|done].
  destruct (Z.ltb_spec lo (b_min b)), (Z.ltb_spec (b_max b) hi); try done. cbn [orb].
  destruct (Z.ltb_spec hi lo); [done|].
  destruct (mask_loop lo hi step) as [mm|] eqn:Hm; [|done]. intros [= <-].
  destruct (mask_loop_bound lo hi step ltac:(lia) ltac:(lia) mm Hm) as [Hlo Hup].
  split.
  - exists lo. split; [lia|]. destruct (star && negb hs); [|done].
    by rewrite Z.lor_spec, Hlo.
  - intros j Hj. destruct (star && negb hs); [|intros ?%Hup; [lia|done]].
    rewrite Z.lor_spec, testbit_starBit, orb_true_iff by done.
    intros [?%Hup|?]; [lia|done|lia].
Qed.

Lemma parseTerms_sound b ts acc m :
  wf_bounds b -> parseTerms ts acc b = Ok m ->
  (ts <> [] \/ (exists j, b_min b <= j <= b_max b /\ Z.testbit acc j = true) ->
   exists j, b_min b <= j <= b_max b /\ Z.testbit m j = true)
  /\ ((forall j, 0 <= j -> Z.testbit acc j = true -> j <= b_max b \/ j = 63) ->
      forall j, 0 <= j -> Z.testbit m j = true -> j <= b_max b \/ j = 63).
Proof.
  intros Hb. revert acc. induction ts as [|t ts IH]; intros acc; simpl.
  - intros [= ->]. split; [by intros [|]|done].
  - destruct (parseTerm t b) as [mt|] eqn:Ht; [|done]. intros Hr.
    destruct (parseTerm_sound b t mt Hb Ht) as [(j & Hj & Hjt) Hup].
    destruct (IH _ Hr) as [IH1 IH2]. split.
    + intros _. apply IH1. right. exists j. split; [done|].
      by rewrite Z.lor_spec, Hjt, orb_true_r.
    + intros Hacc. apply IH2. intros i Hi. rewrite Z.lor_spec, orb_true_iff.
      intros [?|?]; auto.
Qed.

(** The step that [parseStep] returns is a positive 64-bit number. *)
Lemma parse_digits_range n s m :
  0 <= n < two64 -> parse_digits n s = Ok m -> 0 <= m < two64.
Proof.
  revert n; induction s as [|a s IH]; intros n Hn; simpl; [by intros [= ->]|].
  destruct (is_digit a) eqn:Ha; [|done]. unfold is_digit, digit_of in *.
  destruct (Z.leb_spec two64 (n * 10 + (byte_of a - 48))); [done|].
  apply IH. bool_lia.
Qed.

Lemma parseStep_range s rp step hs :
  parseStep s = Ok (rp, step, hs) -> 0 < step < two64.
Proof.
  unfold parseStep, ParseUint. destruct (cut_byte "/" s) as [[l r]|].
  - destruct r as [|a r]; [done|].
    destruct (parse_digits 0 (String a r)) as [n|] eqn:E; [|done].
    apply parse_digits_range in E; [|unfold two64; lia].
    destruct (Z.eqb_spec n 0); [done|]. intros [= <- <- <-]. lia.
  - intros [= <- <- <-]. unfold two64. lia.
Qed.

(** No step of the field is so large that the loop counter wraps around. *)
Definition small_step (b : bounds) (term : string) : Prop :=
  match parseStep term with
  | Ok (_, step, _) => no_wrap (b_max b) step
  | Err _ => True
  end.

Lemma parseTerm_lower b s m :
  wf_bounds b -> small_step b s -> parseTerm s b = Ok m ->
  forall j, 0 <= j -> Z.testbit m j = true -> b_min b <= j.
Proof.
  intros Hb Hs. pose proof (wf_bounds_two63 b Hb). destruct Hb as (Hmin & H63 & _).
  unfold parseTerm, small_step, no_wrap in *.
  destruct (parseStep s) as [[[rp step] hs]|] eqn:Hst; [|done].
  pose proof (parseStep_range _ _ _ _ Hst) as Hstep.
  destruct (parseRange s rp hs b) as [[[lo hi] star]|]; [|done].
  destruct (Z.ltb_spec lo (b_min b)), (Z.ltb_spec (b_max b) hi); try done. cbn [orb].
  destruct (Z.ltb_spec hi lo); [done|].
  destruct (mask_loop lo hi step) as [mm|] eqn:Hm; [|done]. intros [= <-] j Hj.
  assert (Z.testbit mm j = true -> b_min b <= j) as Hbit.
  { rewrite (mask_loop_spec lo hi step ltac:(lia) ltac:(lia) ltac:(lia) ltac:(lia) mm ltac:(unfold no_wrap; lia) Hm j Hj).
    unfold on_step. bool_lia. }
  destruct (star && negb hs); [|done].
  rewrite Z.lor_spec, testbit_starBit, orb_true_iff by done. intros [?|?]; [auto|lia].
Qed.

Lemma parseTerms_lower b ts acc m :
  wf_bounds b -> Forall (small_step b) ts -> parseTerms ts acc b = Ok m ->
  (forall j, 0 <= j -> Z.testbit acc j = true -> b_min b <= j) ->
  forall j, 0 <= j -> Z.testbit m j = true -> b_min b <= j.
Proof.
  intros Hb Hs. revert acc. induction Hs as [|t ts Ht Hs IH]; intros acc; simpl; [by intros [= ->]|].
  destruct (parseTerm t b) as [mt|] eqn:Hm; [|done]. intros Hr Hacc. apply (IH _ Hr).
  intros i Hi. rewrite Z.lor_spec, orb_true_iff. intros [?|?]; [auto|by eapply parseTerm_lower].
Qed.

Lemma parseValue_no_loop s b : parseValue s b <> Err LoopBound.
Proof. unfold parseValue. repeat case_on; congruence. Qed.

Lemma parseTerm_no_loop s b : wf_bounds b -> parseTerm s b <> Err LoopBound.
Proof.
  intros Hb. pose proof (wf_bounds_two63 b Hb). destruct Hb as (Hmin & _).
  unfold parseTerm. destruct (parseStep s) as [[[rp step] hs]|] eqn:Hst.
  2:{ unfold parseStep in Hst. repeat case_on; congruence. }
  apply parseStep_range in Hst.
  destruct (parseRange s rp hs b) as [[[lo hi] star]|e] eqn:Hr.
  2:{ unfold parseRange in Hr. pose proof parseValue_no_loop.
      repeat case_on; congruence. }
  destruct (Z.ltb_spec lo (b_min b)), (Z.ltb_spec (b_max b) hi); try done. cbn [orb].
  destruct (Z.ltb_spec hi lo); [done|].
  destruct (mask_loop_total lo hi step) as [m ->]; (done || lia).
Qed.

Lemma parseTerms_no_loop ts acc b : wf_bounds b -> parseTerms ts acc b <> Err LoopBound.
Proof.
  intros Hb. revert acc. induction ts as [|t ts IH]; intros acc; simpl; [done|].
  pose proof (parseTerm_no_loop t b Hb). destruct (parseTerm t b); [auto|congruence].
Qed.

(** ** Main theorems *)

(** C25: the parser accepts the text of every field whose terms are in range and
    computes exactly the set of values the terms denote, with the star bit for
    a plain wildcard. *)
Theorem parseField_denotes (b : bounds) (ts : list term) :
  wf_bounds b -> ts <> [] -> Forall (fun t => term_ok b t = true) ts ->
  exists m, parseField (field_text ts) b = Ok m
    /\ forall j, 0 <= j -> Z.testbit m j = existsb (fun t => term_bit b t j) ts.
Proof.
  intros Hb Hne Hall. unfold parseField, field_text.
  rewrite Split_join.
  - destruct (parseTerms_text b ts 0 Hb Hall) as (m & Hm & Hbits).
    exists m. split; [done|]. intros j Hj. by rewrite Hbits, Z.bits_0.
  - by destruct ts.
  - apply Forall_map. eapply Forall_impl; [exact Hall|].
    intros t. apply term_text_no_comma.
Qed.

Lemma parseField_denotes_witness :
  exists m, parseField (field_text [mkTerm (Span (Name "MON") (Num 5)) (Some 2);
                                    mkTerm (Single (Num 0)) None]) dowBound = Ok m
    /\ forall j, 0 <= j -> Z.testbit m j =
         existsb (fun t => term_bit dowBound t j)
           [mkTerm (Span (Name "MON") (Num 5)) (Some 2); mkTerm (Single (Num 0)) None].
Proof.
  apply (parseField_denotes dowBound).
  - apply (proj1 (Forall_forall wf_bounds _) all_bounds_wf). repeat constructor.
  - discriminate.
  - repeat constructor.
Defined.

(** C26: whatever its text, a field that is accepted permits at least one value
    of its range and, but for the star bit, nothing above the range; it permits
    nothing below the range either, unless some term has a step so close to 2^64
    that adding it wraps around.  Parsing always ends with a mask or an error of
    the source. *)
Theorem parseField_sound (b : bounds) (s : string) :
  wf_bounds b ->
  match parseField s b with
  | Ok m => (exists j, b_min b <= j <= b_max b /\ Z.testbit m j = true)
            /\ (forall j, 0 <= j -> Z.testbit m j = true -> j <= b_max b \/ j = 63)
            /\ (Forall (small_step b) (Split "," s) ->
                forall j, 0 <= j -> Z.testbit m j = true -> b_min b <= j)
  | Err e => e <> LoopBound
  end.
Proof.
  intros Hb. unfold parseField.
  pose proof (parseTerms_no_loop (Split "," s) 0 b Hb).
  destruct (parseTerms (Split "," s) 0 b) as [m|e] eqn:Hm; [|congruence].
  destruct (parseTerms_sound b _ 0 m Hb Hm) as [H1 H2]. split_and!.
  - apply H1. left. apply Split_nonempty.
  - apply H2. intros j _. by rewrite Z.bits_0.
  - intros Hs. apply (parseTerms_lower b _ 0 m Hb Hs Hm). intros j _. by rewrite Z.bits_0.
Qed.

(** Every second day: 1, 3, ..., 31. *)
Lemma parseField_sound_witness :
  (exists j, 1 <= j <= 31 /\ Z.testbit 2863311530 j = true)
  /\ (forall j, 0 <= j -> Z.testbit 2863311530 j = true -> j <= 31 \/ j = 63)
  /\ forall j, 0 <= j -> Z.testbit 2863311530 j = true -> 1 <= j.
Proof.
  destruct (parseField_sound domBound "1-31/2") as (H1 & H2 & H3).
  - apply (proj1 (Forall_forall wf_bounds _) all_bounds_wf). repeat constructor.
  - split; [exact H1|]. split; [exact H2|]. apply H3. by repeat constructor.
Defined.

(** A step close to 2^64 wraps around: "day 5, then every
    18446744073709551615 days" is accepted, and permits days 0 to 4 as well,
    which lie before the start, day 0 outside the field. *)
Theorem parseField_step_wraps :
  parseField "5/18446744073709551615" domBound = Ok 63
  /\ Z.testbit 63 0 = true /\ b_min domBound = 1.
Proof. vm_compute. done. Qed.
