(* ===== verification/CronSpec.v ===== *)
(** * Cron schedules as bit masks and their next activation

    Models [src/cron/spec.go]: the [SpecSchedule] structure, [dayMatches], and
    [Next], the calendar walk with its [WRAP] label.  The walk is a machine
    whose control points are the label and the heads of the five loops;
    [next_block] is one visit of a control point, with the loop body when the
    loop's condition holds. *)

From Stdlib Require Import ZArith Lia.
From stdpp Require Import base list.
From S2P Require Import Prelude GoTime CronField.

Record SpecSchedule := mkSpec {
  sp_Second : Z;
  sp_Minute : Z;
  sp_Hour : Z;
  sp_Dom : Z;
  sp_Month : Z;
  sp_Dow : Z;
  sp_Location : option Location
}.

Definition loc (s : SpecSchedule) : Location :=
  match sp_Location s with None => UTC | Some l => l end.

Definition maxSearchYears : Z := 5.

(** The test [1<<uint(v)&mask == 0] that heads four of the loops. *)
Definition bit_clear (v mask : Z) : bool := Z.land (u64 (Z.shiftl 1 v)) mask =? 0.

Definition dayMatches (s : SpecSchedule) (l : Location) (t : time) : bool :=
  let domMatch := 0 <? Z.land (u64 (Z.shiftl 1 (Day l t))) (sp_Dom s) in
  let dowMatch := 0 <? Z.land (u64 (Z.shiftl 1 (Weekday l t))) (sp_Dow s) in
  if (0 <? Z.land (sp_Dom s) starBit) || (0 <? Z.land (sp_Dow s) starBit)
  then domMatch && dowMatch
  else domMatch || dowMatch.

Inductive label := WRAP | MONTH | DAY | HOUR | MINUTE | SECOND.

#[export] Instance label_eq_dec : EqDecision label.
Proof. solve_decision. Defined.

Record walk := Walk { pc : label; cur : time; added : bool }.

Definition next_block (s : SpecSchedule) (l : Location) (yearLimit : Z) (st : walk)
  : walk + time :=
  let t := cur st in
  match pc st with
  | WRAP =>
      if yearLimit <? Year l t then inr zero_time else inl (Walk MONTH t (added st))
  | MONTH =>
      if bit_clear (Month l t) (sp_Month s) then
        let t := if added st then t else Date (Year l t) (Month l t) 1 0 0 0 0 l in
        let t := AddDate l t 0 1 0 in
        inl (Walk (if Month l t =? 1 then WRAP else MONTH) t true)
      else inl (Walk DAY t (added st))
  | DAY =>
      if negb (dayMatches s l t) then
        let t := if added st then t
                 else Date (Year l t) (Month l t) (Day l t) 0 0 0 0 l in
        let t := AddDate l t 0 0 1 in
        inl (Walk (if Day l t =? 1 then WRAP else DAY) t true)
      else inl (Walk HOUR t (added st))
  | HOUR =>
      if bit_clear (THour l t) (sp_Hour s) then
        let t := if added st then t
                 else Date (Year l t) (Month l t) (Day l t) (THour l t) 0 0 0 l in
        let t := Add t Hour in
        inl (Walk (if THour l t =? 0 then WRAP else HOUR) t true)
      else inl (Walk MINUTE t (added st))
  | MINUTE =>
      if bit_clear (TMinute l t) (sp_Minute s) then
        let t := if added st then t else Truncate t Minute in
        let t := Add t Minute in
        inl (Walk (if TMinute l t =? 0 then WRAP else MINUTE) t true)
      else inl (Walk SECOND t (added st))
  | SECOND =>
      if bit_clear (TSecond l t) (sp_Second s) then
        let t := if added st then t else Truncate t Second in
        let t := Add t Second in
        inl (Walk (if TSecond l t =? 0 then WRAP else SECOND) t true)
      else inr t
  end.

(** Visits of control points that a walk in a fixed-offset zone never exceeds. *)
Definition next_fuel : positive := 2147483648.

Definition next_start (t : time) : time := Add (Truncate t Second) Second.

Definition next_limit (s : SpecSchedule) (t : time) : Z :=
  Year (loc s) (next_start t) + maxSearchYears.

(** [None]: the walk did not finish within [next_fuel] visits. *)
Definition Next (s : SpecSchedule) (t : time) : option time :=
  match iter_until (next_block s (loc s) (next_limit s t)) next_fuel
          (Walk WRAP (next_start t) false) with
  | inr u => Some u
  | inl _ => None
  end.

(** The schedule fires at instant [t]. *)
Definition fires (s : SpecSchedule) (t : time) : bool :=
  (t mod Second =? 0)
  && negb (bit_clear (Month (loc s) t) (sp_Month s))
  && dayMatches s (loc s) t
  && negb (bit_clear (THour (loc s) t) (sp_Hour s))
  && negb (bit_clear (TMinute (loc s) t) (sp_Minute s))
  && negb (bit_clear (TSecond (loc s) t) (sp_Second s)).

(** ** Evaluations *)

Definition bits (l : list Z) : Z := foldr (fun i m => Z.lor (Z.shiftl 1 i) m) 0 l.
Definition star (lo hi : Z) : Z := Z.lor starBit (bits (seqZ lo (hi - lo + 1))).

Example next_monday :
  Next (mkSpec 1 (bits [30]) (bits [9]) (star 1 31) (star 1 12) (bits [1]) None)
    (Date 2026 1 1 0 0 0 0 UTC) = Some (Date 2026 1 5 9 30 0 0 UTC).
Proof. vm_compute. done. Qed.
Example next_leap_day :
  Next (mkSpec 1 1 1 (bits [29]) (bits [2]) (star 0 6) None)
    (Date 2026 3 1 0 0 0 0 UTC) = Some (Date 2028 2 29 0 0 0 0 UTC).
Proof. vm_compute. done. Qed.
Example next_impossible :
  Next (mkSpec 1 1 1 (bits [30]) (bits [2]) (star 0 6) None)
    (Date 2026 1 1 0 0 0 0 UTC) = Some zero_time.
Proof. vm_compute. done. Qed.
Example next_dom_or_dow :
  Next (mkSpec 1 1 1 (bits [13]) (star 1 12) (bits [5]) None)
    (Date 2026 2 1 0 0 0 0 UTC) = Some (Date 2026 2 6 0 0 0 0 UTC).
Proof. vm_compute. done. Qed.
