(* ===== verification/CronNext.v ===== *)
(** * Correctness of [Next]

    For a location with one constant offset of whole minutes (UTC, the only
    location the server uses, is one), the calendar walk of [CronSpec.Next]
    terminates, and returns the earliest firing instant strictly after its
    argument, or the zero time when there is none up to the end of the search
    horizon.

    The proof reads the walk on wall-clock seconds.  The loop heads are levels,
    from [MONTH] (coarsest) to [SECOND]; [ubegin k w] and [uend k w] delimit the
    unit of level [k] that contains second [w], and a loop body moves from [w]
    to [uend k w]. *)

From Stdlib Require Import ZArith Lia.
From stdpp Require Import base list.
From S2P Require Import Prelude GoTime CronSpec.

(** ** Levels and units *)

Definition rank (k : label) : Z :=
  match k with WRAP => 6 | MONTH => 5 | DAY => 4 | HOUR => 3 | MINUTE => 2 | SECOND => 1 end.

Definition fld (k : label) (w : Z) : Z :=
  match k with
  | WRAP => w_year w | MONTH => w_month w | DAY => w_day w
  | HOUR => w_hour w | MINUTE => w_minute w | SECOND => w_second w
  end.

(** The first value of a field, at which the loop of that level goes to [WRAP]. *)
Definition first_value (k : label) : Z :=
  match k with WRAP | MONTH | DAY => 1 | _ => 0 end.

Definition span (k : label) : Z :=
  match k with DAY => 86400 | HOUR => 3600 | MINUTE => 60 | _ => 1 end.

Definition ubegin (k : label) (w : Z) : Z :=
  match k with MONTH => month_begin w | _ => w / span k * span k end.

Definition uend (k : label) (w : Z) : Z :=
  match k with MONTH => month_end w | _ => (w / span k + 1) * span k end.

Lemma unit_bounds k w : ubegin k w <= w < uend k w.
Proof.
  destruct k; simpl; try apply month_bounds; unfold span; div_lia.
Qed.

Lemma unit_same_div k w v :
  k <> MONTH -> ubegin k w <= v < uend k w -> v / span k = w / span k.
Proof. intros Hk Hv. destruct k; try done; simpl in *; unfold span in *; div_lia. Qed.

(** Within a unit, the fields of the unit's level and of every coarser level
    are constant. *)
Lemma unit_field k k' w v :
  k <> WRAP -> rank k <= rank k' -> ubegin k w <= v < uend k w -> fld k' v = fld k' w.
Proof.
  intros Hk Hr Hv. destruct (decide (k = MONTH)) as [->|Hne].
  - cbn [ubegin uend] in Hv. destruct (same_month w v Hv) as [Hy Hm].
    destruct k'; simpl in *; try lia; done.
  - pose proof (unit_same_div k w v Hne Hv) as Hd.
    assert (w / 86400 = v / 86400) as Hday
      by (destruct k; try done; simpl in Hd, Hr; unfold span in *; div_lia).
    destruct (same_day w v Hday) as (Hy & Hm & Hdd & _).
    destruct k'; simpl in *; try done;
      unfold w_hour, w_minute, w_second;
      destruct k; try done; simpl in Hd, Hr; try lia; div_lia.
Qed.

Lemma unit_weekday k w v :
  rank k <= rank DAY -> ubegin k w <= v < uend k w -> w_weekday v = w_weekday w.
Proof.
  intros Hr Hv.
  assert (k <> MONTH) as Hne by (intros ->; simpl in Hr; lia).
  pose proof (unit_same_div k w v Hne Hv) as Hd.
  destruct (same_day w v) as (_ & _ & _ & Hw); [|done].
  destruct k; try done; simpl in Hd, Hr; try lia; unfold span in *; div_lia.
Qed.

(** The end of a unit begins the units of its level and of every finer one. *)
Lemma uend_begins k k' w :
  k <> WRAP -> k' <> WRAP -> rank k' <= rank k -> ubegin k' (uend k w) = uend k w.
Proof.
  intros Hk Hk' Hr. destruct k; try done.
  - destruct (w_fields_month_end w) as (_ & _ & _ & Hb).
    destruct (month_bounds_mod w) as [_ Hmod].
    destruct k'; simpl in *; try done; div_lia.
  - destruct k'; simpl in *; try lia; div_lia.
  - destruct k'; simpl in *; try lia; div_lia.
  - destruct k'; simpl in *; try lia; div_lia.
  - destruct k'; simpl in *; try lia; div_lia.
Qed.

(** Where a coarse unit begins, every finer field has its first value. *)
Lemma ubegin_first k k' w :
  k <> WRAP -> k' <> WRAP -> rank k < rank k' -> ubegin k' w = w ->
  fld k w = first_value k.
Proof.
  intros Hk Hk' Hr Hb. destruct k'; try done.
  - destruct (month_bounds_mod w) as [Hmod _]. cbn [ubegin] in Hb.
    pose proof (month_begin_day w Hb) as Hd. rewrite Hb in Hmod.
    destruct k; simpl in *; try lia; unfold w_hour, w_minute, w_second; div_lia.
  - destruct k; simpl in *; try lia; unfold w_hour, w_minute, w_second in *; div_lia.
  - destruct k; simpl in *; try lia; unfold w_hour, w_minute, w_second in *; div_lia.
  - destruct k; simpl in *; try lia; unfold w_hour, w_minute, w_second in *; div_lia.
  - destruct k; simpl in *; lia.
Qed.

(** ** Locations of constant offset *)

(** [off] seconds east of UTC at every instant, in whole minutes. *)
Definition fixed_offset (l : Location) (off : Z) : Prop :=
  off mod 60 = 0 /\ forall x, z_offset (l x) = off.

Lemma fixed_offset_FixedZone off : off mod 60 = 0 -> fixed_offset (FixedZone off) off.
Proof. done. Qed.

(** The instant at which the wall clock shows [w]. *)
Definition at_wall (off w : Z) : time := (w - off) * Second.

Section Walk.
Context (s : SpecSchedule) (l : Location) (off : Z) (Hl : fixed_offset l off).

Lemma wall_at w : wall l (at_wall off w) = w.
Proof.
  destruct Hl as [_ Hx]. unfold wall, at_wall.
  rewrite Hx, Z.div_mul by done. lia.
Qed.

Lemma resolve_fixed w : resolve l w = w - off.
Proof.
  destruct Hl as [_ Hx]. unfold resolve. rewrite !Hx.
  destruct (Z.eqb_spec off 0); [lia|]. destruct (_ || _); done.
Qed.

Lemma Date_fixed y m d h mi sec :
  Date y m d h mi sec 0 l = at_wall off (wall_of y m d h mi sec).
Proof.
  unfold Date, at_wall. rewrite resolve_fixed, Zmod_0_l, Zdiv_0_l.
  rewrite !Z.add_0_r. done.
Qed.

Lemma AddDate_fixed w y m d :
  AddDate l (at_wall off w) y m d
  = at_wall off (wall_of (w_year w + y) (w_month w + m) (w_day w + d)
                   (w_hour w) (w_minute w) (w_second w)).
Proof.
  unfold AddDate, Year, Month, Day, THour, TMinute, TSecond, TNanosecond.
  rewrite wall_at. unfold at_wall at 1. rewrite Z.mod_mul by done.
  apply Date_fixed.
Qed.

Lemma Add_fixed w n : Add (at_wall off w) (n * Second) = at_wall off (w + n).
Proof. unfold Add, at_wall. lia. Qed.

Lemma Truncate_Minute_fixed w :
  Truncate (at_wall off w) Minute = at_wall off (w / 60 * 60).
Proof.
  destruct Hl as [H60 _]. unfold Truncate, at_wall, Minute.
  change (60 * Second <=? 0) with false. cbv iota.
  rewrite Z.mul_mod_distr_r by done.
  rewrite <-Z.mul_sub_distr_r. f_equal. div_lia.
Qed.

Lemma Truncate_Second_fixed w : Truncate (at_wall off w) Second = at_wall off w.
Proof.
  unfold Truncate, at_wall. change (Second <=? 0) with false. cbv iota.
  rewrite Z.mod_mul by done. lia.
Qed.

(** *** The loop conditions on wall-clock seconds *)

Definition ok (k : label) (w : Z) : bool :=
  match k with
  | WRAP => true
  | MONTH => negb (bit_clear (w_month w) (sp_Month s))
  | DAY => dayMatches s l (at_wall off w)
  | HOUR => negb (bit_clear (w_hour w) (sp_Hour s))
  | MINUTE => negb (bit_clear (w_minute w) (sp_Minute s))
  | SECOND => negb (bit_clear (w_second w) (sp_Second s))
  end.

Definition fires_wall (w : Z) : bool :=
  ok MONTH w && ok DAY w && ok HOUR w && ok MINUTE w && ok SECOND w.

Lemma ok_unit k k' w v :
  k <> WRAP -> rank k <= rank k' -> ubegin k w <= v < uend k w -> ok k' v = ok k' w.
Proof.
  intros Hk Hr Hv. pose proof (unit_field k k' w v Hk Hr Hv) as Hf.
  destruct k'; simpl in *; rewrite ?Hf; try done.
  unfold dayMatches, Day, Weekday. rewrite !wall_at.
  rewrite Hf, (unit_weekday k w v); done.
Qed.

(** A second either begins its unit or satisfies a level exactly when its
    predecessor does. *)
Lemma ok_cases k w : k <> WRAP -> ubegin k w = w \/ ok k (w - 1) = ok k w.
Proof.
  intros Hk. pose proof (unit_bounds k w).
  destruct (Z.eq_dec (ubegin k w) w) as [|Hne]; [by left|right].
  apply (ok_unit k); [done|lia|lia].
Qed.

(** The control point after the loop of level [k]. *)
Definition leave (k : label) (t : time) (a : bool) : walk + time :=
  match k with
  | WRAP => inl (Walk MONTH t a) | MONTH => inl (Walk DAY t a)
  | DAY => inl (Walk HOUR t a) | HOUR => inl (Walk MINUTE t a)
  | MINUTE => inl (Walk SECOND t a) | SECOND => inr t
  end.

(** One visit of a loop head: leave the loop, or move to the end of the unit.
    A walk that has moved before must stand at the beginning of a unit that
    does not match. *)
Definition block_spec (lim : Z) (k : label) (w : Z) (a : bool) : Prop :=
  (a = true -> ok k w = false -> ubegin k w = w) ->
  next_block s l lim (Walk k (at_wall off w) a)
  = if ok k w then leave k (at_wall off w) a
    else inl (Walk (if fld k (uend k w) =? first_value k then WRAP else k)
                (at_wall off (uend k w)) true).

Ltac enter_block :=
  intros Ha; unfold next_block; cbn [pc cur added];
  unfold Month, Year, Day, THour, TMinute, TSecond; rewrite ?wall_at; cbn [ok] in *.

Lemma block_MONTH lim w a : block_spec lim MONTH w a.
Proof.
  enter_block.
  destruct (bit_clear _ _); [|done]. cbn [negb] in *.
  assert ((if a then at_wall off w
           else Date (w_year w) (w_month w) 1 0 0 0 0 l) = at_wall off (month_begin w))
    as ->.
  { destruct a; [by rewrite <-(Ha eq_refl eq_refl) at 1|].
    by rewrite Date_fixed, wall_of_month. }
  pose proof (month_bounds w).
  destruct (same_month w (month_begin w)) as [Hy Hm]; [lia|].
  destruct (same_month_bounds w (month_begin w)) as [Hb _]; [lia|].
  destruct (month_bounds_mod w) as [Hmod _].
  pose proof (month_begin_day _ Hb) as Hd.
  rewrite AddDate_fixed, Hy, Hm, Hd, !Z.add_0_r, wall_at.
  replace (w_hour (month_begin w)) with 0 by (unfold w_hour; div_lia).
  replace (w_minute (month_begin w)) with 0 by (unfold w_minute; div_lia).
  replace (w_second (month_begin w)) with 0 by (unfold w_second; div_lia).
  rewrite wall_of_next_month. done.
Qed.

Lemma block_DAY lim w a : block_spec lim DAY w a.
Proof.
  enter_block.
  destruct (dayMatches _ _ _); [done|]. cbn [negb] in *.
  assert ((if a then at_wall off w
           else Date (w_year w) (w_month w) (w_day w) 0 0 0 0 l)
          = at_wall off (w / 86400 * 86400)) as ->.
  { destruct a; [by rewrite <-(Ha eq_refl eq_refl) at 1|].
    pose proof (wall_of_day w 0) as Hw. rewrite !Z.add_0_r in Hw.
    by rewrite Date_fixed, Hw. }
  destruct (same_day w (w / 86400 * 86400)) as (Hy & Hm & Hd & _); [div_lia|].
  rewrite AddDate_fixed, Hy, Hm, Hd, !Z.add_0_r, wall_at.
  replace (w_hour (w / 86400 * 86400)) with 0 by (unfold w_hour; div_lia).
  replace (w_minute (w / 86400 * 86400)) with 0 by (unfold w_minute; div_lia).
  replace (w_second (w / 86400 * 86400)) with 0 by (unfold w_second; div_lia).
  rewrite wall_of_day. done.
Qed.

Lemma block_HOUR lim w a : block_spec lim HOUR w a.
Proof.
  enter_block.
  destruct (bit_clear _ _); [|done]. cbn [negb] in *.
  assert ((if a then at_wall off w
           else Date (w_year w) (w_month w) (w_day w) (w_hour w) 0 0 0 l)
          = at_wall off (w / 3600 * 3600)) as ->.
  { destruct a; [by rewrite <-(Ha eq_refl eq_refl) at 1|].
    destruct (w_fields_range w) as (Hm & _ & He).
    rewrite Date_fixed, wall_of_in_range, He by done. f_equal.
    unfold w_hour. div_lia. }
  change Hour with (3600 * Second). rewrite Add_fixed, wall_at.
  cbn [uend span fld first_value].
  replace (w / 3600 * 3600 + 3600) with ((w / 3600 + 1) * 3600) by lia. done.
Qed.

Lemma block_MINUTE lim w a : block_spec lim MINUTE w a.
Proof.
  enter_block.
  destruct (bit_clear _ _); [|done]. cbn [negb] in *.
  assert ((if a then at_wall off w else Truncate (at_wall off w) Minute)
          = at_wall off (w / 60 * 60)) as ->.
  { destruct a; [by rewrite <-(Ha eq_refl eq_refl) at 1|].
    apply Truncate_Minute_fixed. }
  change Minute with (60 * Second). rewrite Add_fixed, wall_at.
  cbn [uend span fld first_value].
  replace (w / 60 * 60 + 60) with ((w / 60 + 1) * 60) by lia. done.
Qed.

Lemma block_SECOND lim w a : block_spec lim SECOND w a.
Proof.
  enter_block.
  destruct (bit_clear _ _); [|done]. cbn [negb] in *.
  assert ((if a then at_wall off w else Truncate (at_wall off w) Second)
          = at_wall off w) as ->.
  { destruct a; [done|]. apply Truncate_Second_fixed. }
  change Second with (1 * Second). rewrite Add_fixed, wall_at.
  cbn [uend span fld first_value].
  replace ((w / 1 + 1) * 1) with (w + 1) by (rewrite Z.div_1_r; lia). done.
Qed.

Lemma block_loop lim k w a : k <> WRAP -> block_spec lim k w a.
Proof.
  destruct k; [done|..]; intros _;
    auto using block_MONTH, block_DAY, block_HOUR, block_MINUTE, block_SECOND.
Qed.

(** *** The invariant of the walk

    [w0] is the second at which the walk starts, [lim] the last year it
    searches. *)
Context (w0 lim : Z).

Definition quiet (w : Z) : Prop := forall v, w0 <= v < w -> fires_wall v = false.

Definition aligned (w : Z) : Prop :=
  forall k, k <> WRAP -> ok k w = false -> ubegin k w = w.

Definition walk_inv (st : walk) : Prop :=
  exists w, cur st = at_wall off w /\ w0 <= w /\ quiet w
    /\ (added st = true -> aligned w)
    /\ (forall k, k <> WRAP -> rank (pc st) < rank k -> ok k w = true)
    /\ (pc st <> WRAP -> w_year w <= lim).

(** What the walk returns: the first firing second, or the zero time when no
    second up to the end of year [lim] fires. *)
Definition walk_post (r : time) : Prop :=
  (exists w, r = at_wall off w /\ w0 <= w /\ quiet w /\ fires_wall w = true
             /\ w_year w <= lim)
  \/ (r = zero_time /\ forall v, w0 <= v -> w_year v <= lim -> fires_wall v = false).

Lemma fires_wall_level k w : k <> WRAP -> ok k w = false -> fires_wall w = false.
Proof.
  intros Hk H. unfold fires_wall.
  destruct k; [done|..]; rewrite H, ?andb_false_r; done.
Qed.

(** The last second of a unit satisfies the coarser levels as the unit does. *)
Lemma ok_uend_pred k k' w :
  k <> WRAP -> rank k <= rank k' -> ok k' (uend k w - 1) = ok k' w.
Proof.
  intros Hk Hr. pose proof (unit_bounds k w). apply (ok_unit k); [done..|lia].
Qed.

Lemma quiet_uend k w : k <> WRAP -> ok k w = false -> quiet w -> quiet (uend k w).
Proof.
  intros Hk Ho Hq v Hv. destruct (Z.lt_ge_cases v w) as [|Hge]; [apply Hq; lia|].
  apply (fires_wall_level k); [done|]. rewrite <-Ho.
  apply (ok_unit k); [done..|]. pose proof (unit_bounds k w). lia.
Qed.

(** The coarser levels hold at [w]: at the end of the unit they hold again or
    their unit begins there. *)
Lemma aligned_uend k w :
  k <> WRAP -> (forall j, j <> WRAP -> rank k < rank j -> ok j w = true) ->
  aligned (uend k w).
Proof.
  intros Hk Hup j Hj Ho. destruct (Z.le_gt_cases (rank j) (rank k)).
  - by apply uend_begins.
  - destruct (ok_cases j (uend k w) Hj) as [|Hc]; [done|].
    rewrite ok_uend_pred, Hup in Hc by (done || lia). congruence.
Qed.

(** Without a wrap, the move stays inside every coarser unit. *)
Lemma no_wrap_ok k j w :
  k <> WRAP -> j <> WRAP -> rank k < rank j ->
  fld k (uend k w) <> first_value k -> ok j (uend k w) = ok j w.
Proof.
  intros Hk Hj Hr Hf. destruct (ok_cases j (uend k w) Hj) as [Hb|Hc].
  - by apply (ubegin_first k) in Hb.
  - rewrite <-Hc. apply ok_uend_pred; [done|lia].
Qed.

Lemma no_wrap_year k w :
  k <> WRAP -> fld k (uend k w) <> first_value k -> w_year (uend k w) = w_year w.
Proof.
  intros Hk Hf. pose proof (unit_bounds k w) as Hb.
  destruct (decide (k = MONTH)) as [->|Hne].
  - destruct (w_fields_range w) as (Hm & _ & _).
    destruct (w_fields_month_end w) as (Hy & Hm' & _ & _).
    simpl in *. rewrite Hm' in Hf. rewrite Hy. div_lia.
  - pose proof (month_bounds (uend k w)) as Hmb.
    destruct (Z.eq_dec (month_begin (uend k w)) (uend k w)) as [He|Hn].
    + apply (ubegin_first k MONTH) in He; [done..|].
      destruct k; simpl; try done.
    + destruct (same_month (uend k w) (uend k w - 1)) as [<- _]; [lia|].
      apply (unit_field k WRAP); [done|destruct k; done|lia].
Qed.

Lemma walk_inv_step st :
  walk_inv st ->
  match next_block s l lim st with inl st' => walk_inv st' | inr r => walk_post r end.
Proof.
  destruct st as [k t a]. intros (w & Ht & Hw & Hq & Hal & Hup & Hy). simpl in *. subst t.
  destruct (decide (k = WRAP)) as [->|Hk].
  { unfold next_block; cbn [pc cur added]. unfold Year. rewrite wall_at.
    destruct (Z.ltb_spec lim (w_year w)) as [Hlt|Hle].
    - right. split; [done|]. intros v Hv Hyv. apply Hq. split; [done|].
      destruct (Z.lt_ge_cases v w) as [|Hge%w_year_mono]; [done|lia].
    - exists w. simpl. repeat split; auto.
      intros k Hk Hr. destruct k; simpl in Hr; (done || lia). }
  rewrite block_loop; [|done|by intros ->; apply Hal].
  destruct (ok k w) eqn:Hok.
  - destruct k; try done; cbn [leave].
    all: try (exists w; simpl; repeat split; auto; intros j Hj Hr;
              destruct j; simpl in Hr; try lia; auto; apply Hup; simpl; auto; lia).
    left. exists w. repeat split; auto.
    unfold fires_wall. rewrite !Hup, Hok by done. done.
  - exists (uend k w). simpl. pose proof (unit_bounds k w).
    repeat split; auto using quiet_uend, aligned_uend; [lia|..].
    + intros j Hj. destruct (Z.eqb_spec (fld k (uend k w)) (first_value k)).
      * destruct j; simpl; lia.
      * intros Hr. rewrite no_wrap_ok by done. auto.
    + destruct (Z.eqb_spec (fld k (uend k w)) (first_value k)); [done|].
      intros _. rewrite no_wrap_year by done. auto.
Qed.

(** *** Termination *)

Definition horizon : Z := days_before_year (lim + 1) * 86400.

Definition walk_measure (st : walk) : Z :=
  (horizon - wall l (cur st)) * 8 + rank (pc st).

Lemma before_horizon w : w_year w <= lim -> w < horizon.
Proof. intros H. apply w_year_lt_end. lia. Qed.

(** The horizon begins a year, so no unit reaches across it. *)
Lemma uend_horizon k w : k <> WRAP -> w_year w <= lim -> uend k w <= horizon.
Proof.
  intros Hk Hy. pose proof (before_horizon w Hy).
  destruct (Z.le_gt_cases (uend k w) horizon) as [|Hgt]; [done|].
  pose proof (unit_bounds k w).
  assert (fld WRAP horizon = fld WRAP w) as Hf
    by (apply (unit_field k); [done|destruct k; done|lia]).
  simpl in Hf. unfold horizon in Hf. rewrite year_begin in Hf. lia.
Qed.

Lemma walk_decreases st :
  walk_inv st ->
  match next_block s l lim st with
  | inl st' => walk_inv st' /\ 0 <= walk_measure st' < walk_measure st
  | inr _ => True
  end.
Proof.
  intros Hinv. pose proof (walk_inv_step st Hinv) as Hst.
  destruct (next_block s l lim st) as [st'|] eqn:Hb; [|done]. split; [done|]. clear Hst.
  destruct st as [k t a], Hinv as (w & Ht & _ & _ & Hal & _ & Hy). simpl in *. subst t.
  unfold walk_measure. simpl. rewrite wall_at.
  destruct (decide (k = WRAP)) as [->|Hk].
  - unfold next_block in Hb; cbn [pc cur added] in Hb. unfold Year in Hb.
    rewrite wall_at in Hb. destruct (Z.ltb_spec lim (w_year w)); [done|].
    injection Hb as <-. simpl. rewrite wall_at.
    pose proof (before_horizon w ltac:(lia)). lia.
  - pose proof (before_horizon w (Hy Hk)).
    rewrite block_loop in Hb; [|done|by intros ->; apply Hal].
    destruct (ok k w).
    + destruct k; simpl in Hb; try done; injection Hb as <-; simpl;
        rewrite wall_at; lia.
    + injection Hb as <-. simpl. rewrite wall_at.
      pose proof (unit_bounds k w). pose proof (uend_horizon k w Hk (Hy Hk)).
      assert (1 <= rank k) by (destruct k; simpl; lia).
      destruct (_ =? _); cbn [rank]; lia.
Qed.

Lemma walk_inv_start t : t = at_wall off w0 -> walk_inv (Walk WRAP t false).
Proof.
  intros ->. exists w0. simpl. repeat split; try done; try lia.
  - intros v Hv. lia.
  - intros k Hk Hr. destruct k; simpl in Hr; (done || lia).
Qed.
End Walk.

(** ** The walk at the level of instants *)

Section Instants.
Context (s : SpecSchedule) (off : Z) (Hl : fixed_offset (loc s) off).

Definition start_wall (t : time) : Z := t / Second + 1 + off.

Lemma next_start_wall t : next_start t = at_wall off (start_wall t).
Proof.
  unfold next_start, Truncate, Add, at_wall, start_wall.
  change (Second <=? 0) with false. cbv iota. unfold Second. div_lia.
Qed.

Lemma fires_at w : fires s (at_wall off w) = fires_wall s (loc s) off w.
Proof.
  unfold fires, fires_wall, ok, Month, THour, TMinute, TSecond.
  rewrite !(wall_at _ _ Hl). unfold at_wall at 1. rewrite Z.mod_mul by done.
  reflexivity.
Qed.

Lemma fires_aligned v : fires s v = true -> v = at_wall off (v / Second + off).
Proof.
  unfold fires. intros H. repeat (apply andb_true_iff in H as [H _]).
  unfold at_wall, Second in *. apply Z.eqb_eq in H. div_lia.
Qed.

Lemma Year_at w : Year (loc s) (at_wall off w) = w_year w.
Proof. unfold Year. by rewrite wall_at. Qed.

(** The specification of a search for the next firing instant. *)
Definition next_post (t : time) (u : time) : Prop :=
  (t < u /\ fires s u = true /\ Year (loc s) u <= next_limit s t
   /\ forall v, t < v < u -> fires s v = false)
  \/ (u = zero_time
      /\ forall v, t < v -> Year (loc s) v <= next_limit s t -> fires s v = false).

Lemma walk_post_next t r :
  walk_post s (loc s) off (start_wall t) (next_limit s t) r -> next_post t r.
Proof.
  intros [(w & -> & Hw & Hq & Hf & Hy)|[-> Hq]].
  - left. rewrite fires_at, Year_at. repeat split; try done.
    + unfold at_wall, start_wall, Second in *. div_lia.
    + intros v Hv. destruct (fires s v) eqn:E; [|done].
      apply fires_aligned in E as Ev. rewrite Ev, fires_at in E.
      rewrite (Hq (v / Second + off)) in E; [done|].
      rewrite Ev in Hv. unfold at_wall, start_wall, Second in *. div_lia.
  - right. split; [done|]. intros v Hv Hy. destruct (fires s v) eqn:E; [|done].
    apply fires_aligned in E as Ev. rewrite Ev, fires_at in E.
    rewrite (Hq (v / Second + off)) in E; [done|..].
    + rewrite Ev in Hv. unfold at_wall, start_wall, Second in *. div_lia.
    + rewrite Ev, Year_at in Hy. done.
Qed.

Lemma next_limit_wall t : next_limit s t = w_year (start_wall t) + 5.
Proof. unfold next_limit. rewrite next_start_wall, Year_at. done. Qed.

Lemma horizon_near t :
  horizon (next_limit s t) - start_wall t <= 6 * 366 * 86400.
Proof.
  unfold horizon. rewrite next_limit_wall.
  replace (w_year (start_wall t) + 5 + 1) with (w_year (start_wall t) + 6) by lia.
  pose proof (days_before_year_6 (w_year (start_wall t))).
  pose proof (w_year_ge_start (start_wall t) (w_year (start_wall t)) ltac:(lia)). lia.
Qed.

Lemma Next_walk_post t :
  exists u, Next s t = Some u
    /\ walk_post s (loc s) off (start_wall t) (next_limit s t) u.
Proof.
  unfold Next.
  pose proof (walk_inv_start s (loc s) off (start_wall t) (next_limit s t)
                (next_start t) (next_start_wall t)) as Hi.
  destruct (iter_until_terminates (next_block s (loc s) (next_limit s t))
    (walk_inv s (loc s) off (start_wall t) (next_limit s t))
    (walk_measure (loc s) (next_limit s t))
    (walk_decreases s (loc s) off Hl _ _) next_fuel _ Hi) as [u Hu].
  { unfold walk_measure. simpl. rewrite next_start_wall, wall_at by done.
    pose proof (horizon_near t). unfold next_fuel. lia. }
  exists u. rewrite Hu. split; [done|].
  pose proof (iter_until_inv (next_block s (loc s) (next_limit s t))
    (walk_inv s (loc s) off (start_wall t) (next_limit s t))
    (walk_post s (loc s) off (start_wall t) (next_limit s t))
    (walk_inv_step s (loc s) off Hl _ _) next_fuel _ Hi) as Hp.
  by rewrite Hu in Hp.
Qed.

Lemma Next_spec t : exists u, Next s t = Some u /\ next_post t u.
Proof.
  destruct (Next_walk_post t) as (u & Hu & Hp). eauto using walk_post_next.
Qed.
End Instants.

(** ** Reference search

    The obvious implementation: look at every second in turn until one fires or
    the search horizon is passed. *)

Definition scan_step (s : SpecSchedule) (lim : Z) (t : time) : time + time :=
  if lim <? Year (loc s) t then inr zero_time
  else if fires s t then inr t
  else inl (Add t Second).

Definition NextScan (s : SpecSchedule) (t : time) : option time :=
  match iter_until (scan_step s (next_limit s t)) next_fuel (next_start t) with
  | inr u => Some u
  | inl _ => None
  end.

Section Scan.
Context (s : SpecSchedule) (off : Z) (Hl : fixed_offset (loc s) off) (w0 lim : Z).

Definition scan_inv (t : time) : Prop :=
  exists w, t = at_wall off w /\ w0 <= w /\ quiet s (loc s) off w0 w.

Lemma scan_inv_step t :
  scan_inv t ->
  match scan_step s lim t with
  | inl t' => scan_inv t' /\ 0 <= horizon lim - wall (loc s) t' < horizon lim - wall (loc s) t
  | inr r => walk_post s (loc s) off w0 lim r
  end.
Proof.
  intros (w & -> & Hw & Hq). unfold scan_step. rewrite Year_at, fires_at by done.
  destruct (Z.ltb_spec lim (w_year w)) as [Hlt|Hle].
  - right. split; [done|]. intros v Hv Hy. apply Hq. split; [done|].
    destruct (Z.lt_ge_cases v w) as [|Hge%w_year_mono]; [done|lia].
  - destruct (fires_wall s (loc s) off w) eqn:Hf.
    + left. exists w. done.
    + rewrite <-(Z.mul_1_l Second), Add_fixed, !wall_at by done.
      pose proof (before_horizon lim w Hle). split; [|lia].
      exists (w + 1). split; [done|]. split; [lia|].
      intros v Hv. destruct (Z.eq_dec v w) as [->|]; [done|]. apply Hq. lia.
Qed.

(** The specification determines the result. *)
Lemma walk_post_unique r1 r2 :
  walk_post s (loc s) off w0 lim r1 -> walk_post s (loc s) off w0 lim r2 -> r1 = r2.
Proof.
  intros [(w1 & -> & H1 & Hq1 & Hf1 & Hy1)|[-> Hn1]]
         [(w2 & -> & H2 & Hq2 & Hf2 & Hy2)|[-> Hn2]]; [|..|done].
  - destruct (Z.lt_trichotomy w1 w2) as [Hlt|[->|Hlt]]; [|done|].
    + rewrite (Hq2 w1) in Hf1 by lia. done.
    + rewrite (Hq1 w2) in Hf2 by lia. done.
  - rewrite Hn2 in Hf1 by done. done.
  - rewrite Hn1 in Hf2 by done. done.
Qed.
End Scan.

Lemma NextScan_walk_post s off t (Hl : fixed_offset (loc s) off) :
  exists u, NextScan s t = Some u
    /\ walk_post s (loc s) off (start_wall off t) (next_limit s t) u.
Proof.
  unfold NextScan.
  assert (scan_inv s off (start_wall off t) (next_start t)) as Hi.
  { exists (start_wall off t). rewrite (next_start_wall off). repeat split; [lia|].
    intros v Hv. lia. }
  destruct (iter_until_terminates (scan_step s (next_limit s t))
    (scan_inv s off (start_wall off t))
    (fun x => horizon (next_limit s t) - wall (loc s) x)) with (p := next_fuel)
    (x := next_start t) as [u Hu].
  - intros x Hx. pose proof (scan_inv_step s off Hl (start_wall off t) (next_limit s t) x Hx).
    destruct (scan_step _ _ _); done.
  - done.
  - rewrite (next_start_wall off), wall_at by done.
    pose proof (horizon_near s off Hl t). unfold next_fuel. lia.
  - exists u. rewrite Hu. split; [done|].
    pose proof (iter_until_inv (scan_step s (next_limit s t))
      (scan_inv s off (start_wall off t))
      (walk_post s (loc s) off (start_wall off t) (next_limit s t))) as Hp.
    assert (forall x, scan_inv s off (start_wall off t) x ->
      match scan_step s (next_limit s t) x with
      | inl y => scan_inv s off (start_wall off t) y
      | inr r => walk_post s (loc s) off (start_wall off t) (next_limit s t) r
      end) as Hst.
    { intros x Hx. pose proof (scan_inv_step s off Hl _ (next_limit s t) x Hx) as Hsx.
      destruct (scan_step _ _ _); [by destruct Hsx|done]. }
    specialize (Hp Hst next_fuel _ Hi). by rewrite Hu in Hp.
Qed.

(** ** Main theorems *)

(** C2: in a location whose offset from UTC is constant, in whole minutes, [Next]
    always returns, for every mask and every instant; the result is strictly after the argument, fires, lies in
    the search horizon and no instant in between fires, or it is the zero time
    and nothing fires from the argument to the end of the horizon. *)
Theorem Next_correct (s : SpecSchedule) (off : Z) (t : time) :
  fixed_offset (loc s) off ->
  exists u, Next s t = Some u /\
    ((t < u /\ fires s u = true /\ Year (loc s) u <= next_limit s t
      /\ forall v, t < v < u -> fires s v = false)
     \/ (u = zero_time
         /\ forall v, t < v -> Year (loc s) v <= next_limit s t -> fires s v = false)).
Proof. intros Hl. exact (Next_spec s off Hl t). Qed.

Lemma Next_correct_witness :
  exists u, Next (mkSpec 1 1 1 (bits [29]) (bits [2]) (star 0 6) None) 0 = Some u /\
    ((0 < u /\ fires (mkSpec 1 1 1 (bits [29]) (bits [2]) (star 0 6) None) u = true
      /\ Year UTC u <= 6
      /\ forall v, 0 < v < u ->
           fires (mkSpec 1 1 1 (bits [29]) (bits [2]) (star 0 6) None) v = false)
     \/ (u = zero_time /\ forall v, 0 < v -> Year UTC v <= 6 ->
           fires (mkSpec 1 1 1 (bits [29]) (bits [2]) (star 0 6) None) v = false)).
Proof.
  apply (Next_correct (mkSpec 1 1 1 (bits [29]) (bits [2]) (star 0 6) None) 0 0).
  apply fixed_offset_FixedZone. reflexivity.
Defined.

(** C9: in a location whose offset from UTC is constant, in whole minutes, the
    calendar walk returns exactly what a search second by second returns. *)
Theorem Next_equals_scan (s : SpecSchedule) (off : Z) (t : time) :
  fixed_offset (loc s) off -> Next s t = NextScan s t.
Proof.
  intros Hl. destruct (Next_walk_post s off Hl t) as (u & -> & Hu).
  destruct (NextScan_walk_post s off t Hl) as (u' & -> & Hu').
  f_equal. by apply (walk_post_unique s off (start_wall off t) (next_limit s t)).
Qed.

Lemma Next_equals_scan_witness :
  Next (mkSpec (bits [5]) (star 0 59) (star 0 23) (star 1 31) (star 1 12) (star 0 6)
          (Some (FixedZone 19800))) 0
  = NextScan (mkSpec (bits [5]) (star 0 59) (star 0 23) (star 1 31) (star 1 12) (star 0 6)
          (Some (FixedZone 19800))) 0.
Proof.
  apply (Next_equals_scan _ 19800). apply fixed_offset_FixedZone. reflexivity.
Defined.

(** ** A zone with a transition

    A location whose clocks jump from midnight to one o'clock on November 4,
    2018, from three to two hours west of UTC. *)

Definition gap_instant : Z := wall_of 2018 11 4 3 0 0.

Definition MidnightGap : Location := fun x =>
  if x <? gap_instant then Zone (-10800) min_int64 gap_instant
  else Zone (-7200) gap_instant max_int64.

(** Where the offset is not constant, neither holds.  With a zone whose daylight-saving transition skips midnight, [Next] may
    return an instant that the schedule excludes: "at noon on Saturdays", asked
    on Saturday afternoon, answers noon on Sunday, because the hour loop steps
    over the missing hour 0 and never returns to [WRAP]. *)
Example Next_midnight_gap_misfires :
  let s := mkSpec 1 1 (bits [12]) (star 1 31) (star 1 12) (bits [6]) (Some MidnightGap) in
  let t := Date 2018 11 3 13 0 0 0 MidnightGap in
  exists u, Next s t = Some u
    /\ u = Date 2018 11 4 12 0 0 0 MidnightGap
    /\ Weekday MidnightGap u = 0
    /\ fires s u = false.
Proof.
  intros s t. exists (Date 2018 11 4 12 0 0 0 MidnightGap).
  repeat split; vm_compute; reflexivity.
Qed.
