(* ===== verification/CronParser.v ===== *)
(** * Cron specifications

    Models [src/cron/parser.go], [src/cron/constant.go] and the [Schedule]
    interface of [src/cron/cron.go]: the five- and six-field forms, the
    descriptors and "@every". *)

From Stdlib Require Import ZArith Lia Ascii String.
From stdpp Require Import base list strings gmap.
From S2P Require Import Prelude GoTime GoStrings GoDuration CronField CronSpec CronNext.

#[local] Open Scope string_scope.
#[local] Open Scope Z_scope.

(** ** Fixed intervals *)

Record ConstantDelaySchedule := mkConstant { Delay : duration }.

Definition Every (d : duration) : ConstantDelaySchedule :=
  let d := if d <? Second then Second else d in
  mkConstant (d - Z.rem d Second).

Definition ConstantNext (s : ConstantDelaySchedule) (t : time) : time :=
  Add t (Delay s - TNanosecond t).

(** ** Schedules

    The two implementations of the interface.  [ScheduleNext] is [None] when the
    calendar walk did not finish. *)

Inductive Schedule :=
| Spec (s : SpecSchedule)
| Constant (c : ConstantDelaySchedule).

Definition ScheduleNext (s : Schedule) (t : time) : option time :=
  match s with
  | Spec s => Next s t
  | Constant c => Some (ConstantNext c t)
  end.

Inductive parse_error :=
| EmptySpec
| UnknownDescriptor (spec : string)
| FieldCount (n : nat)
| BadField (e : field_error)
| BadDuration (raw : string) (e : duration_error)
| NonPositiveDuration (d : duration).

Definition parseEvery (spec : string) : result parse_error Schedule :=
  let raw := TrimSpace (TrimPrefix spec "@every ") in
  match ParseDuration raw with
  | Err e => Err (BadDuration raw e)
  | Ok d =>
      if d <=? 0 then Err (NonPositiveDuration d) else Ok (Constant (Every d))
  end.

(** Fold bit 7 of a day-of-week mask onto bit 0. *)
Definition normalizeDow (mask : Z) : Z :=
  if Z.land mask (Z.shiftl 1 7) =? 0 then mask
  else Z.lor (Z.ldiff mask (Z.shiftl 1 7)) 1.

Definition lift_field (r : result field_error Z) : result parse_error Z :=
  match r with Ok m => Ok m | Err e => Err (BadField e) end.

Definition buildSpec (sec min hour dom month dow : string) (l : Location)
  : result parse_error SpecSchedule :=
  let? sec := lift_field (parseField sec secondsBound) in
  let? min := lift_field (parseField min minutesBound) in
  let? hour := lift_field (parseField hour hoursBound) in
  let? dom := lift_field (parseField dom domBound) in
  let? month := lift_field (parseField month monthBound) in
  let? dow := lift_field (parseField dow dowBound) in
  Ok (mkSpec sec min hour dom month (normalizeDow dow) (Some l)).

Definition parseFields (fields : list string) (l : Location)
  : result parse_error SpecSchedule :=
  match fields with
  | [min; hour; dom; month; dow] => buildSpec "0" min hour dom month dow l
  | [sec; min; hour; dom; month; dow] => buildSpec sec min hour dom month dow l
  | _ => Err (FieldCount (length fields))
  end.

Definition descriptors : gmap string string := list_to_map
  [("@yearly", "0 0 0 1 1 *"); ("@annually", "0 0 0 1 1 *"); ("@monthly", "0 0 0 1 * *");
   ("@weekly", "0 0 0 * * 0"); ("@daily", "0 0 0 * * *"); ("@midnight", "0 0 0 * * *");
   ("@hourly", "0 0 * * * *")].

Definition parseDescriptor (spec : string) (l : Location) : result parse_error Schedule :=
  if HasPrefix spec "@every " then parseEvery spec
  else
    match descriptors !! spec with
    | Some expanded => let? s := parseFields (Fields expanded) l in Ok (Spec s)
    | None => Err (UnknownDescriptor spec)
    end.

Definition ParseInLocation (spec : string) (l : Location) : result parse_error Schedule :=
  let spec := TrimSpace spec in
  if String.eqb spec "" then Err EmptySpec
  else if HasPrefix spec "@" then parseDescriptor spec l
  else let? s := parseFields (Fields spec) l in Ok (Spec s).

Definition Parse (spec : string) : result parse_error Schedule := ParseInLocation spec UTC.

(** ** Evaluations *)

Definition next_of (spec : string) (t : time) : option time :=
  match Parse spec with Ok s => ScheduleNext s t | Err _ => None end.

Example next_hourly : next_of "@hourly" (Date 2026 3 10 10 15 0 0 UTC)
  = Some (Date 2026 3 10 11 0 0 0 UTC).
Proof. vm_compute. done. Qed.
Example next_quarter : next_of "*/15 * * * *" (Date 2026 3 10 10 4 0 0 UTC)
  = Some (Date 2026 3 10 10 15 0 0 UTC).
Proof. vm_compute. done. Qed.
Example next_weekday : next_of "0 9 * * 1-5" (Date 2026 3 14 12 0 0 0 UTC)
  = Some (Date 2026 3 16 9 0 0 0 UTC).
Proof. vm_compute. done. Qed.
Example next_jan : next_of "0 0 1 JAN *" (Date 2026 6 1 0 0 0 0 UTC)
  = Some (Date 2027 1 1 0 0 0 0 UTC).
Proof. vm_compute. done. Qed.
Example next_every : next_of "@every 90m" (Date 2026 3 10 10 0 0 0 UTC)
  = Some (Date 2026 3 10 11 30 0 0 UTC).
Proof. vm_compute. done. Qed.
Example parse_bad :
  map (fun s => is_ok (Parse s))
    [""; "* * *"; "* * * * * * *"; "@bogus"; "@every notaduration"] = repeat false 5.
Proof. vm_compute. done. Qed.

(** ** Masks and calendar fields *)

Lemma shift_u64 v : 0 <= v < 64 -> u64 (Z.shiftl 1 v) = Z.shiftl 1 v.
Proof.
  intros Hv. apply u64_small. rewrite Z.shiftl_1_l.
  split; [apply Z.pow_nonneg; lia|]. change two64 with (2 ^ 64).
  apply Z.pow_lt_mono_r; lia.
Qed.

Lemma bit_clear_testbit v m : 0 <= v < 64 -> bit_clear v m = negb (Z.testbit m v).
Proof. intros Hv. unfold bit_clear. rewrite shift_u64, land_bit_testbit by lia. done. Qed.

Lemma bit_set_testbit v m :
  0 <= v < 64 -> 0 <= m -> (0 <? Z.land (u64 (Z.shiftl 1 v)) m) = Z.testbit m v.
Proof.
  intros Hv Hm. rewrite shift_u64 by lia.
  pose proof (land_bit_testbit m v ltac:(lia)) as Hb.
  assert (0 <= Z.land (Z.shiftl 1 v) m) by (apply Z.land_nonneg; auto).
  destruct (Z.testbit m v); simpl in Hb;
    [apply Z.ltb_lt; apply Z.eqb_neq in Hb|apply Z.ltb_ge; apply Z.eqb_eq in Hb]; lia.
Qed.

(** The predicate of [dayMatches] on fields and bits. *)
Definition day_rule (dom dow : Z) (d wd : Z) : bool :=
  if Z.testbit dom 63 || Z.testbit dow 63
  then Z.testbit dom d && Z.testbit dow wd
  else Z.testbit dom d || Z.testbit dow wd.

Lemma w_weekday_range w : 0 <= w_weekday w <= 6.
Proof. unfold w_weekday. div_lia. Qed.

Lemma dayMatches_rule s l t :
  0 <= sp_Dom s -> 0 <= sp_Dow s ->
  dayMatches s l t = day_rule (sp_Dom s) (sp_Dow s) (Day l t) (Weekday l t).
Proof.
  intros Hd Hw. unfold dayMatches, day_rule, Day, Weekday.
  pose proof (w_day_range (wall l t)). pose proof (w_weekday_range (wall l t)).
  rewrite !bit_set_testbit by lia.
  rewrite !(Z.land_comm _ starBit).
  assert (starBit = u64 (Z.shiftl 1 63)) as -> by done.
  rewrite !bit_set_testbit by lia. done.
Qed.

(** The firing condition as a conjunction of bits. *)
Lemma fires_bits s t :
  0 <= sp_Dom s -> 0 <= sp_Dow s ->
  fires s t =
    (t mod Second =? 0)
    && Z.testbit (sp_Month s) (Month (loc s) t)
    && day_rule (sp_Dom s) (sp_Dow s) (Day (loc s) t) (Weekday (loc s) t)
    && Z.testbit (sp_Hour s) (THour (loc s) t)
    && Z.testbit (sp_Minute s) (TMinute (loc s) t)
    && Z.testbit (sp_Second s) (TSecond (loc s) t).
Proof.
  intros Hd Hw. unfold fires. rewrite dayMatches_rule by done.
  unfold Month, THour, TMinute, TSecond, w_hour, w_minute, w_second.
  pose proof (w_fields_range (wall (loc s) t)) as (Hm & _).
  rewrite !bit_clear_testbit, !negb_involutive by div_lia. done.
Qed.

(** ** Fixed intervals *)

Lemma Every_delay d :
  min_int64 <= d <= max_int64 ->
  Second <= Delay (Every d) <= Z.max Second d
  /\ Delay (Every d) mod Second = 0 /\ Z.max Second d < Delay (Every d) + Second.
Proof.
  intros Hd. unfold Every, Second. simpl.
  destruct (Z.ltb_spec d 1000000000).
  - change (Z.rem 1000000000 1000000000) with 0. div_lia.
  - rewrite Z.rem_mod_nonneg by lia. div_lia.
Qed.

Lemma ConstantNext_spec c t :
  Second <= Delay c -> Delay c mod Second = 0 ->
  t < ConstantNext c t <= t + Delay c /\ ConstantNext c t mod Second = 0
  /\ ConstantNext c t = Truncate t Second + Delay c.
Proof.
  unfold ConstantNext, Add, TNanosecond, Truncate, Second.
  change (1000000000 <=? 0) with false. cbv iota. intros. div_lia.
Qed.

(** ** Parsed schedules *)

Lemma buildSpec_location a b c d e f l s :
  buildSpec a b c d e f l = Ok s -> loc s = l.
Proof. unfold buildSpec. repeat case_on; intros [= <-]; done. Qed.

Lemma parseFields_location fs l s : parseFields fs l = Ok s -> loc s = l.
Proof.
  unfold parseFields. repeat (case_on; try done); apply buildSpec_location.
Qed.

Lemma ParseInLocation_cases spec l sch :
  ParseInLocation spec l = Ok sch ->
  (exists s, sch = Spec s /\ loc s = l)
  \/ exists d, sch = Constant (Every d) /\ 0 < d.
Proof.
  unfold ParseInLocation, parseDescriptor, parseEvery.
  destruct (String.eqb _ _); [done|]. destruct (HasPrefix _ "@").
  - destruct (HasPrefix _ "@every ").
    + destruct (ParseDuration _) as [d|]; [|done].
      destruct (Z.leb_spec d 0); [done|]. intros [= <-]. right. eauto.
    + destruct (descriptors !! _); [|done].
      destruct (parseFields _ l) eqn:E; [|done]. intros [= <-].
      left. eauto using parseFields_location.
  - destruct (parseFields _ l) eqn:E; [|done]. intros [= <-].
    left. eauto using parseFields_location.
Qed.

Lemma Parse_contract spec sch t :
  Parse spec = Ok sch ->
  exists u, ScheduleNext sch t = Some u
    /\ ((t < u /\ u mod Second = 0) \/ u = zero_time).
Proof.
  intros [(s & -> & Hl)|(d & -> & Hd)]%ParseInLocation_cases; simpl.
  - destruct (Next_spec s 0) with (t := t) as (u & -> & Hu).
    { rewrite Hl. by apply fixed_offset_FixedZone. }
    exists u. split; [done|]. destruct Hu as [(Hlt & Hf & _)|[-> _]]; [left|by right].
    split; [done|]. unfold fires in Hf. bool_lia.
  - eexists. split; [done|]. left.
    assert (Second <= Delay (Every d) /\ Delay (Every d) mod Second = 0) as [H1 H2].
    { unfold Every, Second. simpl. destruct (Z.ltb_spec d 1000000000); [done|].
      rewrite Z.rem_mod_nonneg by lia. div_lia. }
    destruct (ConstantNext_spec (Every d) t H1 H2) as (H3 & H4 & _). split; [lia|done].
Qed.

(** Every mask that [buildSpec] stores is a 64-bit mask of a parsed field. *)
Lemma dow_bit7_clear s m : parseField s dowBound = Ok m -> Z.testbit m 7 = false.
Proof.
  intros Hm. destruct (Z.testbit m 7) eqn:E; [|done]. exfalso.
  assert (wf_bounds dowBound) as Hwf
    by (apply (proj1 (Forall_forall wf_bounds _) all_bounds_wf); repeat constructor).
  unfold parseField in Hm.
  destruct (parseTerms_sound dowBound _ 0 m Hwf Hm) as [_ H2].
  destruct (H2 ltac:(intros j _; by rewrite Z.bits_0) 7); simpl in *; (done || lia).
Qed.

(** ** Descriptors *)

Lemma mask_full M lo n v :
  forallb (Z.testbit M) (seqZ lo n) = true -> lo <= v < lo + n -> Z.testbit M v = true.
Proof.
  rewrite forallb_forall. intros Hall Hv.
  apply Hall, list_elem_of_In, elem_of_seqZ. lia.
Qed.

Lemma testbit_one v : 0 <= v -> Z.testbit 1 v = (v =? 0).
Proof.
  intros Hv. change 1 with (Z.shiftl 1 0). rewrite testbit_bit by lia.
  case_bool_decide; symmetry; [apply Z.eqb_eq|apply Z.eqb_neq]; lia.
Qed.

Lemma testbit_two v : 0 <= v -> Z.testbit 2 v = (v =? 1).
Proof.
  intros Hv. change 2 with (Z.shiftl 1 1). rewrite testbit_bit by lia.
  case_bool_decide; symmetry; [apply Z.eqb_eq|apply Z.eqb_neq]; lia.
Qed.

Definition hours_all : Z := Z.lor starBit (Z.ones 24).
Definition dom_all : Z := Z.lor starBit (Z.shiftl (Z.ones 31) 1).
Definition months_all : Z := Z.lor starBit (Z.shiftl (Z.ones 12) 1).
Definition dow_all : Z := Z.lor starBit (Z.ones 7).

(** The unrestricted fields match every calendar field. *)
Lemma full_fields w :
  Z.testbit hours_all (w_hour w) = true /\ Z.testbit dom_all (w_day w) = true
  /\ Z.testbit months_all (w_month w) = true /\ Z.testbit dow_all (w_weekday w) = true.
Proof.
  pose proof (w_day_range w). destruct (w_fields_range w) as (Hm & _).
  pose proof (w_weekday_range w).
  assert (0 <= w_hour w <= 23) by (unfold w_hour; div_lia).
  repeat split.
  - apply (mask_full _ 0 24); [done|lia].
  - apply (mask_full _ 1 31); [done|lia].
  - apply (mask_full _ 1 12); [done|lia].
  - apply (mask_full _ 0 7); [done|lia].
Qed.

(** [t] is a whole number of hours, of days, in UTC. *)
Lemma hour_start t :
  (t mod Hour =? 0)
  = (t mod Second =? 0) && (TMinute UTC t =? 0) && (TSecond UTC t =? 0).
Proof.
  unfold TMinute, TSecond, wall, w_minute, w_second, UTC, FixedZone, Hour, Minute, Second.
  cbn [z_offset]. apply eq_true_iff_eq. rewrite !andb_true_iff, !Z.eqb_eq. div_lia.
Qed.

Lemma day_start t :
  (t mod (24 * Hour) =? 0) = (t mod Hour =? 0) && (THour UTC t =? 0).
Proof.
  unfold THour, wall, w_hour, UTC, FixedZone, Hour, Minute, Second.
  cbn [z_offset]. apply eq_true_iff_eq. rewrite !andb_true_iff, !Z.eqb_eq. div_lia.
Qed.

(** Firing of a schedule in UTC whose second and minute are 0. *)
Lemma fires_on_hours t hour dom month dow :
  0 <= dom -> 0 <= dow ->
  fires (mkSpec 1 1 hour dom month dow (Some UTC)) t
  = (t mod Hour =? 0) && Z.testbit hour (THour UTC t)
    && day_rule dom dow (Day UTC t) (Weekday UTC t) && Z.testbit month (Month UTC t).
Proof.
  intros Hd Hw. rewrite fires_bits by done. cbn [sp_Month sp_Dom sp_Dow sp_Hour sp_Minute
    sp_Second loc sp_Location]. rewrite hour_start.
  assert (0 <= TMinute UTC t /\ 0 <= TSecond UTC t) as [Hm Hs]
    by (unfold TMinute, TSecond, w_minute, w_second; div_lia).
  rewrite !testbit_one by done.
  destruct (t mod Second =? 0), (TMinute UTC t =? 0), (TSecond UTC t =? 0),
    (Z.testbit month _), (day_rule _ _ _ _), (Z.testbit hour _); done.
Qed.

(** ** Main theorems *)

(** C27: the interface contract of schedules.  Every specification that [Parse]
    accepts yields a schedule whose [Next] always returns, either an instant
    strictly after its argument on a whole second or the zero time. *)
Theorem Parse_schedule_contract (spec : string) (sch : Schedule) (t : time) :
  Parse spec = Ok sch ->
  exists u, ScheduleNext sch t = Some u
    /\ ((t < u /\ u mod Second = 0) \/ u = zero_time).
Proof. apply Parse_contract. Qed.

Lemma Parse_schedule_contract_witness :
  exists u, ScheduleNext (Constant (mkConstant (90 * Second))) 5 = Some u
    /\ ((5 < u /\ u mod Second = 0) \/ u = zero_time).
Proof.
  apply (Parse_schedule_contract " @every 1m30.9s ").
  vm_compute. reflexivity.
Defined.

(** C33: "@every": the delay is the requested duration rounded down to a whole
    number of seconds, at least one, and each activation is the previous whole
    second plus the delay, strictly after the given instant. *)
Theorem Every_Next (d : duration) (t : time) :
  min_int64 <= d <= max_int64 ->
  Delay (Every d) mod Second = 0
  /\ Second <= Delay (Every d) <= Z.max Second d
  /\ Z.max Second d < Delay (Every d) + Second
  /\ ConstantNext (Every d) t = Truncate t Second + Delay (Every d)
  /\ t < ConstantNext (Every d) t <= t + Delay (Every d).
Proof.
  intros Hd. destruct (Every_delay d Hd) as (H1 & H2 & H3).
  destruct (ConstantNext_spec (Every d) t (proj1 H1) H2) as (H4 & _ & H6).
  repeat split; (done || lia).
Qed.

Lemma Every_Next_witness :
  Delay (Every 1999999999) mod Second = 0
  /\ Second <= Delay (Every 1999999999) <= Z.max Second 1999999999
  /\ Z.max Second 1999999999 < Delay (Every 1999999999) + Second
  /\ ConstantNext (Every 1999999999) 7 = Truncate 7 Second + Delay (Every 1999999999)
  /\ 7 < ConstantNext (Every 1999999999) 7 <= 7 + Delay (Every 1999999999).
Proof. apply (Every_Next 1999999999 7). vm_compute. split; discriminate. Defined.

(** The descriptors mean what they say: "@hourly" fires exactly at the
    whole hours of UTC, "@daily" and "@midnight" at its midnights, "@weekly" at
    the midnights of Sundays, "@monthly" at those of the first of a month,
    "@yearly" and "@annually" at that of January 1. *)
Theorem descriptors_meaning :
  exists hourly daily weekly monthly yearly,
    Parse "@hourly" = Ok (Spec hourly)
    /\ Parse "@daily" = Ok (Spec daily) /\ Parse "@midnight" = Ok (Spec daily)
    /\ Parse "@weekly" = Ok (Spec weekly) /\ Parse "@monthly" = Ok (Spec monthly)
    /\ Parse "@yearly" = Ok (Spec yearly) /\ Parse "@annually" = Ok (Spec yearly)
    /\ forall t,
         fires hourly t = (t mod Hour =? 0)
         /\ fires daily t = (t mod (24 * Hour) =? 0)
         /\ fires weekly t = (t mod (24 * Hour) =? 0) && (Weekday UTC t =? 0)
         /\ fires monthly t = (t mod (24 * Hour) =? 0) && (Day UTC t =? 1)
         /\ fires yearly t = (t mod (24 * Hour) =? 0) && (Day UTC t =? 1) && (Month UTC t =? 1).
Proof.
  exists (mkSpec 1 1 hours_all dom_all months_all dow_all (Some UTC)),
    (mkSpec 1 1 1 dom_all months_all dow_all (Some UTC)),
    (mkSpec 1 1 1 dom_all months_all 1 (Some UTC)),
    (mkSpec 1 1 1 2 months_all dow_all (Some UTC)),
    (mkSpec 1 1 1 2 2 dow_all (Some UTC)).
  do 7 (split; [vm_compute; reflexivity|]). intros t.
  assert (0 <= THour UTC t /\ 0 <= Day UTC t /\ 0 <= Month UTC t /\ 0 <= Weekday UTC t)
    as (Hh & Hd & Hm & Hw).
  { unfold THour, Day, Month, Weekday, w_hour. pose proof (w_day_range (wall UTC t)).
    destruct (w_fields_range (wall UTC t)) as (Hm & _).
    pose proof (w_weekday_range (wall UTC t)). repeat split; (lia || div_lia). }
  destruct (full_fields (wall UTC t)) as (F1 & F2 & F3 & F4).
  rewrite !fires_on_hours, day_start by done. unfold day_rule.
  change (Z.testbit dom_all 63) with true. change (Z.testbit dow_all 63) with true.
  change (Z.testbit 1 63) with false. change (Z.testbit 2 63) with false.
  cbn [orb]. rewrite !testbit_one, !testbit_two by done.
  fold (THour UTC t) (Day UTC t) (Month UTC t) (Weekday UTC t) in F1, F2, F3, F4.
  rewrite F1, F2, F3, F4. rewrite ?andb_true_l, ?andb_true_r.
  repeat split; try done.
Qed.

(** The fold of "Sunday is 7" onto "Sunday is 0" never has an effect: the
    day-of-week field rejects 7, so no accepted mask has bit 7. *)
Theorem normalizeDow_unreachable (s : string) :
  match parseField s dowBound with
  | Ok m => normalizeDow m = m
  | Err _ => True
  end
  /\ parseField "7" dowBound = Err (OutOfRange 0 6 "7").
Proof.
  split; [|vm_compute; done]. destruct (parseField s dowBound) as [m|] eqn:Hm; [|done].
  unfold normalizeDow. rewrite Z.land_comm, land_bit_testbit, (dow_bit7_clear s m Hm) by lia.
  done.
Qed.
