(* ===== verification/Job.v ===== *)
(** * Jobs, runs and run states

    Models [src/internal/job/job.go], [run.go] and [state.go].  A slice is a
    list and a copy of a slice is the list itself, so [Clone] is the identity;
    a pointer to a time is an option. *)

From Stdlib Require Import ZArith Lia String.
From stdpp Require Import base list strings gmap.
From S2P Require Import Prelude GoTime GoFloat.

#[local] Open Scope string_scope.
#[local] Open Scope list_scope.
#[local] Open Scope Z_scope.

(** [RunState] is a string type: a filter or a stored run may hold any text. *)
Definition RunState := string.

Definition StatePending : RunState := "pending".
Definition StateRunning : RunState := "running".
Definition StateSucceeded : RunState := "succeeded".
Definition StateFailed : RunState := "failed".
Definition StateDead : RunState := "dead".
Definition StateSkipped : RunState := "skipped".

Definition terminalStates : gmap RunState bool := list_to_map
  [(StateSucceeded, true); (StateDead, true); (StateSkipped, true)].

Definition Valid (s : RunState) : bool :=
  existsb (String.eqb s)
    [StatePending; StateRunning; StateSucceeded; StateFailed; StateDead; StateSkipped].

(** Indexing a map at an absent key gives [false]. *)
Definition Terminal (s : RunState) : bool := default false (terminalStates !! s).

Record RetryPolicy := mkRetryPolicy {
  rp_Base : duration;
  rp_Max : duration;
  rp_Factor : float64;
  rp_Jitter : float64
}.

Record Job := mkJob {
  job_ID : string;
  job_Name : string;
  job_Spec : string;
  job_Command : list string;
  job_MaxRetries : Z;
  job_Backoff : RetryPolicy;
  job_DependsOn : list string;
  job_Timeout : duration;
  job_Enabled : bool;
  job_CreatedAt : time;
  job_UpdatedAt : time
}.

Record Run := mkRun {
  run_ID : string;
  run_JobID : string;
  run_BatchID : string;
  run_State : RunState;
  run_Attempt : Z;
  run_ScheduledFor : time;
  run_StartedAt : option time;
  run_FinishedAt : option time;
  run_LeaseExpiry : time;
  run_Worker : string;
  run_Error : string;
  run_CreatedAt : time;
  run_UpdatedAt : time
}.

Definition Job_Clone (j : Job) : Job :=
  mkJob (job_ID j) (job_Name j) (job_Spec j) ([] ++ job_Command j) (job_MaxRetries j)
    (job_Backoff j) ([] ++ job_DependsOn j) (job_Timeout j) (job_Enabled j)
    (job_CreatedAt j) (job_UpdatedAt j).

Definition Run_Clone (r : Run) : Run := r.

Lemma Job_Clone_id j : Job_Clone j = j.
Proof. by destruct j. Qed.

(** The zero values of the two structures. *)
Definition zero_policy : RetryPolicy := mkRetryPolicy 0 0 f_zero f_zero.
Definition zero_job : Job := mkJob "" "" "" [] 0 zero_policy [] 0 false zero_time zero_time.
Definition zero_run : Run :=
  mkRun "" "" "" "" 0 zero_time None None zero_time "" "" zero_time zero_time.

(** A freshly enqueued run, as the scheduler builds it in four places: every
    field not listed keeps its zero value. *)
Definition pending_run (id jobID batchID : string) (attempt : Z) (sched created : time) : Run :=
  mkRun id jobID batchID StatePending attempt sched None None zero_time "" "" created created.

#[export] Instance float64_eq_dec : EqDecision float64.
Proof. unfold float64. solve_decision. Defined.
#[export] Instance RetryPolicy_eq_dec : EqDecision RetryPolicy.
Proof. solve_decision. Defined.
#[export] Instance Job_eq_dec : EqDecision Job.
Proof. solve_decision. Defined.
#[export] Instance Run_eq_dec : EqDecision Run.
Proof. solve_decision. Defined.

Lemma Terminal_iff s :
  Terminal s = true <-> s = StateSucceeded \/ s = StateDead \/ s = StateSkipped.
Proof.
  unfold Terminal, terminalStates. split.
  - intros H. destruct (decide (s = StateSucceeded)); [by left|].
    destruct (decide (s = StateDead)); [by right; left|].
    destruct (decide (s = StateSkipped)); [by right; right|].
    cbn [list_to_map foldr fst snd uncurry] in H.
    rewrite !lookup_insert_ne, lookup_empty in H by done. done.
  - intros [-> |[-> | ->]]; done.
Qed.
