(* ===== verification/JobJson.v ===== *)
(** * Jobs as JSON

    The JSON names of the fields of [job.Job] and [job.RetryPolicy]
    ([src/internal/job/job.go]) and the decoding of a request body into a job, as
    [handleCreateJob] of [src/internal/api/jobs.go] does it. *)

From Stdlib Require Import ZArith String.
From stdpp Require Import base list strings.
From S2P Require Import Prelude GoTime GoStrings GoFloat GoJson GoRFC3339 Job.

#[local] Open Scope string_scope.
#[local] Open Scope list_scope.
#[local] Open Scope Z_scope.

Definition policy_field (name : string) : option (decoder RetryPolicy) :=
  if String.eqb name "base" then
    Some (via rp_Base (fun o x => mkRetryPolicy x (rp_Max o) (rp_Factor o) (rp_Jitter o)) into_int)
  else if String.eqb name "max" then
    Some (via rp_Max (fun o x => mkRetryPolicy (rp_Base o) x (rp_Factor o) (rp_Jitter o)) into_int)
  else if String.eqb name "factor" then
    Some (via rp_Factor (fun o x => mkRetryPolicy (rp_Base o) (rp_Max o) x (rp_Jitter o)) into_float)
  else if String.eqb name "jitter" then
    Some (via rp_Jitter (fun o x => mkRetryPolicy (rp_Base o) (rp_Max o) (rp_Factor o) x) into_float)
  else None.

Definition into_strings : decoder (list string) := into_slice "" into_string.

Definition domain_job_field (name : string) : option (decoder Job) :=
  if String.eqb name "id" then
    Some (via job_ID (fun o x => mkJob x (job_Name o) (job_Spec o) (job_Command o) (job_MaxRetries o)
      (job_Backoff o) (job_DependsOn o) (job_Timeout o) (job_Enabled o) (job_CreatedAt o)
      (job_UpdatedAt o)) into_string)
  else if String.eqb name "name" then
    Some (via job_Name (fun o x => mkJob (job_ID o) x (job_Spec o) (job_Command o) (job_MaxRetries o)
      (job_Backoff o) (job_DependsOn o) (job_Timeout o) (job_Enabled o) (job_CreatedAt o)
      (job_UpdatedAt o)) into_string)
  else if String.eqb name "spec" then
    Some (via job_Spec (fun o x => mkJob (job_ID o) (job_Name o) x (job_Command o) (job_MaxRetries o)
      (job_Backoff o) (job_DependsOn o) (job_Timeout o) (job_Enabled o) (job_CreatedAt o)
      (job_UpdatedAt o)) into_string)
  else if String.eqb name "command" then
    Some (via job_Command (fun o x => mkJob (job_ID o) (job_Name o) (job_Spec o) x (job_MaxRetries o)
      (job_Backoff o) (job_DependsOn o) (job_Timeout o) (job_Enabled o) (job_CreatedAt o)
      (job_UpdatedAt o)) into_strings)
  else if String.eqb name "max_retries" then
    Some (via job_MaxRetries (fun o x => mkJob (job_ID o) (job_Name o) (job_Spec o) (job_Command o) x
      (job_Backoff o) (job_DependsOn o) (job_Timeout o) (job_Enabled o) (job_CreatedAt o)
      (job_UpdatedAt o)) into_int)
  else if String.eqb name "backoff" then
    Some (via job_Backoff (fun o x => mkJob (job_ID o) (job_Name o) (job_Spec o) (job_Command o)
      (job_MaxRetries o) x (job_DependsOn o) (job_Timeout o) (job_Enabled o) (job_CreatedAt o)
      (job_UpdatedAt o)) (into_struct policy_field))
  else if String.eqb name "depends_on" then
    Some (via job_DependsOn (fun o x => mkJob (job_ID o) (job_Name o) (job_Spec o) (job_Command o)
      (job_MaxRetries o) (job_Backoff o) x (job_Timeout o) (job_Enabled o) (job_CreatedAt o)
      (job_UpdatedAt o)) into_strings)
  else if String.eqb name "timeout" then
    Some (via job_Timeout (fun o x => mkJob (job_ID o) (job_Name o) (job_Spec o) (job_Command o)
      (job_MaxRetries o) (job_Backoff o) (job_DependsOn o) x (job_Enabled o) (job_CreatedAt o)
      (job_UpdatedAt o)) into_int)
  else if String.eqb name "enabled" then
    Some (via job_Enabled (fun o x => mkJob (job_ID o) (job_Name o) (job_Spec o) (job_Command o)
      (job_MaxRetries o) (job_Backoff o) (job_DependsOn o) (job_Timeout o) x (job_CreatedAt o)
      (job_UpdatedAt o)) into_bool)
  else if String.eqb name "created_at" then
    Some (via job_CreatedAt (fun o x => mkJob (job_ID o) (job_Name o) (job_Spec o) (job_Command o)
      (job_MaxRetries o) (job_Backoff o) (job_DependsOn o) (job_Timeout o) (job_Enabled o) x
      (job_UpdatedAt o)) into_time)
  else if String.eqb name "updated_at" then
    Some (via job_UpdatedAt (fun o x => mkJob (job_ID o) (job_Name o) (job_Spec o) (job_Command o)
      (job_MaxRetries o) (job_Backoff o) (job_DependsOn o) (job_Timeout o) (job_Enabled o)
      (job_CreatedAt o) x) into_time)
  else None.

(** [json.NewDecoder(r.Body).Decode(&j)]. *)
Definition DecodeJob (body : string) : result decode_error Job :=
  decoded (into_struct domain_job_field) zero_job (first_json body).

Example decode_report :
  DecodeJob (quoted "{'id': 'report', 'spec': '0 2 * * *', 'command': ['./report.sh'], 'max_retries': 2,
    'backoff': {'base': 1000000000, 'factor': 2}, 'enabled': true, 'timeout': null,
    'created_at': '2026-05-01T10:00:00Z', 'owner': {}} trailing")
  = Ok (mkJob "report" "" "0 2 * * *" ["./report.sh"] 2 (mkRetryPolicy Second 0 f_two f_zero) [] 0 true
          (Date 2026 5 1 10 0 0 0 UTC) zero_time).
Proof. vm_compute. reflexivity. Qed.

Example decode_refused :
  map (fun s => DecodeJob (quoted s)) ["{'timeout': '30s'}"; "{'id': 1}"; "{'created_at': 5}"; "[]"; "{'id': 'x'"]
  = [Err BadType; Err BadType; Err BadType; Err BadType; Err (BadJSON SyntaxError)].
Proof. vm_compute. reflexivity. Qed.
