(* ===== verification/Dag.v ===== *)
(** * The dependency graph

    Models [src/internal/job/dag.go].  Go iterates over a map in an arbitrary
    order that may differ from one loop to the next: the order is a parameter,
    [iter k X] being the order in which the [k]-th loop visits the keys [X]. *)

From Stdlib Require Import ZArith Lia String.
From stdpp Require Import base list strings gmap sets sorting relations.
From S2P Require Import Prelude GoTime GoFloat Job.

#[local] Set Warnings "-clear-no-such-hyp".
#[local] Open Scope string_scope.
#[local] Open Scope list_scope.
#[local] Open Scope Z_scope.

(** A [map[string]bool] whose values are all true is the set of its keys. *)
Record Graph := mkGraph {
  nodes : gset string;
  parents : gmap string (gset string);
  children : gmap string (gset string)
}.

Definition NewGraph : Graph := mkGraph ∅ ∅ ∅.

(** [m[id] == nil] for an absent key, then [m[id] = map[string]bool{}]. *)
Definition ensure (id : string) (m : gmap string (gset string)) : gmap string (gset string) :=
  match m !! id with Some _ => m | None => <[id := ∅]> m end.

Definition AddNode (g : Graph) (id : string) : Graph :=
  mkGraph ({[id]} ∪ nodes g) (ensure id (parents g)) (ensure id (children g)).

(** [m[k][x] = true] where [m[k]] exists. *)
Definition add_to (m : gmap string (gset string)) (k x : string) : gmap string (gset string) :=
  <[k := {[x]} ∪ default ∅ (m !! k)]> m.

Definition AddEdge (g : Graph) (from to : string) : Graph :=
  let g := AddNode (AddNode g from) to in
  mkGraph (nodes g) (add_to (parents g) to from) (add_to (children g) from to).

(** The set [m[id]], empty when absent. *)
Definition links (m : gmap string (gset string)) (id : string) : gset string :=
  default ∅ (m !! id).

Inductive graph_error :=
| ErrCycle
| UnknownDependency (job dep : string)
| QueueBound (** the loop exceeded its bound; never returned *).

Section Iteration.
Context (iter : nat -> gset string -> list string).

Definition Dependencies (g : Graph) (id : string) : list string :=
  iter 0 (links (parents g) id).
Definition Dependents (g : Graph) (id : string) : list string :=
  iter 0 (links (children g) id).

(** One child of the node just ordered: its count of unordered dependencies
    drops, and at zero it joins the queue. *)
Definition visit_child (st : gmap string Z * list string) (child : string)
  : gmap string Z * list string :=
  let '(indeg, queue) := st in
  let d := default 0 (indeg !! child) - 1 in
  (<[child := d]> indeg, if d =? 0 then queue ++ [child] else queue).

(** [for len(queue) > 0]: sort, take the first, visit its children.  [k]
    numbers the loops over maps. *)
Fixpoint topo_loop (fuel : nat) (g : Graph) (k : nat) (indeg : gmap string Z)
  (queue order : list string) : option (list string) :=
  match merge_sort String.le queue with
  | [] => Some order
  | n :: queue =>
      match fuel with
      | O => None
      | S fuel =>
          let '(indeg, queue) :=
            foldl visit_child (indeg, queue) (iter k (links (children g) n)) in
          topo_loop fuel g (S k) indeg queue (order ++ [n])
      end
  end.

Definition init_indeg (g : Graph) : gmap string Z :=
  list_to_map (map (fun id => (id, Z.of_nat (size (links (parents g) id))))
                   (iter 0 (nodes g))).

Definition init_queue (g : Graph) : list string :=
  filter (fun id => init_indeg g !! id = Some 0) (iter 1 (nodes g)).

Definition TopoSort (g : Graph) : result graph_error (list string) :=
  match topo_loop (size (nodes g)) g 2 (init_indeg g) (init_queue g) [] with
  | None => Err QueueBound
  | Some order =>
      if decide (length order = size (nodes g)) then Ok order else Err ErrCycle
  end.

Definition addJobNode (g : Graph) (j : Job) : Graph := AddNode g (job_ID j).

(** The inner loop of [BuildGraph] over the dependencies of one job. *)
Fixpoint addDeps (known : gset string) (g : Graph) (id : string) (deps : list string)
  : result graph_error Graph :=
  match deps with
  | [] => Ok g
  | dep :: rest =>
      if decide (dep ∈ known) then addDeps known (AddEdge g dep id) id rest
      else Err (UnknownDependency id dep)
  end.

Fixpoint addJobs (known : gset string) (g : Graph) (jobs : list Job)
  : result graph_error Graph :=
  match jobs with
  | [] => Ok g
  | j :: rest =>
      let? g := addDeps known g (job_ID j) (job_DependsOn j) in
      addJobs known g rest
  end.

Definition BuildGraph (jobs : list Job) : result graph_error Graph :=
  let known : gset string := list_to_set (map job_ID jobs) in
  let? g := addJobs known (foldl addJobNode NewGraph jobs) jobs in
  let? _ := TopoSort g in
  Ok g.
End Iteration.

(** An executable iteration order. *)
Definition any_order (k : nat) (X : gset string) : list string := elements X.

Definition dep_job (id : string) (deps : list string) : Job :=
  mkJob id "" "" [] 0 zero_policy deps 0 true 0 0.

Definition order_of (jobs : list Job) : result graph_error (list string) :=
  let? g := BuildGraph any_order jobs in TopoSort any_order g.

Example diamond :
  order_of [dep_job "d" ["b"; "c"]; dep_job "c" ["a"]; dep_job "b" ["a"]; dep_job "a" []]
  = Ok ["a"; "b"; "c"; "d"].
Proof. vm_compute. done. Qed.
Example two_cycle : order_of [dep_job "a" ["b"]; dep_job "b" ["a"]] = Err ErrCycle.
Proof. vm_compute. done. Qed.
Example ghost : order_of [dep_job "a" ["ghost"]] = Err (UnknownDependency "a" "ghost").
Proof. vm_compute. done. Qed.

(** ** The graph invariant *)

(** [edge g a b]: [b] depends on [a]. *)
Definition edge (g : Graph) (a b : string) : Prop := a ∈ links (parents g) b.

Record wf_graph (g : Graph) : Prop := {
  wf_converse a b : b ∈ links (children g) a <-> edge g a b;
  wf_ends a b : edge g a b -> a ∈ nodes g /\ b ∈ nodes g
}.

Lemma links_ensure m id k : links (ensure id m) k = links m k.
Proof.
  unfold links, ensure. destruct (m !! id) eqn:E; [done|].
  destruct (decide (id = k)) as [->|Hne].
  - by rewrite lookup_insert_eq, E.
  - by rewrite lookup_insert_ne.
Qed.

Lemma links_add_to m k x k' :
  links (add_to m k x) k' = if decide (k = k') then {[x]} ∪ links m k' else links m k'.
Proof.
  unfold links, add_to. case_decide; subst.
  - by rewrite lookup_insert_eq.
  - by rewrite lookup_insert_ne.
Qed.

Lemma edge_AddNode g id a b : edge (AddNode g id) a b <-> edge g a b.
Proof. unfold edge. simpl. by rewrite links_ensure. Qed.

Lemma edge_AddEdge g from to a b :
  edge (AddEdge g from to) a b <-> edge g a b \/ (a = from /\ b = to).
Proof.
  unfold edge, AddEdge. simpl. rewrite links_add_to, !links_ensure.
  case_decide; set_solver.
Qed.

Lemma wf_NewGraph : wf_graph NewGraph.
Proof.
  split; unfold edge, links; simpl; intros a b; rewrite !lookup_empty; set_solver.
Qed.

Lemma wf_AddNode g id : wf_graph g -> wf_graph (AddNode g id).
Proof.
  intros [Hc He]. split; intros a b; rewrite edge_AddNode; simpl.
  - by rewrite links_ensure.
  - intros H. apply He in H. set_solver.
Qed.

Lemma wf_AddEdge g from to : wf_graph g -> wf_graph (AddEdge g from to).
Proof.
  intros [Hc He]. split; intros a b; rewrite edge_AddEdge; simpl.
  - rewrite links_add_to, !links_ensure. specialize (Hc a b).
    case_decide; set_solver.
  - intros [H|[-> ->]]; [apply He in H|]; set_solver.
Qed.

(** ** Topological sorting *)

(** Dependencies of [n] that are not in [order]. *)
Definition unmet (g : Graph) (order : list string) (n : string) : gset string :=
  links (parents g) n ∖ list_to_set order.

(** A node that may come next: its dependencies are all in [order]. *)
Definition ready (g : Graph) (order : list string) (n : string) : Prop :=
  n ∈ nodes g /\ unmet g order n = ∅.

(** Every element comes after its dependencies and is the least of the nodes
    that could have taken its place. *)
Definition greedy (g : Graph) (order : list string) : Prop :=
  forall pre x post, order = pre ++ x :: post ->
    ready g pre x /\ forall y, ready g pre y -> (y ∉ pre) -> String.le x y.

Lemma unmet_snoc g order n c :
  unmet g (order ++ [n]) c = unmet g order c ∖ {[n]}.
Proof. unfold unmet. set_solver. Qed.

Lemma unmet_nil g n : unmet g [] n = links (parents g) n.
Proof. unfold unmet. set_solver. Qed.

(** The inner loop, for children without repetition. *)
Lemma visit_children cs indeg queue :
  NoDup cs ->
  foldl visit_child (indeg, queue) cs
  = (foldr (fun c m => <[c := default 0 (indeg !! c) - 1]> m) indeg cs,
     queue ++ filter (fun c => default 0 (indeg !! c) = 1) cs).
Proof.
  intros Hnd. revert indeg queue. induction Hnd as [|c cs Hc Hnd IH]; intros indeg queue.
  { simpl. by rewrite app_nil_r. }
  cbn [foldl]. unfold visit_child at 2. rewrite IH. f_equal.
  - cbn [foldr]. clear IH Hnd. induction cs as [|c' cs IH]; simpl; [done|].
    apply not_elem_of_cons in Hc as [Hne Hc].
    rewrite lookup_insert_ne by done. rewrite IH by done.
    by rewrite insert_insert_ne.
  - rewrite filter_cons.
    assert (filter (fun c0 => default 0 (<[c := default 0 (indeg !! c) - 1]> indeg !! c0) = 1) cs
            = filter (fun c0 => default 0 (indeg !! c0) = 1) cs) as ->.
    { apply list_filter_ext. intros c' Hc'.
      rewrite lookup_insert_ne; [done|]. by intros ->. }
    destruct (Z.eqb_spec (default 0 (indeg !! c) - 1) 0); case_decide; try lia.
    + by rewrite <-app_assoc.
    + done.
Qed.

Lemma lookup_visited (indeg m : gmap string Z) cs c :
  foldr (fun c m => <[c := default 0 (indeg !! c) - 1]> m) m cs !! c
  = if decide (c ∈ cs) then Some (default 0 (indeg !! c) - 1) else m !! c.
Proof.
  induction cs as [|c' cs IH]; simpl; [done|].
  destruct (decide (c' = c)) as [->|Hne].
  - rewrite lookup_insert_eq. rewrite decide_True; [done|by left].
  - rewrite lookup_insert_ne, IH by done.
    repeat case_decide; set_solver.
Qed.

Lemma list_snoc_inv_or {A} (l : list A) : l = [] \/ exists l' x, l = l' ++ [x].
Proof. induction l using rev_ind; [by left|right; eauto]. Qed.

Section TopoSort.
Context (iter : nat -> gset string -> list string).
Context (Hiter : forall k X, iter k X ≡ₚ elements X).
Context (g : Graph) (Hwf : wf_graph g).

(** [set_solver] without the hypotheses of the section. *)
Ltac sets :=
  repeat match goal with
    | H : wf_graph _ |- _ => clear H
    | H : context [@elements] |- _ => clear H
    | H : context [@merge_sort] |- _ => clear H
    end; set_solver.

Lemma iter_NoDup k X : NoDup (iter k X).
Proof. rewrite Hiter. apply NoDup_elements. Qed.

Lemma elem_of_iter k X x : x ∈ iter k X <-> x ∈ X.
Proof. rewrite Hiter. apply elem_of_elements. Qed.

(** Between two rounds: the counts are those of the unmet dependencies, and
    queue and order together hold exactly the nodes that are ready. *)
Record topo_inv (indeg : gmap string Z) (queue order : list string) : Prop := {
  ti_nodup : NoDup (order ++ queue);
  ti_indeg n : n ∈ nodes g -> indeg !! n = Some (Z.of_nat (size (unmet g order n)));
  ti_ready n : n ∈ order ++ queue <-> ready g order n;
  ti_greedy : greedy g order
}.

Lemma init_indeg_spec n :
  n ∈ nodes g -> init_indeg iter g !! n = Some (Z.of_nat (size (links (parents g) n))).
Proof.
  intros Hn. unfold init_indeg. apply elem_of_list_to_map_1.
  - rewrite <-list_fmap_compose, list_fmap_id. apply iter_NoDup.
  - apply list_elem_of_In, in_map_iff. exists n. split; [done|].
    by apply list_elem_of_In, elem_of_iter.
Qed.

Lemma ready_nil n : ready g [] n <-> n ∈ nodes g /\ links (parents g) n = ∅.
Proof. unfold ready. by rewrite unmet_nil. Qed.

Lemma topo_inv_init : topo_inv (init_indeg iter g) (init_queue iter g) [].
Proof.
  split; simpl.
  - apply NoDup_filter, iter_NoDup.
  - intros n Hn. rewrite init_indeg_spec by done. by rewrite unmet_nil.
  - intros n. rewrite ready_nil. unfold init_queue.
    rewrite list_elem_of_filter, elem_of_iter.
    split.
    + intros [H1 H2]. rewrite init_indeg_spec in H1 by done. split; [done|].
      apply leibniz_equiv, size_empty_inv. injection H1. lia.
    + intros [H1 H2]. split; [|done]. rewrite init_indeg_spec, H2 by done.
      by rewrite size_empty.
  - intros [|? ?] x post; done.
Qed.

Lemma ready_snoc order n m :
  ready g (order ++ [n]) m <-> m ∈ nodes g /\ unmet g order m ⊆ {[n]}.
Proof.
  unfold ready. rewrite unmet_snoc. split; intros [H1 H2]; (split; [done|]).
  - by apply empty_difference_subseteq_L.
  - by apply subseteq_empty_difference_L.
Qed.

(** A child of a node that is taken from the queue has it as its only unmet
    dependency exactly when its count is one. *)
Lemma unmet_one order n m :
  (n ∉ order) -> edge g n m -> size (unmet g order m) = 1%nat <-> unmet g order m ⊆ {[n]}.
Proof.
  intros Hn He. assert (n ∈ unmet g order m) as Hin by (unfold unmet; sets).
  split.
  - intros [x Hx%leibniz_equiv]%size_1_elem_of. rewrite Hx in Hin |- *.
    apply elem_of_singleton in Hin as ->. done.
  - intros Hsub. assert (unmet g order m = {[n]}) as -> by set_solver +Hin Hsub.
    by rewrite size_singleton.
Qed.

Section Step.
Context (k : nat) (indeg : gmap string Z) (queue order : list string).
Context (Hinv : topo_inv indeg queue order).
Context (n : string) (q : list string) (Hsort : merge_sort String.le queue = n :: q).

Definition cs : list string := iter k (links (children g) n).
Definition woken : list string := filter (fun c => default 0 (indeg !! c) = 1) cs.

Lemma queue_perm : queue ≡ₚ n :: q.
Proof. rewrite <-Hsort. symmetry. apply merge_sort_Permutation. Qed.

Lemma n_new : n ∉ order.
Proof.
  pose proof (ti_nodup _ _ _ Hinv) as Hnd. rewrite queue_perm in Hnd.
  apply NoDup_app in Hnd as (_ & Hd & _). intros Hn. apply (Hd n Hn). by left.
Qed.

Lemma n_ready : ready g order n.
Proof.
  apply (ti_ready _ _ _ Hinv). rewrite queue_perm. sets.
Qed.

Lemma elem_of_cs c : c ∈ cs <-> edge g n c.
Proof. unfold cs. rewrite elem_of_iter. apply (wf_converse g Hwf). Qed.

Lemma elem_of_woken c :
  c ∈ woken <-> edge g n c /\ unmet g order c ⊆ {[n]}.
Proof.
  unfold woken. rewrite list_elem_of_filter, elem_of_cs.
  split; intros [H1 H2]; [split; [done|]|split; [|done]].
  - destruct (wf_ends g Hwf _ _ H2) as [_ Hc].
    rewrite (ti_indeg _ _ _ Hinv c Hc) in H1. simpl in H1.
    apply unmet_one; [apply n_new|done|lia].
  - destruct (wf_ends g Hwf _ _ H1) as [_ Hc].
    rewrite (ti_indeg _ _ _ Hinv c Hc). simpl.
    apply (unmet_one order n c n_new H1) in H2. lia.
Qed.

Lemma step_members m :
  m ∈ (order ++ [n]) ++ (q ++ woken) <-> ready g (order ++ [n]) m.
Proof.
  assert (m ∈ (order ++ [n]) ++ (q ++ woken) <-> m ∈ order ++ queue \/ m ∈ woken) as ->
    by (rewrite queue_perm; sets).
  rewrite (ti_ready _ _ _ Hinv m), ready_snoc, elem_of_woken. unfold ready. split.
  - intros [[H1 H2]|[H1 H2]]; [sets|].
    destruct (wf_ends g Hwf _ _ H1). done.
  - intros [H1 H2]. destruct (decide (n ∈ links (parents g) m)) as [He|Hne].
    + right. done.
    + left. split; [done|]. unfold unmet in *. sets.
Qed.

Lemma step_nodup : NoDup ((order ++ [n]) ++ (q ++ woken)).
Proof.
  rewrite <-(app_assoc order), (app_assoc [n] q woken), app_assoc.
  change ([n] ++ q) with (n :: q). rewrite <-queue_perm.
  apply NoDup_app. split; [apply (ti_nodup _ _ _ Hinv)|]. split.
  - intros m Hm Hw. apply (ti_ready _ _ _ Hinv) in Hm as [_ Hm].
    apply elem_of_woken in Hw as [Hw _]. pose proof n_new. unfold unmet, edge in *.
    sets.
  - apply NoDup_filter, iter_NoDup.
Qed.

Lemma step_counts m :
  m ∈ nodes g ->
  foldr (fun c m => <[c := default 0 (indeg !! c) - 1]> m) indeg cs !! m
  = Some (Z.of_nat (size (unmet g (order ++ [n]) m))).
Proof.
  intros Hm. rewrite lookup_visited, (ti_indeg _ _ _ Hinv m Hm), unmet_snoc. simpl.
  destruct (decide (m ∈ cs)) as [Hc|Hc].
  - apply elem_of_cs in Hc. pose proof n_new.
    assert ({[n]} ⊆ unmet g order m) as Hsub by (unfold unmet, edge in *; sets).
    rewrite size_difference, size_singleton by done.
    apply subseteq_size in Hsub. rewrite size_singleton in Hsub. f_equal. lia.
  - rewrite elem_of_cs in Hc. f_equal. f_equal. f_equal.
    unfold unmet, edge in *. sets.
Qed.

Lemma step_greedy : greedy g (order ++ [n]).
Proof.
  intros pre x post Heq.
  destruct (list_snoc_inv_or post) as [->|(post' & y & ->)].
  - apply app_inj_tail in Heq as [<- <-]. split; [apply n_ready|].
    intros y Hy Hny. apply (ti_ready _ _ _ Hinv) in Hy.
    rewrite queue_perm in Hy.
    assert (StronglySorted String.le (n :: q)) as Hss.
    { rewrite <-Hsort. apply (StronglySorted_merge_sort _). }
    apply StronglySorted_inv in Hss as [_ Hall].
    apply elem_of_app in Hy as [|[->|Hy]%elem_of_cons]; [done|done|].
    rewrite Forall_forall in Hall. by apply Hall.
  - rewrite app_comm_cons, app_assoc in Heq.
    apply app_inj_tail in Heq as [-> _]. by apply (ti_greedy _ _ _ Hinv _ _ post').
Qed.

Lemma topo_inv_step :
  topo_inv (foldl visit_child (indeg, q) cs).1 (foldl visit_child (indeg, q) cs).2
    (order ++ [n]).
Proof.
  rewrite visit_children by apply iter_NoDup. fold woken.
  split; [apply step_nodup|apply step_counts|apply step_members|apply step_greedy].
Qed.
End Step.

Lemma topo_loop_spec fuel k indeg queue order :
  topo_inv indeg queue order -> (size (nodes g) <= fuel + length order)%nat ->
  exists indeg' order', topo_loop iter fuel g k indeg queue order = Some order'
    /\ topo_inv indeg' [] order'.
Proof.
  revert k indeg queue order. induction fuel as [|fuel IH];
    intros k indeg queue order Hinv Hfuel; cbn [topo_loop];
    destruct (merge_sort String.le queue) as [|n q] eqn:Hs.
  1, 3: exists indeg, order; split; [done|];
    assert (queue = []) as <-; [|done];
    apply Permutation_nil_r; rewrite <-Hs; symmetry; apply merge_sort_Permutation.
  - exfalso. pose proof (ti_nodup _ _ _ Hinv) as Hnd.
    assert (length (order ++ queue) <= size (nodes g))%nat as Hle.
    { apply NoDup_length_le; [done|]. intros x Hx.
      apply (ti_ready _ _ _ Hinv) in Hx as [Hx _]. done. }
    rewrite (queue_perm _ _ _ Hs) in Hle. rewrite length_app in Hle. simpl in Hle. lia.
  - pose proof (topo_inv_step k _ _ _ Hinv _ _ Hs) as Hst. unfold cs in Hst.
    destruct (foldl visit_child _ _) as [indeg' queue'].
    apply IH; [done|]. rewrite length_app. simpl. lia.
Qed.

(** *** The result *)

Lemma TopoSort_cases :
  (exists order, TopoSort iter g = Ok order /\ NoDup order
     /\ (forall n, n ∈ order <-> n ∈ nodes g) /\ greedy g order)
  \/ (TopoSort iter g = Err ErrCycle
      /\ exists X : gset string, X <> ∅ /\ forall x, x ∈ X -> exists y, y ∈ X /\ edge g y x).
Proof.
  unfold TopoSort.
  destruct (topo_loop_spec (size (nodes g)) 2 _ _ _ topo_inv_init) as (indeg & order & -> & Hinv);
    [simpl; lia|].
  destruct Hinv as [Hnd _ Hr Hg]. rewrite app_nil_r in Hnd.
  setoid_rewrite app_nil_r in Hr.
  assert (list_to_set order ⊆ nodes g) as Hsub.
  { intros x Hx%elem_of_list_to_set. by apply Hr in Hx as [Hx _]. }
  destruct (decide (length order = size (nodes g))) as [Hlen|Hlen].
  - left. exists order. split; [done|]. split; [done|]. split; [|done]. intros n.
    assert (list_to_set order = nodes g) as <-; [|by rewrite elem_of_list_to_set].
    apply (set_subseteq_size_eq _ _); [done|]. rewrite size_list_to_set by done. lia.
  - right. split; [done|]. exists (nodes g ∖ list_to_set order). split.
    + intros He%empty_difference_subseteq_L. apply Hlen.
      rewrite <-(size_list_to_set (C := gset string) order Hnd). f_equal. set_solver +He Hsub.
    + intros x Hx. apply elem_of_difference in Hx as [Hx Hxo].
      rewrite elem_of_list_to_set in Hxo.
      destruct (set_choose_or_empty (unmet g order x)) as [[y Hy]|He].
      * exists y. unfold unmet in Hy. apply elem_of_difference in Hy as [Hy Hyo].
        split; [|done]. apply elem_of_difference. split; [|done].
        by destruct (wf_ends g Hwf y x Hy).
      * exfalso. apply Hxo, Hr. split; [done|]. by apply leibniz_equiv.
Qed.
End TopoSort.

(** ** Orders and cycles *)

(** Along a greedy order, edges go forward. *)
Lemma greedy_edge g order a b :
  greedy g order -> edge g a b -> b ∈ order ->
  exists i j, order !! i = Some a /\ order !! j = Some b /\ (i < j)%nat.
Proof.
  intros Hg He (pre & post & ->)%list_elem_of_split.
  destruct (Hg pre b post eq_refl) as [[_ Hu] _].
  assert (a ∈ pre) as (i & Hi)%list_elem_of_lookup.
  { unfold unmet in Hu. apply empty_difference_subseteq_L in Hu.
    by apply Hu, elem_of_list_to_set in He. }
  exists i, (length pre). pose proof (lookup_lt_Some _ _ _ Hi).
  rewrite lookup_app_l, Hi by done. split; [done|]. split; [|done].
  rewrite lookup_app_r, Nat.sub_diag by lia. done.
Qed.

Lemma greedy_tc g order a b :
  greedy g order -> NoDup order -> (forall n, n ∈ nodes g -> n ∈ order) -> wf_graph g ->
  tc (edge g) a b ->
  exists i j, order !! i = Some a /\ order !! j = Some b /\ (i < j)%nat.
Proof.
  intros Hg Hnd Hall Hwf. induction 1 as [a b He|a b c He _ IH].
  - apply (greedy_edge g); [done..|]. apply Hall. by destruct (wf_ends g Hwf _ _ He).
  - destruct IH as (i & j & Hi & Hj & Hlt).
    destruct (greedy_edge g order a b) as (i' & j' & Hi' & Hj' & Hlt'); [done..| |].
    { apply Hall. by destruct (wf_ends g Hwf _ _ He). }
    exists i', j. assert (j' = i) as -> by (by eapply NoDup_lookup). split_and!; (done || lia).
Qed.

(** A finite set in which every element has a predecessor contains a cycle. *)
Section Cycle.
Context (E : relation string) (X : gset string).
Context (Hpred : forall x, x ∈ X -> exists y, y ∈ X /\ E y x).

Inductive chain : list string -> Prop :=
| chain_nil : chain []
| chain_cons x l : (forall y, y ∈ l -> tc E y x) -> chain l -> chain (x :: l).

Lemma long_chain n x :
  x ∈ X -> exists l, length l = n /\ chain l /\ forall y, y ∈ l -> y ∈ X /\ tc E y x.
Proof.
  revert x. induction n as [|n IH]; intros x Hx.
  { exists []. split; [done|]. split; [constructor|]. set_solver. }
  destruct (Hpred x Hx) as (y & Hy & He). destruct (IH y Hy) as (l & Hl & Hc & Hall).
  exists (y :: l). split; [simpl; lia|]. split; [constructor; [|done]|].
  - intros z Hz. by apply Hall.
  - intros z [->|Hz]%elem_of_cons; [split; [done|by constructor]|].
    destruct (Hall z Hz) as [Hz1 Hz2]. split; [done|].
    eapply tc_r; done.
Qed.

Lemma chain_NoDup l : chain l -> NoDup l \/ exists x, tc E x x.
Proof.
  induction 1 as [|x l Hx Hc IH]; [left; constructor|].
  destruct (decide (x ∈ l)) as [Hin|Hni]; [right; eauto|].
  destruct IH as [IH|IH]; [left; by constructor|by right].
Qed.

Lemma no_source_cycle : X <> ∅ -> exists x, tc E x x.
Proof.
  intros Hne. apply set_choose_L in Hne as [x Hx].
  destruct (long_chain (S (size X)) x Hx) as (l & Hl & Hc & Hall).
  destruct (chain_NoDup l Hc) as [Hnd|?]; [|done]. exfalso.
  assert (length l <= size X)%nat; [|lia].
  apply NoDup_length_le; [done|]. intros y Hy. by apply Hall.
Qed.
End Cycle.

Definition acyclic (g : Graph) : Prop := forall x, ~ tc (edge g) x x.

Lemma greedy_acyclic g order :
  wf_graph g -> NoDup order -> (forall n, n ∈ order <-> n ∈ nodes g) -> greedy g order ->
  acyclic g.
Proof.
  intros Hwf Hnd Hall Hg x Hx.
  destruct (greedy_tc g order x x Hg Hnd) as (i & j & Hi & Hj & Hlt); [|done..|].
  { intros n Hn. by apply Hall. }
  assert (i = j) by (by eapply NoDup_lookup). lia.
Qed.

(** Two greedy orders of the same nodes agree. *)
Lemma greedy_unique_aux g pre o1 o2 :
  greedy g (pre ++ o1) -> greedy g (pre ++ o2) -> NoDup (pre ++ o1) -> NoDup (pre ++ o2) ->
  length o1 = length o2 -> o1 = o2.
Proof.
  revert pre o2. induction o1 as [|x1 o1 IH]; intros pre [|x2 o2] Hg1 Hg2 Hn1 Hn2 Hlen;
    try done.
  assert ((x1 ∉ pre) /\ x2 ∉ pre) as [Hx1 Hx2].
  { apply NoDup_app in Hn1 as (_ & Hd1 & _), Hn2 as (_ & Hd2 & _).
    split; intros Hin; [apply (Hd1 _ Hin)|apply (Hd2 _ Hin)]; by left. }
  destruct (Hg1 pre x1 o1 eq_refl) as [Hr1 Hl1], (Hg2 pre x2 o2 eq_refl) as [Hr2 Hl2].
  assert (x1 = x2) as -> by (apply (anti_symm String.le); auto).
  f_equal. apply (IH (pre ++ [x2])).
  all: try (rewrite <-app_assoc; done). simpl in Hlen. lia.
Qed.

(** ** Building the graph of a set of jobs *)

(** [a] is declared as a dependency of [b]. *)
Definition declared (jobs : list Job) (a b : string) : Prop :=
  exists j, j ∈ jobs /\ job_ID j = b /\ a ∈ job_DependsOn j.

Lemma nodes_AddEdge g a b : a ∈ nodes g -> b ∈ nodes g -> nodes (AddEdge g a b) = nodes g.
Proof. intros. unfold AddEdge. simpl. set_solver. Qed.

Lemma addDeps_spec known g id deps :
  wf_graph g -> known ⊆ nodes g -> id ∈ nodes g ->
  match addDeps known g id deps with
  | Ok g' => wf_graph g' /\ nodes g' = nodes g /\ (forall d, d ∈ deps -> d ∈ known)
             /\ forall a b, edge g' a b <-> edge g a b \/ (a ∈ deps /\ b = id)
  | Err e => exists d, d ∈ deps /\ (d ∉ known) /\ e = UnknownDependency id d
  end.
Proof.
  revert g. induction deps as [|d deps IH]; intros g Hwf Hk Hid; simpl.
  { split_and!; [done|done|set_solver|]. set_solver. }
  destruct (decide (d ∈ known)) as [Hd|Hd]; [|exists d; set_solver].
  assert (nodes (AddEdge g d id) = nodes g) as Hn by (apply nodes_AddEdge; set_solver).
  specialize (IH (AddEdge g d id) (wf_AddEdge _ _ _ Hwf)). rewrite Hn in IH.
  specialize (IH Hk Hid). destruct (addDeps _ _ _ _) as [g'|e].
  - destruct IH as (Hwf' & Hn' & Hall & He). split_and!; [done|done|set_solver|].
    intros a b. rewrite He, edge_AddEdge. set_solver.
  - destruct IH as (d' & Hd' & Hk' & ->). exists d'. set_solver.
Qed.

Lemma addJobs_spec known g jobs :
  wf_graph g -> known ⊆ nodes g -> (forall j, j ∈ jobs -> job_ID j ∈ nodes g) ->
  match addJobs known g jobs with
  | Ok g' => wf_graph g' /\ nodes g' = nodes g
             /\ (forall a b, declared jobs a b -> a ∈ known)
             /\ forall a b, edge g' a b <-> edge g a b \/ declared jobs a b
  | Err e => exists d id, declared jobs d id /\ (d ∉ known) /\ e = UnknownDependency id d
  end.
Proof.
  unfold declared.
  revert g. induction jobs as [|j jobs IH]; intros g Hwf Hk Hid; simpl.
  { split_and!; [done|done|set_solver|]. set_solver. }
  pose proof (addDeps_spec known g (job_ID j) (job_DependsOn j) Hwf Hk
                (Hid j ltac:(by left))) as Hd.
  destruct (addDeps _ _ _ _) as [g1|e].
  - destruct Hd as (Hwf1 & Hn1 & Hall1 & He1). specialize (IH g1 Hwf1).
    rewrite Hn1 in IH. specialize (IH Hk ltac:(intros j' Hj'; apply Hid; by right)).
    destruct (addJobs _ _ _) as [g2|e].
    + destruct IH as (Hwf2 & Hn2 & Hall2 & He2). split_and!; [done|done|set_solver|].
      intros a b. rewrite He2, He1. set_solver.
    + destruct IH as (d & id & (j' & Hj' & Hb & Ha) & Hnk & ->).
      exists d, id. split; [|done]. exists j'. set_solver.
  - destruct Hd as (d & Hd & Hnk & ->). exists d, (job_ID j). split; [|done].
    exists j. set_solver.
Qed.

Lemma initial_nodes jobs g :
  wf_graph g ->
  wf_graph (foldl addJobNode g jobs)
  /\ nodes (foldl addJobNode g jobs) = nodes g ∪ list_to_set (map job_ID jobs)
  /\ forall a b, edge (foldl addJobNode g jobs) a b <-> edge g a b.
Proof.
  revert g. induction jobs as [|j jobs IH]; intros g Hwf; simpl.
  { split_and!; [done|set_solver|done]. }
  destruct (IH (addJobNode g j) (wf_AddNode _ _ Hwf)) as (H1 & H2 & H3).
  split_and!; [done| |].
  - rewrite H2. unfold addJobNode. simpl. set_solver.
  - intros a b. rewrite H3. apply edge_AddNode.
Qed.

(** ** Main theorems *)

(** C12: whatever the iteration order of maps, [TopoSort] returns every node
    exactly once with each edge pointing forward, or [ErrCycle], and it returns
    [ErrCycle] exactly when the graph has a cycle. *)
Theorem TopoSort_correct (iter : nat -> gset string -> list string) (g : Graph) :
  (forall k X, iter k X ≡ₚ elements X) -> wf_graph g ->
  match TopoSort iter g with
  | Ok order => order ≡ₚ elements (nodes g) /\ acyclic g
      /\ forall a b, edge g a b ->
           exists i j, order !! i = Some a /\ order !! j = Some b /\ (i < j)%nat
  | Err e => e = ErrCycle /\ exists x, tc (edge g) x x
  end.
Proof.
  intros Hiter Hwf. destruct (TopoSort_cases iter Hiter g Hwf)
    as [(order & -> & Hnd & Hall & Hg)|(-> & X & Hne & Hp)].
  - split; [|split].
    + apply NoDup_Permutation; [done|apply NoDup_elements|].
      intros x. by rewrite elem_of_elements.
    + by eapply greedy_acyclic.
    + intros a b He. apply (greedy_edge g); [done..|]. apply Hall.
      by destruct (wf_ends g Hwf _ _ He).
  - split; [done|]. by apply (no_source_cycle (edge g) X Hp).
Qed.

Lemma TopoSort_correct_witness :
  ["a"; "b"] ≡ₚ elements (nodes (AddEdge NewGraph "a" "b"))
  /\ acyclic (AddEdge NewGraph "a" "b")
  /\ forall a b, edge (AddEdge NewGraph "a" "b") a b ->
       exists i j, ["a"; "b"] !! i = Some a /\ ["a"; "b"] !! j = Some b /\ (i < j)%nat.
Proof.
  apply (TopoSort_correct any_order (AddEdge NewGraph "a" "b")).
  - intros k X. reflexivity.
  - apply wf_AddEdge, wf_NewGraph.
Defined.

(** C23: the order does not depend on the iteration order of maps: each element
    is the least, in the order of strings, of the nodes whose dependencies are
    already placed. *)
Theorem TopoSort_deterministic (iter1 iter2 : nat -> gset string -> list string) (g : Graph) :
  (forall k X, iter1 k X ≡ₚ elements X) -> (forall k X, iter2 k X ≡ₚ elements X) ->
  wf_graph g ->
  TopoSort iter1 g = TopoSort iter2 g
  /\ match TopoSort iter1 g with Ok order => greedy g order | Err _ => True end.
Proof.
  intros H1 H2 Hwf.
  destruct (TopoSort_cases iter1 H1 g Hwf)
    as [(o1 & -> & Hnd1 & Hall1 & Hg1)|(-> & X1 & Hne1 & Hp1)],
    (TopoSort_cases iter2 H2 g Hwf)
    as [(o2 & -> & Hnd2 & Hall2 & Hg2)|(-> & X2 & Hne2 & Hp2)]; [| | |done].
  - split; [|done]. f_equal. apply (greedy_unique_aux g []); [done..|].
    apply Permutation_length, NoDup_Permutation; [done..|].
    intros x. by rewrite Hall1, Hall2.
  - exfalso. destruct (no_source_cycle (edge g) X2 Hp2 Hne2) as [x Hx].
    by apply (greedy_acyclic g o1 Hwf Hnd1 Hall1 Hg1 x).
  - exfalso. destruct (no_source_cycle (edge g) X1 Hp1 Hne1) as [x Hx].
    by apply (greedy_acyclic g o2 Hwf Hnd2 Hall2 Hg2 x).
Qed.

Lemma TopoSort_deterministic_witness :
  TopoSort any_order (AddEdge NewGraph "a" "b")
  = TopoSort (fun _ X => reverse (elements X)) (AddEdge NewGraph "a" "b")
  /\ greedy (AddEdge NewGraph "a" "b") ["a"; "b"].
Proof.
  apply (TopoSort_deterministic any_order (fun _ X => reverse (elements X))).
  - intros k X. reflexivity.
  - intros k X. apply reverse_Permutation.
  - apply wf_AddEdge, wf_NewGraph.
Defined.

Lemma tc_mono {A} (R S : relation A) x y :
  (forall a b, R a b -> S a b) -> tc R x y -> tc S x y.
Proof. intros Hsub. induction 1; [apply tc_once; auto|eapply tc_l; eauto]. Qed.

(** What [BuildGraph] answers, case by case. *)
Lemma BuildGraph_cases (iter : nat -> gset string -> list string) (jobs : list Job) :
  (forall k X, iter k X ≡ₚ elements X) ->
  match BuildGraph iter jobs with
  | Ok g => wf_graph g /\ nodes g = list_to_set (map job_ID jobs)
      /\ (forall a b, edge g a b <-> declared jobs a b)
      /\ (forall x, ~ tc (declared jobs) x x)
      /\ forall a b, declared jobs a b -> a ∈ map job_ID jobs
  | Err (UnknownDependency id dep) => declared jobs dep id /\ dep ∉ map job_ID jobs
  | Err ErrCycle => exists x, tc (declared jobs) x x
  | Err QueueBound => False
  end.
Proof.
  intros Hiter. unfold BuildGraph.
  destruct (initial_nodes jobs NewGraph wf_NewGraph) as (Hw0 & Hn0 & He0).
  set (known := list_to_set (map job_ID jobs) : gset string) in *.
  assert (forall a b, edge NewGraph a b <-> False) as Hnone
    by (intros a b; unfold edge, links; simpl; rewrite lookup_empty; set_solver).
  assert (nodes (foldl addJobNode NewGraph jobs) = known) as Hn by (rewrite Hn0; set_solver).
  pose proof (addJobs_spec known (foldl addJobNode NewGraph jobs) jobs Hw0) as Hs.
  rewrite Hn in Hs. specialize (Hs ltac:(done)). destruct (addJobs _ _ _) as [g|e].
  2:{ destruct Hs as (d & id & Hd & Hnk & ->).
      { intros j Hj. apply elem_of_list_to_set. by apply list_elem_of_fmap_2. }
      split; [done|]. unfold known in Hnk. by rewrite elem_of_list_to_set in Hnk. }
  destruct Hs as (Hwf & Hng & Hall & He).
  { intros j Hj. apply elem_of_list_to_set. by apply list_elem_of_fmap_2. }
  assert (forall a b, edge g a b <-> declared jobs a b) as Hed.
  { intros a b. rewrite He, He0, Hnone. tauto. }
  assert (forall x, tc (edge g) x x <-> tc (declared jobs) x x) as Htc.
  { intros x. split; apply tc_mono; intros a b; apply Hed. }
  destruct (TopoSort_cases iter Hiter g Hwf)
    as [(order & -> & Hnd & Hmem & Hg)|(-> & X & Hne & Hp)].
  - split_and!; [done|done|done| |].
    + intros x Hx%Htc. by apply (greedy_acyclic g order Hwf Hnd Hmem Hg x).
    + intros a b Hab%Hall. unfold known in Hab. by rewrite elem_of_list_to_set in Hab.
  - destruct (no_source_cycle (edge g) X Hp Hne) as [x Hx]. exists x. by apply Htc.
Qed.

(** The job sets that are accepted. *)
Lemma BuildGraph_accepts (iter : nat -> gset string -> list string) (jobs : list Job) :
  (forall k X, iter k X ≡ₚ elements X) ->
  is_ok (BuildGraph iter jobs) = true <->
  (forall a b, declared jobs a b -> a ∈ map job_ID jobs) /\ (forall x, ~ tc (declared jobs) x x).
Proof.
  intros Hiter. pose proof (BuildGraph_cases iter jobs Hiter) as Hc.
  destruct (BuildGraph iter jobs) as [g|[]]; cbn; split; try done; [tauto|..].
  - intros [_ Hno]. destruct Hc as [x Hx]. by destruct (Hno x).
  - intros [Hk _]. destruct Hc as [Hd Hn]. destruct Hn. by eapply Hk.
Qed.

(** C13: [BuildGraph] accepts a set of jobs exactly when every declared
    dependency is a known job and the declared dependencies have no cycle; the
    graph then has the jobs as nodes and the declarations as edges.  Otherwise
    the error names an unknown dependency, or is [ErrCycle] and there is a cycle
    of declarations. *)
Theorem BuildGraph_correct (iter : nat -> gset string -> list string) (jobs : list Job) :
  (forall k X, iter k X ≡ₚ elements X) ->
  match BuildGraph iter jobs with
  | Ok g => wf_graph g /\ nodes g = list_to_set (map job_ID jobs)
      /\ (forall a b, edge g a b <-> declared jobs a b)
      /\ (forall x, ~ tc (declared jobs) x x)
      /\ forall a b, declared jobs a b -> a ∈ map job_ID jobs
  | Err (UnknownDependency id dep) => declared jobs dep id /\ dep ∉ map job_ID jobs
  | Err ErrCycle => exists x, tc (declared jobs) x x
  | Err QueueBound => False
  end.
Proof. apply BuildGraph_cases. Qed.

Lemma BuildGraph_correct_witness :
  exists x, tc (declared [dep_job "a" ["b"]; dep_job "b" ["a"]]) x x.
Proof.
  apply (BuildGraph_correct any_order [dep_job "a" ["b"]; dep_job "b" ["a"]]).
  intros k X. reflexivity.
Defined.
