(* ===== verification/Store.v ===== *)
(** * The store contract

    Models [src/internal/store/store.go]: the error, the run filter, the
    [Store] interface as a type of calls, and the contract its comments state as
    a specification of every call on an abstract database.  The interface is
    the class [Store]; the scheduler is verified against it and
    [MemoryStore.v] discharges it. *)

From Stdlib Require Import ZArith Lia String.
From stdpp Require Import base list strings gmap sorting.
From S2P Require Import Prelude GoTime GoFloat Job.

#[local] Open Scope string_scope.
#[local] Open Scope list_scope.
#[local] Open Scope Z_scope.

(** [ErrNotFound], or an error of the backend itself (a lost connection, a
    violated constraint, a cancelled context). *)
Inductive store_error :=
| ErrNotFound
| Backend (msg : string).

Record RunFilter := mkRunFilter {
  rf_JobID : string;
  rf_BatchID : string;
  rf_State : RunState;
  rf_Limit : Z;
  rf_Offset : Z
}.

Definition no_filter : RunFilter := mkRunFilter "" "" "" 0 0.

(** ** The interface: one constructor per method *)

Inductive call : Type -> Type :=
| PutJob (j : Job) : call (result store_error unit)
| GetJob (id : string) : call (result store_error Job)
| ListJobs : call (result store_error (list Job))
| DeleteJob (id : string) : call (result store_error unit)
| CreateRun (r : Run) : call (result store_error unit)
| GetRun (id : string) : call (result store_error Run)
| UpdateRun (r : Run) : call (result store_error unit)
| ListRuns (f : RunFilter) : call (result store_error (list Run))
| ClaimDue (now : time) (worker : string) (lease : duration) (limit : Z)
    : call (result store_error (list Run))
| Close : call (result store_error unit).

(** ** The abstract database *)

Record db := mkDb {
  db_jobs : gmap string Job;
  db_runs : gmap string Run
}.

(** Rows are stored under their own identifiers. *)
Definition keyed (d : db) : Prop :=
  map_Forall (fun k j => job_ID j = k) (db_jobs d)
  /\ map_Forall (fun k r => run_ID r = k) (db_runs d).

Definition jobs_of (d : db) : list Job := (map_to_list (db_jobs d)).*2.
Definition runs_of (d : db) : list Run := (map_to_list (db_runs d)).*2.

Definition put_run (d : db) (r : Run) : db := mkDb (db_jobs d) (<[run_ID r := r]> (db_runs d)).
Definition put_runs (d : db) (rs : list Run) : db := foldl put_run d rs.

(** Zero-value fields of a filter are ignored. *)
Definition matches (f : RunFilter) (r : Run) : bool :=
  (String.eqb (rf_JobID f) "" || String.eqb (run_JobID r) (rf_JobID f))
  && (String.eqb (rf_BatchID f) "" || String.eqb (run_BatchID r) (rf_BatchID f))
  && (String.eqb (rf_State f) "" || String.eqb (run_State r) (rf_State f)).

(** Newest first; runs created at the same instant by descending identifier. *)
Definition newer (a b : Run) : Prop :=
  run_CreatedAt b < run_CreatedAt a
  \/ (run_CreatedAt a = run_CreatedAt b /\ String.le (run_ID b) (run_ID a)).

(** The window of a listing that a filter asks for. *)
Definition page {A} (f : RunFilter) (l : list A) : list A :=
  let l := if 0 <? rf_Offset f then drop (Z.to_nat (rf_Offset f)) l else l in
  if 0 <? rf_Limit f then take (Z.to_nat (rf_Limit f)) l else l.

(** Ready to execute: pending and due, or running with an expired lease. *)
Definition ready (now : time) (r : Run) : bool :=
  (String.eqb (run_State r) StatePending && negb (After (run_ScheduledFor r) now))
  || (String.eqb (run_State r) StateRunning && Before (run_LeaseExpiry r) now).

(** A claimed run: running, stamped with the worker and a fresh lease. *)
Definition claim (now : time) (worker : string) (lease : duration) (r : Run) : Run :=
  mkRun (run_ID r) (run_JobID r) (run_BatchID r) StateRunning (run_Attempt r)
    (run_ScheduledFor r)
    (match run_StartedAt r with None => Some now | s => s end)
    (run_FinishedAt r) (Add now lease) worker (run_Error r) (run_CreatedAt r) now.

(** ** The contract

    A call either fails in the backend, where the backend can fail at all, and
    leaves the database alone, or does what its comment says.  That a call that
    fails changes nothing is not in the comments of the interface but an
    assumption of this contract, on which the theorems about error paths rest.
    The PostgreSQL store meets it but for an answer that gets lost, when the
    change was made although the caller sees an error
    ([PostgresStore.Postgres.outcome]). *)

Definition failed {A} (fallible : bool) (d : db) (r : result store_error A) (d' : db) : Prop :=
  fallible = true /\ (exists msg, r = Err (Backend msg)) /\ d' = d.

Definition found {A} (o : option A) : result store_error A :=
  match o with Some a => Ok a | None => Err ErrNotFound end.

Definition store_spec (fallible : bool) {R} (c : call R) : db -> R -> db -> Prop :=
  match c in call R return db -> R -> db -> Prop with
  | PutJob j => fun d r d' => failed fallible d r d'
      \/ (r = Ok tt /\ d' = mkDb (<[job_ID j := j]> (db_jobs d)) (db_runs d))
  | GetJob id => fun d r d' => failed fallible d r d'
      \/ (r = found (db_jobs d !! id) /\ d' = d)
  | ListJobs => fun d r d' => failed fallible d r d'
      \/ (exists l, r = Ok l /\ l ≡ₚ jobs_of d /\ d' = d)
  | DeleteJob id => fun d r d' => failed fallible d r d'
      \/ (r = match db_jobs d !! id with Some _ => Ok tt | None => Err ErrNotFound end
          /\ d' = mkDb (delete id (db_jobs d)) (db_runs d))
  | CreateRun x => fun d r d' => failed fallible d r d'
      \/ (r = Ok tt /\ d' = put_run d x)
  | GetRun id => fun d r d' => failed fallible d r d'
      \/ (r = found (db_runs d !! id) /\ d' = d)
  | UpdateRun x => fun d r d' => failed fallible d r d'
      \/ (match db_runs d !! run_ID x with
          | Some _ => r = Ok tt /\ d' = put_run d x
          | None => r = Err ErrNotFound /\ d' = d
          end)
  | ListRuns f => fun d r d' => failed fallible d r d'
      \/ (exists l, r = Ok (page f l) /\ l ≡ₚ filter (fun x => matches f x) (runs_of d)
          /\ Sorted newer l /\ d' = d)
  | ClaimDue now worker lease limit => fun d r d' => failed fallible d r d'
      \/ (exists l, r = Ok (map (claim now worker lease) l)
          /\ NoDup (map run_ID l)
          /\ Forall (fun x => db_runs d !! run_ID x = Some x /\ ready now x = true) l
          /\ (0 < limit -> Z.of_nat (length l) <= limit)
          /\ d' = put_runs d (map (claim now worker lease) l))
  | Close => fun d r d' => failed fallible d r d' \/ (r = Ok tt /\ d' = d)
  end.

(** What a backend provides: a handler for the calls, a view of its state as a
    database and an invariant, such that every call meets the contract. *)
Class Store (S : Type) := {
  handle : forall R, call R -> S -> R * S;
  view : S -> db;
  store_ok : S -> Prop;
  fallible : bool;
  store_keyed : forall s, store_ok s -> keyed (view s);
  handle_ok : forall R (c : call R) s, store_ok s -> store_ok (handle R c s).2;
  handle_spec : forall R (c : call R) s, store_ok s ->
    store_spec fallible c (view s) (handle R c s).1 (view (handle R c s).2)
}.
Arguments handle {S _ R} c s.

(** ** Facts about the contract *)

Lemma elem_of_runs_of d r : keyed d -> r ∈ runs_of d <-> db_runs d !! run_ID r = Some r.
Proof.
  intros [_ Hk]. unfold runs_of. rewrite list_elem_of_fmap. split.
  - intros ([k r'] & -> & Hin). apply elem_of_map_to_list in Hin.
    simpl. by rewrite (Hk _ _ Hin).
  - intros Hr. exists (run_ID r, r). split; [done|]. by apply elem_of_map_to_list.
Qed.

Lemma elem_of_jobs_of d j : keyed d -> j ∈ jobs_of d <-> db_jobs d !! job_ID j = Some j.
Proof.
  intros [Hk _]. unfold jobs_of. rewrite list_elem_of_fmap. split.
  - intros ([k j'] & -> & Hin). apply elem_of_map_to_list in Hin.
    simpl. by rewrite (Hk _ _ Hin).
  - intros Hr. exists (job_ID j, j). split; [done|]. by apply elem_of_map_to_list.
Qed.

Lemma keyed_values {A} (key : A -> string) (m : gmap string A) :
  map_Forall (fun k x => key x = k) m -> map key ((map_to_list m).*2) = (map_to_list m).*1.
Proof.
  intros Hk. rewrite <-list_fmap_compose. apply list_fmap_ext.
  intros i [k x] Hi. simpl. apply Hk, elem_of_map_to_list. by eapply list_elem_of_lookup_2.
Qed.

Lemma NoDup_run_ids d : keyed d -> NoDup (map run_ID (runs_of d)).
Proof.
  intros [_ Hk]. unfold runs_of. rewrite (keyed_values run_ID) by done.
  apply NoDup_fst_map_to_list.
Qed.

Lemma NoDup_job_ids d : keyed d -> NoDup (map job_ID (jobs_of d)).
Proof.
  intros [Hk _]. unfold jobs_of. rewrite (keyed_values job_ID) by done.
  apply NoDup_fst_map_to_list.
Qed.

Lemma keyed_put_run d r : keyed d -> keyed (put_run d r).
Proof. intros [Hj Hr]. split; [done|]. by apply map_Forall_insert_2. Qed.

Lemma keyed_put_runs d rs : keyed d -> keyed (put_runs d rs).
Proof. revert d. induction rs as [|r rs IH]; intros d Hd; simpl; auto using keyed_put_run. Qed.

Lemma put_runs_jobs d rs : db_jobs (put_runs d rs) = db_jobs d.
Proof. revert d. induction rs as [|r rs IH]; intros d; simpl; [done|]. by rewrite IH. Qed.

Lemma put_runs_other d rs k :
  k ∉ map run_ID rs -> db_runs (put_runs d rs) !! k = db_runs d !! k.
Proof.
  revert d. induction rs as [|r rs IH]; intros d Hk; simpl; [done|].
  simpl in Hk. rewrite not_elem_of_cons in Hk. destruct Hk as [Hk Hrs].
  rewrite IH by done. by apply lookup_insert_ne.
Qed.

Lemma put_runs_elem d rs r :
  NoDup (map run_ID rs) -> r ∈ rs -> db_runs (put_runs d rs) !! run_ID r = Some r.
Proof.
  revert d. induction rs as [|x rs IH]; intros d Hnd Hr; [by apply elem_of_nil in Hr|].
  simpl in *. apply NoDup_cons in Hnd as [Hx Hnd].
  apply elem_of_cons in Hr as [->|Hr]; [|by apply IH].
  rewrite put_runs_other by done. apply lookup_insert_eq.
Qed.

Lemma page_no_limit {A} f (l : list A) : rf_Limit f = 0 -> rf_Offset f = 0 -> page f l = l.
Proof. unfold page. by intros -> ->. Qed.

Lemma claim_id now w le r : run_ID (claim now w le r) = run_ID r.
Proof. done. Qed.

Lemma map_claim_ids now w le l : map run_ID (map (claim now w le) l) = map run_ID l.
Proof. rewrite map_map. done. Qed.

(** An update that fails changes nothing; one that succeeds writes the run. *)
Lemma update_error f x d e d' : store_spec f (UpdateRun x) d (Err e) d' -> d' = d.
Proof. simpl. intros [(_ & _ & ->)|Hs]; [done|]. by destruct (db_runs d !! run_ID x), Hs. Qed.

Lemma update_done f x d d' : store_spec f (UpdateRun x) d (Ok tt) d' -> d' = put_run d x.
Proof.
  simpl. intros [(_ & [? [=]] & _)|Hs]. by destruct (db_runs d !! run_ID x), Hs.
Qed.

(** ** Growth of a database

    Jobs and stored runs are kept, and every new run satisfies [P]. *)
Definition grown (P : Run -> Prop) (d d' : db) : Prop :=
  db_jobs d' = db_jobs d
  /\ (forall k r, db_runs d !! k = Some r -> db_runs d' !! k = Some r)
  /\ (forall k r, db_runs d' !! k = Some r -> db_runs d !! k = Some r \/ P r).

Lemma grown_refl P d : grown P d d.
Proof. split_and!; auto. Qed.

Lemma grown_trans P d1 d2 d3 : grown P d1 d2 -> grown P d2 d3 -> grown P d1 d3.
Proof.
  intros (H1 & H2 & H3) (H4 & H5 & H6). split_and!; [congruence|auto|].
  intros k r Hr. destruct (H6 k r Hr); auto.
Qed.

Lemma grown_weaken (P Q : Run -> Prop) d d' :
  (forall r, P r -> Q r) -> grown P d d' -> grown Q d d'.
Proof. intros HPQ (H1 & H2 & H3). split_and!; auto. intros k r Hr. destruct (H3 k r Hr); auto. Qed.

Lemma grown_put (P : Run -> Prop) d r :
  db_runs d !! run_ID r = None -> P r -> grown P d (put_run d r).
Proof.
  intros Hn HP. split_and!; [done| |]; intros k x; simpl.
  - intros Hk. rewrite lookup_insert_ne by congruence. done.
  - rewrite lookup_insert_Some. intros [[_ ->]|[_ Hk]]; auto.
Qed.

#[export] Hint Resolve grown_refl grown_put : core.

Lemma keyed_run d k r : keyed d -> db_runs d !! k = Some r -> run_ID r = k.
Proof. intros [_ Hk]. apply Hk. Qed.

(** The runs that a listing without a window returns. *)
Lemma elem_of_matching d f l r :
  keyed d -> l ≡ₚ filter (fun x => matches f x) (runs_of d) ->
  r ∈ l <-> db_runs d !! run_ID r = Some r /\ matches f r = true.
Proof.
  intros Hk ->. rewrite list_elem_of_filter, elem_of_runs_of, Is_true_true by done. tauto.
Qed.
