(* ===== verification/MemoryStore.v ===== *)
(** * The in-memory store

    Models [src/internal/store/memory/memory.go].  Every method holds the mutex
    from its first statement to its return, so it is one atomic function on the
    two maps.  [Memory.store] shows that the methods meet the store contract;
    the theorems at the end add what this backend promises beyond it. *)

From Stdlib Require Import ZArith Lia String.
From stdpp Require Import base list strings gmap sorting.
From S2P Require Import Prelude GoTime GoFloat Job Store.

#[local] Open Scope string_scope.
#[local] Open Scope list_scope.
#[local] Open Scope Z_scope.

Module Memory.

Record state := mkState {
  jobs : gmap string Job;
  runs : gmap string Run
}.

Definition New : state := mkState ∅ ∅.

Definition PutJob (j : Job) (s : state) : result store_error unit * state :=
  (Ok tt, mkState (<[job_ID j := Job_Clone j]> (jobs s)) (runs s)).

Definition GetJob (id : string) (s : state) : result store_error Job * state :=
  match jobs s !! id with
  | None => (Err ErrNotFound, s)
  | Some j => (Ok (Job_Clone j), s)
  end.

(** The values of a map in the order Go visits them, which is arbitrary: the
    listings below sort what they collect (see [ListRuns_order_irrelevant]). *)
Definition values {A} (m : gmap string A) : list A := (map_to_list m).*2.

Definition ListJobs (s : state) : result store_error (list Job) * state :=
  let out := map Job_Clone (values (jobs s)) in
  (Ok (sort_slice (fun a b => String.ltb (job_ID a) (job_ID b)) out), s).

Definition DeleteJob (id : string) (s : state) : result store_error unit * state :=
  match jobs s !! id with
  | None => (Err ErrNotFound, s)
  | Some _ => (Ok tt, mkState (delete id (jobs s)) (runs s))
  end.

Definition Close (s : state) : result store_error unit * state := (Ok tt, s).

Definition CreateRun (r : Run) (s : state) : result store_error unit * state :=
  (Ok tt, mkState (jobs s) (<[run_ID r := Run_Clone r]> (runs s))).

Definition GetRun (id : string) (s : state) : result store_error Run * state :=
  match runs s !! id with
  | None => (Err ErrNotFound, s)
  | Some r => (Ok (Run_Clone r), s)
  end.

Definition UpdateRun (r : Run) (s : state) : result store_error unit * state :=
  match runs s !! run_ID r with
  | None => (Err ErrNotFound, s)
  | Some _ => (Ok tt, mkState (jobs s) (<[run_ID r := Run_Clone r]> (runs s)))
  end.

(** The three [continue]s of the collection loop. *)
Definition skipped (f : RunFilter) (r : Run) : bool :=
  (negb (String.eqb (rf_JobID f) "") && negb (String.eqb (run_JobID r) (rf_JobID f)))
  || (negb (String.eqb (rf_BatchID f) "") && negb (String.eqb (run_BatchID r) (rf_BatchID f)))
  || (negb (String.eqb (rf_State f) "") && negb (String.eqb (run_State r) (rf_State f))).

Definition list_less (a b : Run) : bool :=
  if negb (Equal (run_CreatedAt a) (run_CreatedAt b))
  then After (run_CreatedAt a) (run_CreatedAt b)
  else String.ltb (run_ID b) (run_ID a).

(** The listing, from the runs in the order they were visited. *)
Definition list_runs (f : RunFilter) (visited : list Run) : list Run :=
  let out := sort_slice list_less
    (map Run_Clone (filter (fun r => skipped f r = false) visited)) in
  if (0 <? rf_Offset f) && (Z.of_nat (length out) <=? rf_Offset f) then []
  else
    let out := if 0 <? rf_Offset f then drop (Z.to_nat (rf_Offset f)) out else out in
    if (0 <? rf_Limit f) && (rf_Limit f <? Z.of_nat (length out))
    then take (Z.to_nat (rf_Limit f)) out else out.

Definition ListRuns (f : RunFilter) (s : state) : result store_error (list Run) * state :=
  (Ok (list_runs f (values (runs s))), s).

Definition is_ready (now : time) (r : Run) : bool :=
  if String.eqb (run_State r) StatePending && negb (After (run_ScheduledFor r) now) then true
  else if String.eqb (run_State r) StateRunning && Before (run_LeaseExpiry r) now then true
  else false.

Definition claim_less (a b : Run) : bool :=
  if negb (Equal (run_ScheduledFor a) (run_ScheduledFor b))
  then Before (run_ScheduledFor a) (run_ScheduledFor b)
  else String.ltb (run_ID a) (run_ID b).

(** The runs to claim, from the runs in the order they were visited. *)
Definition due_runs (now : time) (limit : Z) (visited : list Run) : list Run :=
  let ready := sort_slice claim_less (filter (fun r => is_ready now r = true) visited) in
  if (0 <? limit) && (limit <? Z.of_nat (length ready))
  then take (Z.to_nat limit) ready else ready.

Definition stamp (now : time) (worker : string) (lease : duration) (r : Run) : Run :=
  mkRun (run_ID r) (run_JobID r) (run_BatchID r) StateRunning (run_Attempt r)
    (run_ScheduledFor r)
    (match run_StartedAt r with None => Some now | Some t => Some t end)
    (run_FinishedAt r) (Add now lease) worker (run_Error r) (run_CreatedAt r) now.

(** The claiming loop: stamp a run, store it, append a copy to the result. *)
Definition claim_one (now : time) (worker : string) (lease : duration)
    (st : list Run * state) (r : Run) : list Run * state :=
  let '(claimed, s) := st in
  let r := stamp now worker lease r in
  (claimed ++ [Run_Clone r], mkState (jobs s) (<[run_ID r := r]> (runs s))).

Definition ClaimDue (now : time) (worker : string) (lease : duration) (limit : Z)
    (s : state) : result store_error (list Run) * state :=
  let ready := due_runs now limit (values (runs s)) in
  let '(claimed, s) := foldl (claim_one now worker lease) ([], s) ready in
  (Ok claimed, s).

(** The method table. *)
Definition methods (R : Type) (c : call R) : state -> R * state :=
  match c in call R return state -> R * state with
  | Store.PutJob j => PutJob j
  | Store.GetJob id => GetJob id
  | Store.ListJobs => ListJobs
  | Store.DeleteJob id => DeleteJob id
  | Store.CreateRun r => CreateRun r
  | Store.GetRun id => GetRun id
  | Store.UpdateRun r => UpdateRun r
  | Store.ListRuns f => ListRuns f
  | Store.ClaimDue now worker lease limit => ClaimDue now worker lease limit
  | Store.Close => Close
  end.

Definition mem_view (s : state) : db := mkDb (jobs s) (runs s).
Definition mem_ok (s : state) : Prop := keyed (mem_view s).

(** ** The two orders *)

Lemma list_less_newer a b : list_less b a = false <-> newer a b.
Proof.
  unfold list_less, newer, Equal, After.
  destruct (run_CreatedAt b =? run_CreatedAt a) eqn:E; simpl.
  - apply Z.eqb_eq in E. rewrite string_ltb_le. intuition lia.
  - apply Z.eqb_neq in E. rewrite Z.ltb_ge. intuition lia.
Qed.

(** The order in which runs are claimed: by due time, then by identifier. *)
Definition due_before (a b : Run) : Prop :=
  run_ScheduledFor a < run_ScheduledFor b
  \/ (run_ScheduledFor a = run_ScheduledFor b /\ String.le (run_ID a) (run_ID b)).

Lemma claim_less_due a b : claim_less b a = false <-> due_before a b.
Proof.
  unfold claim_less, due_before, Equal, Before.
  destruct (run_ScheduledFor b =? run_ScheduledFor a) eqn:E; simpl.
  - apply Z.eqb_eq in E. rewrite string_ltb_le. intuition lia.
  - apply Z.eqb_neq in E. rewrite Z.ltb_ge. intuition lia.
Qed.

Lemma list_less_asym a b : list_less a b = true -> list_less b a = false.
Proof.
  unfold list_less, Equal, After. rewrite (Z.eqb_sym (run_CreatedAt b)).
  destruct (_ =? _) eqn:E; simpl; [apply string_ltb_asym|lia].
Qed.

Lemma claim_less_asym a b : claim_less a b = true -> claim_less b a = false.
Proof.
  unfold claim_less, Equal, Before. rewrite (Z.eqb_sym (run_ScheduledFor b)).
  destruct (_ =? _) eqn:E; simpl; [apply string_ltb_asym|lia].
Qed.

Lemma list_less_trans a b c :
  list_less b a = false -> list_less c b = false -> list_less c a = false.
Proof.
  rewrite !list_less_newer. unfold newer.
  intros [?|[? ?]] [?|[? ?]]; [left; lia..|]. right. split; [lia|]. by etrans.
Qed.

Lemma claim_less_trans a b c :
  claim_less b a = false -> claim_less c b = false -> claim_less c a = false.
Proof.
  rewrite !claim_less_due. unfold due_before.
  intros [?|[? ?]] [?|[? ?]]; [left; lia..|]. right. split; [lia|]. by etrans.
Qed.

Lemma list_less_antisym a b :
  list_less a b = false -> list_less b a = false -> run_ID a = run_ID b.
Proof.
  rewrite !list_less_newer. unfold newer.
  intros [?|[? ?]] [?|[? ?]]; try lia. by apply (anti_symm String.le).
Qed.

Lemma claim_less_antisym a b :
  claim_less a b = false -> claim_less b a = false -> run_ID a = run_ID b.
Proof.
  rewrite !claim_less_due. unfold due_before.
  intros [?|[? ?]] [?|[? ?]]; try lia. by apply (anti_symm String.le).
Qed.

#[export] Hint Resolve list_less_asym claim_less_asym list_less_trans claim_less_trans : core.

(** ** The methods meet the contract *)

Lemma skipped_matches f r : skipped f r = false <-> matches f r = true.
Proof.
  unfold skipped, matches.
  destruct (String.eqb (rf_JobID f) ""), (String.eqb (run_JobID r) (rf_JobID f)),
    (String.eqb (rf_BatchID f) ""), (String.eqb (run_BatchID r) (rf_BatchID f)),
    (String.eqb (rf_State f) ""), (String.eqb (run_State r) (rf_State f)); done.
Qed.

Lemma is_ready_ready now r : is_ready now r = ready now r.
Proof. unfold is_ready, ready. by repeat case_on. Qed.

Lemma stamp_claim now w le r : stamp now w le r = claim now w le r.
Proof. unfold stamp, claim. by destruct (run_StartedAt r). Qed.

(** The sorted runs that a filter selects. *)
Definition listing (f : RunFilter) (l : list Run) : list Run :=
  sort_slice list_less (filter (fun r => matches f r = true) l).

Lemma list_runs_page f l : list_runs f l = page f (listing f l).
Proof.
  unfold list_runs, listing, page, Run_Clone. rewrite map_id.
  rewrite (list_filter_ext (fun r => skipped f r = false) (fun r => matches f r = true) l)
    by (intros; apply skipped_matches).
  set (out := sort_slice _ _).
  destruct (0 <? rf_Offset f) eqn:Ho; simpl.
  - destruct (Z.of_nat (length out) <=? rf_Offset f) eqn:Hl.
    + rewrite drop_ge by lia. rewrite take_nil. by case_on.
    + destruct (0 <? rf_Limit f) eqn:Hli; simpl; [|done].
      case_on; [done|]. by rewrite take_ge by lia.
  - destruct (0 <? rf_Limit f) eqn:Hli; simpl; [|done].
    case_on; [done|]. by rewrite take_ge by lia.
Qed.

Lemma claim_loop now w le l claimed s :
  foldl (claim_one now w le) (claimed, s) l
  = (claimed ++ map (claim now w le) l,
     mkState (jobs s) (db_runs (put_runs (mem_view s) (map (claim now w le) l)))).
Proof.
  revert claimed s. induction l as [|r l IH]; intros claimed s; simpl.
  { rewrite app_nil_r. by destruct s. }
  rewrite IH. unfold Run_Clone. rewrite stamp_claim, <-app_assoc. done.
Qed.

(** What [ClaimDue] returns and the state it leaves. *)
Lemma ClaimDue_eq now w le limit s :
  ClaimDue now w le limit s =
    (Ok (map (claim now w le) (due_runs now limit (values (runs s)))),
     mkState (jobs s)
       (db_runs (put_runs (mem_view s)
          (map (claim now w le) (due_runs now limit (values (runs s))))))).
Proof. unfold ClaimDue. by rewrite claim_loop. Qed.

Lemma due_runs_sublist now limit l :
  exists rest, sort_slice claim_less (filter (fun r => ready now r = true) l)
    = due_runs now limit l ++ rest.
Proof.
  unfold due_runs.
  rewrite (list_filter_ext (fun r => is_ready now r = true) (fun r => ready now r = true) l)
    by (intros; by rewrite is_ready_ready).
  case_on; [|exists []; by rewrite app_nil_r].
  eexists. symmetry. apply take_drop.
Qed.

Lemma elem_of_due_runs now limit l r : r ∈ due_runs now limit l -> r ∈ l /\ ready now r = true.
Proof.
  intros Hr. destruct (due_runs_sublist now limit l) as [rest Hs].
  assert (r ∈ sort_slice claim_less (filter (fun r => ready now r = true) l)) as Hin
    by (rewrite Hs; apply elem_of_app; by left).
  rewrite elem_of_sort_slice, list_elem_of_filter in Hin. tauto.
Qed.

Lemma due_runs_length now limit l : 0 < limit -> Z.of_nat (length (due_runs now limit l)) <= limit.
Proof. intros Hl. unfold due_runs. case_on; rewrite ?length_take; bool_lia || lia. Qed.

Lemma values_runs s : values (runs s) = runs_of (mem_view s).
Proof. done. Qed.

Lemma due_runs_NoDup now limit s :
  mem_ok s -> NoDup (map run_ID (due_runs now limit (values (runs s)))).
Proof.
  intros Hk. destruct (due_runs_sublist now limit (values (runs s))) as [rest Hs].
  assert (NoDup (map run_ID (due_runs now limit (values (runs s)) ++ rest))) as Hnd.
  { rewrite <-Hs, sort_slice_perm.
    eapply sublist_NoDup; [apply (NoDup_run_ids (mem_view s) Hk)|].
    apply (fmap_sublist run_ID), sublist_filter. }
  rewrite map_app in Hnd. by apply NoDup_app in Hnd as [? _].
Qed.

Lemma clone_values (l : list Job) : map Job_Clone l = l.
Proof. rewrite (map_ext _ id) by apply Job_Clone_id. apply map_id. Qed.

Lemma methods_ok R (c : call R) s : mem_ok s -> mem_ok (methods R c s).2.
Proof.
  unfold mem_ok. intros Hk. pose proof Hk as [Hj Hr]. destruct c; simpl; try done.
  - split; [|done]. apply map_Forall_insert_2; [by destruct j|done].
  - unfold GetJob. by destruct (jobs s !! id).
  - unfold DeleteJob. destruct (jobs s !! id); [|done]. split; [|done].
    by apply map_Forall_delete.
  - by apply (keyed_put_run (mem_view s)).
  - unfold GetRun. by destruct (runs s !! id).
  - unfold UpdateRun. destruct (runs s !! run_ID r); [|done].
    by apply (keyed_put_run (mem_view s)).
  - rewrite ClaimDue_eq. simpl. split; [done|].
    by apply (keyed_put_runs (mem_view s)).
Qed.

Lemma ListRuns_spec f s :
  exists l, ListRuns f s = (Ok (page f l), s)
    /\ l ≡ₚ filter (fun x => matches f x) (runs_of (mem_view s))
    /\ StronglySorted newer l.
Proof.
  exists (listing f (values (runs s))). unfold ListRuns. rewrite list_runs_page.
  split_and!; [done| |].
  - unfold listing. rewrite sort_slice_perm, values_runs.
    erewrite list_filter_ext; [done|]. intros x _. simpl. by rewrite Is_true_true.
  - assert (StronglySorted (not_less list_less) (listing f (values (runs s)))) as Hs
      by (apply sort_slice_sorted; eauto).
    eapply StronglySorted_weaken; [|exact Hs]. intros a b. apply list_less_newer.
Qed.

Lemma ClaimDue_spec now w le limit s (Hk : mem_ok s) :
  store_spec false (Store.ClaimDue now w le limit) (mem_view s)
    (ClaimDue now w le limit s).1 (mem_view (ClaimDue now w le limit s).2).
Proof.
  rewrite ClaimDue_eq. right. exists (due_runs now limit (values (runs s))). simpl.
  split_and!; [done|by apply due_runs_NoDup| |by apply due_runs_length|].
  - apply Forall_forall. intros x Hx. apply elem_of_due_runs in Hx as [Hx Hr].
    split; [|done]. by apply (elem_of_runs_of (mem_view s)).
  - pose proof (put_runs_jobs (mem_view s)
      (map (claim now w le) (due_runs now limit (values (runs s))))) as Hj.
    destruct (put_runs _ _) as [js rs]. simpl in *. by subst js.
Qed.

Lemma methods_spec R (c : call R) s :
  mem_ok s -> store_spec false c (mem_view s) (methods R c s).1 (mem_view (methods R c s).2).
Proof.
  intros Hk. destruct c; simpl methods; try (by apply ClaimDue_spec); right; simpl.
  - by rewrite Job_Clone_id.
  - unfold GetJob. destruct (jobs s !! id); simpl; by rewrite ?Job_Clone_id.
  - eexists. split_and!; [done| |done]. rewrite sort_slice_perm. by rewrite clone_values.
  - unfold DeleteJob. destruct (jobs s !! id) eqn:E; simpl; split; try done.
    unfold mem_view. by rewrite delete_id.
  - done.
  - unfold GetRun. by destruct (runs s !! id).
  - unfold UpdateRun. by destruct (runs s !! run_ID r).
  - destruct (ListRuns_spec f s) as (l & Hl & Hp & Hs). exists l.
    unfold ListRuns in Hl. injection Hl as Hl. rewrite Hl.
    split_and!; [done|done|by apply StronglySorted_Sorted|done].
  - done.
Qed.

(** The in-memory store implements the interface, and never fails by itself. *)
#[global] Instance store : Store state := {
  handle := methods;
  view := mem_view;
  store_ok := mem_ok;
  fallible := false;
  store_keyed := fun s H => H;
  handle_ok := methods_ok;
  handle_spec := methods_spec
}.

Lemma New_ok : store_ok New.
Proof. split; by apply map_Forall_empty. Qed.


(** ** What this backend adds to the contract *)

Lemma due_runs_sorted now limit l : StronglySorted due_before (due_runs now limit l).
Proof.
  destruct (due_runs_sublist now limit l) as [rest Hs].
  assert (StronglySorted (not_less claim_less) (due_runs now limit l ++ rest)) as Hss
    by (rewrite <-Hs; apply sort_slice_sorted; eauto).
  apply StronglySorted_app_1_l in Hss. eapply StronglySorted_weaken; [|exact Hss].
  intros a b. apply claim_less_due.
Qed.

(** The runs left behind come after every run taken. *)
Lemma due_runs_first now limit l x y :
  y ∈ due_runs now limit l -> x ∈ l -> ready now x = true -> (x ∉ due_runs now limit l) ->
  due_before y x.
Proof.
  intros Hy Hx Hr Hn. destruct (due_runs_sublist now limit l) as [rest Hs].
  assert (StronglySorted (not_less claim_less) (due_runs now limit l ++ rest)) as Hss
    by (rewrite <-Hs; apply sort_slice_sorted; eauto).
  assert (x ∈ due_runs now limit l ++ rest) as Hin.
  { rewrite <-Hs, elem_of_sort_slice, list_elem_of_filter. tauto. }
  apply elem_of_app in Hin as [Hin|Hin]; [done|].
  apply claim_less_due. by eapply (StronglySorted_app_1_elem_of (not_less claim_less)); eauto.
Qed.

Lemma due_runs_all now limit l x :
  limit <= 0 \/ Z.of_nat (length (due_runs now limit l)) < limit ->
  x ∈ l -> ready now x = true -> x ∈ due_runs now limit l.
Proof.
  intros Hlim Hx Hr. revert Hlim. unfold due_runs.
  rewrite (list_filter_ext (fun r => is_ready now r = true) (fun r => ready now r = true) l)
    by (intros; by rewrite is_ready_ready).
  case_on; [rewrite length_take; bool_lia|].
  intros _. rewrite elem_of_sort_slice, list_elem_of_filter. tauto.
Qed.

(** A ready run is picked unless the limit is filled by runs before it. *)
Lemma due_runs_or_full now limit l x :
  x ∈ l -> ready now x = true ->
  x ∈ due_runs now limit l
  \/ (0 < limit /\ Z.of_nat (length (due_runs now limit l)) = limit
      /\ forall y, y ∈ due_runs now limit l -> due_before y x).
Proof.
  intros Hx Hr. destruct (decide (x ∈ due_runs now limit l)) as [Hin|Hn]; [by left|right].
  pose proof (due_runs_length now limit l) as Hlen.
  destruct (decide (limit <= 0 \/ Z.of_nat (length (due_runs now limit l)) < limit)) as [Hl|Hl];
    [by destruct Hn; apply due_runs_all|].
  split_and!; [lia|lia|]. intros y Hy. by eapply due_runs_first.
Qed.

Lemma filter_ids_inj (P : Run -> Prop) `{!forall x, Decision (P x)} s (Hk : mem_ok s) x y :
  x ∈ filter P (values (runs s)) -> y ∈ filter P (values (runs s)) ->
  run_ID x = run_ID y -> x = y.
Proof.
  rewrite !list_elem_of_filter, values_runs, !(elem_of_runs_of (mem_view s)) by done.
  intros [_ Hx] [_ Hy] Heq. rewrite Heq in Hx. congruence.
Qed.

(** A call that writes the run [k], other than by claiming it. *)
Definition writes_run (k : string) {R} (c : call R) : bool :=
  match c with
  | Store.CreateRun r | Store.UpdateRun r => String.eqb (run_ID r) k
  | _ => false
  end.

(** The instant of a claim. *)
Definition claims_after (e : time) {R} (c : call R) : bool :=
  match c with Store.ClaimDue now _ _ _ => e <? now | _ => false end.

(** Sequences of calls, each allowed by [P]. *)
Inductive calls (P : forall R, call R -> Prop) : state -> state -> Prop :=
| calls_nil s : calls P s s
| calls_snoc s t R (c : call R) : calls P s t -> P R c -> calls P s (methods R c t).2.

Lemma claim_keeps now w le limit k s r :
  mem_ok s -> runs s !! k = Some r -> ready now r = false ->
  (k ∉ map run_ID (due_runs now limit (values (runs s))))
  /\ runs (ClaimDue now w le limit s).2 !! k = Some r.
Proof.
  intros Hk Hr Hn.
  assert (k ∉ map run_ID (due_runs now limit (values (runs s)))) as Hnk.
  { intros Hin. apply list_elem_of_fmap in Hin as (x & -> & Hx).
    apply elem_of_due_runs in Hx as [Hx Hrx].
    rewrite values_runs, (elem_of_runs_of (mem_view s)) in Hx by done.
    simpl in Hx. congruence. }
  split; [done|]. rewrite ClaimDue_eq. simpl.
  rewrite put_runs_other by (by rewrite map_claim_ids). done.
Qed.

Lemma lease_kept_one k r s R (c : call R) :
  mem_ok s -> runs s !! k = Some r -> run_State r = StateRunning ->
  writes_run k c = false -> claims_after (run_LeaseExpiry r) c = false ->
  runs (methods R c s).2 !! k = Some r.
Proof.
  intros Hk Hr Hst Hw Hc. destruct c; simpl in *; try done.
  - unfold GetJob. by destruct (jobs s !! id).
  - unfold DeleteJob. by destruct (jobs s !! id).
  - apply String.eqb_neq in Hw. by rewrite lookup_insert_ne.
  - unfold GetRun. by destruct (runs s !! id).
  - unfold UpdateRun. apply String.eqb_neq in Hw.
    destruct (runs s !! run_ID r0); [|done]. simpl. by rewrite lookup_insert_ne.
  - apply claim_keeps; [done|done|]. unfold ready, Before. rewrite Hst. simpl. lia.
Qed.

Lemma calls_ok P s t : calls P s t -> mem_ok s -> mem_ok t.
Proof. induction 1; auto using methods_ok. Qed.

Lemma ClaimDue_state now w le limit s k (Hk : mem_ok s) :
  runs (ClaimDue now w le limit s).2 !! k =
    match runs s !! k with
    | Some x => Some (if decide (x ∈ due_runs now limit (values (runs s)))
                      then claim now w le x else x)
    | None => None
    end.
Proof.
  rewrite ClaimDue_eq. simpl. set (p := due_runs now limit (values (runs s))).
  assert (forall x, x ∈ p -> runs s !! run_ID x = Some x) as Hp.
  { intros x Hx. apply elem_of_due_runs in Hx as [Hx _].
    by apply (elem_of_runs_of (mem_view s)). }
  destruct (decide (k ∈ map run_ID p)) as [Hin|Hnin].
  - apply list_elem_of_fmap in Hin as (x & -> & Hx). rewrite (Hp x Hx).
    rewrite decide_True by done.
    apply (put_runs_elem (mem_view s) (map (claim now w le) p) (claim now w le x)).
    + rewrite map_claim_ids. by apply due_runs_NoDup.
    + by apply list_elem_of_fmap_2.
  - rewrite put_runs_other by (by rewrite map_claim_ids). simpl.
    destruct (runs s !! k) as [x|] eqn:E; [|done]. rewrite decide_False; [done|].
    intros Hx. apply Hnin. destruct Hk as [_ Hk]. rewrite <-(Hk _ _ E).
    by apply list_elem_of_fmap_2.
Qed.

(** ** Main theorems *)

(** C24: in every state that any sequence of calls reaches from the empty store,
    rows are stored under their own identifiers, and every call answers and
    changes the state as the store contract demands, without ever failing by
    itself. *)
Theorem Memory_refines_contract (s : state) :
  calls (fun _ _ => True) New s ->
  keyed (mem_view s)
  /\ forall R (c : call R),
       store_spec false c (mem_view s) (methods R c s).1 (mem_view (methods R c s).2).
Proof.
  intros Hs. assert (mem_ok s) as Hk by (eapply calls_ok; [done|apply New_ok]).
  split; [done|]. intros R c. by apply methods_spec.
Qed.

Definition demo_run (id : string) (sched : time) : Run :=
  pending_run id "j" "b" 0 sched sched.

Definition demo_state : state :=
  (CreateRun (demo_run "r2" 20) (CreateRun (demo_run "r1" 10) New).2).2.

Lemma demo_calls : calls (fun _ _ => True) New demo_state.
Proof.
  apply (calls_snoc _ _ (CreateRun (demo_run "r1" 10) New).2 _
           (Store.CreateRun (demo_run "r2" 20))); [|done].
  apply (calls_snoc _ _ New _ (Store.CreateRun (demo_run "r1" 10))); [|done].
  constructor.
Qed.

Lemma demo_ok : mem_ok demo_state.
Proof. eapply calls_ok; [apply demo_calls|apply New_ok]. Qed.

Lemma Memory_refines_contract_witness : keyed (mem_view demo_state).
Proof. apply (Memory_refines_contract demo_state), demo_calls. Defined.

(** C6: [ClaimDue] hands out the ready runs in order of due time and identifier,
    each once and at most [limit] of them when [limit] is positive; a ready run
    is left out only when the limit is reached by runs that come before it.  Each
    run handed out is stored as running under the worker's fresh lease, and
    nothing else changes. *)
Theorem ClaimDue_correct (s : state) (now : time) (worker : string) (lease : duration)
    (limit : Z) :
  mem_ok s ->
  exists picked s', ClaimDue now worker lease limit s
      = (Ok (map (claim now worker lease) picked), s')
    /\ StronglySorted due_before picked /\ NoDup (map run_ID picked)
    /\ (forall x, x ∈ picked -> runs s !! run_ID x = Some x /\ ready now x = true)
    /\ (0 < limit -> Z.of_nat (length picked) <= limit)
    /\ (forall k x, runs s !! k = Some x -> ready now x = true -> (x ∉ picked) ->
          0 < limit /\ Z.of_nat (length picked) = limit
          /\ forall y, y ∈ picked -> due_before y x)
    /\ jobs s' = jobs s
    /\ (forall k, runs s' !! k =
          match runs s !! k with
          | Some x => Some (if decide (x ∈ picked) then claim now worker lease x else x)
          | None => None
          end).
Proof.
  intros Hk. exists (due_runs now limit (values (runs s))).
  exists (ClaimDue now worker lease limit s).2.
  pose proof (due_runs_length now limit (values (runs s))) as Hlen.
  assert (forall k x, runs s !! k = Some x -> x ∈ values (runs s)) as Hval.
  { intros k x E. rewrite values_runs, (elem_of_runs_of (mem_view s)) by done.
    destruct Hk as [_ Hk]. simpl. by rewrite (Hk _ _ E). }
  split_and!.
  - by rewrite ClaimDue_eq.
  - apply due_runs_sorted.
  - by apply due_runs_NoDup.
  - intros x Hx. apply elem_of_due_runs in Hx as [Hx Hr]. split; [|done].
    by apply (elem_of_runs_of (mem_view s)).
  - done.
  - intros k x E Hr Hn. apply Hval in E. by destruct (due_runs_or_full now limit _ x E Hr).
  - by rewrite ClaimDue_eq.
  - intros k. by apply ClaimDue_state.
Qed.

Lemma ClaimDue_correct_witness :
  exists picked s', ClaimDue 25 "w" 30 1 demo_state = (Ok (map (claim 25 "w" 30) picked), s')
    /\ map run_ID picked = ["r1"].
Proof.
  destruct (ClaimDue_correct demo_state 25 "w" 30 1 demo_ok) as (picked & s' & Heq & _).
  exists picked, s'. split; [exact Heq|].
  apply (f_equal (fun p => match p.1 with Ok l => map run_ID l | Err _ => [] end)) in Heq.
  cbn [fst] in Heq. rewrite map_claim_ids in Heq. rewrite <-Heq. vm_compute. reflexivity.
Defined.

(** C7: a lease is exclusive and its expiry redelivers.  Consider any sequence of
    calls of which none creates or updates the leased run [k] itself and none is a
    claim made after its lease has expired.  It leaves the run as it is, and no
    claim made before the expiry hands the run out.  A claim made after the expiry
    hands it out again, unless its limit is filled by runs that come before it. *)
Theorem lease_exclusive_then_redelivered (s t : state) (k : string) (r : Run) :
  mem_ok s -> runs s !! k = Some r -> run_State r = StateRunning ->
  calls (fun _ c => writes_run k c = false /\ claims_after (run_LeaseExpiry r) c = false) s t ->
  runs t !! k = Some r
  /\ (forall now w le limit, now <= run_LeaseExpiry r ->
        exists claimed, (ClaimDue now w le limit t).1 = Ok claimed
          /\ (k ∉ map run_ID claimed))
  /\ (forall now w le limit, run_LeaseExpiry r < now ->
        exists picked, (ClaimDue now w le limit t).1 = Ok (map (claim now w le) picked)
          /\ (r ∈ picked \/
              (0 < limit /\ Z.of_nat (length picked) = limit
               /\ forall y, y ∈ picked -> due_before y r))).
Proof.
  intros Hk Hr Hst Hc.
  assert (mem_ok t) as Hkt by (by eapply calls_ok).
  assert (runs t !! k = Some r) as Hrt.
  { clear Hkt. induction Hc as [|s t R c Hc IH [Hw Ha]]; [done|].
    apply lease_kept_one; auto. by eapply calls_ok. }
  split_and!; [done| |].
  - intros now w le limit Hnow. rewrite ClaimDue_eq. eexists; split; [done|].
    rewrite map_claim_ids. eapply (claim_keeps now w le limit k t r); [done|done|].
    unfold ready, Before. rewrite Hst. simpl. lia.
  - intros now w le limit Hnow. rewrite ClaimDue_eq. eexists; split; [done|].
    apply due_runs_or_full.
    + rewrite values_runs, (elem_of_runs_of (mem_view t)) by done.
      destruct Hkt as [_ Hkt]. simpl. by rewrite (Hkt _ _ Hrt).
    + unfold ready, Before. rewrite Hst. simpl. lia.
Qed.

Lemma lease_exclusive_then_redelivered_witness :
  (exists claimed, (ClaimDue 40 "w2" 30 0 (ClaimDue 25 "w1" 30 0 demo_state).2).1 = Ok claimed
     /\ ("r1" ∉ map run_ID claimed))
  /\ exists picked, (ClaimDue 60 "w2" 30 1 (ClaimDue 25 "w1" 30 0 demo_state).2).1
       = Ok (map (claim 60 "w2" 30) picked)
     /\ (claim 25 "w1" 30 (demo_run "r1" 10) ∈ picked
         \/ (0 < 1 /\ Z.of_nat (length picked) = 1
             /\ forall y, y ∈ picked -> due_before y (claim 25 "w1" 30 (demo_run "r1" 10)))).
Proof.
  destruct (lease_exclusive_then_redelivered (ClaimDue 25 "w1" 30 0 demo_state).2
           (ClaimDue 25 "w1" 30 0 demo_state).2 "r1" (claim 25 "w1" 30 (demo_run "r1" 10)))
    as (_ & Hkept & Hagain).
  - apply (methods_ok _ (Store.ClaimDue 25 "w1" 30 0)), demo_ok.
  - vm_compute. reflexivity.
  - reflexivity.
  - constructor.
  - split; [apply Hkept; vm_compute; discriminate|apply Hagain; vm_compute; reflexivity].
Defined.


Definition with_window (f : RunFilter) (offset limit : Z) : RunFilter :=
  mkRunFilter (rf_JobID f) (rf_BatchID f) (rf_State f) limit offset.

Lemma page_window f i n {A} (l : list A) :
  0 < n -> page (with_window f (Z.of_nat i * n) n) l
    = take (Z.to_nat n) (drop (i * Z.to_nat n) l).
Proof.
  intros Hn. unfold page. simpl. rewrite (proj2 (Z.ltb_lt 0 n)) by done.
  replace (Z.to_nat (Z.of_nat i * n)) with (i * Z.to_nat n)%nat by lia.
  destruct i as [|i]; [done|].
  by rewrite (proj2 (Z.ltb_lt 0 (Z.of_nat (S i) * n))) by nia.
Qed.

Lemma listing_window f i n l : listing (with_window f i n) l = listing f l.
Proof. done. Qed.

(** C30: [ListRuns] is sound, complete, sorted and paginates: walking the pages
    of size [n] enumerates, newest first and each once, exactly the runs that
    match the filter. *)
Theorem ListRuns_pages (s : state) (f : RunFilter) (n : Z) (pages : nat) :
  mem_ok s -> 0 < n ->
  exists all, StronglySorted newer all /\ NoDup all
    /\ (forall r, r ∈ all <-> runs s !! run_ID r = Some r /\ matches f r = true)
    /\ (forall i, ListRuns (with_window f (Z.of_nat i * n) n) s
          = (Ok (take (Z.to_nat n) (drop (i * Z.to_nat n) all)), s))
    /\ ((length all <= pages * Z.to_nat n)%nat ->
        mjoin (map (fun i => list_runs (with_window f (Z.of_nat i * n) n) (values (runs s)))
                 (seq 0 pages)) = all).
Proof.
  intros Hk Hn. exists (listing f (values (runs s))). split_and!.
  - eapply StronglySorted_weaken; [|apply sort_slice_sorted; eauto].
    intros a b. apply list_less_newer.
  - unfold listing. rewrite sort_slice_perm. apply NoDup_filter.
    apply (NoDup_fmap_1 run_ID), (NoDup_run_ids (mem_view s) Hk).
  - intros r. unfold listing. rewrite elem_of_sort_slice, list_elem_of_filter.
    rewrite values_runs, (elem_of_runs_of (mem_view s)) by done. simpl. tauto.
  - intros i. unfold ListRuns. by rewrite list_runs_page, page_window by done.
  - intros Hlen.
    rewrite (map_ext _ (fun i => take (Z.to_nat n) (drop (i * Z.to_nat n)
               (listing f (values (runs s)))))).
    2:{ intros i. by rewrite list_runs_page, page_window by done. }
    apply take_drop_chunks; lia.
Qed.

Lemma ListRuns_pages_witness :
  exists all, (forall r, r ∈ all <-> runs demo_state !! run_ID r = Some r /\ matches no_filter r = true)
    /\ ListRuns (with_window no_filter 1 1) demo_state = (Ok (take 1 (drop 1 all)), demo_state).
Proof.
  destruct (ListRuns_pages demo_state no_filter 1 2 demo_ok eq_refl)
    as (all & _ & _ & Hin & Hp & _).
  exists all. split; [exact Hin|apply (Hp 1%nat)].
Defined.

(** C31: the order in which Go visits the map does not matter: from any
    enumeration of the stored runs, the listing and the claimed runs are the
    same. *)
Theorem visit_order_irrelevant (s : state) (visited : list Run) :
  mem_ok s -> visited ≡ₚ values (runs s) ->
  (forall f, list_runs f visited = list_runs f (values (runs s)))
  /\ (forall now limit, due_runs now limit visited = due_runs now limit (values (runs s))).
Proof.
  intros Hk Hp.
  assert (forall x y, x ∈ visited -> y ∈ visited -> run_ID x = run_ID y -> x = y) as Hinj.
  { intros x y. rewrite Hp, values_runs, !(elem_of_runs_of (mem_view s)) by done.
    intros Hx Hy Heq. rewrite Heq in Hx. congruence. }
  split.
  - intros f. rewrite !list_runs_page. f_equal. apply sort_slice_unique; eauto.
    + intros x y. rewrite !list_elem_of_filter. intros [_ Hx] [_ Hy] H1 H2.
      apply Hinj; auto using list_less_antisym.
    + by rewrite Hp.
  - intros now limit. unfold due_runs.
    rewrite (sort_slice_unique claim_less claim_less_asym claim_less_trans
      (filter (fun r => is_ready now r = true) visited)
      (filter (fun r => is_ready now r = true) (values (runs s)))); [done| |by rewrite Hp].
    intros x y. rewrite !list_elem_of_filter. intros [_ Hx] [_ Hy] H1 H2.
    apply Hinj; auto using claim_less_antisym.
Qed.

Lemma visit_order_irrelevant_witness :
  list_runs no_filter [demo_run "r2" 20; demo_run "r1" 10] =
  list_runs no_filter [demo_run "r1" 10; demo_run "r2" 20].
Proof.
  transitivity (list_runs no_filter (values (runs demo_state))).
  - apply (visit_order_irrelevant demo_state); [apply demo_ok|].
    rewrite (Permutation_swap (demo_run "r1" 10)). vm_compute. reflexivity.
  - vm_compute. reflexivity.
Defined.

(** Jobs and runs read back as they were last written.  A put replaces one
    job and a delete removes it, failing when it is absent; an update of an
    unknown run fails and creates nothing. *)
Theorem Memory_crud (s : state) (j : Job) (r : Run) (id : string) :
  (GetJob id (PutJob j s).2).1 = (if decide (id = job_ID j) then Ok j else (GetJob id s).1)
  /\ (GetJob id (DeleteJob (job_ID j) s).2).1
       = (if decide (id = job_ID j) then Err ErrNotFound else (GetJob id s).1)
  /\ ((DeleteJob id s).1 = Ok tt <-> is_ok (GetJob id s).1 = true)
  /\ (GetRun id (CreateRun r s).2).1 = (if decide (id = run_ID r) then Ok r else (GetRun id s).1)
  /\ (if is_ok (GetRun (run_ID r) s).1
      then UpdateRun r s = CreateRun r s
      else UpdateRun r s = (Err ErrNotFound, s)).
Proof.
  unfold GetJob, PutJob, DeleteJob, GetRun, CreateRun, UpdateRun, Run_Clone. simpl.
  split_and!.
  - destruct (decide (id = job_ID j)) as [->|Hne].
    + by rewrite lookup_insert_eq, !Job_Clone_id.
    + rewrite lookup_insert_ne by congruence. by case_on.
  - destruct (decide (id = job_ID j)) as [->|Hne].
    + destruct (jobs s !! job_ID j) eqn:E; simpl; [by rewrite lookup_delete_eq|by rewrite E].
    + destruct (jobs s !! job_ID j) eqn:E; simpl; [|done].
      rewrite lookup_delete_ne by congruence. by case_on.
  - destruct (jobs s !! id); simpl; done.
  - destruct (decide (id = run_ID r)) as [->|Hne].
    + by rewrite lookup_insert_eq.
    + rewrite lookup_insert_ne by congruence. by case_on.
  - destruct (runs s !! run_ID r); done.
Qed.


End Memory.
