(* ===== verification/Backoff.v ===== *)
(** * Retry delays

    Models [src/backoff/backoff.go].  The random number [rand.Float64()] and the
    result of converting a float that does not fit [int64], which the language
    leaves to the implementation, are arguments. *)

From Stdlib Require Import ZArith Lia SpecFloat.
From stdpp Require Import base list.
From S2P Require Import Prelude GoTime GoFloat FloatFacts.

#[local] Open Scope Z_scope.

Module Backoff.

Definition defaultBase : duration := 100 * Millisecond.
Definition defaultFactor : float64 := f_two.

Record Exponential := mkExponential {
  Base : duration;
  Max : duration;
  Factor : float64;
  Jitter : float64
}.

(** [math.Pow(factor, float64(attempt))]. *)
Definition growth (factor : float64) (attempt : Z) : float64 :=
  pow_nat factor (default 0 (f_trunc (f_of_Z attempt))).

(** The delay as a float, before the jitter. *)
Definition capped (e : Exponential) (attempt : Z) : float64 :=
  let attempt := if attempt <? 0 then 0 else attempt in
  let base := if Base e <=? 0 then defaultBase else Base e in
  let factor := if fleb (Factor e) f_one then defaultFactor else Factor e in
  let d := fmul (f_of_Z base) (growth factor attempt) in
  if (0 <? Max e) && fltb (f_of_Z (Max e)) d then f_of_Z (Max e) else d.

(** [d*(1-j) + u*d*j] for a positive jitter [j], at most 1. *)
Definition jittered (e : Exponential) (u d : float64) : float64 :=
  let j := Jitter e in
  if fltb f_zero j then
    let j := if fltb f_one j then f_one else j in
    fadd (fmul d (fsub f_one j)) (fmul (fmul u d) j)
  else d.

(** Saturate, else convert. *)
Definition to_duration (conv : float64 -> Z) (d : float64) : duration :=
  if fleb (f_of_Z max_int64) d then max_int64 else int64_of_float conv d.

Definition Delay (conv : float64 -> Z) (u : float64) (e : Exponential) (attempt : Z) : duration :=
  to_duration conv (jittered e u (capped e attempt)).

Example delay_default :
  map (Delay (fun _ => 0) f_zero (mkExponential 0 0 f_zero f_zero)) [-1; 0; 1; 2; 10]
  = [100 * Millisecond; 100 * Millisecond; 200 * Millisecond; 400 * Millisecond;
     102400 * Millisecond].
Proof. vm_compute. done. Qed.
Example delay_cap :
  map (Delay (fun _ => 0) f_zero (mkExponential Second (5 * Second) f_two f_zero)) [0; 1; 2; 3; 5000]
  = [Second; 2 * Second; 4 * Second; 5 * Second; 5 * Second].
Proof. vm_compute. done. Qed.
Example delay_overflow :
  Delay (fun _ => 0) f_zero (mkExponential Second 0 f_two f_zero) 5000 = max_int64.
Proof. vm_compute. done. Qed.

(** Jitter turns an infinite delay into NaN when the draw is zero; it passes
    the guard that saturates, and its conversion is left to the implementation.
    Without jitter the same delay saturates. *)
Theorem Delay_jitter_of_infinity conv :
  Delay conv f_zero (mkExponential Second 0 f_two (f_lit 1 (-1))) 5000 = conv S754_nan
  /\ Delay conv f_zero (mkExponential Second 0 f_two f_zero) 5000 = max_int64.
Proof. split; vm_compute; reflexivity. Qed.

(** The cap is [float64(Max)], which may be above [Max]. *)
Lemma Delay_exceeds_Max conv :
  let e := mkExponential (2 ^ 62) (2 ^ 62 + 513) f_two f_zero in
  Delay conv f_zero e 1 = Max e + 511.
Proof. vm_compute. reflexivity. Qed.

(** ** The parts of [Delay] *)

(** A [float64] of the program: in the binary64 format and not a NaN. *)
Definition is_number (f : float64) : Prop := valid_binary 53 1024 f = true /\ f <> S754_nan.

Lemma valid_mantissa s m e : valid_binary 53 1024 (S754_finite s m e) = true -> Zpos m < 2 ^ 53.
Proof.
  cbn [valid_binary]. unfold bounded, canonical_mantissa, fexp, emin. intros H.
  apply andb_true_iff in H as [H _]. apply Z.eqb_eq in H.
  eapply Z.lt_le_trans; [apply digits2_bounds|]. apply Z.pow_le_mono_r; lia.
Qed.

(** The factor [Delay] multiplies with is positive. *)
Lemma factor_good f :
  is_number f -> good (if fleb f f_one then defaultFactor else f).
Proof.
  intros [Hv Hn]. destruct (fleb f f_one) eqn:E; [by vm_compute|].
  change f_one with (S754_finite false 4503599627370496 (-52)) in E.
  destruct f as [s|[]| |[] m e]; try done. split; [done|]. by eapply valid_mantissa.
Qed.

Lemma base_positive e : Base e <= max_int64 ->
  0 < (if Base e <=? 0 then defaultBase else Base e) < 2 ^ 63.
Proof. unfold max_int64, two63. intros H. destruct (Z.leb_spec (Base e) 0); [by vm_compute|lia]. Qed.

Lemma capped_good e attempt :
  Base e <= max_int64 -> is_number (Factor e) -> good (capped e attempt).
Proof.
  intros Hb Hf. unfold capped. cbv zeta.
  set (base := if Base e <=? 0 then _ else _).
  destruct (f_of_Z_finite base (base_positive e Hb)) as (m & k & -> & _).
  destruct ((0 <? Max e) && _) eqn:E.
  - apply andb_true_iff in E as [E _]. apply f_of_Z_good. lia.
  - apply fmul_good, pow_nat_good, factor_good, Hf.
Qed.

(** Every non-negative number is converted without an out-of-range conversion. *)
Lemma to_duration_good d :
  good d -> exists z, (forall conv, to_duration conv d = z) /\ 0 <= z <= max_int64.
Proof.
  intros Hd. unfold to_duration. destruct (fleb (f_of_Z max_int64) d) eqn:E.
  - exists max_int64. by split; [|vm_compute].
  - destruct (trunc_in_range d Hd E) as (z & Hz & Hr). exists z. split; [|done].
    intros conv. unfold int64_of_float. rewrite Hz.
    by rewrite (proj2 (andb_true_iff _ _)) by (unfold min_int64, max_int64, two63 in *; lia).
Qed.

Lemma jittered_none e u d : fltb f_zero (Jitter e) = false -> jittered e u d = d.
Proof. unfold jittered. by intros ->. Qed.

Lemma to_duration_value conv d v :
  value_is d v -> 0 <= v -> to_duration conv d = Z.min max_int64 v.
Proof.
  intros Hd Hv. unfold to_duration, int64_of_float.
  rewrite (fleb_value _ _ _ _ max_int64_value Hd), (trunc_value _ _ Hd).
  destruct (Z.leb_spec two63 v); [unfold max_int64; lia|].
  rewrite (proj2 (andb_true_iff _ _)) by (unfold min_int64, max_int64, two63 in *; lia).
  unfold max_int64; lia.
Qed.

Lemma to_duration_capped conv d v :
  good d -> 0 < v < 2 ^ 53 -> fltb (f_of_Z v) d = false -> to_duration conv d <= v.
Proof.
  intros Hd Hv Hlt. destruct (trunc_le_exact d v Hd Hv Hlt) as (Hle & z & Hz & Hr).
  unfold to_duration, int64_of_float. rewrite Hle, Hz.
  rewrite (proj2 (andb_true_iff _ _)) by (unfold min_int64, max_int64, two63 in *; lia). lia.
Qed.

Lemma capped_le_Max conv e attempt :
  Base e <= max_int64 -> is_number (Factor e) -> 0 < Max e < 2 ^ 53 ->
  to_duration conv (capped e attempt) <= Max e.
Proof.
  intros Hb Hf HM. pose proof (capped_good e attempt Hb Hf) as Hg. revert Hg.
  unfold capped. cbv zeta. rewrite (proj2 (Z.ltb_lt _ _)) by lia. cbn [andb].
  destruct (fltb (f_of_Z (Max e)) _) eqn:E; intros Hg.
  - rewrite (to_duration_value conv _ (Max e)) by (by apply f_of_Z_value || lia). lia.
  - by apply to_duration_capped.
Qed.

(** C37: without jitter, for every policy whose factor is not NaN (zero, below
    one, negative and infinite included) and every attempt, however large, the delay is
    in [0, math.MaxInt64] and does not depend on the random draw nor on what the
    platform makes of an out-of-range conversion: none happens.  A positive cap
    below 2^53 nanoseconds (104 days) bounds it; a larger cap may be rounded up
    ([Delay_exceeds_Max]). *)
Theorem Delay_bounds e attempt :
  Base e <= max_int64 -> is_number (Factor e) -> fltb f_zero (Jitter e) = false ->
  exists z, (forall conv u, Delay conv u e attempt = z)
    /\ 0 <= z <= max_int64
    /\ (0 < Max e < 2 ^ 53 -> z <= Max e).
Proof.
  intros Hb Hf Hj. destruct (to_duration_good _ (capped_good e attempt Hb Hf)) as (z & Hz & Hr).
  exists z. split; [|split; [done|]].
  - intros conv u. unfold Delay. by rewrite jittered_none.
  - intros HM. rewrite <-(Hz (fun _ => 0)). by apply capped_le_Max.
Qed.

Definition steep : Exponential := mkExponential Second (30 * Second) (f_lit 3 (-1)) f_zero.

Lemma Delay_bounds_witness :
  exists z, (forall conv u, Delay conv u steep 100000 = z)
    /\ 0 <= z <= max_int64
    /\ (0 < Max steep < 2 ^ 53 -> z <= Max steep).
Proof.
  apply Delay_bounds; [vm_compute; discriminate|split; [reflexivity|discriminate]|reflexivity].
Defined.

(** ** Doubling *)

Definition powers_of_two_ok : bool :=
  forallb (fun n => match growth f_two (Z.of_nat n) with
                    | S754_finite false m e => (m =? 2 ^ 52)%positive && (e =? Z.of_nat n - 52)
                    | _ => false
                    end) (seq 0 901).

Lemma growth_two n : 0 <= n <= 900 -> growth f_two n = S754_finite false (2 ^ 52) (n - 52).
Proof.
  intros Hn. assert (powers_of_two_ok = true) as H by (vm_compute; reflexivity).
  unfold powers_of_two_ok in H. rewrite forallb_forall in H.
  specialize (H (Z.to_nat n)). rewrite Z2Nat.id in H by lia.
  specialize (H ltac:(apply in_seq; lia)).
  destruct (growth f_two n) as [| | |[] m e]; try done.
  apply andb_true_iff in H as [Hm He]. apply Pos.eqb_eq in Hm. apply Z.eqb_eq in He. by subst.
Qed.

Lemma product_value base n :
  0 < base < 2 ^ 53 -> 0 <= n <= 900 ->
  value_is (fmul (f_of_Z base) (growth f_two n)) (base * 2 ^ n).
Proof.
  intros Hb Hn. rewrite growth_two by done. apply fmul_pow2; [by apply f_of_Z_value|done|].
  intros m e Hf. destruct (f_of_Z_exact base Hb) as (m' & e' & Hf' & _ & He & _).
  rewrite Hf' in Hf. injection Hf as -> ->. lia.
Qed.

(** C36: the default policy doubles exactly: without jitter, with a factor of 2
    (or one at most 1, which selects 2), a base and a cap below 2^53
    nanoseconds (104 days), the delay of attempt [n], for [n] up to 900, is [base * 2^n] cut at the cap, or at
    [math.MaxInt64] where there is none; a negative attempt counts as 0 and a
    base that is not positive as 100 ms.  No bit is lost to the floating point
    the code computes in. *)
Theorem Delay_doubles conv u e attempt :
  Base e < 2 ^ 53 -> Max e < 2 ^ 53 -> attempt <= 900 ->
  Factor e = f_two \/ fleb (Factor e) f_one = true ->
  fltb f_zero (Jitter e) = false ->
  Delay conv u e attempt
  = Z.min (if 0 <? Max e then Max e else max_int64)
          ((if Base e <=? 0 then defaultBase else Base e) * 2 ^ Z.max 0 attempt).
Proof.
  intros Hb HM Ha Hf Hj. unfold Delay. rewrite jittered_none by done. unfold capped. cbv zeta.
  assert ((if fleb (Factor e) f_one then defaultFactor else Factor e) = f_two) as ->
    by (by destruct Hf as [->| ->]).
  replace (if attempt <? 0 then 0 else attempt) with (Z.max 0 attempt)
    by (destruct (Z.ltb_spec attempt 0); lia).
  assert (0 < (if Base e <=? 0 then defaultBase else Base e) < 2 ^ 53) as Hbase
    by (destruct (Z.leb_spec (Base e) 0); [by vm_compute|lia]).
  set (base := if Base e <=? 0 then _ else _) in *.
  set (n := Z.max 0 attempt) in *.
  assert (0 < 2 ^ n) by (apply Z.pow_pos_nonneg; lia).
  pose proof (product_value base n Hbase ltac:(lia)) as Hv.
  destruct (Z.ltb_spec 0 (Max e)) as [HM0|HM0]; cbn [andb].
  - rewrite (fltb_value _ _ _ _ (f_of_Z_value (Max e) ltac:(lia)) Hv).
    destruct (Z.ltb_spec (Max e) (base * 2 ^ n)).
    + rewrite (to_duration_value conv _ (Max e)) by (by apply f_of_Z_value || lia).
      unfold max_int64, two63. lia.
    + rewrite (to_duration_value conv _ _ Hv) by lia. unfold max_int64, two63. lia.
  - by rewrite (to_duration_value conv _ _ Hv) by lia.
Qed.

Lemma Delay_doubles_witness :
  Delay (fun _ => 0) f_zero (mkExponential 0 (30 * Second) f_zero f_zero) 7 = 12800 * Millisecond.
Proof.
  rewrite Delay_doubles; [reflexivity|reflexivity|reflexivity|discriminate|right; reflexivity|reflexivity].
Defined.

End Backoff.
