(* ===== verification/FaultyStore.v ===== *)
(** * A store whose calls fail on a schedule

    The in-memory store behind a connection that fails: the [k]-th call fails
    when the [k]-th entry of the plan says so.  It meets the store contract with
    backend failures, so it exercises the error paths of the scheduler. *)

From Stdlib Require Import ZArith Lia String.
From stdpp Require Import base list strings gmap.
From S2P Require Import Prelude GoTime GoFloat Job Store MemoryStore.

#[local] Open Scope string_scope.
#[local] Open Scope list_scope.

Module Faulty.

Record state := mkState { inner : Memory.state; plan : list bool }.

Definition connection_lost {A} : result store_error A := Err (Backend "connection lost").

Definition fail {R} (c : call R) : R :=
  match c in call R return R with
  | PutJob _ => connection_lost
  | GetJob _ => connection_lost
  | ListJobs => connection_lost
  | DeleteJob _ => connection_lost
  | CreateRun _ => connection_lost
  | GetRun _ => connection_lost
  | UpdateRun _ => connection_lost
  | ListRuns _ => connection_lost
  | ClaimDue _ _ _ _ => connection_lost
  | Close => connection_lost
  end.

Definition methods (R : Type) (c : call R) (s : state) : R * state :=
  let rest := tail (plan s) in
  if hd false (plan s) then (fail c, mkState (inner s) rest)
  else let '(r, m) := Memory.methods R c (inner s) in (r, mkState m rest).

Definition faulty_view (s : state) : db := Memory.mem_view (inner s).
Definition faulty_ok (s : state) : Prop := Memory.mem_ok (inner s).

Lemma fail_failed R (c : call R) d : store_spec true c d (fail c) d.
Proof. destruct c; left; (split; [done|split; [by eexists|done]]). Qed.

Lemma spec_fallible R (c : call R) d r d' : store_spec false c d r d' -> store_spec true c d r d'.
Proof. destruct c; (intros [Hf|Hs]; [by apply proj1 in Hf|right; exact Hs]). Qed.

Lemma faulty_methods_ok R (c : call R) s : faulty_ok s -> faulty_ok (methods R c s).2.
Proof.
  unfold methods, faulty_ok. intros Hok. destruct (hd false (plan s)); [done|].
  pose proof (Memory.methods_ok R c (inner s) Hok) as Hm.
  by destruct (Memory.methods R c (inner s)).
Qed.

Lemma faulty_methods_spec R (c : call R) s :
  faulty_ok s -> store_spec true c (faulty_view s) (methods R c s).1 (faulty_view (methods R c s).2).
Proof.
  unfold methods, faulty_view. intros Hok. destruct (hd false (plan s)); [apply fail_failed|].
  pose proof (Memory.methods_spec R c (inner s) Hok) as Hm.
  destruct (Memory.methods R c (inner s)). by apply spec_fallible.
Qed.

#[global] Instance store : Store state := {
  handle := methods;
  view := faulty_view;
  store_ok := faulty_ok;
  fallible := true;
  store_keyed := fun s H => H;
  handle_ok := faulty_methods_ok;
  handle_spec := faulty_methods_spec
}.

End Faulty.
