(* ===== verification/PostgresStore.v ===== *)
(** * The PostgreSQL store

    Models [src/internal/store/postgres/postgres.go] and the tables of
    [schema.sql].  The methods build their statements and read their rows back as
    the code does; a statement is the function on the tables that its SQL text
    describes, executed in one round trip.

    What the database server and the driver decide is the class [Server]: the
    precision of a [timestamptz] column, the JSON a [jsonb] column holds, the
    texts a [text] column accepts, the collation, the order in which an
    unsorted result is delivered.  A round trip may fail, before or after the
    statement took effect. *)

From Stdlib Require Import ZArith Lia String.
From stdpp Require Import base list strings gmap sorting.
From S2P Require Import Prelude GoTime GoFloat Job Store MemoryStore.

#[local] Open Scope string_scope.
#[local] Open Scope list_scope.
#[local] Open Scope Z_scope.

(** ** The server *)

Class Server := {
  jsonb : Type;
  (** [json.Marshal] and the insertion into a [jsonb] column; [None] when the
      statement is refused: no value, or one that [jsonb] does not represent. *)
  store_strings : list string -> option jsonb;
  store_policy : RetryPolicy -> option jsonb;
  (** Reading the column and [json.Unmarshal], whose error is dropped. *)
  load_strings : jsonb -> option (list string);
  load_policy : jsonb -> option RetryPolicy;
  (** The texts that a [text] column accepts. *)
  text_ok : string -> bool;
  (** An instant after a stay in a [timestamptz] column. *)
  ts : time -> time;
  (** The collation of the identifiers. *)
  id_ltb : string -> string -> bool;
  (** The order in which a scan delivers the rows, and in which [RETURNING] does. *)
  scan_order : forall {A}, list A -> list A;
  return_order : forall {A}, list A -> list A
}.

(** Documented behaviour: a result without [ORDER BY] is a permutation of the
    rows, a database created with the C collation compares bytes, and reading an
    instant back and storing it again changes nothing. *)
Class ServerLaws `{Server} := {
  scan_perm : forall A (l : list A), scan_order l ≡ₚ l;
  return_perm : forall A (l : list A), return_order l ≡ₚ l;
  collation_C : forall a b, id_ltb a b = String.ltb a b;
  ts_ts : forall t, ts (ts t) = ts t
}.

Module Postgres.
Section Postgres.
Context `{Server}.

(** ** Tables *)

Record job_row := mkJobRow {
  jr_id : string;
  jr_name : string;
  jr_spec : string;
  jr_command : jsonb;
  jr_max_retries : Z;
  jr_backoff : jsonb;
  jr_depends_on : jsonb;
  jr_timeout : Z;
  jr_enabled : bool;
  jr_created_at : time;
  jr_updated_at : time
}.

Record run_row := mkRunRow {
  rr_id : string;
  rr_job_id : string;
  rr_batch_id : string;
  rr_state : string;
  rr_attempt : Z;
  rr_scheduled_for : time;
  rr_started_at : option time;
  rr_finished_at : option time;
  rr_lease_expiry : option time;
  rr_worker : string;
  rr_error : string;
  rr_created_at : time;
  rr_updated_at : time
}.

Record tables := mkTables {
  t_jobs : gmap string job_row;
  t_runs : gmap string run_row
}.

(** ** The connection

    The fate of a round trip: the statement is executed, some runs being locked
    by transactions in progress; or the connection fails before or after the
    statement took effect.  [Now] readings of the process are numbered too. *)
Inductive fate :=
| Done (locked : gset string)
| Refused (msg : string)
| Lost (msg : string).

Record state := mkState {
  db_tables : tables;
  fates : list fate;
  clock : list time
}.

(** A statement: an error of the server, or its result and the new tables. *)
Definition statement (R : Type) := gset string -> tables -> result string (R * tables).

Definition round_trip {R} (stmt : statement R) (s : state) : result store_error R * state :=
  match fates s with
  | Refused msg :: fs => (Err (Backend msg), mkState (db_tables s) fs (clock s))
  | Lost msg :: fs =>
      let t := match stmt ∅ (db_tables s) with Ok (_, t) => t | Err _ => db_tables s end in
      (Err (Backend msg), mkState t fs (clock s))
  | f =>
      let locked := match f with Done l :: _ => l | _ => ∅ end in
      match stmt locked (db_tables s) with
      | Ok (r, t) => (Ok r, mkState t (tail f) (clock s))
      | Err msg => (Err (Backend msg), mkState (db_tables s) (tail f) (clock s))
      end
  end.

(** [time.Now().UTC()]. *)
Definition time_Now (s : state) : time * state :=
  (hd zero_time (clock s), mkState (db_tables s) (fates s) (tail (clock s))).

Definition orNow (t : time) (s : state) : time * state :=
  if IsZero t then time_Now s else (t, s).

(** A nil slice is marshalled as an empty one; both are the empty list here. *)
Definition nonNil (l : list string) : list string := l.

(** The value of a nullable column. *)
Definition nullTime (t : time) : option time := if IsZero t then None else Some t.

(** [int] columns hold 32 bits. *)
Definition int4_ok (n : Z) : bool := (- 2 ^ 31 <=? n) && (n <? 2 ^ 31).

(** ** Jobs *)

(** [INSERT INTO jobs ... ON CONFLICT (id) DO UPDATE SET ...]: every column but
    [created_at] is replaced. *)
Definition upsert_job (row : job_row) : statement unit := fun _ t =>
  if text_ok (jr_id row) && text_ok (jr_name row) && text_ok (jr_spec row)
     && int4_ok (jr_max_retries row)
  then
    let row := match t_jobs t !! jr_id row with
               | None => row
               | Some old => mkJobRow (jr_id row) (jr_name row) (jr_spec row) (jr_command row)
                   (jr_max_retries row) (jr_backoff row) (jr_depends_on row) (jr_timeout row)
                   (jr_enabled row) (jr_created_at old) (jr_updated_at row)
               end in
    Ok (tt, mkTables (<[jr_id row := row]> (t_jobs t)) (t_runs t))
  else Err "invalid input".

Definition not_null : statement unit := fun _ _ => Err "null value violates not-null constraint".

Definition PutJob (j : Job) (s : state) : result store_error unit * state :=
  let command := store_strings (nonNil (job_Command j)) in
  let backoff := store_policy (job_Backoff j) in
  let deps := store_strings (nonNil (job_DependsOn j)) in
  let '(created, s) := orNow (job_CreatedAt j) s in
  let '(updated, s) := orNow (job_UpdatedAt j) s in
  match command, backoff, deps with
  | Some command, Some backoff, Some deps =>
      round_trip (upsert_job (mkJobRow (job_ID j) (job_Name j) (job_Spec j) command (job_MaxRetries j)
        backoff deps (job_Timeout j) (job_Enabled j) (ts created) (ts updated))) s
  | _, _, _ => round_trip not_null s
  end.

(** A column that does not decode leaves its field at the zero value. *)
Definition scanJob (row : job_row) : Job :=
  mkJob (jr_id row) (jr_name row) (jr_spec row) (default [] (load_strings (jr_command row)))
    (jr_max_retries row) (default zero_policy (load_policy (jr_backoff row)))
    (default [] (load_strings (jr_depends_on row))) (jr_timeout row) (jr_enabled row)
    (jr_created_at row) (jr_updated_at row).

(** [SELECT ... FROM jobs WHERE id = $1]: the row, if any. *)
Definition select_job (id : string) : statement (option job_row) := fun _ t =>
  if text_ok id then Ok (t_jobs t !! id, t) else Err "invalid input".

Definition GetJob (id : string) (s : state) : result store_error Job * state :=
  let '(r, s) := round_trip (select_job id) s in
  (match r with
   | Ok None => Err ErrNotFound
   | Ok (Some row) => Ok (scanJob row)
   | Err e => Err e
   end, s).

Definition values {A} (m : gmap string A) : list A := scan_order ((map_to_list m).*2).

(** [SELECT ... FROM jobs ORDER BY id]. *)
Definition select_jobs : statement (list job_row) := fun _ t =>
  Ok (sort_slice (fun a b => id_ltb (jr_id a) (jr_id b)) (values (t_jobs t)), t).

Definition ListJobs (s : state) : result store_error (list Job) * state :=
  let '(r, s) := round_trip select_jobs s in
  (match r with Ok rows => Ok (map scanJob rows) | Err e => Err e end, s).

(** [DELETE FROM jobs WHERE id = $1]: the number of rows affected. *)
Definition delete_job (id : string) : statement Z := fun _ t =>
  if text_ok id then
    Ok (match t_jobs t !! id with Some _ => 1 | None => 0 end,
        mkTables (delete id (t_jobs t)) (t_runs t))
  else Err "invalid input".

Definition DeleteJob (id : string) (s : state) : result store_error unit * state :=
  let '(r, s) := round_trip (delete_job id) s in
  (match r with
   | Err e => Err e
   | Ok n => if n =? 0 then Err ErrNotFound else Ok tt
   end, s).

(** ** Runs *)

Definition texts_ok (row : run_row) : bool :=
  text_ok (rr_id row) && text_ok (rr_job_id row) && text_ok (rr_batch_id row)
  && text_ok (rr_state row) && text_ok (rr_worker row) && text_ok (rr_error row)
  && int4_ok (rr_attempt row).

Definition insert_run (row : run_row) : statement unit := fun _ t =>
  if texts_ok row then
    match t_runs t !! rr_id row with
    | Some _ => Err "duplicate key value violates unique constraint"
    | None => Ok (tt, mkTables (t_jobs t) (<[rr_id row := row]> (t_runs t)))
    end
  else Err "invalid input".

Definition CreateRun (r : Run) (s : state) : result store_error unit * state :=
  let '(created, s) := orNow (run_CreatedAt r) s in
  let '(updated, s) := orNow (run_UpdatedAt r) s in
  round_trip (insert_run (mkRunRow (run_ID r) (run_JobID r) (run_BatchID r) (run_State r)
    (run_Attempt r) (ts (run_ScheduledFor r)) (ts <$> run_StartedAt r) (ts <$> run_FinishedAt r)
    (ts <$> nullTime (run_LeaseExpiry r)) (run_Worker r) (run_Error r) (ts created) (ts updated))) s.

Definition scanRun (row : run_row) : Run :=
  mkRun (rr_id row) (rr_job_id row) (rr_batch_id row) (rr_state row) (rr_attempt row)
    (rr_scheduled_for row) (rr_started_at row) (rr_finished_at row)
    (match rr_lease_expiry row with Some t => t | None => zero_time end)
    (rr_worker row) (rr_error row) (rr_created_at row) (rr_updated_at row).

Definition select_run (id : string) : statement (option run_row) := fun _ t =>
  if text_ok id then Ok (t_runs t !! id, t) else Err "invalid input".

Definition GetRun (id : string) (s : state) : result store_error Run * state :=
  let '(r, s) := round_trip (select_run id) s in
  (match r with
   | Ok None => Err ErrNotFound
   | Ok (Some row) => Ok (scanRun row)
   | Err e => Err e
   end, s).

(** [UPDATE runs SET ... WHERE id=$1]: every column but [created_at]. *)
Definition update_run (row : run_row) : statement Z := fun _ t =>
  if texts_ok row then
    match t_runs t !! rr_id row with
    | None => Ok (0, t)
    | Some old =>
        Ok (1, mkTables (t_jobs t) (<[rr_id row :=
          mkRunRow (rr_id row) (rr_job_id row) (rr_batch_id row) (rr_state row) (rr_attempt row)
            (rr_scheduled_for row) (rr_started_at row) (rr_finished_at row) (rr_lease_expiry row)
            (rr_worker row) (rr_error row) (rr_created_at old) (rr_updated_at row)]> (t_runs t)))
    end
  else Err "invalid input".

Definition UpdateRun (r : Run) (s : state) : result store_error unit * state :=
  let '(updated, s) := orNow (run_UpdatedAt r) s in
  let '(res, s) := round_trip (update_run (mkRunRow (run_ID r) (run_JobID r) (run_BatchID r)
    (run_State r) (run_Attempt r) (ts (run_ScheduledFor r)) (ts <$> run_StartedAt r)
    (ts <$> run_FinishedAt r) (ts <$> nullTime (run_LeaseExpiry r)) (run_Worker r) (run_Error r)
    zero_time (ts updated))) s in
  (match res with
   | Err e => Err e
   | Ok n => if n =? 0 then Err ErrNotFound else Ok tt
   end, s).

(** The query that [ListRuns] assembles: the columns it compares, in the order
    of their placeholders, and the window. *)
Record query := mkQuery {
  q_conds : list (string * string);
  q_limit : option Z;
  q_offset : option Z
}.

Definition build_query (f : RunFilter) : query :=
  let add (conds : list (string * string)) clause val :=
    if negb (String.eqb val "") then conds ++ [(clause, val)] else conds in
  let conds := add [] "job_id" (rf_JobID f) in
  let conds := add conds "batch_id" (rf_BatchID f) in
  let conds := add conds "state" (rf_State f) in
  mkQuery conds (if 0 <? rf_Limit f then Some (rf_Limit f) else None)
    (if 0 <? rf_Offset f then Some (rf_Offset f) else None).

Definition column (row : run_row) (name : string) : string :=
  if String.eqb name "job_id" then rr_job_id row
  else if String.eqb name "batch_id" then rr_batch_id row
  else rr_state row.

(** [ORDER BY created_at DESC, id DESC]. *)
Definition newest_first (a b : run_row) : bool :=
  if rr_created_at a =? rr_created_at b then id_ltb (rr_id b) (rr_id a)
  else rr_created_at b <? rr_created_at a.

Definition select_runs (q : query) : statement (list run_row) := fun _ t =>
  if forallb (fun c => text_ok c.2) (q_conds q) then
    let rows := sort_slice newest_first
      (filter (fun row => forallb (fun c => String.eqb (column row c.1) c.2) (q_conds q) = true)
        (values (t_runs t))) in
    let rows := match q_offset q with Some n => drop (Z.to_nat n) rows | None => rows end in
    Ok (match q_limit q with Some n => take (Z.to_nat n) rows | None => rows end, t)
  else Err "invalid input".

Definition ListRuns (f : RunFilter) (s : state) : result store_error (list Run) * state :=
  let '(r, s) := round_trip (select_runs (build_query f)) s in
  (match r with Ok rows => Ok (map scanRun rows) | Err e => Err e end, s).

(** The [WHERE] clause of the claim: a comparison with NULL does not hold. *)
Definition is_ready (now : time) (row : run_row) : bool :=
  (String.eqb (rr_state row) "pending" && (rr_scheduled_for row <=? now))
  || (String.eqb (rr_state row) "running"
      && match rr_lease_expiry row with Some t => t <? now | None => false end).

(** The CTE: the ready rows that nobody else holds, by due time. *)
Definition ready_rows (now : time) (limit : Z) (locked : gset string) (t : tables) : list run_row :=
  take (Z.to_nat limit)
    (filter (fun row => rr_id row ∉ locked)
      (sort_slice (fun a b => rr_scheduled_for a <? rr_scheduled_for b)
        (filter (fun row => is_ready now row = true) (values (t_runs t))))).

(** The [SET] clause of the claim. *)
Definition stamp (now : time) (worker : string) (expiry : time) (row : run_row) : run_row :=
  mkRunRow (rr_id row) (rr_job_id row) (rr_batch_id row) "running" (rr_attempt row)
    (rr_scheduled_for row)
    (match rr_started_at row with Some t => Some t | None => Some now end)
    (rr_finished_at row) (Some expiry) worker (rr_error row) (rr_created_at row) now.

Definition put_row (m : gmap string run_row) (row : run_row) : gmap string run_row :=
  <[rr_id row := row]> m.

Definition claim_runs (now : time) (worker : string) (expiry : time) (limit : Z)
  : statement (list run_row) := fun locked t =>
  if text_ok worker && (0 <=? limit) then
    let rows := map (stamp now worker expiry) (ready_rows now limit locked t) in
    Ok (return_order rows, mkTables (t_jobs t) (foldl put_row (t_runs t) rows))
  else Err "invalid input".

Definition ClaimDue (now : time) (worker : string) (lease : duration) (limit : Z) (s : state)
  : result store_error (list Run) * state :=
  let '(r, s) := round_trip (claim_runs (ts now) worker (ts (Add now lease)) limit) s in
  (match r with Ok rows => Ok (map scanRun rows) | Err e => Err e end, s).

(** ** The connection pool *)

(** [Close] gives the error of the pool, if any. *)
Definition Close (s : state) : result store_error unit * state :=
  match fates s with
  | Refused msg :: fs | Lost msg :: fs => (Err (Backend msg), mkState (db_tables s) fs (clock s))
  | fs => (Ok tt, mkState (db_tables s) (tail fs) (clock s))
  end.

(** [TRUNCATE jobs, runs]. *)
Definition Reset (s : state) : result store_error unit * state :=
  round_trip (fun _ _ => Ok (tt, mkTables ∅ ∅)) s.

(** [Open]: connect, ping, apply the schema, which keeps existing tables. *)
Inductive open_error := OpenFailed (msg : string) | PingFailed (msg : string) | MigrateFailed (msg : string).

Definition Open (connect : option string) (s : state) : result open_error state * state :=
  match connect with
  | Some msg => (Err (OpenFailed msg), s)
  | None =>
      let '(ping, s) := round_trip (fun _ t => Ok (tt, t)) s in
      match ping with
      | Err e => (Err (PingFailed (match e with ErrNotFound => "" | Backend msg => msg end)), s)
      | Ok _ =>
          let '(migrate, s) := round_trip (fun _ t => Ok (tt, t)) s in
          match migrate with
          | Err e => (Err (MigrateFailed (match e with ErrNotFound => "" | Backend msg => msg end)), s)
          | Ok _ => (Ok s, s)
          end
      end
  end.

(** The method table. *)
Definition methods (R : Type) (c : call R) : state -> R * state :=
  match c in call R return state -> R * state with
  | Store.PutJob j => PutJob j
  | Store.GetJob id => GetJob id
  | Store.ListJobs => ListJobs
  | Store.DeleteJob id => DeleteJob id
  | Store.CreateRun r => CreateRun r
  | Store.GetRun id => GetRun id
  | Store.UpdateRun r => UpdateRun r
  | Store.ListRuns f => ListRuns f
  | Store.ClaimDue now worker lease limit => ClaimDue now worker lease limit
  | Store.Close => Close
  end.

(** ** The tables as an abstract database *)

Definition view (t : tables) : db := mkDb (scanJob <$> t_jobs t) (scanRun <$> t_runs t).

(** Rows are stored under their identifiers. *)
Definition keyed_tables (t : tables) : Prop :=
  map_Forall (fun k row => jr_id row = k) (t_jobs t)
  /\ map_Forall (fun k row => rr_id row = k) (t_runs t).

(** The answer of the next round trip does not get lost after its statement took
    effect. *)
Definition answered (s : state) : Prop := forall msg, head (fates s) <> Some (Lost msg).

(** The connection's error as the result of a call. *)
Definition backend_error {R} (c : call R) (msg : string) : R :=
  match c in call R return R with
  | Store.PutJob _ | Store.DeleteJob _ | Store.CreateRun _ | Store.UpdateRun _ | Store.Close
  | Store.GetJob _ | Store.GetRun _ | Store.ListJobs | Store.ListRuns _
  | Store.ClaimDue _ _ _ _ => Err (Backend msg)
  end.

Lemma keyed_view t : keyed_tables t -> keyed (view t).
Proof. intros [Hj Hr]. split; intros k x; cbn; rewrite lookup_fmap_Some; intros (row & <- & Hx); [by apply Hj|by apply Hr]. Qed.

(** ** What the columns keep of a call

    The arguments as they come back: instants through [timestamptz], an instant
    that is zero replaced by the time of the call, JSON columns, and the creation
    time of a row that exists already. *)

Definition kept_created (old : option time) (new : time) : time := default new old.

Definition stored_job (s : state) (j : Job) : Job :=
  let '(created, s1) := orNow (job_CreatedAt j) s in
  let '(updated, _) := orNow (job_UpdatedAt j) s1 in
  mkJob (job_ID j) (job_Name j) (job_Spec j)
    (default [] (c ← store_strings (job_Command j); load_strings c)) (job_MaxRetries j)
    (default zero_policy (b ← store_policy (job_Backoff j); load_policy b))
    (default [] (d ← store_strings (job_DependsOn j); load_strings d)) (job_Timeout j) (job_Enabled j)
    (kept_created (jr_created_at <$> t_jobs (db_tables s) !! job_ID j) (ts created)) (ts updated).

Definition stored_run (s : state) (create : bool) (r : Run) : Run :=
  let '(created, s1) := if create then orNow (run_CreatedAt r) s else (zero_time, s) in
  let '(updated, _) := orNow (run_UpdatedAt r) s1 in
  mkRun (run_ID r) (run_JobID r) (run_BatchID r) (run_State r) (run_Attempt r)
    (ts (run_ScheduledFor r)) (ts <$> run_StartedAt r) (ts <$> run_FinishedAt r)
    (if IsZero (run_LeaseExpiry r) then zero_time else ts (run_LeaseExpiry r))
    (run_Worker r) (run_Error r)
    (kept_created (rr_created_at <$> t_runs (db_tables s) !! run_ID r) (ts created)) (ts updated).

Definition stored (s : state) {R} (c : call R) : call R :=
  match c in call R return call R with
  | Store.PutJob j => Store.PutJob (stored_job s j)
  | Store.CreateRun r => Store.CreateRun (stored_run s true r)
  | Store.UpdateRun r => Store.UpdateRun (stored_run s false r)
  | Store.ClaimDue now worker lease limit =>
      Store.ClaimDue (ts now) worker (ts (Add now lease) - ts now) limit
  | c => c
  end.

(** ** Round trips *)

Lemma round_trip_cases {R} (stmt : statement R) s :
  answered s ->
  (exists msg, (round_trip stmt s).1 = Err (Backend msg) /\ db_tables (round_trip stmt s).2 = db_tables s)
  \/ (exists locked r t, stmt locked (db_tables s) = Ok (r, t)
      /\ (round_trip stmt s).1 = Ok r /\ db_tables (round_trip stmt s).2 = t).
Proof.
  intros Hl. unfold round_trip. unfold answered in Hl.
  destruct (fates s) as [|[locked|msg|msg] fs]; [| |by left; eexists|by destruct (Hl msg)].
  - destruct (stmt ∅ (db_tables s)) as [[r t]|msg] eqn:E; [|by left; eexists]. right. by exists ∅, r, t.
  - destruct (stmt locked (db_tables s)) as [[r t]|msg] eqn:E; [|by left; eexists]. right. by exists locked, r, t.
Qed.

Lemma orNow_same t s : db_tables (orNow t s).2 = db_tables s /\ fates (orNow t s).2 = fates s.
Proof. unfold orNow. by destruct (IsZero t). Qed.

Lemma orNow_answered t s : answered s -> answered (orNow t s).2.
Proof. unfold answered. by rewrite (proj2 (orNow_same t s)). Qed.

(** A round trip on well-formed tables, whose statement keeps them well-formed,
    leaves them well-formed. *)
Lemma round_trip_ok {R} (stmt : statement R) s :
  (forall locked t r t', keyed_tables t -> stmt locked t = Ok (r, t') -> keyed_tables t') ->
  keyed_tables (db_tables s) -> keyed_tables (db_tables (round_trip stmt s).2).
Proof.
  intros Hs Hk. unfold round_trip. destruct (fates s) as [|[locked|msg|msg] fs]; [..|done|];
    (destruct (stmt _ _) as [[r t]|e] eqn:E; [by eapply Hs|done]).
Qed.

#[local] Ltac stmt_cases := repeat case_on; simplify_eq/=; try done.

Lemma select_keyed {R} (stmt : statement R) :
  (forall locked t r t', stmt locked t = Ok (r, t') -> t' = t) ->
  forall locked t r t', keyed_tables t -> stmt locked t = Ok (r, t') -> keyed_tables t'.
Proof. intros Hs locked t r t' Hk Hstmt. by rewrite (Hs _ _ _ _ Hstmt). Qed.

Lemma upsert_keyed row locked t r t' :
  keyed_tables t -> upsert_job row locked t = Ok (r, t') -> keyed_tables t'.
Proof.
  unfold upsert_job. intros [Hj Hr] Hs. stmt_cases; split; try done; by apply map_Forall_insert_2.
Qed.

Lemma delete_keyed id locked t r t' :
  keyed_tables t -> delete_job id locked t = Ok (r, t') -> keyed_tables t'.
Proof. unfold delete_job. intros [Hj Hr] Hs. stmt_cases; split; try done; by apply map_Forall_delete. Qed.

Lemma insert_keyed row locked t r t' :
  keyed_tables t -> insert_run row locked t = Ok (r, t') -> keyed_tables t'.
Proof. unfold insert_run. intros [Hj Hr] Hs. stmt_cases; split; try done; by apply map_Forall_insert_2. Qed.

Lemma update_keyed row locked t r t' :
  keyed_tables t -> update_run row locked t = Ok (r, t') -> keyed_tables t'.
Proof. unfold update_run. intros [Hj Hr] Hs. stmt_cases; split; try done; by apply map_Forall_insert_2. Qed.

Lemma put_rows_keyed rows m :
  map_Forall (fun k row => rr_id row = k) m -> map_Forall (fun k row => rr_id row = k) (foldl put_row m rows).
Proof.
  revert m. induction rows as [|row rows IH]; intros m Hm; simpl; [done|].
  apply IH. by apply map_Forall_insert_2.
Qed.

Lemma claim_keyed now worker expiry limit locked t r t' :
  keyed_tables t -> claim_runs now worker expiry limit locked t = Ok (r, t') -> keyed_tables t'.
Proof. unfold claim_runs. intros [Hj Hr] Hs. stmt_cases. split; [done|]. by apply put_rows_keyed. Qed.

Lemma orNow_ok t s : keyed_tables (db_tables s) -> keyed_tables (db_tables (orNow t s).2).
Proof. by rewrite (proj1 (orNow_same t s)). Qed.

Lemma pg_methods_ok R (c : call R) s :
  keyed_tables (db_tables s) -> keyed_tables (db_tables (methods R c s).2).
Proof.
  intros Hok. destruct c; cbn [methods].
  - unfold PutJob. pose proof (orNow_ok (job_CreatedAt j) s Hok) as H1.
    destruct (orNow (job_CreatedAt j) s) as [created s1].
    pose proof (orNow_ok (job_UpdatedAt j) s1 H1) as H2.
    destruct (orNow (job_UpdatedAt j) s1) as [updated s2].
    repeat case_on; (apply round_trip_ok; [|exact H2]); by eauto using upsert_keyed.
  - unfold GetJob. pose proof (round_trip_ok (select_job id) s) as Ht.
    destruct (round_trip (select_job id) s). apply Ht; [|done]. apply select_keyed.
    unfold select_job. intros. by stmt_cases.
  - unfold ListJobs. pose proof (round_trip_ok select_jobs s) as Ht.
    destruct (round_trip select_jobs s). apply Ht; [|done]. apply select_keyed.
    unfold select_jobs. intros. by stmt_cases.
  - unfold DeleteJob. pose proof (round_trip_ok (delete_job id) s) as Ht.
    destruct (round_trip (delete_job id) s). apply Ht; [|done]. apply delete_keyed.
  - unfold CreateRun. pose proof (orNow_ok (run_CreatedAt r) s Hok) as H1.
    destruct (orNow (run_CreatedAt r) s) as [created s1].
    pose proof (orNow_ok (run_UpdatedAt r) s1 H1) as H2.
    destruct (orNow (run_UpdatedAt r) s1) as [updated s2].
    apply round_trip_ok; [apply insert_keyed|done].
  - unfold GetRun. pose proof (round_trip_ok (select_run id) s) as Ht.
    destruct (round_trip (select_run id) s). apply Ht; [|done]. apply select_keyed.
    unfold select_run. intros. by stmt_cases.
  - unfold UpdateRun. pose proof (orNow_ok (run_UpdatedAt r) s Hok) as H1.
    destruct (orNow (run_UpdatedAt r) s) as [updated s1]. cbn [snd] in H1.
    match goal with |- context [round_trip ?q s1] =>
      pose proof (round_trip_ok q s1) as Ht; destruct (round_trip q s1) end.
    apply Ht; [apply update_keyed|done].
  - unfold ListRuns. pose proof (round_trip_ok (select_runs (build_query f)) s) as Ht.
    destruct (round_trip (select_runs (build_query f)) s). apply Ht; [|done]. apply select_keyed.
    unfold select_runs. intros. by stmt_cases.
  - unfold ClaimDue. match goal with |- context [round_trip ?q s] =>
      pose proof (round_trip_ok q s) as Ht; destruct (round_trip q s) end.
    apply Ht; [apply claim_keyed|done].
  - unfold Close. by destruct (fates s) as [|[]].
Qed.

(** ** Every statement meets the contract of its call *)

Context `{!ServerLaws}.

(** The two outcomes of a round trip of the goal, with the result and the tables
    after it in place; a failure is the failure of the contract. *)
#[local] Ltac trip Hl :=
  match goal with |- context [round_trip ?stmt ?s0] =>
    let msg := fresh "msg" in let locked := fresh "locked" in let r := fresh "r" in
    let t := fresh "t" in let Hstmt := fresh "Hstmt" in let Hr := fresh "Hr" in
    let Ht := fresh "Ht" in
    destruct (round_trip_cases stmt s0 Hl) as
      [(msg & Hr & Ht)|(locked & r & t & Hstmt & Hr & Ht)];
    destruct (round_trip stmt s0) as [? ?]; cbn [fst snd] in Hr, Ht |- *; subst;
    [left; rewrite Ht; split_and!; eauto|]
  end.

Lemma view_upsert row t :
  view (mkTables (<[jr_id row := row]> (t_jobs t)) (t_runs t))
  = mkDb (<[jr_id row := scanJob row]> (db_jobs (view t))) (db_runs (view t)).
Proof. unfold view. cbn. by rewrite fmap_insert. Qed.

Lemma view_put t row :
  view (mkTables (t_jobs t) (<[rr_id row := row]> (t_runs t))) = put_run (view t) (scanRun row).
Proof. unfold view, put_run. cbn. by rewrite fmap_insert. Qed.

#[local] Ltac view_row :=
  match goal with |- view (mkTables _ (<[_ := ?row]> _)) = _ => etrans; [exact (view_put _ row)|] end.

Lemma PutJob_refines j s : answered s ->
  store_spec true (stored s (Store.PutJob j)) (view (db_tables s)) (PutJob j s).1
    (view (db_tables (PutJob j s).2)).
Proof.
  intros Hl. unfold PutJob. cbn [stored]. unfold stored_job, nonNil.
  destruct (orNow_same (job_CreatedAt j) s) as [Ht1 _].
  pose proof (orNow_answered (job_CreatedAt j) s Hl) as Hl1.
  destruct (orNow (job_CreatedAt j) s) as [created s1]. cbn [fst snd] in *.
  destruct (orNow_same (job_UpdatedAt j) s1) as [Ht2 _].
  pose proof (orNow_answered (job_UpdatedAt j) s1 Hl1) as Hl2.
  destruct (orNow (job_UpdatedAt j) s1) as [updated s2]. cbn [fst snd] in *.
  rewrite <-Ht1, <-Ht2.
  destruct (store_strings (job_Command j)) as [cj|]; [|trip Hl2; discriminate].
  destruct (store_policy (job_Backoff j)) as [bj|]; [|trip Hl2; discriminate].
  destruct (store_strings (job_DependsOn j)) as [dj|]; [|trip Hl2; discriminate].
  trip Hl2. unfold upsert_job in Hstmt. cbn [jr_id] in Hstmt.
  case_on; [|discriminate]. injection Hstmt as <- Htab. right. split; [done|].
  rewrite <-Htab. destruct (t_jobs (db_tables s2) !! job_ID j) eqn:E; cbn;
    match goal with |- view (mkTables (<[_ := ?row]> _) _) = _ => exact (view_upsert row _) end.
Qed.

Lemma view_job t id : db_jobs (view t) !! id = scanJob <$> t_jobs t !! id.
Proof. apply lookup_fmap. Qed.

Lemma view_run t id : db_runs (view t) !! id = scanRun <$> t_runs t !! id.
Proof. apply lookup_fmap. Qed.

Lemma GetJob_refines id s : answered s ->
  store_spec true (stored s (Store.GetJob id)) (view (db_tables s)) (GetJob id s).1
    (view (db_tables (GetJob id s).2)).
Proof.
  intros Hl. unfold GetJob. trip Hl. unfold select_job in Hstmt. destruct (text_ok id); [|discriminate].
  injection Hstmt as <- Htab. right. rewrite <-Htab, view_job. by destruct (t_jobs (db_tables s) !! id).
Qed.

Lemma GetRun_refines id s : answered s ->
  store_spec true (stored s (Store.GetRun id)) (view (db_tables s)) (GetRun id s).1
    (view (db_tables (GetRun id s).2)).
Proof.
  intros Hl. unfold GetRun. trip Hl. unfold select_run in Hstmt. destruct (text_ok id); [|discriminate].
  injection Hstmt as <- Htab. right. rewrite <-Htab, view_run. by destruct (t_runs (db_tables s) !! id).
Qed.

Lemma DeleteJob_refines id s : answered s ->
  store_spec true (stored s (Store.DeleteJob id)) (view (db_tables s)) (DeleteJob id s).1
    (view (db_tables (DeleteJob id s).2)).
Proof.
  intros Hl. unfold DeleteJob. trip Hl. unfold delete_job in Hstmt. destruct (text_ok id); [|discriminate].
  injection Hstmt as <- Htab. right. rewrite <-Htab, view_job. split.
  - by destruct (t_jobs (db_tables s) !! id).
  - unfold view. cbn. by rewrite fmap_delete.
Qed.

Lemma values_perm {A B} (f : A -> B) (m : gmap string A) :
  map f (values m) ≡ₚ (map_to_list (f <$> m)).*2.
Proof.
  unfold values. rewrite scan_perm, map_to_list_fmap, <-!list_fmap_compose. by apply Permutation_map.
Qed.

Lemma ListJobs_refines s : answered s ->
  store_spec true (stored s Store.ListJobs) (view (db_tables s)) (ListJobs s).1
    (view (db_tables (ListJobs s).2)).
Proof.
  intros Hl. unfold ListJobs. trip Hl. unfold select_jobs in Hstmt.
  injection Hstmt as <- <-. right. eexists. split_and!; [done| |done].
  unfold jobs_of. cbn. rewrite <-values_perm. apply Permutation_map, sort_slice_perm.
Qed.

Lemma scan_lease t : match ts <$> nullTime t with Some t => t | None => zero_time end
  = if IsZero t then zero_time else ts t.
Proof. unfold nullTime. by destruct (IsZero t). Qed.

Lemma CreateRun_refines x s : answered s ->
  store_spec true (stored s (Store.CreateRun x)) (view (db_tables s)) (CreateRun x s).1
    (view (db_tables (CreateRun x s).2)).
Proof.
  intros Hl. unfold CreateRun. cbn [stored]. unfold stored_run.
  destruct (orNow_same (run_CreatedAt x) s) as [Ht1 _].
  pose proof (orNow_answered (run_CreatedAt x) s Hl) as Hl1.
  destruct (orNow (run_CreatedAt x) s) as [created s1]. cbn [fst snd] in *.
  destruct (orNow_same (run_UpdatedAt x) s1) as [Ht2 _].
  pose proof (orNow_answered (run_UpdatedAt x) s1 Hl1) as Hl2.
  destruct (orNow (run_UpdatedAt x) s1) as [updated s2]. cbn [fst snd] in *.
  rewrite <-Ht1, <-Ht2. trip Hl2. unfold insert_run in Hstmt. cbn [rr_id] in Hstmt.
  destruct (texts_ok _); [|discriminate]. destruct (t_runs _ !! _) eqn:E; [discriminate|]. injection Hstmt as <- <-. right.
  split; [done|]. view_row. unfold scanRun. cbn. by rewrite scan_lease, ?E.
Qed.

Lemma UpdateRun_refines x s : answered s ->
  store_spec true (stored s (Store.UpdateRun x)) (view (db_tables s)) (UpdateRun x s).1
    (view (db_tables (UpdateRun x s).2)).
Proof.
  intros Hl. unfold UpdateRun. cbn [stored]. unfold stored_run.
  destruct (orNow_same (run_UpdatedAt x) s) as [Ht1 _].
  pose proof (orNow_answered (run_UpdatedAt x) s Hl) as Hl1.
  destruct (orNow (run_UpdatedAt x) s) as [updated s1]. cbn [fst snd] in *.
  rewrite <-Ht1. trip Hl1. unfold update_run in Hstmt. cbn [rr_id] in Hstmt.
  destruct (texts_ok _); [|discriminate]. right. rewrite view_run. cbn [run_ID].
  destruct (t_runs (db_tables s1) !! run_ID x) eqn:E; injection Hstmt as <- <-; cbn.
  - split; [done|]. view_row. unfold scanRun. cbn. by rewrite scan_lease, ?E.
  - done.
Qed.

(** The assembled query is the filter. *)
Lemma build_query_matches f row :
  forallb (fun c => String.eqb (column row c.1) c.2) (q_conds (build_query f))
  = matches f (scanRun row).
Proof.
  unfold build_query, matches, column.
  destruct (String.eqb (rf_JobID f) ""), (String.eqb (rf_BatchID f) ""), (String.eqb (rf_State f) "");
    cbn -[String.eqb]; by rewrite ?andb_true_r, ?andb_assoc.
Qed.

Lemma build_query_page {A B} (g : A -> B) f (l : list A) :
  let l1 := match q_offset (build_query f) with Some n => drop (Z.to_nat n) l | None => l end in
  map g (match q_limit (build_query f) with Some n => take (Z.to_nat n) l1 | None => l1 end)
  = page f (map g l).
Proof.
  cbn. unfold page. destruct (0 <? rf_Limit f), (0 <? rf_Offset f); by rewrite <-?firstn_map, <-?skipn_map.
Qed.

(** [ORDER BY created_at DESC, id DESC] is the order of the in-memory listing. *)
Lemma newest_first_less a b : newest_first a b = Memory.list_less (scanRun a) (scanRun b).
Proof.
  unfold newest_first, Memory.list_less, Equal, After. rewrite collation_C. cbn.
  by destruct (rr_created_at a =? rr_created_at b).
Qed.

Lemma filter_values {A B} (P : A -> bool) (Q : B -> bool) (g : A -> B) (l : list A) :
  (forall a, P a = Q (g a)) -> map g (filter (fun a => P a = true) l) = filter (fun b => Q b) (map g l).
Proof.
  intros HPQ. induction l as [|a l IH]; [done|]. cbn [map]. rewrite !filter_cons, <-IH, HPQ.
  destruct (Q (g a)) eqn:E; [rewrite decide_True by done|rewrite decide_False by done];
    [rewrite decide_True by done|rewrite decide_False by auto]; done.
Qed.

Lemma ListRuns_refines f s : answered s ->
  store_spec true (stored s (Store.ListRuns f)) (view (db_tables s)) (ListRuns f s).1
    (view (db_tables (ListRuns f s).2)).
Proof.
  intros Hl. unfold ListRuns. trip Hl. unfold select_runs in Hstmt.
  destruct (forallb _ (q_conds _)); [|discriminate]. injection Hstmt as <- <-. right.
  eexists. split_and!; [f_equal; apply build_query_page| | |done].
  - rewrite (Permutation_map scanRun (sort_slice_perm _ _)).
    rewrite (filter_values _ (matches f) scanRun) by (intros; apply build_query_matches).
    unfold runs_of. cbn. by rewrite <-values_perm.
  - apply StronglySorted_Sorted, (StronglySorted_fmap scanRun (not_less newest_first)).
    + intros a b. unfold not_less. rewrite newest_first_less. apply Memory.list_less_newer.
    + apply sort_slice_sorted; intros *; rewrite !newest_first_less;
        [apply Memory.list_less_asym|apply Memory.list_less_trans].
Qed.

(** ** Claims *)

Lemma row_ready now row : is_ready now row = true -> ready now (scanRun row) = true.
Proof.
  unfold is_ready, ready, After, Before. cbn. intros Hr.
  apply orb_true_iff in Hr as [Hr|Hr]; apply andb_true_iff in Hr as [->%String.eqb_eq Hr]; cbn.
  - by rewrite Z.ltb_antisym, Hr.
  - by destruct (rr_lease_expiry row).
Qed.

Lemma scan_stamp now worker expiry row :
  scanRun (stamp now worker expiry row) = claim now worker (expiry - now) (scanRun row).
Proof.
  unfold scanRun, stamp, claim, Add. cbn. replace (now + (expiry - now)) with expiry by lia.
  by destruct (rr_started_at row).
Qed.

Lemma view_put_rows js m rows :
  view (mkTables js (foldl put_row m rows)) = put_runs (view (mkTables js m)) (map scanRun rows).
Proof.
  revert m. induction rows as [|row rows IH]; intros m; [done|]. cbn [foldl map put_runs].
  rewrite IH. cbn [foldl]. f_equal. exact (view_put (mkTables js m) row).
Qed.

(** Writing runs of different identifiers can be done in any order. *)
Lemma put_runs_perm d l l' : NoDup (map run_ID l) -> l ≡ₚ l' -> put_runs d l = put_runs d l'.
Proof.
  intros Hnd Hp. revert d Hnd. induction Hp as [|x l l' Hp IH|x y l|l l' l'' Hp IH Hp' IH'];
    intros d Hnd; cbn.
  - done.
  - cbn in Hnd. apply NoDup_cons in Hnd as [_ Hnd]. by apply IH.
  - cbn in Hnd. apply NoDup_cons in Hnd as [Hxy _]. apply not_elem_of_cons in Hxy as [Hxy _].
    f_equal. unfold put_run. cbn. f_equal. by apply insert_insert_ne.
  - rewrite IH by done. apply IH'. by rewrite <-Hp.
Qed.

Lemma ready_rows_spec now limit locked t row :
  row ∈ ready_rows now limit locked t ->
  row ∈ values (t_runs t) /\ is_ready now row = true /\ rr_id row ∉ locked.
Proof.
  unfold ready_rows. intros Hin.
  pose proof (elem_of_sublist _ _ _ Hin (sublist_take _ _)) as Hall.
  rewrite list_elem_of_filter, elem_of_sort_slice, list_elem_of_filter in Hall. tauto.
Qed.

Lemma row_id t row :
  keyed_tables t -> row ∈ values (t_runs t) -> t_runs t !! rr_id row = Some row.
Proof.
  intros [_ Hk]. unfold values. rewrite scan_perm, list_elem_of_fmap.
  intros ([k row'] & -> & Hin). apply elem_of_map_to_list in Hin. cbn. by rewrite (Hk _ _ Hin).
Qed.

Lemma ready_rows_NoDup now limit locked t :
  keyed_tables t -> NoDup (map rr_id (ready_rows now limit locked t)).
Proof.
  intros [_ Hk]. unfold ready_rows.
  eapply sublist_NoDup; [|apply (fmap_sublist rr_id), sublist_take].
  eapply sublist_NoDup; [|apply (fmap_sublist rr_id), sublist_filter].
  rewrite sort_slice_perm.
  eapply sublist_NoDup; [|apply (fmap_sublist rr_id), sublist_filter].
  unfold values. rewrite scan_perm. rewrite (keyed_values rr_id) by done.
  apply NoDup_fst_map_to_list.
Qed.

Lemma ClaimDue_refines now worker lease limit s : keyed_tables (db_tables s) -> answered s ->
  store_spec true (stored s (Store.ClaimDue now worker lease limit)) (view (db_tables s))
    (ClaimDue now worker lease limit s).1 (view (db_tables (ClaimDue now worker lease limit s).2)).
Proof.
  intros Hk Hl. unfold ClaimDue. trip Hl. unfold claim_runs in Hstmt.
  destruct (text_ok worker && (0 <=? limit)) eqn:E; [|discriminate]. injection Hstmt as <- <-.
  set (rows := ready_rows (ts now) limit locked (db_tables s)).
  set (expiry := ts (Add now lease)).
  assert (Hin : forall row, row ∈ rows -> _) by (intros row; apply ready_rows_spec).
  assert (Hnd : NoDup (map rr_id rows)) by by apply ready_rows_NoDup.
  assert (Hlen : (length rows <= Z.to_nat limit)%nat) by (unfold rows, ready_rows; rewrite length_take; lia).
  clearbody rows. right.
  pose proof (return_perm _ (map (stamp (ts now) worker expiry) rows)) as Hp.
  destruct (Permutation_map_inv _ _ Hp) as (picked & -> & Hpick). clear Hp.
  assert (Hscan : map scanRun (map (stamp (ts now) worker expiry) picked)
    = map (claim (ts now) worker (expiry - ts now)) (map scanRun picked)).
  { rewrite !map_map. apply map_ext. intros row. apply scan_stamp. }
  exists (map scanRun picked). rewrite Hscan. split_and!.
  - done.
  - rewrite map_map. change (NoDup (map rr_id picked)). by rewrite <-Hpick.
  - apply Forall_map, Forall_forall. intros row Hrow. rewrite <-Hpick in Hrow.
    apply Hin in Hrow as (Hrow & Hready & _). split; [|by apply row_ready].
    rewrite view_run. change (run_ID (scanRun row)) with (rr_id row). by rewrite row_id.
  - rewrite length_map, <-(Permutation_length Hpick). lia.
  - etrans; [apply view_put_rows|]. etrans; [|exact (f_equal (put_runs _) Hscan)]. apply put_runs_perm.
    + rewrite !map_map. exact Hnd.
    + by rewrite Hpick.
Qed.

Lemma Close_refines s : answered s ->
  store_spec true (stored s Store.Close) (view (db_tables s)) (Close s).1 (view (db_tables (Close s).2)).
Proof.
  intros Hl. unfold Close, answered in *. cbn.
  destruct (fates s) as [|[]]; cbn; [by right|by right|left|by destruct (Hl msg)].
  split_and!; eauto.
Qed.

Lemma pg_methods_spec R (c : call R) s : keyed_tables (db_tables s) -> answered s ->
  store_spec true (stored s c) (view (db_tables s)) (methods R c s).1 (view (db_tables (methods R c s).2)).
Proof.
  destruct c; cbn [methods];
    auto using PutJob_refines, GetJob_refines, ListJobs_refines, DeleteJob_refines, CreateRun_refines,
      GetRun_refines, UpdateRun_refines, ListRuns_refines, ClaimDue_refines, Close_refines.
Qed.

(** The same state with an answer that arrives. *)
Definition delivered (s : state) : state := mkState (db_tables s) (Done ∅ :: tail (fates s)) (clock s).

#[local] Ltac zero_cases := repeat match goal with |- context [IsZero ?t] => destruct (IsZero t) end.

Lemma stored_delivered s {R} (c : call R) : stored (delivered s) c = stored s c.
Proof.
  destruct c; try done; cbn [stored]; f_equal; unfold stored_job, stored_run, orNow, time_Now;
    by zero_cases.
Qed.

Lemma round_trip_lost {R} (stmt : statement R) t msg fs ck :
  (round_trip stmt (mkState t (Lost msg :: fs) ck)).1 = Err (Backend msg)
  /\ db_tables (round_trip stmt (mkState t (Lost msg :: fs) ck)).2
     = db_tables (round_trip stmt (mkState t (Done ∅ :: fs) ck)).2.
Proof. unfold round_trip. cbn. by destruct (stmt ∅ t) as [[r t']|e]. Qed.

(** A lost answer is the backend's error, and the tables are what the statement
    made of them. *)
Lemma lost_delivered R (c : call R) s msg :
  head (fates s) = Some (Lost msg) ->
  (methods R c s).1 = backend_error c msg
  /\ db_tables (methods R c s).2 = db_tables (methods R c (delivered s)).2.
Proof.
  destruct s as [t [|f fs] ck]; cbn [fates head]; [done|]. intros [= ->].
  assert (forall A (stmt : statement A) ck, (round_trip stmt (mkState t (Lost msg :: fs) ck)).1 = _ /\ _)
    as Hrt by (intros; apply round_trip_lost).
  destruct c; cbn [methods backend_error]; [..|done];
    unfold PutJob, GetJob, ListJobs, DeleteJob, CreateRun, GetRun, UpdateRun, ListRuns, ClaimDue,
      orNow, time_Now, delivered; cbn [fates tail db_tables clock];
    zero_cases; cbn [fates tail db_tables clock];
    try (destruct (store_strings (nonNil (job_Command j))), (store_policy (job_Backoff j)),
      (store_strings (nonNil (job_DependsOn j))));
    match goal with |- context [round_trip ?q (mkState _ (Lost _ :: _) ?ck)] =>
      destruct (Hrt _ q ck) as [Hr Ht] end;
    do 2 destruct (round_trip _ _) as [? ?]; cbn [fst snd] in *; by subst.
Qed.

(** ** Calls that the columns keep *)

Definition storable_time (t : time) : Prop := IsZero t = false /\ ts t = t.
Definition storable_opt (o : option time) : Prop := match o with Some t => ts t = t | None => True end.

Definition storable_run (r : Run) : Prop :=
  storable_time (run_CreatedAt r) /\ storable_time (run_UpdatedAt r)
  /\ ts (run_ScheduledFor r) = run_ScheduledFor r
  /\ storable_opt (run_StartedAt r) /\ storable_opt (run_FinishedAt r)
  /\ (run_LeaseExpiry r = zero_time \/ ts (run_LeaseExpiry r) = run_LeaseExpiry r).

(** Instants at the precision of the columns, JSON that reads back, and no
    attempt to change the creation time of a row. *)
Definition storable (s : state) {R} (c : call R) : Prop :=
  match c with
  | Store.PutJob j =>
      storable_time (job_CreatedAt j) /\ storable_time (job_UpdatedAt j)
      /\ (exists x, store_strings (job_Command j) = Some x /\ load_strings x = Some (job_Command j))
      /\ (exists x, store_policy (job_Backoff j) = Some x /\ load_policy x = Some (job_Backoff j))
      /\ (exists x, store_strings (job_DependsOn j) = Some x /\ load_strings x = Some (job_DependsOn j))
      /\ (forall row, t_jobs (db_tables s) !! job_ID j = Some row -> jr_created_at row = job_CreatedAt j)
  | Store.CreateRun r | Store.UpdateRun r =>
      storable_run r
      /\ (forall row, t_runs (db_tables s) !! run_ID r = Some row -> rr_created_at row = run_CreatedAt r)
  | Store.ClaimDue now _ lease _ => ts now = now /\ ts (Add now lease) = Add now lease
  | _ => True
  end.

Lemma kept_created_same {A} (f : A -> time) (o : option A) t :
  (forall x, o = Some x -> f x = t) -> kept_created (f <$> o) t = t.
Proof. destruct o; cbn; auto. Qed.

Lemma storable_opt_id o : storable_opt o -> ts <$> o = o.
Proof. destruct o; cbn; congruence. Qed.

Lemma storable_run_fields r : storable_run r ->
  mkRun (run_ID r) (run_JobID r) (run_BatchID r) (run_State r) (run_Attempt r)
    (ts (run_ScheduledFor r)) (ts <$> run_StartedAt r) (ts <$> run_FinishedAt r)
    (if IsZero (run_LeaseExpiry r) then zero_time else ts (run_LeaseExpiry r))
    (run_Worker r) (run_Error r) (run_CreatedAt r) (run_UpdatedAt r) = r.
Proof.
  intros (_ & _ & Hs & Hst & Hf & Hl). rewrite Hs, !storable_opt_id by done.
  replace (if IsZero _ then _ else _) with (run_LeaseExpiry r); [by destruct r|].
  unfold IsZero, zero_time in *. destruct (Z.eqb_spec (run_LeaseExpiry r) 0); [done|].
  by destruct Hl.
Qed.

(** The stored call of a storable call meets the same contract. *)
Lemma storable_spec R (c : call R) s r d' :
  storable s c -> store_spec true (stored s c) (view (db_tables s)) r d' ->
  store_spec true c (view (db_tables s)) r d'.
Proof.
  destruct c; cbn [storable stored]; try done.
  - intros ([Hc0 Hc] & [Hu0 Hu] & (x & Hx & Hx') & (y & Hy & Hy') & (z & Hz & Hz') & Hold).
    unfold stored_job, orNow. rewrite Hc0, Hu0, Hc, Hu, Hx, Hy, Hz. cbn -[store_spec].
    rewrite Hx', Hy', Hz', kept_created_same by done. by destruct j.
  - intros (Hr & Hold). unfold stored_run, orNow. pose proof Hr as ([Hc0 Hc] & [Hu0 Hu] & _).
    rewrite Hc0, Hu0, Hc, Hu, kept_created_same by done. by rewrite storable_run_fields.
  - intros (Hr & Hold). unfold stored_run, orNow. pose proof Hr as (_ & [Hu0 Hu] & _).
    rewrite Hu0, Hu. destruct (t_runs (db_tables s) !! run_ID r0) as [row|] eqn:E.
    + cbn -[store_spec]. rewrite (Hold row) by done. by rewrite storable_run_fields.
    + cbn. by rewrite !lookup_fmap, E.
  - intros (Hn & He). rewrite Hn, He. unfold Add. by replace (now + lease - now) with lease by lia.
Qed.

(** What a call on the PostgreSQL store does: the contract of [c], unless the
    answer got lost, in which case the caller sees the backend's error and the
    database is that of some outcome of [c] that the contract allows. *)
Definition outcome (s : state) {R} (c : call R) (r : R) (s' : state) : Prop :=
  match head (fates s) with
  | Some (Lost msg) =>
      r = backend_error c msg
      /\ exists r', store_spec true c (view (db_tables s)) r' (view (db_tables s'))
  | _ => store_spec true c (view (db_tables s)) r (view (db_tables s'))
  end.

Lemma pg_outcome R (c : call R) s :
  keyed_tables (db_tables s) ->
  outcome s (stored s c) (methods R c s).1 (methods R c s).2.
Proof.
  intros Hk. unfold outcome. destruct (head (fates s)) as [[locked|msg|msg]|] eqn:Hf;
    try (apply pg_methods_spec; [done|]; intros msg'; by rewrite Hf).
  destruct (lost_delivered R c s msg Hf) as [Hr Ht].
  split; [rewrite Hr; by destruct c|]. exists (methods R c (delivered s)).1.
  rewrite Ht, <-stored_delivered. by apply (pg_methods_spec R c (delivered s)).
Qed.

(** C14: every call on the PostgreSQL store, whatever runs are locked by other
    transactions, keeps the tables well-formed and meets the contract of the
    store interface for the call as the columns keep it: either nothing happened
    and the error is the backend's, or the call did what the contract demands.
    When the connection fails after the statement was executed, so that its
    answer is lost, the caller gets the backend's error and the database is as
    the contract demands of the call that was sent: unchanged or changed by it.
    For a call whose instants, JSON and creation times the columns represent, the
    call as the columns keep it is the call itself. *)
Theorem Postgres_refines_contract R (c : call R) s :
  keyed_tables (db_tables s) ->
  let '(r, s') := methods R c s in
  keyed_tables (db_tables s')
  /\ outcome s (stored s c) r s'
  /\ (storable s c -> outcome s c r s').
Proof.
  intros Hk. pose proof (pg_methods_ok R c s Hk) as Hk'. pose proof (pg_outcome R c s Hk) as Ho.
  destruct (methods R c s) as [r s']. unfold outcome in *. cbn [fst snd] in *.
  destruct (head (fates s)) as [[locked|msg|msg]|]; (split; [done|]); (split; [done|]);
    intros Hst; try (by apply storable_spec).
  destruct Ho as [Hr [r' Hr']]. split; [rewrite Hr; by destruct c|]. exists r'. by apply storable_spec.
Qed.

(** The first failure of [Open]: connecting, or the round trip that pings or the
    one that applies the schema. *)
Definition fault (f : option fate) : option string :=
  match f with Some (Refused msg) | Some (Lost msg) => Some msg | _ => None end.

Definition open_fault (connect : option string) (fs : list fate) : option open_error :=
  match connect, fault (fs !! 0%nat), fault (fs !! 1%nat) with
  | Some msg, _, _ => Some (OpenFailed msg)
  | None, Some msg, _ => Some (PingFailed msg)
  | None, None, Some msg => Some (MigrateFailed msg)
  | None, None, None => None
  end.

(** [Open] fails with the stage that failed, and leaves the rows of an existing
    database alone. *)
Lemma Open_outcome connect s :
  (Open connect s).1 = match open_fault connect (fates s) with
    | Some e => Err e
    | None => Ok (mkState (db_tables s) (drop 2 (fates s)) (clock s))
    end
  /\ db_tables (Open connect s).2 = db_tables s.
Proof.
  destruct s as [t fs ck]. unfold Open, open_fault. destruct connect as [msg|]; [done|].
  destruct fs as [|[]  [|[] fs]]; done.
Qed.
End Postgres.

(** ** A server

    Microseconds, the C collation, no NUL in a text and no number in JSON that
    is not finite; rows are delivered in some order. *)

Definition micros (t : time) : time := t / 1000 * 1000.

Definition finite (f : float64) : bool :=
  match f with SpecFloat.S754_zero _ | SpecFloat.S754_finite _ _ _ => true | _ => false end.

Definition no_nul (s : string) : bool :=
  forallb (fun c => negb (Ascii.eqb c Ascii.zero)) (String.list_ascii_of_string s).

#[global] Instance demo_server : Server := {|
  jsonb := (list string + RetryPolicy)%type;
  store_strings := fun l => if forallb no_nul l then Some (inl l) else None;
  store_policy := fun p => if finite (rp_Factor p) && finite (rp_Jitter p) then Some (inr p) else None;
  load_strings := fun x => match x with inl l => Some l | inr _ => None end;
  load_policy := fun x => match x with inr p => Some p | inl _ => None end;
  text_ok := no_nul;
  ts := micros;
  id_ltb := String.ltb;
  scan_order := fun A l => reverse l;
  return_order := fun A l => reverse l
|}.

#[global] Instance demo_server_laws : ServerLaws.
Proof.
  split; intros; cbn; [apply reverse_Permutation|apply reverse_Permutation|done|].
  unfold micros. by rewrite Z_div_mult by lia.
Defined.

Definition demo_row (id : string) (due : time) : run_row :=
  mkRunRow id "j" "b" "pending" 0 due None None None "" "" 1000 1000.

Definition demo_tables : tables :=
  mkTables ∅ (list_to_map (map (fun r => (rr_id r, r))
    [demo_row "r1" 1000; demo_row "r2" 2000; demo_row "r3" 3000])).

(** The first claim finds "r1" locked; the second connection fails. *)
Definition demo_state : state := mkState demo_tables [Done {["r1"]}; Refused "eof"] [].

Definition demo_claim := Store.ClaimDue 5000 "w" 2000 1.

Definition lost_run : Run := mkRun "r9" "j" "b" "pending" 0 1000 None None zero_time "" "" 1000 1000.

(** The answer to the next statement gets lost. *)
Definition losing_state : state := mkState demo_tables [Lost "eof"] [].

Lemma demo_keyed : keyed_tables demo_tables.
Proof.
  split; [by apply map_Forall_empty|].
  cbn. repeat (apply map_Forall_insert_2; [done|]). apply map_Forall_empty.
Qed.

Lemma Postgres_refines_contract_witness :
  ((methods _ demo_claim demo_state).1
     = Ok [mkRun "r2" "j" "b" "running" 0 2000 (Some 5000) None 7000 "w" "" 1000 5000]
   /\ store_spec true demo_claim (view demo_tables) (methods _ demo_claim demo_state).1
        (view (db_tables (methods _ demo_claim demo_state).2)))
  /\ exists r', store_spec true (Store.CreateRun lost_run) (view demo_tables) r'
       (view (db_tables (methods _ (Store.CreateRun lost_run) losing_state).2)).
Proof.
  split; [split; [vm_compute; reflexivity|]|].
  - pose proof (Postgres_refines_contract _ demo_claim demo_state demo_keyed) as H.
    destruct (methods _ demo_claim demo_state) as [r s']. apply H. by split.
  - pose proof (Postgres_refines_contract _ (Store.CreateRun lost_run) losing_state demo_keyed) as H.
    destruct (methods _ (Store.CreateRun lost_run) losing_state) as [r s'].
    destruct H as (_ & _ & H). destruct H as [_ [r' Hr']]; [|by exists r'].
    split; [by repeat split; left|]. by intros row.
Defined.

(** An answer that gets lost leaves its effect behind: the same insertion,
    repeated, is refused as a duplicate. *)
Example lost_answer_keeps_effect :
  let '(res1, s1) := CreateRun lost_run losing_state in
  (res1, (CreateRun lost_run s1).1)
  = (Err (Backend "eof"), Err (Backend "duplicate key value violates unique constraint")).
Proof. vm_compute. reflexivity. Qed.
End Postgres.
