(* ===== verification/PostgresClaims.v ===== *)
(** * Concurrent claims on the PostgreSQL store

    The claim of [postgres.go] is one statement, but many connections run it at
    the same time.  Here a claim is a transaction: it locks ready rows one by
    one, skipping rows that another transaction holds ([FOR UPDATE SKIP
    LOCKED]; a row is tested in its current version when it is locked), then
    commits its update or is rolled back.  Insertions and updates of runs come in
    between; they wait for the lock of their row.

    The history of commits shows when a run was handed out and to whom. *)

From Stdlib Require Import ZArith Lia String.
From stdpp Require Import base list strings gmap.
From S2P Require Import Prelude GoTime GoFloat Job Store PostgresStore.

#[local] Open Scope string_scope.
#[local] Open Scope list_scope.
#[local] Open Scope Z_scope.

Module Claims.
Import Postgres.
Section Claims.
Context `{!Server}.

(** A claim in progress: its parameters and the rows it holds. *)
Record tx := mkTx {
  tx_now : time;
  tx_worker : string;
  tx_expiry : time;
  tx_limit : Z;
  tx_rows : list run_row
}.

(** What was committed to a row: a claim, or another write. *)
Inductive event :=
| Claimed (id : string) (now : time) (worker : string) (expiry : time)
| Written (id : string).

Record sys := mkSys {
  sys_tables : tables;
  sys_txs : gmap nat tx;
  sys_log : list event
}.

Definition holds (x : tx) (id : string) : Prop := id ∈ map rr_id (tx_rows x).
Definition locked (s : sys) (id : string) : Prop := exists i x, sys_txs s !! i = Some x /\ holds x id.

Definition add_row (x : tx) (row : run_row) : tx :=
  mkTx (tx_now x) (tx_worker x) (tx_expiry x) (tx_limit x) (tx_rows x ++ [row]).

Definition stamped (x : tx) : list run_row :=
  map (stamp (tx_now x) (tx_worker x) (tx_expiry x)) (tx_rows x).

Definition claimed (x : tx) (row : run_row) : event :=
  Claimed (rr_id row) (tx_now x) (tx_worker x) (tx_expiry x).

(** Another statement that writes one run. *)
Definition writes (row : run_row) (t t' : tables) : Prop :=
  insert_run row ∅ t = Ok (tt, t') \/ update_run row ∅ t = Ok (1, t').

Inductive step : sys -> sys -> Prop :=
| step_begin s i now worker expiry limit :
    sys_txs s !! i = None ->
    step s (mkSys (sys_tables s) (<[i := mkTx now worker expiry limit []]> (sys_txs s)) (sys_log s))
| step_lock s i x row :
    sys_txs s !! i = Some x ->
    t_runs (sys_tables s) !! rr_id row = Some row ->
    is_ready (tx_now x) row = true ->
    ~ locked s (rr_id row) ->
    Z.of_nat (length (tx_rows x)) < tx_limit x ->
    step s (mkSys (sys_tables s) (<[i := add_row x row]> (sys_txs s)) (sys_log s))
| step_commit s i x :
    sys_txs s !! i = Some x ->
    step s (mkSys
      (mkTables (t_jobs (sys_tables s)) (foldl put_row (t_runs (sys_tables s)) (stamped x)))
      (delete i (sys_txs s)) (sys_log s ++ map (claimed x) (tx_rows x)))
| step_abort s i x :
    sys_txs s !! i = Some x ->
    step s (mkSys (sys_tables s) (delete i (sys_txs s)) (sys_log s))
| step_write s row t' :
    writes row (sys_tables s) t' ->
    ~ locked s (rr_id row) ->
    step s (mkSys t' (sys_txs s) (sys_log s ++ [Written (rr_id row)])).

Definition start (t : tables) : sys := mkSys t ∅ [].

(** ** What the history says about a run *)

Definition event_id (e : event) : string := match e with Claimed id _ _ _ | Written id => id end.

(** The lease of the last claim, unless the run was written since. *)
Definition record_event (id : string) (lease : option time) (e : event) : option time :=
  if String.eqb (event_id e) id then
    match e with Claimed _ _ _ expiry => Some expiry | Written _ => None end
  else lease.

Definition last_lease (id : string) (log : list event) : option time :=
  foldl (record_event id) None log.

Definition after_lease (lease : option time) (now : time) : Prop :=
  match lease with Some expiry => expiry < now | None => True end.

(** Every claim comes after the lease of the claim before it. *)
Definition exclusive (log : list event) : Prop :=
  forall pre id now worker expiry post,
    log = pre ++ Claimed id now worker expiry :: post -> after_lease (last_lease id pre) now.

Lemma last_lease_app id log log' :
  last_lease id (log ++ log') = foldl (record_event id) (last_lease id log) log'.
Proof. apply foldl_app. Qed.

Lemma last_lease_other id log log' :
  id ∉ map event_id log' -> last_lease id (log ++ log') = last_lease id log.
Proof.
  rewrite last_lease_app. generalize (last_lease id log) as acc.
  induction log' as [|e log' IH]; intros acc Hid; [done|]. cbn in *.
  apply not_elem_of_cons in Hid as [Hne Hid]. rewrite IH by done.
  unfold record_event. case_on; [|done]. by apply String.eqb_eq in Heqb.
Qed.

Lemma exclusive_snoc log e :
  exclusive log ->
  match e with
  | Claimed id now _ _ => after_lease (last_lease id log) now
  | Written _ => True
  end ->
  exclusive (log ++ [e]).
Proof.
  intros Hlog He pre id now worker expiry post. destruct post as [|e' post _] using rev_ind.
  - intros [-> ->]%app_inj_tail. exact He.
  - rewrite app_comm_cons, app_assoc. intros [-> ->]%app_inj_tail. by eapply Hlog.
Qed.

Lemma exclusive_claims log x rows :
  exclusive log -> NoDup (map rr_id rows) ->
  Forall (fun row => after_lease (last_lease (rr_id row) log) (tx_now x)) rows ->
  exclusive (log ++ map (claimed x) rows).
Proof.
  revert log. induction rows as [|row rows IH]; intros log Hlog Hnd Hall; cbn; [by rewrite app_nil_r|].
  rewrite cons_middle, app_assoc. cbn in Hnd. apply NoDup_cons in Hnd as [Hrow Hnd].
  apply Forall_cons in Hall as [Hhd Hall]. apply IH; [by apply exclusive_snoc|done|].
  rewrite Forall_forall in Hall |- *. intros row' Hin. rewrite last_lease_other; [by apply Hall|].
  cbn. rewrite list_elem_of_singleton. intros Heq. apply Hrow. rewrite <-Heq. by apply (list_elem_of_fmap_2 rr_id).
Qed.

Lemma last_lease_claimed id log x rows :
  id ∈ map rr_id rows -> last_lease id (log ++ map (claimed x) rows) = Some (tx_expiry x).
Proof.
  rewrite last_lease_app. generalize (last_lease id log) as acc.
  induction rows as [|row rows IH]; intros acc Hin; cbn in *; [by apply elem_of_nil in Hin|].
  destruct (decide (id ∈ map rr_id rows)) as [Hid|Hid]; [by apply IH|].
  apply elem_of_cons in Hin as [->|Hin]; [|done].
  pose proof (last_lease_other (rr_id row) [claimed x row] (map (claimed x) rows)) as Ho.
  rewrite map_map, last_lease_app in Ho. cbn in Ho. unfold record_event in *. cbn in *.
  rewrite String.eqb_refl in *. by apply Ho.
Qed.

(** A row whose lease is recorded is ready only after that lease. *)
Lemma ready_after now row expiry :
  is_ready now row = true -> rr_state row = "running" -> rr_lease_expiry row = Some expiry -> expiry < now.
Proof. unfold is_ready. intros Hr Hs He. rewrite Hs, He in Hr. cbn in Hr. by apply Z.ltb_lt. Qed.

(** ** Writing several rows *)

Lemma put_rows_other m rows id :
  id ∉ map rr_id rows -> foldl put_row m rows !! id = m !! id.
Proof.
  revert m. induction rows as [|row rows IH]; intros m Hid; [done|]. cbn in *.
  apply not_elem_of_cons in Hid as [Hne Hid]. rewrite IH by done. by apply lookup_insert_ne.
Qed.

Lemma put_rows_elem m rows row :
  NoDup (map rr_id rows) -> row ∈ rows -> foldl put_row m rows !! rr_id row = Some row.
Proof.
  revert m. induction rows as [|r rows IH]; intros m Hnd Hin; cbn in *; [by apply elem_of_nil in Hin|].
  apply NoDup_cons in Hnd as [Hr Hnd]. apply elem_of_cons in Hin as [->|Hin]; [|by apply IH].
  rewrite put_rows_other by done. apply lookup_insert_eq.
Qed.

Lemma stamped_ids x : map rr_id (stamped x) = map rr_id (tx_rows x).
Proof. unfold stamped. by rewrite map_map. Qed.

Lemma writes_insert row t t' :
  writes row t t' -> exists row', rr_id row' = rr_id row
    /\ t' = mkTables (t_jobs t) (<[rr_id row := row']> (t_runs t)).
Proof.
  unfold writes, insert_run, update_run. destruct (texts_ok row); [|by intros [|]].
  destruct (t_runs t !! rr_id row); intros [[=]|[=]]; subst; eauto.
  eexists. split; [|reflexivity]. done.
Qed.

(** ** The invariant *)

(** A transaction holds current, ready rows, each once, within its limit. *)
Definition tx_ok (t : tables) (x : tx) : Prop :=
  NoDup (map rr_id (tx_rows x))
  /\ Z.of_nat (length (tx_rows x)) <= Z.max 0 (tx_limit x)
  /\ Forall (fun row => t_runs t !! rr_id row = Some row /\ is_ready (tx_now x) row = true) (tx_rows x).

(** No run is held by two transactions. *)
Definition disjoint (txs : gmap nat tx) : Prop :=
  forall i j x y id, txs !! i = Some x -> txs !! j = Some y -> holds x id -> holds y id -> i = j.

(** A run that was claimed and not written since has the lease of that claim. *)
Definition leases_current (t : tables) (log : list event) : Prop :=
  forall id expiry, last_lease id log = Some expiry ->
  exists row, t_runs t !! id = Some row /\ rr_state row = "running" /\ rr_lease_expiry row = Some expiry.

Record inv (s : sys) : Prop := mkInv {
  inv_keyed : keyed_tables (sys_tables s);
  inv_txs : map_Forall (fun _ x => tx_ok (sys_tables s) x) (sys_txs s);
  inv_disjoint : disjoint (sys_txs s);
  inv_leases : leases_current (sys_tables s) (sys_log s);
  inv_exclusive : exclusive (sys_log s)
}.

Lemma inv_start t : keyed_tables t -> inv (start t).
Proof. intros Hk. split; try done. intros [|] *; discriminate. Qed.

Lemma disjoint_delete i txs : disjoint txs -> disjoint (delete i txs).
Proof. intros Hd j k x y id [_ Hx]%lookup_delete_Some [_ Hy]%lookup_delete_Some. by eapply Hd. Qed.

Lemma disjoint_insert i x txs :
  disjoint txs ->
  (forall j y id, txs !! j = Some y -> j <> i -> holds x id -> ~ holds y id) ->
  disjoint (<[i := x]> txs).
Proof.
  intros Hd Hx j k y z id [[<- <-]|[Hj Hy]]%lookup_insert_Some [[<- <-]|[Hk Hz]]%lookup_insert_Some
    Hhy Hhz; [done| | |by eapply Hd].
  - by destruct (Hx _ _ _ Hz (not_eq_sym Hk) Hhy).
  - by destruct (Hx _ _ _ Hy (not_eq_sym Hj) Hhz).
Qed.

(** A change of the tables that leaves the rows of a transaction alone. *)
Lemma tx_ok_same t t' x :
  (forall id, holds x id -> t_runs t' !! id = t_runs t !! id) -> tx_ok t x -> tx_ok t' x.
Proof.
  intros Ht (Hnd & Hlim & Hrows). split_and!; [done|done|].
  rewrite Forall_forall in Hrows |- *. intros row Hin. rewrite Ht; [by apply Hrows|].
  by apply (list_elem_of_fmap_2 rr_id).
Qed.

Lemma tx_add t x row :
  tx_ok t x -> t_runs t !! rr_id row = Some row -> is_ready (tx_now x) row = true ->
  ~ holds x (rr_id row) -> Z.of_nat (length (tx_rows x)) < tx_limit x -> tx_ok t (add_row x row).
Proof.
  intros (Hnd & Hlim & Hrows) Hrow Hready Hnew Hlen. split_and!; cbn.
  - rewrite map_app. apply NoDup_app. split_and!; [done| |apply NoDup_singleton].
    intros id Hid Hin. apply list_elem_of_singleton in Hin as ->. done.
  - rewrite length_app. cbn. lia.
  - by apply Forall_app_2, Forall_singleton.
Qed.

Lemma holds_add x row id : holds (add_row x row) id <-> holds x id \/ id = rr_id row.
Proof. unfold holds. cbn. rewrite map_app, elem_of_app. cbn. by rewrite list_elem_of_singleton. Qed.

(** ** Every step keeps it *)

Lemma lock_inv s i x row :
  inv s -> sys_txs s !! i = Some x -> t_runs (sys_tables s) !! rr_id row = Some row ->
  is_ready (tx_now x) row = true -> ~ locked s (rr_id row) ->
  Z.of_nat (length (tx_rows x)) < tx_limit x ->
  inv (mkSys (sys_tables s) (<[i := add_row x row]> (sys_txs s)) (sys_log s)).
Proof.
  intros [Hk Htx Hd Hl He] Hx Hrow Hready Hfree Hlen. split; cbn; try done.
  - apply map_Forall_insert_2; [|done]. apply tx_add; try done; [by eapply Htx|].
    intros Hh. apply Hfree. by exists i, x.
  - apply disjoint_insert; [done|]. intros j y id Hy Hj Hh Hhy. apply holds_add in Hh as [Hh| ->].
    + by apply Hj, (Hd j i y x id).
    + apply Hfree. by exists j, y.
Qed.

Lemma commit_inv s i x :
  inv s -> sys_txs s !! i = Some x ->
  inv (mkSys (mkTables (t_jobs (sys_tables s)) (foldl put_row (t_runs (sys_tables s)) (stamped x)))
         (delete i (sys_txs s)) (sys_log s ++ map (claimed x) (tx_rows x))).
Proof.
  intros [Hk Htx Hd Hl He] Hx. pose proof (Htx _ _ Hx) as (Hnd & _ & Hrows).
  split; cbn.
  - destruct Hk as [Hj Hr]. split; [done|]. by apply put_rows_keyed.
  - intros j y [Hj Hy]%lookup_delete_Some. apply (tx_ok_same (sys_tables s)); [|by eapply Htx].
    intros id Hh. cbn. apply put_rows_other. rewrite stamped_ids. intros Hx'.
    by apply Hj, (Hd i j x y id).
  - by apply disjoint_delete.
  - intros id expiry Hlast. destruct (decide (id ∈ map rr_id (tx_rows x))) as [Hin|Hin].
    + rewrite last_lease_claimed in Hlast by done. injection Hlast as <-.
      apply list_elem_of_fmap in Hin as (row & -> & Hin).
      exists (stamp (tx_now x) (tx_worker x) (tx_expiry x) row). split; [|done].
      apply (put_rows_elem _ _ (stamp (tx_now x) (tx_worker x) (tx_expiry x) row)).
      * by rewrite stamped_ids.
      * by apply (list_elem_of_fmap_2 (stamp _ _ _)).
    + rewrite last_lease_other in Hlast by (rewrite map_map; exact Hin).
      cbn [t_runs]. rewrite put_rows_other by (by rewrite stamped_ids). by apply Hl.
  - apply exclusive_claims; [done|done|]. eapply Forall_impl; [exact Hrows|].
    intros row [Hrow Hready]. destruct (last_lease _ _) as [expiry|] eqn:Hlast; [|done].
    destruct (Hl _ _ Hlast) as (row' & Hrow' & Hs & Hex).
    assert (row' = row) as -> by congruence. by eapply ready_after.
Qed.

Lemma write_inv s row t' :
  inv s -> writes row (sys_tables s) t' -> ~ locked s (rr_id row) ->
  inv (mkSys t' (sys_txs s) (sys_log s ++ [Written (rr_id row)])).
Proof.
  intros [Hk Htx Hd Hl He] (row' & Hid & ->)%writes_insert Hfree. split; cbn; try done.
  - destruct Hk as [Hj Hr]. split; [done|]. by apply map_Forall_insert_2.
  - intros j y Hy. apply (tx_ok_same (sys_tables s)); [|by eapply Htx].
    intros id Hh. cbn. apply lookup_insert_ne. intros <-. apply Hfree. by exists j, y.
  - intros id expiry Hlast. rewrite last_lease_app in Hlast. cbn in Hlast. unfold record_event in Hlast.
    cbn in Hlast. destruct (String.eqb_spec (rr_id row) id) as [|Hne]; [discriminate|].
    cbn [t_runs]. rewrite lookup_insert_ne by done. by apply Hl.
  - by apply exclusive_snoc.
Qed.

Lemma step_inv s s' : step s s' -> inv s -> inv s'.
Proof.
  intros Hs Hi. destruct Hs; [|by apply lock_inv|by apply commit_inv| |by apply write_inv];
    destruct Hi as [Hk Htx Hd Hl He]; split; cbn; try done.
  - apply map_Forall_insert_2; [|done]. split_and!; cbn; [constructor|lia|constructor].
  - apply disjoint_insert; [done|]. by intros j y id _ _ []%elem_of_nil.
  - by apply map_Forall_delete.
  - by apply disjoint_delete.
Qed.

Lemma reach_inv t s : keyed_tables t -> rtc step (start t) s -> inv s.
Proof.
  intros Hk Hr. apply inv_start in Hk. induction Hr; eauto using step_inv.
Qed.

(** ** The claim statement is one of the interleavings *)

(** Locking the rows of a list one after the other. *)
Lemma lock_all s i x rows :
  keyed_tables (sys_tables s) -> sys_txs s !! i = Some x ->
  NoDup (map rr_id rows) -> Z.of_nat (length (tx_rows x) + length rows) <= tx_limit x ->
  Forall (fun row => t_runs (sys_tables s) !! rr_id row = Some row
    /\ is_ready (tx_now x) row = true /\ ~ locked s (rr_id row)) rows ->
  rtc step s (mkSys (sys_tables s)
    (<[i := mkTx (tx_now x) (tx_worker x) (tx_expiry x) (tx_limit x) (tx_rows x ++ rows)]> (sys_txs s))
    (sys_log s)).
Proof.
  intros Hk. revert s x Hk. induction rows as [|row rows IH]; intros s x Hk Hx Hnd Hlen Hall.
  - rewrite app_nil_r, insert_id by (by destruct x). by destruct s.
  - cbn in Hnd, Hlen. apply NoDup_cons in Hnd as [Hnew Hnd].
    apply Forall_cons in Hall as [(Hrow & Hready & Hfree) Hall].
    eapply rtc_l; [apply (step_lock s i x row); try done; lia|].
    pose proof (IH (mkSys (sys_tables s) (<[i := add_row x row]> (sys_txs s)) (sys_log s))
      (add_row x row) Hk (lookup_insert_eq _ _ _) Hnd) as Hrest. cbn in Hrest.
    rewrite insert_insert_eq, <-app_assoc in Hrest. apply Hrest; [rewrite length_app; cbn; lia|].
    rewrite Forall_forall in Hall |- *. intros r Hin. destruct (Hall r Hin) as (Hr & Hrr & Hrf).
    split_and!; [done|done|]. intros (j & y & Hy & Hh). cbn in Hy.
    apply lookup_insert_Some in Hy as [[<- <-]|[Hj Hy]].
    + apply holds_add in Hh as [Hh|Heq].
      * apply Hrf. by exists i, x.
      * apply Hnew. rewrite <-Heq. by apply (list_elem_of_fmap_2 rr_id).
    + apply Hrf. by exists j, y.
Qed.

Context `{!ServerLaws}.

Lemma claim_runs_interleaving s i now worker expiry limit (held : gset string) r t' :
  keyed_tables (sys_tables s) -> sys_txs s !! i = None -> (forall id, id ∈ held <-> locked s id) ->
  claim_runs now worker expiry limit held (sys_tables s) = Ok (r, t') ->
  exists log, rtc step s (mkSys t' (sys_txs s) (sys_log s ++ log)).
Proof.
  intros Hk Hi Hheld. unfold claim_runs. destruct (text_ok worker && (0 <=? limit)) eqn:E; [|discriminate].
  intros [= _ <-]. set (rows := ready_rows now limit held (sys_tables s)).
  set (x := mkTx now worker expiry limit rows). exists (map (claimed x) rows).
  eapply rtc_l; [by apply (step_begin s i now worker expiry limit)|].
  assert (Hfree : forall id, locked (mkSys (sys_tables s)
    (<[i := mkTx now worker expiry limit []]> (sys_txs s)) (sys_log s)) id -> locked s id).
  { intros id (j & y & Hy & Hh). cbn in Hy. apply lookup_insert_Some in Hy as [[<- <-]|[Hj Hy]];
      [by apply elem_of_nil in Hh|by exists j, y]. }
  etrans; [apply (lock_all _ i (mkTx now worker expiry limit []) rows)|].
  - done.
  - apply lookup_insert_eq.
  - by apply ready_rows_NoDup.
  - cbn. unfold rows, ready_rows. rewrite length_take. bool_lia.
  - apply Forall_forall. intros row Hin. apply ready_rows_spec in Hin as (Hin & Hready & Hlock).
    split_and!; [by apply row_id|done|]. intros Hl%Hfree. by apply Hlock, Hheld.
  - cbn. rewrite insert_insert_eq. apply rtc_once.
    pose proof (step_commit (mkSys (sys_tables s) (<[i := x]> (sys_txs s)) (sys_log s)) i x
      (lookup_insert_eq _ _ _)) as Hc. cbn in Hc. by rewrite delete_insert_id in Hc.
Qed.

(** C8: claims of many workers at once.  Whatever transactions claim, commit,
    roll back and write runs, in any order: two transactions never hold the same
    run, none holds more than it asked for, and a run that was handed out is
    handed out again only by a claim whose time is after the lease, unless the
    run was written in between. *)
Theorem claims_exclusive t s :
  keyed_tables t -> rtc step (start t) s ->
  (forall i j x y id, sys_txs s !! i = Some x -> sys_txs s !! j = Some y ->
     holds x id -> holds y id -> i = j)
  /\ (forall i x, sys_txs s !! i = Some x ->
        Z.of_nat (length (tx_rows x)) <= Z.max 0 (tx_limit x)
        /\ forall row, row ∈ tx_rows x -> t_runs (sys_tables s) !! rr_id row = Some row
             /\ is_ready (tx_now x) row = true)
  /\ (forall pre id now1 worker1 expiry1 mid now2 worker2 expiry2 post,
        sys_log s = pre ++ Claimed id now1 worker1 expiry1 :: mid
                    ++ Claimed id now2 worker2 expiry2 :: post ->
        id ∉ map event_id mid -> expiry1 < now2).
Proof.
  intros Hk Hr. destruct (reach_inv t s Hk Hr) as [_ Htx Hd _ He]. split_and!; [exact Hd| |].
  - intros i x Hx. destruct (Htx _ _ Hx) as (_ & Hlim & Hrows). split; [done|].
    by apply Forall_forall.
  - intros pre id now1 worker1 expiry1 mid now2 worker2 expiry2 post Hlog Hmid.
    rewrite app_comm_cons, app_assoc in Hlog. pose proof (He _ _ _ _ _ _ Hlog) as Ha.
    rewrite cons_middle, app_assoc, last_lease_other, last_lease_app in Ha by done.
    cbn in Ha. unfold record_event in Ha. cbn in Ha. by rewrite String.eqb_refl in Ha.
Qed.
End Claims.

(** ** Two workers

    They hold one run each at the same time; the first commits, and its run is
    claimed again after the lease. *)

Definition free (s : sys) (id : string) : bool :=
  forallb (fun p : nat * tx => negb (bool_decide (id ∈ map rr_id (tx_rows p.2)))) (map_to_list (sys_txs s)).

Lemma free_not_locked s id : free s id = true -> ~ locked s id.
Proof.
  unfold free. rewrite forallb_forall. intros Hf (i & x & Hx & Hh).
  apply elem_of_map_to_list, list_elem_of_In in Hx. specialize (Hf _ Hx).
  apply negb_true_iff, bool_decide_eq_false in Hf. done.
Qed.

Definition lock_step (s : sys) (i : nat) (x : tx) (row : run_row) : sys :=
  mkSys (sys_tables s) (<[i := add_row x row]> (sys_txs s)) (sys_log s).

Definition commit_step (s : sys) (i : nat) (x : tx) : sys :=
  mkSys (mkTables (t_jobs (sys_tables s)) (foldl put_row (t_runs (sys_tables s)) (stamped x)))
    (delete i (sys_txs s)) (sys_log s ++ map (claimed x) (tx_rows x)).

Definition begin_step (s : sys) (i : nat) (x : tx) : sys :=
  mkSys (sys_tables s) (<[i := x]> (sys_txs s)) (sys_log s).

Definition x0 := mkTx 5000 "w0" 7000 1 [].
Definition x1 := mkTx 5000 "w1" 7000 5 [].
Definition x2 := mkTx 8000 "w1" 9000 1 [].
Definition r1 := demo_row "r1" 1000.
Definition r1' := stamp 5000 "w0" 7000 r1.
Definition r2 := demo_row "r2" 2000.

Definition both : sys :=
  lock_step (lock_step (begin_step (begin_step (start demo_tables) 0 x0) 1 x1) 0 x0 r1) 1 x1 r2.
Definition again : sys :=
  commit_step (lock_step (begin_step (commit_step both 0 (add_row x0 r1)) 2 x2) 2 x2 r1') 2 (add_row x2 r1').

Lemma reach_both : rtc step (start demo_tables) both.
Proof.
  eapply rtc_l; [by apply (step_begin _ 0)|]. eapply rtc_l; [by apply (step_begin _ 1)|].
  eapply rtc_l; [by eapply (step_lock _ 0 x0 r1); [..|by apply free_not_locked|]|].
  eapply rtc_l; [by eapply (step_lock _ 1 x1 r2); [..|by apply free_not_locked|]|].
  apply rtc_refl.
Qed.

Lemma reach_again : rtc step (start demo_tables) again.
Proof.
  etrans; [apply reach_both|]. eapply rtc_l; [by apply (step_commit _ 0 (add_row x0 r1))|].
  eapply rtc_l; [by apply (step_begin _ 2)|].
  eapply rtc_l; [by eapply (step_lock _ 2 x2 r1'); [..|by apply free_not_locked|]|].
  apply rtc_once. by apply (step_commit _ 2 (add_row x2 r1')).
Qed.

Lemma demo_tables_keyed : keyed_tables demo_tables.
Proof.
  split; [by apply map_Forall_empty|]. cbn. repeat (apply map_Forall_insert_2; [done|]).
  apply map_Forall_empty.
Qed.

Lemma claims_exclusive_witness :
  sys_log again = [Claimed "r1" 5000 "w0" 7000; Claimed "r1" 8000 "w1" 9000]
  /\ (7000 < 8000)
  /\ (forall i j x y id, sys_txs both !! i = Some x -> sys_txs both !! j = Some y ->
        holds x id -> holds y id -> i = j).
Proof.
  split_and!; [vm_compute; reflexivity| |].
  - eapply (claims_exclusive demo_tables again demo_tables_keyed reach_again)
      with (pre := []) (mid := []) (post := []); [vm_compute; reflexivity|].
    apply not_elem_of_nil.
  - apply (claims_exclusive demo_tables both demo_tables_keyed reach_both).
Defined.
End Claims.
