(* ===== verification/Effects.v ===== *)
(** * Programs with effects

    The scheduler's code calls the store, the clock, the identifier source, the
    executor, the metrics and a mutex.  A function with such calls is a
    [prog A]: a tree of calls, so that the same definition runs alone
    ([run], a function) and interleaved with other goroutines at the granularity
    of one call ([Pool.v]).

    The metrics ([src/internal/metrics/metrics.go]) appear as the sequence of
    updates made to the collectors; the registry that stores them is the
    Prometheus client's. *)

From Stdlib Require Import ZArith Lia Ascii String.
From stdpp Require Import base list strings gmap.
From S2P Require Import Prelude GoTime GoFloat Job Store.

#[local] Open Scope string_scope.
#[local] Open Scope list_scope.
#[local] Open Scope Z_scope.

(** ** Metrics *)

(** [d.Seconds()]. *)
Definition Seconds (d : duration) : float64 :=
  fadd (f_of_Z (Z.quot d Second)) (fdiv (f_of_Z (Z.rem d Second)) (f_of_Z 1000000000)).

(** An update of one collector. *)
Inductive metric :=
| runsTotal_Inc (job : string) (state : RunState)
| runDuration_Observe (job : string) (seconds : float64)
| retriesTotal_Inc (job : string)
| ticksTotal_Inc
| pendingRuns_Set (n : float64)
| schedulerLag_Set (seconds : float64).

Definition ObserveRun (jobID : string) (state : RunState) (dur : duration) : list metric :=
  [runsTotal_Inc jobID state; runDuration_Observe jobID (Seconds dur)].
Definition IncRetry (jobID : string) : list metric := [retriesTotal_Inc jobID].
Definition Tick : list metric := [ticksTotal_Inc].
Definition SetPending (n : Z) : list metric := [pendingRuns_Set (f_of_Z n)].
Definition SetLag (d : duration) : list metric := [schedulerLag_Set (Seconds d)].

(** ** Effects and programs *)

Inductive eff : Type -> Type :=
| OnStore {R} (c : call R) : eff R
| NewID : eff string
| Now : eff time
| Execute (timeout : option duration) (j : Job) (r : Run) : eff (option string)
| CtxDone : eff bool
| RandFloat : eff float64
| Emit (ms : list metric) : eff unit
| Lock : eff unit
| Unlock : eff unit.

Inductive prog (A : Type) : Type :=
| Ret (a : A)
| Vis {R : Type} (e : eff R) (k : R -> prog A).
Arguments Ret {A} a.
Arguments Vis {A R} e k.

Fixpoint bind {A B} (p : prog A) (f : A -> prog B) : prog B :=
  match p with
  | Ret a => f a
  | Vis e k => Vis e (fun r => bind (k r) f)
  end.

Definition do_eff {R} (e : eff R) : prog R := Vis e Ret.
Definition do_call {R} (c : call R) : prog R := do_eff (OnStore c).

Lemma bind_do_eff {R} (e : eff R) : bind (do_eff e) Ret = do_eff e.
Proof. done. Qed.

Notation "'let*' x ':=' p 'in' k" := (bind p (fun x => k))
  (at level 10, x pattern, p at level 100, k at level 200) : go_scope.

(** [x, err := p; if err != nil { return err }]. *)
Notation "'let*?' x ':=' p 'in' k" :=
  (bind p (fun r => match r with Ok x => k | Err err => Ret (Err err) end))
  (at level 10, x pattern, p at level 100, k at level 200) : go_scope.

(** ** The environment

    What the program does not control, as functions of the number of effects
    performed so far: identifiers, clock readings, outcomes of executions
    ([None] for success, else the error text), cancellation and random numbers;
    and the implementation's conversion of floats that do not fit. *)
Record env := mkEnv {
  env_id : nat -> string;
  env_now : nat -> time;
  env_exec : nat -> option duration -> Job -> Run -> option string;
  env_done : nat -> bool;
  env_rand : nat -> float64;
  env_conv : float64 -> Z
}.

Section Run.
Context {S : Type} `{Store S} (E : env).

Record world := mkWorld {
  w_store : S;
  w_count : nat;
  w_locked : bool;
  w_metrics : list metric
}.

Definition w_db (w : world) : db := view (w_store w).

(** One effect.  [Lock] is only performed on a free mutex ([Pool.v]). *)
Definition perform {R} (e : eff R) (w : world) : R * world :=
  let n := w_count w in
  let next s l m := mkWorld s (Datatypes.S n) l m in
  match e in eff R return R * world with
  | OnStore c =>
      let '(r, s) := handle c (w_store w) in (r, next s (w_locked w) (w_metrics w))
  | NewID => (env_id E n, next (w_store w) (w_locked w) (w_metrics w))
  | Now => (env_now E n, next (w_store w) (w_locked w) (w_metrics w))
  | Execute timeout j r =>
      (env_exec E n timeout j r, next (w_store w) (w_locked w) (w_metrics w))
  | CtxDone => (env_done E n, next (w_store w) (w_locked w) (w_metrics w))
  | RandFloat => (env_rand E n, next (w_store w) (w_locked w) (w_metrics w))
  | Emit ms => (tt, next (w_store w) (w_locked w) (w_metrics w ++ ms))
  | Lock => (tt, next (w_store w) true (w_metrics w))
  | Unlock => (tt, next (w_store w) false (w_metrics w))
  end.

(** Running a program alone. *)
Fixpoint run {A} (p : prog A) (w : world) : A * world :=
  match p with
  | Ret a => (a, w)
  | Vis e k => let '(r, w) := perform e w in run (k r) w
  end.

Lemma run_bind {A B} (p : prog A) (f : A -> prog B) w :
  run (bind p f) w = let '(a, w') := run p w in run (f a) w'.
Proof.
  revert w. induction p as [a|R e k IH]; intros w; simpl; [done|].
  destruct (perform e w) as [r w']. apply IH.
Qed.

(** ** Weakest preconditions *)

Definition wp {A} (p : prog A) (Q : A -> world -> Prop) (w : world) : Prop :=
  let '(a, w') := run p w in Q a w'.

Lemma wp_ret {A} (a : A) Q w : Q a w -> wp (Ret a) Q w.
Proof. done. Qed.

Lemma wp_bind {A B} (p : prog A) (f : A -> prog B) Q w :
  wp p (fun a w' => wp (f a) Q w') w -> wp (bind p f) Q w.
Proof. unfold wp. rewrite run_bind. by destruct (run p w). Qed.

Lemma wp_mono {A} (p : prog A) (P Q : A -> world -> Prop) w :
  wp p P w -> (forall a w', P a w' -> Q a w') -> wp p Q w.
Proof. unfold wp. destruct (run p w). auto. Qed.

Lemma wp_perform {R A} (e : eff R) (f : R -> prog A) Q w :
  wp (f (perform e w).1) Q (perform e w).2 -> wp (bind (do_eff e) f) Q w.
Proof. unfold wp. rewrite run_bind. simpl. by destruct (perform e w). Qed.

Definition world_ok (w : world) : Prop := store_ok (w_store w).

(** A store call: any answer that the contract allows. *)
Lemma wp_call {R} (c : call R) (Q : R -> world -> Prop) w :
  world_ok w ->
  (forall r w', world_ok w' -> w_count w' = Datatypes.S (w_count w) ->
     w_locked w' = w_locked w -> w_metrics w' = w_metrics w ->
     store_spec fallible c (w_db w) r (w_db w') -> Q r w') ->
  wp (do_call c) Q w.
Proof.
  intros Hok HQ. unfold wp. simpl.
  pose proof (handle_ok R c (w_store w) Hok) as H1.
  pose proof (handle_spec R c (w_store w) Hok) as H2.
  destruct (handle c (w_store w)) as [r s]. by apply HQ.
Qed.
End Run.

Lemma not_failed {A} d (r : result store_error A) d' : failed false d r d' -> False.
Proof. by intros [? _]. Qed.

(** ** Calls to a reliable store *)

Section Reliable.
Context {S : Type} `{Store S} (E : env) (Hreliable : fallible = false).

Lemma wp_create r Q w :
  world_ok w ->
  (forall w', world_ok w' -> w_db w' = put_run (w_db w) r ->
     w_count w' = Datatypes.S (w_count w) -> w_locked w' = w_locked w ->
     w_metrics w' = w_metrics w -> Q (Ok tt) w') ->
  wp E (do_call (CreateRun r)) Q w.
Proof.
  intros Hok HQ. apply wp_call; [done|]. intros x w' Hok' Hn Hl Hm [Hf|[-> Hd]]; [|by apply HQ].
  rewrite Hreliable in Hf. by apply not_failed in Hf.
Qed.

Lemma wp_update r x Q w :
  world_ok w -> db_runs (w_db w) !! run_ID r = Some x ->
  (forall w', world_ok w' -> w_db w' = put_run (w_db w) r ->
     w_count w' = Datatypes.S (w_count w) -> w_locked w' = w_locked w ->
     w_metrics w' = w_metrics w -> Q (Ok tt) w') ->
  wp E (do_call (UpdateRun r)) Q w.
Proof.
  intros Hok Hx HQ. apply wp_call; [done|]. intros y w' Hok' Hn Hl Hm [Hf|Hd].
  - rewrite Hreliable in Hf. by apply not_failed in Hf.
  - cbn in Hd. rewrite Hx in Hd. destruct Hd as [-> Hd]. by apply HQ.
Qed.

Lemma wp_get_job id j Q w :
  world_ok w -> db_jobs (w_db w) !! id = Some j ->
  (forall w', world_ok w' -> w_db w' = w_db w ->
     w_count w' = Datatypes.S (w_count w) -> w_locked w' = w_locked w ->
     w_metrics w' = w_metrics w -> Q (Ok j) w') ->
  wp E (do_call (GetJob id)) Q w.
Proof.
  intros Hok Hx HQ. apply wp_call; [done|]. intros y w' Hok' Hn Hl Hm [Hf|[Hy Hd]].
  - rewrite Hreliable in Hf. by apply not_failed in Hf.
  - cbn in Hy. rewrite Hx in Hy. subst y. by apply HQ.
Qed.

Lemma wp_list_jobs Q w :
  world_ok w ->
  (forall l w', world_ok w' -> w_db w' = w_db w ->
     w_count w' = Datatypes.S (w_count w) -> w_locked w' = w_locked w ->
     l ≡ₚ jobs_of (w_db w) -> Q (Ok l) w') ->
  wp E (do_call ListJobs) Q w.
Proof.
  intros Hok HQ. apply wp_call; [done|]. intros y w' Hok' Hn Hl Hm [Hf|(l & -> & Hp & Hd)].
  - rewrite Hreliable in Hf. by apply not_failed in Hf.
  - by apply HQ.
Qed.

(** A listing without a window: exactly the runs that match. *)
Lemma wp_list_runs f Q w :
  world_ok w -> rf_Limit f = 0 -> rf_Offset f = 0 ->
  (forall l w', world_ok w' -> w_db w' = w_db w ->
     w_count w' = Datatypes.S (w_count w) -> w_locked w' = w_locked w ->
     w_metrics w' = w_metrics w -> l ≡ₚ filter (fun x => matches f x) (runs_of (w_db w)) ->
     Q (Ok l) w') ->
  wp E (do_call (ListRuns f)) Q w.
Proof.
  intros Hok H1 H2 HQ. apply wp_call; [done|].
  intros y w' Hok' Hn Hl Hm [Hf|(l & -> & Hp & _ & Hd)].
  - rewrite Hreliable in Hf. by apply not_failed in Hf.
  - rewrite page_no_limit by done. by apply HQ.
Qed.
End Reliable.

(** Reason about the store call at the head of the goal: [H] gets the case in
    which the backend failed, then the case in which it did its work. *)
Ltac store_call r w' Hok Hn Hl Hm Hs :=
  apply wp_bind, wp_call; [assumption|];
  intros r w' Hok Hn Hl Hm Hs; destruct Hs as [Hs|Hs].

(** Equations between the fields of worlds. *)
Ltac world_eq :=
  unfold w_db in *; cbn [w_store w_count w_locked w_metrics] in *;
  first
    [ congruence
    | repeat match goal with
        | H : w_metrics ?w = _ |- context [w_metrics ?w] => rewrite H; clear H
        | H : view (w_store ?w) = _ |- context [view (w_store ?w)] => rewrite H; clear H
        end; reflexivity ].

Ltac ret := unfold wp; cbn [run]; cbv beta iota.

(** The other effects are computed. *)
Ltac effect := apply wp_perform; cbn [perform fst snd w_store w_count w_locked w_metrics].

Arguments world : clear implicits.
Arguments mkWorld {S}.

(** ** A concrete environment

    Identifiers in unary, a clock that shows the number of effects, successful
    executions. *)
Fixpoint tally (n : nat) : string :=
  match n with O => "i" | Datatypes.S n => String "i"%char (tally n) end.

Lemma tally_length n : String.length (tally n) = Datatypes.S n.
Proof. induction n as [|n IH]; [done|]. cbn. by f_equal. Qed.

Lemma tally_inj m n : tally m = tally n -> m = n.
Proof. intros Heq%(f_equal String.length). rewrite !tally_length in Heq. by injection Heq. Qed.

Definition calm_env : env := mkEnv tally Z.of_nat (fun _ _ _ _ => None) (fun _ => false)
  (fun _ => f_zero) (fun _ => 0).
