(* ===== verification/Metrics.v ===== *)
(** * The collectors

    Models [New] of [src/internal/metrics/metrics.go]: the collectors with their
    names and labels, and which of them every update of [Effects.v] is made to.
    What a collector does with an update belongs to the Prometheus client, which
    panics when a name is registered twice or an update has not one value per
    label. *)

From Stdlib Require Import ZArith String.
From stdpp Require Import base list strings.
From S2P Require Import Prelude GoFloat Effects.

#[local] Open Scope string_scope.
#[local] Open Scope list_scope.

Inductive kind := Counter | Gauge | Histogram.

Record collector := mkCollector {
  c_kind : kind;
  c_name : string;
  c_help : string;
  c_labels : list string
}.

Definition runsTotal : collector := mkCollector Counter "cronflux_runs_total"
  "Number of runs that reached a terminal state, by job and state." ["job"; "state"].
Definition retriesTotal : collector := mkCollector Counter "cronflux_run_retries_total"
  "Number of run retries scheduled, by job." ["job"].
Definition runDuration : collector := mkCollector Histogram "cronflux_run_duration_seconds"
  "Wall-clock duration of run executions, by job." ["job"].
Definition ticksTotal : collector := mkCollector Counter "cronflux_scheduler_ticks_total"
  "Number of scheduler ticks processed." [].
Definition pendingRuns : collector := mkCollector Gauge "cronflux_pending_runs"
  "Current number of runs waiting to be executed." [].
Definition schedulerLag : collector := mkCollector Gauge "cronflux_scheduler_lag_seconds"
  "Age of the oldest due-but-unclaimed run, in seconds." [].

(** The collectors of [MustRegister], in its order. *)
Definition New : list collector :=
  [runsTotal; retriesTotal; runDuration; ticksTotal; pendingRuns; schedulerLag].

(** The collector an update is made to, the values of its labels, the operation. *)
Inductive operation := Inc | Set_to (x : float64) | Observe (x : float64).

Definition update (m : metric) : collector * list string * operation :=
  match m with
  | runsTotal_Inc job state => (runsTotal, [job; state], Inc)
  | runDuration_Observe job seconds => (runDuration, [job], Observe seconds)
  | retriesTotal_Inc job => (retriesTotal, [job], Inc)
  | ticksTotal_Inc => (ticksTotal, [], Inc)
  | pendingRuns_Set n => (pendingRuns, [], Set_to n)
  | schedulerLag_Set seconds => (schedulerLag, [], Set_to seconds)
  end.

(** The operations that a kind of collector has. *)
Definition supports (k : kind) (op : operation) : bool :=
  match k, op with
  | Counter, Inc | Gauge, (Inc | Set_to _) | Histogram, Observe _ => true
  | _, _ => false
  end.

(** Registration never panics: the names are distinct. *)
Lemma New_registers : NoDup (map c_name New).
Proof. apply (bool_decide_unpack _). vm_compute. exact I. Qed.

(** No update panics: it is made to a registered collector that supports it, with
    one value per label. *)
Lemma update_well_formed m :
  let '(c, values, op) := update m in
  c ∈ New /\ length values = length (c_labels c) /\ supports (c_kind c) op = true.
Proof. destruct m; cbn; (split; [unfold New; rewrite !elem_of_cons; tauto|done]). Qed.
