(* ===== verification/Worker.v ===== *)
(** * Workers

    Models [src/internal/scheduler/worker.go]: the execution of one claimed run,
    and the executors of [executors.go].  A Go function that returns a run and an
    error is a program that returns the pair. *)

From Stdlib Require Import ZArith Lia String.
From stdpp Require Import base list strings gmap.
From S2P Require Import Prelude GoTime GoFloat GoStrings Job Store MemoryStore FaultyStore.
From S2P Require Import Backoff Effects.

#[local] Open Scope string_scope.
#[local] Open Scope list_scope.
#[local] Open Scope Z_scope.

(** ** Executors

    An executor takes the timeout of its context, the job and the run, and gives
    [None] or the text of its error; it may answer differently from one call to
    the next, so it also depends on the moment of the call. *)

Definition Executor := nat -> option duration -> Job -> Run -> option string.

Definition ExecutorFunc (f : Executor) : Executor := f.

Definition NoopExecutor : Executor := fun _ _ _ _ => None.

(** [command] runs a program with its arguments as a subprocess. *)
Definition ShellExecutor
    (command : nat -> option duration -> string -> list string -> option string)
  : Executor := fun moment ctx j _ =>
  match job_Command j with
  | [] => None
  | name :: args => command moment ctx name args
  end.

(** ** The worker *)

Definition backoffFor (p : RetryPolicy) : Backoff.Exponential :=
  Backoff.mkExponential (rp_Base p) (rp_Max p) (rp_Factor p) (rp_Jitter p).

(** The run with the fields the worker sets. *)
Definition finish_run (r : Run) (finish : time) (state : RunState) (err : string) : Run :=
  mkRun (run_ID r) (run_JobID r) (run_BatchID r) state (run_Attempt r) (run_ScheduledFor r)
    (run_StartedAt r) (Some finish) (run_LeaseExpiry r) (run_Worker r) err
    (run_CreatedAt r) finish.

Section Worker.
Context (conv : float64 -> Z).

(** [Delay], drawing a random number only when there is a jitter. *)
Definition draw_delay (e : Backoff.Exponential) (attempt : Z) : prog duration :=
  let* u := (if fltb f_zero (Backoff.Jitter e) then do_eff RandFloat else Ret f_zero) in
  Ret (Backoff.Delay conv u e attempt).

Definition scheduleRetry (j : Job) (failed : Run) (at_ : time) : prog (result store_error unit) :=
  let* delay := draw_delay (backoffFor (job_Backoff j)) (run_Attempt failed) in
  let* id := do_eff NewID in
  do_call (CreateRun
    (pending_run id (run_JobID failed) (run_BatchID failed) (i64 (run_Attempt failed + 1))
       (Add at_ delay) at_)).

Definition process (r : Run) : prog (Run * result store_error unit) :=
  let* gj := do_call (GetJob (run_JobID r)) in
  match gj with
  | Err err => Ret (r, Err err)
  | Ok j =>
      let timeout := if 0 <? job_Timeout j then Some (job_Timeout j) else None in
      let* start := do_eff Now in
      let* execErr := do_eff (Execute timeout j r) in
      let* stopping := do_eff CtxDone in
      if stopping : bool then Ret (r, Ok tt)
      else
        let* finish := do_eff Now in
        let dur := Sub finish start in
        match execErr with
        | None =>
            let r := finish_run r finish StateSucceeded "" in
            let* _ := do_eff (Emit (ObserveRun (job_ID j) (run_State r) dur)) in
            let* err := do_call (UpdateRun r) in
            Ret (r, err)
        | Some msg =>
            if run_Attempt r <? job_MaxRetries j then
              let r := finish_run r finish StateFailed msg in
              let* err := do_call (UpdateRun r) in
              match err with
              | Err err => Ret (r, Err err)
              | Ok _ =>
                  let* err := scheduleRetry j r finish in
                  match err with
                  | Err err => Ret (r, Err err)
                  | Ok _ =>
                      let* _ := do_eff (Emit (ObserveRun (job_ID j) StateFailed dur)) in
                      let* _ := do_eff (Emit (IncRetry (job_ID j))) in
                      Ret (r, Ok tt)
                  end
              end
            else
              let r := finish_run r finish StateDead msg in
              let* _ := do_eff (Emit (ObserveRun (job_ID j) StateDead dur)) in
              let* err := do_call (UpdateRun r) in
              Ret (r, err)
        end
  end.
End Worker.

(** ** Correctness *)

Section Correctness.
Context {S : Type} `{Store S} (E : env) (Hreliable : fallible = false).
Local Abbreviation conv := (env_conv E).

(** The delay drawn when [n] effects have been performed, and how many effects
    the draw takes. *)
Definition delay_at (p : RetryPolicy) (attempt : Z) (n : nat) : duration :=
  let e := backoffFor p in
  Backoff.Delay conv (if fltb f_zero (Backoff.Jitter e) then env_rand E n else f_zero) e attempt.
Definition draw_cost (p : RetryPolicy) : nat :=
  if fltb f_zero (Backoff.Jitter (backoffFor p)) then 1%nat else 0%nat.

Lemma wp_draw_delay p attempt Q w :
  Q (delay_at p attempt (w_count w))
    (mkWorld (w_store w) (draw_cost p + w_count w) (w_locked w) (w_metrics w)) ->
  wp E (draw_delay conv (backoffFor p) attempt) Q w.
Proof.
  unfold draw_delay, delay_at, draw_cost. intros HQ.
  destruct (fltb f_zero _); [effect|]; apply wp_ret; [done|]. by destruct w.
Qed.

Lemma wp_scheduleRetry j failed at_ Q w :
  world_ok w -> min_int64 <= run_Attempt failed < max_int64 ->
  (forall w', world_ok w' ->
     w_db w' = put_run (w_db w)
       (pending_run (env_id E (draw_cost (job_Backoff j) + w_count w))
          (run_JobID failed) (run_BatchID failed) (run_Attempt failed + 1)
          (at_ + delay_at (job_Backoff j) (run_Attempt failed) (w_count w)) at_) ->
     w_locked w' = w_locked w -> w_metrics w' = w_metrics w -> Q (Ok tt) w') ->
  wp E (scheduleRetry conv j failed at_) Q w.
Proof.
  intros Hok Ha HQ. apply wp_bind, wp_draw_delay. effect.
  apply wp_create; [done..|]. intros w' Hok' Hd _ Hl Hm. apply HQ; [done| |done|done].
  rewrite Hd, i64_small by lia. done.
Qed.

(** C5: what a worker does with a claimed run, on every branch.  During a
    shutdown the run is left leased.  A success is recorded.  A failure with
    attempts left records the failure and enqueues the next attempt of the same
    job and batch after the backoff delay; otherwise the run is dead. *)
Theorem process_correct (w : world S) (r x : Run) (j : Job) :
  world_ok w ->
  db_jobs (w_db w) !! run_JobID r = Some j -> db_runs (w_db w) !! run_ID r = Some x ->
  min_int64 <= run_Attempt r -> job_MaxRetries j <= max_int64 ->
  let n := w_count w in
  let start := env_now E (1 + n) in
  let finish := env_now E (4 + n) in
  let timeout := if 0 <? job_Timeout j then Some (job_Timeout j) else None in
  wp E (process conv r) (fun '(r', err) w' =>
    err = Ok tt /\ w_locked w' = w_locked w /\
    if env_done E (3 + n) then
      r' = r /\ w_db w' = w_db w /\ w_metrics w' = w_metrics w
    else
      match env_exec E (2 + n) timeout j r with
      | None =>
          r' = finish_run r finish StateSucceeded "" /\ w_db w' = put_run (w_db w) r'
          /\ w_metrics w' =
               w_metrics w ++ ObserveRun (job_ID j) StateSucceeded (Sub finish start)
      | Some msg =>
          if run_Attempt r <? job_MaxRetries j then
            r' = finish_run r finish StateFailed msg
            /\ w_db w' = put_run (put_run (w_db w) r')
                 (pending_run (env_id E (draw_cost (job_Backoff j) + (6 + n)))
                    (run_JobID r) (run_BatchID r) (run_Attempt r + 1)
                    (finish + delay_at (job_Backoff j) (run_Attempt r) (6 + n)) finish)
            /\ w_metrics w' = w_metrics w
                 ++ ObserveRun (job_ID j) StateFailed (Sub finish start) ++ IncRetry (job_ID j)
          else
            r' = finish_run r finish StateDead msg /\ w_db w' = put_run (w_db w) r'
            /\ w_metrics w' =
                 w_metrics w ++ ObserveRun (job_ID j) StateDead (Sub finish start)
      end) w.
Proof.
  intros Hok Hj Hx Hlo Hhi n start finish timeout. unfold process. cbn [Nat.add].
  apply wp_bind, (wp_get_job _ Hreliable _ j); [done..|]. intros w1 Hok1 Hd1 Hn1 Hl1 Hm1.
  do 3 effect. rewrite Hn1. fold n timeout.
  destruct (env_done E (Datatypes.S (Datatypes.S (Datatypes.S n)))) eqn:Hstop.
  { ret. split_and!; done || world_eq. }
  effect. destruct (env_exec E _ timeout j r) as [msg|] eqn:Hexec.
  2:{ effect. apply wp_bind, (wp_update _ Hreliable _ x); [done|by rewrite <-Hd1 in Hx|].
      intros w2 Hok2 Hd2 Hn2 Hl2 Hm2. ret. split_and!; done || world_eq. }
  destruct (run_Attempt r <? job_MaxRetries j) eqn:Hatt.
  - apply wp_bind, (wp_update _ Hreliable _ x); [done|by rewrite <-Hd1 in Hx|].
    intros w2 Hok2 Hd2 Hn2 Hl2 Hm2.
    apply wp_bind, wp_scheduleRetry; [done|simpl; lia|].
    intros w3 Hok3 Hd3 Hl3 Hm3. do 2 effect. ret.
    split_and!; [done|world_eq|done| |rewrite app_assoc; world_eq].
    rewrite Hn2 in Hd3. cbn [w_count] in Hd3. fold n in Hd3. world_eq.
  - effect. apply wp_bind, (wp_update _ Hreliable _ x); [done|by rewrite <-Hd1 in Hx|].
    intros w2 Hok2 Hd2 Hn2 Hl2 Hm2. ret. split_and!; done || world_eq.
Qed.
End Correctness.

(** Two jobs' worth of state for the evaluations below: one job with one retry,
    and a run of it that is being executed. *)
Definition flaky_job : Job :=
  mkJob "j" "" "" ["true"] 1 (mkRetryPolicy Second 0 f_zero f_zero) [] 0 true zero_time zero_time.
Definition leased_run : Run :=
  claim 5 "w0" 30 (pending_run "r" "j" "b" 0 4 4).
Definition worker_store : Memory.state :=
  (Memory.CreateRun leased_run (Memory.PutJob flaky_job Memory.New).2).2.

(** Identifiers are counted, the clock shows the number of effects, every
    execution fails, nothing is cancelled. *)
Definition failing_env : env := mkEnv
  (fun n => String.append "id" (print_uint (Z.of_nat n)))
  (fun n => Z.of_nat n) (fun _ _ _ _ => Some "exit status 1") (fun _ => false)
  (fun _ => f_zero) (fun _ => 0).

Lemma worker_store_ok : Memory.mem_ok worker_store.
Proof.
  apply (Memory.methods_ok _ (CreateRun leased_run)), (Memory.methods_ok _ (PutJob flaky_job)).
  apply Memory.New_ok.
Qed.

Lemma process_correct_witness :
  wp failing_env (process (env_conv failing_env) leased_run)
    (fun '(r', _) w' => r' = finish_run leased_run 4 StateFailed "exit status 1"
       /\ db_runs (w_db w') !! "id6" = Some (pending_run "id6" "j" "b" 1 (4 + Second) 4))
    (mkWorld worker_store 0 false []).
Proof.
  eapply wp_mono.
  - apply (process_correct (H := Memory.store) failing_env eq_refl (mkWorld worker_store 0 false [])
             leased_run leased_run flaky_job).
    + apply worker_store_ok.
    + vm_compute. reflexivity.
    + vm_compute. reflexivity.
    + vm_compute. discriminate.
    + vm_compute. discriminate.
  - intros [r' err] w' (_ & _ & -> & Hd & _). split; [reflexivity|].
    rewrite Hd. vm_compute. reflexivity.
Defined.

(** C29: the error paths of a worker, for every store.  When [process] returns an
    error, either the database is as it was, so that the run stays leased and is
    redelivered; or the failure of an attempt with retries left was recorded and
    the backend then refused the next attempt, which is lost: the run is neither
    pending nor dead. *)
Theorem process_error_paths {S : Type} `{Store S} (E : env) (conv : float64 -> Z)
    (w : world S) (r : Run) :
  world_ok w ->
  wp E (process conv r) (fun '(r', err) w' =>
    match err with
    | Ok _ => True
    | Err e =>
        w_db w' = w_db w
        \/ exists finish msg j, w_db w' = put_run (w_db w) (finish_run r finish StateFailed msg)
             /\ db_jobs (w_db w) !! run_JobID r = Some j
             /\ run_Attempt r < job_MaxRetries j
             /\ exists cause, e = Backend cause
    end) w.
Proof.
  intros Hok. unfold process.
  apply wp_bind, wp_call; [done|]. intros gj w1 Hok1 _ _ _ Hgj.
  assert (w_db w1 = w_db w) as Hd1 by (by destruct Hgj as [(_ & _ & ?)|[_ ?]]).
  destruct gj as [j|e]; [|ret; by left].
  assert (db_jobs (w_db w) !! run_JobID r = Some j) as Hj.
  { destruct Hgj as [(_ & [? [=]] & _)|[Heq _]]. unfold found in Heq.
    destruct (_ !! run_JobID r); congruence. }
  do 3 effect. case_on; [by ret|]. effect. destruct (env_exec E _ _ j r) as [msg|].
  2:{ effect. apply wp_bind, wp_call; [done|]. intros u w2 _ _ _ _ Hu. ret.
      destruct u as [|e]; [done|]. left. apply update_error in Hu. world_eq. }
  case_on.
  2:{ effect. apply wp_bind, wp_call; [done|]. intros u w2 _ _ _ _ Hu. ret.
      destruct u as [|e]; [done|]. left. apply update_error in Hu. world_eq. }
  apply wp_bind, wp_call; [done|]. intros u w2 Hok2 _ _ _ Hu. destruct u as [[]|e].
  2:{ ret. left. apply update_error in Hu. world_eq. }
  apply update_done in Hu. unfold scheduleRetry, draw_delay.
  apply wp_bind, wp_bind, wp_bind.
  case_on; [effect|]; ret; effect; (apply wp_call; [done|]);
    intros v w3 Hok3 _ _ _ Hv; (destruct v as [[]|e];
    [do 2 effect; by ret|ret; right]);
    (exists (env_now E (Datatypes.S (Datatypes.S (Datatypes.S (w_count w1))))), msg, j);
    (destruct Hv as [(_ & [cause [= ->]] & Hd)|[[=] _]]);
    (split_and!; [|done|lia|by exists cause]);
    world_eq.
Qed.

(** The connection fails at the third call, the creation of the retry. *)
Definition lost_retry_world : world Faulty.state :=
  mkWorld (Faulty.mkState worker_store [false; false; true]) 0 false [].

Lemma process_error_paths_witness :
  wp failing_env (process (env_conv failing_env) leased_run) (fun '(r', err) w' =>
    err = Err (Backend "connection lost")
    /\ exists finish msg j,
         w_db w' = put_run (w_db lost_retry_world) (finish_run leased_run finish StateFailed msg)
         /\ db_jobs (w_db lost_retry_world) !! "j" = Some j /\ run_Attempt leased_run < job_MaxRetries j)
    lost_retry_world.
Proof.
  pose proof (process_error_paths failing_env (env_conv failing_env) lost_retry_world leased_run
                worker_store_ok) as Hp.
  assert (wp failing_env (process (env_conv failing_env) leased_run) (fun '(_, err) w' =>
    err = Err (Backend "connection lost") /\ run_State <$> (db_runs (w_db w') !! "r") = Some StateFailed)
    lost_retry_world) as Hc by (vm_compute; split; reflexivity).
  unfold wp in *. destruct (run _ _ _) as [[r' err] w']. destruct Hc as [-> Hc].
  split; [reflexivity|]. destruct Hp as [Hp|(finish & msg & j & Hd & Hj & Ha & _)].
  - rewrite Hp in Hc. vm_compute in Hc. discriminate.
  - exists finish, msg, j. split; [exact Hd|split; [exact Hj|exact Ha]].
Defined.
