(* ===== verification/Dispatcher.v ===== *)
(** * The dispatcher

    Models [src/internal/scheduler/dispatcher.go]: materializing pending runs
    from cron fire times and from completed dependencies. *)

From Stdlib Require Import ZArith Lia Ascii String.
From stdpp Require Import base list strings gmap sorting.
From S2P Require Import Prelude GoTime GoFloat GoStrings CronField CronSpec CronNext CronParser.
From S2P Require Import Job Store MemoryStore Effects.

#[local] Open Scope string_scope.
#[local] Open Scope list_scope.
#[local] Open Scope Z_scope.

Record dispatcher := mkDispatcher {
  nextFire : gmap string time;
  parsed : gmap string Schedule
}.

Definition newDispatcher : dispatcher := mkDispatcher ∅ ∅.

(** The parsed schedule of a job, cached under its identifier. *)
Definition schedule (d : dispatcher) (j : Job) : result parse_error Schedule * dispatcher :=
  match parsed d !! job_ID j with
  | Some s => (Ok s, d)
  | None =>
      match Parse (job_Spec j) with
      | Err e => (Err e, d)
      | Ok s => (Ok s, mkDispatcher (nextFire d) (<[job_ID j := s]> (parsed d)))
      end
  end.

Definition set_next (d : dispatcher) (id : string) (t : time) : dispatcher :=
  mkDispatcher (<[id := t]> (nextFire d)) (parsed d).

Definition by_job (id : string) : RunFilter := mkRunFilter id "" "" 0 0.
Definition by_batch (id batch : string) : RunFilter := mkRunFilter id batch "" 0 0.

Definition enqueueRoot (j : Job) (fireAt : time) : prog (result store_error unit) :=
  let*? existing := do_call (ListRuns (by_job (job_ID j))) in
  if existsb (fun r => Equal (run_ScheduledFor r) fireAt) existing then Ret (Ok tt)
  else
    let* id := do_eff NewID in
    let* batch := do_eff NewID in
    do_call (CreateRun (pending_run id (job_ID j) batch 0 fireAt fireAt)).

(** The loop over the fire times of one job that have elapsed.  [None]: the
    [fuel] iterations were not enough, or a calendar walk did not finish. *)
Fixpoint fire_loop (fuel : nat) (j : Job) (sched : Schedule) (now next : time) (created : Z)
  : prog (option (Z * result store_error time)) :=
  if After next now then Ret (Some (created, Ok next))
  else
    match fuel with
    | O => Ret None
    | S fuel =>
        let* r := enqueueRoot j next in
        match r with
        | Err e => Ret (Some (created, Err e))
        | Ok _ =>
            match ScheduleNext sched next with
            | None => Ret None
            | Some next => fire_loop fuel j sched now next (created + 1)
            end
        end
    end.

(** The loop over the jobs: the count of runs, the error and the caches. *)
Fixpoint dispatch_jobs (fuel : nat) (now : time) (jobs : list Job) (created : Z) (d : dispatcher)
  : prog (option (Z * result store_error unit * dispatcher)) :=
  match jobs with
  | [] => Ret (Some (created, Ok tt, d))
  | j :: jobs =>
      if negb (job_Enabled j) || String.eqb (job_Spec j) "" then
        dispatch_jobs fuel now jobs created d
      else
        match schedule d j with
        | (Err _, d) => dispatch_jobs fuel now jobs created d
        | (Ok sched, d) =>
            match nextFire d !! job_ID j with
            | None =>
                match ScheduleNext sched now with
                | None => Ret None
                | Some t => dispatch_jobs fuel now jobs created (set_next d (job_ID j) t)
                end
            | Some next =>
                let* o := fire_loop fuel j sched now next created in
                match o with
                | None => Ret None
                | Some (created, Err e) => Ret (Some (created, Err e, d))
                | Some (created, Ok next) =>
                    dispatch_jobs fuel now jobs created (set_next d (job_ID j) next)
                end
            end
        end
  end.

Definition dispatch (fuel : nat) (now : time) (d : dispatcher)
  : prog (option (Z * result store_error unit * dispatcher)) :=
  let* r := do_call ListJobs in
  match r with
  | Err e => Ret (Some (0, Err e, d))
  | Ok jobs => dispatch_jobs fuel now jobs 0 d
  end.

Fixpoint contains (xs : list string) (want : string) : bool :=
  match xs with
  | [] => false
  | x :: xs => if String.eqb x want then true else contains xs want
  end.

Fixpoint hasSucceeded (runs : list Run) : bool :=
  match runs with
  | [] => false
  | r :: runs => if String.eqb (run_State r) StateSucceeded then true else hasSucceeded runs
  end.

Fixpoint deps_loop (deps : list string) (batchID : string) : prog (result store_error bool) :=
  match deps with
  | [] => Ret (Ok true)
  | dep :: deps =>
      let*? runs := do_call (ListRuns (by_batch dep batchID)) in
      if negb (hasSucceeded runs) then Ret (Ok false) else deps_loop deps batchID
  end.

Definition depsSatisfied (j : Job) (batchID : string) : prog (result store_error bool) :=
  deps_loop (job_DependsOn j) batchID.

(** The body of the loop of [enqueueDependents] for one job. *)
Definition enqueueDependent (completed : Run) (now : time) (j : Job)
  : prog (result store_error unit) :=
  if negb (contains (job_DependsOn j) (run_JobID completed)) then Ret (Ok tt)
  else
    let*? ready := depsSatisfied j (run_BatchID completed) in
    if negb ready then Ret (Ok tt)
    else
      let*? existing := do_call (ListRuns (by_batch (job_ID j) (run_BatchID completed))) in
      if (0 <? length existing)%nat then Ret (Ok tt)
      else
        let* id := do_eff NewID in
        do_call (CreateRun (pending_run id (job_ID j) (run_BatchID completed) 0 now now)).

Fixpoint dependents_loop (completed : Run) (now : time) (jobs : list Job)
  : prog (result store_error unit) :=
  match jobs with
  | [] => Ret (Ok tt)
  | j :: jobs =>
      let*? _ := enqueueDependent completed now j in
      dependents_loop completed now jobs
  end.

Definition enqueueDependents (completed : Run) (now : time) : prog (result store_error unit) :=
  let*? jobs := do_call ListJobs in
  dependents_loop completed now jobs.

(** ** Elapsed fire times

    [slots sched now next l last]: starting from the cached fire time [next], the
    fire times up to [now] are [l] and the following one is [last]. *)
Inductive slots (sched : Schedule) (now : time) : time -> list time -> time -> Prop :=
| slots_done next : now < next -> slots sched now next [] next
| slots_more next u l last :
    next <= now -> ScheduleNext sched next = Some u -> slots sched now u l last ->
    slots sched now next (next :: l) last.

(** A schedule that does not give up from [next] to [now]: the zero time is its
    answer when it finds no fire time. *)
Definition progressive (sched : Schedule) (next now : time) : Prop :=
  forall t, next <= t <= now -> ScheduleNext sched t <> Some zero_time.

(** A bound on the number of iterations: one per second. *)
Definition fire_bound (now next : time) : nat := Z.to_nat (now / Second - next / Second + 1).

Lemma next_second t u : t < u -> u mod Second = 0 -> t / Second < u / Second.
Proof. unfold Second. intros. div_lia. Qed.

Lemma slots_exist spec sched now next :
  Parse spec = Ok sched -> progressive sched next now ->
  exists l last, slots sched now next l last /\ (length l <= fire_bound now next)%nat.
Proof.
  intros Hp.
  remember (Z.to_nat (now + 1 - next)) as n eqn:Hn.
  assert (n >= Z.to_nat (now + 1 - next))%nat as Hge by lia. clear Hn.
  revert next Hge. induction n as [|n IH]; intros next Hge Hprog.
  { exists [], next. split; [constructor; lia|simpl; lia]. }
  destruct (Z.lt_ge_cases now next) as [Hlt|Hle].
  { exists [], next. split; [by constructor|simpl; lia]. }
  destruct (Parse_contract spec sched next Hp) as (u & Hu & [[Hlt Hmod]| ->]).
  2:{ exfalso. by apply (Hprog next ltac:(lia)). }
  destruct (IH u ltac:(lia)) as (l & last & Hs & Hlen).
  { intros t Ht. apply Hprog. lia. }
  exists (next :: l), last. split; [by econstructor|].
  pose proof (next_second next u Hlt Hmod). unfold fire_bound in *. simpl.
  assert (next / Second <= now / Second) by (apply Z.div_le_mono; [done|lia]).
  destruct Hs as [? Hlt'|]; [simpl; lia|].
  assert (next0 / Second <= now / Second) by (apply Z.div_le_mono; [done|lia]). lia.
Qed.

Lemma slots_after sched now next l last : slots sched now next l last -> now < last.
Proof. induction 1; done. Qed.

Lemma slots_due sched now next l last t : slots sched now next l last -> t ∈ l -> t <= now.
Proof.
  induction 1 as [|next u l last Hle Hn Hs IH]; intros Ht; [by apply elem_of_nil in Ht|].
  apply elem_of_cons in Ht as [->|Ht]; auto.
Qed.

Lemma ScheduleNext_Spec s t : ScheduleNext (Spec s) t = Next s t.
Proof. reflexivity. Qed.

Lemma Year_mono l off t u : fixed_offset l off -> t <= u -> Year l t <= Year l u.
Proof.
  intros [_ Hx] Hle. unfold Year, wall. rewrite !Hx. apply w_year_mono.
  pose proof (Z.div_le_mono t u Second ltac:(done) Hle). lia.
Qed.

(** A schedule that fires within its search horizon does not give up. *)
Lemma progressive_fires s off next now :
  fixed_offset (loc s) off -> zero_time <= next ->
  (forall t, next <= t <= now ->
     exists v, t < v /\ Year (loc s) v <= next_limit s t /\ fires s v = true) ->
  progressive (Spec s) next now.
Proof.
  intros Hl H0 Hd t Ht. rewrite ScheduleNext_Spec.
  destruct (Next_spec s off Hl t) as (u & -> & [(Hlt & _)|[-> Hq]]).
  - intros [= ->]. lia.
  - destruct (Hd t Ht) as (v & Htv & Hy & Hf). rewrite (Hq v Htv Hy) in Hf. done.
Qed.

(** From a fire time on, the elapsed fire times of a calendar schedule are
    exactly the instants at which it fires, in order. *)
Lemma slots_fires s off now next l last :
  fixed_offset (loc s) off -> slots (Spec s) now next l last -> progressive (Spec s) next now ->
  fires s next = true ->
  (forall t, t ∈ l <-> next <= t <= now /\ fires s t = true)
  /\ StronglySorted Z.lt l /\ fires s last = true
  /\ forall v, now < v < last -> (v <= next \/ fires s v = false).
Proof.
  intros Hl Hs Hprog Hf.
  induction Hs as [next Hlt|next u l last Hle Hn Hs IH].
  - split_and!; [|constructor|done|].
    + intros t. split; [by intros ?%elem_of_nil|lia].
    + intros v Hv. left. lia.
  - destruct (Next_spec s off Hl next) as (u' & Hu' & Hpost).
    assert (u' = u) as -> by (rewrite ScheduleNext_Spec in Hn; congruence).
    destruct Hpost as [(Hlt & Hfu & _ & Hq)|[-> _]]; [|by destruct (Hprog next ltac:(lia))].
    destruct IH as (Hin & Hsorted & Hfl & Hgap); [intros t Ht; apply Hprog; lia|done|]. split_and!; [|constructor; [done|]|done|].
    + intros t. rewrite elem_of_cons, Hin. split.
      * intros [->|[Ht ?]]; [done|]. split; [lia|done].
      * intros [Ht Hft]. destruct (Z.eq_dec t next) as [->|Hne]; [by left|]. right.
        destruct (Z.lt_ge_cases t u) as [Htu|]; [|split; [lia|done]].
        rewrite (Hq t) in Hft by lia. done.
    + apply Forall_forall. intros t Ht%Hin. lia.
    + intros v Hv. destruct (Hgap v Hv) as [Hvu|]; [|by right].
      destruct (Z.eq_dec v u) as [->|]; [|right; apply Hq; lia].
      right. destruct Hs as [u Hu|]; lia.
Qed.

(** ** One slot *)

Definition has_slot (d : db) (id : string) (t : time) : Prop :=
  exists k r, db_runs d !! k = Some r /\ run_JobID r = id /\ run_ScheduledFor r = t.

(** A run that [enqueueRoot] creates. *)
Definition root_run (id : string) (t : time) (r : Run) : Prop :=
  exists k batch, r = pending_run k id batch 0 t t.

Lemma matches_by_job id r : id <> "" -> matches (by_job id) r = true <-> run_JobID r = id.
Proof.
  intros Hid. unfold matches. simpl.
  rewrite (proj2 (String.eqb_neq id "")) by done. simpl. rewrite !andb_true_r.
  apply String.eqb_eq.
Qed.

Lemma matches_by_batch id batch r :
  id <> "" -> batch <> "" ->
  matches (by_batch id batch) r = true <-> run_JobID r = id /\ run_BatchID r = batch.
Proof.
  intros Hid Hb. unfold matches. simpl.
  rewrite (proj2 (String.eqb_neq id "")), (proj2 (String.eqb_neq batch "")) by done. simpl.
  rewrite !andb_true_r, andb_true_iff, !String.eqb_eq. done.
Qed.

Lemma has_slot_grown P d d' id t : grown P d d' -> has_slot d id t -> has_slot d' id t.
Proof. intros (_ & Hk & _) (k & r & Hr & Hid & Ht). exists k, r. auto. Qed.

(** A new run is the only run of its job for its fire time: a slot that has a run
    gets no other one, and an empty slot gets one at most. *)
Definition once (d d' : db) : Prop :=
  forall k r, db_runs d' !! k = Some r -> db_runs d !! k = None ->
  forall k' r', db_runs d' !! k' = Some r' -> run_JobID r' = run_JobID r ->
    run_ScheduledFor r' = run_ScheduledFor r -> k' = k.

Definition filled (P : Run -> Prop) (d d' : db) : Prop := grown P d d' /\ once d d'.

Lemma filled_refl P d : filled P d d.
Proof. split; [apply grown_refl|]. intros k r Hr Hn. congruence. Qed.

#[export] Hint Resolve filled_refl : core.

Lemma filled_trans P d1 d2 d3 : filled P d1 d2 -> filled P d2 d3 -> filled P d1 d3.
Proof.
  intros [Hg1 H1] [Hg2 H2]. split; [by eapply grown_trans|].
  destruct Hg2 as (_ & Hkeep & _). intros k r Hr Hn k' r' Hr' Hj Ht.
  destruct (db_runs d2 !! k) as [x|] eqn:Ek; [|by eapply (H2 k r)].
  pose proof (Hkeep _ _ Ek) as Hx. assert (x = r) as -> by congruence.
  destruct (db_runs d2 !! k') as [y|] eqn:Ek'; [|by symmetry; eapply (H2 k' r')].
  pose proof (Hkeep _ _ Ek') as Hy. assert (y = r') as -> by congruence.
  by eapply (H1 k r).
Qed.

Lemma filled_weaken (P Q : Run -> Prop) d d' :
  (forall r, P r -> Q r) -> filled P d d' -> filled Q d d'.
Proof. intros HPQ [Hg Ho]. split; [by eapply grown_weaken|done]. Qed.

Lemma has_slot_filled P d d' id t : filled P d d' -> has_slot d id t -> has_slot d' id t.
Proof. intros [Hg _]. by eapply has_slot_grown. Qed.

Lemma filled_put P d r :
  db_runs d !! run_ID r = None -> ~ has_slot d (run_JobID r) (run_ScheduledFor r) -> P r ->
  filled P d (put_run d r).
Proof.
  intros Hn Hs HP. split; [by apply grown_put|]. intros k x. simpl.
  rewrite lookup_insert_Some. intros [[<- <-]|[_ Hx]]; [|congruence].
  intros _ k' x'. rewrite lookup_insert_Some. intros [[<- _]|[_ Hx']] Hj Ht; [done|].
  destruct Hs. by exists k', x'.
Qed.

Section Correctness.
Context {S : Type} `{Store S} (E : env) (Hreliable : fallible = false)
  (Hinj : forall m n, env_id E m = env_id E n -> m = n).

(** Identifiers not yet drawn are not in use. *)
Definition fresh_ids (w : world S) : Prop :=
  forall m, (w_count w <= m)%nat -> db_runs (w_db w) !! env_id E m = None.

Definition good (w : world S) : Prop := world_ok w /\ fresh_ids w.

Lemma fresh_same w w' :
  fresh_ids w -> w_db w' = w_db w -> (w_count w <= w_count w')%nat -> fresh_ids w'.
Proof. intros Hf Hd Hc m Hm. rewrite Hd. apply Hf. lia. Qed.

(** Writing a run under the identifier drawn at [n]. *)
Lemma fresh_put w w' n r :
  fresh_ids w -> w_db w' = put_run (w_db w) r -> run_ID r = env_id E n ->
  (w_count w <= n < w_count w')%nat -> fresh_ids w'.
Proof.
  intros Hf Hd Hid Hn m Hm. rewrite Hd. simpl. rewrite lookup_insert_ne.
  - apply Hf. lia.
  - rewrite Hid. intros Heq%Hinj. lia.
Qed.

Lemma existing_slot d id t l :
  keyed d -> id <> "" -> l ≡ₚ filter (fun x => matches (by_job id) x) (runs_of d) ->
  existsb (fun r => Equal (run_ScheduledFor r) t) l = true <-> has_slot d id t.
Proof.
  intros Hk Hid Hl. rewrite existsb_exists. split.
  - intros (r & Hin & Ht). apply list_elem_of_In in Hin.
    apply (elem_of_matching d _ l r Hk Hl) in Hin as [Hr Hm].
    apply matches_by_job in Hm; [|done]. unfold Equal in Ht. apply Z.eqb_eq in Ht.
    by exists (run_ID r), r.
  - intros (k & r & Hr & Hj & Ht). exists r. split; [|unfold Equal; by apply Z.eqb_eq].
    apply list_elem_of_In, (elem_of_matching d _ l r Hk Hl).
    rewrite (keyed_run d k r Hk Hr). split; [done|]. by apply matches_by_job.
Qed.

Lemma wp_enqueueRoot_full j t Q w :
  good w -> job_ID j <> "" ->
  (forall w', good w' -> has_slot (w_db w') (job_ID j) t ->
     (has_slot (w_db w) (job_ID j) t -> w_db w' = w_db w) ->
     (~ has_slot (w_db w) (job_ID j) t ->
        exists k batch, db_runs (w_db w) !! k = None
          /\ w_db w' = put_run (w_db w) (pending_run k (job_ID j) batch 0 t t)) ->
     (w_count w <= w_count w')%nat -> w_locked w' = w_locked w -> Q (Ok tt) w') ->
  wp E (enqueueRoot j t) Q w.
Proof.
  intros [Hok Hf] Hid HQ. unfold enqueueRoot.
  apply wp_bind, wp_list_runs; [done..|]. intros l w1 Hok1 Hd1 Hn1 Hl1 _ Hl.
  pose proof (existing_slot (w_db w) (job_ID j) t l (store_keyed _ Hok) Hid Hl) as Hex.
  destruct (existsb _ l).
  - ret. apply HQ; [|rewrite Hd1..|lia|done]; [|by apply Hex|done|].
    + split; [done|]. eapply fresh_same; eauto. lia.
    + intros Hn. by destruct Hn; apply Hex.
  - do 2 effect. apply wp_create; [done..|]. intros w2 Hok2 Hd2 Hn2 Hl2 _.
    change (w_db w2 = put_run (w_db w1)
      (pending_run (env_id E (w_count w1)) (job_ID j)
         (env_id E (Datatypes.S (w_count w1))) 0 t t)) in Hd2.
    simpl in Hn2, Hl2. rewrite Hd1 in Hd2. apply HQ.
    + split; [done|]. eapply (fresh_put w w2 (w_count w1)); [done|exact Hd2|done|lia].
    + eexists (env_id E (w_count w1)), _. rewrite Hd2. simpl. by rewrite lookup_insert_eq.
    + intros Hs. by apply Hex in Hs.
    + intros _. eexists _, _. split; [|exact Hd2]. apply Hf. lia.
    + lia.
    + congruence.
Qed.

Lemma has_slot_dec d id t : keyed d -> id <> "" -> Decision (has_slot d id t).
Proof.
  intros Hk Hid.
  pose proof (existing_slot d id t (filter (fun x => matches (by_job id) x) (runs_of d)) Hk Hid
                ltac:(done)) as Hex.
  destruct (existsb _ _); [left; by apply Hex|right; intros Hs; by apply Hex in Hs].
Qed.

Lemma wp_enqueueRoot j t Q w :
  good w -> job_ID j <> "" ->
  (forall w', good w' -> filled (root_run (job_ID j) t) (w_db w) (w_db w') ->
     has_slot (w_db w') (job_ID j) t ->
     (has_slot (w_db w) (job_ID j) t -> w_db w' = w_db w) ->
     (w_count w <= w_count w')%nat -> w_locked w' = w_locked w -> Q (Ok tt) w') ->
  wp E (enqueueRoot j t) Q w.
Proof.
  intros Hg Hid HQ. apply wp_enqueueRoot_full; [done..|].
  intros w' Hg' Hs Hold Hnew Hc Hl. apply HQ; auto.
  destruct (has_slot_dec (w_db w) (job_ID j) t) as [Hyes|Hno];
    [by apply store_keyed, Hg|done| |].
  - rewrite (Hold Hyes). apply filled_refl.
  - destruct (Hnew Hno) as (k & batch & Hk & ->). apply filled_put; [done|done|]. by eexists _, _.
Qed.

(** ** The elapsed slots of one job *)

(** A run for one of the slots [l]. *)
Definition slot_run (id : string) (l : list time) (r : Run) : Prop :=
  exists t, t ∈ l /\ root_run id t r.

Lemma wp_fire_loop sched now next l last :
  slots sched now next l last ->
  forall fuel j created Q w,
  (length l <= fuel)%nat -> good w -> job_ID j <> "" ->
  (forall w', good w' -> filled (slot_run (job_ID j) l) (w_db w) (w_db w') ->
     (forall t, t ∈ l -> has_slot (w_db w') (job_ID j) t) ->
     (w_count w <= w_count w')%nat -> w_locked w' = w_locked w ->
     Q (Some (created + Z.of_nat (length l), Ok last)) w') ->
  wp E (fire_loop fuel j sched now next created) Q w.
Proof.
  induction 1 as [next Hlt|next u l last Hle Hn Hs IH];
    intros fuel j created Q w Hfuel Hg Hid HQ.
  - assert (After next now = true) as Ha by (unfold After; lia).
    specialize (HQ w). cbn [length Z.of_nat] in HQ. rewrite Z.add_0_r in HQ.
    destruct fuel; simpl; rewrite Ha; ret; apply HQ; auto; by intros t ?%elem_of_nil.
  - assert (After next now = false) as Ha by (unfold After; lia).
    destruct fuel as [|fuel]; [simpl in Hfuel; lia|]. cbn [fire_loop]. rewrite Ha.
    apply wp_bind, wp_enqueueRoot; [done..|]. intros w1 Hg1 Hgr1 Hs1 _ Hc1 Hl1.
    cbv beta iota. rewrite Hn. apply IH; [simpl in Hfuel; lia|done|done|].
    intros w2 Hg2 Hgr2 Hs2 Hc2 Hl2.
    replace (created + 1 + Z.of_nat (length l))
      with (created + Z.of_nat (length (@cons time next l))) by (cbn [length]; lia).
    apply HQ; [done| | |lia|congruence].
    + apply (filled_trans _ _ (w_db w1)); eapply filled_weaken; [|done| |done].
      * intros r Hr. exists next. split; [by left|done].
      * intros r (t & Ht & Hr). exists t. split; [by right|done].
    + intros t Ht. apply elem_of_cons in Ht as [->|Ht]; [|by apply Hs2].
      by eapply has_slot_filled.
Qed.

(** ** All jobs

    What a tick at [now] means for one job, given the caches: the slots to
    fill and the new cached fire time, [None] when the job is skipped. *)
Inductive job_tick (now : time) (d : dispatcher) (j : Job) : list time -> option time -> Prop :=
| tick_skip :
    job_Enabled j = false \/ job_Spec j = "" -> job_tick now d j [] None
| tick_malformed e :
    job_Enabled j = true -> job_Spec j <> "" -> (schedule d j).1 = Err e ->
    job_tick now d j [] None
| tick_prime sched t :
    job_Enabled j = true -> job_Spec j <> "" -> (schedule d j).1 = Ok sched ->
    nextFire d !! job_ID j = None -> ScheduleNext sched now = Some t ->
    job_tick now d j [] (Some t)
| tick_fire sched next l last :
    job_Enabled j = true -> job_Spec j <> "" -> (schedule d j).1 = Ok sched ->
    nextFire d !! job_ID j = Some next -> slots sched now next l last ->
    job_tick now d j l (Some last).

Lemma schedule_keeps d j :
  nextFire (schedule d j).2 = nextFire d
  /\ forall k, k <> job_ID j -> parsed (schedule d j).2 !! k = parsed d !! k.
Proof.
  unfold schedule. destruct (parsed d !! job_ID j); [done|].
  destruct (Parse (job_Spec j)); [|done]. split; [done|]. intros k Hk. simpl.
  by rewrite lookup_insert_ne.
Qed.

Lemma schedule_cached d j s :
  (schedule d j).1 = Ok s -> parsed (schedule d j).2 !! job_ID j = Some s.
Proof.
  unfold schedule. destruct (parsed d !! job_ID j) eqn:Ej; [by intros [= <-]|].
  destruct (Parse (job_Spec j)); [|done]. intros [= <-]. apply lookup_insert_eq.
Qed.

(** The cache is keyed by the job and not by its specification: a job replaced
    with another specification keeps its first schedule. *)
Lemma schedule_ignores_replacement d j j' s :
  job_ID j' = job_ID j -> (schedule d j).1 = Ok s -> (schedule (schedule d j).2 j').1 = Ok s.
Proof.
  intros Hid Hs. unfold schedule at 1. rewrite Hid. by rewrite (schedule_cached d j s Hs).
Qed.

(** The caches of other jobs do not matter. *)
Definition same_cache (d d' : dispatcher) (k : string) : Prop :=
  nextFire d' !! k = nextFire d !! k /\ parsed d' !! k = parsed d !! k.

Lemma schedule_same d d' j :
  same_cache d d' (job_ID j) -> (schedule d' j).1 = (schedule d j).1.
Proof.
  intros [_ Hp]. unfold schedule. rewrite Hp.
  destruct (parsed d !! job_ID j); [done|]. by destruct (Parse (job_Spec j)).
Qed.

Lemma job_tick_same now d d' j l o :
  same_cache d d' (job_ID j) -> job_tick now d j l o -> job_tick now d' j l o.
Proof.
  intros Hs. pose proof (schedule_same d d' j Hs) as Hsc. destruct Hs as [Hn _].
  destruct 1.
  - by apply tick_skip.
  - eapply tick_malformed; eauto. by rewrite Hsc.
  - eapply tick_prime; eauto; congruence.
  - eapply tick_fire; eauto; congruence.
Qed.

Lemma same_cache_step d j k t :
  k <> job_ID j -> same_cache d (set_next (schedule d j).2 (job_ID j) t) k.
Proof.
  intros Hk. destruct (schedule_keeps d j) as [Hn Hp]. split; simpl; [|by apply Hp].
  rewrite lookup_insert_ne by done. by rewrite Hn.
Qed.

Lemma same_cache_schedule d j k : k <> job_ID j -> same_cache d (schedule d j).2 k.
Proof.
  intros Hk. destruct (schedule_keeps d j) as [Hn Hp]. split; [by rewrite Hn|by apply Hp].
Qed.

(** The outcome of a tick for a job: its slots are filled and its cached fire
    time moves on. *)
Definition ticked (now : time) (d d' : dispatcher) (db' : db) (j : Job) (l : list time) : Prop :=
  exists o, job_tick now d j l o
    /\ (forall t, t ∈ l -> has_slot db' (job_ID j) t)
    /\ nextFire d' !! job_ID j =
         match o with Some t => Some t | None => nextFire d !! job_ID j end.

Lemma wp_dispatch_head now d j l o jobs fuel created Q w :
  job_tick now d j l o -> (length l <= fuel)%nat -> good w -> job_ID j <> "" ->
  (forall w1 d1, good w1 -> filled (slot_run (job_ID j) l) (w_db w) (w_db w1) ->
     ticked now d d1 (w_db w1) j l ->
     (forall k, k <> job_ID j -> same_cache d d1 k) ->
     (w_count w <= w_count w1)%nat -> w_locked w1 = w_locked w ->
     wp E (dispatch_jobs fuel now jobs (created + Z.of_nat (length l)) d1) Q w1) ->
  wp E (dispatch_jobs fuel now (j :: jobs) created d) Q w.
Proof.
  intros Ht Hfuel Hg Hid Hk. cbn [dispatch_jobs].
  assert (forall t, t ∈ @nil time -> has_slot (w_db w) (job_ID j) t) as Hnil
    by (by intros t ?%elem_of_nil).
  pose proof (schedule_keeps d j) as [Hkeep _].
  pose proof (same_cache_schedule d j) as Hsame.
  pose proof (fun k t => same_cache_step d j k t) as Hstep.
  destruct Ht as [Hskip|e He Hs Hsc|sched t He Hs Hsc Hn Ht|sched next l last He Hs Hsc Hn Hsl].
  - assert (negb (job_Enabled j) || String.eqb (job_Spec j) "" = true) as ->.
    { destruct Hskip as [-> | ->]; [done|]. by rewrite orb_true_r. }
    specialize (Hk w d). cbn [length Z.of_nat] in Hk. rewrite Z.add_0_r in Hk.
    apply Hk; auto; [|done]. eexists. split_and!; [by apply tick_skip|done|done].
  - rewrite He, (proj2 (String.eqb_neq _ _) Hs). cbn [negb orb].
    destruct (schedule d j) as [r d1] eqn:Hd1. simpl in *. subst r.
    specialize (Hk w d1). rewrite Z.add_0_r in Hk. apply Hk; auto.
    exists None. rewrite Hkeep. split_and!; [|done|done].
    eapply tick_malformed; eauto. by rewrite Hd1.
  - rewrite He, (proj2 (String.eqb_neq _ _) Hs). cbn [negb orb].
    destruct (schedule d j) as [r d1] eqn:Hd1. simpl in *. subst r.
    rewrite Hkeep, Hn, Ht. specialize (Hk w (set_next d1 (job_ID j) t)).
    rewrite Z.add_0_r in Hk. apply Hk; auto.
    exists (Some t). split_and!; [|done|by apply lookup_insert_eq].
    eapply tick_prime; eauto. by rewrite Hd1.
  - rewrite He, (proj2 (String.eqb_neq _ _) Hs). cbn [negb orb].
    destruct (schedule d j) as [r d1] eqn:Hd1. simpl in *. subst r.
    rewrite Hkeep, Hn. apply wp_bind, (wp_fire_loop sched now next l last); [done..|].
    intros w1 Hg1 Hgr1 Hs1 Hc1 Hl1. cbv beta iota. apply Hk; auto.
    exists (Some last). split_and!; [|done|by apply lookup_insert_eq].
    eapply tick_fire; eauto. by rewrite Hd1.
Qed.

Lemma wp_dispatch_jobs now fuel jobs :
  NoDup (map job_ID jobs) ->
  forall created d Q w,
  (forall j, j ∈ jobs -> job_ID j <> ""
     /\ exists l o, job_tick now d j l o /\ (length l <= fuel)%nat) ->
  good w ->
  (forall w' d' ls, good w' ->
     Forall2 (ticked now d d' (w_db w')) jobs ls ->
     filled (fun r => exists j l, (j, l) ∈ zip jobs ls /\ slot_run (job_ID j) l r)
       (w_db w) (w_db w') ->
     (forall k, (k ∉ map job_ID jobs) -> same_cache d d' k) ->
     (w_count w <= w_count w')%nat -> w_locked w' = w_locked w ->
     Q (Some (created + Z.of_nat (length (concat ls)), Ok tt, d')) w') ->
  wp E (dispatch_jobs fuel now jobs created d) Q w.
Proof.
  induction jobs as [|j jobs IH]; intros Hnd created d Q w Hticks Hg HQ.
  { ret. specialize (HQ w d []). cbn in HQ. rewrite Z.add_0_r in HQ.
    apply HQ; [done|constructor|apply filled_refl| |lia|done]. intros k _. by split. }
  simpl in Hnd. apply NoDup_cons in Hnd as [Hj Hnd].
  destruct (Hticks j ltac:(by left)) as (Hid & l & o & Ht & Hlen).
  apply (wp_dispatch_head now d j l o); [done..|].
  intros w1 d1 Hg1 Hgr1 Htd Hsame Hc1 Hl1.
  assert (forall j', j' ∈ jobs -> job_ID j' <> job_ID j) as Hother.
  { intros j' Hj' Heq. apply Hj. rewrite <-Heq. by apply list_elem_of_fmap_2. }
  apply IH; [done| |done|].
  { intros j' Hj'. destruct (Hticks j' ltac:(by right)) as (? & l' & o' & Ht' & ?).
    split; [done|]. exists l', o'. split; [|done].
    eapply job_tick_same; [|done]. apply Hsame. auto. }
  intros w2 d2 ls Hg2 Hall Hgr2 Hsame2 Hc2 Hl2.
  replace (created + Z.of_nat (length l) + Z.of_nat (length (concat ls)))
    with (created + Z.of_nat (length (concat (l :: ls))))
    by (cbn [concat]; rewrite length_app; lia).
  apply HQ; [done| | | |lia|congruence].
  - constructor.
    + destruct Htd as (o' & Ht' & Hsl & Hn'). exists o'. split_and!; [done| |].
      * intros t Hin. eapply has_slot_filled; [done|]. auto.
      * rewrite <-Hn'. by apply (Hsame2 (job_ID j)).
    + eapply Forall2_impl_in; [exact Hall|].
      intros j' l' Hj' (o' & Ht' & Hsl & Hn'). exists o'.
      pose proof (Hsame (job_ID j') (Hother j' Hj')) as Hs'.
      split_and!; [|done|].
      * eapply job_tick_same; [|done]. destruct Hs' as [? ?]. by split.
      * rewrite Hn'. destruct o'; [done|]. apply Hs'.
  - apply (filled_trans _ _ (w_db w1)); eapply filled_weaken; [|done| |done].
    + intros r Hr. exists j, l. split; [by left|done].
    + intros r (j' & l' & Hin & Hr). exists j', l'. split; [by right|done].
  - intros k. simpl. rewrite not_elem_of_cons. intros [Hk1 Hk2].
    destruct (Hsame k Hk1) as [E1 E2], (Hsame2 k Hk2) as [E3 E4].
    split; congruence.
Qed.

(** ** Ticks exist

    The cached schedules come from [Parse]. *)
Definition parsed_ok (d : dispatcher) : Prop :=
  forall k s, parsed d !! k = Some s -> exists spec, Parse spec = Ok s.

Lemma schedule_parsed d j s :
  parsed_ok d -> (schedule d j).1 = Ok s -> exists spec, Parse spec = Ok s.
Proof.
  intros Hp. unfold schedule. destruct (parsed d !! job_ID j) eqn:Ej.
  - intros [= <-]. by eapply Hp.
  - destruct (Parse (job_Spec j)) eqn:Es; [|done]. intros [= <-]. eauto.
Qed.

Lemma tick_exists now d j fuel :
  parsed_ok d ->
  (forall s next, job_Enabled j = true -> (schedule d j).1 = Ok s ->
     nextFire d !! job_ID j = Some next ->
     progressive s next now /\ (fire_bound now next <= fuel)%nat) ->
  exists l o, job_tick now d j l o /\ (length l <= fuel)%nat.
Proof.
  intros Hp Hs. destruct (job_Enabled j) eqn:He.
  2:{ exists [], None. split; [apply tick_skip; by left|simpl; lia]. }
  destruct (decide (job_Spec j = "")) as [Hspec|Hspec].
  { exists [], None. split; [apply tick_skip; by right|simpl; lia]. }
  destruct ((schedule d j).1) as [s|e] eqn:Hsc.
  2:{ exists [], None. split; [by eapply tick_malformed|simpl; lia]. }
  destruct (schedule_parsed d j s Hp Hsc) as [spec Hspec'].
  destruct (nextFire d !! job_ID j) as [next|] eqn:Hn.
  - destruct (Hs s next eq_refl eq_refl eq_refl) as [Hprog Hfuel].
    destruct (slots_exist spec s now next Hspec' Hprog) as (l & last & Hsl & Hlen).
    exists l, (Some last). split; [by eapply tick_fire|]. lia.
  - destruct (Parse_contract spec s now Hspec') as (u & Hu & _).
    exists [], (Some u). split; [by eapply tick_prime|simpl; lia].
Qed.

(** ** Divergence

    A loop that stays in a set of elapsed instants never ends. *)
Lemma fire_loop_diverges (I : time -> Prop) sched now j :
  job_ID j <> "" ->
  (forall t, I t -> t <= now /\ exists u, ScheduleNext sched t = Some u /\ I u) ->
  forall fuel next created w, I next -> good w ->
  wp E (fire_loop fuel j sched now next created) (fun o _ => o = None) w.
Proof.
  intros Hid HI fuel. induction fuel as [|fuel IH]; intros next created w Hnext Hg;
    destruct (HI next Hnext) as (Hle & u & Hu & HIu);
    assert (After next now = false) as Ha by (unfold After; lia);
    cbn [fire_loop]; rewrite Ha.
  - by ret.
  - apply wp_bind, wp_enqueueRoot; [done..|]. intros w1 Hg1 _ _ _ _ _.
    cbv beta iota. rewrite Hu. by apply IH.
Qed.

(** ** Main theorems on dispatching *)

(** C3: one tick on a store that does not fail.  Suppose the cached schedules
    come from [Parse], every schedule with an elapsed fire time goes on up to
    [now], that is, [Next] does not give up and return the zero time (it can,
    and then the loop diverges), and the fuel allows one iteration per elapsed
    second.  Then [dispatch] returns, and every elapsed slot of every enabled job
    is filled exactly once: it has a run, and a run that the tick created is a
    pending first attempt of such a slot and the only run of its job for that
    fire time, so that a slot with a run gets no further one.  Jobs and stored
    runs are kept; each job's cached fire time is the one following its slots, a
    job seen for the first time creates nothing, and the count is the number of
    slots. *)
Theorem dispatch_correct (w : world S) (d : dispatcher) (now : time) (fuel : nat) :
  world_ok w -> fresh_ids w -> parsed_ok d ->
  (forall j, j ∈ jobs_of (w_db w) -> job_ID j <> ""
     /\ forall s next, job_Enabled j = true -> (schedule d j).1 = Ok s ->
          nextFire d !! job_ID j = Some next ->
          progressive s next now /\ (fire_bound now next <= fuel)%nat) ->
  wp E (dispatch fuel now d) (fun o w' =>
    exists jobs ls d', jobs ≡ₚ jobs_of (w_db w)
      /\ o = Some (Z.of_nat (length (concat ls)), Ok tt, d')
      /\ Forall2 (ticked now d d' (w_db w')) jobs ls
      /\ grown (fun r => exists j l t, (j, l) ∈ zip jobs ls /\ t ∈ l /\ root_run (job_ID j) t r)
           (w_db w) (w_db w')
      /\ once (w_db w) (w_db w')) w.
Proof.
  intros Hok Hf Hp Hjobs. unfold dispatch.
  apply wp_bind, wp_list_jobs; [done..|]. intros l w1 Hok1 Hd1 Hc1 Hl1 Hl. cbv beta iota.
  assert (good w1) as Hg1 by (split; [done|]; apply (fresh_same w); [done|done|lia]).
  apply wp_dispatch_jobs; [|..|done|].
  - rewrite Hl. by apply NoDup_job_ids, store_keyed.
  - intros j Hj. rewrite Hl in Hj. destruct (Hjobs j Hj) as [Hid Hs].
    split; [done|]. by apply tick_exists.
  - intros w2 d' ls Hg2 Hall Hgr _ _ _. exists l, ls, d'.
    rewrite Hd1 in Hgr. destruct Hgr as [Hgr Ho].
    split; [done|]. split; [by rewrite Z.add_0_l|]. split; [done|]. split; [|exact Ho].
    eapply grown_weaken; [|exact Hgr]. intros r (j & l' & Hin & t & Ht & Hr).
    by exists j, l', t.
Qed.

(** C10: the slots filled for a calendar schedule are exactly its fire times.
    Started from a cached fire time that is an instant at which the specification
    fires, with a schedule that does not give up before [now], the loop of one
    job ends; afterwards every instant from there up to [now] at which the
    specification fires has a run, every run created is for such an instant and
    the only one of its job for it, and the fire time to cache is the first one
    after [now]. *)
Theorem fire_loop_exact (w : world S) (j : Job) (s : SpecSchedule) (now next created : Z)
    (fuel : nat) :
  world_ok w -> fresh_ids w -> job_ID j <> "" ->
  Parse (job_Spec j) = Ok (Spec s) -> progressive (Spec s) next now ->
  fires s next = true -> next <= now -> (fire_bound now next <= fuel)%nat ->
  wp E (fire_loop fuel j (Spec s) now next created) (fun o w' =>
    exists n last, o = Some (n, Ok last)
      /\ (forall t, next <= t <= now -> fires s t = true -> has_slot (w_db w') (job_ID j) t)
      /\ grown (fun r => exists t, next <= t <= now /\ fires s t = true
                           /\ root_run (job_ID j) t r) (w_db w) (w_db w')
      /\ once (w_db w) (w_db w')
      /\ now < last /\ fires s last = true
      /\ forall v, now < v < last -> fires s v = false) w.
Proof.
  intros Hok Hf Hid Hparse Hprog Hfire Hle Hfuel.
  destruct (slots_exist _ _ now next Hparse Hprog) as (l & last & Hs & Hlen).
  assert (exists off, fixed_offset (loc s) off) as [off Hl].
  { destruct (ParseInLocation_cases _ _ _ Hparse) as [(s' & [= <-] & Hl)|(? & [=] & _)].
    exists 0. rewrite Hl. by apply fixed_offset_FixedZone. }
  destruct (slots_fires s off now next l last Hl Hs Hprog Hfire) as (Hin & _ & Hlast & Hgap).
  eapply (wp_fire_loop (Spec s) now next l last Hs); [lia|done|done|].
  intros w' Hg' [Hgr Ho] Hslots _ _. eexists _, last. split; [done|].
  split; [|split; [|split; [exact Ho|split; [|split; [done|]]]]].
  - intros t Ht Hft. apply Hslots, Hin. done.
  - eapply grown_weaken; [|exact Hgr]. intros r (t & Ht & Hr). exists t.
    apply Hin in Ht as [? ?]. done.
  - by eapply slots_after.
  - intros v Hv. destruct (Hgap v Hv); [lia|done].
Qed.

(** C28: [enqueueRoot] fills a slot once.  It succeeds, afterwards the slot has a
    run, an existing run of the slot makes it a no-op, and repeating it changes
    nothing. *)
Theorem enqueueRoot_once (w : world S) (j : Job) (fireAt : time) :
  world_ok w -> fresh_ids w -> job_ID j <> "" ->
  wp E (let* r1 := enqueueRoot j fireAt in
        let* r2 := enqueueRoot j fireAt in Ret (r1, r2)) (fun '(r1, r2) w' =>
    r1 = Ok tt /\ r2 = Ok tt
    /\ (has_slot (w_db w) (job_ID j) fireAt -> w_db w' = w_db w)
    /\ (~ has_slot (w_db w) (job_ID j) fireAt ->
        exists k batch, db_runs (w_db w) !! k = None
          /\ w_db w' = put_run (w_db w) (pending_run k (job_ID j) batch 0 fireAt fireAt))) w.
Proof.
  intros Hok Hf Hid. apply wp_bind.
  apply wp_enqueueRoot_full; [done..|]. intros w1 Hg1 Hs1 Hold Hnew _ _.
  apply wp_bind, wp_enqueueRoot; [done..|]. intros w2 Hg2 _ _ Hsame _ _. ret.
  rewrite Hsame by done. done.
Qed.

(** ** Dependents *)

Definition succeeded_in (d : db) (dep batch : string) : Prop :=
  exists k r, db_runs d !! k = Some r /\ run_JobID r = dep /\ run_BatchID r = batch
    /\ run_State r = StateSucceeded.

Definition in_batch (d : db) (id batch : string) : Prop :=
  exists k r, db_runs d !! k = Some r /\ run_JobID r = id /\ run_BatchID r = batch.

Definition deps_done (d : db) (j : Job) (batch : string) : Prop :=
  forall dep, dep ∈ job_DependsOn j -> succeeded_in d dep batch.

Lemma contains_elem xs want : contains xs want = true <-> want ∈ xs.
Proof.
  induction xs as [|x xs IH]; simpl; [by rewrite elem_of_nil|].
  rewrite elem_of_cons. destruct (String.eqb_spec x want) as [->|Hne].
  - split; [by left|done].
  - rewrite IH. split; [by right|intros [->|?]; done].
Qed.

Lemma hasSucceeded_exists l :
  hasSucceeded l = true <-> exists r, r ∈ l /\ run_State r = StateSucceeded.
Proof.
  induction l as [|x l IH]; simpl.
  { split; [done|]. by intros (r & ?%elem_of_nil & _). }
  destruct (String.eqb_spec (run_State x) StateSucceeded) as [Heq|Hne].
  - split; [|done]. intros _. exists x. split; [by left|done].
  - rewrite IH. split; intros (r & Hr & Hs); exists r; (split; [|done]).
    + by right.
    + apply elem_of_cons in Hr as [->|]; done.
Qed.

Lemma wp_deps_loop deps batch Q w :
  good w -> batch <> "" -> ("" ∉ deps) ->
  (forall b w', good w' -> w_db w' = w_db w -> (w_count w <= w_count w')%nat ->
     w_locked w' = w_locked w ->
     (b = true <-> forall dep, dep ∈ deps -> succeeded_in (w_db w) dep batch) -> Q (Ok b) w') ->
  wp E (deps_loop deps batch) Q w.
Proof.
  intros Hg Hb. revert Q w Hg. induction deps as [|dep deps IH]; intros Q w Hg Hne HQ; cbn [deps_loop].
  { ret. apply HQ; auto. split; [|done]. by intros _ ? ?%elem_of_nil. }
  rewrite not_elem_of_cons in Hne. destruct Hne as [Hne Hnes]. destruct Hg as [Hok Hf].
  apply wp_bind, wp_list_runs; [done..|]. intros l w1 Hok1 Hd1 Hc1 Hl1 _ Hl. cbv beta iota.
  assert (good w1) as Hg1 by (split; [done|]; apply (fresh_same w); [done|done|lia]).
  assert (hasSucceeded l = true <-> succeeded_in (w_db w) dep batch) as Hhas.
  { rewrite hasSucceeded_exists. pose proof (store_keyed _ Hok) as Hk. split.
    - intros (r & Hr & Hs). apply (elem_of_matching _ _ _ _ Hk Hl) in Hr as [Hr Hm].
      apply matches_by_batch in Hm as [Hj Hbt]; [|done..]. by exists (run_ID r), r.
    - intros (k & r & Hr & Hj & Hbt & Hs). exists r. split; [|done].
      apply (elem_of_matching _ _ _ _ Hk Hl). rewrite (keyed_run _ _ _ Hk Hr).
      split; [done|]. by apply matches_by_batch. }
  destruct (hasSucceeded l) eqn:Hs; simpl.
  - apply IH; [done..|]. intros b w2 Hg2 Hd2 Hc2 Hl2 Hb2.
    apply HQ; [done|congruence|lia|congruence|]. rewrite Hb2, Hd1. split.
    + intros Hall dep'. rewrite elem_of_cons. intros [->|Hin]; [by apply Hhas|auto].
    + intros Hall dep' Hin. apply Hall. by right.
  - ret. apply HQ; [done|congruence|lia|congruence|]. split; [done|].
    intros Hall. apply Hhas. apply Hall. by left.
Qed.

(** The two outcomes for one job: nothing to do, or a new pending run. *)
Definition dependent_post (completed : Run) (now : time) (j : Job) (d d' : db) : Prop :=
  (d' = d /\ (run_JobID completed ∈ job_DependsOn j ->
              deps_done d j (run_BatchID completed) ->
              in_batch d (job_ID j) (run_BatchID completed)))
  \/ (run_JobID completed ∈ job_DependsOn j /\ deps_done d j (run_BatchID completed)
      /\ ~ in_batch d (job_ID j) (run_BatchID completed)
      /\ exists k, db_runs d !! k = None
           /\ d' = put_run d (pending_run k (job_ID j) (run_BatchID completed) 0 now now)).

(** A job whose identifiers are not empty, so that filters by them select. *)
Definition named (j : Job) : Prop := job_ID j <> "" /\ ("" ∉ job_DependsOn j).

Lemma existing_batch d id batch l :
  keyed d -> id <> "" -> batch <> "" ->
  l ≡ₚ filter (fun x => matches (by_batch id batch) x) (runs_of d) ->
  (0 <? length l)%nat = true <-> in_batch d id batch.
Proof.
  intros Hk Hid Hb Hl. split.
  - destruct l as [|r l']; [done|]. intros _.
    assert (r ∈ r :: l') as Hr by (by left).
    apply (elem_of_matching _ _ _ _ Hk Hl) in Hr as [Hr Hm].
    apply matches_by_batch in Hm as [? ?]; [|done..]. by exists (run_ID r), r.
  - intros (k & r & Hr & Hj & Hbt). destruct l as [|x l']; [|done].
    assert (r ∈ @nil Run) as Hin; [|by apply elem_of_nil in Hin].
    apply (elem_of_matching _ _ _ _ Hk Hl). rewrite (keyed_run _ _ _ Hk Hr).
    split; [done|]. by apply matches_by_batch.
Qed.

Lemma wp_enqueueDependent completed now j Q w :
  good w -> run_BatchID completed <> "" -> named j ->
  (forall w', good w' -> dependent_post completed now j (w_db w) (w_db w') ->
     (w_count w <= w_count w')%nat -> w_locked w' = w_locked w -> Q (Ok tt) w') ->
  wp E (enqueueDependent completed now j) Q w.
Proof.
  intros Hg Hb [Hid Hdeps] HQ. unfold enqueueDependent.
  pose proof (contains_elem (job_DependsOn j) (run_JobID completed)) as Hc.
  destruct (contains _ _); cbn [negb].
  2:{ ret. apply HQ; auto. left. split; [done|]. by intros ?%Hc. }
  apply wp_bind, wp_deps_loop; [done..|]. intros ready w1 Hg1 Hd1 Hc1 Hl1 Hready. cbv beta iota.
  destruct ready; cbn [negb].
  2:{ ret. apply HQ; [done| |done..]. rewrite Hd1. left. split; [done|].
      intros _ Hdone. by apply Hready in Hdone. }
  destruct Hg1 as [Hok1 Hf1].
  apply wp_bind, wp_list_runs; [done..|]. intros l w2 Hok2 Hd2 Hc2 Hl2 _ Hl. cbv beta iota.
  pose proof (existing_batch (w_db w1) _ _ l (store_keyed _ Hok1) Hid Hb Hl) as Hex. rewrite Hd1 in Hex.
  destruct (0 <? length l)%nat.
  - ret. apply HQ; [| |lia|congruence].
    + split; [done|]. apply (fresh_same w1); [done|done|lia].
    + rewrite Hd2, Hd1. left. split; [done|]. intros _ _. by apply Hex.
  - effect. apply wp_create; [done..|]. intros w3 Hok3 Hd3 Hc3 Hl3 _.
    change (w_db w3 = put_run (w_db w2)
      (pending_run (env_id E (w_count w2)) (job_ID j) (run_BatchID completed) 0 now now)) in Hd3.
    simpl in Hc3, Hl3. rewrite Hd2 in Hd3.
    apply HQ; [| |lia|congruence].
    + split; [done|]. apply (fresh_put w1 w3 (w_count w2) _ Hf1 Hd3); [done|lia].
    + rewrite Hd1 in Hd3. right. split_and!; [by apply Hc|exact (proj1 Hready eq_refl)| |].
      * intros Hin. by apply Hex in Hin.
      * eexists. split; [|exact Hd3]. rewrite <-Hd1. apply Hf1. lia.
Qed.

(** One first attempt per job and batch. *)
Definition one_root (d : db) : Prop :=
  forall k1 k2 r1 r2, db_runs d !! k1 = Some r1 -> db_runs d !! k2 = Some r2 ->
    run_JobID r1 = run_JobID r2 -> run_BatchID r1 = run_BatchID r2 ->
    run_Attempt r1 = 0 -> run_Attempt r2 = 0 -> k1 = k2.

Lemma one_root_put d r :
  one_root d -> ~ in_batch d (run_JobID r) (run_BatchID r) -> one_root (put_run d r).
Proof.
  intros Ho Hn k1 k2 r1 r2. simpl. rewrite !lookup_insert_Some.
  intros [[<- <-]|[? H1]] [[<- <-]|[? H2]] Hj Hb A1 A2; [done| | |by eapply Ho].
  - destruct Hn. by exists k2, r2.
  - destruct Hn. by exists k1, r1.
Qed.

(** A first attempt of a job whose dependencies have succeeded in the batch. *)
Definition dependent_run (completed : Run) (now : time) (d : db) (jobs : list Job) (r : Run) : Prop :=
  exists j k, j ∈ jobs /\ run_JobID completed ∈ job_DependsOn j
    /\ deps_done d j (run_BatchID completed)
    /\ ~ in_batch d (job_ID j) (run_BatchID completed)
    /\ r = pending_run k (job_ID j) (run_BatchID completed) 0 now now.

Lemma in_batch_grown P d d' id b : grown P d d' -> in_batch d id b -> in_batch d' id b.
Proof. intros (_ & Hk & _) (k & r & Hr & ?). exists k, r. auto. Qed.

(** New pending runs do not complete dependencies. *)
Lemma deps_done_grown P d d' j b :
  grown P d d' -> (forall r, P r -> run_State r = StatePending) ->
  deps_done d' j b <-> deps_done d j b.
Proof.
  intros (_ & Hkeep & Hnew) HP. split; intros Hd dep Hin.
  - destruct (Hd dep Hin) as (k & r & Hr & Hj & Hb & Hs). exists k, r.
    destruct (Hnew k r Hr) as [?|HPr]; [done|]. rewrite (HP r HPr) in Hs. done.
  - destruct (Hd dep Hin) as (k & r & Hr & ?). exists k, r. auto.
Qed.

Lemma dependent_grown completed now j d d' :
  dependent_post completed now j d d' ->
  grown (dependent_run completed now d [j]) d d'.
Proof.
  intros [[-> _]|(Hin & Hdone & Hn & k & Hk & ->)]; [apply grown_refl|].
  apply grown_put; [done|]. exists j, k. split_and!; [by left|done..].
Qed.

Lemma dependent_run_pending c now d jobs r : dependent_run c now d jobs r -> run_State r = StatePending.
Proof. by intros (j & k & _ & _ & _ & _ & ->). Qed.

Lemma dependent_in_batch completed now j d d' :
  dependent_post completed now j d d' ->
  run_JobID completed ∈ job_DependsOn j -> deps_done d j (run_BatchID completed) ->
  in_batch d' (job_ID j) (run_BatchID completed).
Proof.
  intros [[-> Hin]|(_ & _ & _ & k & _ & ->)] Hd Hdone; [auto|].
  eexists k, _. simpl. by rewrite lookup_insert_eq.
Qed.

Lemma dependent_one_root completed now j d d' :
  dependent_post completed now j d d' -> one_root d -> one_root d'.
Proof. intros [[-> _]|(_ & _ & Hn & k & _ & ->)] Ho; [done|]. by apply one_root_put. Qed.

Lemma dependent_run_before completed now j d d' jobs r :
  dependent_post completed now j d d' ->
  dependent_run completed now d' jobs r -> dependent_run completed now d (j :: jobs) r.
Proof.
  intros Hp (j' & k & Hin & Hdep & Hdone & Hn & ->). pose proof (dependent_grown _ _ _ _ _ Hp) as Hg.
  exists j', k. split_and!; [by right|done| | |done].
  - eapply (deps_done_grown _ _ _ _ _ Hg); [|done]. intros r. apply dependent_run_pending.
  - intros Hb. by apply Hn, (in_batch_grown _ _ _ _ _ Hg).
Qed.

Lemma wp_dependents_loop completed now jobs :
  run_BatchID completed <> "" ->
  forall Q w, good w -> Forall named jobs ->
  (forall w', good w' -> grown (dependent_run completed now (w_db w) jobs) (w_db w) (w_db w') ->
     (forall j, j ∈ jobs -> run_JobID completed ∈ job_DependsOn j ->
        deps_done (w_db w) j (run_BatchID completed) ->
        in_batch (w_db w') (job_ID j) (run_BatchID completed)) ->
     (one_root (w_db w) -> one_root (w_db w')) ->
     (w_count w <= w_count w')%nat -> w_locked w' = w_locked w -> Q (Ok tt) w') ->
  wp E (dependents_loop completed now jobs) Q w.
Proof.
  intros Hb. induction jobs as [|j jobs IH]; intros Q w Hg Hnamed HQ; cbn [dependents_loop].
  { ret. apply HQ; auto. by intros j ?%elem_of_nil. }
  apply Forall_cons in Hnamed as [Hj Hjobs].
  apply wp_bind, wp_enqueueDependent; [done..|]. intros w1 Hg1 Hp Hc1 Hl1. cbv beta iota.
  apply IH; [done..|]. intros w2 Hg2 Hgr2 Hin2 Hone2 Hc2 Hl2.
  pose proof (dependent_grown _ _ _ _ _ Hp) as Hgr1.
  apply HQ; [done| | | |lia|congruence].
  - apply (grown_trans _ _ (w_db w1)); eapply grown_weaken; [|done| |done].
    + intros r (j' & k & Hin & Hrest). exists j', k. split; [|done].
      apply list_elem_of_singleton in Hin as ->. by left.
    + intros r. by apply dependent_run_before.
  - intros j' Hj' Hdep Hdone. apply elem_of_cons in Hj' as [->|Hj'].
    + eapply in_batch_grown; [done|]. by eapply dependent_in_batch.
    + apply Hin2; [done..|]. eapply (deps_done_grown _ _ _ _ _ Hgr1); [|done].
      intros r. apply dependent_run_pending.
  - intros Ho. by eapply Hone2, dependent_one_root.
Qed.

(** C4: advancing the graph after a success.  [enqueueDependents] succeeds;
    afterwards every job that depends on the completed one and whose
    dependencies have all succeeded in the batch has a run in the batch.  The
    runs created are pending first attempts of exactly those jobs that had
    none, everything else is kept, and no job gets a second first attempt in a
    batch. *)
Theorem enqueueDependents_correct (w : world S) (completed : Run) (now : time) :
  world_ok w -> fresh_ids w -> run_BatchID completed <> "" ->
  (forall j, j ∈ jobs_of (w_db w) -> named j) ->
  wp E (enqueueDependents completed now) (fun r w' =>
    r = Ok tt
    /\ (forall j, db_jobs (w_db w) !! job_ID j = Some j ->
          run_JobID completed ∈ job_DependsOn j ->
          deps_done (w_db w) j (run_BatchID completed) ->
          in_batch (w_db w') (job_ID j) (run_BatchID completed))
    /\ grown (dependent_run completed now (w_db w) (jobs_of (w_db w))) (w_db w) (w_db w')
    /\ (one_root (w_db w) -> one_root (w_db w'))) w.
Proof.
  intros Hok Hf Hb Hnamed. unfold enqueueDependents.
  apply wp_bind, wp_list_jobs; [done..|]. intros l w1 Hok1 Hd1 Hc1 Hl1 Hl. cbv beta iota.
  assert (good w1) as Hg1 by (split; [done|]; apply (fresh_same w); [done|done|lia]).
  apply wp_dependents_loop; [done|done| |].
  { apply Forall_forall. intros j Hj. apply Hnamed. by rewrite <-Hl. }
  rewrite Hd1. intros w2 Hg2 Hgr Hin Hone _ _. split_and!; [done| | |done].
  - intros j Hj. apply Hin. rewrite Hl. by apply elem_of_jobs_of; [apply store_keyed|].
  - eapply grown_weaken; [|exact Hgr]. intros r (j & k & Hj & Hrest). exists j, k.
    split; [by rewrite <-Hl|done].
Qed.

(** ** Schedules that give up

    C38: the loop of a job never ends once its schedule gives up at an elapsed
    fire time.  The zero time that [Next] then returns lies before [now], so the
    loop starts over from the first fire times after year 1, and again, without
    end: no number of iterations is enough. *)
Theorem fire_loop_gives_up_diverges (w : world S) (j : Job) (s : SpecSchedule) (off now next created : Z)
    (fuel : nat) :
  world_ok w -> fresh_ids w -> job_ID j <> "" -> fixed_offset (loc s) off ->
  zero_time <= next <= now -> fires s next = true -> Next s next = Some zero_time ->
  wp E (fire_loop fuel j (Spec s) now next created) (fun o _ => o = None) w.
Proof.
  intros Hok Hf Hid Hl [H0 Hle] Hfire Hzero.
  apply (fire_loop_diverges (fun t => zero_time <= t <= next)); [done| |lia|done].
  intros t Ht. split; [lia|]. rewrite ScheduleNext_Spec.
  destruct (Z.eq_dec t next) as [->|Hne]; [exists zero_time; split; [done|lia]|].
  destruct (Next_spec s off Hl t) as (u & Hu & [(Hlt & _ & _ & Hq)|[-> _]]); exists u || exists zero_time;
    (split; [done|]); [|lia].
  destruct (Z.le_gt_cases u next) as [|Hgt]; [lia|]. rewrite (Hq next) in Hfire by lia. done.
Qed.

(** A specification that never fires stops the scheduler at its second
    tick.  The first tick caches the zero time as the job's next fire time; at
    the second tick the loop of the job never ends. *)
Theorem impossible_spec_stops_dispatch (w : world S) (d : dispatcher) (j : Job) (sched : Schedule)
    (now1 now2 : time) (fuel : nat) :
  world_ok w -> fresh_ids w -> jobs_of (w_db w) = [j] -> job_ID j <> "" ->
  job_Enabled j = true -> job_Spec j <> "" -> (schedule d j).1 = Ok sched ->
  nextFire d !! job_ID j = None ->
  ScheduleNext sched now1 = Some zero_time -> ScheduleNext sched zero_time = Some zero_time ->
  zero_time <= now2 ->
  wp E (let* o1 := dispatch fuel now1 d in
        match o1 with
        | Some (_, _, d1) => dispatch fuel now2 d1
        | None => Ret None
        end) (fun o _ => o = None) w.
Proof.
  intros Hok Hf Hjobs Hid He Hspec Hs Hn Hnow1 Hzero Hnow2.
  assert (forall d' w', good w' -> jobs_of (w_db w') = [j] -> (schedule d' j).1 = Ok sched ->
    nextFire d' !! job_ID j = Some zero_time ->
    wp E (dispatch fuel now2 d') (fun o _ => o = None) w') as Hsecond.
  { intros d' w' [Hok' Hf'] Hjobs' Hs' Hn'. apply wp_bind, wp_list_jobs; [done..|].
    intros l w1 Hok1 Hd1 Hc1 _ Hl. rewrite Hjobs' in Hl.
    apply Permutation_singleton_r in Hl as ->. cbv beta iota.
    cbn [dispatch_jobs]. rewrite He, (proj2 (String.eqb_neq _ _) Hspec). cbn [negb orb].
    pose proof (schedule_keeps d' j) as [Hkeep _].
    destruct (schedule d' j) as [r d2]. cbn [fst snd] in *. subst r. rewrite Hkeep, Hn'.
    apply wp_bind. eapply wp_mono.
    - apply (fire_loop_diverges (fun t => t = zero_time)); [done| |done|].
      + intros t ->. split; [done|]. by exists zero_time.
      + split; [done|]. apply (fresh_same w'); [done|done|lia].
    - intros o w2 ->. by ret. }
  apply wp_bind, wp_bind, wp_list_jobs; [done..|]. intros l w1 Hok1 Hd1 Hc1 _ Hl.
  rewrite Hjobs in Hl. apply Permutation_singleton_r in Hl as ->. cbv beta iota.
  cbn [dispatch_jobs]. rewrite He, (proj2 (String.eqb_neq _ _) Hspec). cbn [negb orb].
  pose proof (schedule_keeps d j) as [Hkeep _].
  pose proof (schedule_cached d j sched Hs) as Hcache.
  destruct (schedule d j) as [r d1]. cbn [fst snd] in *. subst r. rewrite Hkeep, Hn, Hnow1.
  ret. apply Hsecond.
  - split; [done|]. apply (fresh_same w); [done|done|lia].
  - by rewrite Hd1.
  - unfold schedule. cbn [set_next parsed]. by rewrite Hcache.
  - apply lookup_insert_eq.
Qed.

End Correctness.

(** ** Witnesses *)

Definition cron_job (id spec : string) : Job :=
  mkJob id "" spec [] 0 zero_policy [] 0 true zero_time zero_time.

Definition one_job (j : Job) : world Memory.state :=
  mkWorld (Memory.PutJob j Memory.New).2 0 false [].

Lemma one_job_ok j : world_ok (one_job j).
Proof. apply (Memory.methods_ok _ (PutJob j)), Memory.New_ok. Qed.

Lemma one_job_fresh E j : fresh_ids E (one_job j).
Proof. intros m _. apply lookup_empty. Qed.

Lemma one_job_jobs j : jobs_of (w_db (one_job j)) = [j].
Proof.
  unfold jobs_of. cbn. rewrite Job_Clone_id.
  change (((map_to_list ({[job_ID j := j]} : gmap string Job)).*2) = [j]).
  by rewrite map_to_list_singleton.
Qed.

Definition minutely : dispatcher := mkDispatcher {["j" := 60 * Second]} ∅.

Lemma dispatch_correct_witness :
  wp calm_env (dispatch 200 (150 * Second) minutely)
    (fun o w' => (exists n d', o = Some (n, Ok tt, d'))
       /\ once (w_db (one_job (cron_job "j" "@every 1m"))) (w_db w')) (one_job (cron_job "j" "@every 1m")).
Proof.
  eapply wp_mono.
  - apply (dispatch_correct (H := Memory.store) calm_env eq_refl tally_inj
             (one_job (cron_job "j" "@every 1m")) minutely (150 * Second) 200).
    + apply one_job_ok.
    + apply one_job_fresh.
    + intros k s Hk. change (@lookup _ _ (gmap string Schedule) _ k ∅ = Some s) in Hk. by rewrite lookup_empty in Hk.
    + intros j Hj. rewrite one_job_jobs in Hj. apply list_elem_of_singleton in Hj as ->.
      split; [done|]. intros s next _ Hs Hn.
      vm_compute in Hs. injection Hs as <-. vm_compute in Hn. injection Hn as <-.
      split; [|vm_compute; lia]. intros t Ht. cbn. intros [= Heq].
      unfold ConstantNext, Add, TNanosecond, zero_time, Second in *. cbn in Heq. div_lia.
  - intros o w' (jobs & ls & d' & _ & Ho & _ & _ & Hon). split; [by eexists _, _|exact Hon].
Defined.

(** The calendar schedule of a specification, every second if it is none. *)
Definition spec_of (spec : string) : SpecSchedule :=
  match Parse spec with
  | Ok (Spec s) => s
  | _ => mkSpec (star 0 59) (star 0 59) (star 0 23) (star 1 31) (star 1 12) (star 0 6) None
  end.

Lemma hourly_progressive :
  progressive (Spec (spec_of "0 * * * *")) (3600 * Second) (7200 * Second).
Proof.
  assert (fixed_offset (loc (spec_of "0 * * * *")) 0) as Hl
    by (split; [done|]; intros x; vm_compute; reflexivity).
  apply (progressive_fires _ 0); [done|vm_compute; discriminate|].
  intros t Ht. exists (10800 * Second). split; [unfold Second in *; lia|].
  split; [|vm_compute; reflexivity]. unfold next_limit, maxSearchYears.
  assert (zero_time <= next_start t) as Hs.
  { unfold next_start, Truncate, Add, zero_time, Second in *. cbn. div_lia. }
  pose proof (Year_mono _ 0 _ _ Hl Hs) as Hy.
  assert (Year (loc (spec_of "0 * * * *")) zero_time = 1) as H1 by (vm_compute; reflexivity).
  assert (Year (loc (spec_of "0 * * * *")) (10800 * Second) = 1) as H2
    by (vm_compute; reflexivity).
  lia.
Qed.

Lemma fire_loop_exact_witness :
  wp calm_env (fire_loop 5000 (cron_job "j" "0 * * * *") (Spec (spec_of "0 * * * *"))
      (7200 * Second) (3600 * Second) 0)
    (fun o w' => exists n last, o = Some (n, Ok last) /\ 7200 * Second < last
       /\ has_slot (w_db w') "j" (7200 * Second))
    (one_job (cron_job "j" "0 * * * *")).
Proof.
  eapply wp_mono.
  - apply (fire_loop_exact (H := Memory.store) calm_env eq_refl tally_inj
             (one_job (cron_job "j" "0 * * * *")) (cron_job "j" "0 * * * *")
             (spec_of "0 * * * *") (7200 * Second) (3600 * Second) 0 5000).
    + apply one_job_ok.
    + apply one_job_fresh.
    + discriminate.
    + vm_compute. reflexivity.
    + apply hourly_progressive.
    + vm_compute. reflexivity.
    + vm_compute. discriminate.
    + vm_compute. lia.
  - intros o w' (n & last & Ho & Hall & _ & _ & Hlast & _). exists n, last.
    split; [exact Ho|]. split; [exact Hlast|]. apply Hall.
    + vm_compute. split; discriminate.
    + vm_compute. reflexivity.
Defined.

Lemma enqueueRoot_once_witness :
  wp calm_env (let* r1 := enqueueRoot (cron_job "j" "@hourly") 5 in
               let* r2 := enqueueRoot (cron_job "j" "@hourly") 5 in Ret (r1, r2))
    (fun '(r1, r2) _ => r1 = Ok tt /\ r2 = Ok tt) (one_job (cron_job "j" "@hourly")).
Proof.
  eapply wp_mono.
  - apply (enqueueRoot_once (H := Memory.store) calm_env eq_refl tally_inj
             (one_job (cron_job "j" "@hourly")) (cron_job "j" "@hourly") 5).
    + apply one_job_ok.
    + apply one_job_fresh.
    + discriminate.
  - intros [r1 r2] w' (H1 & H2 & _). split; assumption.
Defined.

Definition dependent_job (id dep : string) : Job :=
  mkJob id "" "" [] 0 zero_policy [dep] 0 true zero_time zero_time.

(** Job "b" depends on "a", whose run in batch "B" has succeeded. *)
Definition upstream : Run :=
  mkRun "r" "a" "B" StateSucceeded 0 1 (Some 1) (Some 2) 30 "w" "" 1 2.
Definition chain_world : world Memory.state :=
  mkWorld (Memory.CreateRun upstream (Memory.PutJob (dependent_job "b" "a") Memory.New).2).2
    0 false [].

Lemma chain_world_ok : world_ok chain_world.
Proof.
  apply (Memory.methods_ok _ (CreateRun upstream)),
    (Memory.methods_ok _ (PutJob (dependent_job "b" "a"))), Memory.New_ok.
Qed.

Lemma tally_first n c s : tally n = String c s -> c = "i"%char.
Proof. by destruct n; intros [= <-]. Qed.

Lemma chain_world_fresh : fresh_ids calm_env chain_world.
Proof.
  intros m _. unfold chain_world, w_db. cbn. rewrite lookup_insert_ne; [apply lookup_empty|].
  intros Heq. symmetry in Heq. by apply tally_first in Heq.
Qed.

Lemma chain_world_jobs : jobs_of (w_db chain_world) = [dependent_job "b" "a"].
Proof. apply (one_job_jobs (dependent_job "b" "a")). Qed.

Lemma enqueueDependents_correct_witness :
  wp calm_env (enqueueDependents upstream 9)
    (fun r w' => r = Ok tt /\ in_batch (w_db w') "b" "B") chain_world.
Proof.
  eapply wp_mono.
  - apply (enqueueDependents_correct (H := Memory.store) calm_env eq_refl tally_inj
             chain_world upstream 9).
    + apply chain_world_ok.
    + apply chain_world_fresh.
    + discriminate.
    + intros j Hj. rewrite chain_world_jobs in Hj. apply list_elem_of_singleton in Hj as ->.
      split; [discriminate|]. cbn. rewrite list_elem_of_singleton. discriminate.
  - intros r w' (Hr & Hin & _). split; [exact Hr|].
    apply (Hin (dependent_job "b" "a")).
    + vm_compute. reflexivity.
    + apply list_elem_of_singleton. reflexivity.
    + intros dep Hdep. apply list_elem_of_singleton in Hdep as ->.
      exists "r", upstream. vm_compute. repeat split.
Defined.

(** February 29 of 2096 is the last one before a gap of eight years. *)
Definition leap_day : time := Date 2096 2 29 0 0 0 0 UTC.

Lemma fire_loop_gives_up_diverges_witness :
  wp calm_env (fire_loop 100 (cron_job "j" "0 0 29 2 *") (Spec (spec_of "0 0 29 2 *"))
      (leap_day + Second) leap_day 0) (fun o _ => o = None) (one_job (cron_job "j" "0 0 29 2 *")).
Proof.
  apply (fire_loop_gives_up_diverges (H := Memory.store) calm_env eq_refl tally_inj
           (one_job (cron_job "j" "0 0 29 2 *")) (cron_job "j" "0 0 29 2 *")
           (spec_of "0 0 29 2 *") 0 (leap_day + Second) leap_day 0 100).
  - apply one_job_ok.
  - apply one_job_fresh.
  - discriminate.
  - split; [reflexivity|]. intros x. vm_compute. reflexivity.
  - vm_compute. split; discriminate.
  - vm_compute. reflexivity.
  - vm_compute. reflexivity.
Defined.

Lemma impossible_spec_stops_dispatch_witness :
  wp calm_env (let* o1 := dispatch 100 (Date 2026 1 1 0 0 0 0 UTC) newDispatcher in
               match o1 with
               | Some (_, _, d1) => dispatch 100 (Date 2026 1 1 0 0 1 0 UTC) d1
               | None => Ret None
               end) (fun o _ => o = None) (one_job (cron_job "j" "0 0 30 2 *")).
Proof.
  apply (impossible_spec_stops_dispatch (H := Memory.store) calm_env eq_refl tally_inj
           (one_job (cron_job "j" "0 0 30 2 *")) newDispatcher (cron_job "j" "0 0 30 2 *")
           (Spec (spec_of "0 0 30 2 *")) (Date 2026 1 1 0 0 0 0 UTC)
           (Date 2026 1 1 0 0 1 0 UTC) 100).
  - apply one_job_ok.
  - apply one_job_fresh.
  - apply one_job_jobs.
  - discriminate.
  - reflexivity.
  - discriminate.
  - vm_compute. reflexivity.
  - vm_compute. reflexivity.
  - vm_compute. reflexivity.
  - vm_compute. reflexivity.
  - vm_compute. discriminate.
Defined.
