(* ===== verification/Scheduler.v ===== *)
(** * The scheduler

    Models [src/internal/scheduler/scheduler.go]: the options and their defaults,
    one scheduling pass, the body of a worker goroutine, manual triggers and the
    backlog gauges, and the clocks of [src/internal/clock/clock.go].

    [drain] runs the goroutines of a pass one after the other in the order they
    are started, which is what a pool of one worker does.  [Pass.v] runs them
    interleaved, with the channel and the wait group that [drain] blocks on, and
    shows that the sequential order is one of those executions. *)

From Stdlib Require Import ZArith Lia String.
From stdpp Require Import base list strings gmap.
From S2P Require Import Prelude GoTime GoFloat Job Store MemoryStore Effects Worker Dispatcher.

#[local] Open Scope string_scope.
#[local] Open Scope list_scope.
#[local] Open Scope Z_scope.

(** ** Clocks *)

(** A clock, as the instant it shows at each reading. *)
Definition Clock := nat -> time.

Definition FromFunc (f : nat -> time) : Clock := f.

Module Mock.
Record t := mkMock { now : time }.
Definition NewMock (at_ : time) : t := mkMock at_.
Definition Now (m : t) : time := now m.
Definition Set_ (m : t) (at_ : time) : t := mkMock at_.
Definition Advance (m : t) (d : duration) : t := mkMock (Add (now m) d).
End Mock.

(** ** Options *)

Record Options := mkOptions {
  o_Executor : option Executor;
  o_TickInterval : duration;
  o_Workers : Z;
  o_Lease : duration;
  o_NewID : option (nat -> string);
  o_Clock : option Clock;
  o_Now : option (nat -> time)
}.

Record Scheduler := mkScheduler {
  s_exec : Executor;
  s_tick : duration;
  s_workers : Z;
  s_lease : duration;
  s_newID : nat -> string;
  s_clock : Clock;
  s_disp : dispatcher
}.

(** [defaultID] and the system clock come from the operating system. *)
Definition New (defaultID : nat -> string) (Real : Clock) (opts : Options) : Scheduler :=
  mkScheduler
    (default NoopExecutor (o_Executor opts))
    (if o_TickInterval opts <=? 0 then Second else o_TickInterval opts)
    (if o_Workers opts <? 1 then 4 else o_Workers opts)
    (if o_Lease opts <=? 0 then 30 * Second else o_Lease opts)
    (default defaultID (o_NewID opts))
    (match o_Clock opts with
     | Some clk => clk
     | None => match o_Now opts with Some now => FromFunc now | None => Real end
     end)
    newDispatcher.

Section Scheduler.
Context (conv : float64 -> Z).

(** ** One pass *)

(** The first half of [drain]: claim the ready runs. *)
Definition claim_ready (workers : Z) (lease : duration) (now : time)
  : prog (result store_error (list Run)) :=
  let limit := Z.min (i64 (workers * 4)) 256 in
  let* id := do_eff NewID in
  do_call (ClaimDue now id lease limit).

(** The body of the goroutine started for each claimed run; its deferred calls
    are in [Pass.v]. *)
Definition goroutine (r : Run) : prog unit :=
  let* res := process conv r in
  match res with
  | (_, Err _) => Ret tt
  | (result, Ok _) =>
      if String.eqb (run_State result) StateSucceeded then
        let* _ := do_eff Lock in
        let* now := do_eff Now in
        let* _ := enqueueDependents result now in
        do_eff Unlock
      else Ret tt
  end.

Fixpoint in_order (rs : list Run) : prog unit :=
  match rs with
  | [] => Ret tt
  | r :: rs => let* _ := goroutine r in in_order rs
  end.

Definition drain (workers : Z) (lease : duration) (now : time) : prog unit :=
  let* claimed := claim_ready workers lease now in
  match claimed with
  | Err _ => Ret tt
  | Ok claimed => in_order claimed
  end.

(** The loop of [publishBacklog] for the oldest due run. *)
Definition older (now oldest : time) (r : Run) : time :=
  if After (run_ScheduledFor r) now then oldest
  else if IsZero oldest || Before (run_ScheduledFor r) oldest then run_ScheduledFor r
  else oldest.

Definition publishBacklog (now : time) : prog unit :=
  let* r := do_call (ListRuns (mkRunFilter "" "" StatePending 0 0)) in
  match r with
  | Err _ => Ret tt
  | Ok pending =>
      let* _ := do_eff (Emit (SetPending (Z.of_nat (length pending)))) in
      let oldest := foldl (older now) zero_time pending in
      if IsZero oldest then do_eff (Emit (SetLag 0))
      else do_eff (Emit (SetLag (Sub now oldest)))
  end.

(** [None] when the dispatcher ran out of fuel. *)
Definition step (fuel : nat) (s : Scheduler) (now : time) : prog (option Scheduler) :=
  let* _ := do_eff (Emit Tick) in
  let* o := dispatch fuel now (s_disp s) in
  match o with
  | None => Ret None
  | Some (_, _, d) =>
      let* _ := drain (s_workers s) (s_lease s) now in
      let* _ := publishBacklog now in
      Ret (Some (mkScheduler (s_exec s) (s_tick s) (s_workers s) (s_lease s)
                   (s_newID s) (s_clock s) d))
  end.

(** ** Manual triggers *)

Definition Trigger (jobID : string) : prog (result store_error Run) :=
  let*? j := do_call (GetJob jobID) in
  let* now := do_eff Now in
  let* id := do_eff NewID in
  let* batch := do_eff NewID in
  let r := pending_run id (job_ID j) batch 0 now now in
  let*? _ := do_call (CreateRun r) in
  Ret (Ok r).
End Scheduler.

(** The environment that a scheduler runs in: its own clock, executor and
    identifiers, and the cancellation, random numbers and conversion of the
    process. *)
Definition env_of (s : Scheduler) (cancelled : nat -> bool) (rand : nat -> float64)
    (conv : float64 -> Z) : env :=
  mkEnv (s_newID s) (s_clock s) (s_exec s) cancelled rand conv.

(** [Run]: the loop of ticks.  A signal is a tick of the ticker or the
    cancellation of the context, which ends the loop. *)
Inductive signal := TickerC | CtxDoneC.

Fixpoint Run_loop (conv : float64 -> Z) (fuel : nat) (s : Scheduler) (signals : list signal)
  : prog (option Scheduler) :=
  match signals with
  | [] => Ret (Some s)
  | CtxDoneC :: _ => Ret (Some s)
  | TickerC :: signals =>
      let* now := do_eff Now in
      let* o := step conv fuel s now in
      match o with
      | None => Ret None
      | Some s => Run_loop conv fuel s signals
      end
  end.

(** ** Correctness *)

(** The defaults.  A scheduler always ticks at a positive interval, has at
    least one worker and leases for a positive time; values given are kept; and
    with up to 2^61 - 1 workers a pass claims between 1 and 256 runs. *)
Theorem New_defaults (defaultID : nat -> string) (Real : Clock) (opts : Options) :
  let s := New defaultID Real opts in
  0 < s_tick s /\ 1 <= s_workers s /\ 0 < s_lease s
  /\ (0 < o_TickInterval opts -> s_tick s = o_TickInterval opts)
  /\ (1 <= o_Workers opts -> s_workers s = o_Workers opts)
  /\ (0 < o_Lease opts -> s_lease s = o_Lease opts)
  /\ (o_Workers opts < 2 ^ 61 ->
      1 <= Z.min (i64 (s_workers s * 4)) 256 <= 256)
  /\ nextFire (s_disp s) = ∅ /\ parsed (s_disp s) = ∅.
Proof.
  cbn. destruct (Z.leb_spec (o_TickInterval opts) 0), (Z.ltb_spec (o_Workers opts) 1),
    (Z.leb_spec (o_Lease opts) 0); unfold Second; split_and!; try done; try lia;
    intros Hw; rewrite ?i64_small by (unfold min_int64, max_int64, two63; lia); lia.
Qed.

Section Correctness.
Context {S : Type} `{Store S} (E : env) (Hreliable : fallible = false).

(** What a trigger does. *)
Lemma Trigger_effect (w : world S) (id : string) :
  world_ok w ->
  let n := w_count w in
  wp E (Trigger id) (fun r w' =>
    match db_jobs (w_db w) !! id with
    | None => r = Err ErrNotFound /\ w_db w' = w_db w
    | Some j =>
        r = Ok (pending_run (env_id E (2 + n)) id (env_id E (3 + n)) 0
                  (env_now E (1 + n)) (env_now E (1 + n)))
        /\ w_db w' = put_run (w_db w)
             (pending_run (env_id E (2 + n)) id (env_id E (3 + n)) 0
                (env_now E (1 + n)) (env_now E (1 + n)))
    end) w.
Proof.
  intros Hok n. unfold Trigger. apply wp_bind, wp_call; [done|].
  intros r w1 Hok1 Hn1 Hl1 Hm1 [Hf|[-> Hd1]].
  { rewrite Hreliable in Hf. by apply not_failed in Hf. }
  destruct (db_jobs (w_db w) !! id) as [j|] eqn:Hj; simpl found; cbv iota; [|by ret].
  pose proof (store_keyed _ Hok) as [Hk _]. pose proof (Hk _ _ Hj) as Hid. cbv beta in Hid.
  do 3 effect. apply wp_bind, wp_create; [done..|]. intros w2 Hok2 Hd2 _ _ _. ret.
  rewrite Hid, Hn1 in *. split; [done|]. rewrite Hd2.
  unfold w_db at 1. cbn [w_store]. fold (w_db w1). by rewrite Hd1.
Qed.

(** C34: a trigger.  An unknown job is refused and nothing changes; a known job
    gets one pending first attempt, due now, in a batch of its own. *)
Theorem Trigger_correct (w : world S) (id : string) :
  world_ok w ->
  let n := w_count w in
  wp E (Trigger id) (fun r w' =>
    match db_jobs (w_db w) !! id with
    | None => r = Err ErrNotFound /\ w_db w' = w_db w
    | Some j =>
        r = Ok (pending_run (env_id E (2 + n)) id (env_id E (3 + n)) 0
                  (env_now E (1 + n)) (env_now E (1 + n)))
        /\ w_db w' = put_run (w_db w)
             (pending_run (env_id E (2 + n)) id (env_id E (3 + n)) 0
                (env_now E (1 + n)) (env_now E (1 + n)))
    end) w.
Proof. apply Trigger_effect. Qed.

(** [o] is the due time of the oldest due run of [seen], the zero time when
    none is due. *)
Definition oldest_due (now : time) (seen : list Run) (o : time) : Prop :=
  (o = zero_time /\ forall r, r ∈ seen -> now < run_ScheduledFor r)
  \/ (o <> zero_time /\ o <= now /\ (exists r, r ∈ seen /\ run_ScheduledFor r = o)
      /\ forall r, r ∈ seen -> run_ScheduledFor r <= now -> o <= run_ScheduledFor r).

Ltac in_snoc r Hr :=
  intros r Hr; rewrite elem_of_app, list_elem_of_singleton in Hr; destruct Hr as [Hr| ->].

Lemma older_step now seen o x :
  run_ScheduledFor x <> zero_time ->
  oldest_due now seen o -> oldest_due now (seen ++ [x]) (older now o x).
Proof.
  unfold oldest_due, older, After, Before, IsZero, zero_time. intros Hx Ho.
  assert (x ∈ seen ++ [x]) as Hin by (apply elem_of_app; right; by apply list_elem_of_singleton).
  assert (forall r, r ∈ seen -> r ∈ seen ++ [x]) as Hold by (intros; apply elem_of_app; by left).
  destruct (Z.ltb_spec now (run_ScheduledFor x)) as [Hlate|Hdue].
  - destruct Ho as [[-> Hs]|(Hnz & Hle & (r & Hr & Heq) & Hmin)].
    + left. split; [done|]. in_snoc r Hr; [auto|done].
    + right. split_and!; [done|done|exists r; auto|]. in_snoc r' Hr'; [auto|lia].
  - destruct Ho as [[-> Hs]|(Hnz & Hle & (r & Hr & Heq) & Hmin)]; cbn [Z.eqb orb].
    + right. split_and!; [done|done|by exists x|]. in_snoc r Hr; [|done].
      specialize (Hs r Hr). lia.
    + rewrite (proj2 (Z.eqb_neq o 0)) by done. cbn [orb].
      destruct (Z.ltb_spec (run_ScheduledFor x) o) as [Hlt|Hge]; right; split_and!; try done.
      * by exists x.
      * in_snoc r' Hr'; [|done]. intros Hle'. specialize (Hmin r' Hr' Hle'). lia.
      * exists r. auto.
      * in_snoc r' Hr'; [auto|done].
Qed.

Lemma oldest_loop now l :
  forall seen o, (forall r, r ∈ l -> run_ScheduledFor r <> zero_time) ->
  oldest_due now seen o -> oldest_due now (seen ++ l) (foldl (older now) o l).
Proof.
  induction l as [|x l IH]; intros seen o Hnz Ho; cbn [foldl]; [by rewrite app_nil_r|].
  rewrite cons_middle, app_assoc. apply IH; [intros r Hr; apply Hnz; by right|].
  apply older_step; [|done]. apply Hnz. by left.
Qed.

(** C35: the backlog gauges.  The pending gauge is set to the number of pending
    runs, and the lag gauge to the age of the oldest pending run that is due, or
    to zero when none is due; the database is not touched. *)
Theorem publishBacklog_correct (w : world S) (now : time) :
  world_ok w ->
  (forall k r, db_runs (w_db w) !! k = Some r -> run_State r = StatePending ->
     run_ScheduledFor r <> zero_time) ->
  wp E (publishBacklog now) (fun _ w' => w_db w' = w_db w /\
    exists pending o,
      (forall r, r ∈ pending <->
         db_runs (w_db w) !! run_ID r = Some r /\ run_State r = StatePending)
      /\ NoDup pending /\ oldest_due now pending o
      /\ w_metrics w' = w_metrics w ++ SetPending (Z.of_nat (length pending))
           ++ SetLag (if o =? 0 then 0 else Sub now o)) w.
Proof.
  intros Hok Hnz. pose proof (store_keyed _ Hok) as Hk. unfold publishBacklog.
  apply wp_bind, wp_list_runs; [done..|]. intros l w1 Hok1 Hd1 _ _ Hm1 Hl. cbv beta iota.
  assert (forall r, r ∈ l <-> db_runs (w_db w) !! run_ID r = Some r /\ run_State r = StatePending)
    as Hin.
  { intros r. rewrite (elem_of_matching _ _ _ _ Hk Hl). unfold matches. simpl.
    by rewrite String.eqb_eq. }
  assert (oldest_due now l (foldl (older now) zero_time l)) as Ho.
  { apply (oldest_loop now l []).
    - intros r [Hr Hp]%Hin. by eapply Hnz.
    - left. split; [done|]. by intros r ?%elem_of_nil. }
  assert (NoDup l) as Hnd.
  { rewrite Hl. apply NoDup_filter. apply (NoDup_fmap_1 run_ID). by apply NoDup_run_ids. }
  effect. cbv zeta. unfold IsZero at 1.
  destruct (foldl (older now) zero_time l =? 0) eqn:Hz; rewrite <-(bind_do_eff (Emit _)); effect;
    ret; (split; [done|]); exists l, (foldl (older now) zero_time l); rewrite Hz;
    (split_and!; [done..|]); cbn [w_metrics]; by rewrite <-app_assoc, Hm1.
Qed.
End Correctness.

(** ** Witnesses and evaluations *)

Lemma Trigger_correct_witness :
  wp calm_env (Trigger "j") (fun r w' =>
    r = Ok (pending_run (tally 2) "j" (tally 3) 0 1 1)
    /\ db_runs (w_db w') !! tally 2 = Some (pending_run (tally 2) "j" (tally 3) 0 1 1))
    (one_job (cron_job "j" "@daily")).
Proof.
  eapply wp_mono.
  - apply (Trigger_correct (H := Memory.store) calm_env eq_refl (one_job (cron_job "j" "@daily")) "j").
    apply one_job_ok.
  - intros r w' Hp.
    change (db_jobs (w_db (one_job (cron_job "j" "@daily"))) !! "j")
      with (Some (cron_job "j" "@daily")) in Hp.
    destruct Hp as [-> ->]. split; [reflexivity|]. vm_compute. reflexivity.
Defined.

(** Two pending runs, of which one is due. *)
Definition backlog_world : world Memory.state :=
  mkWorld (Memory.CreateRun (pending_run "r2" "j" "b" 0 90 3)
             (Memory.CreateRun (pending_run "r1" "j" "b" 0 40 3) Memory.New).2).2 0 false [].

Lemma publishBacklog_correct_witness :
  wp calm_env (publishBacklog 50) (fun _ w' => w_db w' = w_db backlog_world) backlog_world.
Proof.
  eapply wp_mono.
  - apply (publishBacklog_correct (H := Memory.store) calm_env eq_refl backlog_world 50).
    + apply (Memory.methods_ok _ (CreateRun (pending_run "r2" "j" "b" 0 90 3))),
        (Memory.methods_ok _ (CreateRun (pending_run "r1" "j" "b" 0 40 3))), Memory.New_ok.
    + intros k r Hr _. cbn in Hr. rewrite !lookup_insert_Some, lookup_empty in Hr.
      destruct Hr as [[_ <-]|[_ [[_ <-]|[_ [=]]]]]; discriminate.
  - intros _ w' [Hd _]. exact Hd.
Defined.

(** A pipeline: "extract" every minute, then "load".  Two ticks a minute apart:
    the first primes the schedule, the second creates and runs "extract", and its
    success enqueues "load", which a third tick runs. *)
Definition etl : Memory.state :=
  (Memory.PutJob (dependent_job "load" "extract")
     (Memory.PutJob (cron_job "extract" "* * * * *") Memory.New).2).2.

Definition etl_ticks : prog (option Scheduler) :=
  let s := New tally Z.of_nat (mkOptions None 0 0 0 None None None) in
  let* o := step (fun _ => 0) 10 s (Date 2026 3 10 10 0 30 0 UTC) in
  match o with
  | None => Ret None
  | Some s =>
      let* o := step (fun _ => 0) 10 s (Date 2026 3 10 10 1 0 0 UTC) in
      match o with
      | None => Ret None
      | Some s => step (fun _ => 0) 10 s (Date 2026 3 10 10 1 30 0 UTC)
      end
  end.

Example etl_runs :
  let w := (run calm_env etl_ticks (mkWorld etl 0 false [])).2 in
  map (fun r => (run_JobID r, run_State r)) (Memory.values (Memory.runs (w_store w)))
    ≡ₚ [("extract", StateSucceeded); ("load", StateSucceeded)].
Proof. vm_compute. apply Permutation_swap || reflexivity. Qed.
