(* ===== verification/Pool.v ===== *)
(** * Goroutines

    An interleaving semantics for programs that share the world: a pool of
    threads in which any thread whose next effect is enabled performs it.  A
    locked mutex blocks [Lock]; every other effect is atomic, as a store call is
    under the store's own mutex.

    Invariants of pools are proved thread by thread with a rely-guarantee rule.
    Each thread owns resources: the mutex while it holds it, and the identifiers
    it has drawn.  [safe] says that a thread, whatever compatible threads do in
    between, keeps the invariant and stays within its guarantee. *)

From Stdlib Require Import ZArith Lia String.
From stdpp Require Import base list strings gmap relations.
From S2P Require Import Prelude GoTime GoFloat Job Store Effects.

#[local] Open Scope list_scope.

(** ** Resources *)

Record res := mkRes { held : bool; owned : list nat }.

Definition no_res : res := mkRes false [].

Definition compat (a b : res) : Prop :=
  (held a = true -> held b = false) /\ forall m, m ∈ owned a -> m ∈ owned b -> False.

Lemma compat_sym a b : compat a b -> compat b a.
Proof.
  intros [H1 H2]. split; [|eauto].
  destruct (held a); [by rewrite H1|done].
Qed.

(** The resources after an effect performed when [n] effects had been. *)
Definition grant {R} (h : res) (e : eff R) (n : nat) : res :=
  match e with
  | Lock => mkRes true (owned h)
  | Unlock => mkRes false (owned h)
  | NewID => mkRes (held h) (n :: owned h)
  | _ => h
  end.

(** The mutex is not reentrant, and only its holder releases it. *)
Definition lock_ok {R} (h : res) (e : eff R) : Prop :=
  match e with Lock => held h = false | Unlock => held h = true | _ => True end.

Definition enabled {S R} (e : eff R) (w : world S) : bool :=
  match e with Lock => negb (w_locked w) | _ => true end.

Section Pool.
Context {S : Type} `{Store S} (E : env).

(** ** Interleaving *)

Inductive pstep : list (prog unit) -> world S -> list (prog unit) -> world S -> Prop :=
| pstep_thread ts i R (e : eff R) k w :
    ts !! i = Some (Vis e k) -> enabled e w = true ->
    pstep ts w (<[i := k (perform E e w).1]> ts) (perform E e w).2.

(** ** The rely-guarantee rule *)

Section Rule.
Context (Inv : world S -> Prop) (G : res -> world S -> world S -> Prop).

(** Knowledge that compatible threads do not invalidate. *)
Definition stable (h : res) (K : world S -> Prop) : Prop :=
  forall h' w w', compat h h' -> Inv w -> Inv w' -> K w -> G h' w w' -> K w'.

Fixpoint safe {A} (h : res) (K : world S -> Prop) (p : prog A)
    (Post : A -> res -> (world S -> Prop) -> Prop) : Prop :=
  match p with
  | Ret a => Post a h K
  | Vis e k =>
      lock_ok h e /\
      forall w, Inv w -> K w -> enabled e w = true ->
        (forall m, m ∈ owned h -> (m < w_count w)%nat) ->
        let w' := (perform E e w).2 in
        Inv w' /\ G h w w' /\
        exists K', K' w' /\ stable (grant h e (w_count w)) K'
          /\ safe (grant h e (w_count w)) K' (k (perform E e w).1) Post
  end.

Lemma safe_mono {A} (p : prog A) (P Q : A -> res -> (world S -> Prop) -> Prop) :
  (forall a h K, P a h K -> Q a h K) -> forall h K, safe h K p P -> safe h K p Q.
Proof.
  intros HPQ. induction p as [a|R e k IH]; intros h K; simpl; [apply HPQ|].
  intros [Hl Hs]. split; [done|]. intros w Hi HK He Ho.
  destruct (Hs w Hi HK He Ho) as (H1 & H2 & K' & H3 & H4 & H5).
  split; [done|]. split; [done|]. exists K'. auto.
Qed.

Lemma safe_bind {A B} (p : prog A) (f : A -> prog B) Q :
  forall h K, safe h K p (fun a h' K' => safe h' K' (f a) Q) -> safe h K (bind p f) Q.
Proof.
  induction p as [a|R e k IH]; intros h K; simpl; [done|].
  intros [Hl Hs]. split; [done|]. intros w Hi HK He Ho.
  destruct (Hs w Hi HK He Ho) as (H1 & H2 & K' & H3 & H4 & H5).
  split; [done|]. split; [done|]. exists K'. auto.
Qed.

(** A thread ends without the mutex. *)
Definition ends {A} (a : A) (h : res) (K : world S -> Prop) : Prop := held h = false.

Definition thread_ok (w : world S) (h : res) (p : prog unit) : Prop :=
  exists K, K w /\ stable h K /\ safe h K p ends.

(** The pool: threads are safe with pairwise compatible resources, and the
    mutex is locked exactly while a thread holds it. *)
Definition pool_ok (ts : list (prog unit)) (w : world S) : Prop :=
  Inv w /\ exists hs : list res,
    Forall2 (thread_ok w) hs ts
    /\ (forall i j a b, i <> j -> hs !! i = Some a -> hs !! j = Some b -> compat a b)
    /\ (forall i a m, hs !! i = Some a -> m ∈ owned a -> (m < w_count w)%nat)
    /\ (w_locked w = true <-> exists i a, hs !! i = Some a /\ held a = true).

Lemma perform_count {R} (e : eff R) (w : world S) :
  w_count (perform E e w).2 = Datatypes.S (w_count w).
Proof. destruct e; simpl; try done. by destruct (handle c (w_store w)). Qed.

Lemma grant_compat {R} (h b : res) (e : eff R) (w : world S) :
  compat h b -> enabled e w = true -> (w_locked w = false -> held b = false) ->
  (forall m, m ∈ owned b -> (m < w_count w)%nat) -> compat (grant h e (w_count w)) b.
Proof.
  intros [Hc1 Hc2] He Hb Ho. destruct e; simpl in *; try (by split).
  - split; [done|]. simpl. intros m Hm Hm'. apply elem_of_cons in Hm as [->|Hm]; [|eauto].
    specialize (Ho _ Hm'). lia.
  - split; [|done]. intros _. apply Hb. by apply negb_true_iff in He.
Qed.

Lemma grant_owned {R} (h : res) (e : eff R) (w : world S) m :
  (forall m, m ∈ owned h -> (m < w_count w)%nat) ->
  m ∈ owned (grant h e (w_count w)) -> (m < w_count (perform E e w).2)%nat.
Proof.
  intros Ho. rewrite perform_count.
  destruct e; simpl; rewrite ?elem_of_cons; try (intros Hm%Ho; lia).
  intros [->|Hm%Ho]; lia.
Qed.

(** The mutex after a step of the thread [i]. *)
Lemma locked_step {R} (hs : list res) i h (e : eff R) (w : world S) :
  hs !! i = Some h -> lock_ok h e ->
  (forall i j a b, i <> j -> hs !! i = Some a -> hs !! j = Some b -> compat a b) ->
  (w_locked w = true <-> exists i a, hs !! i = Some a /\ held a = true) ->
  w_locked (perform E e w).2 = true <->
    exists j a, <[i := grant h e (w_count w)]> hs !! j = Some a /\ held a = true.
Proof.
  intros Hi Hl Hc Hw.
  assert (i < length hs)%nat as Hlen by (by eapply lookup_lt_Some).
  assert (forall (a : res) (P : Prop), held a = held h -> (w_locked w = true <-> P) ->
    (P <-> exists j b, hs !! j = Some b /\ held b = true) ->
    (P <-> exists j b, <[i := a]> hs !! j = Some b /\ held b = true)) as Hsame.
  { intros a P Ha _ HP. rewrite HP. split; intros (j & b & Hj & Hb);
      (destruct (decide (j = i)) as [->|Hne];
       [|exists j, b; rewrite ?list_lookup_insert_ne in * by done; done]).
    - exists i, a. rewrite list_lookup_insert_eq by done. split; [done|]. congruence.
    - rewrite list_lookup_insert_eq in Hj by done. exists i, h. split; [done|]. congruence. }
  destruct e; simpl; try (by apply (Hsame _ (w_locked w = true))).
  - destruct (handle c (w_store w)). simpl. by apply (Hsame _ (w_locked w = true)).
  - split; [|done]. intros _. exists i, (mkRes true (owned h)).
    by rewrite list_lookup_insert_eq.
  - split; [done|]. intros (j & b & Hj & Hb). exfalso.
    destruct (decide (j = i)) as [->|Hne].
    + rewrite list_lookup_insert_eq in Hj by done. by injection Hj as <-.
    + rewrite list_lookup_insert_ne in Hj by done.
      destruct (Hc i j h b) as [Hcc _]; [done..|]. rewrite Hcc in Hb; done.
Qed.

(** Resources stay pairwise compatible. *)
Lemma compat_step {R} (hs : list res) i h (e : eff R) (w : world S) :
  hs !! i = Some h -> enabled e w = true ->
  (forall i j a b, i <> j -> hs !! i = Some a -> hs !! j = Some b -> compat a b) ->
  (forall i a m, hs !! i = Some a -> m ∈ owned a -> (m < w_count w)%nat) ->
  (w_locked w = true <-> exists i a, hs !! i = Some a /\ held a = true) ->
  forall j1 j2 a b, j1 <> j2 ->
    <[i := grant h e (w_count w)]> hs !! j1 = Some a ->
    <[i := grant h e (w_count w)]> hs !! j2 = Some b -> compat a b.
Proof.
  intros Hi He Hc Ho Hlock.
  assert (forall j b, j <> i -> hs !! j = Some b -> compat (grant h e (w_count w)) b) as Hnew.
  { intros j b Hne Hb. apply grant_compat; [by apply (Hc i j)|done| |].
    - intros Hw. destruct (held b) eqn:Eb; [|done].
      rewrite (proj2 Hlock) in Hw; [done|]. by exists j, b.
    - intros m. by apply (Ho j). }
  intros j1 j2 a b Hne Ha Hb.
  apply list_lookup_insert_Some in Ha as [(<- & <- & _)|[H1 Ha]];
    apply list_lookup_insert_Some in Hb as [(<- & <- & _)|[H2 Hb]].
  - done.
  - by apply (Hnew j2).
  - apply compat_sym. by apply (Hnew j1).
  - by apply (Hc j1 j2).
Qed.

(** A step of one thread keeps the pool. *)
Lemma pool_ok_step ts w ts' w' : pstep ts w ts' w' -> pool_ok ts w -> pool_ok ts' w'.
Proof.
  intros [ts0 i R e k w0 Hi He] (HI & hs & Hall & Hc & Ho & Hlock).
  destruct (Forall2_lookup_r _ _ _ _ _ Hall Hi) as (h & Hh & K & HK & Hst & Hl & Hs).
  destruct (Hs w0 HI HK He (fun m => Ho i h m Hh)) as (HI' & HG & K' & HK' & Hst' & Hs').
  split; [done|]. exists (<[i := grant h e (w_count w0)]> hs). split_and!.
  - apply Forall2_same_length_lookup_2; [by rewrite !length_insert, (Forall2_length _ _ _ Hall)|].
    intros j a p Ha Hp. destruct (decide (j = i)) as [->|Hne].
    + rewrite list_lookup_insert_eq in Ha by (by eapply lookup_lt_Some).
      rewrite list_lookup_insert_eq in Hp by (by eapply lookup_lt_Some).
      injection Ha as <-. injection Hp as <-. by exists K'.
    + rewrite list_lookup_insert_ne in Ha by done. rewrite list_lookup_insert_ne in Hp by done.
      destruct (Forall2_lookup_lr _ _ _ _ _ _ Hall Ha Hp) as (Kj & HKj & Hstj & Hsj).
      exists Kj. split_and!; [|done|done].
      apply (Hstj h w0); [by apply compat_sym, (Hc i j)|done..].
  - by apply compat_step.
  - intros j a m Ha Hm. destruct (decide (j = i)) as [->|Hne].
    + rewrite list_lookup_insert_eq in Ha by (by eapply lookup_lt_Some). injection Ha as <-.
      eapply grant_owned; [|done]. intros m'. by apply (Ho i).
    + rewrite list_lookup_insert_ne in Ha by done. rewrite perform_count.
      specialize (Ho j a m Ha Hm). lia.
  - by apply locked_step.
Qed.

(** A step of a pool stays within the guarantee of the thread that takes it. *)
Lemma pool_guarantee ts w ts' w' :
  pstep ts w ts' w' -> pool_ok ts w -> exists h, G h w w'.
Proof.
  intros [ts0 i R e k w0 Hi He] (HI & hs & Hall & _ & Ho & _).
  destruct (Forall2_lookup_r _ _ _ _ _ Hall Hi) as (h & Hh & K & HK & _ & _ & Hs).
  exists h. by apply (Hs w0 HI HK He (fun m => Ho i h m Hh)).
Qed.

(** A new thread that owns nothing. *)
Lemma pool_ok_spawn ts w p : pool_ok ts w -> thread_ok w no_res p -> pool_ok (ts ++ [p]) w.
Proof.
  intros (HI & hs & Hall & Hc & Ho & Hlock) Hp. split; [done|].
  assert (forall a, compat a no_res) as Hno.
  { intros a. split; [done|]. intros m _ ?%elem_of_nil. done. }
  exists (hs ++ [no_res]). split_and!.
  - by apply Forall2_app; [|repeat constructor].
  - intros i j a b Hne Ha Hb.
    apply lookup_snoc_Some in Ha as [[_ Ha]|[-> <-]];
      apply lookup_snoc_Some in Hb as [[_ Hb]|[-> <-]]; eauto using compat_sym.
  - intros i a m Ha Hm. apply lookup_snoc_Some in Ha as [[_ Ha]|[_ <-]]; [by eapply Ho|].
    by apply elem_of_nil in Hm.
  - rewrite Hlock. split; intros (i & a & Ha & Hh).
    + exists i, a. split; [|done]. by apply lookup_app_l_Some.
    + apply lookup_snoc_Some in Ha as [[_ Ha]|[_ <-]]; [by exists i, a|done].
Qed.

Lemma pool_ok_spawns ts w ps :
  pool_ok ts w -> Forall (thread_ok w no_res) ps -> pool_ok (ts ++ ps) w.
Proof.
  intros Hp Hall. revert ts Hp. induction Hall as [|p ps Hpo Hps IH]; intros ts Hp.
  - by rewrite app_nil_r.
  - rewrite cons_middle, app_assoc. by apply IH, pool_ok_spawn.
Qed.

(** A step from outside the pool that owns nothing. *)
Lemma pool_ok_outside ts w w' :
  pool_ok ts w -> Inv w' -> G no_res w w' -> (w_count w <= w_count w')%nat ->
  w_locked w' = w_locked w -> pool_ok ts w'.
Proof.
  intros (HI & hs & Hall & Hc & Ho & Hlock) HI' HG Hn Hl. split; [done|]. exists hs.
  split_and!; [|done| |by rewrite Hl].
  - eapply Forall2_impl; [done|]. intros h p (K & HK & Hst & Hs). exists K.
    split; [|done]. eapply (Hst no_res w w'); try done.
    split; [done|]. intros m _ ?%elem_of_nil. done.
  - intros i a m Ha Hm. specialize (Ho i a m Ha Hm). lia.
Qed.

(** A pool with an unfinished thread can take a step: the holder of the mutex
    never waits for it. *)
Lemma pool_progress ts w i R (e : eff R) k :
  pool_ok ts w -> ts !! i = Some (Vis e k) -> exists ts' w', pstep ts w ts' w'.
Proof.
  intros (HI & hs & Hall & _ & _ & Hlock) Hi.
  destruct (w_locked w) eqn:Hw.
  - destruct (proj1 Hlock eq_refl) as (j & a & Ha & Hheld).
    destruct (Forall2_lookup_l _ _ _ _ _ Hall Ha) as (p & Hp & K & _ & _ & Hs).
    destruct p as [u|R' e' k']; [unfold ends in Hs; simpl in Hs; congruence|].
    destruct Hs as [Hl _]. eexists _, _. apply (pstep_thread ts j _ e' k' w Hp).
    destruct e'; try done. simpl in Hl. congruence.
  - eexists _, _. apply (pstep_thread ts i _ e k w Hi). destruct e; simpl; try done.
    by rewrite Hw.
Qed.

End Rule.
End Pool.

(** ** Termination

    Programs are well-founded trees, so an interleaving of them is finite. *)

Definition child {A} (p' p : prog A) : Prop :=
  match p with Ret _ => False | Vis e k => exists r, p' = k r end.

Lemma child_wf {A} : well_founded (@child A).
Proof.
  intros p. induction p as [a|R e k IH]; constructor.
  - done.
  - intros p' [r ->]. apply IH.
Qed.

(** One element of a list steps. *)
Inductive one_of {X} (R : X -> X -> Prop) : list X -> list X -> Prop :=
| one_here x' x xs : R x' x -> one_of R (x' :: xs) (x :: xs)
| one_there x xs' xs : one_of R xs' xs -> one_of R (x :: xs') (x :: xs).

Lemma one_of_wf {X} (R : X -> X -> Prop) : well_founded R -> well_founded (one_of R).
Proof.
  intros HR xs. induction xs as [|x xs IH]; [constructor; by inversion 1|].
  revert xs IH. induction (HR x) as [x _ IHx]. intros xs Hxs.
  induction Hxs as [xs Hxs IHxs]. constructor. intros xs'. inversion 1; subst.
  - apply IHx; [done|]. by constructor.
  - by apply IHxs.
Qed.

Lemma insert_one_of {X} (R : X -> X -> Prop) xs i x x' :
  xs !! i = Some x -> R x' x -> one_of R (<[i := x']> xs) xs.
Proof.
  revert i. induction xs as [|y xs IH]; intros [|i] Hi Hc; simplify_eq/=; constructor; auto.
Qed.

Lemma pstep_wf {S} `{Store S} E (ts : list (prog unit)) (w : world S) :
  Acc (fun '(ts', w') '(ts, w) => pstep E ts w ts' w') (ts, w).
Proof.
  revert w. induction (one_of_wf _ child_wf ts) as [ts _ IH]. intros w. constructor.
  intros [ts' w'] Hs. inversion Hs; subst. apply IH. eapply insert_one_of; [done|]. by eexists.
Qed.

Lemma finished_or_not (ts : list (prog unit)) :
  Forall (fun p => p = Ret tt) ts \/ exists i R (e : eff R) k, ts !! i = Some (Vis e k).
Proof.
  induction ts as [|p ts [IH|(i & R & e & k & Hi)]]; [by left| |].
  - destruct p as [[]|R e k]; [left; by constructor|right]. by exists 0%nat, R, e, k.
  - right. by exists (Datatypes.S i), R, e, k.
Qed.

(** ** Executing an interleaving *)

Definition turn {S} `{Store S} (E : env) (i : nat) (c : list (prog unit) * world S)
  : list (prog unit) * world S :=
  match c.1 !! i with
  | Some (Vis e k) =>
      if enabled e c.2 then (<[i := k (perform E e c.2).1]> c.1, (perform E e c.2).2) else c
  | _ => c
  end.

Definition turns {S} `{Store S} (E : env) (is_ : list nat) (c : list (prog unit) * world S) :=
  foldl (fun c i => turn E i c) c is_.

Lemma turn_step {S} `{Store S} E i (c : list (prog unit) * world S) :
  turn E i c = c \/ pstep E c.1 c.2 (turn E i c).1 (turn E i c).2.
Proof.
  unfold turn. destruct (c.1 !! i) as [[a|R e k]|] eqn:Hi; [by left| |by left].
  destruct (enabled e c.2) eqn:He; [|by left]. right. by apply pstep_thread.
Qed.

Lemma turns_steps {S} `{Store S} E is_ (c : list (prog unit) * world S) :
  rtc (fun a b => pstep E a.1 a.2 b.1 b.2) c (turns E is_ c).
Proof.
  revert c. induction is_ as [|i is_ IH]; intros c; [apply rtc_refl|].
  unfold turns. simpl. destruct (turn_step E i c) as [Heq|Hs].
  - rewrite Heq. apply IH.
  - eapply rtc_l; [exact Hs|apply IH].
Qed.
