(* ===== verification/Concurrency.v ===== *)
(** * Safety of the scheduler under concurrency

    The goroutines of [drain] ([src/internal/scheduler/scheduler.go]), manual
    triggers and the scheduling loop share the store, the identifier source and
    the mutex that serializes dependent enqueueing.  The invariant below holds in
    every state of every interleaving, for every store that meets the contract,
    whether or not its calls fail.  The channel and the wait group that limit the
    goroutines of a pass are left to [Pass.v]: without them more interleavings are
    possible, and the invariant holds in all of them. *)

From Stdlib Require Import ZArith Lia String.
From stdpp Require Import base list strings gmap.
From S2P Require Import Prelude GoTime GoFloat CronParser Job Store MemoryStore Effects.
From S2P Require Import Worker Dispatcher Scheduler Pool.

#[local] Open Scope string_scope.
#[local] Open Scope list_scope.
#[local] Open Scope Z_scope.

(** ** What one step may do to the database *)

(** The fields of a run that never change. *)
Definition same_ident (r r' : Run) : Prop :=
  run_ID r' = run_ID r /\ run_JobID r' = run_JobID r /\ run_BatchID r' = run_BatchID r
  /\ run_Attempt r' = run_Attempt r.

Lemma same_ident_refl r : same_ident r r.
Proof. done. Qed.
Lemma same_ident_trans r1 r2 r3 : same_ident r1 r2 -> same_ident r2 r3 -> same_ident r1 r3.
Proof. unfold same_ident. intros (?&?&?&?) (?&?&?&?). repeat split; congruence. Qed.
Lemma same_ident_sym r1 r2 : same_ident r1 r2 -> same_ident r2 r1.
Proof. unfold same_ident. intros (?&?&?&?). repeat split; congruence. Qed.

Definition batch_used (d : db) (b : string) : Prop :=
  exists k r, db_runs d !! k = Some r /\ run_BatchID r = b.

(** A first attempt of a job in a batch is stored. *)
Definition rooted (d : db) (id b : string) : Prop :=
  exists k r, db_runs d !! k = Some r /\ run_JobID r = id /\ run_BatchID r = b /\ run_Attempt r = 0.

(** Attempts stay within the retries of their job. *)
Definition attempts_ok (d : db) : Prop :=
  (forall k r, db_runs d !! k = Some r -> 0 <= run_Attempt r)
  /\ (forall k r j, db_runs d !! k = Some r -> db_jobs d !! run_JobID r = Some j ->
        run_Attempt r <= Z.max 0 (job_MaxRetries j))
  /\ (forall k j, db_jobs d !! k = Some j -> job_MaxRetries j <= max_int64).

Section Concurrency.
Context {S : Type} `{Store S} (E : env)
  (Hinj : forall m n, env_id E m = env_id E n -> m = n).
Implicit Types (h : res) (d : db) (w : world S).

(** Jobs and the identity of stored runs are kept.  A new run has an identifier
    that the thread owns; it opens a batch that the thread owns, or it joins an
    existing batch as a retry or under the mutex. *)
Definition grows h d d' : Prop :=
  db_jobs d' = db_jobs d
  /\ (forall k r, db_runs d !! k = Some r ->
        exists r', db_runs d' !! k = Some r' /\ same_ident r r')
  /\ (forall k r, db_runs d' !! k = Some r -> db_runs d !! k = None ->
        (exists m, m ∈ owned h /\ k = env_id E m)
        /\ ((exists m, m ∈ owned h /\ run_BatchID r = env_id E m
               /\ ~ batch_used d (run_BatchID r))
            \/ (batch_used d (run_BatchID r) /\ (1 <= run_Attempt r \/ held h = true)))).

Definition G h w w' : Prop := grows h (w_db w) (w_db w').

(** Identifiers not drawn yet name no run and no batch. *)
Definition unused d (id : string) : Prop := db_runs d !! id = None /\ ~ batch_used d id.

Definition Inv w : Prop :=
  world_ok w
  /\ (forall m, (w_count w <= m)%nat -> unused (w_db w) (env_id E m))
  /\ one_root (w_db w) /\ attempts_ok (w_db w).

Lemma grows_refl h d : grows h d d.
Proof.
  split_and!; [done| |].
  - intros k r Hr. exists r. split; [done|apply same_ident_refl].
  - intros k r Hr Hn. congruence.
Qed.

(** A database in which only the contents of existing runs changed. *)
Definition rewritten d d' : Prop :=
  db_jobs d' = db_jobs d
  /\ (forall k r, db_runs d !! k = Some r ->
        exists r', db_runs d' !! k = Some r' /\ same_ident r r')
  /\ (forall k r', db_runs d' !! k = Some r' ->
        exists r, db_runs d !! k = Some r /\ same_ident r r').

Lemma rewritten_refl d : rewritten d d.
Proof.
  split_and!; [done| |]; intros k r Hr; exists r; (split; [done|apply same_ident_refl]).
Qed.

Lemma rewritten_trans d1 d2 d3 : rewritten d1 d2 -> rewritten d2 d3 -> rewritten d1 d3.
Proof.
  intros (J1 & F1 & B1) (J2 & F2 & B2). split_and!; [congruence| |].
  - intros k r Hr. destruct (F1 k r Hr) as (r2 & Hr2 & ?), (F2 k r2 Hr2) as (r3 & Hr3 & ?).
    eauto using same_ident_trans.
  - intros k r Hr. destruct (B2 k r Hr) as (r2 & Hr2 & ?), (B1 k r2 Hr2) as (r1 & Hr1 & ?).
    eauto using same_ident_trans.
Qed.

Lemma rewritten_put d r x :
  db_runs d !! run_ID r = Some x -> same_ident x r -> rewritten d (put_run d r).
Proof.
  intros Hx Hs. split_and!; [done| |]; intros k y; simpl.
  - intros Hy. destruct (decide (k = run_ID r)) as [->|Hne].
    + rewrite lookup_insert_eq. exists r. split; [done|]. congruence.
    + rewrite lookup_insert_ne by done. exists y. split; [done|apply same_ident_refl].
  - rewrite lookup_insert_Some. intros [[<- <-]|[Hne Hy]]; [eauto|].
    exists y. split; [done|apply same_ident_refl].
Qed.

Lemma rewritten_grows h d d' : rewritten d d' -> grows h d d'.
Proof.
  intros (J & F & B). split_and!; [done|done|]. intros k r Hr Hn.
  destruct (B k r Hr) as (x & Hx & _). congruence.
Qed.

Lemma rewritten_batch d d' b : rewritten d d' -> batch_used d' b -> batch_used d b.
Proof.
  intros (_ & _ & B) (k & r & Hr & Hb). destruct (B k r Hr) as (x & Hx & Hs).
  exists k, x. split; [done|]. destruct Hs as (_ & _ & ? & _). congruence.
Qed.

Lemma Inv_rewritten w w' :
  Inv w -> world_ok w' -> (w_count w <= w_count w')%nat -> rewritten (w_db w) (w_db w') -> Inv w'.
Proof.
  intros (Hok & Hf & Ho & Ha1 & Ha2 & Ha3) Hok' Hc Hr. pose proof Hr as (J & F & B).
  unfold Inv, attempts_ok. split_and!; [done| | | | |].
  - intros m Hm. destruct (Hf m ltac:(lia)) as [Hn Hb]. split.
    + destruct (db_runs (w_db w') !! env_id E m) as [x|] eqn:Ex; [|done].
      destruct (B _ _ Ex) as (y & Hy & _). congruence.
    + intros Hu. by apply Hb, (rewritten_batch _ _ _ Hr).
  - intros k1 k2 r1 r2 H1 H2 Hj Hb A1 A2.
    destruct (B _ _ H1) as (x1 & Hx1 & ? & ? & ? & ?), (B _ _ H2) as (x2 & Hx2 & ? & ? & ? & ?).
    eapply (Ho k1 k2 x1 x2); [done|done|congruence..].
  - intros k r Hk. destruct (B _ _ Hk) as (x & Hx & _ & _ & _ & ->). eauto.
  - intros k r j Hk Hj. destruct (B _ _ Hk) as (x & Hx & _ & Hid & _ & ->).
    apply (Ha2 k x j); [done|]. rewrite <-Hid, <-J. done.
  - intros k j. rewrite J. apply Ha3.
Qed.

(** Creating a run under an unused identifier. *)
Lemma Inv_create w w' r :
  Inv w -> world_ok w' -> (w_count w <= w_count w')%nat -> w_db w' = put_run (w_db w) r ->
  (exists m, (m < w_count w)%nat /\ run_ID r = env_id E m) ->
  db_runs (w_db w) !! run_ID r = None ->
  batch_used (w_db w) (run_BatchID r)
    \/ (exists m, (m < w_count w)%nat /\ run_BatchID r = env_id E m) ->
  (run_Attempt r = 0 -> ~ rooted (w_db w) (run_JobID r) (run_BatchID r)) ->
  0 <= run_Attempt r ->
  (forall j, db_jobs (w_db w) !! run_JobID r = Some j ->
     run_Attempt r <= Z.max 0 (job_MaxRetries j)) ->
  Inv w'.
Proof.
  intros (Hok & Hf & Ho & Ha1 & Ha2 & Ha3) Hok' Hc Hd (mi & Hmi & Hid) Hnone Hbatch Hroot Hpos Hmax.
  unfold Inv, attempts_ok. split_and!; [done|..]; rewrite Hd.
  - intros m Hm. destruct (Hf m ltac:(lia)) as [Hn Hb]. split; simpl.
    + rewrite lookup_insert_ne; [done|]. rewrite Hid. intros Heq%Hinj. lia.
    + intros (k & x & Hx & Hxb). simpl in Hx. rewrite lookup_insert_Some in Hx.
      destruct Hx as [[_ <-]|[_ Hx]]; [|apply Hb; by exists k, x].
      destruct Hbatch as [Hu|(mb & Hmb & Hbe)]; [rewrite Hxb in Hu; done|].
      rewrite Hbe in Hxb. apply Hinj in Hxb. lia.
  - intros k1 k2 r1 r2. simpl. rewrite !lookup_insert_Some.
    intros [[<- <-]|[? H1]] [[<- <-]|[? H2]] Hj Hb A1 A2; [done| | |by eapply Ho].
    + destruct (Hroot A1). exists k2, r2. split_and!; congruence.
    + destruct (Hroot A2). exists k1, r1. split_and!; congruence.
  - intros k x. simpl. rewrite lookup_insert_Some. intros [[_ <-]|[_ Hx]]; eauto.
  - intros k x j. simpl. rewrite lookup_insert_Some. intros [[_ <-]|[_ Hx]]; eauto.
  - done.
Qed.

Lemma grows_create h d r :
  db_runs d !! run_ID r = None ->
  (exists m, m ∈ owned h /\ run_ID r = env_id E m) ->
  (exists m, m ∈ owned h /\ run_BatchID r = env_id E m /\ ~ batch_used d (run_BatchID r))
    \/ (batch_used d (run_BatchID r) /\ (1 <= run_Attempt r \/ held h = true)) ->
  grows h d (put_run d r).
Proof.
  intros Hn Hid Hb. split_and!; [done| |]; intros k x; simpl.
  - intros Hx. exists x. rewrite lookup_insert_ne by congruence.
    split; [done|apply same_ident_refl].
  - rewrite lookup_insert_Some. intros [[<- <-]|[_ Hx]] Hnone; [done|congruence].
Qed.
(** ** Knowledge of a thread *)

Local Abbreviation know := (world S -> Prop).
Local Abbreviation steady h K := (stable Inv G h K).
Local Abbreviation okay h K p Post := (safe E Inv G h K p Post).

(** The run a goroutine works on is stored. *)
Definition stored (r : Run) : know := fun w =>
  exists x, db_runs (w_db w) !! run_ID r = Some x /\ same_ident x r.
Definition job_known (id : string) (j : Job) : know := fun w => db_jobs (w_db w) !! id = Some j.
Definition free_id (n : nat) : know := fun w => unused (w_db w) (env_id E n).
Definition batch_known (b : string) : know := fun w => batch_used (w_db w) b.
Definition unrooted (id b : string) : know := fun w =>
  batch_used (w_db w) b /\ ~ rooted (w_db w) id b.

(** Knowledge that no step invalidates, the thread's own included. *)
Definition lasting (K : know) : Prop := forall h w w', K w -> G h w w' -> K w'.

Lemma lasting_steady h K : lasting K -> steady h K.
Proof. intros HK h' w w' _ _ _ Hw HG. by eapply HK. Qed.

Lemma lasting_stored r : lasting (stored r).
Proof.
  intros h w w' (x & Hx & Hs) (_ & F & _). destruct (F _ _ Hx) as (y & Hy & Hs').
  exists y. split; [done|]. eauto using same_ident_trans, same_ident_sym.
Qed.

Lemma lasting_job id j : lasting (job_known id j).
Proof. intros h w w' Hj (J & _). unfold job_known. by rewrite J. Qed.

Lemma lasting_batch b : lasting (batch_known b).
Proof.
  intros h w w' (k & r & Hr & Hb) (_ & F & _). destruct (F _ _ Hr) as (y & Hy & Hs).
  exists k, y. split; [done|]. destruct Hs as (_ & _ & ? & _). congruence.
Qed.

Lemma lasting_true : lasting (fun _ => True).
Proof. done. Qed.

Lemma lasting_and (K1 K2 : know) : lasting K1 -> lasting K2 -> lasting (fun w => K1 w /\ K2 w).
Proof. intros H1 H2 h w w' [? ?] HG. split; [by eapply H1|by eapply H2]. Qed.

Lemma steady_free h n : n ∈ owned h -> steady h (free_id n).
Proof.
  intros Hn h' w w' [_ Hdis] _ _ [Hnone Hb] (_ & F & N). split.
  - destruct (db_runs (w_db w') !! env_id E n) as [r|] eqn:Er; [|done].
    destruct (N _ _ Er Hnone) as [(m & Hm & Heq) _]. apply Hinj in Heq as ->.
    destruct (Hdis m Hn Hm).
  - intros (k & r & Hr & Hrb). destruct (db_runs (w_db w) !! k) as [x|] eqn:Ex.
    + destruct (F _ _ Ex) as (y & Hy & _ & _ & Heq & _). apply Hb. exists k, x.
      split; [done|]. congruence.
    + destruct (N _ _ Hr Ex) as [_ [(m & Hm & Heq & _)|[Hu _]]].
      * rewrite Hrb in Heq. apply Hinj in Heq as ->. destruct (Hdis m Hn Hm).
      * apply Hb. by rewrite <-Hrb.
Qed.

Lemma steady_unrooted h id b : held h = true -> steady h (unrooted id b).
Proof.
  intros Hh h' w w' Hc Hi Hi' [Hb Hn] HG.
  split; [by eapply lasting_batch|].
  destruct Hc as [Hex _], HG as (_ & F & N). intros (k & r & Hr & Hj & Hrb & Ha).
  destruct (db_runs (w_db w) !! k) as [x|] eqn:Ex.
  - destruct (F _ _ Ex) as (y & Hy & _ & ? & ? & ?). apply Hn. exists k, x.
    rewrite Hr in Hy. injection Hy as <-. split_and!; congruence.
  - destruct (N _ _ Hr Ex) as [_ [(m & _ & _ & Hfresh)|[_ [Hpos|Hheld]]]].
    + apply Hfresh. by rewrite Hrb.
    + lia.
    + rewrite Hex in Hheld; done.
Qed.

Lemma steady_and h (K1 K2 : know) : steady h K1 -> steady h K2 -> steady h (fun w => K1 w /\ K2 w).
Proof.
  intros H1 H2 h' w w' Hc Hi Hi' [? ?] HG.
  split; [by apply (H1 h' w w')|by apply (H2 h' w w')].
Qed.

(** Owning more, or the mutex, keeps knowledge stable. *)
Lemma steady_more h h2 K :
  steady h K -> (held h = true -> held h2 = true) -> (forall m, m ∈ owned h -> m ∈ owned h2) ->
  steady h2 K.
Proof.
  intros Hs Hh Ho h' w w' [Hc1 Hc2]. apply Hs. split; [auto|]. intros m Hm. eauto.
Qed.

Lemma steady_own h n K : steady h K -> steady (mkRes (held h) (n :: owned h)) K.
Proof. intros Hs. eapply steady_more; eauto. intros m Hm. by right. Qed.

(** ** Rules for the effects *)

Lemma compat_none h : compat h no_res.
Proof. split; [done|]. by intros m _ ?%elem_of_nil. Qed.

Lemma steady_same h K w w' :
  steady h K -> Inv w -> Inv w' -> K w -> w_db w' = w_db w -> K w'.
Proof.
  intros Hs Hi Hi' HK Hd. eapply (Hs no_res w w'); [apply compat_none|done..|].
  unfold G. rewrite Hd. apply grows_refl.
Qed.

Lemma Inv_same w w' :
  Inv w -> world_ok w' -> (w_count w <= w_count w')%nat -> w_db w' = w_db w -> Inv w'.
Proof.
  intros Hi Hok Hc Hd. eapply Inv_rewritten; eauto. rewrite Hd. apply rewritten_refl.
Qed.

(** Effects that touch neither the store nor the resources. *)
Definition passive {R} (e : eff R) : bool :=
  match e with Now | Execute _ _ _ | CtxDone | RandFloat | Emit _ => true | _ => false end.

Lemma safe_passive {R} (e : eff R) h K (Post : R -> res -> know -> Prop) :
  passive e = true -> steady h K -> (forall r, Post r h K) -> okay h K (do_eff e) Post.
Proof.
  intros Hp HK HP. split; [by destruct e|]. intros w Hi Hw He Ho. cbv zeta.
  assert (w_db (perform E e w).2 = w_db w) as Hd by (by destruct e).
  assert (Inv (perform E e w).2) as Hi'.
  { eapply Inv_same; eauto; [destruct Hi as [Hok _]; by destruct e|].
    rewrite perform_count. lia. }
  split; [done|]. split; [unfold G; rewrite Hd; apply grows_refl|].
  exists K. split; [by apply (steady_same h K w)|].
  replace (grant h e (w_count w)) with h by (by destruct e). split; [done|apply HP].
Qed.

Lemma safe_newid h K (Post : string -> res -> know -> Prop) :
  steady h K ->
  (forall n, Post (env_id E n) (mkRes (held h) (n :: owned h)) (fun w => K w /\ free_id n w)) ->
  okay h K (do_eff NewID) Post.
Proof.
  intros HK HP. split; [done|]. intros w Hi Hw _ Ho. cbv zeta.
  assert (Inv (perform E NewID w).2) as Hi'.
  { eapply Inv_same; eauto; [by destruct Hi|simpl; lia]. }
  split; [done|]. split; [apply grows_refl|].
  exists (fun w' => K w' /\ free_id (w_count w) w'). split_and!.
  - by apply (steady_same h K w).
  - destruct Hi as (_ & Hf & _). apply Hf. done.
  - apply steady_and; [by apply steady_own|]. apply steady_free. by left.
  - apply HP.
Qed.

Lemma safe_lock h K (Post : unit -> res -> know -> Prop) :
  held h = false -> steady h K -> Post tt (mkRes true (owned h)) K -> okay h K (do_eff Lock) Post.
Proof.
  intros Hh HK HP. split; [done|]. intros w Hi Hw _ _. cbv zeta.
  assert (Inv (perform E Lock w).2) as Hi'.
  { eapply Inv_same; eauto; [by destruct Hi|simpl; lia]. }
  split; [done|]. split; [apply grows_refl|]. exists K.
  split; [by apply (steady_same h K w)|]. split; [|done]. by apply (steady_more h).
Qed.

Lemma safe_unlock h K (Post : unit -> res -> know -> Prop) :
  held h = true -> Post tt (mkRes false (owned h)) (fun _ => True) ->
  okay h K (do_eff Unlock) Post.
Proof.
  intros Hh HP. split; [done|]. intros w Hi Hw _ _. cbv zeta.
  assert (Inv (perform E Unlock w).2) as Hi'.
  { eapply Inv_same; eauto; [by destruct Hi|simpl; lia]. }
  split; [done|]. split; [apply grows_refl|]. by exists (fun _ => True).
Qed.

(** A store call, from what the contract says of it. *)
Lemma safe_call {R} (c : call R) h K (Post : R -> res -> know -> Prop) :
  (forall w r w', Inv w -> K w -> world_ok w' -> (w_count w <= w_count w')%nat ->
     (forall m, m ∈ owned h -> (m < w_count w)%nat) ->
     store_spec fallible c (w_db w) r (w_db w') ->
     Inv w' /\ G h w w' /\ exists K', K' w' /\ steady h K' /\ Post r h K') ->
  okay h K (do_call c) Post.
Proof.
  intros Hc. split; [done|]. intros w Hi Hw _ Ho. cbv zeta.
  pose proof Hi as [Hok _].
  pose proof (handle_ok R c (w_store w) Hok) as H1.
  pose proof (handle_spec R c (w_store w) Hok) as H2.
  simpl. destruct (handle c (w_store w)) as [r s]. simpl in *.
  apply (Hc w r (mkWorld s (Datatypes.S (w_count w)) (w_locked w) (w_metrics w)));
    [done|done|done|simpl; lia|done|done].
Qed.

(** A call that leaves the database alone; [learn] is what its answer tells. *)
Lemma safe_read {R} (c : call R) h K (learn : R -> know) (Post : R -> res -> know -> Prop) :
  (forall d r d', store_spec fallible c d r d' -> d' = d) ->
  (forall w r, Inv w -> K w -> store_spec fallible c (w_db w) r (w_db w) -> learn r w) ->
  steady h K -> (forall r, steady h (learn r)) ->
  (forall r, Post r h (fun w => K w /\ learn r w)) -> okay h K (do_call c) Post.
Proof.
  intros Hsame Hlearn HK Hst HP. apply safe_call. intros w r w' Hi Hw Hok' Hc Ho Hs.
  pose proof (Hsame _ _ _ Hs) as Hd.
  assert (Inv w') as Hi' by (by eapply Inv_same). split; [done|].
  split; [unfold G; rewrite Hd; apply grows_refl|].
  exists (fun w => K w /\ learn r w). rewrite Hd in Hs. split_and!.
  - by apply (steady_same h K w).
  - by eapply steady_same; [..|apply (Hlearn w)|].
  - by apply steady_and.
  - apply HP.
Qed.

Lemma list_runs_reads f d r d' : store_spec fallible (ListRuns f) d r d' -> d' = d.
Proof. by intros [(_ & _ & ?)|(l & _ & _ & _ & ?)]. Qed.
Lemma list_jobs_reads d r d' : store_spec fallible ListJobs d r d' -> d' = d.
Proof. by intros [(_ & _ & ?)|(l & _ & _ & ?)]. Qed.
Lemma get_job_reads id d r d' : store_spec fallible (GetJob id) d r d' -> d' = d.
Proof. by intros [(_ & _ & ?)|(_ & ?)]. Qed.

Lemma safe_list_runs f h K (Post : result store_error (list Run) -> res -> know -> Prop) :
  steady h K -> (forall r, Post r h (fun w => K w /\ True)) -> okay h K (do_call (ListRuns f)) Post.
Proof.
  intros HK HP. apply (safe_read _ _ _ (fun _ _ => True)); auto using lasting_steady, lasting_true.
  apply list_runs_reads.
Qed.

Lemma safe_get_job id h K (Post : result store_error Job -> res -> know -> Prop) :
  steady h K ->
  (forall e, Post (Err e) h (fun w => K w /\ True)) ->
  (forall j, Post (Ok j) h (fun w => K w /\ job_known id j w)) ->
  okay h K (do_call (GetJob id)) Post.
Proof.
  intros HK He Hj.
  apply (safe_read _ _ _ (fun r => match r with Ok j => job_known id j | Err _ => fun _ => True end)).
  - apply get_job_reads.
  - intros w [j|e] _ _ Hs; [|done]. destruct Hs as [(_ & [? [=]] & _)|[Heq _]].
    unfold job_known, found in *. destruct (_ !! id); congruence.
  - done.
  - intros [j|e]; apply lasting_steady; [apply lasting_job|apply lasting_true].
  - intros [j|e]; auto.
Qed.

(** Updating the run a goroutine works on. *)
Lemma safe_update r r' h K (Post : result store_error unit -> res -> know -> Prop) :
  lasting K -> (forall w, K w -> stored r w) -> same_ident r r' ->
  (forall x, Post x h K) -> okay h K (do_call (UpdateRun r')) Post.
Proof.
  intros HK Hst Hid HP. apply safe_call. intros w x w' Hi Hw Hok' Hc _ Hs.
  destruct (Hst w Hw) as (y & Hy & Hyr).
  assert (rewritten (w_db w) (w_db w')) as Hr.
  { destruct Hs as [(_ & _ & ->)|Hs]; [apply rewritten_refl|].
    simpl in Hs. destruct (db_runs (w_db w) !! run_ID r') as [z|] eqn:Ez.
    - destruct Hs as [_ ->]. eapply rewritten_put; [done|].
      destruct Hid as (Hid & ?). rewrite Hid in Ez. rewrite Hy in Ez. injection Ez as <-.
      eapply same_ident_trans; [done|]. by split.
    - destruct Hs as [_ ->]. apply rewritten_refl. }
  assert (Inv w') as Hi' by (by eapply Inv_rewritten). split; [done|].
  assert (forall h, G h w w') as HG by (intros; by apply rewritten_grows).
  split; [done|]. exists K. split_and!; [|by apply lasting_steady|auto]. by apply (HK h w w').
Qed.

(** Creating a run; [Hspec] gives what [Inv_create] and [grows_create] need. *)
Lemma safe_create r h K K0 (Post : result store_error unit -> res -> know -> Prop) :
  lasting K0 -> (forall w, K w -> K0 w) ->
  (forall w, Inv w -> K w ->
     db_runs (w_db w) !! run_ID r = None
     /\ (exists m, m ∈ owned h /\ run_ID r = env_id E m)
     /\ ((exists m, m ∈ owned h /\ run_BatchID r = env_id E m
              /\ ~ batch_used (w_db w) (run_BatchID r))
         \/ (batch_used (w_db w) (run_BatchID r) /\ (1 <= run_Attempt r \/ held h = true)))
     /\ (run_Attempt r = 0 -> ~ rooted (w_db w) (run_JobID r) (run_BatchID r))
     /\ 0 <= run_Attempt r
     /\ (forall j, db_jobs (w_db w) !! run_JobID r = Some j ->
           run_Attempt r <= Z.max 0 (job_MaxRetries j))) ->
  (forall x, Post x h K0) -> okay h K (do_call (CreateRun r)) Post.
Proof.
  intros HK HK0 Hnew HP. apply safe_call. intros w x w' Hi Hw Hok' Hc Ho Hs.
  destruct (Hnew w Hi Hw) as (Hn & (mi & Hmi & Hid) & Hb & Hroot & Hpos & Hmax).
  assert (Inv w' /\ G h w w') as [Hi' HG].
  { destruct Hs as [(_ & _ & Hd)|[_ Hd]].
    - split; [by eapply Inv_same|]. unfold G. rewrite Hd. apply grows_refl.
    - split; [|unfold G; rewrite Hd; apply grows_create; eauto].
      eapply (Inv_create w); eauto.
      destruct Hb as [(mb & Hmb & Hbe & _)|[Hu _]]; [right; eauto|by left]. }
  split; [done|]. split; [done|]. exists K0.
  split; [apply (HK h w w'); auto|]. split; [by apply lasting_steady|done].
Qed.

(** ** The worker *)

Local Abbreviation conv := (env_conv E).

Lemma safe_draw_delay e attempt h K (Post : duration -> res -> know -> Prop) :
  steady h K -> (forall x, Post x h K) -> okay h K (draw_delay conv e attempt) Post.
Proof.
  intros HK HP. apply safe_bind. destruct (fltb f_zero (Backoff.Backoff.Jitter e)).
  - apply safe_passive; [done|done|]. intros u. apply HP.
  - apply HP.
Qed.

Lemma safe_scheduleRetry j r at_ h K (Post : result store_error unit -> res -> know -> Prop) :
  lasting K -> (forall w, K w -> stored r w /\ job_known (run_JobID r) j w) ->
  run_Attempt r < job_MaxRetries j -> held h = false ->
  (forall x h', held h' = false -> Post x h' K) ->
  okay h K (scheduleRetry conv j r at_) Post.
Proof.
  intros HK Hk Ha Hh HP. apply safe_bind, safe_draw_delay; [by apply lasting_steady|].
  intros delay. apply safe_bind, safe_newid; [by apply lasting_steady|]. intros n.
  apply (safe_create _ _ _ K); [done|by intros w [? _]| |intros x; by apply HP].
  intros w Hi [Hw [Hfree _]]. destruct (Hk w Hw) as [(x & Hx & Hid) Hj].
  destruct Hi as (_ & _ & _ & Ha1 & Ha2 & Ha3).
  pose proof (Ha1 _ _ Hx) as Hpos. pose proof (Ha3 _ _ Hj) as Hmax.
  destruct Hid as (Hxid & Hxj & Hxb & Hxa). rewrite <-Hxa in Hpos. cbn.
  rewrite i64_small by (unfold min_int64, two63 in *; lia).
  split_and!; [done|exists n; split; [by left|done]| |lia|lia|].
  - right. split; [|lia]. exists (run_ID r), x. split; [done|congruence].
  - intros j' Hj'. unfold job_known in Hj. rewrite Hj in Hj'. injection Hj' as <-. lia.
Qed.

Lemma safe_process r h K (Post : Run * result store_error unit -> res -> know -> Prop) :
  lasting K -> (forall w, K w -> stored r w) -> held h = false ->
  (forall r' err h' K', held h' = false -> lasting K' -> (forall w, K' w -> K w) ->
     same_ident r r' -> Post (r', err) h' K') ->
  okay h K (process conv r) Post.
Proof.
  intros HK Hst Hh HP. apply safe_bind, safe_get_job; [by apply lasting_steady| |].
  { intros e. apply (HP r); [done| |by intros w [? _]|apply same_ident_refl].
    by apply lasting_and; [|apply lasting_true]. }
  intros j. set (Kj := fun w => K w /\ job_known (run_JobID r) j w).
  assert (lasting Kj) as HKj by (by apply lasting_and; [|apply lasting_job]).
  assert (forall w, Kj w -> K w) as Hweak by (by intros w [? _]).
  assert (forall finish st msg, same_ident r (finish_run r finish st msg)) as Hfin by done.
  pose proof (lasting_steady h Kj HKj) as Hsteady.
  assert (forall finish st msg x, Post (finish_run r finish st msg, x) h Kj) as Hend.
  { intros. apply HP; auto. }
  apply safe_bind, safe_passive; [done..|]. intros start.
  apply safe_bind, safe_passive; [done..|]. intros execErr.
  apply safe_bind, safe_passive; [done..|]. intros [|].
  { apply HP; [done|done|done|apply same_ident_refl]. }
  apply safe_bind, safe_passive; [done..|]. intros finish.
  destruct execErr as [msg|].
  2:{ apply safe_bind, safe_passive; [done..|]. intros _.
      apply safe_bind, (safe_update r); [done|auto|apply Hfin|]. intros x. apply Hend. }
  destruct (run_Attempt r <? job_MaxRetries j) eqn:Hatt.
  2:{ apply safe_bind, safe_passive; [done..|]. intros _.
      apply safe_bind, (safe_update r); [done|auto|apply Hfin|]. intros x. apply Hend. }
  apply safe_bind, (safe_update r); [done|auto|apply Hfin|]. intros [[]|e]; [|apply Hend].
  apply safe_bind, safe_scheduleRetry; [done| |simpl; lia|done|].
  { intros w [Hw Hj]. split; [|done]. destruct (Hst w Hw) as (x & Hx & Hs).
    exists x. split; [done|]. eapply same_ident_trans; [exact Hs|apply Hfin]. }
  intros [[]|e] h' Hh'; [|by apply HP].
  apply safe_bind, safe_passive; [done|by apply lasting_steady|]. intros _.
  apply safe_bind, safe_passive; [done|by apply lasting_steady|]. intros _. by apply HP.
Qed.

(** ** Dependents, under the mutex *)

Lemma safe_deps_loop deps b h :
  forall K (Post : result store_error bool -> res -> know -> Prop),
  lasting K ->
  (forall x K', lasting K' -> (forall w, K' w -> K w) -> Post x h K') ->
  okay h K (deps_loop deps b) Post.
Proof.
  induction deps as [|dep deps IH]; intros K Post HK HP; cbn [deps_loop]; [by apply HP|].
  apply safe_bind, safe_list_runs; [by apply lasting_steady|]. intros x.
  assert (lasting (fun w => K w /\ True)) as HK' by (by apply lasting_and; [|apply lasting_true]).
  destruct x as [runs|e]; [|apply HP; [done|tauto]].
  destruct (negb (hasSucceeded runs)); [apply HP; [done|tauto]|].
  apply IH; [done|]. intros x K' HK'' Hw. apply HP; [done|]. intros w Hw'. by apply Hw.
Qed.

(** An empty listing of a job in a batch: no first attempt is stored. *)
Lemma list_batch_unrooted id b d x :
  keyed d -> store_spec fallible (ListRuns (by_batch id b)) d (Ok x) d -> x = [] ->
  ~ rooted d id b.
Proof.
  intros Hk [(_ & [? [=]] & _)|(l & Heq & Hl & _)] -> (k & r & Hr & Hj & Hb & _).
  injection Heq as Heq. rewrite page_no_limit in Heq by done. subst l.
  assert (r ∈ @nil Run) as Hin; [|by apply elem_of_nil in Hin].
  apply (elem_of_matching _ _ _ _ Hk Hl). rewrite (keyed_run _ _ _ Hk Hr). split; [done|].
  unfold matches. simpl. rewrite Hj, Hb, !String.eqb_refl, !orb_true_r. done.
Qed.

Lemma safe_enqueueDependent completed now j h K
    (Post : result store_error unit -> res -> know -> Prop) :
  lasting K -> (forall w, K w -> batch_used (w_db w) (run_BatchID completed)) ->
  held h = true ->
  (forall x h' K', held h' = true -> lasting K' -> (forall w, K' w -> K w) -> Post x h' K') ->
  okay h K (enqueueDependent completed now j) Post.
Proof.
  intros HK Hb Hh HP. unfold enqueueDependent.
  destruct (negb (contains _ _)); [by apply HP|].
  apply safe_bind, safe_deps_loop; [done|]. intros [ready|e] K1 HK1 Hw1; [|by apply HP].
  destruct (negb ready); [by apply HP|].
  apply safe_bind, (safe_read _ _ _ (fun x => match x with
    | Ok [] => unrooted (job_ID j) (run_BatchID completed) | _ => fun _ => True end)).
  - apply list_runs_reads.
  - intros w [[|y x]|e] Hi Hw Hs; try done. split; [auto|].
    eapply list_batch_unrooted; [|done|done]. destruct Hi as [Hok _]. by apply store_keyed.
  - by apply lasting_steady.
  - intros [[|y x]|e]; try apply lasting_steady, lasting_true. by apply steady_unrooted.
  - assert (lasting (fun w => K1 w /\ True)) as HK1'
      by (by apply lasting_and; [|apply lasting_true]).
    intros [[|y x]|e]; cbn [length Nat.ltb Nat.leb].
    + apply safe_bind, safe_newid.
      { apply steady_and; [by apply lasting_steady|by apply steady_unrooted]. }
      intros n. apply (safe_create _ _ _ K1); [done|by intros w [[? _] _]| |].
      * intros w Hi [[Hw [Hu Hr]] [Hfree _]]. cbn.
        split_and!; [done|exists n; split; [by left|done]|right; auto|done|done|].
        intros j' _. lia.
      * intros x. by apply HP.
    + apply HP; [done|done|]. intros w [? _]. auto.
    + apply HP; [done|done|]. intros w [? _]. auto.
Qed.

Lemma safe_dependents_loop completed now jobs :
  forall h K (Post : result store_error unit -> res -> know -> Prop),
  lasting K -> (forall w, K w -> batch_used (w_db w) (run_BatchID completed)) ->
  held h = true ->
  (forall x h' K', held h' = true -> lasting K' -> (forall w, K' w -> K w) -> Post x h' K') ->
  okay h K (dependents_loop completed now jobs) Post.
Proof.
  induction jobs as [|j jobs IH]; intros h K Post HK Hb Hh HP; cbn [dependents_loop];
    [by apply HP|].
  apply safe_bind, safe_enqueueDependent; [done..|].
  intros [x|e] h1 K1 Hh1 HK1 Hw1; [|by apply HP].
  apply IH; [done|auto|done|]. intros y h2 K2 Hh2 HK2 Hw2. apply HP; auto.
Qed.

Lemma safe_enqueueDependents completed now h K
    (Post : result store_error unit -> res -> know -> Prop) :
  lasting K -> (forall w, K w -> batch_used (w_db w) (run_BatchID completed)) ->
  held h = true ->
  (forall x h' K', held h' = true -> lasting K' -> (forall w, K' w -> K w) -> Post x h' K') ->
  okay h K (enqueueDependents completed now) Post.
Proof.
  intros HK Hb Hh HP. apply safe_bind, (safe_read _ _ _ (fun _ _ => True)).
  - apply list_jobs_reads.
  - done.
  - by apply lasting_steady.
  - intros r. apply lasting_steady, lasting_true.
  - assert (lasting (fun w => K w /\ True)) as HK' by (by apply lasting_and; [|apply lasting_true]).
    intros [jobs|e]; [|apply HP; [done|done|tauto]].
    apply safe_dependents_loop; [done|intros w [? _]; auto|done|].
    intros x h' K' Hh' HK'' Hw. apply HP; [done|done|]. intros w Hw'. by apply Hw.
Qed.

(** ** The threads *)

Lemma stored_batch r w : stored r w -> batch_used (w_db w) (run_BatchID r).
Proof. intros (x & Hx & _ & _ & Hb & _). exists (run_ID r), x. split; [done|congruence]. Qed.

Lemma safe_goroutine r h :
  held h = false -> okay h (stored r) (goroutine conv r) ends.
Proof.
  intros Hh. apply safe_bind, safe_process; [apply lasting_stored|done|done|].
  intros r' [[]|e] h1 K1 Hh1 HK1 Hw1 Hid; [|done].
  destruct (String.eqb (run_State r') StateSucceeded); [|done].
  apply safe_bind, safe_lock; [done|by apply lasting_steady|].
  apply safe_bind, safe_passive; [done|by apply lasting_steady|]. intros now.
  apply safe_bind, safe_enqueueDependents; [done| |done|].
  - intros w Hw. destruct Hid as (_ & _ & Hb & _). rewrite Hb. by apply stored_batch, Hw1.
  - intros x h2 K2 Hh2 _ _. by apply safe_unlock.
Qed.

(** A first attempt in a batch of its own. *)
Lemma safe_create_root n1 n2 id t h K K0 (Post : result store_error unit -> res -> know -> Prop) :
  n1 ∈ owned h -> n2 ∈ owned h -> lasting K0 -> (forall w, K w -> K0 w) ->
  (forall w, K w -> free_id n1 w /\ free_id n2 w) -> (forall x, Post x h K0) ->
  okay h K (do_call (CreateRun (pending_run (env_id E n1) id (env_id E n2) 0 t t))) Post.
Proof.
  intros H1 H2 HK0 Hw Hfree HP. apply (safe_create _ _ _ K0); [done|done| |done].
  intros w Hi HK. destruct (Hfree w HK) as [[Hn1 _] [_ Hn2]]. cbn.
  split_and!; [done|by exists n1|left; by exists n2| |done|intros; lia].
  intros _ (k & r & Hr & _ & Hb & _). apply Hn2. by exists k, r.
Qed.

Lemma safe_trigger id h :
  held h = false -> okay h (fun _ => True) (let* _ := Trigger id in Ret tt) ends.
Proof.
  intros Hh. pose proof (lasting_steady h _ lasting_true) as HT.
  apply safe_bind, safe_bind, safe_get_job; [done|by intros e|]. intros j.
  assert (steady h (fun w => True /\ job_known id j w)) as HK
    by (apply lasting_steady, lasting_and; [done|apply lasting_job]).
  apply safe_bind, safe_passive; [done|done|]. intros now.
  apply safe_bind, safe_newid; [done|]. intros n1.
  apply safe_bind, safe_newid.
  { apply steady_and; [by apply steady_own|]. apply steady_free. by left. }
  intros n2. apply safe_bind, (safe_create_root n1 n2 _ _ _ _ (fun _ => True)).
  - by right; left.
  - by left.
  - done.
  - done.
  - by intros w [[_ ?] ?].
  - by intros [x|e].
Qed.

Lemma safe_enqueueRoot j t h (Post : result store_error unit -> res -> know -> Prop) :
  held h = false ->
  (forall x h' K', held h' = false -> lasting K' -> Post x h' K') ->
  forall K, lasting K -> okay h K (enqueueRoot j t) Post.
Proof.
  intros Hh HP K HK. apply safe_bind, safe_list_runs; [by apply lasting_steady|].
  assert (lasting (fun w => K w /\ True)) as HK' by (by apply lasting_and; [|apply lasting_true]).
  intros [l|e]; [|by apply HP]. destruct (existsb _ l); [by apply HP|].
  apply safe_bind, safe_newid; [by apply lasting_steady|]. intros n1.
  apply safe_bind, safe_newid.
  { apply steady_and; [by apply lasting_steady|]. apply steady_free. by left. }
  intros n2. apply (safe_create_root n1 n2 _ _ _ _ (fun _ => True)).
  - by right; left.
  - by left.
  - done.
  - done.
  - by intros w [[_ ?] ?].
  - intros x. by apply HP.
Qed.

Lemma safe_fire_loop sched now j fuel :
  forall next created h K (Post : option (Z * result store_error time) -> res -> know -> Prop),
  held h = false -> lasting K ->
  (forall x h' K', held h' = false -> lasting K' -> Post x h' K') ->
  okay h K (fire_loop fuel j sched now next created) Post.
Proof.
  induction fuel as [|fuel IH]; intros next created h K Post Hh HK HP; cbn [fire_loop];
    (destruct (After next now); [by apply HP|]); [by apply HP|].
  apply safe_bind, safe_enqueueRoot; [done| |done].
  intros [x|e] h1 K1 Hh1 HK1; [|by apply HP].
  destruct (ScheduleNext sched next); [|by apply HP]. by apply IH.
Qed.

Lemma safe_dispatch_jobs fuel now jobs :
  forall created (dp : dispatcher) h K
    (Post : option (Z * result store_error unit * dispatcher) -> res -> know -> Prop),
  held h = false -> lasting K ->
  (forall x h' K', held h' = false -> lasting K' -> Post x h' K') ->
  okay h K (dispatch_jobs fuel now jobs created dp) Post.
Proof.
  induction jobs as [|j jobs IH]; intros created dp h K Post Hh HK HP; cbn [dispatch_jobs];
    [by apply HP|].
  destruct (_ || _); [by apply IH|].
  destruct (schedule dp j) as [[sched|e] d1]; [|by apply IH].
  destruct (nextFire d1 !! job_ID j) as [next|].
  - apply safe_bind, safe_fire_loop; [done..|].
    intros [[n [t|e]]|] h1 K1 Hh1 HK1; [by apply IH|by apply HP..].
  - destruct (ScheduleNext sched now); [by apply IH|by apply HP].
Qed.

Lemma safe_dispatch fuel now (dp : dispatcher) h :
  held h = false -> okay h (fun _ => True) (let* _ := dispatch fuel now dp in Ret tt) ends.
Proof.
  intros Hh. apply safe_bind, safe_bind, (safe_read _ _ _ (fun _ _ => True)).
  - apply list_jobs_reads.
  - done.
  - apply lasting_steady, lasting_true.
  - intros r. apply lasting_steady, lasting_true.
  - intros [jobs|e]; [|done].
    apply safe_dispatch_jobs; [done|apply lasting_and; apply lasting_true|]. done.
Qed.

(** ** Claims *)

Lemma rewritten_claims now worker lease d l :
  Forall (fun x => db_runs d !! run_ID x = Some x) l ->
  rewritten d (put_runs d (map (claim now worker lease) l)).
Proof.
  assert (forall d0, rewritten d d0 -> Forall (fun x => db_runs d !! run_ID x = Some x) l ->
    rewritten d (put_runs d0 (map (claim now worker lease) l))) as Hgen.
  { induction l as [|x l IH]; intros d0 Hd0 Hl; [done|]. apply Forall_cons in Hl as [Hx Hl].
    simpl. apply IH; [|done]. eapply rewritten_trans; [exact Hd0|].
    destruct Hd0 as (_ & F & _). destruct (F _ _ Hx) as (y & Hy & Hs).
    apply (rewritten_put _ _ y); [done|]. by apply same_ident_sym. }
  apply Hgen, rewritten_refl.
Qed.

(** A successful claim rewrites runs and its result is stored. *)
Lemma claim_stored now worker lease limit w w' l :
  Inv w -> store_spec fallible (ClaimDue now worker lease limit) (w_db w) (Ok l) (w_db w') ->
  rewritten (w_db w) (w_db w') /\ Forall (fun r => stored r w') l.
Proof.
  intros Hi [(_ & [? [=]] & _)|(l0 & [= ->] & Hnd & Hl0 & _ & Hd)]. split.
  - rewrite Hd. apply rewritten_claims. eapply Forall_impl; [exact Hl0|]. by intros x [? _].
  - apply Forall_forall. intros r Hr. exists r. split; [|apply same_ident_refl].
    rewrite Hd. apply put_runs_elem; [|done]. by rewrite map_claim_ids.
Qed.

Lemma safe_backlog now h :
  held h = false -> okay h (fun _ => True) (publishBacklog now) ends.
Proof.
  intros Hh. assert (steady h (fun _ => True /\ True)) as HT
    by (apply lasting_steady, lasting_and; apply lasting_true).
  apply safe_bind, safe_list_runs; [apply lasting_steady, lasting_true|].
  intros [l|e]; [|done]. apply safe_bind, safe_passive; [done|done|]. intros _.
  cbv beta zeta. destruct (IsZero _); by apply safe_passive.
Qed.

(** ** The running system

    Goroutines take steps in any order; at any moment a trigger may arrive, the
    loop may dispatch or publish the backlog, and a claim starts a goroutine for
    each claimed run.  The scheduler's loop does the last three in turn and waits
    for the goroutines of a pass, which are some of these behaviours. *)
Inductive sys_step : list (prog unit) -> world S -> list (prog unit) -> world S -> Prop :=
| sys_thread ts w ts' w' : pstep E ts w ts' w' -> sys_step ts w ts' w'
| sys_trigger ts w id : sys_step ts w (ts ++ [let* _ := Trigger id in Ret tt]) w
| sys_dispatch ts w fuel now dp :
    sys_step ts w (ts ++ [let* _ := dispatch fuel now dp in Ret tt]) w
| sys_backlog ts w now : sys_step ts w (ts ++ [publishBacklog now]) w
| sys_claim ts w now worker lease limit claimed w' :
    perform E (OnStore (ClaimDue now worker lease limit)) w = (Ok claimed, w') ->
    sys_step ts w (ts ++ map (goroutine conv) claimed) w'.

Inductive reachable (w0 : world S) : list (prog unit) -> world S -> Prop :=
| reach_start : reachable w0 [] w0
| reach_step ts w ts' w' : reachable w0 ts w -> sys_step ts w ts' w' -> reachable w0 ts' w'.

(** A store with jobs and no run yet. *)
Definition initial (w : world S) : Prop :=
  world_ok w /\ w_locked w = false /\ db_runs (w_db w) = ∅
  /\ forall k j, db_jobs (w_db w) !! k = Some j -> job_MaxRetries j <= max_int64.

Lemma initial_pool w : initial w -> pool_ok E Inv G [] w.
Proof.
  intros (Hok & Hl & Hr & Hj). split.
  - unfold Inv, attempts_ok, one_root, unused, batch_used. rewrite Hr.
    split_and!; [done|..|done].
    + intros m _. split; [apply lookup_empty|]. intros (k & r & Hk & _).
      by rewrite lookup_empty in Hk.
    + intros k1 k2 r1 r2 Hk. by rewrite lookup_empty in Hk.
    + intros k r Hk. by rewrite lookup_empty in Hk.
    + intros k r j Hk. by rewrite lookup_empty in Hk.
  - exists []. split_and!; [constructor|done|done|]. rewrite Hl. split; [done|].
    by intros (i & a & Ha & _).
Qed.

Lemma thread_any (p : prog unit) w :
  okay no_res (fun _ => True) p ends -> thread_ok E Inv G w no_res p.
Proof.
  intros Hp. exists (fun _ => True). split_and!; [done| |done].
  apply lasting_steady, lasting_true.
Qed.

Lemma thread_goroutine r w : stored r w -> thread_ok E Inv G w no_res (goroutine conv r).
Proof.
  intros Hr. exists (stored r). split_and!; [done|apply lasting_steady, lasting_stored|].
  by apply safe_goroutine.
Qed.

(** A claim keeps the pool, and stores what it returns. *)
Lemma pool_ok_claim ts w now worker lease limit claimed w' :
  perform E (OnStore (ClaimDue now worker lease limit)) w = (Ok claimed, w') ->
  pool_ok E Inv G ts w -> pool_ok E Inv G ts w' /\ Forall (fun r => stored r w') claimed.
Proof.
  intros Hc Hp. pose proof Hp as [Hi _]. pose proof Hi as [Hok _].
  pose proof (handle_ok _ (ClaimDue now worker lease limit) (w_store w) Hok) as Hok'.
  pose proof (handle_spec _ (ClaimDue now worker lease limit) (w_store w) Hok) as Hspec.
  simpl in Hc. destruct (handle _ (w_store w)) as [r s]. injection Hc as -> <-. simpl in Hspec.
  set (w' := mkWorld s _ _ _).
  destruct (claim_stored now worker lease limit w w' claimed Hi Hspec) as [Hrw Hst].
  split; [|done]. eapply (pool_ok_outside _ _ _ _ w w'); [done| | |simpl; lia|done].
  - eapply (Inv_rewritten w w'); [done|done|simpl; lia|done].
  - by apply rewritten_grows.
Qed.

Lemma pool_ok_sys ts w ts' w' :
  sys_step ts w ts' w' -> pool_ok E Inv G ts w -> pool_ok E Inv G ts' w'.
Proof.
  intros Hs Hp. destruct Hs as [ts w ts' w' Hs|ts w id|ts w fuel now dp|ts w now
                               |ts w now worker lease limit claimed w' Hc].
  - by eapply pool_ok_step.
  - by apply pool_ok_spawn, thread_any, safe_trigger.
  - by apply pool_ok_spawn, thread_any, safe_dispatch.
  - by apply pool_ok_spawn, thread_any, safe_backlog.
  - destruct (pool_ok_claim _ _ _ _ _ _ _ _ Hc Hp) as [Hp' Hst]. apply pool_ok_spawns; [done|].
    apply Forall_fmap. eapply Forall_impl; [exact Hst|]. intros x. apply thread_goroutine.
Qed.

Lemma reachable_pool w0 ts w : initial w0 -> reachable w0 ts w -> pool_ok E Inv G ts w.
Proof.
  intros H0. induction 1; [by apply initial_pool|]. by eapply pool_ok_sys.
Qed.

(** ** Main theorems *)

(** C1: in every state that any interleaving of goroutines, dispatches, claims
    and triggers reaches from a store without runs, whether or not store calls
    fail, a job has at most one first attempt per batch, and the attempt number
    of every run is within the retries of its job. *)
Theorem concurrent_runs_safe (w0 w : world S) (ts : list (prog unit)) :
  initial w0 -> reachable w0 ts w ->
  one_root (w_db w) /\ attempts_ok (w_db w) /\ keyed (w_db w).
Proof.
  intros H0 Hr. destruct (reachable_pool w0 ts w H0 Hr) as [(Hok & _ & Ho & Ha) _].
  split_and!; [done|done|]. by apply store_keyed.
Qed.

End Concurrency.

(** ** Witnesses and a limit

    A pipeline: "c" runs after "a" and "b". *)

Definition sink_job : Job := mkJob "c" "" "" [] 2 zero_policy ["a"; "b"] 0 true zero_time zero_time.

Definition pipeline : Memory.state :=
  (Memory.PutJob sink_job (Memory.PutJob (cron_job "b" "")
     (Memory.PutJob (cron_job "a" "") Memory.New).2).2).2.

Lemma pipeline_ok : Memory.mem_ok pipeline.
Proof.
  apply (Memory.methods_ok _ (PutJob sink_job)), (Memory.methods_ok _ (PutJob (cron_job "b" ""))),
    (Memory.methods_ok _ (PutJob (cron_job "a" ""))), Memory.New_ok.
Qed.

Definition pipeline_world : world Memory.state := mkWorld pipeline 0 false [].

Lemma pipeline_initial : initial pipeline_world.
Proof.
  split; [apply pipeline_ok|]. split; [done|]. split; [done|].
  intros k j Hj. cbn in Hj. rewrite !lookup_insert_Some, lookup_empty in Hj.
  destruct Hj as [[_ <-]|[_ [[_ <-]|[_ [[_ <-]|[_ [=]]]]]]]; vm_compute; discriminate.
Qed.

(** Two triggers of "a" interleaved, then a claim. *)
Definition two_triggers : list (prog unit) :=
  [let* _ := Trigger "a" in Ret tt; let* _ := Trigger "a" in Ret tt].

Lemma reachable_steps {S} `{Store S} E w0 (c c' : list (prog unit) * world S) :
  reachable E w0 c.1 c.2 -> rtc (fun a b => pstep E a.1 a.2 b.1 b.2) c c' ->
  reachable E w0 c'.1 c'.2.
Proof. intros Hr. induction 1 as [|a b c' Hs _ IH]; [done|]. apply IH. by eapply reach_step, sys_thread. Qed.

Definition triggered := turns calm_env [0; 1; 1; 0; 0; 1; 0; 1; 0; 1]%nat (two_triggers, pipeline_world).

Lemma triggered_reachable : reachable calm_env pipeline_world triggered.1 triggered.2.
Proof.
  apply (reachable_steps calm_env pipeline_world (two_triggers, pipeline_world)).
  - apply (reach_step _ _ [let* _ := Trigger "a" in Ret tt] pipeline_world).
    + apply (reach_step _ _ [] pipeline_world); [apply reach_start|].
      apply (sys_trigger calm_env [] pipeline_world "a").
    + apply (sys_trigger calm_env [let* _ := Trigger "a" in Ret tt] pipeline_world "a").
  - apply turns_steps.
Qed.

Lemma concurrent_runs_safe_witness :
  one_root (w_db triggered.2) /\ size (db_runs (w_db triggered.2)) = 2%nat.
Proof.
  split.
  - apply (concurrent_runs_safe (H := Memory.store) calm_env tally_inj pipeline_world
             triggered.2 triggered.1).
    + apply pipeline_initial.
    + apply triggered_reachable.
  - vm_compute. reflexivity.
Defined.

(** Batch "B" of the pipeline with both upstreams finished. *)
Definition finished (id jobID : string) : Run :=
  mkRun id jobID "B" StateSucceeded 0 1 (Some 1) (Some 2) 30 "w" "" 1 2.

Definition two_nodes : list (prog unit) :=
  [let* _ := enqueueDependents (finished "ra" "a") 5 in Ret tt;
   let* _ := enqueueDependents (finished "rb" "b") 5 in Ret tt].

Definition both_done : world Memory.state :=
  mkWorld (Memory.CreateRun (finished "rb" "b")
             (Memory.CreateRun (finished "ra" "a") pipeline).2).2 0 false [].

(** C39: the mutex is needed, and it does not reach across processes.  Two
    schedulers that share a store and each enqueue the dependents of one of two
    upstreams, each under its own mutex, can both create the first attempt of the
    common dependent. *)
Theorem two_processes_duplicate_dependents :
  exists ts w, rtc (fun a b => pstep calm_env a.1 a.2 b.1 b.2) (two_nodes, both_done) (ts, w)
    /\ ts = [Ret tt; Ret tt] /\ one_root (w_db both_done) /\ ~ one_root (w_db w).
Proof.
  set (c := turns calm_env [0; 0; 0; 0; 1; 1; 1; 1; 0; 0; 1; 1]%nat (two_nodes, both_done)).
  exists c.1, c.2. split_and!.
  - rewrite <-surjective_pairing. apply turns_steps.
  - vm_compute. reflexivity.
  - intros k1 k2 r1 r2 H1 H2. cbn in H1, H2.
    rewrite !lookup_insert_Some, lookup_empty in H1, H2.
    destruct H1 as [[<- <-]|[_ [[<- <-]|[_ [=]]]]]; destruct H2 as [[<- <-]|[_ [[<- <-]|[_ [=]]]]];
      done.
  - intros Ho. specialize (Ho (tally 8) (tally 10)).
    assert (tally 8 <> tally 10) as Hne by (intros Heq%tally_inj; done). apply Hne.
    eapply Ho; vm_compute; reflexivity.
Qed.
