(* ===== verification/Pass.v ===== *)
(** * The worker pool of a pass

    The concurrent half of [drain] ([src/internal/scheduler/scheduler.go], lines
    141 to 172): the coordinator starts a goroutine per claimed run, never more
    at once than the buffer of the channel [sem] has room for, and waits for the
    wait group [wg].  The coordinator is a list of statements; a goroutine is its
    body together with the calls it has deferred, which run in the order of the
    list once the body has returned.  Goroutines interleave with each other, with
    the coordinator, with the programs that were running when the pass began and
    with manual triggers that arrive meanwhile. *)

From Stdlib Require Import ZArith Lia String Wellfounded.
From stdpp Require Import base list strings gmap relations.
From S2P Require Import Prelude GoTime GoFloat CronParser Job Store MemoryStore Effects.
From S2P Require Import Worker Dispatcher Scheduler Pool Concurrency.

#[local] Open Scope string_scope.
#[local] Open Scope list_scope.
#[local] Open Scope Z_scope.

(** ** Coordinator and goroutines *)

(** The deferred calls [<-sem] and [wg.Done()]. *)
Inductive deferred_call := SemReceive | WgDone.

#[export] Instance deferred_call_eq_dec : EqDecision deferred_call.
Proof. solve_decision. Defined.

(** [wg.Add(1)], [sem <- struct{}{}], [go func(run) ...(r)] and [wg.Wait()]. *)
Inductive stmt := WgAdd | SemSend | Go (r : Run) | WgWait.

Fixpoint start_loop (claimed : list Run) : list stmt :=
  match claimed with
  | [] => [WgWait]
  | r :: claimed => WgAdd :: SemSend :: Go r :: start_loop claimed
  end.

Definition drain_code (claimed : list Run) : list stmt :=
  match claimed with
  | [] => []
  | _ => start_loop claimed
  end.

(** A thread of the process; [t_run] is the run of a goroutine of the pass. *)
Record thread := mkThread {
  t_run : option Run;
  t_body : prog unit;
  t_deferred : list deferred_call
}.

Definition other (p : prog unit) : thread := mkThread None p [].

(** [defer wg.Done()] comes before [defer func() { <-sem }()], so it runs last. *)
Definition spawned (conv : float64 -> Z) (r : Run) : thread :=
  mkThread (Some r) (goroutine conv r) [SemReceive; WgDone].

(** The statements left to the coordinator, the threads, the number of elements
    in [sem] and the counter of [wg]. *)
Record pass := mkPass {
  p_main : list stmt;
  p_threads : list thread;
  p_sem : Z;
  p_wg : Z
}.

Definition pass_start (ts : list (prog unit)) (claimed : list Run) : pass :=
  mkPass (drain_code claimed) (map other ts) 0 0.

(** A goroutine whose body has not returned. *)
Definition busy (t : thread) : Z :=
  match t_run t, t_body t with Some _, Vis _ _ => 1 | _, _ => 0 end.

Definition defers (d : deferred_call) (t : thread) : Z := Z.b2z (bool_decide (d ∈ t_deferred t)).

Definition total (f : thread -> Z) (l : list thread) : Z := foldr (fun t n => f t + n) 0 l.

Definition over (t : thread) : Prop := t_body t = Ret tt /\ t_deferred t = [].

Section Pass.
Context {S : Type} `{Store S} (E : env) (workers : Z).

(** A send blocks while the buffer is full, a receive while it is empty, and
    [Wait] while the counter is not zero; [Done] on a counter of zero would
    panic and is no step. *)
Inductive pass_step : pass -> world S -> pass -> world S -> Prop :=
| pass_thread m ts sem wg w i r R (e : eff R) k ds :
    ts !! i = Some (mkThread r (Vis e k) ds) -> enabled e w = true ->
    pass_step (mkPass m ts sem wg) w
      (mkPass m (<[i := mkThread r (k (perform E e w).1) ds]> ts) sem wg) (perform E e w).2
| pass_receive m ts sem wg w i r ds :
    ts !! i = Some (mkThread r (Ret tt) (SemReceive :: ds)) -> 0 < sem ->
    pass_step (mkPass m ts sem wg) w (mkPass m (<[i := mkThread r (Ret tt) ds]> ts) (sem - 1) wg) w
| pass_done m ts sem wg w i r ds :
    ts !! i = Some (mkThread r (Ret tt) (WgDone :: ds)) -> 0 < wg ->
    pass_step (mkPass m ts sem wg) w (mkPass m (<[i := mkThread r (Ret tt) ds]> ts) sem (wg - 1)) w
| pass_add m ts sem wg w :
    pass_step (mkPass (WgAdd :: m) ts sem wg) w (mkPass m ts sem (wg + 1)) w
| pass_send m ts sem wg w :
    sem < workers ->
    pass_step (mkPass (SemSend :: m) ts sem wg) w (mkPass m ts (sem + 1) wg) w
| pass_go r m ts sem wg w :
    pass_step (mkPass (Go r :: m) ts sem wg) w
      (mkPass m (ts ++ [spawned (env_conv E) r]) sem wg) w
| pass_wait m ts sem w :
    pass_step (mkPass (WgWait :: m) ts sem 0) w (mkPass m ts sem 0) w.

(** A pass under way: its steps, and triggers that arrive. *)
Inductive pass_reach (s0 : pass) (w0 : world S) : pass -> world S -> Prop :=
| reach_pass : pass_reach s0 w0 s0 w0
| reach_pass_step s w s' w' :
    pass_reach s0 w0 s w -> pass_step s w s' w' -> pass_reach s0 w0 s' w'
| reach_pass_trigger m ts sem wg w id :
    pass_reach s0 w0 (mkPass m ts sem wg) w ->
    pass_reach s0 w0 (mkPass m (ts ++ [other (let* _ := Trigger id in Ret tt)]) sem wg) w.
End Pass.

(** ** Counting *)

Lemma total_app f l1 l2 : total f (l1 ++ l2) = total f l1 + total f l2.
Proof. induction l1 as [|t l1 IH]; simpl; lia. Qed.

Lemma total_insert f l i t t' :
  l !! i = Some t -> total f (<[i := t']> l) = total f l - f t + f t'.
Proof.
  revert i. induction l as [|x l IH]; intros [|i] Hi; simplify_eq/=; [lia|].
  rewrite (IH i Hi). lia.
Qed.

Lemma total_le f g l : Forall (fun t => f t <= g t) l -> total f l <= total g l.
Proof. induction 1; simpl; lia. Qed.

Lemma total_pos f l i t :
  (forall t, 0 <= f t) -> l !! i = Some t -> 0 < f t -> 0 < total f l.
Proof.
  intros Hf. assert (forall l, 0 <= total f l) as Hnn
    by (intros l'; induction l' as [|x l' IH]; simpl; [lia|specialize (Hf x); lia]).
  revert i. induction l as [|x l IH]; intros [|i] Hi Ht; simplify_eq/=.
  - specialize (Hnn l). lia.
  - specialize (IH i Hi Ht). specialize (Hf x). lia.
Qed.

Lemma total_zero f l : Forall (fun t => f t = 0) l -> total f l = 0.
Proof. induction 1; simpl; lia. Qed.

Lemma defers_pos d t : 0 <= defers d t.
Proof. unfold defers. destruct (bool_decide _); simpl; lia. Qed.

(** ** The invariant of a pass *)

(** What the coordinator may have left: its share of [sem] and of [wg] for a
    goroutine that it has not started yet, and the runs without a goroutine. *)
Inductive coordinator : list stmt -> Z -> Z -> list Run -> Prop :=
| at_return : coordinator [] 0 0 []
| at_loop rs : coordinator (start_loop rs) 0 0 rs
| at_send r rs : coordinator (SemSend :: Go r :: start_loop rs) 0 1 (r :: rs)
| at_go r rs : coordinator (Go r :: start_loop rs) 1 1 (r :: rs).

(** A goroutine makes its deferred calls after its body, in order. *)
Definition thread_shape (t : thread) : Prop :=
  match t_run t with
  | None => t_deferred t = []
  | Some _ =>
      t_deferred t = [SemReceive; WgDone]
      \/ ((t_deferred t = [WgDone] \/ t_deferred t = []) /\ t_body t = Ret tt)
  end.

Lemma busy_defers t : thread_shape t -> busy t <= defers SemReceive t.
Proof.
  unfold thread_shape, busy, defers. destruct t as [[r|] p ds]; simpl; [|intros ->].
  - intros [->|[[-> | ->] ->]]; simpl; [|lia..]. destruct p; simpl; lia.
  - simpl. lia.
Qed.

Section Invariant.
Context {S : Type} `{Store S} (E : env)
  (Hinj : forall m n, env_id E m = env_id E n -> m = n) (workers : Z) (claimed : list Run).

Record pass_inv (s : pass) (w : world S) : Prop := mkPassInv {
  pi_pool : pool_ok E (Inv E) (G E) (map t_body (p_threads s)) w;
  pi_threads : Forall thread_shape (p_threads s);
  pi_main : exists a b rs, coordinator (p_main s) a b rs
    /\ omap t_run (p_threads s) ++ rs = claimed
    /\ Forall (fun r => stored r w) rs
    /\ p_sem s = total (defers SemReceive) (p_threads s) + a
    /\ p_wg s = total (defers WgDone) (p_threads s) + b;
  pi_sem : p_sem s <= workers;
  pi_wait : p_main s = [] -> p_wg s = 0
}.

(** A thread [i] steps to [t'] without touching its run. *)
Lemma pass_inv_thread m ts sem wg w w' i t t' sem' wg' :
  pass_inv (mkPass m ts sem wg) w -> ts !! i = Some t -> t_run t' = t_run t ->
  thread_shape t' -> (w' = w /\ t_body t' = t_body t \/
    pstep E (map t_body ts) w (<[i := t_body t']> (map t_body ts)) w') ->
  sem' = sem - defers SemReceive t + defers SemReceive t' -> sem' <= sem ->
  wg' = wg - defers WgDone t + defers WgDone t' -> (m = [] -> wg' = 0) ->
  pass_inv (mkPass m (<[i := t']> ts) sem' wg') w'.
Proof.
  intros [Hp Ht (a & b & rs & Hm & Hr & Hst & Hs & Hw) Hc Hwait] Hi Hrun Hsh Hstep -> Hle -> H0.
  simpl in *.
  assert (exists h, G E h w w') as [h HG].
  { destruct Hstep as [[-> _]|Hstep]; [exists no_res; apply grows_refl|].
    by eapply pool_guarantee. }
  constructor; simpl; [| | |lia|done].
  - rewrite <-list_fmap_insert in *. destruct Hstep as [[-> Hb]|Hstep]; [|by eapply pool_ok_step].
    rewrite list_fmap_insert, Hb, list_insert_id; [done|]. by rewrite list_lookup_fmap, Hi.
  - by apply Forall_insert.
  - exists a, b, rs. split_and!; [done| | | |].
    + rewrite <-Hr. f_equal. clear -Hi Hrun. revert i Hi.
      induction ts as [|x ts IH]; intros [|i] Hi; simplify_eq/=; [by rewrite Hrun|].
      by rewrite (IH i Hi).
    + eapply Forall_impl; [exact Hst|]. intros r Hx. by apply (lasting_stored E r h w).
    + rewrite (total_insert _ _ _ _ _ Hi). lia.
    + rewrite (total_insert _ _ _ _ _ Hi). lia.
Qed.

(** A thread joins. *)
Lemma threads_snoc ts t : omap t_run (ts ++ [t]) = omap t_run ts ++ from_option (fun r => [r]) [] (t_run t).
Proof. rewrite omap_app. simpl. by destruct (t_run t). Qed.

Lemma pass_inv_start ts w :
  pool_ok E (Inv E) (G E) ts w -> Forall (fun r => stored r w) claimed -> 0 <= workers ->
  pass_inv (pass_start ts claimed) w.
Proof.
  intros Hp Hst Hw. assert (Forall (fun t => thread_shape t /\ t_run t = None
    /\ forall d, defers d t = 0) (map other ts)) as Hall by (apply Forall_fmap, Forall_true; done).
  constructor; simpl; [| | |done|done].
  - rewrite map_map. simpl. by rewrite map_id.
  - eapply Forall_impl; [exact Hall|]. by intros t [? _].
  - exists 0, 0, claimed.
    rewrite !total_zero by (eapply Forall_impl; [exact Hall|]; by intros t (_ & _ & ?)).
    split_and!; [|by clear; induction ts|done..]. destruct claimed; constructor.
Qed.

Lemma pass_inv_trigger m ts sem wg w id :
  pass_inv (mkPass m ts sem wg) w ->
  pass_inv (mkPass m (ts ++ [other (let* _ := Trigger id in Ret tt)]) sem wg) w.
Proof.
  intros [Hp Ht (a & b & rs & Hm & Hr & Hst & Hs & Hw) Hc Hwait].
  constructor; simpl in *; [| | |done|done].
  - rewrite map_app. by apply pool_ok_spawn, thread_any, safe_trigger.
  - apply Forall_app. split; [done|]. by repeat constructor.
  - exists a, b, rs. rewrite !total_app, threads_snoc. simpl. rewrite app_nil_r.
    split_and!; [done..| |]; unfold defers at 2; simpl; lia.
Qed.

(** The head of a coordinator determines its share. *)
Lemma coordinator_add m a b rs :
  coordinator (WgAdd :: m) a b rs ->
  a = 0 /\ b = 0 /\ coordinator m 0 1 rs.
Proof.
  inversion 1 as [|rs' Heq| |]; subst. destruct rs as [|r rs]; simplify_eq/=.
  split_and!; constructor.
Qed.

Lemma coordinator_send m a b rs :
  coordinator (SemSend :: m) a b rs -> a = 0 /\ b = 1 /\ coordinator m 1 1 rs.
Proof.
  inversion 1 as [|rs' Heq| |]; subst; [by destruct rs|]. split_and!; constructor.
Qed.

Lemma coordinator_go r m a b rs :
  coordinator (Go r :: m) a b rs ->
  a = 1 /\ b = 1 /\ exists rs', rs = r :: rs' /\ m = start_loop rs'.
Proof.
  inversion 1 as [|rs' Heq| |]; subst; [by destruct rs|]. split_and!; [done..|].
  by eexists.
Qed.

Lemma coordinator_wait m a b rs :
  coordinator (WgWait :: m) a b rs -> a = 0 /\ b = 0 /\ rs = [] /\ m = [].
Proof. inversion 1 as [|rs' Heq| |]; subst. by destruct rs; simplify_eq/=. Qed.

Lemma pass_inv_step s w s' w' :
  pass_step E workers s w s' w' -> pass_inv s w -> pass_inv s' w'.
Proof.
  intros Hs Hp. destruct Hs as [m ts sem wg w i r R e k ds Hi He|m ts sem wg w i r ds Hi Hn
    |m ts sem wg w i r ds Hi Hn|m ts sem wg w|m ts sem wg w Hn|r m ts sem wg w|m ts sem w].
  - pose proof (Forall_lookup_1 _ _ _ _ (pi_threads _ _ Hp) Hi) as Hsh.
    eapply pass_inv_thread; [done|done|done| |right|unfold defers; simpl; lia..|].
    + unfold thread_shape in *. simpl in *. destruct r; [|done]. destruct Hsh as [?|[_ [=]]]; auto.
    + apply pstep_thread; [|done]. by rewrite list_lookup_fmap, Hi.
    + intros Hm. apply (pi_wait _ _ Hp Hm).
  - pose proof (Forall_lookup_1 _ _ _ _ (pi_threads _ _ Hp) Hi) as Hsh.
    unfold thread_shape in Hsh. simpl in Hsh. destruct r as [r|]; [|done].
    destruct Hsh as [[= ->]|[[[=]|[=]] _]].
    eapply pass_inv_thread; [done|done|done|right; split; [by left|done]|by left|..];
      unfold defers; simpl; [lia|lia|lia|apply (pi_wait _ _ Hp)].
  - pose proof (Forall_lookup_1 _ _ _ _ (pi_threads _ _ Hp) Hi) as Hsh.
    unfold thread_shape in Hsh. simpl in Hsh. destruct r as [r|]; [|done].
    destruct Hsh as [[=]|[[[= ->]|[=]] _]].
    eapply pass_inv_thread; [done|done|done|right; split; [by right|done]|by left|..];
      unfold defers; simpl; [lia|lia|lia|]. intros Hm. pose proof (pi_wait _ _ Hp Hm). simpl in *. lia.
  - destruct Hp as [Hp Ht (a & b & rs & Hm & Hr & Hst & Hse & Hw) Hc Hwait]. simpl in *.
    apply coordinator_add in Hm as (-> & -> & Hm).
    constructor; simpl; [done|done| |done|by intros ->; inversion Hm].
    exists 0, 1, rs. split_and!; [done..|lia|lia].
  - destruct Hp as [Hp Ht (a & b & rs & Hm & Hr & Hst & Hse & Hw) Hc Hwait]. simpl in *.
    apply coordinator_send in Hm as (-> & -> & Hm).
    constructor; simpl; [done|done| |lia|by intros ->; inversion Hm].
    exists 1, 1, rs. split_and!; [done..|lia|lia].
  - destruct Hp as [Hp Ht (a & b & rs & Hm & Hr & Hst & Hse & Hw) Hc Hwait]. simpl in *.
    apply coordinator_go in Hm as (-> & -> & rs' & -> & ->). apply Forall_cons in Hst as [Hx Hst].
    constructor; simpl; [| | |done|].
    + rewrite map_app. by apply pool_ok_spawn, thread_goroutine.
    + apply Forall_app. split; [done|]. repeat constructor.
    + exists 0, 0, rs'. rewrite !total_app, threads_snoc. simpl. rewrite <-app_assoc.
      split_and!; [constructor|done|done| |]; unfold defers at 2; simpl; lia.
    + by destruct rs'.
  - destruct Hp as [Hp Ht (a & b & rs & Hm & Hr & Hst & Hse & Hw) Hc Hwait]. simpl in *.
    apply coordinator_wait in Hm as (-> & -> & -> & ->).
    constructor; simpl; [done|done| |done|done]. exists 0, 0, []. by split_and!; [constructor|..].
Qed.

Lemma pass_inv_reach s0 w0 s w :
  pass_inv s0 w0 -> pass_reach E workers s0 w0 s w -> pass_inv s w.
Proof.
  intros H0. induction 1 as [|s w s' w' _ IH Hs|m ts sem wg w id _ IH]; [done| |].
  - by eapply pass_inv_step.
  - by apply pass_inv_trigger.
Qed.

(** At most one goroutine at work per place in the channel. *)
Lemma pass_busy s w : pass_inv s w -> total busy (p_threads s) <= workers.
Proof.
  intros [_ Ht (a & b & rs & Hm & _ & _ & Hs & _) Hc _].
  assert (total busy (p_threads s) <= total (defers SemReceive) (p_threads s)) as Hle
    by (apply total_le; eapply Forall_impl; [exact Ht|apply busy_defers]).
  destruct Hm; lia.
Qed.

Lemma pass_counter s w i r ds :
  pass_inv s w -> p_threads s !! i = Some (mkThread r (Ret tt) (WgDone :: ds)) -> 0 < p_wg s.
Proof.
  intros [_ _ (a & b & rs & Hm & _ & _ & _ & Hw) _ _] Hi.
  assert (0 < total (defers WgDone) (p_threads s)).
  { apply (total_pos _ _ _ _ (defers_pos WgDone) Hi). unfold defers.
    rewrite bool_decide_true by left. done. }
  destruct Hm; lia.
Qed.

(** When the coordinator has returned, the goroutines of the pass are over. *)
Lemma pass_returned s w :
  pass_inv s w -> p_main s = [] ->
  omap t_run (p_threads s) = claimed
  /\ Forall (fun t => is_Some (t_run t) -> over t) (p_threads s).
Proof.
  intros [_ Ht (a & b & rs & Hm & Hr & _ & _ & Hw) _ Hwait] Hnil. specialize (Hwait Hnil).
  rewrite Hnil in Hm. assert (b = 0 /\ rs = []) as [-> ->].
  { inversion Hm as [|rs' Heq| |]; subst; [done|]. by destruct rs. }
  rewrite app_nil_r in Hr. split; [done|]. apply Forall_lookup. intros i t Hi [r Hrun].
  pose proof (Forall_lookup_1 _ _ _ _ Ht Hi) as Hsh. unfold thread_shape in Hsh.
  rewrite Hrun in Hsh. assert (~ WgDone ∈ t_deferred t) as Hno.
  { intros Hin. assert (0 < total (defers WgDone) (p_threads s)); [|lia].
    apply (total_pos _ _ _ _ (defers_pos WgDone) Hi). unfold defers.
    by rewrite bool_decide_true by done. }
  destruct Hsh as [Hd|[[Hd|Hd] Hb]]; [| |done]; rewrite Hd in Hno;
    destruct Hno; [right|]; by left.
Qed.

(** ** Progress *)

(** A thread with something left to do, its body first. *)
Lemma over_or_not (ts : list thread) :
  Forall over ts
  \/ (exists i r R (e : eff R) k ds, ts !! i = Some (mkThread r (Vis e k) ds))
  \/ (exists i r d ds, ts !! i = Some (mkThread r (Ret tt) (d :: ds))).
Proof.
  induction ts as [|[r p ds] ts [IH|[(i & r' & R & e & k & ds' & Hi)|(i & r' & d & ds' & Hi)]]].
  - by left.
  - destruct p as [[]|R e k]; [|right; left; by exists 0%nat, r, R, e, k, ds].
    destruct ds as [|d ds]; [left; by constructor|]. right; right. by exists 0%nat, r, d, ds.
  - right; left. by exists (Datatypes.S i), r', R, e, k, ds'.
  - right; right. by exists (Datatypes.S i), r', d, ds'.
Qed.

Lemma pass_progress s w :
  1 <= workers -> pass_inv s w ->
  (p_main s = [] /\ Forall over (p_threads s)) \/ exists s' w', pass_step E workers s w s' w'.
Proof.
  intros Hn Hp. destruct s as [m ts sem wg].
  destruct Hp as [Hp Ht (a & b & rs & Hm & _ & _ & Hse & Hw) Hc Hwait]. simpl in *.
  destruct (over_or_not ts) as [Hall|[(i & r & R & e & k & ds & Hi)|(i & r & d & ds & Hi)]].
  - assert (forall d, total (defers d) ts = 0) as Hz.
    { intros d. apply total_zero. eapply Forall_impl; [exact Hall|]. intros t [_ Hd].
      unfold defers. by rewrite Hd. }
    rewrite Hz in Hse, Hw. destruct m as [|[| |r|] m]; [by left|right..].
    + eexists _, _. apply pass_add.
    + apply coordinator_send in Hm as (-> & -> & _). eexists _, _. apply pass_send. lia.
    + eexists _, _. apply pass_go.
    + apply coordinator_wait in Hm as (-> & -> & _). replace wg with 0 by lia.
      eexists _, _. apply pass_wait.
  - right. assert (map t_body ts !! i = Some (Vis e k)) as Hb
      by (by rewrite list_lookup_fmap, Hi).
    destruct (pool_progress _ _ _ _ _ _ _ _ _ Hp Hb) as (ts' & w' & Hs).
    inversion Hs as [? j R' e' k' ? Hj He]; subst.
    rewrite list_lookup_fmap in Hj. apply fmap_Some in Hj as ([r' p' ds'] & Hj & Heq).
    simpl in Heq. subst p'. eexists _, _. by eapply pass_thread.
  - right. assert (forall d', d = d' -> 0 < total (defers d') ts) as Hpos.
    { intros d' ->. apply (total_pos _ _ _ _ (defers_pos d') Hi). unfold defers.
      rewrite bool_decide_true by left. done. }
    assert (0 <= a /\ 0 <= b) as [Ha Hb] by (destruct Hm; lia).
    specialize (Hpos _ eq_refl). destruct d; eexists _, _.
    + eapply pass_receive; [done|lia].
    + eapply pass_done; [done|lia].
Qed.
End Invariant.

(** ** Termination *)

(** A thread performs an effect of its body or a deferred call. *)
Definition thread_step : thread -> thread -> Prop :=
  fun t' t => Relation_Operators.slexprod _ _ child (fun a b => (length a < length b)%nat)
    (t_body t', t_deferred t') (t_body t, t_deferred t).

Lemma thread_step_wf : well_founded thread_step.
Proof.
  apply (wf_inverse_image _ _ _ (fun t => (t_body t, t_deferred t))), wf_slexprod.
  - apply child_wf.
  - apply (wf_inverse_image _ _ lt length), lt_wf.
Qed.

(** The coordinator advances, or a thread does. *)
Lemma pass_step_wf {S} `{Store S} (E : env) workers (s : pass) (w : world S) :
  Acc (fun '(s', w') '(s, w) => pass_step E workers s w s' w') (s, w).
Proof.
  destruct s as [m ts sem wg]. revert ts sem wg w.
  induction (wf_inverse_image _ _ lt length lt_wf m) as [m _ IHm]. intros ts.
  induction (one_of_wf _ thread_step_wf ts) as [ts _ IHt]. intros sem wg w.
  constructor. intros [s' w'] Hs. inversion Hs; subst;
    try (apply IHm; simpl; lia); apply IHt; (eapply insert_one_of; [done|]).
  - apply Relation_Operators.left_slex. by eexists.
  - apply Relation_Operators.right_slex. simpl. lia.
  - apply Relation_Operators.right_slex. simpl. lia.
Qed.

Lemma New_workers defaultID Real opts : 1 <= s_workers (New defaultID Real opts).
Proof. simpl. destruct (Z.ltb_spec (o_Workers opts) 1); lia. Qed.

(** ** Executing a pass *)

(** Whose turn it is: the coordinator's or a thread's. *)
Definition pass_turn {S} `{Store S} (E : env) (workers : Z) (who : option nat)
    (c : pass * world S) : pass * world S :=
  let '(mkPass m ts sem wg, w) := c in
  match who with
  | None =>
      match m with
      | WgAdd :: m => (mkPass m ts sem (wg + 1), w)
      | SemSend :: m' => if sem <? workers then (mkPass m' ts (sem + 1) wg, w) else c
      | Go r :: m => (mkPass m (ts ++ [spawned (env_conv E) r]) sem wg, w)
      | WgWait :: m' => if wg =? 0 then (mkPass m' ts sem 0, w) else c
      | [] => c
      end
  | Some i =>
      match ts !! i with
      | Some (mkThread r (Vis e k) ds) =>
          if enabled e w
          then (mkPass m (<[i := mkThread r (k (perform E e w).1) ds]> ts) sem wg, (perform E e w).2)
          else c
      | Some (mkThread r (Ret tt) (SemReceive :: ds)) =>
          if 0 <? sem then (mkPass m (<[i := mkThread r (Ret tt) ds]> ts) (sem - 1) wg, w) else c
      | Some (mkThread r (Ret tt) (WgDone :: ds)) =>
          if 0 <? wg then (mkPass m (<[i := mkThread r (Ret tt) ds]> ts) sem (wg - 1), w) else c
      | _ => c
      end
  end.

Definition pass_turns {S} `{Store S} (E : env) (workers : Z) (l : list (option nat))
    (c : pass * world S) : pass * world S :=
  foldl (fun c who => pass_turn E workers who c) c l.

Lemma pass_turn_step {S} `{Store S} (E : env) workers who (c : pass * world S) :
  pass_turn E workers who c = c
  \/ pass_step E workers c.1 c.2 (pass_turn E workers who c).1 (pass_turn E workers who c).2.
Proof.
  destruct c as [[m ts sem wg] w], who as [i|]; simpl.
  - destruct (ts !! i) as [[r [[]|R e k] ds]|] eqn:Hi; [| |by left].
    + destruct ds as [|[] ds]; [by left|..].
      * destruct (Z.ltb_spec 0 sem); [right; by eapply pass_receive|by left].
      * destruct (Z.ltb_spec 0 wg); [right; by eapply pass_done|by left].
    + destruct (enabled e w) eqn:He; [right; by apply pass_thread|by left].
  - destruct m as [|[| |r|] m]; [by left|right; apply pass_add| |right; apply pass_go|].
    + destruct (Z.ltb_spec sem workers); [right; by apply pass_send|by left].
    + destruct (Z.eqb_spec wg 0) as [->|]; [right; apply pass_wait|by left].
Qed.

Definition pass_moves {S} `{Store S} (E : env) (workers : Z) : relation (pass * world S) :=
  fun a b => pass_step E workers a.1 a.2 b.1 b.2.

Lemma pass_turns_moves {S} `{Store S} (E : env) workers l (c : pass * world S) :
  rtc (pass_moves E workers) c (pass_turns E workers l c).
Proof.
  revert c. induction l as [|who l IH]; intros c; [apply rtc_refl|].
  unfold pass_turns. simpl. destruct (pass_turn_step E workers who c) as [Heq|Hs].
  - rewrite Heq. apply IH.
  - eapply rtc_l; [exact Hs|apply IH].
Qed.

Lemma pass_reach_moves {S} `{Store S} (E : env) workers s0 w0 (c c' : pass * world S) :
  pass_reach E workers s0 w0 c.1 c.2 -> rtc (pass_moves E workers) c c' ->
  pass_reach E workers s0 w0 c'.1 c'.2.
Proof.
  intros Hr. induction 1 as [|a b c' Hs _ IH]; [done|]. apply IH. by eapply reach_pass_step.
Qed.

(** ** Main theorems *)

Section Drain.
Context {S : Type} `{Store S} (E : env)
  (Hinj : forall m n, env_id E m = env_id E n -> m = n).

(** C11: the worker pool of a pass, started by a scheduler with any options on the
    runs it has claimed, while dispatches, triggers and goroutines that were under
    way go on and further triggers arrive.  At every moment at most as many
    goroutines are at work as the scheduler has workers, and no [wg.Done] finds
    the counter at zero.  Once [drain] has returned, every
    claimed run has had its goroutine and all of them are over.  The pass never
    deadlocks: while it has not returned, or a program has something left to do,
    a step is possible.  And no infinite sequence of steps exists, so that it
    always returns. *)
Theorem drain_completes (defaultID : nat -> string) (Real : Clock) (opts : Options)
    (w0 w w1 w2 : world S) (ts : list (prog unit)) now worker lease limit claimed (s : pass) :
  let workers := s_workers (New defaultID Real opts) in
  initial w0 -> reachable E w0 ts w ->
  perform E (OnStore (ClaimDue now worker lease limit)) w = (Ok claimed, w1) ->
  pass_reach E workers (pass_start ts claimed) w1 s w2 ->
  total busy (p_threads s) <= workers
  /\ (forall i r ds, p_threads s !! i = Some (mkThread r (Ret tt) (WgDone :: ds)) -> 0 < p_wg s)
  /\ (p_main s = [] -> omap t_run (p_threads s) = claimed
        /\ Forall (fun t => is_Some (t_run t) -> over t) (p_threads s))
  /\ ((p_main s = [] /\ Forall over (p_threads s))
        \/ exists s' w', pass_step E workers s w2 s' w')
  /\ Acc (fun '(s', w') '(s, w) => pass_step E workers s w s' w') (s, w2).
Proof.
  intros workers H0 Hr Hclaim Hpass. pose proof (New_workers defaultID Real opts) as Hn.
  fold workers in Hn.
  assert (pool_ok E (Inv E) (G E) ts w) as Hpool by (by eapply reachable_pool).
  eapply pool_ok_claim in Hclaim as [Hp Hst]; [|done].
  assert (pass_inv E workers claimed s w2) as Hinv
    by (eapply pass_inv_reach; [done| |done]; apply pass_inv_start; [done|done|lia]).
  split_and!.
  - by eapply pass_busy.
  - intros i r ds. by eapply pass_counter.
  - by eapply pass_returned.
  - by eapply pass_progress.
  - apply pass_step_wf.
Qed.

(** ** The sequential pass *)

Context (workers : Z) (Hn : 1 <= workers).
Local Abbreviation inv claimed c := (pass_inv E workers claimed c.1 c.2).

Definition enabled_head (p : prog unit) (w : world S) : bool :=
  match p with Vis e _ => enabled e w | Ret _ => true end.

Lemma pass_inv_moves claimed s w s' w' :
  pass_inv E workers claimed s w -> rtc (pass_moves E workers) (s, w) (s', w') ->
  pass_inv E workers claimed s' w'.
Proof.
  assert (forall c c', rtc (pass_moves E workers) c c' -> inv claimed c -> inv claimed c') as Hm.
  { induction 1 as [|a b c' Hs _ IH]; [done|]. intros Hc. apply IH. by eapply pass_inv_step. }
  intros Hs Hr. apply (Hm _ _ Hr Hs).
Qed.

(** A thread runs to the end of its body when all the others are over. *)
Lemma pass_alone claimed m ts r p ds sem wg w :
  pass_inv E workers claimed (mkPass m (ts ++ [mkThread r p ds]) sem wg) w -> Forall over ts ->
  rtc (pass_moves E workers) (mkPass m (ts ++ [mkThread r p ds]) sem wg, w)
    (mkPass m (ts ++ [mkThread r (Ret tt) ds]) sem wg, (run E p w).2).
Proof.
  revert w. induction p as [[]|R e k IH]; intros w Hinv Hts; [apply rtc_refl|].
  set (i := length ts).
  assert ((ts ++ [mkThread r (Vis e k) ds]) !! i = Some (mkThread r (Vis e k) ds)) as Hi
    by (by rewrite lookup_app_r, Nat.sub_diag).
  assert (enabled e w = true) as He.
  { assert (map t_body (ts ++ [mkThread r (Vis e k) ds]) !! i = Some (Vis e k)) as Hb
      by (by rewrite list_lookup_fmap, Hi).
    destruct (pool_progress _ _ _ _ _ _ _ _ _ (pi_pool _ _ _ _ _ Hinv) Hb) as (ts' & w' & Hs).
    inversion Hs as [? j R' e' k' ? Hj He']; subst. simpl in Hj.
    change (enabled_head (Vis e k) w = true). destruct (decide (j = i)) as [->|Hne].
    - assert (Vis e k = Vis e' k') as -> by congruence. exact He'.
    - rewrite map_app in Hj. apply lookup_snoc_Some in Hj as [[_ Hj]|[Hlen _]].
      + rewrite list_lookup_fmap in Hj. apply fmap_Some in Hj as (t & Ht & Heq).
        destruct (Forall_lookup_1 _ _ _ _ Hts Ht) as [Hret _]. congruence.
      + rewrite length_map in Hlen. done. }
  pose proof (pass_thread E workers m _ sem wg w i r R e k ds Hi He) as Hs.
  pose proof (pass_inv_step E Hinj _ _ _ _ _ _ Hs Hinv) as Hinv'.
  eapply (rtc_l _ _ (_, _)); [exact Hs|]. simpl. destruct (perform E e w) as [x w'] eqn:Hperf. simpl in *.
  unfold i in *. rewrite insert_app_r_alt, Nat.sub_diag in * by done. simpl in *.
  by apply IH.
Qed.

Lemma pass_in_order claimed rs : forall ts w,
  pass_inv E workers claimed (mkPass (start_loop rs) ts 0 0) w -> Forall over ts ->
  exists ts', Forall over ts' /\
    rtc (pass_moves E workers) (mkPass (start_loop rs) ts 0 0, w)
      (mkPass [] ts' 0 0, (run E (in_order (env_conv E) rs) w).2).
Proof.
  induction rs as [|r rs IH]; intros ts w Hinv Hts.
  - exists ts. split; [done|]. apply rtc_once. apply pass_wait.
  - assert (rtc (pass_moves E workers) (mkPass (start_loop (r :: rs)) ts 0 0, w)
      (mkPass (start_loop rs) (ts ++ [spawned (env_conv E) r]) 1 1, w)) as H1.
    { eapply (rtc_l _ _ (_, _)); [apply pass_add|]. eapply (rtc_l _ _ (_, _)); [apply pass_send; lia|].
      apply rtc_once. apply pass_go. }
    pose proof (pass_inv_moves _ _ _ _ _ Hinv H1) as Hinv1.
    pose proof (pass_alone _ _ _ _ _ _ _ _ _ Hinv1 Hts) as H2.
    set (w' := (run E (goroutine (env_conv E) r) w).2) in *.
    set (t l := mkThread (Some r) (Ret tt) l).
    assert (forall l, (ts ++ [t l]) !! length ts = Some (t l)) as Hl
      by (intros l; by rewrite lookup_app_r, Nat.sub_diag).
    assert (rtc (pass_moves E workers) (mkPass (start_loop rs) (ts ++ [t [SemReceive; WgDone]]) 1 1, w')
      (mkPass (start_loop rs) (ts ++ [t []]) 0 0, w')) as H3.
    { eapply (rtc_l _ _ (_, _)); [eapply (pass_receive _ _ _ _ 1); [apply Hl|lia]|].
      rewrite insert_app_r_alt, Nat.sub_diag by done.
      eapply (rtc_l _ _ (_, _)); [eapply (pass_done _ _ _ _ _ 1); [apply (Hl [WgDone])|lia]|].
      rewrite insert_app_r_alt, Nat.sub_diag by done. apply rtc_refl. }
    assert (rtc (pass_moves E workers) (mkPass (start_loop (r :: rs)) ts 0 0, w)
      (mkPass (start_loop rs) (ts ++ [t []]) 0 0, w')) as H4
      by (etrans; [exact H1|]; etrans; [exact H2|exact H3]).
    destruct (IH (ts ++ [t []]) w') as (ts' & Hts' & H5).
    + by apply (pass_inv_moves _ _ _ _ _ Hinv) in H4.
    + apply Forall_app. split; [done|]. by repeat constructor.
    + exists ts'. split; [done|]. etrans; [exact H4|]. cbn [in_order]. rewrite run_bind.
      fold w' in H5. subst w'. by destruct (run E (goroutine (env_conv E) r) w) as [[] w'].
Qed.

(** C40: the sequential [drain] of [Scheduler.v], on which the theorems about one
    pass rest, is one of the executions of the worker pool, for any number of
    workers: from the claim, with no other program at work, the pool can reach
    the state in which the coordinator has returned, every goroutine is over and
    the store, metrics and mutex are those that running the goroutines one after
    the other leaves. *)
Theorem in_order_is_an_execution (w0 w w1 : world S) (ts : list (prog unit))
    now worker lease limit claimed :
  initial w0 -> reachable E w0 ts w -> Forall (fun p => p = Ret tt) ts ->
  perform E (OnStore (ClaimDue now worker lease limit)) w = (Ok claimed, w1) ->
  exists ts', Forall over ts' /\
    rtc (pass_moves E workers) (pass_start ts claimed, w1)
      (mkPass [] ts' 0 0, (run E (in_order (env_conv E) claimed) w1).2).
Proof.
  intros H0 Hr Hts Hclaim.
  assert (pool_ok E (Inv E) (G E) ts w) as Hpool by (by eapply reachable_pool).
  eapply pool_ok_claim in Hclaim as [Hp Hst]; [|done].
  assert (Forall over (map other ts)) as Hover
    by (apply Forall_fmap; eapply Forall_impl; [exact Hts|]; by intros p ->).
  destruct claimed as [|r rs]; [exists (map other ts); split; [done|apply rtc_refl]|].
  eapply (pass_in_order (r :: rs) (r :: rs)); [|done].
  by apply (pass_inv_start E workers (r :: rs)); [..|lia].
Qed.

End Drain.

(** ** Witnesses

    The two runs of "a" that the triggers of [Concurrency.v] created, claimed by a
    scheduler with one worker. *)

Definition one_worker : Options := mkOptions None 0 1 0 None None None.

Definition claim2 : result store_error (list Run) * world Memory.state :=
  perform calm_env (OnStore (ClaimDue 1000 "w" (30 * Second) 4)) triggered.2.

Definition claimed2 : list Run := match claim2.1 with Ok l => l | Err _ => [] end.

Lemma claim2_ok :
  perform calm_env (OnStore (ClaimDue 1000 "w" (30 * Second) 4)) triggered.2 = (Ok claimed2, claim2.2).
Proof.
  rewrite (surjective_pairing (perform _ _ _)). by f_equal.
Qed.

Definition pass2 (l : list (option nat)) : pass * world Memory.state :=
  pass_turns calm_env 1 l (pass_start triggered.1 claimed2, claim2.2).

(** The coordinator starts the first goroutine and is blocked in the send for the
    second one, while the goroutine holds the mutex. *)
Definition one_at_work : pass * world Memory.state :=
  pass2 ([None; None; None; None; None] ++ repeat (Some 2%nat) 8).

Lemma pass2_reach l :
  pass_reach calm_env 1 (pass_start triggered.1 claimed2) claim2.2 (pass2 l).1 (pass2 l).2.
Proof.
  eapply (pass_reach_moves _ _ _ _ (_, _)); [apply reach_pass|]. apply pass_turns_moves.
Qed.

Lemma drain_completes_witness :
  (total busy (p_threads one_at_work.1) = 1 /\ p_sem one_at_work.1 = 1
   /\ w_locked one_at_work.2 = true /\ pass_turn calm_env 1 None one_at_work = one_at_work)
  /\ (exists s' w', pass_step calm_env 1 one_at_work.1 one_at_work.2 s' w')
  /\ Acc (fun '(s', w') '(s, w) => pass_step calm_env 1 s w s' w')
       (one_at_work.1, one_at_work.2).
Proof.
  split; [split_and!; vm_compute; reflexivity|].
  destruct (drain_completes (H := Memory.store) calm_env tally_inj tally (fun _ => 0) one_worker
              pipeline_world triggered.2 claim2.2 one_at_work.2 triggered.1 1000 "w" (30 * Second) 4
              claimed2 one_at_work.1) as (_ & _ & _ & [[Hm _]|Hs] & Hacc).
  - apply pipeline_initial.
  - apply triggered_reachable.
  - apply claim2_ok.
  - apply pass2_reach.
  - vm_compute in Hm. discriminate Hm.
  - split; [exact Hs|exact Hacc].
Defined.

(** The same pass to its end. *)
Example one_worker_returns :
  let c := pass2 ([None; None; None; None; None] ++ repeat (Some 2%nat) 15 ++ [None; None; None]
                    ++ repeat (Some 3%nat) 15 ++ [None]) in
  p_main c.1 = [] /\ map run_State (Memory.values (Memory.runs (w_store c.2)))
    = [StateSucceeded; StateSucceeded].
Proof. split; vm_compute; reflexivity. Qed.

Lemma in_order_is_an_execution_witness :
  exists ts', Forall over ts' /\
    rtc (pass_moves calm_env 1) (pass_start triggered.1 claimed2, claim2.2)
      (mkPass [] ts' 0 0, (run calm_env (in_order (env_conv calm_env) claimed2) claim2.2).2).
Proof.
  apply (in_order_is_an_execution (H := Memory.store) calm_env tally_inj 1 ltac:(lia)
           pipeline_world triggered.2 claim2.2 triggered.1 1000 "w" (30 * Second) 4 claimed2).
  - apply pipeline_initial.
  - apply triggered_reachable.
  - repeat constructor.
  - apply claim2_ok.
Defined.
