(* ===== verification/Config.v ===== *)
(** * Runtime configuration

    Models [src/internal/config/config.go] and [load.go]: the defaults, the
    overlay of the environment, the command line and the validation.  The
    environment is the function [os.Getenv], which gives the empty string for a
    variable that is not set. *)

From Stdlib Require Import ZArith Lia Ascii String.
From stdpp Require Import base list strings gmap.
From S2P Require Import Prelude GoTime GoStrings GoDuration GoFlag.

#[local] Open Scope string_scope.
#[local] Open Scope list_scope.
#[local] Open Scope Z_scope.

(** [Backend] is a string type: a flag or a variable may hold any text. *)
Definition Backend := string.
Definition BackendMemory : Backend := "memory".
Definition BackendPostgres : Backend := "postgres".

Record Config := mkConfig {
  ListenAddr : string;
  cfg_Backend : Backend;
  DatabaseURL : string;
  TickInterval : duration;
  Workers : Z;
  LeaseDuration : duration;
  JobsFile : string;
  LogLevel : string
}.

Definition Default : Config := mkConfig ":8080" BackendMemory "" Second 4 (30 * Second) "" "info".

Inductive config_error :=
| NoDatabaseURL (b : Backend)
| UnknownBackend (b : Backend)
| BadWorkers (n : Z)
| BadTick (d : duration)
| BadLease (d : duration).

Definition Validate (c : Config) : result config_error unit :=
  let? _ := (if String.eqb (cfg_Backend c) BackendMemory then Ok tt
             else if String.eqb (cfg_Backend c) BackendPostgres then
               if String.eqb (DatabaseURL c) "" then Err (NoDatabaseURL (cfg_Backend c)) else Ok tt
             else Err (UnknownBackend (cfg_Backend c))) in
  if Workers c <? 1 then Err (BadWorkers (Workers c))
  else if TickInterval c <=? 0 then Err (BadTick (TickInterval c))
  else if LeaseDuration c <=? 0 then Err (BadLease (LeaseDuration c))
  else Ok tt.

(** ** The environment *)

(** [if v := os.Getenv(...); v != "" { field = v }]. *)
Definition overlay_string (v base : string) : string := if String.eqb v "" then base else v.

(** The same for a field that is parsed; a value that does not parse is
    ignored. *)
Definition overlay_parsed {E A} (parse : string -> result E A) (v : string) (base : A) : A :=
  if String.eqb v "" then base else match parse v with Ok x => x | Err _ => base end.

Definition FromEnv (Getenv : string -> string) (base : Config) : Config :=
  mkConfig
    (overlay_string (Getenv "CRONFLUX_ADDR") (ListenAddr base))
    (overlay_string (Getenv "CRONFLUX_STORE") (cfg_Backend base))
    (overlay_string (Getenv "CRONFLUX_DATABASE_URL") (DatabaseURL base))
    (overlay_parsed ParseDuration (Getenv "CRONFLUX_TICK") (TickInterval base))
    (overlay_parsed Atoi (Getenv "CRONFLUX_WORKERS") (Workers base))
    (overlay_parsed ParseDuration (Getenv "CRONFLUX_LEASE") (LeaseDuration base))
    (overlay_string (Getenv "CRONFLUX_JOBS") (JobsFile base))
    (overlay_string (Getenv "CRONFLUX_LOG_LEVEL") (LogLevel base)).

(** ** The command line *)

(** The flags that [Load] declares, with the values of [cfg] as defaults. *)
Definition flags_of (cfg : Config) : FlagSet := list_to_map
  [("addr", StringValue (ListenAddr cfg));
   ("store", StringValue (cfg_Backend cfg));
   ("database-url", StringValue (DatabaseURL cfg));
   ("tick", DurationValue (TickInterval cfg));
   ("workers", IntValue (Workers cfg));
   ("lease", DurationValue (LeaseDuration cfg));
   ("jobs", StringValue (JobsFile cfg));
   ("log-level", StringValue (LogLevel cfg))].

Inductive load_error :=
| FlagError (e : flag_error)
| Invalid (e : config_error).

Definition Load (Getenv : string -> string) (args : list string) : result load_error Config :=
  let cfg := FromEnv Getenv Default in
  match Parse (flags_of cfg) args with
  | Err e => Err (FlagError e)
  | Ok fs =>
      let cfg := mkConfig (string_flag fs "addr") (string_flag fs "store")
        (string_flag fs "database-url") (duration_flag fs "tick") (int_flag fs "workers")
        (duration_flag fs "lease") (string_flag fs "jobs") (string_flag fs "log-level") in
      match Validate cfg with
      | Err e => Err (Invalid e)
      | Ok _ => Ok cfg
      end
  end.

Definition no_env : string -> string := fun _ => "".

Example load_default : Load no_env [] = Ok Default.
Proof. vm_compute. done. Qed.
Example load_flags :
  Load (fun v => if String.eqb v "CRONFLUX_ADDR" then ":7000" else "")
    ["-addr"; ":9000"; "--workers=0x8"; "-tick"; "250ms"]
  = Ok (mkConfig ":9000" "memory" "" (250 * Millisecond) 8 (30 * Second) "" "info").
Proof. vm_compute. done. Qed.
Example load_errors :
  Load no_env ["-workers"; "0"] = Err (Invalid (BadWorkers 0))
  /\ Load no_env ["-store=postgres"] = Err (Invalid (NoDatabaseURL "postgres"))
  /\ Load no_env ["-tick"; "3"] = Err (FlagError (InvalidValue "3" "tick"))
  /\ Load no_env ["-help"] = Err (FlagError ErrHelp).
Proof. vm_compute. done. Qed.

(** An integer in base 0 on the command line, in base 10 in the environment. *)
Example octal_workers :
  is_ok (Load (fun v => if String.eqb v "CRONFLUX_WORKERS" then "010" else "") ["-workers=010"])
  /\ (FromEnv (fun v => if String.eqb v "CRONFLUX_WORKERS" then "010" else "") Default).(Workers) = 10
  /\ (match Load no_env ["-workers=010"] with Ok c => Workers c | Err _ => 0 end) = 8.
Proof. vm_compute. done. Qed.

(** ** Specification *)

(** A flag beats the environment, which beats the default; a variable that is
    empty or does not parse does not count. *)
Definition setting {A E F} (flag : string -> result F A) (env : string -> result E A)
    (name : string) (v : string) (dflt : A) (sets : list (string * string)) : A :=
  match last_text name sets with
  | Some text => match flag text with Ok a => a | Err _ => dflt end
  | None =>
      match v with
      | EmptyString => dflt
      | _ => match env v with Ok a => a | Err _ => dflt end
      end
  end.

Definition verbatim (s : string) : result unit string := Ok s.

Definition resolved (Getenv : string -> string) (sets : list (string * string)) : Config :=
  let text name v dflt := setting verbatim verbatim name (Getenv v) dflt sets in
  let span name v dflt := setting ParseDuration ParseDuration name (Getenv v) dflt sets in
  mkConfig
    (text "addr" "CRONFLUX_ADDR" ":8080")
    (text "store" "CRONFLUX_STORE" "memory")
    (text "database-url" "CRONFLUX_DATABASE_URL" "")
    (span "tick" "CRONFLUX_TICK" Second)
    (setting ParseInt0 Atoi "workers" (Getenv "CRONFLUX_WORKERS") 4 sets)
    (span "lease" "CRONFLUX_LEASE" (30 * Second))
    (text "jobs" "CRONFLUX_JOBS" "")
    (text "log-level" "CRONFLUX_LOG_LEVEL" "info").

(** Every assignment names a flag and gives it a text it can read. *)
Definition settable (s : string * string) : Prop :=
  (s.1 ∈ ["addr"; "store"; "database-url"; "jobs"; "log-level"])
  \/ (s.1 ∈ ["tick"; "lease"] /\ is_ok (ParseDuration s.2) = true)
  \/ (s.1 = "workers" /\ is_ok (ParseInt0 s.2) = true).

Definition valid (c : Config) : Prop :=
  (cfg_Backend c = "memory" \/ (cfg_Backend c = "postgres" /\ DatabaseURL c <> ""))
  /\ 1 <= Workers c /\ 0 < TickInterval c /\ 0 < LeaseDuration c.

Lemma Validate_valid c : Validate c = Ok tt <-> valid c.
Proof.
  unfold Validate, valid, BackendMemory, BackendPostgres.
  destruct (String.eqb_spec (cfg_Backend c) "memory") as [Hm|Hm],
    (String.eqb_spec (cfg_Backend c) "postgres") as [Hp|Hp]; try congruence;
    [ |destruct (String.eqb_spec (DatabaseURL c) "")|];
    destruct (Z.ltb_spec (Workers c) 1), (Z.leb_spec (TickInterval c) 0),
      (Z.leb_spec (LeaseDuration c) 0);
    (split; [intros [=]; intuition (auto; lia)|intros (Hb & ? & ? & ?); (done || lia || intuition congruence)]).
Qed.

(** ** The flags *)

Definition flag_names : list string :=
  ["addr"; "store"; "database-url"; "tick"; "workers"; "lease"; "jobs"; "log-level"].

Lemma flags_of_other cfg name : name ∉ flag_names -> flags_of cfg !! name = None.
Proof.
  intros Hn. unfold flags_of. apply not_elem_of_list_to_map_1. exact Hn.
Qed.

Lemma accepted_settable cfg s : accepted (flags_of cfg) s <-> settable s.
Proof.
  destruct s as [n t]. unfold accepted, settable. cbn [fst snd].
  destruct (decide (n ∈ flag_names)) as [Hn|Hn].
  2: { rewrite (flags_of_other _ _ Hn). unfold flag_names in Hn.
       split; [by intros (? & ? & [=] & _)|]. set_solver. }
  unfold flag_names in Hn. rewrite !elem_of_cons, elem_of_nil in Hn.
  assert (forall v, flags_of cfg !! n = Some v ->
    (exists v0 v', flags_of cfg !! n = Some v0 /\ Set_value v0 t = Some v')
    <-> is_Some (Set_value v t)) as Hsome.
  { intros v Hv. rewrite Hv. split.
    - intros (v0 & v' & [= <-] & ?). eauto.
    - intros [v' ?]. eauto. }
  destruct Hn as [->|[->|[->|[->|[->|[->|[->|[->|[]]]]]]]]]; rewrite Hsome by reflexivity;
    cbn [Set_value snd].
  1,2,3,7,8: split; [intros _; left; set_solver|intros _; eauto].
  1,3: split;
    [ destruct (ParseDuration t); [|by intros [? [=]]]; intros _; right; left; set_solver
    | intros [Hin|[[_ Hok]|[[=] _]]]; [set_solver|]; destruct (ParseDuration t); [eauto|done] ].
  split.
  - destruct (ParseInt0 t); [|by intros [? [=]]]. intros _. by right; right.
  - intros [Hin|[[Hin _]|[_ Hok]]]; [set_solver..|]. destruct (ParseInt0 t); [eauto|done].
Qed.

(** ** Precedence *)

Lemma setting_string fs fs' sets name v dflt :
  assign fs sets = Some fs' -> fs !! name = Some (StringValue (overlay_string v dflt)) ->
  string_flag fs' name = setting verbatim verbatim name v dflt sets.
Proof.
  intros Ha Hv. pose proof (assign_lookup _ _ _ _ _ Ha Hv) as Hl.
  unfold setting, string_flag. destruct (last_text name sets) as [text|].
  - destruct Hl as (v' & [= <-] & ->). done.
  - rewrite Hl. by destruct v.
Qed.

Lemma setting_duration fs fs' sets name v dflt :
  assign fs sets = Some fs' ->
  fs !! name = Some (DurationValue (overlay_parsed ParseDuration v dflt)) ->
  duration_flag fs' name = setting ParseDuration ParseDuration name v dflt sets.
Proof.
  intros Ha Hv. pose proof (assign_lookup _ _ _ _ _ Ha Hv) as Hl.
  unfold setting, duration_flag. destruct (last_text name sets) as [text|].
  - destruct Hl as (v' & Hset & ->). cbn in Hset.
    destruct (ParseDuration text); by simplify_eq.
  - rewrite Hl. by destruct v.
Qed.

Lemma setting_int fs fs' sets name v dflt :
  assign fs sets = Some fs' -> fs !! name = Some (IntValue (overlay_parsed Atoi v dflt)) ->
  int_flag fs' name = setting ParseInt0 Atoi name v dflt sets.
Proof.
  intros Ha Hv. pose proof (assign_lookup _ _ _ _ _ Ha Hv) as Hl.
  unfold setting, int_flag. destruct (last_text name sets) as [text|].
  - destruct Hl as (v' & Hset & ->). cbn in Hset. destruct (ParseInt0 text); by simplify_eq.
  - rewrite Hl. by destruct v.
Qed.

(** What [Load] reads back after parsing. *)
Lemma read_back Getenv fs sets :
  assign (flags_of (FromEnv Getenv Default)) sets = Some fs ->
  mkConfig (string_flag fs "addr") (string_flag fs "store") (string_flag fs "database-url")
    (duration_flag fs "tick") (int_flag fs "workers") (duration_flag fs "lease")
    (string_flag fs "jobs") (string_flag fs "log-level") = resolved Getenv sets.
Proof.
  intros Ha. unfold resolved.
  f_equal; first [eapply setting_string|eapply setting_duration|eapply setting_int];
    (exact Ha || reflexivity).
Qed.

(** C17: the configuration the server runs with.  [Load] succeeds exactly on a
    well-formed command line that gives known flags readable texts and resolves
    to a valid configuration, and returns that configuration: for every field
    the last flag that sets it, else the environment variable when it is set and
    readable, else the default.  A valid configuration names a known backend,
    with a URL for PostgreSQL, and has at least one worker and a positive tick
    and lease. *)
Theorem Load_correct Getenv args cfg :
  Load Getenv args = Ok cfg <->
  exists sets, cmdline args sets /\ Forall settable sets
    /\ cfg = resolved Getenv sets /\ valid cfg.
Proof.
  unfold Load. set (cfg0 := FromEnv Getenv Default). split.
  - destruct (Parse (flags_of cfg0) args) as [fs|e] eqn:Hp; [|done].
    apply Parse_assign in Hp as (sets & Hc & Ha). rewrite (read_back _ _ _ Ha).
    destruct (Validate (resolved Getenv sets)) as [[]|e] eqn:Hv; [|done]. intros [= <-].
    exists sets. split_and!; [done| |done|by apply Validate_valid].
    apply (Forall_impl (accepted (flags_of cfg0))); [|intros s; apply accepted_settable].
    apply assign_defined. eauto.
  - intros (sets & Hc & Hs & -> & Hv).
    assert (is_Some (assign (flags_of cfg0) sets)) as [fs Ha].
    { apply assign_defined. eapply Forall_impl; [exact Hs|]. intros s. apply accepted_settable. }
    rewrite (proj2 (Parse_assign _ _ fs)) by eauto. rewrite (read_back _ _ _ Ha).
    by rewrite (proj2 (Validate_valid _) Hv).
Qed.
