(* ===== verification/JobsFile.v ===== *)
(** * Job files

    Models [src/internal/config/jobs.go]: the structures of the file with their
    JSON names, the conversion to jobs and [LoadJobs].  The file system is the
    function [os.ReadFile]; a pointer to a bool is an option. *)

From Stdlib Require Import ZArith Lia Ascii String.
From stdpp Require Import base list strings gmap.
From S2P Require Import Prelude GoTime GoStrings GoFloat GoDuration GoJson Job JobJson Dag.

#[local] Open Scope string_scope.
#[local] Open Scope Z_scope.

Record backoffSpec := mkBackoffSpec {
  bs_Base : string;
  bs_Max : string;
  bs_Factor : float64;
  bs_Jitter : float64
}.

Record JobSpec := mkJobSpec {
  js_ID : string;
  js_Name : string;
  js_Spec : string;
  js_Command : list string;
  js_MaxRetries : Z;
  js_Backoff : backoffSpec;
  js_DependsOn : list string;
  js_Timeout : string;
  js_Enabled : option bool
}.

Record jobsFile := mkJobsFile { jf_Jobs : list JobSpec }.

(** The zero values. *)
Definition zero_backoffSpec : backoffSpec := mkBackoffSpec "" "" f_zero f_zero.
Definition zero_JobSpec : JobSpec := mkJobSpec "" "" "" [] 0 zero_backoffSpec [] "" None.

(** ** Decoding *)

Definition backoff_field (name : string) : option (decoder backoffSpec) :=
  if String.eqb name "base" then
    Some (via bs_Base (fun o x => mkBackoffSpec x (bs_Max o) (bs_Factor o) (bs_Jitter o)) into_string)
  else if String.eqb name "max" then
    Some (via bs_Max (fun o x => mkBackoffSpec (bs_Base o) x (bs_Factor o) (bs_Jitter o)) into_string)
  else if String.eqb name "factor" then
    Some (via bs_Factor (fun o x => mkBackoffSpec (bs_Base o) (bs_Max o) x (bs_Jitter o)) into_float)
  else if String.eqb name "jitter" then
    Some (via bs_Jitter (fun o x => mkBackoffSpec (bs_Base o) (bs_Max o) (bs_Factor o) x) into_float)
  else None.

Definition job_field (name : string) : option (decoder JobSpec) :=
  if String.eqb name "id" then
    Some (via js_ID (fun o x => mkJobSpec x (js_Name o) (js_Spec o) (js_Command o) (js_MaxRetries o)
      (js_Backoff o) (js_DependsOn o) (js_Timeout o) (js_Enabled o)) into_string)
  else if String.eqb name "name" then
    Some (via js_Name (fun o x => mkJobSpec (js_ID o) x (js_Spec o) (js_Command o) (js_MaxRetries o)
      (js_Backoff o) (js_DependsOn o) (js_Timeout o) (js_Enabled o)) into_string)
  else if String.eqb name "spec" then
    Some (via js_Spec (fun o x => mkJobSpec (js_ID o) (js_Name o) x (js_Command o) (js_MaxRetries o)
      (js_Backoff o) (js_DependsOn o) (js_Timeout o) (js_Enabled o)) into_string)
  else if String.eqb name "command" then
    Some (via js_Command (fun o x => mkJobSpec (js_ID o) (js_Name o) (js_Spec o) x (js_MaxRetries o)
      (js_Backoff o) (js_DependsOn o) (js_Timeout o) (js_Enabled o)) into_strings)
  else if String.eqb name "max_retries" then
    Some (via js_MaxRetries (fun o x => mkJobSpec (js_ID o) (js_Name o) (js_Spec o) (js_Command o) x
      (js_Backoff o) (js_DependsOn o) (js_Timeout o) (js_Enabled o)) into_int)
  else if String.eqb name "backoff" then
    Some (via js_Backoff (fun o x => mkJobSpec (js_ID o) (js_Name o) (js_Spec o) (js_Command o)
      (js_MaxRetries o) x (js_DependsOn o) (js_Timeout o) (js_Enabled o)) (into_struct backoff_field))
  else if String.eqb name "depends_on" then
    Some (via js_DependsOn (fun o x => mkJobSpec (js_ID o) (js_Name o) (js_Spec o) (js_Command o)
      (js_MaxRetries o) (js_Backoff o) x (js_Timeout o) (js_Enabled o)) into_strings)
  else if String.eqb name "timeout" then
    Some (via js_Timeout (fun o x => mkJobSpec (js_ID o) (js_Name o) (js_Spec o) (js_Command o)
      (js_MaxRetries o) (js_Backoff o) (js_DependsOn o) x (js_Enabled o)) into_string)
  else if String.eqb name "enabled" then
    Some (via js_Enabled (fun o x => mkJobSpec (js_ID o) (js_Name o) (js_Spec o) (js_Command o)
      (js_MaxRetries o) (js_Backoff o) (js_DependsOn o) (js_Timeout o) x) into_bool_ptr)
  else None.

Definition file_field (name : string) : option (decoder jobsFile) :=
  if String.eqb name "jobs" then
    Some (via jf_Jobs (fun _ x => mkJobsFile x)
            (into_slice zero_JobSpec (into_struct job_field)))
  else None.

(** [json.Unmarshal(data, &doc)]. *)
Definition Unmarshal (data : string) : result decode_error jobsFile :=
  decoded (into_struct file_field) (mkJobsFile []) (parse_json data).

(** ** Conversion *)

Inductive spec_error :=
| IdRequired
| BadTimeout (e : duration_error)
| BadBase (e : duration_error)
| BadMax (e : duration_error).

Definition parseOptionalDuration (s : string) : result duration_error duration :=
  if String.eqb s "" then Ok 0 else ParseDuration s.

Definition wrap {E F A} (f : E -> F) (r : result E A) : result F A :=
  match r with Ok a => Ok a | Err e => Err (f e) end.

Definition toJob (s : JobSpec) : result spec_error Job :=
  if String.eqb (js_ID s) "" then Err IdRequired
  else
    let? timeout := wrap BadTimeout (parseOptionalDuration (js_Timeout s)) in
    let? base := wrap BadBase (parseOptionalDuration (bs_Base (js_Backoff s))) in
    let? maxDelay := wrap BadMax (parseOptionalDuration (bs_Max (js_Backoff s))) in
    let enabled := match js_Enabled s with Some b => b | None => true end in
    Ok (mkJob (js_ID s) (js_Name s) (js_Spec s) (js_Command s) (js_MaxRetries s)
          (mkRetryPolicy base maxDelay (bs_Factor (js_Backoff s)) (bs_Jitter (js_Backoff s)))
          (js_DependsOn s) timeout enabled zero_time zero_time).

Inductive jobs_error :=
| ReadError (msg : string)
| ParseError (e : decode_error)
| JobError (i : nat) (id : string) (e : spec_error)
| GraphError (e : graph_error).

(** The loop over the specs, from the [i]-th on. *)
Fixpoint convert (i : nat) (specs : list JobSpec) : result jobs_error (list Job) :=
  match specs with
  | [] => Ok []
  | s :: specs =>
      let? j := wrap (JobError i (js_ID s)) (toJob s) in
      let? jobs := convert (S i) specs in
      Ok (j :: jobs)
  end.

(** [iter] is the order in which Go visits the maps of the graph. *)
Definition LoadJobs (ReadFile : string -> result string string)
    (iter : nat -> gset string -> list string) (path : string) : result jobs_error (list Job) :=
  let? data := wrap ReadError (ReadFile path) in
  let? doc := wrap ParseError (Unmarshal data) in
  let? jobs := convert 0 (jf_Jobs doc) in
  let? _ := wrap GraphError (BuildGraph iter jobs) in
  Ok jobs.

(** ** Evaluations *)

Definition etl_file : string := quoted
  "{'jobs': [
     {'id': 'extract', 'spec': '*/5 * * * *', 'command': ['run', 'etl'], 'max_retries': 3,
      'backoff': {'base': '1s', 'max': '1m', 'factor': 1.5}, 'comment': 'ignored'},
     {'ID': 'load', 'depends_on': ['extract'], 'timeout': '90s', 'enabled': false}]}".

Definition one_file (data : string) : string -> result string string := fun _ => Ok data.

Example load_etl :
  LoadJobs (one_file etl_file) any_order "jobs.json" = Ok
    [mkJob "extract" "" "*/5 * * * *" ["run"; "etl"] 3
       (mkRetryPolicy Second Minute (f_lit 3 (-1)) f_zero) [] 0 true zero_time zero_time;
     mkJob "load" "" "" [] 0 zero_policy ["extract"] (90 * Second) false zero_time zero_time].
Proof. vm_compute. done. Qed.

(** The remaining fields of the document. *)
Example load_names :
  LoadJobs (one_file (quoted "{'jobs': [{'id': 'a', 'name': 'A', 'backoff': {'jitter': 0.5}}]}"))
    any_order "jobs.json"
  = Ok [mkJob "a" "A" "" [] 0 (mkRetryPolicy 0 0 f_zero (f_lit 1 (-1))) [] 0 true zero_time zero_time].
Proof. vm_compute. reflexivity. Qed.

Example load_jobs_errors :
  map (fun data => LoadJobs (one_file (quoted data)) any_order "jobs.json")
    ["{'jobs': [{'id': 'a'}, {'name': 'b'}]}"; "{'jobs': [{'id': 'a', 'timeout': '5'}]}";
     "{'jobs': [{'id': 'a', 'depends_on': ['b']}]}"; "{'jobs': [{'id': 'a', 'depends_on': ['a']}]}";
     "{'jobs': [{'id': 7}]}"; "{'jobs': "]
  = [Err (JobError 1 "" IdRequired); Err (JobError 0 "a" (BadTimeout MissingUnit));
     Err (GraphError (UnknownDependency "a" "b")); Err (GraphError ErrCycle);
     Err (ParseError BadType); Err (ParseError (BadJSON SyntaxError))].
Proof. vm_compute. done. Qed.

(** ** Correctness *)

(** The duration a text of the file stands for: none means zero. *)
Definition duration_of (text : string) (d : duration) : Prop :=
  (text = "" /\ d = 0) \/ (text <> "" /\ ParseDuration text = Ok d).

(** The job a spec stands for. *)
Record job_of (s : JobSpec) (j : Job) : Prop := {
  jo_id : job_ID j = js_ID s /\ js_ID s <> "";
  jo_text : job_Name j = js_Name s /\ job_Spec j = js_Spec s;
  jo_lists : job_Command j = js_Command s /\ job_DependsOn j = js_DependsOn s;
  jo_retries : job_MaxRetries j = js_MaxRetries s;
  jo_timeout : duration_of (js_Timeout s) (job_Timeout j);
  jo_base : duration_of (bs_Base (js_Backoff s)) (rp_Base (job_Backoff j));
  jo_max : duration_of (bs_Max (js_Backoff s)) (rp_Max (job_Backoff j));
  jo_factor : rp_Factor (job_Backoff j) = bs_Factor (js_Backoff s)
    /\ rp_Jitter (job_Backoff j) = bs_Jitter (js_Backoff s);
  jo_enabled : job_Enabled j = default true (js_Enabled s);
  jo_times : job_CreatedAt j = zero_time /\ job_UpdatedAt j = zero_time
}.

Lemma parseOptionalDuration_spec text d :
  parseOptionalDuration text = Ok d <-> duration_of text d.
Proof.
  unfold parseOptionalDuration, duration_of. destruct (String.eqb_spec text "") as [->|Hne].
  - split; [intros [= <-]; auto|]. by intros [[_ ->]|[? _]].
  - split; [auto|]. by intros [[? _]|[_ ?]].
Qed.

Lemma wrap_ok {E F A} (f : E -> F) (r : result E A) a : wrap f r = Ok a <-> r = Ok a.
Proof. destruct r; cbn; (split; [intros [= ->]|intros [= ->]]; done). Qed.

Lemma toJob_spec s j : toJob s = Ok j <-> job_of s j.
Proof.
  unfold toJob. destruct (String.eqb_spec (js_ID s) "") as [He|Hne].
  { split; [done|]. intros []. tauto. }
  split.
  - destruct (wrap BadTimeout _) as [t|] eqn:Et; [|done].
    destruct (wrap BadBase _) as [b|] eqn:Eb; [|done].
    destruct (wrap BadMax _) as [m|] eqn:Em; [|done]. intros [= <-].
    apply wrap_ok, parseOptionalDuration_spec in Et, Eb, Em.
    split; cbn; try done.
  - intros [[Hi _] [Hn Hs] [Hc Hd] Hr Ht Hb Hm [Hf Hj] Hen [Hct Hut]].
    apply parseOptionalDuration_spec in Ht, Hb, Hm. rewrite Ht, Hb, Hm. cbn.
    destruct j as [? ? ? ? ? [] ? ? ? ? ?]; cbn in *. subst. by destruct (js_Enabled s).
Qed.

Lemma convert_spec specs : forall i jobs, convert i specs = Ok jobs <-> Forall2 job_of specs jobs.
Proof.
  induction specs as [|s specs IH]; intros i jobs; cbn [convert].
  { split; [by intros [= <-]|]. by intros ->%Forall2_nil_inv_l. }
  split.
  - destruct (wrap _ (toJob s)) as [j|] eqn:Ej; [|done]. apply wrap_ok, toJob_spec in Ej.
    destruct (convert (S i) specs) as [js|] eqn:Ejs; [|done]. intros [= <-].
    constructor; [done|]. by eapply IH.
  - intros (j & js & Hj & Hjs & ->)%Forall2_cons_inv_l.
    rewrite (proj2 (wrap_ok _ _ j)) by (by apply toJob_spec).
    by rewrite (proj2 (IH (S i) js)).
Qed.

(** C18: [LoadJobs] returns jobs exactly when the file can be read, is a JSON
    document of the declared shape, every spec has an identifier and readable
    durations, every dependency names a job of the file and the dependencies have
    no cycle; the jobs are then those of the specs, in order: a missing duration
    is zero, a missing enabled flag is true, the times are zero. *)
Theorem LoadJobs_correct ReadFile (iter : nat -> gset string -> list string) path jobs :
  (forall k X, iter k X ≡ₚ elements X) ->
  LoadJobs ReadFile iter path = Ok jobs <->
  exists data doc, ReadFile path = Ok data /\ Unmarshal data = Ok doc
    /\ Forall2 job_of (jf_Jobs doc) jobs
    /\ (forall a b, declared jobs a b -> a ∈ map job_ID jobs)
    /\ (forall x, ~ tc (declared jobs) x x).
Proof.
  intros Hiter. pose proof (BuildGraph_accepts iter jobs Hiter) as Hg. unfold LoadJobs. split.
  - destruct (wrap ReadError _) as [data|] eqn:Ed; [|done]. apply wrap_ok in Ed.
    destruct (wrap ParseError _) as [doc|] eqn:Eo; [|done]. apply wrap_ok in Eo.
    destruct (convert 0 _) as [js|] eqn:Ec; [|done]. apply convert_spec in Ec.
    destruct (wrap GraphError _) as [g|] eqn:Eg; [|done]. intros [= ->]. apply wrap_ok in Eg.
    rewrite Eg in Hg. destruct Hg as [Hg _]. destruct (Hg eq_refl). eauto 8.
  - intros (data & doc & Hd & Ho & Hc & Hk & Hno). rewrite Hd. cbn. rewrite Ho. cbn.
    rewrite (proj2 (convert_spec _ 0 jobs) Hc). cbn.
    destruct Hg as [_ Hg]. specialize (Hg (conj Hk Hno)). by destruct (BuildGraph iter jobs).
Qed.

Lemma LoadJobs_correct_witness :
  exists data doc, one_file etl_file "jobs.json" = Ok data /\ Unmarshal data = Ok doc
    /\ length (jf_Jobs doc) = 2%nat.
Proof.
  destruct (proj1 (LoadJobs_correct (one_file etl_file) any_order "jobs.json" _
    (fun _ _ => reflexivity _)) load_etl) as (data & doc & H1 & H2 & H3 & _).
  exists data, doc. split; [exact H1|]. split; [exact H2|]. exact (Forall2_length _ _ _ H3).
Defined.
