(* ===== verification/Api.v ===== *)
(** * The HTTP API

    Models [src/internal/api/]: [server.go], [jobs.go], [runs.go], [health.go] and
    [dashboard.go].  A handler is a program over the store and the clock that
    ends with a response; the routes are registered with the multiplexer of
    [GoMux.v].

    Arguments stand for the texts of the errors of [encoding/json] and of
    [cron.Parse], the Prometheus handler and the embedded web assets.  A JSON
    response keeps the value given to the encoder. *)

From Stdlib Require Import ZArith Lia Ascii String.
From stdpp Require Import base list strings gmap sorting.
From S2P Require Import Prelude GoTime GoStrings GoFloat GoJson GoMux CronParser Job JobJson Store MemoryStore.
From S2P Require Import FaultyStore Effects Worker Dispatcher Scheduler.

#[local] Open Scope string_scope.
#[local] Open Scope list_scope.
#[local] Open Scope Z_scope.

(** ** Requests and responses *)

Record Request := mkRequest {
  rq_Method : string;
  rq_Path : string (** escaped *);
  rq_Query : string -> string (** [r.URL.Query().Get] *);
  rq_Body : string
}.

Inductive payload :=
| PMessage (kv : list (string * string))
| PJob (j : Job)
| PJobs (l : list Job)
| PRun (r : Run)
| PRuns (l : list Run).

Inductive body :=
| Empty
| JSON (v : payload)
| Bytes (s : string).

Record Response := mkResponse {
  rs_Status : Z;
  rs_Header : list (string * string);
  rs_Body : body
}.

Definition StatusOK : Z := 200.
Definition StatusCreated : Z := 201.
Definition StatusAccepted : Z := 202.
Definition StatusNoContent : Z := 204.
Definition StatusMovedPermanently : Z := 301.
Definition StatusBadRequest : Z := 400.
Definition StatusNotFound : Z := 404.
Definition StatusMethodNotAllowed : Z := 405.
Definition StatusInternalServerError : Z := 500.
Definition StatusServiceUnavailable : Z := 503.

Definition writeJSON (status : Z) (v : payload) : Response :=
  mkResponse status [("Content-Type", "application/json; charset=utf-8")] (JSON v).

Definition writeError (status : Z) (msg : string) : Response :=
  writeJSON status (PMessage [("error", msg)]).

(** [err.Error()]. *)
Definition store_error_text (e : store_error) : string :=
  match e with ErrNotFound => "store: not found" | Backend msg => msg end.

Definition writeStoreError (e : store_error) : Response :=
  match e with
  | ErrNotFound => writeError StatusNotFound "not found"
  | _ => writeError StatusInternalServerError (store_error_text e)
  end.

(** The path values of a request. *)
Definition PathValue (values : list (string * string)) (name : string) : string :=
  match find (fun kv => String.eqb kv.1 name) values with Some kv => kv.2 | None => "" end.

Definition Handler := Request -> list (string * string) -> prog Response.

(** [scheduler] and [gatherer] may be nil; the assets of the dashboard may fail to
    open.  The metrics and the assets do not come from the store. *)
Record Server := mkServer {
  sv_scheduler : bool;
  sv_gatherer : option (Request -> Response);
  sv_files : option (Request -> Response);
  sv_index : option string;
  sv_version : string
}.

Section Api.
Context (decode_error_text : decode_error -> string).
Context (parse_error_text : parse_error -> string).

(** ** Jobs *)

Definition handleListJobs : Handler := fun _ _ =>
  let* r := do_call ListJobs in
  match r with
  | Err e => Ret (writeError StatusInternalServerError (store_error_text e))
  | Ok jobs => Ret (writeJSON StatusOK (PJobs jobs))
  end.

Definition with_times (j : Job) (created updated : time) : Job :=
  mkJob (job_ID j) (job_Name j) (job_Spec j) (job_Command j) (job_MaxRetries j) (job_Backoff j)
    (job_DependsOn j) (job_Timeout j) (job_Enabled j) created updated.

Definition handleCreateJob : Handler := fun r _ =>
  match DecodeJob (rq_Body r) with
  | Err e => Ret (writeError StatusBadRequest ("invalid JSON: " ++ decode_error_text e))
  | Ok j =>
      if String.eqb (job_ID j) "" then Ret (writeError StatusBadRequest "job id is required")
      else match (if String.eqb (job_Spec j) "" then None
                  else match Parse (job_Spec j) with Ok _ => None | Err e => Some e end) with
           | Some e => Ret (writeError StatusBadRequest (parse_error_text e))
           | None =>
               let* now := do_eff Now in
               let j := with_times j (if IsZero (job_CreatedAt j) then now else job_CreatedAt j) now in
               let* err := do_call (PutJob j) in
               match err with
               | Err e => Ret (writeError StatusInternalServerError (store_error_text e))
               | Ok _ => Ret (writeJSON StatusCreated (PJob j))
               end
           end
  end.

Definition handleGetJob : Handler := fun _ values =>
  let* r := do_call (GetJob (PathValue values "id")) in
  match r with
  | Err e => Ret (writeStoreError e)
  | Ok j => Ret (writeJSON StatusOK (PJob j))
  end.

Definition handleDeleteJob : Handler := fun _ values =>
  let* r := do_call (DeleteJob (PathValue values "id")) in
  match r with
  | Err e => Ret (writeStoreError e)
  | Ok _ => Ret (mkResponse StatusNoContent [] Empty)
  end.

Definition handleTriggerJob (s : Server) : Handler := fun _ values =>
  if sv_scheduler s then
    let* r := Trigger (PathValue values "id") in
    match r with
    | Err e => Ret (writeStoreError e)
    | Ok run => Ret (writeJSON StatusAccepted (PRun run))
    end
  else Ret (writeError StatusServiceUnavailable "scheduler not available").

(** ** Runs *)

Definition atoiDefault (s : string) (def : Z) : Z :=
  if String.eqb s "" then def
  else match Atoi s with
       | Err _ => def
       | Ok n => if n <? 0 then def else n
       end.

Definition run_filter (q : string -> string) : RunFilter :=
  mkRunFilter (q "job") (q "batch") (q "state") (atoiDefault (q "limit") 100)
    (atoiDefault (q "offset") 0).

Definition handleListRuns : Handler := fun r _ =>
  let* rs := do_call (ListRuns (run_filter (rq_Query r))) in
  match rs with
  | Err e => Ret (writeError StatusInternalServerError (store_error_text e))
  | Ok runs => Ret (writeJSON StatusOK (PRuns runs))
  end.

Definition handleGetRun : Handler := fun _ values =>
  let* r := do_call (GetRun (PathValue values "id")) in
  match r with
  | Err e => Ret (writeStoreError e)
  | Ok run => Ret (writeJSON StatusOK (PRun run))
  end.

(** ** Probes, information and the dashboard *)

Definition handleHealth (s : Server) : Handler := fun _ _ =>
  Ret (writeJSON StatusOK (PMessage [("status", "ok"); ("version", sv_version s)])).

Definition handleReady : Handler := fun _ _ =>
  let* r := do_call ListJobs in
  match r with
  | Err e => Ret (writeError StatusServiceUnavailable ("store unavailable: " ++ store_error_text e))
  | Ok _ => Ret (writeJSON StatusOK (PMessage [("status", "ready")]))
  end.

Definition serviceInfo : Handler := fun _ _ =>
  Ret (writeJSON StatusOK
    (PMessage [("service", "cronflux"); ("api", "/api"); ("metrics", "/metrics")])).

Definition handleRoot : Handler := fun _ _ => Ret (writeError StatusNotFound "not found").

Definition handleIndex (index : string) : Handler := fun _ _ =>
  Ret (mkResponse StatusOK [("Content-Type", "text/html; charset=utf-8")] (Bytes index)).

(** ** Routes *)

Definition HandleFunc (mux : ServeMux Handler) (pat : string) (h : Handler) : ServeMux Handler :=
  mux ++ [mkRoute (parsePattern pat) h].

Definition registerJobRoutes (s : Server) (mux : ServeMux Handler) : ServeMux Handler :=
  let mux := HandleFunc mux "GET /api/jobs" handleListJobs in
  let mux := HandleFunc mux "POST /api/jobs" handleCreateJob in
  let mux := HandleFunc mux "GET /api/jobs/{id}" handleGetJob in
  let mux := HandleFunc mux "DELETE /api/jobs/{id}" handleDeleteJob in
  HandleFunc mux "POST /api/jobs/{id}/trigger" (handleTriggerJob s).

Definition registerRunRoutes (mux : ServeMux Handler) : ServeMux Handler :=
  let mux := HandleFunc mux "GET /api/runs" handleListRuns in
  HandleFunc mux "GET /api/runs/{id}" handleGetRun.

Definition registerHealthRoutes (s : Server) (mux : ServeMux Handler) : ServeMux Handler :=
  let mux := HandleFunc mux "GET /healthz" (handleHealth s) in
  HandleFunc mux "GET /readyz" handleReady.

Definition registerDashboard (s : Server) (mux : ServeMux Handler) : ServeMux Handler :=
  match sv_files s with
  | None => mux
  | Some files =>
      let mux := HandleFunc mux "GET /ui/" (fun r _ => Ret (files r)) in
      match sv_index s with
      | None => mux
      | Some index => HandleFunc mux "GET /{$}" (handleIndex index)
      end
  end.

Definition routes (s : Server) (mux : ServeMux Handler) : ServeMux Handler :=
  let mux := registerJobRoutes s mux in
  let mux := registerRunRoutes mux in
  let mux := registerHealthRoutes s mux in
  let mux := HandleFunc mux "GET /api" serviceInfo in
  let mux := match sv_gatherer s with
             | Some metrics => HandleFunc mux "GET /metrics" (fun r _ => Ret (metrics r))
             | None => mux
             end in
  let mux := registerDashboard s mux in
  HandleFunc mux "GET /" handleRoot.

(** ** Serving a request *)

Fixpoint comma_join (l : list string) : string :=
  match l with [] => "" | [x] => x | x :: l => (x ++ ", " ++ comma_join l)%string end.

(** What the multiplexer answers itself is plain text. *)
Definition ServeHTTP (mux : ServeMux Handler) (r : Request) : prog Response :=
  match findHandler mux (rq_Method r) (rq_Path r) with
  | Serve h values => h r values
  | Redirect path => Ret (mkResponse StatusMovedPermanently [("Location", path)] (Bytes ""))
  | MethodNotAllowed allow =>
      Ret (mkResponse StatusMethodNotAllowed [("Allow", comma_join allow)]
             (Bytes "Method Not Allowed"))
  | NotFound => Ret (mkResponse StatusNotFound [] (Bytes "404 page not found"))
  end.

(** The attributes of a log line: method, path, status and duration. *)
Definition log_line : Type := string * string * Z * duration.

(** [withLogging]: the recorder sees the status that the response carries. *)
Definition withLogging (next : Request -> prog Response) (r : Request) : prog (Response * log_line) :=
  let* start := do_eff Now in
  let* resp := next r in
  let* now := do_eff Now in
  Ret (resp, (rq_Method r, rq_Path r, rs_Status resp, Sub now start)).

(** [NewServer]: the handler of the server. *)
Definition server_handler (s : Server) (r : Request) : prog (Response * log_line) :=
  withLogging (ServeHTTP (routes s [])) r.
End Api.

(** ** Evaluations *)

Definition no_query : string -> string := fun _ => "".

Definition plain_server : Server :=
  mkServer true (Some (fun _ => mkResponse 200 [] (Bytes "cronflux_")))
    (Some (fun _ => mkResponse 200 [] (Bytes "asset"))) (Some "<title>cronflux</title>") "dev".

Definition no_detail : decode_error -> string := fun _ => "unexpected EOF".
Definition no_text : parse_error -> string := fun _ => "bad spec".

Definition statuses (body : string) (reqs : list (string * string)) : list Z :=
  (run calm_env
    ((fix go (reqs : list (string * string)) : prog (list Z) :=
       match reqs with
       | [] => Ret []
       | (m, p) :: reqs =>
           let* r := server_handler no_detail no_text plain_server (mkRequest m p no_query body) in
           let* l := go reqs in Ret (rs_Status r.1 :: l)
       end) reqs) (mkWorld Memory.New 0 false [])).1.

Example job_lifecycle :
  statuses (quoted "{'id': 'nightly', 'spec': '@daily', 'enabled': true}")
    [("GET", "/api/jobs/nightly"); ("POST", "/api/jobs"); ("GET", "/api/jobs/nightly");
     ("POST", "/api/jobs/nightly/trigger"); ("DELETE", "/api/jobs/nightly");
     ("POST", "/api/jobs/nightly/trigger"); ("GET", "/api/jobs")]
  = [404; 201; 200; 202; 204; 404; 200].
Proof. vm_compute. done. Qed.
Example other_answers :
  statuses (quoted "{'id': 'nightly', 'spec': 'daily'}")
    [("GET", "/healthz"); ("GET", "/readyz"); ("HEAD", "/api"); ("GET", "/metrics"); ("GET", "/");
     ("GET", "/ui/app.js"); ("GET", "/ui"); ("GET", "/api//jobs"); ("GET", "/nope");
     ("POST", "/nope"); ("PUT", "/api/jobs"); ("POST", "/api/jobs")]
  = [200; 200; 200; 200; 200; 200; 301; 301; 404; 405; 405; 400].
Proof. vm_compute. done. Qed.

(** ** Correctness on a reliable store *)

Section Reliable.
Context {S : Type} `{Store S} (E : env) (Hreliable : fallible = false).
Context (decode_error_text : decode_error -> string) (parse_error_text : parse_error -> string).

(** Rule out a failure of the backend in a call's specification. *)
Ltac no_failure Hf := rewrite Hreliable in Hf; by apply not_failed in Hf.

(** A cron expression that [POST] accepts; none means no schedule. *)
Definition accepted_spec (spec : string) : Prop := spec = "" \/ is_ok (Parse spec) = true.

(** C21: creating a job.  A body that does not decode, a missing identifier or a
    bad cron expression is refused with 400 and changes nothing; any other job is
    stored under its identifier, replacing what was there, and returned with 201,
    its update time set to the present and its creation time too when the body
    has none. *)
Theorem create_job_correct (w : world S) (r : Request) values :
  world_ok w ->
  wp E (handleCreateJob decode_error_text parse_error_text r values) (fun resp w' =>
    match DecodeJob (rq_Body r) with
    | Err e => resp = writeError 400 ("invalid JSON: " ++ decode_error_text e) /\ w_db w' = w_db w
    | Ok j =>
        (job_ID j = "" /\ resp = writeError 400 "job id is required" /\ w_db w' = w_db w)
        \/ (job_ID j <> "" /\ (exists e, Parse (job_Spec j) = Err e
              /\ resp = writeError 400 (parse_error_text e)) /\ job_Spec j <> "" /\ w_db w' = w_db w)
        \/ (job_ID j <> "" /\ accepted_spec (job_Spec j) /\
            let now := env_now E (w_count w) in
            let j' := with_times j (if job_CreatedAt j =? 0 then now else job_CreatedAt j) now in
            resp = writeJSON 201 (PJob j')
            /\ w_db w' = mkDb (<[job_ID j := j']> (db_jobs (w_db w))) (db_runs (w_db w)))
    end) w.
Proof.
  intros Hok. unfold handleCreateJob. destruct (DecodeJob (rq_Body r)) as [j|e]; [|by ret].
  destruct (String.eqb_spec (job_ID j) "") as [Hid|Hid]; [ret; by left|].
  assert (forall Q : Response -> world S -> Prop,
    (forall resp w', resp = writeJSON 201 (PJob (with_times j
         (if job_CreatedAt j =? 0 then env_now E (w_count w) else job_CreatedAt j) (env_now E (w_count w))))
       -> w_db w' = mkDb (<[job_ID j := with_times j
         (if job_CreatedAt j =? 0 then env_now E (w_count w) else job_CreatedAt j) (env_now E (w_count w))]>
           (db_jobs (w_db w))) (db_runs (w_db w)) -> Q resp w') ->
    wp E (let* now := do_eff Now in
          let j := with_times j (if IsZero (job_CreatedAt j) then now else job_CreatedAt j) now in
          let* err := do_call (PutJob j) in
          match err with
          | Err e => Ret (writeError StatusInternalServerError (store_error_text e))
          | Ok _ => Ret (writeJSON StatusCreated (PJob j))
          end) Q w) as Hput.
  { intros Q HQ. effect. cbv zeta. apply wp_bind, wp_call; [done|].
    intros x w1 _ _ _ _ [Hf|[-> Hd]]; [no_failure Hf|]. ret. by apply HQ. }
  destruct (String.eqb_spec (job_Spec j) "") as [Hs|Hs].
  - apply Hput. intros resp w' -> Hd. right; right. split_and!; [done|by left|done|done].
  - destruct (Parse (job_Spec j)) as [sch|e] eqn:Hp.
    + apply Hput. intros resp w' -> Hd. right; right. split_and!; [done| |done|done].
      right. by rewrite Hp.
    + ret. right; left. split_and!; [done|by exists e|done|done].
Qed.

(** What a lookup by identifier answers. *)
Definition found_response {A} (status : Z) (wrap : A -> payload) (o : option A) : Response :=
  match o with
  | Some a => writeJSON status (wrap a)
  | None => writeError 404 "not found"
  end.

(** A job by its identifier.  [GET] returns it, [DELETE] removes exactly it,
    and a trigger adds one pending first attempt of it, due now, in a batch of its
    own; for an unknown identifier all three answer 404 and change nothing. *)
Theorem job_resource_correct (w : world S) (s : Server) (r : Request) values :
  world_ok w -> sv_scheduler s = true ->
  let id := PathValue values "id" in
  let job := db_jobs (w_db w) !! id in
  wp E (handleGetJob r values) (fun resp w' =>
    resp = found_response 200 PJob job /\ w_db w' = w_db w) w
  /\ wp E (handleDeleteJob r values) (fun resp w' =>
    resp = match job with Some _ => mkResponse 204 [] Empty | None => writeError 404 "not found" end
    /\ w_db w' = mkDb (delete id (db_jobs (w_db w))) (db_runs (w_db w))) w
  /\ wp E (handleTriggerJob s r values) (fun resp w' =>
    let n := w_count w in
    let run := pending_run (env_id E (2 + n)) id (env_id E (3 + n)) 0
                 (env_now E (1 + n)) (env_now E (1 + n)) in
    resp = found_response 202 (fun _ => PRun run) job
    /\ w_db w' = match job with Some _ => put_run (w_db w) run | None => w_db w end) w.
Proof.
  intros Hok Hs id job. split_and!.
  - unfold handleGetJob. apply wp_bind, wp_call; [done|].
    intros x w1 _ _ _ _ [Hf|[-> Hd]]; [no_failure Hf|]. fold id job. by destruct job; ret.
  - unfold handleDeleteJob. apply wp_bind, wp_call; [done|].
    intros x w1 _ _ _ _ [Hf|[-> Hd]]; [no_failure Hf|]. fold id job in Hd |- *. by destruct job; ret.
  - unfold handleTriggerJob. rewrite Hs. apply wp_bind.
    eapply wp_mono; [by apply Trigger_effect|]. intros x w1 Hp. fold id job in Hp.
    destruct job as [j|]; destruct Hp as [-> Hd]; by ret.
Qed.
(** What the text of a numeric parameter means. *)
Lemma atoiDefault_spec text def :
  (exists n, Atoi text = Ok n /\ 0 <= n /\ atoiDefault text def = n)
  \/ ((forall n, Atoi text = Ok n -> n < 0) /\ atoiDefault text def = def).
Proof.
  unfold atoiDefault. destruct (String.eqb_spec text "") as [->|Hne]; [by right|].
  destruct (Atoi text) as [n|e]; [|by right]. destruct (Z.ltb_spec n 0).
  - right. split; [intros ? [= <-]; lia|done].
  - left. eauto.
Qed.

Lemma atoiDefault_pos text def : 0 <= def -> 0 <= atoiDefault text def.
Proof. destruct (atoiDefault_spec text def) as [(n & _ & Hn & ->)|[_ ->]]; done. Qed.

(** The window of a filter whose numbers are not negative. *)
Lemma filter_window {A} f (l : list A) :
  0 <= rf_Offset f -> 0 <= rf_Limit f ->
  page f l = let rest := drop (Z.to_nat (rf_Offset f)) l in
             if rf_Limit f =? 0 then rest else take (Z.to_nat (rf_Limit f)) rest.
Proof.
  intros Ho Hl. unfold page. cbv zeta.
  replace (if 0 <? rf_Offset f then drop (Z.to_nat (rf_Offset f)) l else l)
    with (drop (Z.to_nat (rf_Offset f)) l)
    by (destruct (Z.ltb_spec 0 (rf_Offset f)); [done|by replace (rf_Offset f) with 0 by lia]).
  destruct (Z.ltb_spec 0 (rf_Limit f)), (Z.eqb_spec (rf_Limit f) 0); [lia|done|done|lia].
Qed.

(** The number that a query parameter asks for: a decimal that is not negative,
    and otherwise the default. *)
Definition asked (text : string) (def n : Z) : Prop :=
  (Atoi text = Ok n /\ 0 <= n) \/ ((forall m, Atoi text = Ok m -> m < 0) /\ n = def).

Lemma atoiDefault_asked text def : asked text def (atoiDefault text def).
Proof.
  destruct (atoiDefault_spec text def) as [(n & Ha & Hn & ->)|[Hn ->]]; [by left|by right].
Qed.

(** C32: listing runs on a store that does not fail.  Of the runs that have the
    job, the batch and the state that the parameters "job", "batch" and "state"
    name, where an absent parameter selects all, sorted newest first, the answer
    skips as many as the parameter "offset" asks for, none by default, and has at
    most as many as "limit" asks for, 100 by default; a limit of 0 is no limit.
    An offset or limit that is no decimal or is negative counts as absent.  The
    database is not touched. *)
Theorem list_runs_correct (w : world S) (r : Request) values :
  world_ok w ->
  let q := rq_Query r in
  wp E (handleListRuns r values) (fun resp w' => w_db w' = w_db w /\
    exists l offset limit,
      (forall x, x ∈ l <-> db_runs (w_db w) !! run_ID x = Some x
         /\ (q "job" = "" \/ run_JobID x = q "job")
         /\ (q "batch" = "" \/ run_BatchID x = q "batch")
         /\ (q "state" = "" \/ run_State x = q "state"))
      /\ NoDup (map run_ID l) /\ Sorted newer l
      /\ asked (q "offset") 0 offset /\ asked (q "limit") 100 limit
      /\ resp = writeJSON 200 (PRuns (let rest := drop (Z.to_nat offset) l in
           if limit =? 0 then rest else take (Z.to_nat limit) rest))) w.
Proof.
  intros Hok q. pose proof (store_keyed _ Hok) as Hk. unfold handleListRuns.
  apply wp_bind, wp_call; [done|]. intros x w1 _ _ _ _ [Hf|(l & -> & Hp & Hs & Hd)]; [no_failure Hf|].
  ret. split; [done|]. exists l, (atoiDefault (q "offset") 0), (atoiDefault (q "limit") 100).
  split_and!; [|..|apply atoiDefault_asked|apply atoiDefault_asked|].
  - intros y. rewrite (elem_of_matching _ _ _ _ Hk Hp). unfold matches.
    rewrite !andb_true_iff, !orb_true_iff, !String.eqb_eq. cbn. tauto.
  - rewrite Hp. eapply sublist_NoDup; [by apply NoDup_run_ids|]. apply fmap_sublist, sublist_filter.
  - done.
  - f_equal. f_equal. apply filter_window; apply atoiDefault_pos; lia.
Qed.
End Reliable.

(** ** Safety on every store

    The store may fail; a failed call changes nothing. *)

Section Safety.
Context {S : Type} `{Store S} (E : env).
Context (decode_error_text : decode_error -> string) (parse_error_text : parse_error -> string).

(** A handler that changes the database only when it reports success, and never
    when it [reads]. *)
Definition well_behaved (reads : bool) (h : Handler) : Prop :=
  forall r values (w : world S), world_ok w ->
  wp E (h r values) (fun resp w' => reads = true \/ 400 <= rs_Status resp -> w_db w' = w_db w) w.

Lemma reading_weaken h : well_behaved true h -> well_behaved false h.
Proof.
  intros Hh r values w Hok. eapply wp_mono; [by apply Hh|]. intros resp w' Hp _. by apply Hp; left.
Qed.

Lemma pure_handler reads (f : Request -> Response) : well_behaved reads (fun r _ => Ret (f r)).
Proof. intros r values w Hok. by ret. Qed.

(** Calls that only read. *)
Definition reading_call {R} (c : call R) : Prop :=
  forall b d r d', store_spec b c d r d' -> d' = d.

(** A handler that makes one call and answers. *)
Definition answers {A} (k : A -> prog Response) : Prop := forall a, exists resp, k a = Ret resp.

Lemma reading_handler {R} (h : Handler) (c : Request -> list (string * string) -> call R) k :
  (forall r v, h r v = bind (do_call (c r v)) k) ->
  (forall r v, reading_call (c r v)) -> answers k -> well_behaved true h.
Proof.
  intros Hh Hc Hk r values w Hok. rewrite Hh. apply wp_bind, wp_call; [done|].
  intros x w1 _ _ _ _ Hs. destruct (Hk x) as [resp ->]. ret. intros _. by eapply Hc.
Qed.

Ltac reads_only :=
  eapply reading_handler;
  [ intros; reflexivity
  | intros r v b d x d' Hs; cbn in Hs; unfold failed in Hs; intuition (subst; done) || naive_solver
  | intros [?|?]; eauto ].

Lemma read_handlers :
  well_behaved true handleListJobs /\ well_behaved true handleGetJob
  /\ well_behaved true handleListRuns /\ well_behaved true handleGetRun
  /\ well_behaved true handleReady.
Proof. split_and!; reads_only. Qed.

(** The status reports success. *)
Ltac success := let Hst := fresh in intros [[=]|Hst]; by destruct (Hst eq_refl).

Lemma delete_safe : well_behaved false handleDeleteJob.
Proof.
  intros r values w Hok. apply wp_bind, wp_call; [done|].
  intros x w1 _ _ _ _ [(_ & [msg ->] & Hd)|[-> Hd]]; [by ret|].
  destruct (db_jobs (w_db w) !! PathValue values "id") eqn:Hj; ret.
  - success.
  - intros _. rewrite Hd, delete_id by done. by destruct (w_db w).
Qed.

Lemma trigger_safe s : well_behaved false (handleTriggerJob s).
Proof.
  intros r values w Hok. unfold handleTriggerJob. destruct (sv_scheduler s); [|by ret].
  unfold Trigger. apply wp_bind, wp_bind, wp_call; [done|].
  intros x w1 Hok1 _ _ _ [(_ & [msg ->] & Hd)|[-> Hd]]; [by ret|].
  destruct (db_jobs (w_db w) !! PathValue values "id") as [j|]; cbn [found]; [|by ret].
  do 3 effect. apply wp_bind, wp_call; [done|].
  intros y w2 _ _ _ _ [(_ & [msg ->] & Hd2)|[-> _]]; ret; ret.
  - intros _. rewrite Hd2. exact Hd.
  - success.
Qed.

Lemma create_safe : well_behaved false (handleCreateJob decode_error_text parse_error_text).
Proof.
  intros r values w Hok. unfold handleCreateJob. destruct (DecodeJob (rq_Body r)) as [j|e]; [|by ret].
  destruct (String.eqb (job_ID j) ""); [by ret|].
  destruct (if String.eqb (job_Spec j) "" then None else _) as [e|]; [by ret|].
  effect. cbv zeta. apply wp_bind, wp_call; [done|].
  intros x w1 _ _ _ _ [(_ & [msg ->] & Hd)|[-> _]]; ret; [done|].
  success.
Qed.

(** *** The multiplexer only serves registered routes *)

(** Whether a method only reads. *)
Definition reads_method (m : string) : bool := String.eqb m "GET" || String.eqb m "HEAD".

Definition route_safe (rt : route Handler) : Prop :=
  well_behaved (reads_method (p_method (r_pattern rt))) (r_handler rt).

Lemma routes_safe s : Forall route_safe (routes decode_error_text parse_error_text s []).
Proof.
  destruct read_handlers as (H1 & H2 & H3 & H4 & H5).
  unfold routes, registerDashboard, registerHealthRoutes, registerRunRoutes, registerJobRoutes, HandleFunc.
  destruct (sv_gatherer s), (sv_files s), (sv_index s); cbn [app];
  repeat (apply Forall_app; split); repeat constructor; unfold route_safe; cbn [r_pattern r_handler];
    first [exact H1|exact H2|exact H3|exact H4|exact H5|exact delete_safe|exact create_safe
          |exact (trigger_safe s)|apply pure_handler].
Qed.

(** C20: a request changes the database only when it reports success.  On any
    store that meets the contract, failing or not, and for any server, method and
    path, clean or not: when the answer is an error (status 400 or above) the
    database is what it was, and a [GET] or [HEAD] request never changes it.  The
    log line carries the status of the answer. *)
Theorem requests_safe (s : Server) (r : Request) (w : world S) :
  world_ok w ->
  wp E (server_handler decode_error_text parse_error_text s r) (fun out w' =>
    (rq_Method r = "GET" \/ rq_Method r = "HEAD" \/ 400 <= rs_Status out.1 -> w_db w' = w_db w)
    /\ out.2.1.2 = rs_Status out.1) w.
Proof.
  intros Hok. unfold server_handler, withLogging. effect. apply wp_bind.
  set (w1 := mkWorld _ _ _ _).
  assert (wp E (ServeHTTP (routes decode_error_text parse_error_text s []) r) (fun resp w' =>
    rq_Method r = "GET" \/ rq_Method r = "HEAD" \/ 400 <= rs_Status resp -> w_db w' = w_db w) w1) as Hs.
  { unfold ServeHTTP. destruct (findHandler _ _ _) as [h values|p|allow|] eqn:Hf; try by ret.
    unfold findHandler in Hf. repeat (case_on; [done|]).
    destruct (match_route _ _ _) as [[rt v]|] eqn:Hm; [|by case_on]. injection Hf as <- <-.
    apply match_route_found in Hm as [Hin Hmethod].
    pose proof (proj1 (Forall_forall _ _) (routes_safe s) rt Hin) as Hsafe.
    eapply wp_mono; [by apply (Hsafe r _ w1)|]. intros resp w' Hp Hcase.
    transitivity (w_db w1); [|done]. apply Hp. unfold reads_method.
    destruct Hcase as [Hg|[Hg|Hst]]; [left..|by right].
    - destruct Hmethod as [->|[Hh _]]; [by rewrite Hg|congruence].
    - destruct Hmethod as [->|[_ ->]]; [by rewrite Hg|done]. }
  eapply wp_mono; [exact Hs|]. intros resp w2 Hp. effect. ret. split; [|done]. exact Hp.
Qed.
End Safety.

(** ** Witnesses *)

Definition nightly_world : world Memory.state := one_job (cron_job "nightly" "@daily").

Lemma requests_safe_witness :
  w_db (run calm_env (server_handler no_detail no_text plain_server
          (mkRequest "GET" "/api/jobs/nightly" no_query "")) nightly_world).2 = w_db nightly_world.
Proof.
  pose proof (requests_safe (H := Memory.store) calm_env no_detail no_text plain_server
    (mkRequest "GET" "/api/jobs/nightly" no_query "") nightly_world
    (one_job_ok (cron_job "nightly" "@daily"))) as Hs.
  unfold wp in Hs. destruct (run _ _ _) as [out w']. apply Hs. by left.
Defined.

Lemma create_job_correct_witness :
  wp calm_env (handleCreateJob no_detail no_text
    (mkRequest "POST" "/api/jobs" no_query (quoted "{'id': 'j', 'spec': '@daily'}")) [])
    (fun resp w' => rs_Status resp = 201 /\ is_Some (db_jobs (w_db w') !! "j")) nightly_world.
Proof.
  eapply wp_mono.
  - apply (create_job_correct (H := Memory.store) calm_env eq_refl no_detail
      no_text nightly_world (mkRequest "POST" "/api/jobs" no_query (quoted "{'id': 'j', 'spec': '@daily'}")) []).
    apply one_job_ok.
  - intros resp w' Hcase. vm_compute (DecodeJob _) in Hcase. destruct Hcase as [([=] & _)|[(_ & (e & [=] & _) & _)|(_ & _ & -> & ->)]].
    split; [reflexivity|]. eexists. reflexivity.
Defined.

Lemma job_resource_correct_witness :
  wp calm_env (handleGetJob (mkRequest "GET" "" no_query "") [("id", "nightly")])
    (fun resp w' => resp = writeJSON 200 (PJob (cron_job "nightly" "@daily"))) nightly_world.
Proof.
  eapply wp_mono.
  - apply (job_resource_correct (H := Memory.store) calm_env eq_refl nightly_world plain_server
      (mkRequest "GET" "" no_query "") [("id", "nightly")]); [apply one_job_ok|reflexivity].
  - intros resp w' [-> _]. reflexivity.
Defined.

(** Offset 1, and a limit that is not readable. *)
Definition second_page : string -> string := fun name =>
  if String.eqb name "offset" then "1" else if String.eqb name "limit" then "ten" else "".

Lemma list_runs_correct_witness :
  wp calm_env (handleListRuns (mkRequest "GET" "/api/runs" second_page "") [])
    (fun resp w' => w_db w' = w_db nightly_world
       /\ exists l, resp = writeJSON 200 (PRuns (take 100 (drop 1 l)))) nightly_world.
Proof.
  eapply wp_mono.
  - apply (list_runs_correct (H := Memory.store) calm_env eq_refl nightly_world
      (mkRequest "GET" "/api/runs" second_page "") []). apply one_job_ok.
  - intros resp w' (Hd & l & o & n & _ & _ & _ & Ho & Hn & ->). split; [exact Hd|]. exists l.
    destruct Ho as [[Ho _]|[Ho _]]; [|by specialize (Ho 1 eq_refl)].
    destruct Hn as [[Hn _]|[_ ->]]; [discriminate Hn|].
    vm_compute in Ho. injection Ho as <-. reflexivity.
Defined.
