(* ===== verification/ApiRoutes.v ===== *)
(** * The routes of the HTTP API

    The routing tree that [routes] of [Api.v] ([src/internal/api/server.go])
    builds, against a table of the documented endpoints: every request with a
    clean path is answered by the handler of its method and path. *)

From Stdlib Require Import ZArith Lia Ascii String.
From stdpp Require Import base list strings gmap.
From S2P Require Import Prelude GoTime GoStrings GoFloat GoJson GoMux CronParser Job Store MemoryStore.
From S2P Require Import Effects Api.

#[local] Open Scope string_scope.
#[local] Open Scope list_scope.
#[local] Open Scope Z_scope.

(** ** The endpoints

    What each path is answered by, for a server with metrics and a dashboard.  A
    path is given by its segments, percent-decoded; a trailing slash is a segment
    of its own, so an identifier may hold any text but a lone slash. *)

Inductive endpoint :=
| ListJobsE | CreateJobE | GetJobE | DeleteJobE | TriggerJobE | ListRunsE | GetRunE
| HealthE | ReadyE | InfoE | MetricsE | FilesE | IndexE | RootE.

Definition one_id (id : string) : list (string * string) := [("id", id)].

(** The pages that [GET] reaches, the fall-back included. *)
Definition get_answer (segs : list string) : endpoint * list (string * string) :=
  match segs with
  | [a] =>
      if String.eqb "api" a then (InfoE, [])
      else if String.eqb "healthz" a then (HealthE, [])
      else if String.eqb "readyz" a then (ReadyE, [])
      else if String.eqb "metrics" a then (MetricsE, [])
      else if String.eqb "/" a then (IndexE, [])
      else (RootE, [])
  | a :: b :: rest =>
      if String.eqb "ui" a then (FilesE, [])
      else if String.eqb "api" a then
        match rest with
        | [] => if String.eqb "jobs" b then (ListJobsE, [])
                else if String.eqb "runs" b then (ListRunsE, [])
                else (RootE, [])
        | [id] => if String.eqb id "/" then (RootE, [])
                  else if String.eqb "jobs" b then (GetJobE, one_id id)
                  else if String.eqb "runs" b then (GetRunE, one_id id)
                  else (RootE, [])
        | _ => (RootE, [])
        end
      else (RootE, [])
  | [] => (RootE, [])
  end.

Definition post_answer (segs : list string) : option (endpoint * list (string * string)) :=
  match segs with
  | [a; b] =>
      if String.eqb "api" a && String.eqb "jobs" b then Some (CreateJobE, []) else None
  | [a; b; id; t] =>
      if String.eqb "api" a && String.eqb "jobs" b && negb (String.eqb id "/") && String.eqb "trigger" t
      then Some (TriggerJobE, one_id id) else None
  | _ => None
  end.

Definition delete_answer (segs : list string) : option (endpoint * list (string * string)) :=
  match segs with
  | [a; b; id] =>
      if String.eqb "api" a && String.eqb "jobs" b && negb (String.eqb id "/")
      then Some (DeleteJobE, one_id id) else None
  | _ => None
  end.

(** What a method finds; [HEAD] is read as [GET]. *)
Definition method_answer (method : string) (segs : list string)
  : option (endpoint * list (string * string)) :=
  if String.eqb method "GET" || String.eqb method "HEAD" then Some (get_answer segs)
  else if String.eqb method "POST" then post_answer segs
  else if String.eqb method "DELETE" then delete_answer segs
  else None.

(** The methods a path supports: every path can be read. *)
Definition allowed (segs : list string) : list string :=
  (if delete_answer segs is Some _ then ["DELETE"] else []) ++ ["GET"; "HEAD"]
  ++ (if post_answer segs is Some _ then ["POST"] else []).

(** *** The routes as a table *)

Definition route_table : list (string * endpoint) :=
  [("GET /api/jobs", ListJobsE); ("POST /api/jobs", CreateJobE); ("GET /api/jobs/{id}", GetJobE);
   ("DELETE /api/jobs/{id}", DeleteJobE); ("POST /api/jobs/{id}/trigger", TriggerJobE);
   ("GET /api/runs", ListRunsE); ("GET /api/runs/{id}", GetRunE); ("GET /healthz", HealthE);
   ("GET /readyz", ReadyE); ("GET /api", InfoE); ("GET /metrics", MetricsE); ("GET /ui/", FilesE);
   ("GET /{$}", IndexE); ("GET /", RootE)].

(** The pattern of an endpoint. *)
Definition pattern_of (e : endpoint) : pattern :=
  parsePattern (match find (fun x => match x.2, e with
    | ListJobsE, ListJobsE | CreateJobE, CreateJobE | GetJobE, GetJobE | DeleteJobE, DeleteJobE
    | TriggerJobE, TriggerJobE | ListRunsE, ListRunsE | GetRunE, GetRunE | HealthE, HealthE
    | ReadyE, ReadyE | InfoE, InfoE | MetricsE, MetricsE | FilesE, FilesE | IndexE, IndexE
    | RootE, RootE => true | _, _ => false end) route_table with Some x => x.1 | None => "" end).

Section Table.
Context {H : Type} (h : endpoint -> H).

Definition table_mux : ServeMux H :=
  map (fun '(p, e) => mkRoute (parsePattern p) (h e)) route_table.

(** What a search of the multiplexer found: the route of the endpoint and the
    values of its wildcards. *)
Definition serves (m : option (route H * list string))
    (a : option (endpoint * list (string * string))) : Prop :=
  match m, a with
  | Some (r, values), Some (e, v) =>
      r = mkRoute (pattern_of e) (h e) /\ zip (wild_names (pattern_of e)) values = v
  | None, None => True
  | _, _ => False
  end.

Lemma matchPath_nil segs m : matchPath ([] : @node H) segs m = None.
Proof.
  revert m. induction segs as [|seg segs IH]; intros m; cbn; [done|].
  rewrite !IH. by destruct (String.eqb seg "/").
Qed.

Lemma matchPath_lits n seg segs m :
  wild_child n = [] ->
  matchPath n (seg :: segs) m
  = match matchPath (lit_child (H := H) seg n) segs m with
    | Some r => Some r
    | None => r ← multi_child n; Some (r, m)
    end.
Proof. intros Hw. cbn [matchPath]. rewrite Hw, matchPath_nil. by destruct (String.eqb seg "/"). Qed.

(** The literals that a node continues with. *)
Definition lits (n : @node H) : list string :=
  omap (fun x => match x.1 with Lit s :: _ => Some s | _ => None end) n.

Lemma lit_child_other seg n : seg ∉ lits n -> lit_child seg n = [].
Proof.
  unfold lits, lit_child. induction n as [|[[|[s| |] segs] r] n IH]; cbn; intros Hn; auto.
  rewrite not_elem_of_cons in Hn. destruct Hn as [Hs Hn].
  destruct (String.eqb_spec s seg); [congruence|auto].
Qed.

Lemma matchPath_wild n seg segs m :
  lits n = [] ->
  matchPath n (seg :: segs) m
  = match (if String.eqb seg "/" then None
           else matchPath (wild_child (H := H) n) segs (m ++ [seg])) with
    | Some r => Some r
    | None => r ← multi_child n; Some (r, m)
    end.
Proof.
  intros Hl. cbn [matchPath]. rewrite lit_child_other by (rewrite Hl; set_solver).
  by rewrite matchPath_nil.
Qed.

(** Nodes are closed but for the handlers. *)
Ltac node t := let x := eval vm_compute in t in change t with x.

(** One segment of the path among the literals of a node. *)
Ltac pick a lits :=
  match lits with
  | ?l :: ?rest => destruct (String.eqb_spec l a) as [<-|?]; [|pick a rest]
  | [] => idtac
  end.

Lemma matchPath_end n seg segs m :
  lits n = [] -> wild_child n = [] ->
  matchPath (H := H) n (seg :: segs) m = (r ← multi_child n; Some (r, m)).
Proof.
  intros Hl Hw. rewrite matchPath_lits by done. rewrite lit_child_other by (rewrite Hl; set_solver).
  by rewrite matchPath_nil.
Qed.

Ltac closed_eqb :=
  repeat match goal with
    | |- context [String.eqb ?x ?y] =>
        let b := eval vm_compute in (String.eqb x y) in
        first [constr_eq b true|constr_eq b false]; change (String.eqb x y) with b
    end.
Ltac other :=
  cbn -[String.eqb]; closed_eqb;
  repeat match goal with
    | H : ?x <> ?y |- context [String.eqb ?x ?y] => rewrite (proj2 (String.eqb_neq x y) H)
    end;
  cbn -[String.eqb].
Ltac settled := by (other; split).
(** One segment along the literals of a node: a subgoal for each, and one for
    a segment that is none of them. *)
Ltac step_lits a l :=
  rewrite matchPath_lits by reflexivity;
  pick a l;
  [ .. | rewrite (lit_child_other a) by (vm_compute; set_solver); rewrite matchPath_nil ];
  repeat match goal with |- context [lit_child ?x ?n] => node (lit_child x n) end.
Ltac dead_end := rewrite !matchPath_end by reflexivity.

Lemma get_serves segs : segs <> [] ->
  serves (matchPath (method_node "GET" table_mux) segs []) (Some (get_answer segs)).
Proof.
  destruct segs as [|a segs]; [done|]. intros _. node (method_node "GET" table_mux).
  step_lits a ["api"; "healthz"; "readyz"; "metrics"; "ui"; "/"].
  7: by (destruct segs as [|b segs]; settled).
  2,3,4,5,6: by (destruct segs as [|b segs]; [|dead_end]; settled).
  destruct segs as [|b segs]; [settled|]. step_lits b ["jobs"; "runs"].
  3: by (destruct segs as [|c [|d segs]]; other; try destruct (String.eqb c "/"); split).
  all: destruct segs as [|c segs]; [settled|]; rewrite matchPath_wild by reflexivity;
    destruct (String.eqb_spec c "/") as [->|Hc]; [by destruct segs|];
    repeat match goal with |- context [wild_child ?n] => node (wild_child n) end;
    destruct segs as [|d segs]; [|dead_end]; settled.
Qed.

Lemma post_serves segs : segs <> [] ->
  serves (matchPath (method_node "POST" table_mux) segs []) (post_answer segs).
Proof.
  destruct segs as [|a segs]; [done|]. intros _. node (method_node "POST" table_mux).
  step_lits a ["api"]; [|by destruct segs as [|b [|c [|d [|e segs]]]]; other].
  destruct segs as [|b segs]; [done|]. step_lits b ["jobs"];
    [|by destruct segs as [|c [|d [|e segs]]]; other].
  destruct segs as [|c segs]; [settled|]. rewrite matchPath_wild by reflexivity.
  destruct (String.eqb_spec c "/") as [->|Hc]; [by destruct segs as [|d [|e segs]]|].
  node (wild_child [([], mkRoute (parsePattern "POST /api/jobs") (h CreateJobE));
    ([Wild "id"; Lit "trigger"], mkRoute (parsePattern "POST /api/jobs/{id}/trigger") (h TriggerJobE))]).
  destruct segs as [|d segs]; [other; done|]. step_lits d ["trigger"];
    [|by destruct segs; other].
  destruct segs as [|e segs]; [settled|dead_end; other; done].
Qed.

Lemma delete_serves segs : segs <> [] ->
  serves (matchPath (method_node "DELETE" table_mux) segs []) (delete_answer segs).
Proof.
  destruct segs as [|a segs]; [done|]. intros _. node (method_node "DELETE" table_mux).
  step_lits a ["api"]; [|by destruct segs as [|b [|c [|d segs]]]; other].
  destruct segs as [|b segs]; [done|]. step_lits b ["jobs"]; [|by destruct segs as [|c [|d segs]]; other].
  destruct segs as [|c segs]; [done|]. rewrite matchPath_wild by reflexivity.
  destruct (String.eqb_spec c "/") as [->|Hc]; [by destruct segs as [|d segs]|].
  repeat match goal with |- context [wild_child ?n] => node (wild_child n) end.
  destruct segs as [|d segs]; [settled|dead_end; other; done].
Qed.

Lemma method_node_other method (mux : ServeMux H) :
  method ∉ map (fun r => p_method (r_pattern r)) mux -> method_node method mux = [].
Proof.
  unfold method_node. induction mux as [|r mux IH]; cbn -[String.eqb]; intros Hn; [done|].
  rewrite not_elem_of_cons in Hn. destruct Hn as [Hr Hn].
  destruct (String.eqb_spec (p_method (r_pattern r)) method); [congruence|auto].
Qed.

Lemma other_node method :
  method <> "GET" -> method <> "POST" -> method <> "DELETE" -> method_node method table_mux = [].
Proof.
  intros Hg Hp Hd. apply method_node_other. node (map (fun r => p_method (r_pattern r)) table_mux).
  set_solver.
Qed.

(** The search over all methods. *)
Lemma route_serves method path :
  path_segments path <> [] ->
  serves (match_route table_mux method path) (method_answer method (path_segments path)).
Proof.
  intros Hne. unfold match_route, method_answer. set (segs := path_segments path) in *.
  destruct (String.eqb_spec method "GET") as [->|Hg]; cbn [orb].
  { pose proof (get_serves segs Hne) as Hs. by destruct (matchPath _ segs []). }
  destruct (String.eqb_spec method "HEAD") as [->|Hh].
  { rewrite other_node, matchPath_nil by done. by apply get_serves. }
  destruct (String.eqb_spec method "POST") as [->|Hp].
  { pose proof (post_serves segs Hne) as Hs. by destruct (matchPath _ segs []). }
  destruct (String.eqb_spec method "DELETE") as [->|Hd].
  { pose proof (delete_serves segs Hne) as Hs. by destruct (matchPath _ segs []). }
  by rewrite other_node, matchPath_nil.
Qed.

Lemma get_slash segs : segs <> [] ->
  get_answer (segs ++ ["/"]) = (if String.eqb "ui" (hd "" segs) then FilesE else RootE, []).
Proof.
  destruct segs as [|a [|b [|c [|d segs]]]]; [done|..]; intros _; cbn -[String.eqb];
    destruct (String.eqb "ui" a), (String.eqb "api" a); done.
Qed.

Lemma post_slash segs : post_answer (segs ++ ["/"]) = None.
Proof.
  destruct segs as [|a [|b [|c [|d [|e segs]]]]]; cbn -[String.eqb]; try done;
    by rewrite !andb_false_r.
Qed.

Lemma delete_slash segs : delete_answer (segs ++ ["/"]) = None.
Proof.
  destruct segs as [|a [|b [|c [|d segs]]]]; cbn -[String.eqb]; try done; by rewrite !andb_false_r.
Qed.

Lemma method_slash method segs :
  segs <> [] ->
  method_answer method (segs ++ ["/"]) = None
  \/ (String.eqb method "GET" || String.eqb method "HEAD" = true
     /\ method_answer method (segs ++ ["/"])
        = Some (if String.eqb "ui" (hd "" segs) then FilesE else RootE, [])).
Proof.
  intros Hne. unfold method_answer. rewrite get_slash, post_slash, delete_slash by done.
  destruct (_ || _); [by right|left]. repeat case_on; auto.
Qed.

(** Nothing but a [GET] of "/ui" is redirected to the path with a slash. *)
Lemma no_redirect method s :
  ends_with_slash (String "/" s) = false ->
  path_segments (String "/" s) <> ["ui"] \/ String.eqb method "GET" || String.eqb method "HEAD" = false ->
  exactMatch (match_route table_mux method (String "/" s ++ "/")) (String "/" s ++ "/") = false.
Proof.
  intros Hs Hui. pose proof (segments_slash s Hs) as Hseg.
  pose proof (segments_count s) as Hcount. pose proof (count_snoc "/" (String "/" s)) as Hsnoc.
  set (segs := path_segments (String "/" s)) in *. clearbody segs.
  assert (segs <> []) as Hne by (intros E; rewrite E in Hcount; done).
  pose proof (route_serves method (String "/" s ++ "/")) as Hr. rewrite Hseg in Hr.
  specialize (Hr ltac:(by destruct segs)).
  unfold exactMatch. destruct (match_route _ _ _) as [[r values]|]; [|done].
  destruct (method_slash method segs Hne) as [Hm|[Hreads Hm]]; rewrite Hm in Hr; [done|].
  destruct Hui as [Hui|Hui]; [|congruence].
  destruct Hr as [-> _]. rewrite Hsnoc, <-Hcount.
  destruct (String.eqb_spec "ui" (hd "" segs)) as [Hd|Hd]; cbn -[Nat.eqb length ends_with_slash count_byte];
    apply andb_false_intro2, Nat.eqb_neq; cbn [length].
  - intros Hl. destruct segs as [|a [|b l]]; [done| |by injection Hl]. cbn in Hd. congruence.
  - destruct segs; [done|]. cbn. lia.
Qed.

Lemma ends_snoc s : ends_with_slash (s ++ "/") = true.
Proof. induction s as [|a [|b s] IH]; [done|done|exact IH]. Qed.

Lemma ends_count s : ends_with_slash s = true -> (1 <= count_byte "/" s)%nat.
Proof.
  induction s as [|a s IH]; cbn -[Ascii.eqb]; [done|]. destruct s as [|b s].
  - intros ->. cbn. lia.
  - intros Hs%IH. destruct (Ascii.eqb a "/"); [lia|exact Hs].
Qed.

(** A [GET] of "/ui" is redirected. *)
Lemma ui_redirect method s :
  path_segments (String "/" s) = ["ui"] -> String.eqb method "GET" || String.eqb method "HEAD" = true ->
  exactMatch (match_route table_mux method (String "/" s)) (String "/" s) = false
  /\ ends_with_slash (String "/" s) = false
  /\ exactMatch (match_route table_mux method (String "/" s ++ "/")) (String "/" s ++ "/") = true.
Proof.
  intros Hseg Hm. pose proof (segments_count s) as Hcount. rewrite Hseg in Hcount.
  assert (ends_with_slash (String "/" s) = false) as He.
  { destruct (ends_with_slash (String "/" s)) eqn:E; [|done]. destruct s as [|b s]; [done|].
    change (ends_with_slash (String b s) = true) in E. apply ends_count in E.
    change (1 = S (count_byte "/" (String b s)))%nat in Hcount. lia. }
  pose proof (segments_slash s He) as Hseg'. rewrite Hseg in Hseg'.
  pose proof (route_serves method (String "/" s)) as H1. rewrite Hseg in H1.
  pose proof (route_serves method (String "/" s ++ "/")) as H2. rewrite Hseg' in H2.
  unfold method_answer in H1, H2. rewrite Hm in H1, H2.
  specialize (H1 ltac:(done)). specialize (H2 ltac:(done)). split; [|split; [done|]].
  - destruct (match_route table_mux method (String "/" s)) as [[rt v]|]; [|done].
    destruct H1 as [-> _]. unfold exactMatch. by rewrite He.
  - destruct (match_route table_mux method (String "/" s ++ "/")) as [[rt v]|]; [|done].
    destruct H2 as [-> _].
    unfold exactMatch. rewrite count_snoc, <-Hcount, ends_snoc. reflexivity.
Qed.

Lemma has_path_serves method segs path :
  path_segments path = segs -> segs <> [] ->
  forall a, serves (matchPath (method_node method table_mux) segs []) a ->
  has_path table_mux method path = (if a is Some _ then true else false).
Proof.
  intros Hseg Hne a Hs. unfold has_path. rewrite Hseg. unfold serves in Hs.
  destruct (matchPath _ segs []) as [[r v]|], a as [[e v']|]; done.
Qed.

(** The methods that a path supports. *)
Lemma allowed_methods s :
  matchingMethods table_mux (String "/" s) = allowed (path_segments (String "/" s)).
Proof.
  pose proof (segments_count s) as Hcount. set (segs := path_segments (String "/" s)) in *.
  assert (segs <> []) as Hne by (intros E; rewrite E in Hcount; done).
  assert (forall m, m <> "GET" -> negb (ends_with_slash (String "/" s))
    && has_path table_mux m (String "/" s ++ "/") = false) as Hslash.
  { intros m Hm. destruct (ends_with_slash (String "/" s)) eqn:He; [done|]. cbn [negb andb].
    pose proof (segments_slash s He) as Hseg. fold segs in Hseg. unfold has_path. rewrite Hseg.
    destruct (String.eqb_spec m "POST") as [->|Hp]; [|destruct (String.eqb_spec m "DELETE") as [->|Hd]].
    - pose proof (post_serves (segs ++ ["/"]) ltac:(by destruct segs)) as Hs.
      rewrite post_slash in Hs. by destruct (matchPath _ _ _) as [[]|].
    - pose proof (delete_serves (segs ++ ["/"]) ltac:(by destruct segs)) as Hs.
      rewrite delete_slash in Hs. by destruct (matchPath _ _ _) as [[]|].
    - by rewrite other_node, matchPath_nil. }
  assert (forall m, m <> "GET" -> m <> "POST" -> m <> "DELETE" ->
    has_path table_mux m (String "/" s) = false) as Hother.
  { intros m H1 H2 H3. unfold has_path. by rewrite other_node, matchPath_nil. }
  unfold matchingMethods, all_methods, allowed.
  pose proof (has_path_serves "GET" segs (String "/" s) eq_refl Hne _ (get_serves segs Hne)) as Hget.
  pose proof (has_path_serves "POST" segs (String "/" s) eq_refl Hne _ (post_serves segs Hne)) as Hpost.
  pose proof (has_path_serves "DELETE" segs (String "/" s) eq_refl Hne _ (delete_serves segs Hne)) as Hdel.
  cbn [List.filter]. rewrite Hget. cbn [orb]. rewrite !orb_true_r, !andb_true_r.
  rewrite (Hslash "CONNECT"), (Hslash "DELETE"), (Hslash "OPTIONS"),
    (Hslash "PATCH"), (Hslash "POST"), (Hslash "PUT"), (Hslash "TRACE") by done.
  rewrite (Hother "CONNECT"), (Hother "OPTIONS"), (Hother "PATCH"),
    (Hother "PUT"), (Hother "TRACE"), Hpost, Hdel by done.
  destruct (post_answer segs), (delete_answer segs); reflexivity.
Qed.
End Table.

Section Routing.
Context (decode_error_text : decode_error -> string) (parse_error_text : parse_error -> string).
Context (scheduler : bool) (metrics files : Request -> Response) (index version : string).

(** A server with metrics and a dashboard. *)
Definition full_server : Server := mkServer scheduler (Some metrics) (Some files) (Some index) version.

Definition endpoint_handler (e : endpoint) : Handler :=
  match e with
  | ListJobsE => handleListJobs
  | CreateJobE => handleCreateJob decode_error_text parse_error_text
  | GetJobE => handleGetJob
  | DeleteJobE => handleDeleteJob
  | TriggerJobE => handleTriggerJob full_server
  | ListRunsE => handleListRuns
  | GetRunE => handleGetRun
  | HealthE => handleHealth full_server
  | ReadyE => handleReady
  | InfoE => serviceInfo
  | MetricsE => fun r _ => Ret (metrics r)
  | FilesE => fun r _ => Ret (files r)
  | IndexE => handleIndex index
  | RootE => handleRoot
  end.

Lemma routes_table : routes decode_error_text parse_error_text full_server [] = table_mux endpoint_handler.
Proof. reflexivity. Qed.

(** C19: on a server with metrics and a dashboard, every request whose path is
    clean (that is, [cleanPath] keeps it) is answered by the handler that the API
    documents for its method and path, with the identifier that the path holds,
    percent-decoded; an identifier may be any text but a lone slash.  [HEAD] is
    answered as [GET], and a [GET] of an unknown path gets the JSON 404 of the
    root handler.  A method that the path does not support gets a plain 405 from
    the multiplexer, which lists those it does.  A [GET] of "/ui" is redirected to
    "/ui/" (301). *)
Theorem routes_correct (r : Request) :
  let segs := path_segments (rq_Path r) in
  let reads := String.eqb (rq_Method r) "GET" || String.eqb (rq_Method r) "HEAD" in
  cleanPath (rq_Path r) = rq_Path r ->
  ((segs = ["ui"] /\ reads = true) ->
     exists body, ServeHTTP (routes decode_error_text parse_error_text full_server []) r
       = Ret (mkResponse StatusMovedPermanently [("Location", rq_Path r ++ "/")%string] body))
  /\ ((segs <> ["ui"] \/ reads = false) ->
     ServeHTTP (routes decode_error_text parse_error_text full_server []) r
     = match method_answer (rq_Method r) segs with
       | Some (e, values) => endpoint_handler e r values
       | None => Ret (mkResponse StatusMethodNotAllowed [("Allow", comma_join (allowed segs))]
                        (Bytes "Method Not Allowed"))
       end).
Proof.
  intros segs reads Hclean. rewrite routes_table. unfold ServeHTTP, findHandler.
  rewrite Hclean, String.eqb_refl. destruct (clean_rooted _ Hclean) as [s Hs].
  subst segs reads. rewrite Hs in *. split.
  { intros [Hseg Hm]. destruct (ui_redirect endpoint_handler _ _ Hseg Hm) as (-> & -> & ->).
    cbn [negb andb]. by eexists. }
  intros Hui. pose proof (segments_count s) as Hcount.
  pose proof (route_serves endpoint_handler (rq_Method r) (String "/" s)) as Hr.
  specialize (Hr ltac:(intros E; rewrite E in Hcount; done)).
  assert (negb (exactMatch (match_route (table_mux endpoint_handler) (rq_Method r) (String "/" s))
      (String "/" s)) && negb (ends_with_slash (String "/" s))
    && exactMatch (match_route (table_mux endpoint_handler) (rq_Method r) (String "/" s ++ "/"))
         (String "/" s ++ "/") = false) as ->.
  { destruct (ends_with_slash (String "/" s)) eqn:He; [by rewrite andb_false_r|].
    by rewrite no_redirect, andb_false_r. }
  cbn [negb]. rewrite allowed_methods.
  destruct (match_route _ _ _) as [[rt values]|], (method_answer _ _) as [[e v]|]; try done.
  - by destruct Hr as [-> <-].
  - unfold allowed. by destruct (delete_answer _).
Qed.
End Routing.

Lemma routes_correct_witness :
  ServeHTTP (routes no_detail no_text plain_server []) (mkRequest "DELETE" "/api/jobs/a%2Fb" no_query "")
    = handleDeleteJob (mkRequest "DELETE" "/api/jobs/a%2Fb" no_query "") [("id", "a/b")]
  /\ exists body, ServeHTTP (routes no_detail no_text plain_server []) (mkRequest "GET" "/ui" no_query "")
       = Ret (mkResponse 301 [("Location", "/ui/")] body).
Proof.
  split.
  - apply (routes_correct no_detail no_text true
      (fun _ => mkResponse 200 [] (Bytes "cronflux_")) (fun _ => mkResponse 200 [] (Bytes "asset"))
      "<title>cronflux</title>" "dev" (mkRequest "DELETE" "/api/jobs/a%2Fb" no_query ""));
      [reflexivity|left; discriminate].
  - apply (routes_correct no_detail no_text true
      (fun _ => mkResponse 200 [] (Bytes "cronflux_")) (fun _ => mkResponse 200 [] (Bytes "asset"))
      "<title>cronflux</title>" "dev" (mkRequest "GET" "/ui" no_query ""));
      [reflexivity|split; reflexivity].
Defined.
