(* ===== verification/Conformance.v ===== *)
(** * The conformance suite of the stores

    Models [src/internal/store/storetest/suite.go]: its five tests as programs on
    any method table.  A test collects the failures it reports: [Errorf] goes on,
    [Fatalf] ends the test.  A failure is its message without the arguments.

    The suite passes on every store that meets the contract and whose claims
    leave no ready run out below the limit: the contract alone lets a claim skip
    runs. *)

From Stdlib Require Import ZArith Lia String.
From stdpp Require Import base list strings gmap sorting.
From S2P Require Import Prelude GoTime GoFloat Job Store MemoryStore PostgresStore.

#[local] Open Scope string_scope.
#[local] Open Scope list_scope.
#[local] Open Scope Z_scope.

Module Storetest.
Section Suite.
Context {S : Type} (methods : forall R, call R -> S -> R * S).

(** The value a test goes on with, unless it ended; its failures; the store. *)
Definition test (A : Type) : Type := S -> option A * list string * S.

Definition done {A} (a : A) : test A := fun s => (Some a, [], s).
Definition Fatalf {A} (msg : string) : test A := fun s => (None, [msg], s).
Definition Errorf (msg : string) : test unit := fun s => (Some tt, [msg], s).
Definition on {R} (c : call R) : test R := fun s => let '(r, s) := methods R c s in (Some r, [], s).

Definition and_then {A B} (p : test A) (f : A -> test B) : test B := fun s =>
  match p s with
  | (None, msgs, s) => (None, msgs, s)
  | (Some a, msgs, s) => let '(b, msgs', s) := f a s in (b, msgs ++ msgs', s)
  end.

#[local] Notation "'do' x <- p ; k" := (and_then p (fun x => k))
  (at level 10, x name, p at level 100, k at level 200).

(** [if err != nil { t.Fatalf(...) }]. *)
Definition must {A} (msg : string) (r : result store_error A) : test A :=
  match r with Ok a => done a | Err _ => Fatalf msg end.

Definition error_if (b : bool) (msg : string) : test unit := if b then Errorf msg else done tt.
Definition fatal_if (b : bool) (msg : string) : test unit := if b then Fatalf msg else done tt.

(** [errors.Is(err, store.ErrNotFound)]. *)
Definition is_not_found {A} (r : result store_error A) : bool :=
  match r with Err ErrNotFound => true | _ => false end.

Definition ids (runs : list Run) : list string := map run_ID runs.
Definition count {A} (l : list A) : Z := Z.of_nat (length l).

Fixpoint mustCreate (runs : list Run) : test unit :=
  match runs with
  | [] => done tt
  | r :: runs => do x <- on (CreateRun r); do _ <- must "CreateRun" x; mustCreate runs
  end.

Definition build_job : Job :=
  mkJob "build" "Build" "@hourly" ["make"] 0 zero_policy [] 0 false zero_time zero_time.

Definition testJobCRUD : test unit :=
  do err <- on (PutJob build_job); do _ <- must "PutJob" err;
  do r <- on (GetJob "build"); do got <- must "GetJob" r;
  do _ <- error_if (negb (String.eqb (job_Name got) "Build") || negb (String.eqb (job_Spec got) "@hourly"))
    "GetJob returned";
  do r <- on ListJobs; do jobs <- must "ListJobs" r;
  do _ <- fatal_if (negb (count jobs =? 1)) "ListJobs len";
  do err <- on (DeleteJob "build"); do _ <- must "DeleteJob" err;
  do r <- on (GetJob "build"); error_if (negb (is_not_found r)) "GetJob after delete".

(** [time.Date(2026, 5, 1, 10, 0, 0, 0, time.UTC)]. *)
Definition suite_time : time := Date 2026 5 1 10 0 0 0 UTC.

(** A run with the given fields, the others at their zero values. *)
Definition suite_run (id jobID : string) (st : RunState) (sched created : time) : Run :=
  mkRun id jobID "" st 0 sched None None zero_time "" "" created zero_time.

Definition with_state (r : Run) (st : RunState) : Run :=
  mkRun (run_ID r) (run_JobID r) (run_BatchID r) st (run_Attempt r) (run_ScheduledFor r)
    (run_StartedAt r) (run_FinishedAt r) (run_LeaseExpiry r) (run_Worker r) (run_Error r)
    (run_CreatedAt r) (run_UpdatedAt r).

Definition testRunLifecycle : test unit :=
  let now := suite_time in
  let r := suite_run "r1" "build" StatePending now now in
  do err <- on (CreateRun r); do _ <- must "CreateRun" err;
  let r := with_state r StateSucceeded in
  do err <- on (UpdateRun r); do _ <- must "UpdateRun" err;
  do x <- on (GetRun "r1"); do got <- must "GetRun" x;
  do _ <- error_if (negb (String.eqb (run_State got) StateSucceeded)) "run state";
  do x <- on (GetRun "missing"); error_if (negb (is_not_found x)) "GetRun(missing)".

Definition zero_at (l : list Run) : Run := nth 0 l zero_run.

Definition testClaimDue : test unit :=
  let now := suite_time in
  let due := suite_run "due" "j" StatePending (Add now (- Minute)) now in
  let future := suite_run "future" "j" StatePending (Add now Hour) now in
  do _ <- mustCreate [due; future];
  do r <- on (ClaimDue now "worker-1" (30 * Second) 10); do claimed <- must "ClaimDue" r;
  do _ <- fatal_if (negb (count claimed =? 1) || negb (String.eqb (run_ID (zero_at claimed)) "due")) "claimed";
  do _ <- error_if (negb (String.eqb (run_State (zero_at claimed)) StateRunning)
      || negb (String.eqb (run_Worker (zero_at claimed)) "worker-1")) "claimed run not leased correctly";
  do _ <- error_if (negb (Equal (run_LeaseExpiry (zero_at claimed)) (Add now (30 * Second)))) "lease expiry";
  do r <- on (ClaimDue now "worker-2" (30 * Second) 10); do again <- must "ClaimDue again" r;
  error_if (negb (count again =? 0)) "second claim returned".

(** The error of the second claim is dropped; its slice is then nil. *)
Definition testLeaseRedelivery : test unit :=
  let now := suite_time in
  let r := suite_run "r" "j" StatePending (Add now (- Minute)) now in
  do _ <- mustCreate [r];
  do x <- on (ClaimDue now "worker-1" (30 * Second) 10); do _ <- must "first claim" x;
  do x <- on (ClaimDue (Add now (10 * Second)) "worker-2" (30 * Second) 10);
  do _ <- fatal_if (negb (count (match x with Ok got => got | Err _ => [] end) =? 0))
    "claimed a still-leased run";
  do x <- on (ClaimDue (Add now Minute) "worker-2" (30 * Second) 10);
  do got <- must "redelivery claim" x;
  fatal_if (negb (count got =? 1) || negb (String.eqb (run_Worker (zero_at got)) "worker-2"))
    "expected redelivery to worker-2".

Definition by_job_filter : RunFilter := mkRunFilter "j1" "" "" 0 0.
Definition by_state_filter : RunFilter := mkRunFilter "" "" StateSucceeded 0 0.
Definition limit_filter : RunFilter := mkRunFilter "" "" "" 1 0.

Definition filter_runs : list Run :=
  [suite_run "a" "j1" StateSucceeded zero_time suite_time;
   suite_run "b" "j1" StateFailed zero_time (Add suite_time Second);
   suite_run "c" "j2" StateSucceeded zero_time (Add suite_time (2 * Second))].

Definition testListRunsFilter : test unit :=
  do _ <- mustCreate filter_runs;
  do r <- on (ListRuns by_job_filter); do byJob <- must "ListRuns" r;
  do _ <- error_if (negb (count byJob =? 2)) "JobID filter returned";
  do _ <- error_if ((count byJob =? 2) && negb (String.eqb (run_ID (zero_at byJob)) "b"))
    "expected newest run first";
  do r <- on (ListRuns by_state_filter); do byState <- must "ListRuns state" r;
  do _ <- error_if (negb (count byState =? 2)) "state filter returned";
  do r <- on (ListRuns limit_filter); do limited <- must "ListRuns limit" r;
  error_if (negb (count limited =? 1)) "limit returned".

(** Every test runs on a store of its own; the failures of the suite. *)
Definition failures {A} (t : test A) (s : S) : list string := let '(_, msgs, _) := t s in msgs.

Definition Run (newStore : nat -> S) : list string :=
  failures testJobCRUD (newStore 0%nat) ++ failures testRunLifecycle (newStore 1%nat)
  ++ failures testClaimDue (newStore 2%nat) ++ failures testLeaseRedelivery (newStore 3%nat)
  ++ failures testListRunsFilter (newStore 4%nat).
End Suite.

(** ** The suite on a store that meets the contract *)

Section Contract.
Context {S : Type} `{Store S}.

(** A claim leaves a ready run out only when it reached its limit. *)
Definition prompt (now : time) (worker : string) (lease : duration) (limit : Z) (s : S) : Prop :=
  forall l, (handle (ClaimDue now worker lease limit) s).1 = Ok l ->
  forall x, db_runs (view s) !! run_ID x = Some x -> ready now x = true ->
  claim now worker lease x ∈ l \/ (0 < limit /\ limit <= Z.of_nat (length l)).

Context (Hreliable : fallible = false)
  (Hprompt : forall now worker lease limit s, store_ok s -> prompt now worker lease limit s).

#[local] Abbreviation methods := (fun R => @handle S _ R).

(** The test ends without a failure, in a state with [Q]. *)
Definition passes {A} (t : test A) (Q : A -> S -> Prop) (s : S) : Prop :=
  exists a s', t s = (Some a, [], s') /\ Q a s'.

Lemma passes_done {A} (a : A) Q s : Q a s -> passes (done a) Q s.
Proof. intros HQ. by exists a, s. Qed.

Lemma passes_then {A B} (p : test A) (f : A -> test B) Q s :
  passes p (fun a s' => passes (f a) Q s') s -> passes (and_then p f) Q s.
Proof.
  intros (a & s1 & Hp & b & s2 & Hf & HQ). exists b, s2. unfold and_then. by rewrite Hp, Hf.
Qed.

Lemma passes_on {R} (c : call R) (Q : R -> S -> Prop) s :
  store_ok s ->
  (forall r s', store_ok s' -> handle c s = (r, s') ->
     store_spec false c (view s) r (view s') -> Q r s') ->
  passes (on methods c) Q s.
Proof.
  intros Hok HQ. pose proof (handle_ok R c s Hok) as H1. pose proof (handle_spec R c s Hok) as H2.
  rewrite Hreliable in H2. unfold on. cbv beta. destruct (handle c s) as [r s'] eqn:E. exists r, s'.
  split; [by rewrite E|]. by apply HQ.
Qed.

Lemma passes_failures {A} (t : test A) s : passes t (fun _ _ => True) s -> failures t s = [].
Proof. unfold failures. by intros (a & s' & -> & _). Qed.

(** A call at the head of the test: what the contract says of it. *)
#[local] Ltac call r s' Hok Hr :=
  let He := fresh "He" in
  apply passes_then, passes_on; [assumption|];
  intros r s' Hok He Hr; clear He; cbn [store_spec] in Hr;
  destruct Hr as [Hr|Hr]; [by destruct Hr|].

(** A check that holds. *)
#[local] Ltac check := apply passes_then, passes_done.

Lemma passes_JobCRUD s :
  store_ok s -> view s = mkDb ∅ ∅ -> passes (testJobCRUD methods) (fun _ _ => True) s.
Proof.
  intros Hok Hs. unfold testJobCRUD.
  call r s1 Hok1 Hr. destruct Hr as [-> H1]. rewrite Hs in H1. check.
  call r s2 Hok2 Hr. rewrite H1 in Hr. destruct Hr as [-> H2]. check. check.
  call r s3 Hok3 Hr. rewrite H2 in Hr. destruct Hr as (l & -> & Hp & H3). check.
  apply Permutation_length in Hp. cbn in Hp. unfold count. rewrite Hp. check.
  call r s4 Hok4 Hr. rewrite H3 in Hr. destruct Hr as [-> H4]. check.
  call r s5 Hok5 Hr. rewrite H4 in Hr. destruct Hr as [-> H5]. by apply passes_done.
Qed.

Lemma passes_RunLifecycle s :
  store_ok s -> view s = mkDb ∅ ∅ -> passes (testRunLifecycle methods) (fun _ _ => True) s.
Proof.
  intros Hok Hs. unfold testRunLifecycle. cbv zeta.
  call r s1 Hok1 Hr. destruct Hr as [-> H1]. rewrite Hs in H1. check.
  call r s2 Hok2 Hr. rewrite H1 in Hr. cbn in Hr. destruct Hr as [-> H2]. check.
  call r s3 Hok3 Hr. rewrite H2 in Hr. destruct Hr as [-> H3]. check. check.
  call r s4 Hok4 Hr. rewrite H3 in Hr. destruct Hr as [-> H4]. by apply passes_done.
Qed.

(** ** Claims *)

(** A claim when one run is ready, below the limit. *)
Lemma passes_claim_one now w le limit x (Q : result store_error (list Job.Run) -> S -> Prop) s :
  store_ok s -> 1 < limit ->
  db_runs (view s) !! run_ID x = Some x -> ready now x = true ->
  (forall k y, db_runs (view s) !! k = Some y -> ready now y = true -> y = x) ->
  (forall s', store_ok s' -> view s' = put_run (view s) (claim now w le x) ->
     Q (Ok [claim now w le x]) s') ->
  passes (on methods (ClaimDue now w le limit)) Q s.
Proof.
  intros Hok Hlim Hx Hready Honly HQ. apply passes_on; [done|]. intros r s' Hok' He Hr.
  cbn [store_spec] in Hr. destruct Hr as [Hr|(l & -> & Hnd & Hall & _ & Hd)]; [by destruct Hr|].
  assert (forall y, y ∈ l -> y = x) as Hl.
  { intros y Hy. rewrite Forall_forall in Hall. destruct (Hall y Hy). by eapply Honly. }
  assert (l = [] \/ l = [x]) as [->| ->].
  { destruct l as [|a [|b l]]; [by left|right|].
    - by rewrite (Hl a) by (by left).
    - exfalso. rewrite (Hl a), (Hl b) in Hnd by set_solver. cbn in Hnd.
      apply NoDup_cons in Hnd as [Hn _]. apply Hn. by left. }
  - exfalso. specialize (Hprompt now w le limit s Hok (map (claim now w le) []) ltac:(by rewrite He) x Hx Hready).
    cbn in Hprompt. destruct Hprompt as [Hin|Hin]; [by apply elem_of_nil in Hin|lia].
  - by apply HQ.
Qed.

(** A claim when no run is ready. *)
Lemma passes_claim_none now w le limit (Q : result store_error (list Job.Run) -> S -> Prop) s :
  store_ok s -> (forall k y, db_runs (view s) !! k = Some y -> ready now y = false) ->
  (forall s', store_ok s' -> view s' = view s -> Q (Ok []) s') ->
  passes (on methods (ClaimDue now w le limit)) Q s.
Proof.
  intros Hok Hnone HQ. apply passes_on; [done|]. intros r s' Hok' He Hr.
  cbn [store_spec] in Hr. destruct Hr as [Hr|(l & -> & _ & Hall & _ & Hd)]; [by destruct Hr|].
  destruct l as [|a l]; [by apply HQ|]. apply Forall_cons in Hall as [[Ha Hr] _].
  rewrite (Hnone _ _ Ha) in Hr. discriminate.
Qed.

Lemma passes_create runs (Q : unit -> S -> Prop) s :
  store_ok s ->
  (forall s', store_ok s' -> view s' = put_runs (view s) runs -> Q tt s') ->
  passes (mustCreate methods runs) Q s.
Proof.
  revert s. induction runs as [|r runs IH]; intros s Hok HQ; cbn [mustCreate]; [by apply passes_done, HQ|].
  call x s1 Hok1 Hr. destruct Hr as [-> H1]. check. apply IH; [done|]. intros s2 Hok2 H2. apply HQ; [done|].
  by rewrite H2, H1.
Qed.

(** The runs of a database that was filled by hand, and whether they are ready. *)
#[local] Ltac stored_runs Hs :=
  intros k y Hy; rewrite Hs in Hy; cbn [put_runs put_run foldl db_runs] in Hy;
  repeat match goal with
    | H : <[_ := _]> _ !! _ = Some _ |- _ => apply lookup_insert_Some in H as [[? <-]|[? H]]
    end;
  first
    [ by rewrite lookup_empty in Hy
    | match goal with Hne : ?a <> k, Heq : ?b = k |- _ => destruct Hne; rewrite <-Heq; reflexivity end
    | by vm_compute ].

Lemma passes_ClaimDue s :
  store_ok s -> view s = mkDb ∅ ∅ -> passes (testClaimDue methods) (fun _ _ => True) s.
Proof.
  intros Hok Hs. unfold testClaimDue. cbv zeta. apply passes_then, passes_create; [done|].
  intros s1 Hok1 H1. rewrite Hs in H1.
  apply passes_then, (passes_claim_one _ _ _ _
    (suite_run "due" "j" StatePending (Add suite_time (- Minute)) suite_time)); [done|lia| | | |].
  1: by rewrite H1.
  1: done.
  1: by stored_runs H1.
  intros s2 Hok2 H2. rewrite H1 in H2. check. check. check. check.
  apply passes_then, passes_claim_none; [done|by stored_runs H2|].
  intros s3 Hok3 H3. check. by apply passes_done.
Qed.

Lemma passes_LeaseRedelivery s :
  store_ok s -> view s = mkDb ∅ ∅ -> passes (testLeaseRedelivery methods) (fun _ _ => True) s.
Proof.
  intros Hok Hs. unfold testLeaseRedelivery. cbv zeta. apply passes_then, passes_create; [done|].
  intros s1 Hok1 H1. rewrite Hs in H1. set (r := suite_run _ _ _ _ _) in *.
  apply passes_then, (passes_claim_one _ _ _ _ r); [done|lia|by rewrite H1|done|by stored_runs H1|].
  intros s2 Hok2 H2. rewrite H1 in H2. check.
  apply passes_then, passes_claim_none; [done|by stored_runs H2|]. intros s3 Hok3 H3. rewrite H2 in H3. check.
  apply passes_then, (passes_claim_one _ _ _ _ (claim suite_time "worker-1" (30 * Second) r));
    [done|lia|by rewrite H3|done|by stored_runs H3|].
  intros s4 Hok4 H4. check. by apply passes_done.
Qed.

(** ** Listings *)

Definition filter_db : db := put_runs (mkDb ∅ ∅) filter_runs.

Lemma passes_list f (Q : result store_error (list Job.Run) -> S -> Prop) s :
  store_ok s -> view s = filter_db ->
  (forall l s', store_ok s' -> view s' = filter_db -> Sorted newer l ->
     Permutation l (filter (fun x => matches f x) (runs_of filter_db)) -> Q (Ok (page f l)) s') ->
  passes (on methods (ListRuns f)) Q s.
Proof.
  intros Hok Hs HQ. apply passes_on; [done|]. intros r s' Hok' _ Hr.
  cbn [store_spec] in Hr. destruct Hr as [Hr|(l & -> & Hp & Hsort & Hd)]; [by destruct Hr|].
  rewrite Hs in Hp, Hd. by apply HQ.
Qed.

(** Two runs in the order of a listing: the newer one is first. *)
Lemma newest_of_two a b l :
  Sorted newer l -> Permutation l [a; b] -> run_CreatedAt a < run_CreatedAt b -> l = [b; a].
Proof.
  intros Hsort Hp%Permutation_sym Hlt. apply Permutation_length_2_inv in Hp as [->| ->]; [|done].
  apply Sorted_inv in Hsort as [_ Hab]. apply HdRel_inv in Hab. unfold newer in Hab. lia.
Qed.

Lemma passes_ListRunsFilter s :
  store_ok s -> view s = mkDb ∅ ∅ -> passes (testListRunsFilter methods) (fun _ _ => True) s.
Proof.
  intros Hok Hs. unfold testListRunsFilter. apply passes_then, passes_create; [done|].
  intros s1 Hok1 H1. rewrite Hs in H1.
  apply passes_then, passes_list; [done|done|]. intros l s2 Hok2 H2 Hsort Hp. check.
  assert (l = [suite_run "b" "j1" StateFailed zero_time (Add suite_time Second);
               suite_run "a" "j1" StateSucceeded zero_time suite_time]) as ->.
  { apply newest_of_two; [done| |done]. rewrite Hp. vm_compute. done. }
  check. check.
  apply passes_then, passes_list; [done|done|]. intros l s3 Hok3 H3 _ Hp3%Permutation_length. check.
  assert (length l = 2%nat) as Hl3 by (rewrite Hp3; vm_compute; done).
  unfold count, page. cbn [rf_Limit rf_Offset by_state_filter Z.ltb Z.compare]. rewrite Hl3. check.
  apply passes_then, passes_list; [done|done|]. intros l' s4 Hok4 H4 _ Hp4%Permutation_length. check.
  assert (length l' = 3%nat) as Hl4 by (rewrite Hp4; vm_compute; done).
  unfold page. cbn [rf_Limit rf_Offset limit_filter Z.ltb Z.compare].
  rewrite length_take, Hl4. by apply passes_done.
Qed.

(** C22: a store that meets the contract, never fails and claims promptly passes
    the whole conformance suite, when every test starts on an empty store. *)
Theorem conformance (newStore : nat -> S) :
  (forall i, store_ok (newStore i) /\ view (newStore i) = mkDb ∅ ∅) ->
  Run methods newStore = [].
Proof.
  intros Hnew. unfold Run. rewrite !passes_failures; [done|..];
    [apply passes_ListRunsFilter|apply passes_LeaseRedelivery|apply passes_ClaimDue
    |apply passes_RunLifecycle|apply passes_JobCRUD]; apply Hnew.
Qed.
End Contract.
End Storetest.
(** The claims of the in-memory store are prompt. *)
Lemma memory_prompt now worker lease limit (s : Memory.state) :
  store_ok s -> Storetest.prompt now worker lease limit s.
Proof.
  intros Hok l. cbn. rewrite Memory.ClaimDue_eq. intros [= <-] x Hx Hready.
  set (due := Memory.due_runs now limit _).
  destruct (decide (0 < limit /\ limit <= Z.of_nat (length due))) as [Hfull|Hfull].
  - right. by rewrite length_map.
  - left. apply (list_elem_of_fmap_2 (claim now worker lease)), Memory.due_runs_all; [unfold due in Hfull; lia| |done].
    by apply (elem_of_runs_of (Memory.mem_view s)).
Qed.

Lemma conformance_witness : Storetest.Run Memory.methods (fun _ => Memory.New) = [].
Proof.
  apply (Storetest.conformance (H := Memory.store) eq_refl memory_prompt (fun _ => Memory.New)).
  intros _. split; [apply Memory.New_ok|reflexivity].
Defined.

(** PostgreSQL, with a clock for the times that the tests leave out. *)
Example postgres_passes :
  Storetest.Run Postgres.methods
    (fun _ => Postgres.mkState (Postgres.mkTables ∅ ∅) [] (repeat Storetest.suite_time 4)) = [].
Proof. vm_compute. reflexivity. Qed.
