(* ===== verification/Main.v ===== *)
(** * The command

    Models [src/cmd/cronflux/main.go], the serving loop of
    [src/internal/api/server.go] and [src/internal/buildinfo/buildinfo.go]: what
    happens before the scheduler starts, as a function; what happens afterwards,
    when the scheduler, the HTTP server, its requests and the signals are
    concurrent, as a step relation. *)

From Stdlib Require Import ZArith Lia String.
From stdpp Require Import base list strings gmap.
From S2P Require Import Prelude GoTime GoStrings GoFloat GoFlag Job Dag Store MemoryStore.
From S2P Require Import PostgresStore Effects Worker Dispatcher Scheduler Config JobsFile.

#[local] Open Scope string_scope.
#[local] Open Scope list_scope.
#[local] Open Scope Z_scope.

(** ** Build information *)

Record Info := mkInfo {
  info_Version : string;
  info_Commit : string;
  info_Date : string;
  info_GoVersion : string
}.

(** The variables that the linker overrides, and [runtime.Version()]. *)
Definition Version : string := "dev".
Definition Commit : string := "none".
Definition BuildDate : string := "unknown".

Definition Current (runtime_Version : string) : Info := mkInfo Version Commit BuildDate runtime_Version.

Definition Info_String (i : Info) : string :=
  "cronflux " ++ info_Version i ++ " (commit " ++ info_Commit i ++ ", built " ++ info_Date i
  ++ ", " ++ info_GoVersion i ++ ")".

Inductive Level := LevelDebug | LevelInfo | LevelWarn | LevelError.

(** The level of [newLogger]. *)
Definition newLogger (level : string) : Level :=
  if String.eqb level "debug" then LevelDebug
  else if String.eqb level "warn" then LevelWarn
  else if String.eqb level "error" then LevelError
  else LevelInfo.

Section Startup.
Context `{!Server}.

(** ** Start-up *)

(** The value of type [store.Store]. *)
Inductive backend :=
| OnMemory (s : Memory.state)
| OnPostgres (s : Postgres.state).

Definition backend_PutJob (j : Job) (b : backend) : result store_error unit * backend :=
  match b with
  | OnMemory s => let '(r, s) := Memory.PutJob j s in (r, OnMemory s)
  | OnPostgres s => let '(r, s) := Postgres.PutJob j s in (r, OnPostgres s)
  end.

Inductive main_error :=
| ConfigError (e : load_error)
| OpenError (e : Postgres.open_error)
| UnknownStore (b : Backend)
| JobsError (e : jobs_error)
| StoreError (e : store_error)
| ServeError (msg : string).

(** What the process finds: its environment and files, the order in which Go
    visits maps, and the database at a URL, if it answers. *)
Record surroundings := mkSurroundings {
  Getenv : string -> string;
  ReadFile : string -> result string string;
  visit : nat -> gset string -> list string;
  connect : string -> option string;
  database : string -> Postgres.state
}.

Context (W : surroundings).

Definition openStore (cfg : Config) : result main_error backend :=
  if String.eqb (cfg_Backend cfg) BackendMemory then Ok (OnMemory Memory.New)
  else if String.eqb (cfg_Backend cfg) BackendPostgres then
    match (Postgres.Open (connect W (DatabaseURL cfg)) (database W (DatabaseURL cfg))).1 with
    | Ok s => Ok (OnPostgres s)
    | Err e => Err (OpenError e)
    end
  else Err (UnknownStore (cfg_Backend cfg)).

(** The loop of [loadJobs]: it stops at the first error. *)
Fixpoint putJobs (jobs : list Job) (b : backend) : result store_error unit * backend :=
  match jobs with
  | [] => (Ok tt, b)
  | j :: jobs =>
      match backend_PutJob j b with
      | (Err e, b) => (Err e, b)
      | (Ok _, b) => putJobs jobs b
      end
  end.

Definition loadJobs (path : string) (b : backend) : result main_error unit * backend :=
  match LoadJobs (ReadFile W) (visit W) path with
  | Err e => (Err (JobsError e), b)
  | Ok jobs => match putJobs jobs b with
               | (Err e, b) => (Err (StoreError e), b)
               | (Ok _, b) => (Ok tt, b)
               end
  end.

(** [run] up to the start of the scheduler: it fails, having closed the store it
    opened if any, or goes on with a configuration and a store. *)
Inductive startup :=
| Stopped (e : main_error) (closed : option backend)
| Started (cfg : Config) (b : backend).

Definition start_up (args : list string) : startup :=
  match Load (Getenv W) args with
  | Err e => Stopped (ConfigError e) None
  | Ok cfg =>
      match openStore cfg with
      | Err e => Stopped e None
      | Ok b =>
          if negb (String.eqb (JobsFile cfg) "") then
            match loadJobs (JobsFile cfg) b with
            | (Err e, b) => Stopped e (Some b)
            | (Ok _, b) => Started cfg b
            end
          else Started cfg b
      end
  end.

(** The scheduler that [run] builds; subprocesses, identifiers and the clock are
    the operating system's. *)
Definition run_scheduler (exec : nat -> option duration -> string -> list string -> option string)
    (defaultID : nat -> string) (Real : Clock) (cfg : Config) : Scheduler.Scheduler :=
  Scheduler.New defaultID Real
    (mkOptions (Some (ShellExecutor exec)) (TickInterval cfg) (Workers cfg) (LeaseDuration cfg)
       None None None).

(** [main]: print the version, or run; [os.Args] has the program first. *)
Inductive command := PrintVersion (line : string) | RunWith (args : list string).

Definition main (runtime_Version : string) (os_Args : list string) : command :=
  match os_Args with
  | _ :: a :: _ =>
      if existsb (String.eqb a) ["--version"; "-version"; "version"]
      then PrintVersion (Info_String (Current runtime_Version))
      else RunWith (tail os_Args)
  | _ => RunWith (tail os_Args)
  end.

(** ** What start-up leaves behind *)

(** Of jobs with the same identifier, the last one of the file counts. *)
Definition last_job (id : string) (jobs : list Job) : option Job :=
  foldl (fun o j => if decide (job_ID j = id) then Some j else o) None jobs.

(** The jobs that start-up stores. *)
Definition file_jobs (cfg : Config) (jobs : list Job) : Prop :=
  (JobsFile cfg = "" /\ jobs = [])
  \/ (JobsFile cfg <> "" /\ LoadJobs (ReadFile W) (visit W) (JobsFile cfg) = Ok jobs).

Lemma putJobs_memory jobs s :
  exists s', putJobs jobs (OnMemory s) = (Ok tt, OnMemory s')
    /\ Memory.runs s' = Memory.runs s
    /\ forall id, Memory.jobs s' !! id
         = foldl (fun o j => if decide (job_ID j = id) then Some j else o) (Memory.jobs s !! id) jobs.
Proof.
  revert s. induction jobs as [|j jobs IH]; intros s; [by exists s|]. cbn.
  destruct (IH (Memory.PutJob j s).2) as (s' & Hp & Hr & Hj). exists s'.
  split_and!; [exact Hp|exact Hr|]. intros id. rewrite Hj. f_equal. cbn.
  destruct (decide (job_ID j = id)) as [<-|Hne].
  - by rewrite lookup_insert_eq, Job_Clone_id.
  - by rewrite lookup_insert_ne.
Qed.

Context `{!ServerLaws}.

(** A job as the columns keep it, next to the row that it replaces: instants at
    the precision of the columns, an instant that is zero replaced by the time of
    the call, JSON read back, and the creation time of the row. *)
Definition kept_job (old : option Job) (created updated : time) (j : Job) : Job :=
  mkJob (job_ID j) (job_Name j) (job_Spec j)
    (default [] (c ← store_strings (job_Command j); load_strings c)) (job_MaxRetries j)
    (default zero_policy (p ← store_policy (job_Backoff j); load_policy p))
    (default [] (d ← store_strings (job_DependsOn j); load_strings d)) (job_Timeout j) (job_Enabled j)
    (match old with
     | Some o => job_CreatedAt o
     | None => ts (if IsZero (job_CreatedAt j) then created else job_CreatedAt j)
     end)
    (ts (if IsZero (job_UpdatedAt j) then updated else job_UpdatedAt j)).

(** Jobs stored one after the other, each at some reading of the clock. *)
Inductive upserts : list Job -> db -> db -> Prop :=
| upserts_nil d : upserts [] d d
| upserts_cons j jobs created updated d d' :
    upserts jobs (mkDb (<[job_ID j := kept_job (db_jobs d !! job_ID j) created updated j]> (db_jobs d))
                    (db_runs d)) d' ->
    upserts (j :: jobs) d d'.

Lemma upserts_then j jobs d1 d2 d3 : upserts [j] d1 d2 -> upserts jobs d2 d3 -> upserts (j :: jobs) d1 d3.
Proof. inversion 1 as [|? ? ? ? ? ? Hnil]; inversion Hnil; subst. apply upserts_cons. Qed.

Local Abbreviation dbview s := (Postgres.view (Postgres.db_tables s)).

Lemma stored_job_kept s j : exists created updated,
  Postgres.stored_job s j = kept_job (db_jobs (dbview s) !! job_ID j) created updated j.
Proof.
  unfold Postgres.stored_job, Postgres.orNow, kept_job. rewrite Postgres.view_job.
  exists (Postgres.time_Now s).1.
  exists (Postgres.time_Now (if IsZero (job_CreatedAt j) then (Postgres.time_Now s).2 else s)).1.
  destruct (Postgres.t_jobs (Postgres.db_tables s) !! job_ID j), (IsZero (job_CreatedAt j)),
    (IsZero (job_UpdatedAt j)); reflexivity.
Qed.

(** Storing one job: done, or an error of the connection, which may have come
    after the row was written. *)
Lemma PutJob_postgres j s :
  ((Postgres.PutJob j s).1 = Ok tt /\ upserts [j] (dbview s) (dbview (Postgres.PutJob j s).2))
  \/ ((exists msg, (Postgres.PutJob j s).1 = Err (Store.Backend msg))
      /\ (dbview (Postgres.PutJob j s).2 = dbview s
          \/ upserts [j] (dbview s) (dbview (Postgres.PutJob j s).2))).
Proof.
  assert (forall s d', d' = mkDb (<[job_ID (Postgres.stored_job s j) := Postgres.stored_job s j]>
      (db_jobs (dbview s))) (db_runs (dbview s)) -> upserts [j] (dbview s) d') as Hup.
  { intros s0 d' ->. destruct (stored_job_kept s0 j) as (c & u & ->).
    eapply upserts_cons. apply upserts_nil. }
  assert (forall s, Postgres.answered s -> failed true (dbview s) (Postgres.PutJob j s).1
      (dbview (Postgres.PutJob j s).2) \/ _) as Hput by (intros s0; apply Postgres.PutJob_refines).
  destruct (head (Postgres.fates s)) as [[locked|msg|msg]|] eqn:Hf;
    try (destruct (Hput s) as [(_ & Hm & Hd)|[Hr Hd]];
      [intros msg'; by rewrite Hf|right; by auto|left; by auto]).
  right. destruct (Postgres.lost_delivered _ (PutJob j) s msg Hf) as [Hr Ht].
  cbn [Postgres.methods Postgres.backend_error] in Hr, Ht. split; [eauto|]. rewrite Ht.
  destruct (Hput (Postgres.delivered s)) as [(_ & _ & Hd)|[_ Hd]]; [done|by left|right].
  apply (Hup (Postgres.delivered s)). exact Hd.
Qed.

(** The loop of [loadJobs] on PostgreSQL. *)
Lemma putJobs_postgres jobs s r b :
  putJobs jobs (OnPostgres s) = (r, b) ->
  exists s', b = OnPostgres s' /\ match r with
    | Ok _ => upserts jobs (dbview s) (dbview s')
    | Err e => exists done j rest mid, jobs = done ++ j :: rest
        /\ upserts done (dbview s) (dbview mid) /\ Postgres.PutJob j mid = (Err e, s')
        /\ (dbview s' = dbview mid \/ upserts [j] (dbview mid) (dbview s'))
    end.
Proof.
  revert s. induction jobs as [|j jobs IH]; intros s.
  { intros [= <- <-]. exists s. split; [done|constructor]. }
  cbn [putJobs backend_PutJob]. pose proof (PutJob_postgres j s) as Hput.
  destruct (Postgres.PutJob j s) as [r1 s1] eqn:E. cbn [fst snd] in Hput.
  destruct Hput as [[-> Hup]|[[msg ->] Hd]].
  - intros (s' & -> & Hs)%IH. exists s'. split; [done|]. destruct r as [[]|e].
    + by eapply upserts_then.
    + destruct Hs as (pre & j' & rest & mid & -> & Hpre & Hj & Hs).
      exists (j :: pre), j', rest, mid. split_and!; [done| |done|done].
      by eapply upserts_then.
  - intros [= <- <-]. exists s1. split; [done|]. exists [], j, jobs, s.
    split_and!; [done|constructor|done|done].
Qed.

Lemma Load_backend args cfg :
  Load (Getenv W) args = Ok cfg -> cfg_Backend cfg = "memory" \/ cfg_Backend cfg = "postgres".
Proof.
  unfold Load. destruct (Parse _ args) as [fs|e]; [|done]. cbv zeta.
  destruct (Validate _) as [[]|e] eqn:Hv; [|done]. intros [= <-].
  apply Validate_valid in Hv as [[Hb|[Hb _]] _]; auto.
Qed.

(** The scheduler runs as configured: no default of its own applies. *)
Lemma run_scheduler_configured args cfg exec defaultID Real :
  Load (Getenv W) args = Ok cfg ->
  let s := run_scheduler exec defaultID Real cfg in
  s_tick s = TickInterval cfg /\ s_workers s = Workers cfg /\ s_lease s = LeaseDuration cfg.
Proof.
  unfold Load. destruct (Parse _ args) as [fs|e]; [|done]. cbv zeta.
  destruct (Validate _) as [[]|e] eqn:Hv; [|done]. intros [= <-].
  apply Validate_valid in Hv as (_ & Hw & Ht & Hl). cbn in *.
  by rewrite (proj2 (Z.leb_gt _ 0) Ht), (proj2 (Z.ltb_ge _ 1) Hw), (proj2 (Z.leb_gt _ 0) Hl).
Qed.

Local Abbreviation base cfg := (database W (DatabaseURL cfg)).
Local Abbreviation open_fault cfg :=
  (Postgres.open_fault (connect W (DatabaseURL cfg)) (Postgres.fates (base cfg))).

(** The store as it is when it was opened. *)
Definition opened (cfg : Config) (b : backend) : Prop :=
  match b with
  | OnMemory s => cfg_Backend cfg = "memory" /\ s = Memory.New
  | OnPostgres s => cfg_Backend cfg = "postgres" /\ open_fault cfg = None
      /\ Postgres.db_tables s = Postgres.db_tables (base cfg)
  end.

Lemma openStore_spec cfg :
  cfg_Backend cfg = "memory" \/ cfg_Backend cfg = "postgres" ->
  match openStore cfg with
  | Ok b => opened cfg b
  | Err (OpenError e) => cfg_Backend cfg = "postgres" /\ open_fault cfg = Some e
  | Err _ => False
  end.
Proof.
  unfold openStore. intros [Hb|Hb]; rewrite Hb; [done|]. cbn -[Postgres.Open].
  rewrite (proj1 (Postgres.Open_outcome _ _)). by destruct (open_fault cfg) eqn:Ef.
Qed.

(** C16: start-up.  The scheduler starts only with a valid configuration, on the
    store it names.  The in-memory store then holds exactly the jobs of the jobs
    file and no run.  On PostgreSQL the database answered, and each job of the
    file was stored in turn, as the columns keep it; other jobs and all runs are
    as they were.  When start-up fails, the error is that of the configuration,
    of the first round trip of opening the store that failed, of the jobs file,
    or of storing a job, in which case exactly the jobs before that one are
    stored, and that one if the answer got lost.  The store is closed again if it
    was opened. *)
Theorem start_up_correct args :
  match start_up args with
  | Started cfg b =>
      Load (Getenv W) args = Ok cfg /\ exists jobs, file_jobs cfg jobs
      /\ match b with
         | OnMemory s => cfg_Backend cfg = "memory" /\ Memory.runs s = ∅
             /\ forall id, Memory.jobs s !! id = last_job id jobs
         | OnPostgres s => cfg_Backend cfg = "postgres" /\ open_fault cfg = None
             /\ upserts jobs (dbview (base cfg)) (dbview s)
         end
  | Stopped (ConfigError e) closed => Load (Getenv W) args = Err e /\ closed = None
  | Stopped e closed => exists cfg, Load (Getenv W) args = Ok cfg
      /\ match e, closed with
         | OpenError e, None => cfg_Backend cfg = "postgres" /\ open_fault cfg = Some e
         | JobsError e, Some b => JobsFile cfg <> ""
             /\ LoadJobs (ReadFile W) (visit W) (JobsFile cfg) = Err e /\ opened cfg b
         | StoreError e, Some (OnPostgres s) =>
             cfg_Backend cfg = "postgres" /\ open_fault cfg = None
             /\ exists done j rest mid,
                  file_jobs cfg (done ++ j :: rest)
                  /\ upserts done (dbview (base cfg)) (dbview mid)
                  /\ Postgres.PutJob j mid = (Err e, s)
                  /\ (dbview s = dbview mid \/ upserts [j] (dbview mid) (dbview s))
         | _, _ => False
         end
  end.
Proof.
  unfold start_up. destruct (Load (Getenv W) args) as [cfg|e] eqn:HL; [|done].
  pose proof (openStore_spec cfg (Load_backend _ _ HL)) as Ho.
  destruct (openStore cfg) as [b|e] eqn:Eo; [|by destruct e; try done; exists cfg].
  destruct (String.eqb_spec (JobsFile cfg) "") as [Hf|Hf]; cbn [negb].
  - split; [done|]. exists []. split; [by left|]. destruct b as [s|s].
    + destruct Ho as [-> ->]. by split_and!.
    + destruct Ho as (Hb & Hopen & ->). split_and!; [done|done|constructor].
  - unfold loadJobs. destruct (LoadJobs _ _ _) as [jobs|e] eqn:Ej; [|by exists cfg].
    destruct b as [s|s].
    + destruct Ho as [Hb ->]. destruct (putJobs_memory jobs Memory.New) as (s' & -> & Hr & Hj).
      split; [done|]. exists jobs. split; [by right|]. split_and!; [done|by rewrite Hr|].
      intros id. by rewrite Hj.
    + destruct Ho as (Hb & Hopen & Ht). destruct (putJobs jobs (OnPostgres s)) as [r b] eqn:Ep.
      destruct (putJobs_postgres _ _ _ _ Ep) as (s' & -> & Hput). rewrite Ht in Hput.
      destruct r as [[]|e].
      * split; [done|]. exists jobs. split; [by right|]. by split_and!.
      * exists cfg. split; [done|]. split_and!; [done|done|].
        destruct Hput as (pre & j & rest & mid & -> & Hput). exists pre, j, rest, mid.
        split; [by right|done].
Qed.
End Startup.

(** ** Serving

    From the start of the scheduler on, [run] waits for [ListenAndServe], cancels
    the context, waits for the scheduler and closes the store.  Concurrently the
    scheduler ticks until it sees the cancelled context between two ticks,
    requests come and go while the listener accepts them, the listener may fail,
    and signals arrive: up to [stop()] they cancel the context, after it they
    have their default disposition and kill the process. *)

Inductive listener :=
| Serving
| ListenFailed (msg : string)
| ShutDown.

(** The goroutine of [sched.Run]: in its select, in a tick, or returned. *)
Inductive loop_state := Selecting | Ticking | LoopReturned.

(** Where [run] is: in the select of [ListenAndServe], in its [Shutdown], before
    [stop()], in [wg.Wait], or back from [st.Close]; with the error it returns
    ([None] for nil).  A killed process is nowhere: [st.Close] was not called. *)
Inductive position :=
| Listening
| ShuttingDown
| Stopping (err : option string)
| Waiting (err : option string)
| Returned (err : option string)
| Killed.

Record proc_state := mkProcess {
  cancelled : bool;
  sched : loop_state;
  http : listener;
  inflight : nat;
  at_ : position
}.

Definition started : proc_state := mkProcess false Selecting Serving 0 Listening.

(** [signal.NotifyContext] is in force until [stop()] has been called. *)
Definition notified (a : position) : bool :=
  match a with Listening | ShuttingDown | Stopping _ => true | _ => false end.

(** What the outside world does. *)
Inductive external : proc_state -> proc_state -> Prop :=
| ext_signal p :
    notified (at_ p) = true ->
    external p (mkProcess true (sched p) (http p) (inflight p) (at_ p))
| ext_kill p err :
    at_ p = Waiting err ->
    external p (mkProcess (cancelled p) (sched p) (http p) (inflight p) Killed)
| ext_request p :
    http p = Serving ->
    external p (mkProcess (cancelled p) (sched p) (http p) (S (inflight p)) (at_ p))
| ext_listen_error p msg :
    http p = Serving ->
    external p (mkProcess (cancelled p) (sched p) (ListenFailed msg) (inflight p) (at_ p)).

(** The ticker and the work of a tick.  The select may choose a tick although
    the context is cancelled, and nothing says that a tick ends
    ([Dispatcher.fire_loop_gives_up_diverges]). *)
Inductive tick_step : proc_state -> proc_state -> Prop :=
| tick_begin p :
    sched p = Selecting -> at_ p <> Killed ->
    tick_step p (mkProcess (cancelled p) Ticking (http p) (inflight p) (at_ p))
| tick_end p :
    sched p = Ticking -> at_ p <> Killed ->
    tick_step p (mkProcess (cancelled p) Selecting (http p) (inflight p) (at_ p)).

Definition deadline_exceeded : string := "context deadline exceeded".

(** The steps of [ListenAndServe] and of its requests. *)
Inductive ListenAndServe : proc_state -> proc_state -> Prop :=
(** A handler returns. *)
| int_response p n :
    inflight p = S n -> at_ p <> Killed ->
    ListenAndServe p (mkProcess (cancelled p) (sched p) (http p) n (at_ p))
(** [case err := <-errCh]. *)
| int_listen_failed p msg :
    at_ p = Listening -> http p = ListenFailed msg ->
    ListenAndServe p
      (mkProcess (cancelled p) (sched p) (http p) (inflight p) (Stopping (Some msg)))
(** [case <-ctx.Done()]. *)
| int_shutdown p :
    at_ p = Listening -> cancelled p = true ->
    ListenAndServe p (mkProcess (cancelled p) (sched p) ShutDown (inflight p) ShuttingDown)
(** [Shutdown] returns when no request is left, or at its deadline. *)
| int_drained p :
    at_ p = ShuttingDown -> inflight p = 0%nat ->
    ListenAndServe p (mkProcess (cancelled p) (sched p) (http p) 0 (Stopping None))
| int_deadline p :
    at_ p = ShuttingDown ->
    ListenAndServe p (mkProcess (cancelled p) (sched p) (http p) (inflight p)
      (Stopping (Some deadline_exceeded))).

(** The steps of [run] and of the goroutine it starts. *)
Inductive run_step : proc_state -> proc_state -> Prop :=
(** [case <-ctx.Done()] in the loop of the scheduler, between two ticks. *)
| int_scheduler p :
    sched p = Selecting -> cancelled p = true -> at_ p <> Killed ->
    run_step p (mkProcess (cancelled p) LoopReturned (http p) (inflight p) (at_ p))
(** [stop()]. *)
| int_stop p err :
    at_ p = Stopping err ->
    run_step p (mkProcess true (sched p) (http p) (inflight p) (Waiting err))
(** [wg.Wait()], then the deferred [st.Close()]. *)
| int_close p err :
    at_ p = Waiting err -> sched p = LoopReturned ->
    run_step p (mkProcess (cancelled p) (sched p) (http p) (inflight p) (Returned err)).

(** What the process does by itself, the work of a tick apart. *)
Definition internal (p p' : proc_state) : Prop := ListenAndServe p p' \/ run_step p p'.

Definition serve_step (p p' : proc_state) : Prop :=
  external p p' \/ tick_step p p' \/ internal p p'.

(** The scheduler stops on a cancelled context; behind the select no request
    comes in; behind [stop()] the context is cancelled; a clean shutdown has no
    request left. *)
Definition proc_inv (p : proc_state) : Prop :=
  (sched p = LoopReturned -> cancelled p = true)
  /\ match at_ p with
     | Listening => True
     | ShuttingDown => http p <> Serving
     | Stopping err => http p <> Serving /\ (err = None -> inflight p = 0%nat)
     | Waiting err => cancelled p = true /\ http p <> Serving /\ (err = None -> inflight p = 0%nat)
     | Returned err => cancelled p = true /\ http p <> Serving /\ (err = None -> inflight p = 0%nat)
         /\ sched p = LoopReturned
     | Killed => cancelled p = true /\ http p <> Serving
     end.

Lemma step_proc_inv p q : serve_step p q -> proc_inv p -> proc_inv q.
Proof.
  unfold proc_inv. intros [Hs|[Hs|[Hs|Hs]]] Hi; destruct Hs; destruct p as [c sc h k a]; cbn in *; subst;
    destruct Hi as [Hi1 Hi2]; try (by split_and!); try destruct a; cbn in *; intuition congruence.
Qed.

Lemma serve_inv p : rtc serve_step started p -> proc_inv p.
Proof.
  assert (proc_inv started) as H0 by done. revert H0. generalize started as p0.
  intros p0 H0 Hr. induction Hr; eauto using step_proc_inv.
Qed.

(** ** Shutdown ends *)

Definition stage (a : position) : nat :=
  match a with
  | Listening => 4 | ShuttingDown => 3 | Stopping _ => 2 | Waiting _ => 1 | Returned _ | Killed => 0
  end.

Definition work_left (p : proc_state) : nat :=
  stage (at_ p) + inflight p + (match sched p with LoopReturned => 0 | _ => 1 end).

Lemma internal_decreases p q : internal p q -> (work_left q < work_left p)%nat.
Proof.
  unfold work_left. intros [Hs|Hs]; destruct Hs; destruct p as [c sc h k a]; cbn in *; subst; cbn; lia.
Qed.

(** The process has been told to stop, or its listener failed. *)
Definition ending (p : proc_state) : Prop :=
  cancelled p = true \/ (exists msg, http p = ListenFailed msg) \/ at_ p <> Listening.

(** The process has returned, or only waits for a tick to end. *)
Definition settled (p : proc_state) : Prop :=
  (exists err, at_ p = Returned err) \/ (exists err, at_ p = Waiting err /\ sched p = Ticking).

Lemma settled_or_not p : at_ p <> Killed -> settled p \/ ~ settled p.
Proof.
  unfold settled. intros _. destruct (at_ p) eqn:E, (sched p) eqn:Es;
    first [by left; left; eexists|by left; right; eexists|
           right; intros [[? ?]|(? & ? & ?)]; congruence].
Qed.

(** Something can be done while an ending process is not settled; no step of its
    own begins a tick. *)
Lemma internal_progress p :
  proc_inv p -> ending p -> at_ p <> Killed -> ~ settled p ->
  exists q, internal p q /\ ending q /\ at_ q <> Killed /\ (sched q = Ticking -> sched p = Ticking).
Proof.
  intros [_ Hi] Hend Hk Hs. unfold ending, internal, settled in *.
  destruct (at_ p) as [| |err|err|err|] eqn:E; [| | | |by destruct Hs; left; eexists|done].
  - destruct Hend as [Hc|[[msg Hm]|]]; [| |done].
    + eexists. split; [left; by apply int_shutdown|]. split; [by right; right|done].
    + eexists. split; [left; by apply int_listen_failed|]. split; [by right; right|done].
  - eexists. split; [left; by apply int_deadline|]. split; [by right; right|done].
  - eexists. split; [right; by apply int_stop|]. split; [by right; right|done].
  - destruct (sched p) eqn:Es.
    + eexists. split; [right; apply int_scheduler; [done|tauto|congruence]|]. cbn. rewrite E.
      split; [by right; right|done].
    + destruct Hs. right. by eexists.
    + eexists. split; [right; by eapply int_close|]. cbn. rewrite Es. split; [by right; right|done].
Qed.

Lemma internal_settles p :
  proc_inv p -> ending p -> at_ p <> Killed ->
  exists q, rtc internal p q /\ settled q /\ (sched q = Ticking -> sched p = Ticking).
Proof.
  induction p as [p IH] using (well_founded_induction (Wf_nat.well_founded_ltof _ work_left)).
  intros Hi Hend Hk. destruct (settled_or_not p Hk) as [Hs|Hs]; [by exists p|].
  destruct (internal_progress p Hi Hend Hk Hs) as (q & Hq & Hqe & Hqk & Ht).
  destruct (IH q) as (r & Hr & Hrs & Htr); [by apply internal_decreases| |done|done|].
  - eapply step_proc_inv; [|done]. by right; right.
  - exists r. split; [by eapply rtc_l|]. auto.
Qed.

Lemma internal_returns p :
  proc_inv p -> ending p -> at_ p <> Killed -> sched p <> Ticking ->
  exists q err, rtc internal p q /\ at_ q = Returned err.
Proof.
  intros Hi Hend Hk Ht. destruct (internal_settles p Hi Hend Hk) as (q & Hr & Hs & Htq).
  destruct Hs as [[err Hq]|(err & _ & Hq)]; [by exists q, err|]. by destruct Ht; apply Htq.
Qed.

(** A tick holds the process up. *)
Lemma tick_blocks p q err :
  rtc internal p q -> at_ p = Waiting err -> sched p = Ticking ->
  at_ q = Waiting err /\ sched q = Ticking.
Proof.
  induction 1 as [p|p1 p2 p3 H12 _ IH]; [done|]. intros Ha Ht. apply IH.
  all: destruct H12 as [Hs|Hs]; destruct Hs; cbn in *; congruence.
Qed.

(** C15: shutdown.  However requests, signals and a failing listener interleave
    with the scheduler: [run] closes the store only after the scheduler has
    returned, on a cancelled context; requests are left then only if the listener
    failed or the grace period was exceeded, and the error says so; no request
    comes in once the server stopped listening; a signal kills the process only
    after [stop()], while [run] waits for the scheduler.  Once the process was
    told to stop or its listener failed, its own steps, of which there are
    finitely many, take it to the end, or to waiting for a tick in progress.  It
    can always return when no tick is in progress; while it waits for one,
    nothing it does by itself gets it further, and once the tick has ended it can
    return. *)
Theorem shutdown_orderly p :
  rtc serve_step started p ->
  (forall err, at_ p = Returned err ->
     sched p = LoopReturned /\ cancelled p = true /\ (err = None -> inflight p = 0%nat))
  /\ (forall q, at_ p <> Listening -> external p q -> inflight q = inflight p)
  /\ (forall q, serve_step p q -> at_ q = Killed -> exists err, at_ p = Waiting err)
  /\ (forall q, internal p q -> (work_left q < work_left p)%nat)
  /\ (ending p -> at_ p <> Killed ->
      (exists q, rtc internal p q /\ settled q)
      /\ (sched p <> Ticking -> exists q err, rtc internal p q /\ at_ q = Returned err))
  /\ (forall err, at_ p = Waiting err -> sched p = Ticking ->
      (forall q, rtc internal p q -> at_ q = Waiting err /\ sched q = Ticking)
      /\ exists q r, tick_step p q /\ rtc internal q r /\ at_ r = Returned err).
Proof.
  intros Hr. pose proof (serve_inv p Hr) as Hi. pose proof Hi as [Hs Ha]. split_and!.
  - intros err E. rewrite E in Ha. tauto.
  - intros q Hn Hx. destruct Hx as [p Hp|p err Hp|p Hh|p msg Hh]; [done|done| |done].
    destruct (at_ p) eqn:E; [done|tauto..].
  - intros q Hq Hk. destruct Hq as [Hq|[Hq|[Hq|Hq]]]; destruct Hq; cbn in *; eauto; try congruence.
    + by rewrite Hk in *.
    + by rewrite Hk in *; destruct Ha as [_ []].
    + by rewrite Hk in *; destruct Ha as [_ []].
  - apply internal_decreases.
  - intros Hend Hk. split; [|by apply internal_returns].
    destruct (internal_settles p Hi Hend Hk) as (q & ? & ? & _). by exists q.
  - intros err E Et. split.
    + intros q Hq. by apply (tick_blocks p).
    + rewrite E in Ha. destruct Ha as (Hc & _).
      exists (mkProcess (cancelled p) Selecting (http p) (inflight p) (at_ p)).
      exists (mkProcess (cancelled p) LoopReturned (http p) (inflight p) (Returned err)).
      split; [apply tick_end; congruence|]. split; [|done].
      eapply rtc_l; [right; by apply int_scheduler; cbn; [|done|congruence]|].
      apply rtc_once. right. by apply (int_close (mkProcess _ _ _ _ _)).
Qed.

(** A request, a tick and a signal during the tick. *)
Definition draining : proc_state := mkProcess true Ticking ShutDown 1 ShuttingDown.

Lemma draining_reachable : rtc serve_step started draining.
Proof.
  eapply rtc_l; [left; by apply ext_request|]. eapply rtc_l; [right; left; by apply tick_begin|].
  eapply rtc_l; [left; by apply ext_signal|].
  eapply rtc_l; [right; right; left; by apply int_shutdown|]. apply rtc_refl.
Qed.

(** The deadline has passed and [run] waits for the tick. *)
Definition held_up : proc_state := mkProcess true Ticking ShutDown 1 (Waiting (Some deadline_exceeded)).

Lemma held_up_reachable : rtc serve_step started held_up.
Proof.
  etrans; [apply draining_reachable|]. eapply rtc_l; [right; right; left; by apply int_deadline|].
  apply rtc_once. right; right; right. by apply (int_stop (mkProcess _ _ _ _ _)).
Qed.

Lemma shutdown_orderly_witness :
  (exists q, rtc internal draining q /\ settled q)
  /\ exists q r, tick_step held_up q /\ rtc internal q r
       /\ at_ r = Returned (Some deadline_exceeded).
Proof.
  split.
  - apply (shutdown_orderly draining draining_reachable); [by left|done].
  - apply (shutdown_orderly held_up held_up_reachable); done.
Defined.

(** A request that outlives the grace period sees the store closed. *)
Example request_outlives_store :
  exists p, rtc serve_step started p /\ at_ p = Returned (Some deadline_exceeded) /\ inflight p = 1%nat.
Proof.
  exists (mkProcess true LoopReturned ShutDown 1 (Returned (Some deadline_exceeded))). split; [|done].
  etrans; [apply held_up_reachable|]. eapply rtc_l; [right; left; by apply tick_end|].
  eapply rtc_l; [right; right; right; by apply int_scheduler|].
  apply rtc_once. right; right; right. by apply (int_close (mkProcess _ _ _ _ _)).
Qed.

(** A second signal kills the process that waits for a tick: the store is not
    closed. *)
Example second_signal_kills :
  exists p, rtc serve_step started p /\ at_ p = Killed /\ sched p = Ticking.
Proof.
  exists (mkProcess true Ticking ShutDown 1 Killed). split; [|done].
  etrans; [apply held_up_reachable|]. apply rtc_once. left. by eapply (ext_kill held_up).
Qed.

(** ** A start-up *)

Definition empty_database (fs : list Postgres.fate) : Postgres.state :=
  Postgres.mkState (Postgres.mkTables ∅ ∅) fs [7000; 8000; 9000; 10000].

Definition with_etl_file (fs : list Postgres.fate) : surroundings :=
  mkSurroundings no_env (one_file etl_file) any_order (fun _ => None) (fun _ => empty_database fs).

(** In memory, and on PostgreSQL where the answer for the second job is lost. *)
Definition on_postgres : list string :=
  ["-store"; "postgres"; "-database-url"; "db"; "-jobs"; "jobs.json"].

Definition lossy : list Postgres.fate :=
  [Postgres.Done ∅; Postgres.Done ∅; Postgres.Done ∅; Postgres.Lost "eof"].

Lemma start_up_correct_witness :
  (exists s jobs, start_up (with_etl_file []) ["-jobs"; "jobs.json"]
      = Started (mkConfig ":8080" "memory" "" Second 4 (30 * Second) "jobs.json" "info") (OnMemory s)
    /\ LoadJobs (one_file etl_file) any_order "jobs.json" = Ok jobs
    /\ forall id, Memory.jobs s !! id = last_job id jobs)
  /\ exists s done j mid, start_up (with_etl_file lossy) on_postgres
      = Stopped (StoreError (Store.Backend "eof")) (Some (OnPostgres s))
    /\ upserts done (Postgres.view (Postgres.mkTables ∅ ∅)) (Postgres.view (Postgres.db_tables mid))
    /\ Postgres.PutJob j mid = (Err (Store.Backend "eof"), s).
Proof.
  split.
  - pose proof (start_up_correct (with_etl_file []) ["-jobs"; "jobs.json"]) as Hs.
    assert (exists s, start_up (with_etl_file []) ["-jobs"; "jobs.json"]
        = Started (mkConfig ":8080" "memory" "" Second 4 (30 * Second) "jobs.json" "info") (OnMemory s)) as [s Es].
    { eexists. vm_compute. reflexivity. }
    rewrite Es in Hs. destruct Hs as (_ & jobs & [[[=] _]|[_ Hj]] & _ & _ & Hjobs).
    exists s, jobs. split; [exact Es|]. split; [exact Hj|exact Hjobs].
  - pose proof (start_up_correct (with_etl_file lossy) on_postgres) as Hs.
    assert (exists s, start_up (with_etl_file lossy) on_postgres
        = Stopped (StoreError (Store.Backend "eof")) (Some (OnPostgres s))) as [s Es].
    { eexists. vm_compute. reflexivity. }
    rewrite Es in Hs.
    destruct Hs as (cfg & _ & _ & _ & pre & j & rest & mid & _ & Hpre & Hj & _).
    exists s, pre, j, mid. split; [exact Es|]. split; [exact Hpre|exact Hj].
Defined.

(** A server that does not answer. *)
Example database_down :
  start_up (with_etl_file [Postgres.Refused "connection refused"]) on_postgres
  = Stopped (OpenError (Postgres.PingFailed "connection refused")) None.
Proof. vm_compute. reflexivity. Qed.
